(* ===== verification/_CoqProject ===== *)
-Q . S2P
Prelude.v
Nvmm.v
RangeTree.v
Layout.v
World.v
Trace.v
Balloc.v
BallocList.v
BallocProofs.v
BallocShares.v
BallocCount.v
BallocInit.v
Journal.v
JournalProofs.v
Frame.v
InodeMap.v
InodeMapProofs.v
Log.v
LogPages.v
LogProofs.v
FileTree.v
Inode.v
Dir.v
Rebuild.v
InodeCycle.v
Dax.v
DaxProofs.v
AssignProofs.v
Truncate.v
FileInv.v
CowProofs.v
CowCrash.v
File.v
Namei.v
DirProofs.v
LogWalk.v
FileReplay.v
CowRecover.v
RebuildProofs.v
CrashProofs.v
Stats.v
Readdir.v
Ioctl.v
Wprotect.v
Bbuild.v
RangeLog.v
Scan.v
ScanProofs.v
RecoveryProofs.v
RestoreProofs.v
Module.v
Super.v
SuperProofs.v
