(* ===== verification/Prelude.v ===== *)
(** * NOVA: a verification of the log-structured NVMM file system

    NOVA keeps a file system in non-volatile main memory (NVMM) that the CPU
    loads from and stores to directly.  Every inode has its own log, a chain
    of 4K pages; an operation appends entries to the logs of the inodes it
    concerns and commits by moving the log tail, a single 8-byte store.
    Operations on several inodes move their tails in one transaction of a small
    undo journal, the lite journal, one per CPU.  The trees that lead from
    page offsets and name hashes to log entries, the lists of free blocks and
    the inode numbers in use are only in DRAM: they are saved at unmount,
    and otherwise rebuilt by scanning all logs.

    ** Modelling

    Operations are functions of the monad [M] of World.v: a state, the [world],
    and an outcome that is a result or a halt ([HBug] for BUG(), [HFault] for
    following a bad pointer, [HHang] for waiting for ever, [HFuel] for a loop
    that has used up its fuel).  The world holds NVMM with the stores that are
    not yet persistent (Nvmm.v), the in-memory super block with the free
    lists, the slab objects in use, the inodes in memory, and the history of
    NVMM states, over which statements about power failure are made.
    Integers are [Z] with every wrap-around written out ([u32], [u64], [s32],
    ...); structures on the medium are byte offsets into NVMM (Layout.v).
    Code of the kernel is a parameter: the classes [RbTree] with [RbTreeLaws]
    (rebalancing, erasure and iteration of red-black trees), [Env] with
    [EnvLaws] (slab, clock, CPU number, radix tree nodes), [Vfs] (what the VFS
    answers), [Uaccess] (user memory).  Each has an instance with which the
    witnesses compute.  One operation runs at a time; locks do not appear.

    Fuel: a loop over a chain of log pages or over the entries of a log has
    fuel for every byte of the device ([num_blocks * 4096]), because each pass
    moves on by at least one byte of a page not visited before in a
    well-formed log; a loop over the pages of a file has fuel for every page of
    its range; a loop over a tree has fuel for every node.  Where a theorem
    says that an operation returns [Done], the fuel was enough; a log that is
    a cycle makes the code loop, and the model runs out of fuel.

    ** Files

    - Prelude: integers, error numbers, lists, outcomes.
    - Nvmm: loads, stores, cache line write-back, fences, power failure.
    - RangeTree: range nodes in red-black trees (balloc.c,
      [nova_find_range_node] ...).
    - Layout: constants, structure offsets, address arithmetic (nova_def.h,
      nova.h).
    - World: in-memory structures and the monad (nova.h); Trace: the states of
      NVMM an operation passes through.
    - Balloc (balloc.c): the allocator; BallocList, BallocProofs, BallocShares,
      BallocCount, BallocInit: one list, all lists, the shares of the CPUs,
      counting, initialisation.
    - Journal, JournalProofs (journal.c, journal.h): the lite journal.
    - Frame: what operations leave alone.
    - InodeMap, InodeMapProofs (inode.c, balloc.c): inode numbers and slots.
    - Log, LogPages, LogProofs (inode.c, nova.h): inode logs, garbage
      collection, chains of pages, commit.
    - FileTree, Inode, InodeCycle (inode.c, nova.h): the page tree of a file,
      attributes and truncation, the life of an inode.
    - Dir, Rebuild (dir.c, bbuild.c, inode.c): directories; replaying logs.
    - Dax, DaxProofs, AssignProofs, Truncate, FileInv, CowProofs, CowCrash
      (dax.c, inode.c): reading, writing, block mapping; the abstract file,
      refinement, and power failure during a write.
    - File, Namei, DirProofs, Readdir (file.c, symlink.c, namei.c, dir.c): file
      operations, names, adding names.
    - LogWalk, FileReplay, RebuildProofs, CrashProofs (bbuild.c, inode.c, dir.c):
      walking through a log of either kind ([log_kind]), rebuilding files and
      directories, reading after a failure.
    - Stats, Ioctl, Wprotect (stats.h, stats.c, sysfs.c, ioctl.c, wprotect.c,
      wprotect.h): counters and printing, ioctls, write protection.
    - Bbuild, RangeLog, Scan, ScanProofs, RecoveryProofs, RestoreProofs
      (bbuild.c): saving and restoring the allocator, the scan after a
      failure.
    - Module, Super, SuperProofs (super.c, sysfs.c): the module and its caches,
      mounting, options, the super block.

    ** Theorems

    Files.  A page tree and its write entries denote a function from offsets
    to bytes.  [nova_dax_file_read] returns its bytes, [nova_cow_file_write]
    updates it or fails without effect, and both compose; whenever the power
    fails during a write the medium denotes the old file or the new one, and
    rebuilding an inode computes the tree its log denotes; the invariant
    [file_inv] says that entries, inode and data blocks are apart, data blocks
    are in use and owned once, and the counts of invalid pages are exact.
    These counts are not durable: after a failure a read of several pages can
    return old data, though the rebuilt tree is right.

    Logs and directories.  Appending and moving the tail is atomic under power
    failure; growing and freeing a log touch exactly its pages; a directory
    rebuilt from its log is the map of the names added and removed, and adding
    a name keeps tree and log in step.

    Allocator.  Allocation and freeing are set operations on the free blocks
    of an allocator in its invariant, the counts are exact, what unmount saves
    mount restores, and after a failure the free blocks are those no thread
    has marked.

    Journal, inode numbers, mounting.  A transaction is durable when its call
    returns and leaves an idle journal when committed; numbers are handed out
    and taken back as in a set; the super block check accepts what was
    written.  Several theorems state what the code does where it does not do
    what it means to: they are listed with the findings.

    ** Not modelled

    Code under [#if 0] (in dax.c, file.c, dir.c and wprotect.h), the tables of
    operations handed to the VFS, prototypes, message macros, the build files
    and scripts.  Interleavings of operations that run at once are left out:
    the locks of the code serialise what shares state.  The recovery threads
    each have their own ring and bitmap; they run one after the other, in an
    order that is a parameter of Scan.v. *)
From Stdlib Require Export Lia.
From stdpp Require Export base numbers option gmap list.

#[global] Open Scope Z_scope.

(** ** Machine integers

    A C integer of width [w] is a [Z]; every place where the C arithmetic
    wraps applies one of these.  [u64] stands for [unsigned long], [u64]
    and [size_t], [s32] for the conversion to [int]. *)
Definition wrap (w z : Z) : Z := z mod 2 ^ w.
#[global] Arguments wrap : simpl never.
Abbreviation u8 := (wrap 8).
Abbreviation u16 := (wrap 16).
Abbreviation u32 := (wrap 32).
Abbreviation u64 := (wrap 64).

Definition s32 (z : Z) : Z :=
  let r := u32 z in if decide (r < 2 ^ 31) then r else r - 2 ^ 32.
Definition s64 (z : Z) : Z :=
  let r := u64 z in if decide (r < 2 ^ 63) then r else r - 2 ^ 64.
#[global] Arguments s32 : simpl never.
#[global] Arguments s64 : simpl never.

Lemma wrap_small w z : 0 ≤ z < 2 ^ w → wrap w z = z.
Proof. apply Z.mod_small. Qed.

Lemma wrap_range w z : 0 ≤ w → 0 ≤ wrap w z < 2 ^ w.
Proof. intros; apply Z.mod_pos_bound; lia. Qed.

Lemma wrap_wrap w z : 0 ≤ w → wrap w (wrap w z) = wrap w z.
Proof. intros. apply wrap_small, wrap_range; done. Qed.

Lemma s32_small z : - 2 ^ 31 ≤ z < 2 ^ 31 → s32 z = z.
Proof.
  intros Hz. unfold s32, wrap.
  destruct (decide (0 ≤ z)).
  - rewrite Z.mod_small by lia. case_decide; lia.
  - replace (z mod 2 ^ 32) with (z + 2 ^ 32).
    + case_decide; lia.
    + apply Z.mod_unique with (-1); lia.
Qed.

Lemma s64_small z : - 2 ^ 63 ≤ z < 2 ^ 63 → s64 z = z.
Proof.
  intros Hz. unfold s64, wrap.
  destruct (decide (0 ≤ z)).
  - rewrite Z.mod_small by lia. case_decide; lia.
  - replace (z mod 2 ^ 64) with (z + 2 ^ 64).
    + case_decide; lia.
    + apply Z.mod_unique with (-1); lia.
Qed.

(** ** Kernel constants the sources use *)
Definition PAGE_SHIFT : Z := 12.
Definition PAGE_SIZE : Z := 4096.

Definition EPERM : Z := 1.
Definition ENOENT : Z := 2.
Definition EIO : Z := 5.
Definition ENOMEM : Z := 12.
Definition EACCES : Z := 13.
Definition EFAULT : Z := 14.
Definition EEXIST : Z := 17.
Definition EINVAL : Z := 22.
Definition ENOTTY : Z := 25.
Definition ENOSPC : Z := 28.
Definition EMLINK : Z := 31.
Definition ENAMETOOLONG : Z := 36.
Definition ENOTEMPTY : Z := 39.
Definition ENXIO : Z := 6.
Definition ENODATA : Z := 61.
Definition ESTALE : Z := 116.

(** ** Outcomes

    A run of the code ends with a value ([Done]); or in [BUG()], in an
    access through a dangling or null pointer or a division by zero, in a wait
    that never ends; or the fuel that bounds a loop of the model was too
    small. *)
Inductive halt := HBug | HFault | HHang | HFuel.

Inductive outcome (A : Type) :=
| Done (a : A)
| Halt (why : halt).
Arguments Done {_} _.
Arguments Halt {_} _.

#[global] Instance outcome_ret : MRet outcome := λ A, Done.
#[global] Instance outcome_bind : MBind outcome := λ A B k o,
  match o with Done a => k a | Halt h => Halt h end.

#[global] Instance halt_eq_dec : EqDecision halt.
Proof. solve_decision. Defined.
#[global] Instance outcome_eq_dec `{EqDecision A} : EqDecision (outcome A).
Proof. solve_decision. Defined.

Lemma outcome_bind_Done {A B} (o : outcome A) (k : A → outcome B) b :
  o ≫= k = Done b ↔ ∃ a, o = Done a ∧ k a = Done b.
Proof. destruct o; cbn; naive_solver. Qed.

(** ** Tactics *)

(** Case analysis on the tests of the code. *)
Ltac split_ifs := repeat (case_decide || case_match); simplify_eq.

(** Removes the wrap-arounds of in-range values. *)
Ltac unwrap := repeat (rewrite wrap_small by lia).
Ltac unwrap_in H := repeat (rewrite wrap_small in H by lia).

(** ** Lists *)
Lemma last_cons_app {A} (l1 l2 : list A) x :
  last (l1 ++ x :: l2) = last (x :: l2).
Proof. rewrite last_app. by destruct (last_is_Some (x :: l2)) as [_ [y ->]]. Qed.

Lemma last_None_nil {A} (l : list A) : last l = None → l = [].
Proof. apply last_None. Qed.

Lemma filter_all {A} (P : A → Prop) `{∀ x, Decision (P x)} (l : list A) :
  Forall P l → filter P l = l.
Proof.
  induction 1; [done|]. rewrite filter_cons_True by done. by f_equal.
Qed.

Lemma filter_none {A} (P : A → Prop) `{∀ x, Decision (P x)} (l : list A) :
  Forall (λ x, ¬ P x) l → filter P l = [].
Proof. induction 1; [done|]. by rewrite filter_cons_False by done. Qed.

Lemma fmap_id_on {A} (f : A → A) (l : list A) :
  (∀ x, x ∈ l → f x = x) → f <$> l = l.
Proof.
  induction l as [|x l IH]; intros Hf; [done|]. cbn.
  rewrite Hf by set_solver. f_equal. apply IH. set_solver.
Qed.

Lemma bind_replicate_nil {A B} n (x : A) (f : A → list B) :
  f x = [] → replicate n x ≫= f = [].
Proof. intros Hx. induction n; cbn; [done|]. by rewrite Hx. Qed.

Lemma list_bind_ext_in {A B} (f g : A → list B) (l : list A) :
  (∀ x, x ∈ l → f x = g x) → l ≫= f = l ≫= g.
Proof.
  induction l as [|x l IH]; intros Hf; [done|]. rewrite !bind_cons, Hf by set_solver.
  f_equal. apply IH. set_solver.
Qed.

Definition Zsum (l : list Z) : Z := foldr Z.add 0 l.
#[global] Arguments Zsum : simpl never.

Lemma Zsum_nil : Zsum [] = 0.
Proof. done. Qed.
Lemma Zsum_cons x l : Zsum (x :: l) = x + Zsum l.
Proof. done. Qed.

Lemma Zsum_app l1 l2 : Zsum (l1 ++ l2) = Zsum l1 + Zsum l2.
Proof. induction l1; simpl; rewrite ?Zsum_nil, ?Zsum_cons; lia. Qed.

Lemma Zsum_nonneg l : Forall (λ x, 0 ≤ x) l → 0 ≤ Zsum l.
Proof. induction 1; rewrite ?Zsum_nil, ?Zsum_cons; lia. Qed.

Lemma Zsum_bound l B : Forall (λ x, x ≤ B) l → Zsum l ≤ B * Z.of_nat (length l).
Proof. induction 1; rewrite ?Zsum_nil, ?Zsum_cons; cbn; lia. Qed.

(** A list without repetitions, minus one element [b]. *)
Lemma NoDup_minus (x : Z) (L : list Z) (b : Z) :
  NoDup (x :: L) →
  ∃ L', NoDup L' ∧ (length L ≤ length L')%nat ∧ ∀ y, y ∈ L' → y ∈ x :: L ∧ y ≠ b.
Proof.
  intros Hnd. exists (filter (λ y, y ≠ b) (x :: L)). split_and!.
  - by apply NoDup_filter.
  - clear -Hnd. assert (length (x :: L) ≤ S (length (filter (λ y, y ≠ b) (x :: L))))%nat;
      [|cbn [length] in *; lia].
    revert Hnd. generalize (x :: L) as l. intros l Hnd.
    induction Hnd as [|y l Hy Hnd IH]; [cbn; lia|].
    rewrite filter_cons. case_decide as Hd; cbn [length]; [lia|].
    rewrite filter_all; [lia|]. apply Forall_forall. intros z Hz.
    assert (y = b) as -> by (destruct (decide (y = b)); tauto). by intros ->.
  - intros y Hy%list_elem_of_filter. tauto.
Qed.

Create HintDb nova.
