(* ===== verification/Nvmm.v ===== *)
(** * Non-volatile main memory

    The NVMM device as a byte-addressed memory.  An address is an offset
    from [sbi->virt_addr], the address the code passes to [nova_get_block];
    [nova_get_block] turns offset 0 into the null pointer.  Fields are
    little-endian, as the code's [__le16]/[__le32]/[__le64] on x86-64.

    [nvmm] also keeps the order in which stores become persistent: stores
    of the CPU are visible at once, and survive a power failure for sure
    only once their cache lines were written back ([nova_flush_buffer], or
    a non-temporal store) and a fence ([PERSISTENT_BARRIER]) followed. *)
From S2P Require Import Prelude.

(** ** Byte memory *)
Abbreviation mem := (gmap Z Z).

Definition ld8 (m : mem) (a : Z) : Z := u8 (default 0 (m !! a)).

Fixpoint ld (n : nat) (m : mem) (a : Z) : Z :=
  match n with
  | O => 0
  | S n => ld8 m a + 256 * ld n m (a + 1)
  end.

Fixpoint le_split (n : nat) (v : Z) : list Z :=
  match n with
  | O => []
  | S n => v mod 256 :: le_split n (v / 256)
  end.

Fixpoint st_bytes (m : mem) (a : Z) (bs : list Z) : mem :=
  match bs with
  | [] => m
  | b :: bs => st_bytes (<[a := b]> m) (a + 1) bs
  end.

Fixpoint ld_bytes (n : nat) (m : mem) (a : Z) : list Z :=
  match n with
  | O => []
  | S n => ld8 m a :: ld_bytes n m (a + 1)
  end.

(** Bytes that were never stored read as zero, so clearing a range removes
    its bindings. *)
Definition zero_range (m : mem) (a len : Z) : mem :=
  filter (λ kv, ¬ (a ≤ kv.1 < a + len)) m.

Definition ld16 := ld 2.
Definition ld32 := ld 4.
Definition ld64 := ld 8.

Lemma ld8_range m a : 0 ≤ ld8 m a < 256.
Proof. apply (wrap_range 8); lia. Qed.

Lemma ld_range n m a : 0 ≤ ld n m a < 256 ^ Z.of_nat n.
Proof.
  revert a; induction n as [|n IH]; intros a; [simpl; lia|].
  cbn [ld]. rewrite Nat2Z.inj_succ, Z.pow_succ_r by lia.
  specialize (IH (a + 1)). pose proof (ld8_range m a). lia.
Qed.

Lemma ld64_range m a : 0 ≤ ld64 m a < 2 ^ 64.
Proof. apply (ld_range 8). Qed.

Lemma length_le_split n v : length (le_split n v) = n.
Proof. revert v; induction n; simpl; auto. Qed.

Lemma le_split_byte n v i b : le_split n v !! i = Some b → 0 ≤ b < 256.
Proof.
  revert v i; induction n as [|n IH]; intros v i; [done|].
  destruct i; simpl; [intros [= <-]; apply Z.mod_pos_bound; lia|apply IH].
Qed.

Lemma ld8_insert m a b x :
  ld8 (<[a := b]> m) x = if decide (a = x) then u8 b else ld8 m x.
Proof. unfold ld8. rewrite lookup_insert. by case_decide. Qed.

Lemma ld8_st_bytes_out m a bs x :
  x < a ∨ a + Z.of_nat (length bs) ≤ x → ld8 (st_bytes m a bs) x = ld8 m x.
Proof.
  revert m a; induction bs as [|b bs IH]; intros m a Hx; [done|].
  cbn in *. rewrite IH by lia. rewrite ld8_insert, decide_False by lia. done.
Qed.

Lemma ld8_st_bytes_in m a bs (i : nat) b :
  bs !! i = Some b → ld8 (st_bytes m a bs) (a + Z.of_nat i) = u8 b.
Proof.
  revert m a i; induction bs as [|b' bs IH]; intros m a i; [done|].
  destruct i as [|i]; cbn [lookup list_lookup st_bytes].
  - intros [= ->]. rewrite Z.add_0_r, ld8_st_bytes_out by lia.
    by rewrite ld8_insert, decide_True by lia.
  - intros Hi. rewrite <- (IH (<[a:=b']> m) (a + 1) i Hi). f_equal; lia.
Qed.

Lemma ld_frame n m m' a :
  (∀ x, a ≤ x < a + Z.of_nat n → ld8 m' x = ld8 m x) → ld n m' a = ld n m a.
Proof.
  revert a; induction n as [|n IH]; intros a Hx; [done|].
  cbn [ld]. rewrite Hx, IH by lia || (intros; apply Hx; lia). done.
Qed.

Lemma ld_move n m m' a a' :
  (∀ i, 0 ≤ i < Z.of_nat n → ld8 m' (a' + i) = ld8 m (a + i)) → ld n m' a' = ld n m a.
Proof.
  revert a a'; induction n as [|n IH]; intros a a' Hx; [done|]. cbn [ld].
  rewrite <- (Z.add_0_r a), <- (Z.add_0_r a'), Hx, !Z.add_0_r by lia. do 2 f_equal.
  apply IH. intros i Hi. rewrite <- !Z.add_assoc. apply Hx. lia.
Qed.

Lemma ld_bytes_frame n m m' a :
  (∀ x, a ≤ x < a + Z.of_nat n → ld8 m' x = ld8 m x) →
  ld_bytes n m' a = ld_bytes n m a.
Proof.
  revert a; induction n as [|n IH]; intros a Hx; [done|].
  cbn [ld_bytes]. rewrite Hx, IH by lia || (intros; apply Hx; lia). done.
Qed.

Lemma ld_st_bytes_out n m a bs x :
  x + Z.of_nat n ≤ a ∨ a + Z.of_nat (length bs) ≤ x →
  ld n (st_bytes m a bs) x = ld n m x.
Proof. intros. apply ld_frame. intros. apply ld8_st_bytes_out. lia. Qed.

Lemma ld_st_bytes_le n m a v k :
  (n ≤ k)%nat → ld n (st_bytes m a (le_split k v)) a = v mod 256 ^ Z.of_nat n.
Proof.
  revert m a v k; induction n as [|n IH]; intros m a v k Hk.
  { cbn. by rewrite Z.mod_1_r. }
  destruct k as [|k]; [lia|]. cbn [ld le_split st_bytes].
  rewrite IH by lia. rewrite ld8_st_bytes_out by lia.
  rewrite ld8_insert, decide_True by done. unfold wrap.
  rewrite Nat2Z.inj_succ, Z.pow_succ_r by lia.
  rewrite Zmod_mod, Z.rem_mul_r by lia. done.
Qed.

(** Reading a field back gives the value stored, truncated to its width. *)
Lemma ld_st n m a v :
  ld n (st_bytes m a (le_split n v)) a = v mod 256 ^ Z.of_nat n.
Proof. apply ld_st_bytes_le. lia. Qed.

Lemma length_ld_bytes n m a : length (ld_bytes n m a) = n.
Proof. revert a; induction n; simpl; auto. Qed.

(** Copying bytes out and back in is the identity on fields. *)
Lemma ld_bytes_st_bytes m a bs :
  Forall (λ b, 0 ≤ b < 256) bs →
  ld_bytes (length bs) (st_bytes m a bs) a = bs.
Proof.
  intros Hbs. revert m a; induction Hbs as [|b bs Hb _ IH]; intros m a; [done|].
  cbn [length ld_bytes st_bytes]. rewrite IH. f_equal.
  rewrite ld8_st_bytes_out, ld8_insert, decide_True by lia.
  apply wrap_small; lia.
Qed.

Lemma ld_bytes_app n k m a :
  ld_bytes (n + k) m a = ld_bytes n m a ++ ld_bytes k m (a + Z.of_nat n).
Proof.
  revert a; induction n as [|n IH]; intros a; cbn [ld_bytes Nat.add app].
  { by rewrite Z.add_0_r. }
  rewrite IH. do 3 f_equal. lia.
Qed.

Lemma ld_of_split n m a v : ld_bytes n m a = le_split n v → ld n m a = v mod 256 ^ Z.of_nat n.
Proof.
  revert a v; induction n as [|n IH]; intros a v; cbn [ld_bytes le_split ld].
  { intros _. by rewrite Z.mod_1_r. }
  intros [= -> Hr%IH]. rewrite Hr, Nat2Z.inj_succ, Z.pow_succ_r, Z.rem_mul_r by lia. done.
Qed.

(** A field of a structure that was copied as a whole. *)
Lemma ld_field N m a pre n v post :
  ld_bytes N m a = pre ++ le_split n v ++ post →
  ld n m (a + Z.of_nat (length pre)) = v mod 256 ^ Z.of_nat n.
Proof.
  intros Hb. apply ld_of_split.
  assert (N = length pre + (n + length post))%nat as ->.
  { rewrite <- (length_ld_bytes N m a), Hb, !length_app, length_le_split. done. }
  rewrite !ld_bytes_app in Hb.
  apply app_inj_1 in Hb as [_ Hb]; [|apply length_ld_bytes].
  apply app_inj_1 in Hb as [Hb _]; [done|].
  by rewrite length_ld_bytes, length_le_split.
Qed.

Lemma ld8_zero_range m a len x :
  ld8 (zero_range m a len) x = if decide (a ≤ x < a + len) then 0 else ld8 m x.
Proof.
  unfold ld8, zero_range. rewrite map_lookup_filter.
  destruct (m !! x) as [b|]; simpl; repeat case_guard; case_decide;
    simpl in *; try done; lia.
Qed.

Lemma ld_zero_range_in n m a len x :
  a ≤ x → x + Z.of_nat n ≤ a + len → ld n (zero_range m a len) x = 0.
Proof.
  revert x; induction n as [|n IH]; intros x H1 H2; [done|]. cbn [ld].
  rewrite IH, ld8_zero_range, decide_True by lia. done.
Qed.

Lemma ld_zero_range_out n m a len x :
  x + Z.of_nat n ≤ a ∨ a + len ≤ x → ld n (zero_range m a len) x = ld n m x.
Proof.
  intros. apply ld_frame. intros. rewrite ld8_zero_range, decide_False by lia.
  done.
Qed.

(** ** Stores, write-back and fences *)
Inductive write :=
| WBytes (a : Z) (bs : list Z)
| WZero (a len : Z).

Definition apply_write (m : mem) (w : write) : mem :=
  match w with
  | WBytes a bs => st_bytes m a bs
  | WZero a len => zero_range m a len
  end.
Definition apply_writes (m : mem) (ws : list write) : mem := foldl apply_write m ws.

Definition write_touches (w : write) (x : Z) : Prop :=
  match w with
  | WBytes a bs => a ≤ x < a + Z.of_nat (length bs)
  | WZero a len => a ≤ x < a + len
  end.
#[global] Instance write_touches_dec w x : Decision (write_touches w x).
Proof. destruct w; apply _. Defined.

Inductive wstatus := Cached | WrittenBack | Durable.
#[global] Instance wstatus_eq_dec : EqDecision wstatus.
Proof. solve_decision. Defined.

(** [vis] is what loads return; [base] and [plog] are the content at the
    last boot and every store since, in program order. *)
Record nvmm := Nvmm { vis : mem; base : mem; plog : list (write * wstatus) }.

Definition nvmm_boot (m : mem) : nvmm := Nvmm m m [].

Definition nvmm_write (s : wstatus) (w : write) (p : nvmm) : nvmm :=
  Nvmm (apply_write (vis p) w) (base p) (plog p ++ [(w, s)]).

Definition CACHELINE_SIZE : Z := 64.

(** The cache lines [nova_flush_buffer] writes back: the line of [buf] and
    the following ones, one per 64 bytes of the adjusted length. *)
Definition flush_lo (buf : Z) : Z := buf - buf mod CACHELINE_SIZE.
Definition flush_hi (buf len : Z) : Z :=
  flush_lo buf +
  CACHELINE_SIZE * ((u32 (len + buf mod CACHELINE_SIZE) + CACHELINE_SIZE - 1)
                      / CACHELINE_SIZE).

Definition write_within (lo hi : Z) (w : write) : Prop :=
  match w with
  | WBytes a bs => lo ≤ a ∧ a + Z.of_nat (length bs) ≤ hi
  | WZero a len => lo ≤ a ∧ a + len ≤ hi
  end.
#[global] Instance write_within_dec lo hi w : Decision (write_within lo hi w).
Proof. destruct w; apply _. Defined.

Definition clwb_write (lo hi : Z) (e : write * wstatus) : write * wstatus :=
  if decide (e.2 = Cached ∧ write_within lo hi e.1) then (e.1, WrittenBack) else e.

Definition fence_write (e : write * wstatus) : write * wstatus :=
  if decide (e.2 = WrittenBack) then (e.1, Durable) else e.

Definition PERSISTENT_BARRIER (p : nvmm) : nvmm :=
  Nvmm (vis p) (base p) (fence_write <$> plog p).

Definition nova_flush_buffer (buf len : Z) (fence : bool) (p : nvmm) : nvmm :=
  let p1 := Nvmm (vis p) (base p)
              (clwb_write (flush_lo buf) (flush_hi buf len) <$> plog p) in
  if fence then PERSISTENT_BARRIER p1 else p1.

(** ** Power failure

    After a power failure any part of the stores that are not yet durable may
    have reached the medium, in their order; what reaches it of one store are
    whole aligned words of 8 bytes ([keep] says which). *)
Definition torn (keep : Z → bool) (w : write) (m m1 : mem) : Prop :=
  ∀ x, ld8 m1 x = if decide (write_touches w x ∧ keep (x / 8) = true)
                  then ld8 (apply_write m w) x else ld8 m x.

Inductive crashes : mem → list (write * wstatus) → mem → Prop :=
| crashes_nil m : crashes m [] m
| crashes_keep m w s l m' : crashes (apply_write m w) l m' → crashes m ((w, s) :: l) m'
| crashes_torn keep m m1 w s l m' :
    s ≠ Durable → torn keep w m m1 → crashes m1 l m' → crashes m ((w, s) :: l) m'.

Definition crash_image (p : nvmm) (m : mem) : Prop := crashes (base p) (plog p) m.

Definition nvmm_ok (p : nvmm) : Prop :=
  vis p = apply_writes (base p) (plog p).*1.

Lemma nvmm_ok_boot m : nvmm_ok (nvmm_boot m).
Proof. done. Qed.

Lemma nvmm_ok_write s w p : nvmm_ok p → nvmm_ok (nvmm_write s w p).
Proof.
  unfold nvmm_ok, apply_writes; cbn. rewrite fmap_app, foldl_app. by intros ->.
Qed.

Lemma nvmm_ok_remap f p :
  (∀ e, (f e).1 = e.1) → nvmm_ok p → nvmm_ok (Nvmm (vis p) (base p) (f <$> plog p)).
Proof.
  intros Hf. unfold nvmm_ok; cbn. intros ->. f_equal.
  rewrite <- list_fmap_compose. apply list_fmap_ext; intros; simpl; by rewrite Hf.
Qed.

Lemma fence_write_fst e : (fence_write e).1 = e.1.
Proof. unfold fence_write. by case_decide. Qed.
Lemma clwb_write_fst lo hi e : (clwb_write lo hi e).1 = e.1.
Proof. unfold clwb_write. by case_decide. Qed.

Lemma nvmm_ok_barrier p : nvmm_ok p → nvmm_ok (PERSISTENT_BARRIER p).
Proof. apply nvmm_ok_remap, fence_write_fst. Qed.

Lemma nvmm_ok_flush buf len f p : nvmm_ok p → nvmm_ok (nova_flush_buffer buf len f p).
Proof.
  intros Hp. unfold nova_flush_buffer.
  destruct f; [apply nvmm_ok_barrier|];
    (apply nvmm_ok_remap; [apply clwb_write_fst|done]).
Qed.

Lemma vis_flush buf len f p : vis (nova_flush_buffer buf len f p) = vis p.
Proof. by destruct f. Qed.

#[export] Hint Resolve nvmm_ok_boot nvmm_ok_write nvmm_ok_barrier nvmm_ok_flush : nova.

Lemma apply_write_untouched w m x :
  ¬ write_touches w x → ld8 (apply_write m w) x = ld8 m x.
Proof.
  destruct w as [a bs|a len]; cbn; intros Hx.
  - apply ld8_st_bytes_out. lia.
  - by rewrite ld8_zero_range, decide_False.
Qed.

Lemma apply_write_agree w m1 m2 x :
  ld8 m1 x = ld8 m2 x → ld8 (apply_write m1 w) x = ld8 (apply_write m2 w) x.
Proof.
  intros Hx. destruct (decide (write_touches w x)) as [Ht|Ht].
  - destruct w as [a bs|a len]; cbn in *.
    + destruct (lookup_lt_is_Some_2 bs (Z.to_nat (x - a))) as [b Hb]; [lia|].
      replace x with (a + Z.of_nat (Z.to_nat (x - a))) by lia.
      by rewrite !(ld8_st_bytes_in _ _ _ _ _ Hb).
    + by rewrite !ld8_zero_range, !decide_True.
  - by rewrite !apply_write_untouched.
Qed.

Lemma crashes_agree l x m1 m2 m :
  crashes m1 l m →
  Forall (λ e, e.2 ≠ Durable → ¬ write_touches e.1 x) l →
  ld8 m1 x = ld8 m2 x →
  ld8 m x = ld8 (apply_writes m2 l.*1) x.
Proof.
  intros Hp. revert m2.
  induction Hp as [|m1 w s l m Hp IH|keep m1 m1' w s l m Hs Htorn Hp IH];
    intros m2 Hl Hx; [done| |]; apply Forall_cons in Hl as [Hw Hl]; cbn in *.
  - apply IH; [done|]. by apply apply_write_agree.
  - apply IH; [done|]. rewrite Htorn, decide_False by (intros [? _]; by apply Hw).
    by rewrite apply_write_untouched by auto.
Qed.

(** Nothing, or everything, of the stores may have reached the medium. *)
Lemma crashes_all m l : crashes m l (apply_writes m l.*1).
Proof. revert m. induction l as [|[w s] l IH]; intros m; cbn; by constructor. Qed.

Lemma crashes_app m1 l1 m2 l2 m3 :
  crashes m1 l1 m2 → crashes m2 l2 m3 → crashes m1 (l1 ++ l2) m3.
Proof. induction 1; cbn; [done|constructor; auto|]. intros. eapply crashes_torn; eauto. Qed.

Lemma crashes_drop m w s l m' :
  s ≠ Durable → crashes m l m' → crashes m ((w, s) :: l) m'.
Proof.
  intros Hs Hl. apply (crashes_torn (λ _, false) m m); [done| |done].
  intros x. by rewrite decide_False by (by intros []).
Qed.

Lemma crashes_app_inv m l1 l2 m' :
  crashes m (l1 ++ l2) m' → ∃ m1, crashes m l1 m1 ∧ crashes m1 l2 m'.
Proof.
  revert m. induction l1 as [|[w s] l1 IH]; intros m Hl; cbn in *.
  { exists m. split; [constructor|done]. }
  inversion_clear Hl as [|? ? ? ? ? Hc|keep ? ? ? ? ? ? Hs Ht Hc];
    apply IH in Hc as (m2&?&?); exists m2; (split; [|done]).
  - by constructor.
  - by eapply crashes_torn.
Qed.

(** A byte that only durable stores touched survives a power failure. *)
Lemma crash_image_durable p m x :
  nvmm_ok p → crash_image p m →
  Forall (λ e, e.2 ≠ Durable → ¬ write_touches e.1 x) (plog p) →
  ld8 m x = ld8 (vis p) x.
Proof.
  intros Hok Hc Hl. rewrite Hok. by eapply crashes_agree.
Qed.

(** ** What is certain to survive *)

(** No store that touches [x] is still in the cache only. *)
Definition written_back (p : nvmm) (x : Z) : Prop :=
  Forall (λ e, e.2 = Cached → ¬ write_touches e.1 x) (plog p).
(** Every store that touches [x] is durable. *)
Definition settled (p : nvmm) (x : Z) : Prop :=
  Forall (λ e, e.2 ≠ Durable → ¬ write_touches e.1 x) (plog p).

Lemma settled_crash p m x :
  nvmm_ok p → crash_image p m → settled p x → ld8 m x = ld8 (vis p) x.
Proof. apply crash_image_durable. Qed.

Lemma settled_written_back p x : settled p x → written_back p x.
Proof.
  intros Hp. eapply Forall_impl; [done|]. intros e He Hs. apply He. by rewrite Hs.
Qed.

Lemma written_back_write s w p x :
  written_back p x → s ≠ Cached ∨ ¬ write_touches w x →
  written_back (nvmm_write s w p) x.
Proof.
  intros Hp Hs. apply Forall_app. split; [done|]. apply Forall_singleton. cbn.
  intuition.
Qed.

Lemma settled_write s w p x :
  settled p x → ¬ write_touches w x → settled (nvmm_write s w p) x.
Proof.
  intros Hp Hs. apply Forall_app. split; [done|]. by apply Forall_singleton.
Qed.

Lemma settled_barrier p x : written_back p x → settled (PERSISTENT_BARRIER p) x.
Proof.
  intros Hp. unfold settled. cbn. apply Forall_fmap. eapply Forall_impl; [done|].
  intros [w s] He Hs. unfold fence_write in *. cbn in *.
  destruct s; cbn in *; by auto.
Qed.

Lemma settled_fence p x : settled p x → settled (PERSISTENT_BARRIER p) x.
Proof. intros. by apply settled_barrier, settled_written_back. Qed.

Lemma written_back_flush buf len p x :
  written_back p x → written_back (nova_flush_buffer buf len false p) x.
Proof.
  intros Hp. unfold written_back. cbn. apply Forall_fmap. eapply Forall_impl; [done|].
  intros [w s] He Hs. unfold clwb_write in *. case_decide; cbn in *; by auto.
Qed.

(** A store whose cache lines are flushed at once. *)
Lemma written_back_store_flush buf len s w p x :
  written_back p x → write_within (flush_lo buf) (flush_hi buf len) w →
  written_back (nova_flush_buffer buf len false (nvmm_write s w p)) x.
Proof.
  intros Hp Hw. unfold written_back. cbn. rewrite fmap_app. apply Forall_app. split.
  - by apply written_back_flush.
  - apply Forall_singleton. unfold clwb_write. case_decide as Hc; cbn in *; [done|].
    intros ->. naive_solver.
Qed.

Lemma settled_flush buf len f p x :
  settled p x → settled (nova_flush_buffer buf len f p) x.
Proof.
  intros Hp.
  assert (settled (nova_flush_buffer buf len false p) x) as Hf.
  { unfold settled. cbn. apply Forall_fmap. eapply Forall_impl; [done|].
    intros [w s] He Hs. unfold clwb_write in *.
    case_decide as Hd; cbn in *; [|by auto]. apply He. naive_solver. }
  destruct f; [|done]. by apply settled_fence.
Qed.

Lemma settled_flush_fence buf len p x :
  written_back (nova_flush_buffer buf len false p) x →
  settled (nova_flush_buffer buf len true p) x.
Proof. apply settled_barrier. Qed.

#[global] Arguments ld : simpl never.
#[global] Arguments ld_bytes : simpl never.
#[global] Arguments st_bytes : simpl never.
#[global] Arguments le_split : simpl never.
#[global] Arguments zero_range : simpl never.
#[global] Arguments flush_lo : simpl never.
#[global] Arguments flush_hi : simpl never.

(** An aligned field of 8 bytes is overwritten as a whole: after a power
    failure it has the old or the new value. *)
Lemma ld_word n m m' a :
  (∀ x, a ≤ x < a + Z.of_nat n → x / 8 = a / 8 → ld8 m' x = ld8 m x) →
  a mod 8 + Z.of_nat n ≤ 8 → ld n m' a = ld n m a.
Proof.
  intros Hx Ha. apply ld_frame. intros x Hr. apply Hx; [done|].
  symmetry. apply Z.div_unique with (x - 8 * (a / 8)); [|lia].
  pose proof (Z.div_mod a 8 ltac:(lia)). pose proof (Z.mod_pos_bound a 8). lia.
Qed.

Lemma crash_store_atomic p m s a v :
  nvmm_ok p → crash_image (nvmm_write s (WBytes a (le_split 8 v)) p) m →
  a mod 8 = 0 → (∀ x, a ≤ x < a + 8 → settled p x) →
  ld 8 m a = ld 8 (vis p) a ∨ ld 8 m a = v mod 2 ^ 64.
Proof.
  intros Hok Hc Ha Hset. unfold crash_image in Hc. cbn in Hc.
  apply crashes_app_inv in Hc as (m1&Hc1&Hc2).
  assert (ld 8 m1 a = ld 8 (vis p) a) as Hm1.
  { apply ld_frame. intros x Hx. eapply settled_crash; [done|done|]. apply Hset. lia. }
  inversion_clear Hc2 as [|? ? ? ? ? Hc3|keep ? m2 ? ? ? ? Hs Ht Hc3]; inversion Hc3; subst.
  - right. exact (ld_st 8 m1 a v).
  - destruct (keep (a / 8)) eqn:Hk.
    + right. change (2 ^ 64) with (256 ^ Z.of_nat 8). rewrite <- (ld_st 8 m1 a v).
      apply ld_word; [|lia].
      intros x Hx Hd. rewrite Ht, decide_True; [done|]. rewrite Hd. cbn.
      by rewrite length_le_split.
    + left. rewrite <- Hm1. apply ld_word; [|lia].
      intros x Hx Hd. rewrite Ht, decide_False; [done|]. rewrite Hd, Hk. by intros [].
Qed.

(** ** Images of one state and of the next *)

(** Making stores more durable leaves fewer images. *)
Lemma crashes_remap f l m m' :
  (∀ e, (f e).1 = e.1 ∧ (e.2 = Durable → (f e).2 = Durable)) →
  crashes m (f <$> l) m' → crashes m l m'.
Proof.
  intros Hf. revert m. induction l as [|[w s] l IH]; intros m Hc; cbn in Hc; [done|].
  destruct (f (w, s)) as [w' s'] eqn:Ef. destruct (Hf (w, s)) as [Hw Hs].
  rewrite Ef in Hw, Hs. cbn in Hw, Hs. subst w'.
  inversion_clear Hc as [|? ? ? ? ? Hc'|keep ? ? ? ? ? ? Hs' Ht Hc'].
  - constructor. auto.
  - eapply crashes_torn; [naive_solver|done|auto].
Qed.

Lemma crash_barrier p m : crash_image (PERSISTENT_BARRIER p) m → crash_image p m.
Proof.
  apply crashes_remap. intros [w s]. unfold fence_write. by case_decide.
Qed.

Lemma crash_flush buf len f p m : crash_image (nova_flush_buffer buf len f p) m → crash_image p m.
Proof.
  assert (crash_image (nova_flush_buffer buf len false p) m → crash_image p m) as Hf.
  { apply crashes_remap. intros [w s]. unfold clwb_write. case_decide as Hd; cbn; [|done].
    split; [done|]. intros ->. by destruct Hd. }
  destruct f; [|done]. intros Hc. by apply Hf, crash_barrier.
Qed.

(** What a store that is not durable leaves: outside nothing changes, and of a
    store to one word either all or nothing is left. *)
Lemma crash_write s w p m :
  crash_image (nvmm_write s w p) m →
  ∃ m1, crash_image p m1 ∧ ∀ x, ¬ write_touches w x → ld8 m x = ld8 m1 x.
Proof.
  intros Hc. apply crashes_app_inv in Hc as (m1&Hc1&Hc2). exists m1. split; [done|]. intros x Hx.
  inversion_clear Hc2 as [|? ? ? ? ? Hc3|keep ? m2 ? ? ? ? Hs Ht Hc3]; inversion Hc3; subst.
  - by apply apply_write_untouched.
  - rewrite Ht, decide_False; [done|]. by intros [].
Qed.

Lemma crash_write_word s a n v p m :
  crash_image (nvmm_write s (WBytes a (le_split n v)) p) m → a mod 8 + Z.of_nat n ≤ 8 →
  ∃ m1, crash_image p m1 ∧ (∀ x, ¬ a ≤ x < a + Z.of_nat n → ld8 m x = ld8 m1 x) ∧
    (ld n m a = ld n m1 a ∨ ld n m a = v mod 256 ^ Z.of_nat n).
Proof.
  intros Hc Ha. apply crashes_app_inv in Hc as (m1&Hc1&Hc2). exists m1. split; [done|].
  inversion_clear Hc2 as [|? ? ? ? ? Hc3|keep ? m2 ? ? ? ? Hs Ht Hc3]; inversion Hc3; subst.
  - split; [|right; exact (ld_st n m1 a v)]. intros x Hx. cbn. apply ld8_st_bytes_out.
    rewrite length_le_split. lia.
  - split.
    { intros x Hx. rewrite Ht, decide_False; [done|]. cbn. rewrite length_le_split. tauto. }
    destruct (keep (a / 8)) eqn:Hk; [right|left].
    + rewrite <- (ld_st n m1 a v). apply ld_word; [|done]. intros x Hx Hd.
      rewrite Ht, decide_True; [done|]. rewrite Hd. cbn. by rewrite length_le_split.
    + apply ld_word; [|done]. intros x Hx Hd. rewrite Ht, decide_False; [done|].
      rewrite Hd, Hk. by intros [].
Qed.
