(* ===== verification/RangeTree.v ===== *)
(** * Range nodes in a red-black tree (balloc.c)

    The free blocks of a CPU and the inode numbers in use are both kept as
    [struct nova_range_node]s in a kernel red-black tree.  The code walks
    the tree itself to find and to link a node ([nova_find_range_node],
    [nova_insert_range_node], [nova_find_free_slot]) and leaves rebalancing,
    erasure and in-order iteration to the kernel's rbtree library, which is
    a parameter here: the class [RbTree] with the laws [RbTreeLaws]. *)
From S2P Require Import Prelude.

(** [node_addr] is the address of the node object: what the C pointers to it
    compare by. *)
Record nova_range_node := RangeNode {
  node_addr : Z;
  range_low : Z;
  range_high : Z
}.

#[global] Instance nova_range_node_eq_dec : EqDecision nova_range_node.
Proof. solve_decision. Defined.

Inductive rb_tree :=
| RbNil
| RbNode (rb_left : rb_tree) (entry : nova_range_node) (rb_right : rb_tree).

Fixpoint inorder (t : rb_tree) : list nova_range_node :=
  match t with
  | RbNil => []
  | RbNode l n r => inorder l ++ n :: inorder r
  end.

Abbreviation addrs l := (node_addr <$> l).

(** ** The kernel rbtree interface (lib/rbtree.c)

    Documentation/rbtree.txt: [rb_first], [rb_next] and [rb_prev] iterate in
    sort order, [rb_insert_color] rebalances after a node was linked,
    [rb_erase] removes a node. *)
Class RbTree := {
  rb_first : rb_tree → option nova_range_node;
  rb_next : rb_tree → Z → option nova_range_node;
  rb_prev : rb_tree → Z → option nova_range_node;
  rb_insert_color : Z → rb_tree → rb_tree;
  rb_erase : Z → rb_tree → rb_tree
}.

Class RbTreeLaws `{RbTree} : Prop := {
  rb_first_spec t : rb_first t = head (inorder t);
  rb_next_spec t l1 n l2 :
    inorder t = l1 ++ n :: l2 → NoDup (addrs (inorder t)) →
    rb_next t (node_addr n) = head l2;
  rb_prev_spec t l1 n l2 :
    inorder t = l1 ++ n :: l2 → NoDup (addrs (inorder t)) →
    rb_prev t (node_addr n) = last l1;
  rb_insert_color_spec p t : inorder (rb_insert_color p t) = inorder t;
  rb_erase_spec t l1 n l2 :
    inorder t = l1 ++ n :: l2 → NoDup (addrs (inorder t)) →
    inorder (rb_erase (node_addr n) t) = l1 ++ l2
}.

(** Dereferencing a pointer to a node of the tree; [None] when the pointer
    does not point to one. *)
Definition rb_deref (t : rb_tree) (p : Z) : option nova_range_node :=
  list_find (λ n, node_addr n = p) (inorder t) ≫= λ '(_, n), Some n.

(** Writing through a pointer to a node leaves the shape of the tree alone. *)
Fixpoint rb_update (p : Z) (f : nova_range_node → nova_range_node) (t : rb_tree)
  : rb_tree :=
  match t with
  | RbNil => RbNil
  | RbNode l n r =>
      RbNode (rb_update p f l) (if decide (node_addr n = p) then f n else n)
             (rb_update p f r)
  end.

Definition set_low (v : Z) (n : nova_range_node) : nova_range_node :=
  RangeNode (node_addr n) v (range_high n).
Definition set_high (v : Z) (n : nova_range_node) : nova_range_node :=
  RangeNode (node_addr n) (range_low n) v.

(** ** balloc.c: comparing, finding, inserting *)
Definition nova_rbtree_compare_rangenode (curr : nova_range_node) (low : Z) : Z :=
  if decide (low < range_low curr) then -1
  else if decide (low > range_high curr) then 1
  else 0.

(** The descent of [nova_find_range_node]: [curr] is the node visited last. *)
Fixpoint find_range_node_from (temp : rb_tree) (curr : option nova_range_node)
    (low : Z) : Z * option nova_range_node :=
  match temp with
  | RbNil => (0, curr)
  | RbNode l n r =>
      let compVal := nova_rbtree_compare_rangenode n low in
      if decide (compVal = -1) then find_range_node_from l (Some n) low
      else if decide (compVal = 1) then find_range_node_from r (Some n) low
      else (1, Some n)
  end.

Definition nova_find_range_node (tree : rb_tree) (low : Z)
  : Z * option nova_range_node := find_range_node_from tree None low.

(** The descent of [nova_insert_range_node] down to the empty link, where
    [rb_link_node] puts the new node; [None] when a node contains its low
    end. *)
Fixpoint link_range_node (temp : rb_tree) (new_node : nova_range_node)
  : option rb_tree :=
  match temp with
  | RbNil => Some (RbNode RbNil new_node RbNil)
  | RbNode l n r =>
      let compVal := nova_rbtree_compare_rangenode n (range_low new_node) in
      if decide (compVal = -1) then
        l' ← link_range_node l new_node; Some (RbNode l' n r)
      else if decide (compVal = 1) then
        r' ← link_range_node r new_node; Some (RbNode l n r')
      else None
  end.

Section ops.
Context `{RbTree}.

Definition nova_insert_range_node (tree : rb_tree) (new_node : nova_range_node)
  : Z * rb_tree :=
  match link_range_node tree new_node with
  | Some t => (0, rb_insert_color (node_addr new_node) t)
  | None => (- EINVAL, tree)
  end.

Definition nova_find_free_slot (tree : rb_tree) (low high : Z)
  : Z * option nova_range_node * option nova_range_node :=
  match nova_find_range_node tree low with
  | (0, None) => (0, None, None)
  | (0, Some ret_node) =>
      if decide (range_high ret_node < low) then
        (0, Some ret_node, rb_next tree (node_addr ret_node))
      else if decide (range_low ret_node > high) then
        (0, rb_prev tree (node_addr ret_node), Some ret_node)
      else (- EINVAL, None, None)
  | _ => (- EINVAL, None, None)
  end.
End ops.

(** ** The invariant of a range tree

    In-order, the ranges are non-empty, lie in [[lb, ub]], and are separated
    by at least [g - 1] numbers: [g = 1] for disjoint ranges, [g = 2] for
    ranges that are disjoint and never adjacent (fully merged). *)
Fixpoint ranges_from (g lb ub : Z) (l : list nova_range_node) : Prop :=
  match l with
  | [] => True
  | n :: l =>
      lb ≤ range_low n ∧ range_low n ≤ range_high n ∧ range_high n ≤ ub ∧
      ranges_from g (range_high n + g) ub l
  end.

Definition in_range (b : Z) (n : nova_range_node) : Prop :=
  range_low n ≤ b ≤ range_high n.
(** The set of numbers a list of ranges denotes. *)
Definition in_ranges (b : Z) (l : list nova_range_node) : Prop :=
  Exists (in_range b) l.

Definition range_size (n : nova_range_node) : Z := range_high n - range_low n + 1.
Definition total_size (l : list nova_range_node) : Z := Zsum (range_size <$> l).
#[global] Arguments total_size : simpl never.

(** ** Lemmas on lists of ranges *)
Lemma ranges_from_weaken g lb ub lb' ub' l :
  ranges_from g lb ub l → lb' ≤ lb → ub ≤ ub' → ranges_from g lb' ub' l.
Proof.
  revert lb lb'; induction l as [|n l IH]; intros lb lb'; [done|]; cbn.
  intros (?&?&?&?) ??. repeat split; try lia. eapply IH; [done|lia..].
Qed.

Lemma ranges_from_mid g lb ub l1 n l2 :
  1 ≤ g →
  ranges_from g lb ub (l1 ++ n :: l2) ↔
  ranges_from g lb (range_low n - g) l1 ∧ lb ≤ range_low n ∧
  range_low n ≤ range_high n ∧ range_high n ≤ ub ∧
  ranges_from g (range_high n + g) ub l2.
Proof.
  intros Hg. revert lb; induction l1 as [|x l1 IH]; intros lb; cbn; [naive_solver|].
  rewrite IH. naive_solver lia.
Qed.

Lemma ranges_from_app g lb ub l1 l2 :
  1 ≤ g → ranges_from g lb ub (l1 ++ l2) →
  ranges_from g lb ub l1 ∧ ranges_from g lb ub l2.
Proof.
  intros Hg. revert lb; induction l1 as [|x l1 IH]; intros lb; cbn; [done|].
  intros (?&?&?&[H1 H2]%IH). repeat split; try done.
  eapply ranges_from_weaken; [done|lia..].
Qed.

Lemma ranges_from_in g lb ub l n :
  1 ≤ g → ranges_from g lb ub l → n ∈ l →
  lb ≤ range_low n ∧ range_low n ≤ range_high n ∧ range_high n ≤ ub.
Proof.
  intros Hg Hl (l1 & l2 & ->)%list_elem_of_split.
  apply ranges_from_mid in Hl; [lia|done].
Qed.

Lemma in_ranges_bounds g lb ub l b :
  1 ≤ g → ranges_from g lb ub l → in_ranges b l → lb ≤ b ≤ ub.
Proof.
  intros Hg Hl (n & Hn & Hb)%Exists_exists.
  eapply ranges_from_in in Hn; eauto. unfold in_range in Hb. lia.
Qed.

Lemma in_ranges_app b l1 l2 : in_ranges b (l1 ++ l2) ↔ in_ranges b l1 ∨ in_ranges b l2.
Proof. apply Exists_app. Qed.
Lemma in_ranges_cons b n l : in_ranges b (n :: l) ↔ in_range b n ∨ in_ranges b l.
Proof. apply Exists_cons. Qed.
Lemma in_ranges_nil b : in_ranges b [] ↔ False.
Proof. apply Exists_nil. Qed.

Lemma total_size_app l1 l2 : total_size (l1 ++ l2) = total_size l1 + total_size l2.
Proof. unfold total_size. by rewrite fmap_app, Zsum_app. Qed.
Lemma total_size_nil : total_size [] = 0.
Proof. done. Qed.
Lemma total_size_cons n l : total_size (n :: l) = range_size n + total_size l.
Proof. done. Qed.

Lemma total_size_nonneg g lb ub l :
  1 ≤ g → ranges_from g lb ub l → 0 ≤ total_size l.
Proof.
  intros Hg. revert lb; induction l as [|n l IH]; intros lb; [done|].
  cbn [ranges_from]. intros (?&?&?&Hl). rewrite total_size_cons.
  apply IH in Hl. unfold range_size. lia.
Qed.

Lemma total_size_bound g lb ub l :
  1 ≤ g → ranges_from g lb ub l → l ≠ [] → total_size l ≤ ub - lb + 1.
Proof.
  intros Hg. revert lb; induction l as [|n l IH]; intros lb; [done|].
  cbn [ranges_from]. intros (?&?&?&Hl) _. rewrite total_size_cons.
  unfold range_size. destruct l as [|n' l]; [rewrite total_size_nil; lia|].
  apply IH in Hl; [lia|done].
Qed.

(** [A] holds the ranges below [x], [B] the ranges above it. *)
Definition split_at (x : Z) (A B : list nova_range_node) : Prop :=
  Forall (λ n, range_high n < x) A ∧ Forall (λ n, x < range_low n) B.

Lemma split_at_mid g lb ub l1 n l2 x :
  1 ≤ g → ranges_from g lb ub (l1 ++ n :: l2) →
  (x < range_low n → Forall (λ n, x < range_low n) (n :: l2)) ∧
  (range_high n < x → Forall (λ n, range_high n < x) (l1 ++ [n])).
Proof.
  intros Hg (H1&?&?&?&H2)%ranges_from_mid; [|done]. split; intros Hx.
  - constructor; [done|]. apply Forall_forall. intros k Hk.
    eapply ranges_from_in in Hk; eauto. lia.
  - apply Forall_app. split; [|by constructor]. apply Forall_forall. intros k Hk.
    eapply ranges_from_in in Hk; eauto. lia.
Qed.

Lemma split_at_unique x A B A' B' :
  (∀ n, n ∈ A ++ B → range_low n ≤ range_high n) →
  split_at x A B → split_at x A' B' → A ++ B = A' ++ B' → A = A' ∧ B = B'.
Proof.
  intros Hne [HA HB] [HA' HB']. revert A' HA'.
  induction A as [|n A IH]; intros [|n' A'] HA' Heq; cbn in *.
  - done.
  - subst. apply Forall_cons in HB as [??], HA' as [??].
    specialize (Hne n' ltac:(set_solver)). lia.
  - subst. apply Forall_cons in HB' as [??], HA as [??].
    specialize (Hne n ltac:(set_solver)). lia.
  - simplify_eq. apply Forall_cons in HA as [??], HA' as [??].
    destruct (IH ltac:(set_solver) ltac:(done) A') as [-> ->]; done.
Qed.

Lemma split_at_not_in x A B : split_at x A B → ¬ in_ranges x (A ++ B).
Proof.
  intros [HA HB] [(n&Hn&Hx)%Exists_exists|(n&Hn&Hx)%Exists_exists]%in_ranges_app.
  - rewrite Forall_forall in HA. apply HA in Hn. unfold in_range in Hx. lia.
  - rewrite Forall_forall in HB. apply HB in Hn. unfold in_range in Hx. lia.
Qed.

(** ** The tree operations on sorted trees *)
Lemma compare_spec n x :
  (nova_rbtree_compare_rangenode n x = -1 ∧ x < range_low n) ∨
  (nova_rbtree_compare_rangenode n x = 1 ∧ range_low n ≤ x ∧ range_high n < x) ∨
  (nova_rbtree_compare_rangenode n x = 0 ∧ in_range x n).
Proof.
  unfold nova_rbtree_compare_rangenode, in_range. repeat case_decide; lia.
Qed.

Lemma find_from_spec g lb ub t curr x :
  1 ≤ g → ranges_from g lb ub (inorder t) →
  (∃ n, find_range_node_from t curr x = (1, Some n) ∧ n ∈ inorder t ∧ in_range x n) ∨
  (∃ A B res, find_range_node_from t curr x = (0, res) ∧
     inorder t = A ++ B ∧ split_at x A B ∧
     (t = RbNil ∧ res = curr ∨
      ∃ n, res = Some n ∧ (last A = Some n ∨ head B = Some n))).
Proof.
  intros Hg. revert curr lb ub.
  induction t as [|l IHl n r IHr]; intros curr lb ub Ht; cbn [find_range_node_from].
  { right. exists [], [], curr. repeat split; try constructor; done. }
  pose proof (split_at_mid g lb ub _ _ _ x Hg Ht) as [Hlt Hgt].
  apply ranges_from_mid in Ht as (Hl&_&_&_&Hr); [|done].
  destruct (compare_spec n x) as [[-> Hc]|[[-> [_ Hc]]|[-> Hc]]]; cbn.
  - specialize (Hlt Hc).
    destruct (IHl (Some n) _ _ Hl) as [(k&->&Hk&?)|(A&B&res&->&HAB&[HA HB]&Hres)].
    { left. exists k. set_solver. }
    right. exists A, (B ++ n :: inorder r), res. rewrite HAB, <- app_assoc.
    repeat split; [done|by apply Forall_app|].
    right. destruct Hres as [[-> ->]|(k&->&[Hk|Hk])]; eexists; split; try done.
    + apply (eq_sym (x:=[])), app_nil in HAB as [-> ->]. by right.
    + by left.
    + right. by rewrite head_app, Hk.
  - specialize (Hgt Hc).
    destruct (IHr (Some n) _ _ Hr) as [(k&->&Hk&?)|(A&B&res&->&HAB&[HA HB]&Hres)].
    { left. exists k. set_solver. }
    right. exists (inorder l ++ n :: A), B, res. rewrite HAB, <- app_assoc.
    repeat split; [by rewrite cons_middle, app_assoc; apply Forall_app|done|].
    right. destruct Hres as [[-> ->]|(k&->&[Hk|Hk])]; eexists; split; try done.
    + apply (eq_sym (x:=[])), app_nil in HAB as [-> ->]. left. by rewrite last_snoc.
    + left. rewrite last_cons_app, last_cons, Hk. done.
    + by right.
  - left. exists n. set_solver.
Qed.

Lemma link_spec g lb ub t new :
  1 ≤ g → ranges_from g lb ub (inorder t) →
  (link_range_node t new = None ∧ in_ranges (range_low new) (inorder t)) ∨
  (∃ A B t', link_range_node t new = Some t' ∧ inorder t = A ++ B ∧
     split_at (range_low new) A B ∧ inorder t' = A ++ new :: B).
Proof.
  intros Hg. revert lb ub.
  induction t as [|l IHl n r IHr]; intros lb ub Ht; cbn [link_range_node].
  { right. exists [], [], (RbNode RbNil new RbNil).
    repeat split; constructor. }
  pose proof (split_at_mid g lb ub _ _ _ (range_low new) Hg Ht) as [Hlt Hgt].
  apply ranges_from_mid in Ht as (Hl&_&_&_&Hr); [|done]. cbn [inorder].
  rewrite in_ranges_app, in_ranges_cons.
  destruct (compare_spec n (range_low new)) as [[-> Hc]|[[-> [_ Hc]]|[-> Hc]]]; cbn.
  - specialize (Hlt Hc).
    destruct (IHl _ _ Hl) as [[-> ?]|(A&B&t'&->&->&[HA HB]&Ht')]; [by left; auto|].
    right. exists A, (B ++ n :: inorder r), (RbNode t' n r). cbn.
    rewrite Ht', <- !app_assoc. repeat split; try done. by apply Forall_app.
  - specialize (Hgt Hc).
    destruct (IHr _ _ Hr) as [[-> ?]|(A&B&t'&->&->&[HA HB]&Ht')]; [by left; auto|].
    right. exists (inorder l ++ n :: A), B, (RbNode l n t'). cbn.
    rewrite Ht', <- !app_assoc. repeat split; try done.
    by rewrite cons_middle, app_assoc; apply Forall_app.
  - left. auto.
Qed.

Lemma NoDup_addrs_mid l1 n l2 k :
  NoDup (addrs (l1 ++ n :: l2)) → k ∈ l1 ++ l2 → node_addr k ≠ node_addr n.
Proof.
  rewrite fmap_app, fmap_cons, NoDup_app, NoDup_cons.
  intros (_&Hd&Hn&_) [Hk|Hk]%elem_of_app.
  - intros Heq. apply (Hd (node_addr k)); [set_solver|]. rewrite Heq. set_solver.
  - intros Heq. apply Hn. rewrite <- Heq. set_solver.
Qed.

Lemma rb_update_inorder p f t :
  inorder (rb_update p f t) =
  (λ n, if decide (node_addr n = p) then f n else n) <$> inorder t.
Proof.
  induction t as [|l IHl n r IHr]; [done|]. cbn. by rewrite fmap_app, IHl, IHr.
Qed.

Lemma rb_update_spec t l1 n l2 f :
  inorder t = l1 ++ n :: l2 → NoDup (addrs (inorder t)) →
  inorder (rb_update (node_addr n) f t) = l1 ++ f n :: l2.
Proof.
  intros Ht Hnd. rewrite rb_update_inorder, Ht, fmap_app, fmap_cons.
  rewrite decide_True by done. rewrite Ht in Hnd.
  f_equal; [|f_equal]; apply fmap_id_on; intros k Hk; apply decide_False;
    apply (NoDup_addrs_mid l1 n l2); set_solver.
Qed.

Lemma rb_deref_spec t l1 n l2 :
  inorder t = l1 ++ n :: l2 → NoDup (addrs (inorder t)) →
  rb_deref t (node_addr n) = Some n.
Proof.
  intros Ht Hnd. unfold rb_deref. rewrite Ht in *.
  rewrite list_find_app_r.
  - cbn. rewrite decide_True by done. done.
  - apply list_find_None, Forall_forall. intros k Hk.
    apply (NoDup_addrs_mid l1 n l2); set_solver.
Qed.

Lemma rb_deref_elem t p n : rb_deref t p = Some n → n ∈ inorder t ∧ node_addr n = p.
Proof.
  unfold rb_deref. rewrite bind_Some. intros ([i k] & Hk & [= ->]).
  apply list_find_Some in Hk as (?&?&?). eauto using list_elem_of_lookup_2.
Qed.

Section laws.
Context `{RbTreeLaws}.

(** Insertion succeeds exactly when no range contains the low end of the new
    one, and then puts it between the ranges below and above. *)
Lemma insert_range_node_spec g lb ub t new :
  1 ≤ g → ranges_from g lb ub (inorder t) →
  (nova_insert_range_node t new = (- EINVAL, t) ∧
     in_ranges (range_low new) (inorder t)) ∨
  (∃ A B t', nova_insert_range_node t new = (0, t') ∧ inorder t = A ++ B ∧
     split_at (range_low new) A B ∧ inorder t' = A ++ new :: B).
Proof.
  intros Hg Ht. unfold nova_insert_range_node.
  destruct (link_spec g lb ub t new Hg Ht) as [[-> ?]|(A&B&t'&->&?&?&?)]; [by left|].
  right. do 3 eexists. repeat split; [done|apply H2..|].
  by rewrite rb_insert_color_spec.
Qed.

(** When the slot lookup succeeds, it returns the neighbours of [low]. *)
Lemma find_free_slot_spec g lb ub t low high ret prev next :
  1 ≤ g → ranges_from g lb ub (inorder t) → NoDup (addrs (inorder t)) →
  low ≤ high → nova_find_free_slot t low high = (ret, prev, next) →
  (ret = - EINVAL ∧ prev = None ∧ next = None ∧
     ∃ b, low ≤ b ≤ high ∧ in_ranges b (inorder t)) ∨
  (ret = 0 ∧ ∃ A B, inorder t = A ++ B ∧ split_at low A B ∧
     prev = last A ∧ next = head B).
Proof.
  intros Hg Ht Hnd Hlh. unfold nova_find_free_slot, nova_find_range_node.
  destruct (find_from_spec g lb ub t None low Hg Ht)
    as [(n&->&Hn&Hx)|(A&B&res&->&HAB&[HA HB]&Hres)]; intros Heq.
  { simplify_eq. left. repeat split; try done. exists low. split; [lia|].
    apply Exists_exists; eauto. }
  destruct Hres as [[-> ->]|(n&->&Hn)]; simplify_eq.
  { right. split; [done|]. exists [], []. repeat constructor. }
  assert (n ∈ inorder t) as Hin.
  { rewrite HAB. destruct Hn as [Hn|Hn].
    - apply last_Some_elem_of in Hn. set_solver.
    - apply head_Some_elem_of in Hn. set_solver. }
  destruct Hn as [Hn|Hn].
  - apply last_Some in Hn as [A' ->]. rewrite <- app_assoc in HAB.
    pose proof HA as [_ [Hlt _]%Forall_cons]%Forall_app.
    rewrite decide_True in Heq by done. simplify_eq.
    right. split; [done|]. exists (A' ++ [n]), B.
    rewrite last_snoc, (rb_next_spec _ _ _ _ HAB Hnd), HAB, <- app_assoc.
    repeat split; done.
  - apply head_Some in Hn as [B' ->]. apply Forall_cons in HB as [Hlt HB].
    pose proof (ranges_from_in _ _ _ _ _ Hg Ht Hin).
    rewrite decide_False in Heq by lia. case_decide as Hc; simplify_eq.
    + right. split; [done|]. exists A, (n :: B').
      rewrite (rb_prev_spec _ _ _ _ HAB Hnd). repeat split; try done.
      by constructor.
    + left. repeat split; try done. exists (range_low n). split; [lia|].
      apply Exists_exists. exists n. unfold in_range. split; [done|lia].
Qed.
End laws.

(** ** A concrete tree library

    An unbalanced binary search tree satisfies the interface. *)
Fixpoint bst_join (l r : rb_tree) : rb_tree :=
  match l with
  | RbNil => r
  | RbNode ll n lr => RbNode ll n (bst_join lr r)
  end.

Fixpoint bst_erase (p : Z) (t : rb_tree) : rb_tree :=
  match t with
  | RbNil => RbNil
  | RbNode l n r =>
      if decide (node_addr n = p) then bst_join l r
      else RbNode (bst_erase p l) n (bst_erase p r)
  end.

Fixpoint next_in (p : Z) (l : list nova_range_node) : option nova_range_node :=
  match l with
  | [] => None
  | n :: l => if decide (node_addr n = p) then head l else next_in p l
  end.

Definition bst_rb : RbTree := {|
  rb_first t := head (inorder t);
  rb_next t p := next_in p (inorder t);
  rb_prev t p := next_in p (reverse (inorder t));
  rb_insert_color _ t := t;
  rb_erase := bst_erase
|}.

Lemma bst_join_inorder l r : inorder (bst_join l r) = inorder l ++ inorder r.
Proof.
  induction l as [|ll _ n lr IH]; [done|]. cbn. by rewrite IH, <- app_assoc.
Qed.

Lemma next_in_spec l1 n l2 :
  NoDup (addrs (l1 ++ n :: l2)) → next_in (node_addr n) (l1 ++ n :: l2) = head l2.
Proof.
  induction l1 as [|k l1 IH]; cbn [app next_in].
  - by rewrite decide_True.
  - intros Hnd. rewrite decide_False.
    + apply IH. by apply NoDup_cons in Hnd as [_ ?].
    + apply (NoDup_addrs_mid (k :: l1) n l2); set_solver.
Qed.

Lemma bst_erase_inorder p t :
  NoDup (addrs (inorder t)) →
  inorder (bst_erase p t) = filter (λ n, node_addr n ≠ p) (inorder t).
Proof.
  induction t as [|l IHl n r IHr]; [done|]. cbn. intros Hnd.
  rewrite filter_app, filter_cons.
  pose proof Hnd as Hnd'. rewrite fmap_app, fmap_cons, NoDup_app, NoDup_cons in Hnd'.
  destruct Hnd' as (Hl&_&_&Hr). case_decide as Hp; case_decide; try done.
  - rewrite bst_join_inorder, !filter_all; try done; apply Forall_forall;
      intros k Hk; rewrite <- Hp; apply (NoDup_addrs_mid (inorder l) n (inorder r));
      set_solver.
  - cbn. by rewrite IHl, IHr.
Qed.

Lemma bst_rb_laws : @RbTreeLaws bst_rb.
Proof.
  split; cbn.
  - done.
  - intros t l1 n l2 -> Hnd. by apply next_in_spec.
  - intros t l1 n l2 -> Hnd. rewrite reverse_app, reverse_cons, <- app_assoc. cbn.
    rewrite next_in_spec; [by rewrite head_reverse|].
    replace (reverse l2 ++ n :: reverse l1) with (reverse (l1 ++ n :: l2)).
    + rewrite fmap_reverse. by rewrite reverse_Permutation.
    + by rewrite reverse_app, reverse_cons, <- app_assoc.
  - done.
  - intros t l1 n l2 Ht Hnd. rewrite bst_erase_inorder by done. rewrite Ht in *.
    rewrite filter_app, filter_cons, decide_False by (by intros []).
    rewrite !filter_all; try done; apply Forall_forall; intros k Hk;
      apply (NoDup_addrs_mid l1 n l2); set_solver.
Qed.
