(* ===== verification/Layout.v ===== *)
(** * On-media layout and address arithmetic (nova_def.h, nova.h)

    Constants, the offset of every field of the packed on-media structures,
    and the inline helpers of nova.h that only compute. *)
From S2P Require Import Prelude.

(** ** nova_def.h *)
Definition NOVA_SUPER_MAGIC : Z := 0x4E4F5641.

Definition NOVA_MOUNT_PROTECT : Z := 0x000001.
Definition NOVA_MOUNT_XATTR_USER : Z := 0x000002.
Definition NOVA_MOUNT_POSIX_ACL : Z := 0x000004.
Definition NOVA_MOUNT_DAX : Z := 0x000008.
Definition NOVA_MOUNT_ERRORS_CONT : Z := 0x000010.
Definition NOVA_MOUNT_ERRORS_RO : Z := 0x000020.
Definition NOVA_MOUNT_ERRORS_PANIC : Z := 0x000040.
Definition NOVA_MOUNT_HUGEMMAP : Z := 0x000080.
Definition NOVA_MOUNT_HUGEIOREMAP : Z := 0x000100.
Definition NOVA_MOUNT_FORMAT : Z := 0x000200.
Definition NOVA_MOUNT_MOUNTING : Z := 0x000400.

Definition NOVA_LINK_MAX : Z := 32000.
Definition NOVA_DEF_BLOCK_SIZE_4K : Z := 4096.
Definition NOVA_INODE_SIZE : Z := 128.
Definition NOVA_INODE_BITS : Z := 7.
Definition NOVA_NAME_LEN : Z := 255.

Definition NOVA_BLOCK_TYPE_4K : Z := 0.
Definition NOVA_BLOCK_TYPE_2M : Z := 1.
Definition NOVA_BLOCK_TYPE_1G : Z := 2.
Definition NOVA_DEFAULT_BLOCK_TYPE : Z := NOVA_BLOCK_TYPE_4K.

Definition NOVA_SB_SIZE : Z := 512.
Definition NOVA_ROOT_INO : Z := 1.
Definition NOVA_INODETABLE_INO : Z := 2.
Definition NOVA_BLOCKNODE_INO : Z := 3.
Definition NOVA_INODELIST_INO : Z := 4.
Definition NOVA_LITEJOURNAL_INO : Z := 5.
Definition NOVA_INODELIST1_INO : Z := 6.
Definition NOVA_ROOT_INO_START : Z := NOVA_SB_SIZE * 2.
Definition NOVA_NORMAL_INODE_START : Z := 16.

(** [struct nova_inode], packed: the offset of each field. *)
Module nova_inode.
Definition valid : Z := 2.
Definition i_blk_type : Z := 3.
Definition i_flags : Z := 4.
Definition i_size : Z := 8.
Definition i_ctime : Z := 16.
Definition i_mtime : Z := 20.
Definition i_atime : Z := 24.
Definition i_mode : Z := 28.
Definition i_links_count : Z := 30.
Definition i_blocks : Z := 32.
Definition i_xattr : Z := 40.
Definition i_uid : Z := 48.
Definition i_gid : Z := 52.
Definition i_generation : Z := 56.
Definition nova_ino : Z := 64.
Definition log_head : Z := 72.
Definition log_tail : Z := 80.
Definition rdev : Z := 88.
Definition sizeof : Z := 92.
End nova_inode.

(** [struct nova_super_block], packed. *)
Module nova_super_block.
Definition s_sum : Z := 0.
Definition s_magic : Z := 4.
Definition s_blocksize : Z := 12.
Definition s_size : Z := 16.
Definition s_volume_name : Z := 24.
Definition s_start_dynamic : Z := 40.
Definition s_mtime : Z := 48.
Definition s_wtime : Z := 52.
Definition s_num_free_blocks : Z := 56.
Definition sizeof : Z := 64.
End nova_super_block.
Definition NOVA_SB_STATIC_SIZE : Z := nova_super_block.s_start_dynamic.

(** ** nova.h: the log *)
Definition INVALID_MASK : Z := 4095.
Definition LAST_ENTRY : Z := 4064.
Definition BLOCK_OFF (p : Z) : Z := Z.land p (Z.lnot INVALID_MASK).
Definition ENTRY_LOC (p : Z) : Z := Z.land p INVALID_MASK.
Definition PAGE_TAIL (p : Z) : Z := BLOCK_OFF p + LAST_ENTRY.
Definition EXTEND_THRESHOLD : Z := 256.
Definition RESERVED_BLOCKS : Z := 3.
Definition SHARED_CPU : Z := 65536.
Definition FREE_BATCH : nat := 16.
Definition READDIR_END : Z := 2 ^ 64 - 1.
Definition RANGENODE_PER_PAGE : Z := 254.

(** [enum nova_entry_type] *)
Definition FILE_WRITE : Z := 1.
Definition DIR_LOG : Z := 2.
Definition SET_ATTR : Z := 3.
Definition LINK_CHANGE : Z := 4.
Definition NEXT_PAGE : Z := 5.

(** [enum alloc_type] *)
Inductive alloc_type := LOG | DATA.

(** [struct nova_file_write_entry]; the lowest byte of [block] is the type. *)
Module nova_file_write_entry.
Definition block : Z := 0.
Definition pgoff : Z := 8.
Definition num_pages : Z := 16.
Definition invalid_pages : Z := 20.
Definition mtime : Z := 24.
Definition size : Z := 32.
Definition sizeof : Z := 40.
End nova_file_write_entry.

(** [struct nova_inode_page_tail] at offset [LAST_ENTRY] of a log page. *)
Module nova_inode_page_tail.
Definition next_page : Z := 24.
Definition sizeof : Z := 32.
End nova_inode_page_tail.

(** [struct nova_dentry] *)
Module nova_dentry.
Definition entry_type : Z := 0.
Definition name_len : Z := 1.
Definition file_type : Z := 2.
Definition invalid : Z := 3.
Definition de_len : Z := 4.
Definition links_count : Z := 6.
Definition mtime : Z := 8.
Definition ino : Z := 12.
Definition size : Z := 20.
Definition name : Z := 28.
End nova_dentry.

(** [NOVA_DIR_LOG_REC_LEN]: rounded up to 8 bytes. *)
Definition NOVA_DIR_LOG_REC_LEN (name_len : Z) : Z :=
  Z.land (name_len + 29 + 7) (Z.lnot 7).

(** [struct nova_setattr_logentry] *)
Module nova_setattr_logentry.
Definition entry_type : Z := 0.
Definition attr : Z := 1.
Definition mode : Z := 2.
Definition uid : Z := 4.
Definition gid : Z := 8.
Definition atime : Z := 12.
Definition mtime : Z := 16.
Definition ctime : Z := 20.
Definition size : Z := 24.
Definition sizeof : Z := 32.
End nova_setattr_logentry.

(** [ia_valid] bits of the kernel's [struct iattr] *)
Definition ATTR_MODE : Z := 1.
Definition ATTR_UID : Z := 2.
Definition ATTR_GID : Z := 4.
Definition ATTR_SIZE : Z := 8.
Definition ATTR_ATIME : Z := 16.
Definition ATTR_MTIME : Z := 32.
Definition ATTR_CTIME : Z := 64.

(** [struct nova_link_change_entry] *)
Module nova_link_change_entry.
Definition entry_type : Z := 0.
Definition links : Z := 2.
Definition ctime : Z := 4.
Definition flags : Z := 8.
Definition generation : Z := 12.
Definition sizeof : Z := 32.
End nova_link_change_entry.

(** [struct nova_range_node_lowhigh], [struct ptr_pair],
    [struct nova_lite_journal_entry] *)
Definition sizeof_range_node_lowhigh : Z := 16.
Module ptr_pair.
Definition journal_head : Z := 0.
Definition journal_tail : Z := 8.
End ptr_pair.
Module nova_lite_journal_entry.
Definition addrs (i : Z) : Z := 8 * i.
Definition values (i : Z) : Z := 32 + 8 * i.
Definition sizeof : Z := 64.
End nova_lite_journal_entry.

(** ** nova.h: inline helpers *)

(** [nova_get_block]: offset 0 is the null pointer. *)
Definition nova_get_block (block : Z) : option Z :=
  if decide (block = 0) then None else Some block.

Definition nova_get_block_off (blocknr : Z) : Z := u64 (Z.shiftl blocknr PAGE_SHIFT).
Definition nova_get_blocknr (block : Z) : Z := Z.shiftr block PAGE_SHIFT.

Definition nova_get_numblocks (btype : Z) : Z :=
  if decide (btype = NOVA_BLOCK_TYPE_4K) then 1
  else if decide (btype = NOVA_BLOCK_TYPE_2M) then 512
  else 0x40000.

(** inode.c: [blk_type_to_shift] and [blk_type_to_size] *)
Definition blk_type_to_shift (btype : Z) : Z :=
  if decide (btype = 0) then 12 else if decide (btype = 1) then 21 else 30.
Definition blk_type_to_size (btype : Z) : Z :=
  if decide (btype = 0) then 0x1000
  else if decide (btype = 1) then 0x200000 else 0x40000000.

Definition nova_get_basic_inode (inode_number : Z) : Z :=
  NOVA_SB_SIZE * 2 + (inode_number - NOVA_ROOT_INO) * NOVA_INODE_SIZE.

Definition nova_get_inode_by_ino (ino : Z) : option Z :=
  if decide (ino = 0 ∨ NOVA_NORMAL_INODE_START ≤ ino) then None
  else Some (nova_get_basic_inode ino).

(** [is_last_entry]: the sum is computed in [unsigned int]. *)
Definition is_last_entry (curr_p size : Z) : bool :=
  bool_decide (u32 (ENTRY_LOC curr_p + size) > LAST_ENTRY).

(** The BKDR string hash: [hash * 131 + *str++] in [unsigned long]; [char]
    is signed on x86, so a byte above 127 adds its value minus 256. *)
Definition char_value (c : Z) : Z := if decide (c < 128) then c else c - 256.
Definition BKDRHash (str : list Z) : Z :=
  foldl (λ hash c, u64 (hash * 131 + char_value c)) 0 str.

(** ** Masks as arithmetic *)
Lemma land_low_mask p k : 0 ≤ k → Z.land p (2 ^ k - 1) = p mod 2 ^ k.
Proof.
  intros. replace (2 ^ k - 1) with (Z.ones k) by (rewrite Z.ones_equiv; lia).
  by apply Z.land_ones.
Qed.

Lemma land_high_mask p k :
  0 ≤ k → Z.land p (Z.lnot (2 ^ k - 1)) = p - p mod 2 ^ k.
Proof.
  intros Hk. replace (2 ^ k - 1) with (Z.ones k) by (rewrite Z.ones_equiv; lia).
  rewrite <- Z.ldiff_land, Z.ldiff_ones_r, Z.shiftl_mul_pow2, Z.shiftr_div_pow2 by lia.
  rewrite (Z.div_mod p (2 ^ k)) at 2; lia.
Qed.

Lemma ENTRY_LOC_mod p : ENTRY_LOC p = p mod 4096.
Proof. apply (land_low_mask p 12). lia. Qed.
Lemma BLOCK_OFF_mod p : BLOCK_OFF p = p - p mod 4096.
Proof. apply (land_high_mask p 12). lia. Qed.

Lemma REC_LEN_mod n : NOVA_DIR_LOG_REC_LEN n = n + 36 - (n + 36) mod 8.
Proof.
  unfold NOVA_DIR_LOG_REC_LEN. rewrite (land_high_mask _ 3) by lia.
  replace (n + 29 + 7) with (n + 36) by lia. done.
Qed.
