(* ===== verification/World.v ===== *)
(** * The state of a mounted file system (nova.h)

    The in-memory structures ([struct free_list], [struct inode_map],
    [struct nova_sb_info], [struct nova_inode_info]), the services of the
    kernel the code asks for (the class [Env]), and the state-and-halt monad
    [M] in which the operations are written.  Spin locks and mutexes do not
    appear: one operation runs at a time, between taking a lock and releasing
    it nothing else changes what the lock protects. *)
From S2P Require Import Prelude Nvmm RangeTree Layout.

(** ** Free lists and inode maps *)
Record fl_stats := FlStats {
  alloc_log_count : Z; alloc_data_count : Z;
  free_log_count : Z; free_data_count : Z;
  alloc_log_pages : Z; alloc_data_pages : Z;
  freed_log_pages : Z; freed_data_pages : Z
}.

Record free_list := FreeList {
  block_free_tree : rb_tree;
  first_node : option Z;
  block_start : Z;
  block_end : Z;
  num_free_blocks : Z;
  num_blocknode : Z;
  stats : fl_stats
}.

(** What [kzalloc] leaves: everything zero. *)
Definition zero_stats : fl_stats := FlStats 0 0 0 0 0 0 0 0.
Definition zero_free_list : free_list := FreeList RbNil None 0 0 0 0 zero_stats.

Record inode_map := InodeMap {
  inode_inuse_tree : rb_tree;
  num_range_node_inode : Z;
  first_inode_range : option Z;
  allocated : Z;
  freed : Z
}.
Definition zero_inode_map : inode_map := InodeMap RbNil 0 None 0 0.

(** Mount options: [s_mount_opt], the owner and mode of the root directory,
    and the counter for [i_generation]. *)
Record mount_info := MountInfo {
  s_mount_opt : Z;
  next_generation : Z;
  sbi_mode : Z;
  sbi_uid : Z;
  sbi_gid : Z;
  bpi : Z
}.
Definition zero_mount_info : mount_info := MountInfo 0 0 0 0 0 0.

Record nova_sb_info := SbInfo {
  num_blocks : Z;
  initsize : Z;
  s_inodes_used_count : Z;
  reserved_blocks : Z;
  cpus : Z;
  map_id : Z;
  per_list_blocks : Z;
  inode_maps : list inode_map;
  free_lists : list free_list;
  shared_free_list : free_list;
  mnt : mount_info
}.

Definition set_free_lists (f : list free_list) (s : nova_sb_info) : nova_sb_info :=
  SbInfo (num_blocks s) (initsize s) (s_inodes_used_count s) (reserved_blocks s)
    (cpus s) (map_id s) (per_list_blocks s) (inode_maps s) f (shared_free_list s) (mnt s).
Definition set_shared_free_list (f : free_list) (s : nova_sb_info) : nova_sb_info :=
  SbInfo (num_blocks s) (initsize s) (s_inodes_used_count s) (reserved_blocks s)
    (cpus s) (map_id s) (per_list_blocks s) (inode_maps s) (free_lists s) f (mnt s).
Definition set_inode_maps (i : list inode_map) (s : nova_sb_info) : nova_sb_info :=
  SbInfo (num_blocks s) (initsize s) (s_inodes_used_count s) (reserved_blocks s)
    (cpus s) (map_id s) (per_list_blocks s) i (free_lists s) (shared_free_list s) (mnt s).
Definition set_per_list_blocks (n : Z) (s : nova_sb_info) : nova_sb_info :=
  SbInfo (num_blocks s) (initsize s) (s_inodes_used_count s) (reserved_blocks s)
    (cpus s) (map_id s) n (inode_maps s) (free_lists s) (shared_free_list s) (mnt s).
Definition set_used_count (n : Z) (s : nova_sb_info) : nova_sb_info :=
  SbInfo (num_blocks s) (initsize s) n (reserved_blocks s)
    (cpus s) (map_id s) (per_list_blocks s) (inode_maps s) (free_lists s)
    (shared_free_list s) (mnt s).
Definition set_map_id (n : Z) (s : nova_sb_info) : nova_sb_info :=
  SbInfo (num_blocks s) (initsize s) (s_inodes_used_count s) (reserved_blocks s)
    (cpus s) n (per_list_blocks s) (inode_maps s) (free_lists s)
    (shared_free_list s) (mnt s).
Definition set_mnt (m : mount_info) (s : nova_sb_info) : nova_sb_info :=
  SbInfo (num_blocks s) (initsize s) (s_inodes_used_count s) (reserved_blocks s)
    (cpus s) (map_id s) (per_list_blocks s) (inode_maps s) (free_lists s)
    (shared_free_list s) m.

(** [nova_get_free_list] and writing through the pointer it returns. *)
Definition nova_get_free_list (s : nova_sb_info) (cpu : Z) : free_list :=
  if decide (cpu < cpus s)
  then default zero_free_list (free_lists s !! Z.to_nat cpu)
  else shared_free_list s.
Definition put_free_list (cpu : Z) (f : free_list) (s : nova_sb_info) : nova_sb_info :=
  if decide (cpu < cpus s)
  then set_free_lists (<[Z.to_nat cpu := f]> (free_lists s)) s
  else set_shared_free_list f s.

(** ** Kernel services

    [tick] counts the requests made so far, so that two requests need not
    get the same answer.  [kmem_cache_alloc] is the slab cache of range
    nodes: it fails or returns an object not in use ([live]); [kzalloc] and
    [radix_node_alloc] say whether those allocations succeed. *)
Class Env := {
  smp_processor_id : N → Z;
  kmem_cache_alloc : N → gset Z → option Z;
  kzalloc : N → bool;
  current_time_sec : N → Z;
  radix_node_alloc : N → bool
}.

Class EnvLaws `{Env} : Prop := {
  kmem_cache_alloc_fresh t live p :
    kmem_cache_alloc t live = Some p → (p ∉ live) ∧ 0 < p;
  smp_processor_id_nonneg t : 0 ≤ smp_processor_id t
}.

(** ** In-core inodes

    [tree] maps page offsets of a file, or name hashes of a directory, to the
    offsets of log entries; [cache_tree] the pages of mmaped files.  The
    kernel's radix trees are maps from [unsigned long] to non-null pointers. *)
Record nova_inode_info_header := Sih {
  tree : gmap Z Z;
  cache_tree : gmap Z Z;
  sih_mode : Z;
  log_pages : Z;
  sih_size : Z;
  sih_ino : Z;
  pi_addr : Z;
  mmap_pages : Z;
  low_dirty : Z;
  high_dirty : Z;
  valid_bytes : Z;
  last_setattr : Z;
  last_link_change : Z
}.

(** The fields of [struct inode] the file system uses. *)
Record vfs_inode := VfsInode {
  v_ino : Z; v_mode : Z; v_nlink : Z; v_size : Z; v_blocks : Z;
  v_atime : Z; v_mtime : Z; v_ctime : Z;
  v_flags : Z; v_generation : Z; v_uid : Z; v_gid : Z; v_rdev : Z;
  v_bad : bool
}.

Record nova_inode_info := InodeInfo {
  header : nova_inode_info_header;
  vfs : vfs_inode
}.

(** ** The world

    [w_inodes] holds the in-core inode objects by their address.  [w_hist] is
    ghost state: the NVMM states passed through since the start, at any of
    which power may have failed. *)
Record world := World {
  w_nvmm : nvmm;
  w_sbi : nova_sb_info;
  w_live : gset Z;
  w_tick : N;
  w_inodes : gmap Z nova_inode_info;
  w_hist : list nvmm
}.

Definition set_nvmm (p : nvmm) (w : world) : world :=
  World p (w_sbi w) (w_live w) (w_tick w) (w_inodes w) (w_hist w ++ [w_nvmm w]).
Definition set_sbi (s : nova_sb_info) (w : world) : world :=
  World (w_nvmm w) s (w_live w) (w_tick w) (w_inodes w) (w_hist w).
Definition set_live (l : gset Z) (w : world) : world :=
  World (w_nvmm w) (w_sbi w) l (w_tick w) (w_inodes w) (w_hist w).
Definition set_tick (t : N) (w : world) : world :=
  World (w_nvmm w) (w_sbi w) (w_live w) t (w_inodes w) (w_hist w).
Definition set_inodes (i : gmap Z nova_inode_info) (w : world) : world :=
  World (w_nvmm w) (w_sbi w) (w_live w) (w_tick w) i (w_hist w).

(** ** The monad *)
Definition M (A : Type) : Type := world → outcome (A * world).

#[global] Instance M_ret : MRet M := λ A a w, Done (a, w).
#[global] Instance M_bind : MBind M := λ A B k m w,
  match m w with
  | Done (a, w') => k a w'
  | Halt h => Halt h
  end.

Definition stop {A} (h : halt) : M A := λ _, Halt h.
Definition gets {A} (f : world → A) : M A := λ w, Done (f w, w).
Definition modify (f : world → world) : M () := λ w, Done ((), f w).
Definition lift {A} (o : outcome A) : M A := λ w,
  match o with Done a => Done (a, w) | Halt h => Halt h end.
(** Following a pointer: the null pointer and dangling ones fault. *)
Definition deref {A} (p : option A) : M A :=
  match p with Some a => mret a | None => stop HFault end.
(** The pointer [nova_get_block] makes of an offset, about to be followed.  It
    is the sum with the kernel address of the mapping; an offset whose top
    byte is set makes that sum a non-canonical address, which faults. *)
Definition block_ptr (block : Z) : M Z :=
  match nova_get_block block with
  | Some a => if decide (a < 2 ^ 56) then mret a else stop HFault
  | None => stop HFault
  end.
Definition get_sbi : M nova_sb_info := gets w_sbi.
Definition when (b : bool) (m : M ()) : M () := if b then m else mret ().
Fixpoint forM {A} (l : list A) (f : A → M ()) : M () :=
  match l with
  | [] => mret ()
  | x :: l => f x ;; forM l f
  end.

(** Loads and stores of NVMM; [store] is a plain (cached) store,
    [store_nt] a non-temporal one. *)
Definition load (n : nat) (a : Z) : M Z := gets (λ w, ld n (vis (w_nvmm w)) a).
Definition load_bytes (n : nat) (a : Z) : M (list Z) :=
  gets (λ w, ld_bytes n (vis (w_nvmm w)) a).
Definition write_mem (s : wstatus) (x : write) : M () :=
  modify (λ w, set_nvmm (nvmm_write s x (w_nvmm w)) w).
Definition store (n : nat) (a v : Z) : M () :=
  write_mem Cached (WBytes a (le_split n v)).
Definition store_bytes_nt (a : Z) (bs : list Z) : M () :=
  write_mem WrittenBack (WBytes a bs).

(** [memset_nt(dest, 0, length)]: the loop counters are 32-bit registers and
    the last step stores a double word. *)
Definition memset_nt_zero (dest length : Z) : M () :=
  write_mem WrittenBack (WZero dest (4 * (u32 length / 4))).

Definition flush_buffer (buf len : Z) (fence : bool) : M () :=
  modify (λ w, set_nvmm (nova_flush_buffer buf len fence (w_nvmm w)) w).
Definition barrier : M () :=
  modify (λ w, set_nvmm (PERSISTENT_BARRIER (w_nvmm w)) w).

Section services.
Context `{Env}.

Definition next_tick (w : world) : world := set_tick (w_tick w + 1)%N w.

Definition get_cpu : M Z := λ w, Done (smp_processor_id (w_tick w), next_tick w).
Definition try_kzalloc : M bool := λ w, Done (kzalloc (w_tick w), next_tick w).
Definition try_radix_node : M bool := λ w,
  Done (radix_node_alloc (w_tick w), next_tick w).
Definition get_time : M Z := λ w, Done (u32 (current_time_sec (w_tick w)), next_tick w).

(** [nova_alloc_blocknode] and [nova_alloc_inode_node] *)
Definition nova_alloc_range_node : M (option Z) := λ w,
  let p := kmem_cache_alloc (w_tick w) (w_live w) in
  let w1 := next_tick w in
  match p with
  | Some a => Done (Some a, set_live ({[a]} ∪ w_live w) w1)
  | None => Done (None, w1)
  end.
End services.

Definition nova_free_range_node (p : Z) : M () :=
  modify (λ w, set_live (w_live w ∖ {[p]}) w).

(** [w'] differs from [w] at most in the content of NVMM. *)
Definition only_nvmm (w w' : world) : Prop :=
  w_sbi w' = w_sbi w ∧ w_live w' = w_live w ∧ w_tick w' = w_tick w ∧
  w_inodes w' = w_inodes w.

(** ** Reasoning about runs *)
Lemma bind_Done {A B} (m : M A) (k : A → M B) w b w' :
  (m ≫= k) w = Done (b, w') ↔ ∃ a w1, m w = Done (a, w1) ∧ k a w1 = Done (b, w').
Proof.
  unfold mbind, M_bind. split.
  - destruct (m w) as [[a w1]|]; [eauto|done].
  - by intros (a & w1 & -> & ?).
Qed.

Lemma bind_run {A B} (m : M A) (k : A → M B) w a w1 :
  m w = Done (a, w1) → (m ≫= k) w = k a w1.
Proof. unfold mbind, M_bind. by intros ->. Qed.
Lemma bind_halt {A B} (m : M A) (k : A → M B) w h :
  m w = Halt h → (m ≫= k) w = Halt h.
Proof. intros Hm. unfold mbind, M_bind. by rewrite Hm. Qed.

Section steps.
Context {B : Type} (w : world).

Lemma bind_mret {A} (a : A) (k : A → M B) : (mret a ≫= k) w = k a w.
Proof. done. Qed.
Lemma bind_stop {A} h (k : A → M B) : (stop h ≫= k) w = Halt h.
Proof. done. Qed.
Lemma bind_assoc {A C} (m : M A) (k : A → M C) (k' : C → M B) :
  ((m ≫= k) ≫= k') w = (m ≫= λ a, k a ≫= k') w.
Proof. unfold mbind, M_bind. by destruct (m w) as [[]|]. Qed.
Lemma bind_gets {A} (f : world → A) (k : A → M B) : (gets f ≫= k) w = k (f w) w.
Proof. done. Qed.
Lemma bind_get_sbi (k : nova_sb_info → M B) : (get_sbi ≫= k) w = k (w_sbi w) w.
Proof. done. Qed.
Lemma bind_modify f (k : () → M B) : (modify f ≫= k) w = k () (f w).
Proof. done. Qed.
Lemma bind_load n a (k : Z → M B) :
  (load n a ≫= k) w = k (ld n (vis (w_nvmm w)) a) w.
Proof. done. Qed.
Lemma bind_store n a v (k : () → M B) :
  (store n a v ≫= k) w =
  k () (set_nvmm (nvmm_write Cached (WBytes a (le_split n v)) (w_nvmm w)) w).
Proof. done. Qed.
Lemma bind_store_bytes_nt a bs (k : () → M B) :
  (store_bytes_nt a bs ≫= k) w =
  k () (set_nvmm (nvmm_write WrittenBack (WBytes a bs) (w_nvmm w)) w).
Proof. done. Qed.
Lemma bind_memset_nt a n (k : () → M B) :
  (memset_nt_zero a n ≫= k) w =
  k () (set_nvmm (nvmm_write WrittenBack (WZero a (4 * (u32 n / 4))) (w_nvmm w)) w).
Proof. done. Qed.
Lemma bind_flush a n fence (k : () → M B) :
  (flush_buffer a n fence ≫= k) w =
  k () (set_nvmm (nova_flush_buffer a n fence (w_nvmm w)) w).
Proof. done. Qed.
Lemma bind_barrier (k : () → M B) :
  (barrier ≫= k) w = k () (set_nvmm (PERSISTENT_BARRIER (w_nvmm w)) w).
Proof. done. Qed.
Lemma bind_when b m (k : () → M B) :
  (when b m ≫= k) w = if b then (m ≫= k) w else k () w.
Proof. by destruct b. Qed.
Lemma bind_deref_Some {A} (a : A) (k : A → M B) : (deref (Some a) ≫= k) w = k a w.
Proof. done. Qed.
Lemma bind_block_ptr a (k : Z → M B) :
  0 < a < 2 ^ 56 → (block_ptr a ≫= k) w = k a w.
Proof.
  intros Ha. unfold block_ptr, nova_get_block.
  rewrite decide_False, decide_True by lia. done.
Qed.
Lemma bind_lift_Done {A} (a : A) (k : A → M B) : (lift (Done a) ≫= k) w = k a w.
Proof. done. Qed.
Lemma bind_get_cpu `{Env} (k : Z → M B) :
  (get_cpu ≫= k) w = k (smp_processor_id (w_tick w)) (next_tick w).
Proof. done. Qed.
Lemma bind_try_kzalloc `{Env} (k : bool → M B) :
  (try_kzalloc ≫= k) w = k (kzalloc (w_tick w)) (next_tick w).
Proof. done. Qed.
Lemma bind_try_radix_node `{Env} (k : bool → M B) :
  (try_radix_node ≫= k) w = k (radix_node_alloc (w_tick w)) (next_tick w).
Proof. done. Qed.
Lemma bind_get_time `{Env} (k : Z → M B) :
  (get_time ≫= k) w = k (u32 (current_time_sec (w_tick w))) (next_tick w).
Proof. done. Qed.
Lemma bind_load_bytes n a (k : list Z → M B) :
  (load_bytes n a ≫= k) w = k (ld_bytes n (vis (w_nvmm w)) a) w.
Proof. done. Qed.
Lemma bind_write_mem s x (k : () → M B) :
  (write_mem s x ≫= k) w = k () (set_nvmm (nvmm_write s x (w_nvmm w)) w).
Proof. done. Qed.
Lemma bind_alloc_node `{Env} (k : option Z → M B) :
  (nova_alloc_range_node ≫= k) w =
  match kmem_cache_alloc (w_tick w) (w_live w) with
  | Some a => k (Some a) (set_live ({[a]} ∪ w_live w) (next_tick w))
  | None => k None (next_tick w)
  end.
Proof.
  unfold mbind, M_bind, nova_alloc_range_node. by destruct (kmem_cache_alloc _ _).
Qed.
Lemma bind_free_node p (k : () → M B) :
  (nova_free_range_node p ≫= k) w = k () (set_live (w_live w ∖ {[p]}) w).
Proof. done. Qed.
End steps.

Create Rewrite HintDb run.
#[export] Hint Rewrite @bind_mret @bind_stop @bind_assoc @bind_gets @bind_get_sbi
  @bind_modify @bind_load @bind_store @bind_store_bytes_nt @bind_memset_nt
  @bind_load_bytes @bind_write_mem @bind_try_radix_node @bind_get_time
  @bind_flush @bind_barrier @bind_when @bind_deref_Some @bind_lift_Done @bind_get_cpu
  @bind_alloc_node @bind_free_node : run.

(** Runs the next steps of a computation. *)
Ltac run := autorewrite with run; cbn beta iota.

(** ** A concrete kernel: CPU 0, a slab that never runs out. *)
Definition fresh_addr (live : gset Z) : Z :=
  1 + foldr Z.max 0 (elements live).

Lemma fresh_addr_spec live : (fresh_addr live ∉ live) ∧ 0 < fresh_addr live.
Proof.
  unfold fresh_addr.
  assert (∀ l x, x ∈ l → x ≤ foldr Z.max 0 l) as Hmax.
  { intros l x. induction l as [|y l IH]; [set_solver|]. cbn.
    intros [->|?]%elem_of_cons; [lia|]. apply IH in H. lia. }
  split.
  - intros Hin%elem_of_elements%Hmax. lia.
  - assert (0 ≤ foldr Z.max 0 (elements live)); [|lia].
    induction (elements live); cbn; lia.
Qed.

Definition env1 : Env := {|
  smp_processor_id _ := 0;
  kmem_cache_alloc _ live := Some (fresh_addr live);
  kzalloc _ := true;
  current_time_sec t := 1000 + Z.of_N t;
  radix_node_alloc _ := true
|}.
Lemma env1_laws : @EnvLaws env1.
Proof.
  split; cbn.
  - intros _ live p [= <-]. apply fresh_addr_spec.
  - done.
Qed.
