(* ===== verification/Trace.v ===== *)
(** * What an operation does to NVMM, step by step

    A power failure may happen between any two stores, so statements about it
    are about the states NVMM passes through.  [traces W w w'] says that from
    [w] to [w'] there were only stores in [W], write-backs and fences, and that
    all states in between are in the history; [tidy R w w'] that the stores
    were to bytes in [R], and none of them was left in the cache. *)
From S2P Require Import Prelude Nvmm RangeTree Layout World.

Inductive nv_step (W : write → Prop) : nvmm → nvmm → Prop :=
| nv_write s x q : W x → nv_step W q (nvmm_write s x q)
| nv_flush buf len fence q : nv_step W q (nova_flush_buffer buf len fence q)
| nv_barrier q : nv_step W q (PERSISTENT_BARRIER q).

(** The states passed through, without the last one. *)
Inductive nv_trace (W : write → Prop) : nvmm → list nvmm → nvmm → Prop :=
| trace_nil q : nv_trace W q [] q
| trace_cons q q1 l q2 : nv_step W q q1 → nv_trace W q1 l q2 → nv_trace W q (q :: l) q2.

(** Stores to bytes in [R]; bytes that no store in [W] touches. *)
Definition within (R : Z → Prop) (x : write) : Prop := ∀ a, write_touches x a → R a.
Definition avoids (W : write → Prop) (a : Z) : Prop := ∀ x, W x → ¬ write_touches x a.

Lemma avoids_within R a : ¬ R a → avoids (within R) a.
Proof. intros Ha x Hx Ht. by apply Ha, Hx. Qed.

Lemma nv_trace_app W q1 l1 q2 l2 q3 :
  nv_trace W q1 l1 q2 → nv_trace W q2 l2 q3 → nv_trace W q1 (l1 ++ l2) q3.
Proof. induction 1; intros Ht; [done|]. cbn. econstructor; [done|auto]. Qed.

Lemma nv_trace_mono (W W' : write → Prop) q l q' :
  (∀ x, W x → W' x) → nv_trace W q l q' → nv_trace W' q l q'.
Proof.
  intros HW. induction 1 as [|q q1 l q2 Hs _ IH]; [constructor|].
  econstructor; [|done]. destruct Hs; constructor; auto.
Qed.

Section bytes.
Context (W : write → Prop) (P : Z → Prop) (HP : ∀ a, P a → avoids W a).

(** Bytes no store touches keep their value, and stay durable. *)
Definition stays (q q' : nvmm) : Prop :=
  nvmm_ok q' ∧ ∀ a, P a → settled q' a ∧ ld8 (vis q') a = ld8 (vis q) a.

Lemma step_stays q q' :
  nv_step W q q' → nvmm_ok q → (∀ a, P a → settled q a) → stays q q'.
Proof.
  intros Hs Hok Hset. destruct Hs as [s x q Hx|buf len fence q|q].
  - split; [by apply nvmm_ok_write|]. intros a Ha.
    assert (¬ write_touches x a) by (by apply (HP a Ha)).
    split; [by apply settled_write; auto|]. by apply apply_write_untouched.
  - split; [by apply nvmm_ok_flush|]. intros a Ha. rewrite vis_flush.
    split; [by apply settled_flush; auto|done].
  - split; [by apply nvmm_ok_barrier|]. intros a Ha. split; [by apply settled_fence; auto|done].
Qed.

Lemma stays_refl q : nvmm_ok q → (∀ a, P a → settled q a) → stays q q.
Proof. intros Hok Hs. split; auto. Qed.

Lemma stays_trans q1 q2 q3 : stays q1 q2 → stays q2 q3 → stays q1 q3.
Proof.
  intros [_ H2] [Hok3 H3]. split; [done|]. intros a Ha.
  destruct (H2 a Ha) as [_ <-], (H3 a Ha) as [? <-]. done.
Qed.

Lemma trace_stays q l q' :
  nv_trace W q l q' → nvmm_ok q → (∀ a, P a → settled q a) →
  ∀ q1, q1 ∈ l ++ [q'] → stays q q1.
Proof.
  induction 1 as [q|q q1 l q2 Hs Ht IH]; intros Hok Hset qx Hq; cbn in Hq.
  - apply list_elem_of_singleton in Hq as ->. by apply stays_refl.
  - apply elem_of_cons in Hq as [->|Hq]; [by apply stays_refl|].
    pose proof (step_stays _ _ Hs Hok Hset) as Hst. eapply stays_trans; [done|].
    destruct Hst as [Hok1 Hst]. apply IH; [done| |done]. intros a Ha. by apply Hst.
Qed.
End bytes.

(** ... and what is written back of them stays so. *)
Lemma trace_written_back W q l q' a :
  nv_trace W q l q' → avoids W a → written_back q a → written_back q' a.
Proof.
  intros Ht Ha. induction Ht as [|q q1 l q2 Hs _ IH]; [done|]. intros Hw. apply IH.
  destruct Hs as [s x q Hx|buf len [] q|q]; auto using written_back_flush.
  - apply written_back_write; [done|]. right. by apply Ha.
  - by apply settled_written_back, settled_flush_fence, written_back_flush.
  - by apply settled_written_back, settled_barrier.
Qed.

(** An image of a later state is one of an earlier state, but for the bytes
    touched in between. *)
Lemma trace_image W q l q' :
  nv_trace W q l q' → ∀ q1 m, q1 ∈ l ++ [q'] → crash_image q1 m →
  ∃ m0, crash_image q m0 ∧ ∀ a, avoids W a → ld8 m a = ld8 m0 a.
Proof.
  induction 1 as [q|q q1 l q2 Hs Ht IH]; intros qx m Hq Hm; cbn in Hq.
  - apply list_elem_of_singleton in Hq as ->. by exists m.
  - apply elem_of_cons in Hq as [->|Hq]; [by exists m|].
    destruct (IH qx m Hq Hm) as (m1&Hm1&Ha1).
    assert (∃ m0, crash_image q m0 ∧ ∀ a, avoids W a → ld8 m1 a = ld8 m0 a) as (m0&Hm0&Ha0).
    { destruct Hs as [s x q Hx|buf len fence q|q].
      - destruct (crash_write _ _ _ _ Hm1) as (m0&Hm0&Ha0). exists m0. split; [done|].
        intros a Ha. by apply Ha0, Ha.
      - exists m1. split; [by eapply crash_flush|done].
      - exists m1. split; [by apply crash_barrier|done]. }
    exists m0. split; [done|]. intros a Ha. by rewrite Ha1, Ha0.
Qed.

(** An aligned word is stored whole: in an image it has a value stored in
    between, or one it had in an image of the earlier state. *)
Lemma trace_word W (V : Z → Prop) a n q l q' :
  a mod 8 + Z.of_nat n ≤ 8 →
  (∀ x, W x → (∀ b, a ≤ b < a + Z.of_nat n → ¬ write_touches x b) ∨
     ∃ v, x = WBytes a (le_split n v) ∧ V (v mod 256 ^ Z.of_nat n)) →
  nv_trace W q l q' → ∀ q1 m, q1 ∈ l ++ [q'] → crash_image q1 m →
  V (ld n m a) ∨ ∃ m0, crash_image q m0 ∧ ld n m a = ld n m0 a.
Proof.
  intros Ha HW. induction 1 as [q|q q1 l q2 Hs Ht IH]; intros qx m Hq Hm; cbn in Hq.
  - apply list_elem_of_singleton in Hq as ->. right. by exists m.
  - apply elem_of_cons in Hq as [->|Hq]; [right; by exists m|].
    destruct (IH qx m Hq Hm) as [Hv|(m1&Hm1&->)]; [by left|]. clear m Hm.
    destruct Hs as [s x q Hx|buf len fence q|q].
    + destruct (HW x Hx) as [Hout|(v&->&Hv)].
      * right. destruct (crash_write _ _ _ _ Hm1) as (m0&Hm0&Ha0). exists m0. split; [done|].
        apply ld_frame. intros b Hb. by apply Ha0, Hout.
      * destruct (crash_write_word _ _ _ _ _ _ Hm1 Ha) as (m0&Hm0&_&[E|E]);
          [right; by exists m0|left; by rewrite E].
    + right. exists m1. split; [by eapply crash_flush|done].
    + right. exists m1. split; [by apply crash_barrier|done].
Qed.

(** ** Worlds *)
Definition traces (W : write → Prop) (w w' : world) : Prop :=
  ∃ l, w_hist w' = w_hist w ++ l ∧ nv_trace W (w_nvmm w) l (w_nvmm w').

Lemma traces_same W w w' : w_nvmm w' = w_nvmm w → w_hist w' = w_hist w → traces W w w'.
Proof. intros En Eh. exists []. rewrite En, Eh, app_nil_r. split; [done|constructor]. Qed.

Lemma traces_trans W w1 w2 w3 : traces W w1 w2 → traces W w2 w3 → traces W w1 w3.
Proof.
  intros (l1&E1&T1) (l2&E2&T2). exists (l1 ++ l2). rewrite E2, E1, app_assoc.
  split; [done|]. by eapply nv_trace_app.
Qed.

Lemma traces_mono (W W' : write → Prop) w w' :
  (∀ x, W x → W' x) → traces W w w' → traces W' w w'.
Proof. intros HW (l&E&T). exists l. split; [done|]. by eapply nv_trace_mono. Qed.

Lemma traces_step W w q : nv_step W (w_nvmm w) q → traces W w (set_nvmm q w).
Proof.
  intros Hs. exists [w_nvmm w]. split; [done|]. econstructor; [done|constructor].
Qed.

Record tidy (R : Z → Prop) (w w' : world) : Prop := {
  td_traces : traces (within R) w w';
  td_clean a : written_back (w_nvmm w) a → written_back (w_nvmm w') a
}.

Lemma tidy_same R w w' : w_nvmm w' = w_nvmm w → w_hist w' = w_hist w → tidy R w w'.
Proof. intros En Eh. split; [by apply traces_same|]. by rewrite En. Qed.

Lemma tidy_trans R w1 w2 w3 : tidy R w1 w2 → tidy R w2 w3 → tidy R w1 w3.
Proof. intros [T1 C1] [T2 C2]. split; [by eapply traces_trans|auto]. Qed.

Lemma tidy_mono (R R' : Z → Prop) w w' : (∀ a, R a → R' a) → tidy R w w' → tidy R' w w'.
Proof. intros HR [T C]. split; [|done]. eapply traces_mono; [|done]. intros x Hx a Ha. auto. Qed.

(** A non-temporal store. *)
Lemma tidy_nt R w x :
  (∀ a, write_touches x a → R a) →
  tidy R w (set_nvmm (nvmm_write WrittenBack x (w_nvmm w)) w).
Proof.
  intros HR. split; [by apply traces_step; constructor|]. intros a Ha.
  apply written_back_write; [done|by left].
Qed.

(** The lines a flush writes back cover the bytes it is called for. *)
Lemma flush_covers_len a n lo hi :
  0 ≤ n → n + 64 < 2 ^ 32 → a ≤ lo → hi ≤ a + n →
  flush_lo a ≤ lo ∧ hi ≤ flush_hi a n.
Proof.
  intros Hn Hmax Hlo Hhi. unfold flush_hi, flush_lo, CACHELINE_SIZE.
  pose proof (Z.mod_pos_bound a 64 ltac:(lia)). rewrite wrap_small by lia.
  set (k := (n + a mod 64 + 64 - 1) / 64).
  assert (n + a mod 64 + 64 - 1 < 64 * k + 64) by
    (pose proof (Z.mul_succ_div_gt (n + a mod 64 + 64 - 1) 64); subst k; lia).
  lia.
Qed.

(** A store and the write-back of its cache lines. *)
Lemma tidy_store_flush R w s x a n :
  write_within (flush_lo a) (flush_hi a n) x → (∀ b, write_touches x b → R b) →
  let w1 := set_nvmm (nvmm_write s x (w_nvmm w)) w in
  tidy R w (set_nvmm (nova_flush_buffer a n false (w_nvmm w1)) w1).
Proof.
  intros Hw HR w1. split.
  - eapply traces_trans; apply traces_step; by constructor.
  - intros b Hb. by apply written_back_store_flush.
Qed.
