(* ===== verification/Balloc.v ===== *)
(** * The block allocator (balloc.c)

    Each CPU has a free list, a red-black tree of ranges of free blocks; a
    shared list is meant for the blocks the division among CPUs leaves over.
    First the operations, then the invariant of one list and the operations
    on it, then the invariant of all lists and the whole operations. *)
From S2P Require Import Prelude Nvmm RangeTree Layout World.

(** ** Writing the fields of a free list *)
Definition set_tree (t : rb_tree) (f : free_list) : free_list :=
  FreeList t (first_node f) (block_start f) (block_end f) (num_free_blocks f)
    (num_blocknode f) (stats f).
Definition set_first (p : option Z) (f : free_list) : free_list :=
  FreeList (block_free_tree f) p (block_start f) (block_end f) (num_free_blocks f)
    (num_blocknode f) (stats f).
Definition set_window (lo hi : Z) (f : free_list) : free_list :=
  FreeList (block_free_tree f) (first_node f) lo hi (num_free_blocks f)
    (num_blocknode f) (stats f).
Definition set_num_free (n : Z) (f : free_list) : free_list :=
  FreeList (block_free_tree f) (first_node f) (block_start f) (block_end f) n
    (num_blocknode f) (stats f).
Definition set_num_node (n : Z) (f : free_list) : free_list :=
  FreeList (block_free_tree f) (first_node f) (block_start f) (block_end f)
    (num_free_blocks f) n (stats f).
Definition set_stats (s : fl_stats) (f : free_list) : free_list :=
  FreeList (block_free_tree f) (first_node f) (block_start f) (block_end f)
    (num_free_blocks f) (num_blocknode f) s.

Definition stats_free (log_page : bool) (n : Z) (s : fl_stats) : fl_stats :=
  if log_page then
    FlStats (alloc_log_count s) (alloc_data_count s)
      (u64 (free_log_count s + 1)) (free_data_count s)
      (alloc_log_pages s) (alloc_data_pages s)
      (u64 (freed_log_pages s + n)) (freed_data_pages s)
  else
    FlStats (alloc_log_count s) (alloc_data_count s)
      (free_log_count s) (u64 (free_data_count s + 1))
      (alloc_log_pages s) (alloc_data_pages s)
      (freed_log_pages s) (u64 (freed_data_pages s + n)).

Definition stats_alloc (atype : alloc_type) (n : Z) (s : fl_stats) : fl_stats :=
  match atype with
  | LOG =>
    FlStats (u64 (alloc_log_count s + 1)) (alloc_data_count s)
      (free_log_count s) (free_data_count s)
      (u64 (alloc_log_pages s + n)) (alloc_data_pages s)
      (freed_log_pages s) (freed_data_pages s)
  | DATA =>
    FlStats (alloc_log_count s) (u64 (alloc_data_count s + 1))
      (free_log_count s) (free_data_count s)
      (alloc_log_pages s) (u64 (alloc_data_pages s + n))
      (freed_log_pages s) (freed_data_pages s)
  end.

Definition update_free_list (cpu : Z) (f : free_list) : M () :=
  modify (λ w, set_sbi (put_free_list cpu f (w_sbi w)) w).

Section balloc.
Context `{RbTree} `{Env}.

(** ** Setting up the lists *)
Definition nova_alloc_block_free_lists : M Z :=
  ok ← try_kzalloc;
  if (ok : bool) then
    s ← get_sbi;
    modify (λ w, set_sbi (set_free_lists
      (replicate (Z.to_nat (cpus s)) zero_free_list) (w_sbi w)) w) ;;
    mret 0
  else
    modify (λ w, set_sbi (set_free_lists [] (w_sbi w)) w) ;; mret (- ENOMEM).

Definition nova_delete_free_lists : M () :=
  modify (λ w, set_sbi (set_free_lists [] (w_sbi w)) w).

(** The body of the loop of [nova_init_blockmap]; the result says whether
    the loop goes on. *)
Definition init_blockmap_list (recovery : bool) (i : Z) : M bool :=
  s ← get_sbi;
  let per := per_list_blocks s in
  let fl := nova_get_free_list s i in
  let start := u64 (per * i) in
  let fl := set_window start (u64 (start + per - 1)) fl in
  if recovery then update_free_list i fl ;; mret true
  else
    let fl := set_num_free per fl in
    let fl :=
      if decide (i = 0) then
        set_num_free (u64 (num_free_blocks fl - reserved_blocks s))
          (set_window (u64 (block_start fl + reserved_blocks s)) (block_end fl) fl)
      else fl in
    p ← nova_alloc_range_node;
    p ← deref p;
    let blknode := RangeNode p (block_start fl) (block_end fl) in
    match nova_insert_range_node (block_free_tree fl) blknode with
    | (ret, t) =>
        if decide (ret ≠ 0) then
          update_free_list i fl ;; nova_free_range_node p ;; mret false
        else
          update_free_list i (set_num_node 1 (set_first (Some p) (set_tree t fl))) ;;
          mret true
    end.

Fixpoint init_blockmap_lists (recovery : bool) (l : list Z) : M bool :=
  match l with
  | [] => mret true
  | i :: l =>
      go_on ← init_blockmap_list recovery i;
      if (go_on : bool) then init_blockmap_lists recovery l else mret false
  end.

Definition nova_init_blockmap (recovery : bool) : M () :=
  s ← get_sbi;
  if decide (cpus s = 0) then stop HFault else
  modify (λ w, set_sbi (set_per_list_blocks (num_blocks s / cpus s) (w_sbi w)) w) ;;
  go_on ← init_blockmap_lists recovery (seqZ 0 (cpus s));
  when go_on
    (s ← get_sbi;
     let fl := nova_get_free_list s (cpus s - 1) in
     when (bool_decide (u64 (block_end fl + 1) < num_blocks s))
       (modify (λ w, set_sbi (set_shared_free_list
          (set_window (u64 (block_end fl + 1)) (u64 (num_blocks s - 1))
             (shared_free_list s)) (w_sbi w)) w))).

(** ** Freeing *)
Definition aligns_left (block_low : Z) (prev : option nova_range_node)
  : option nova_range_node :=
  p ← prev; if decide (block_low = u64 (range_high p + 1)) then Some p else None.
Definition aligns_right (block_high : Z) (next : option nova_range_node)
  : option nova_range_node :=
  n ← next; if decide (u64 (block_high + 1) = range_low n) then Some n else None.

(** The label [block_found]. *)
Definition block_found (log_page : bool) (num_blocks : Z) (f : free_list)
  : free_list :=
  set_stats (stats_free log_page num_blocks (stats f))
    (set_num_free (u64 (num_free_blocks f + num_blocks)) f).

(** The part of [nova_free_blocks] under the lock of the list; [curr_node] is
    the preallocated node.  Returns the error code, the list and the nodes
    handed back to the slab cache. *)
Definition free_in_list (f : free_list) (curr_node : Z) (block_low num_blocks : Z)
    (log_page : bool) : Z * free_list * list Z :=
  let tree := block_free_tree f in
  let block_high := u64 (block_low + num_blocks - 1) in
  match nova_find_free_slot tree block_low block_high with
  | (ret, prev, next) =>
    if decide (ret ≠ 0) then (ret, f, [curr_node])
    else
      match aligns_left block_low prev, aligns_right block_high next with
      | Some p, Some n => (* fits the hole *)
          let t := rb_update (node_addr p) (set_high (range_high n))
                     (rb_erase (node_addr n) tree) in
          (ret, block_found log_page num_blocks
                (set_tree t (set_num_node (u64 (num_blocknode f - 1)) f)),
           [node_addr n; curr_node])
      | Some p, None => (* aligns left *)
          let t := rb_update (node_addr p)
                     (set_high (u64 (range_high p + num_blocks))) tree in
          (ret, block_found log_page num_blocks (set_tree t f), [curr_node])
      | None, Some n => (* aligns right *)
          let t := rb_update (node_addr n)
                     (set_low (u64 (range_low n - num_blocks))) tree in
          (ret, block_found log_page num_blocks (set_tree t f), [curr_node])
      | None, None => (* somewhere in the middle *)
          match nova_insert_range_node tree
                  (RangeNode curr_node block_low block_high) with
          | (ret, t) =>
            if decide (ret ≠ 0) then (ret, f, [curr_node])
            else
              let f1 := set_tree t f in
              let f2 := match prev with
                        | None => set_first (Some curr_node) f1
                        | Some _ => f1
                        end in
              (ret, block_found log_page num_blocks
                    (set_num_node (u64 (num_blocknode f2 + 1)) f2), [])
          end
      end
  end.

Definition nova_free_blocks (blocknr num btype : Z) (log_page : bool) : M Z :=
  if decide (num ≤ 0) then mret (- EINVAL) else
  s ← get_sbi;
  if decide (per_list_blocks s = 0) then stop HFault else
  let cpuid := s32 (blocknr / per_list_blocks s) in
  let cpuid := if decide (cpus s ≤ cpuid) then SHARED_CPU else cpuid in
  if decide (cpuid < 0) then stop HFault else (* [free_lists] below its start *)
  curr_node ← nova_alloc_range_node;
  match curr_node with
  | None => mret (- ENOMEM)
  | Some curr_node =>
      let num_blocks := u64 (nova_get_numblocks btype * num) in
      match free_in_list (nova_get_free_list s cpuid) curr_node blocknr num_blocks
              log_page with
      | (ret, f, nodes) =>
          update_free_list cpuid f ;;
          forM nodes nova_free_range_node ;;
          mret ret
      end
  end.

(** [pi->i_blk_type] is the only field of [pi] these read. *)
Definition nova_free_data_blocks (i_blk_type blocknr num : Z) : M Z :=
  if decide (blocknr = 0) then mret (- EINVAL)
  else nova_free_blocks blocknr num i_blk_type false.
Definition nova_free_log_blocks (i_blk_type blocknr num : Z) : M Z :=
  if decide (blocknr = 0) then mret (- EINVAL)
  else nova_free_blocks blocknr num i_blk_type true.

(** ** Allocating *)

(** The loop of [nova_alloc_blocks_in_free_list]: the list, the number of
    blocks taken, the first of them ([None]: nothing found) and the node
    handed back to the slab cache. *)
Fixpoint alloc_loop (fuel : nat) (f : free_list) (temp : option nova_range_node)
    (btype num_blocks : Z) : outcome (free_list * Z * option Z * list Z) :=
  match temp with
  | None => Done (f, num_blocks, None, [])
  | Some curr =>
    match fuel with
    | O => Halt HFuel
    | S fuel =>
      let tree := block_free_tree f in
      let curr_blocks := u64 (range_high curr - range_low curr + 1) in
      if decide (curr_blocks ≤ num_blocks) then
        if decide (0 < btype ∧ curr_blocks < num_blocks) then
          alloc_loop fuel f (rb_next tree (node_addr curr)) btype num_blocks
        else
          let f1 :=
            if decide (first_node f = Some (node_addr curr))
            then set_first (node_addr <$> rb_next tree (node_addr curr)) f
            else f in
          Done (set_num_node (u64 (num_blocknode f1 - 1))
                  (set_tree (rb_erase (node_addr curr) tree) f1),
                curr_blocks, Some (range_low curr), [node_addr curr])
      else
        Done (set_tree (rb_update (node_addr curr)
                 (set_low (u64 (range_low curr + num_blocks))) tree) f,
              num_blocks, Some (range_low curr), [])
    end
  end.

(** Following [first_node], which is null or must point into the tree. *)
Definition deref_first (f : free_list) : outcome (option nova_range_node) :=
  match first_node f with
  | None => Done None
  | Some p =>
      match rb_deref (block_free_tree f) p with
      | Some n => Done (Some n)
      | None => Halt HFault
      end
  end.

(** Returns the [unsigned long] result, what is stored through
    [new_blocknr], the list and the freed nodes. *)
Definition nova_alloc_blocks_in_free_list (f : free_list) (btype num_blocks : Z)
  : outcome (Z * option Z * free_list * list Z) :=
  temp ← deref_first f;
  r ← alloc_loop (length (inorder (block_free_tree f))) f temp btype num_blocks;
  match r with
  | (f1, n, new_blocknr, nodes) =>
      let f2 := set_num_free (u64 (num_free_blocks f1 - n)) f1 in
      Done (match new_blocknr with None => u64 (- ENOSPC) | Some _ => n end,
            new_blocknr, f2, nodes)
  end.

(** The local [num_free_blocks] is an [int], widened for the comparison. *)
Definition candidate_step (s : nova_sb_info) (acc : Z * Z) (i : Z) : Z * Z :=
  let n := num_free_blocks (nova_get_free_list s i) in
  if decide (n > u64 (acc.2)) then (i, s32 n) else acc.
Definition nova_get_candidate_free_list (s : nova_sb_info) : Z :=
  (foldl (candidate_step s) (0, 0) (seqZ 0 (cpus s))).1.

(** The part of [nova_new_blocks] from the label [retry] to the allocation:
    the CPU whose list is used, [None] for [-ENOSPC]; [tries] is
    [3 - retried]. *)
Fixpoint pick_free_list (tries : nat) (cpuid num_blocks : Z) : M (option Z) :=
  s ← get_sbi;
  let f := nova_get_free_list s cpuid in
  if decide (num_free_blocks f < num_blocks ∨ first_node f = None) then
    if decide (num_blocks ≤ num_free_blocks f) then
      update_free_list cpuid
        (set_first (node_addr <$> rb_first (block_free_tree f)) f) ;;
      mret (Some cpuid)
    else
      match tries with
      | O => mret None
      | S tries => pick_free_list tries (nova_get_candidate_free_list s) num_blocks
      end
  else mret (Some cpuid).

(** Returns the [int] result and what is stored through [blocknr]. *)
Definition nova_new_blocks (num btype : Z) (zero : bool) (atype : alloc_type)
  : M (Z * option Z) :=
  let num_blocks := u64 (num * nova_get_numblocks btype) in
  if decide (num_blocks = 0) then mret (- EINVAL, None) else
  cpuid ← get_cpu;
  picked ← pick_free_list 3 cpuid num_blocks;
  match picked with
  | None => mret (- ENOSPC, None)
  | Some cpuid =>
      s ← get_sbi;
      r ← lift (nova_alloc_blocks_in_free_list (nova_get_free_list s cpuid)
                  btype num_blocks);
      match r with
      | (ret_blocks, new_blocknr, f, nodes) =>
          update_free_list cpuid
            (set_stats (stats_alloc atype ret_blocks (stats f)) f) ;;
          forM nodes nova_free_range_node ;;
          let new_blocknr := default 0 new_blocknr in
          if decide (ret_blocks = 0 ∨ new_blocknr = 0) then mret (- ENOSPC, None)
          else
            when zero
              (bp ← block_ptr (nova_get_block_off new_blocknr);
               memset_nt_zero bp (u64 (PAGE_SIZE * ret_blocks))) ;;
            mret (s32 (ret_blocks / nova_get_numblocks btype), Some new_blocknr)
      end
  end.

Definition nova_new_data_blocks (i_blk_type num : Z) (zero : bool) : M (Z * option Z) :=
  nova_new_blocks num i_blk_type zero DATA.
Definition nova_new_log_blocks (i_blk_type num : Z) (zero : bool) : M (Z * option Z) :=
  nova_new_blocks num i_blk_type zero LOG.
End balloc.

Definition nova_count_free_blocks (s : nova_sb_info) : Z :=
  u64 (foldl (λ n i, u64 (n + num_free_blocks (nova_get_free_list s i))) 0
         (seqZ 0 (cpus s)) +
       num_free_blocks (nova_get_free_list s SHARED_CPU)).
