(* ===== verification/BallocList.v ===== *)
(** * One free list (balloc.c)

    The invariant of a free list, and what freeing into it and allocating
    from it do, as sets of block numbers. *)
From S2P Require Import Prelude Nvmm RangeTree Layout World Balloc.

Abbreviation nodes_of f := (inorder (block_free_tree f)).
(** The abstract content of a list: the blocks it offers. *)
Definition free_block (f : free_list) (b : Z) : Prop := in_ranges b (nodes_of f).

(** The tree holds the blocks as maximal ranges inside [[lb, ub]], its nodes
    are distinct objects, and the cached fields agree with it. *)
Record fl_ok (lb ub : Z) (f : free_list) : Prop := {
  fl_bounds : 0 ≤ lb ∧ ub < 2 ^ 63;
  fl_ranges : ranges_from 2 lb ub (nodes_of f);
  fl_nodup : NoDup (addrs (nodes_of f));
  fl_first : first_node f = node_addr <$> head (nodes_of f);
  fl_free : num_free_blocks f = total_size (nodes_of f);
  fl_nodes : num_blocknode f = Z.of_nat (length (nodes_of f))
}.

(** ** Sorted lists of ranges, cut at a number *)
Lemma ranges_from_below g lb ub x l :
  1 ≤ g → ranges_from g lb ub l → Forall (λ n, range_high n < x) l →
  ranges_from g lb (x - 1) l.
Proof.
  intros Hg. revert lb. induction l as [|n l IH]; intros lb; [done|].
  cbn [ranges_from]. intros (?&?&?&?) [??]%Forall_cons.
  repeat split; try lia. by apply IH.
Qed.

Lemma ranges_from_above g lb ub x l :
  ranges_from g lb ub l → (∀ n, head l = Some n → x ≤ range_low n) →
  ranges_from g x ub l.
Proof.
  destruct l as [|n l]; [done|]. cbn [ranges_from]. intros (?&?&?&?) Hx.
  specialize (Hx n eq_refl). done.
Qed.

Lemma ranges_from_gap g lb x l :
  1 ≤ g → ranges_from g lb (x - 1) l →
  (∀ n, last l = Some n → range_high n ≠ x - 1) →
  ranges_from g lb (x - 2) l.
Proof.
  intros Hg. destruct l as [|n l] using rev_ind; [done|].
  rewrite !ranges_from_mid, last_snoc by done. cbn.
  intros (?&?&?&?&?) Hx. specialize (Hx n eq_refl). repeat split; try done; lia.
Qed.

Lemma length_le_total g lb ub l :
  1 ≤ g → ranges_from g lb ub l → Z.of_nat (length l) ≤ total_size l.
Proof.
  intros Hg. revert lb. induction l as [|n l IH]; intros lb; [done|].
  cbn [ranges_from]. intros (?&?&?&Hl%IH). rewrite total_size_cons.
  unfold range_size. simpl length. lia.
Qed.

Lemma total_size_upper g lb ub l :
  1 ≤ g → 0 ≤ lb → -1 ≤ ub → ranges_from g lb ub l → total_size l ≤ ub + 1.
Proof.
  intros Hg ? ? Hl. destruct (decide (l = [])) as [->|]; [rewrite total_size_nil; lia|].
  pose proof (total_size_bound g lb ub l Hg Hl ltac:(done)). lia.
Qed.

Lemma fl_ok_counts lb ub f :
  fl_ok lb ub f →
  0 ≤ num_free_blocks f < 2 ^ 64 ∧ 0 ≤ num_blocknode f ≤ num_free_blocks f.
Proof.
  intros [[??] Hr _ _ -> ->].
  pose proof (total_size_nonneg 2 lb ub _ ltac:(lia) Hr).
  pose proof (length_le_total 2 lb ub _ ltac:(lia) Hr).
  destruct (decide (nodes_of f = [])) as [->|Hne]; [rewrite total_size_nil; simpl; lia|].
  pose proof (total_size_bound 2 lb ub _ ltac:(lia) Hr Hne). lia.
Qed.

(** The neighbours [A], [B] of a range that meets no block of the list. *)
Lemma slot_ranges lb ub l A B low high :
  ranges_from 2 lb ub l → l = A ++ B → split_at low A B →
  (∀ b, low ≤ b ≤ high → ¬ in_ranges b l) →
  ranges_from 2 lb (low - 1) A ∧ ranges_from 2 (high + 1) ub B.
Proof.
  intros Hl -> [HA HB] Hfree.
  apply ranges_from_app in Hl as Hl'; [|lia]. destruct Hl' as [HlA HlB].
  split; [by eapply ranges_from_below; eauto; lia|].
  eapply ranges_from_above; [done|]. intros n Hn.
  apply head_Some in Hn as [B' ->]. apply Forall_cons in HB as [Hn _].
  cbn in HlB. destruct HlB as (?&?&?&_).
  destruct (decide (range_low n ≤ high)); [|lia].
  exfalso. apply (Hfree (range_low n)); [lia|].
  rewrite in_ranges_app, in_ranges_cons. unfold in_range. lia.
Qed.

Section list_level.
Context `{RbTreeLaws}.

(** What the four ways of freeing have in common: the new tree holds [l']. *)
Lemma block_found_ok lb ub f t l' n d log_page :
  fl_ok lb ub f → ranges_from 2 lb ub l' → inorder t = l' →
  NoDup (addrs l') →
  total_size l' = total_size (nodes_of f) + n →
  Z.of_nat (length l') = Z.of_nat (length (nodes_of f)) + d →
  ∀ g, block_free_tree g = t →
  first_node g = node_addr <$> head l' →
  num_free_blocks g = num_free_blocks f →
  num_blocknode g = u64 (num_blocknode f + d) →
  fl_ok lb ub (block_found log_page n g) ∧
  num_free_blocks (block_found log_page n g) = num_free_blocks f + n.
Proof.
  intros Hf Hr' <- Hnd Hsize Hlen g <- Hfirst Hfree Hnode.
  destruct (fl_ok_counts _ _ _ Hf) as [Hc1 Hc2]. destruct Hf as [Hb Hr _ _ Hf Hn].
  pose proof (total_size_nonneg 2 lb ub _ ltac:(lia) Hr').
  pose proof (length_le_total 2 lb ub _ ltac:(lia) Hr').
  assert (total_size (nodes_of g) < 2 ^ 64).
  { destruct (decide (nodes_of g = [])) as [->|Hne]; [rewrite total_size_nil; simpl; lia|].
    pose proof (total_size_bound 2 lb ub _ ltac:(lia) Hr' Hne). lia. }
  assert (u64 (num_free_blocks f + n) = num_free_blocks f + n) as Hw by (unwrap; lia).
  split; [|by cbn; rewrite Hfree].
  split; cbn; try done; try congruence.
  rewrite Hnode. unwrap; lia.
Qed.

(** What freeing a range means: the outcome [r] of [free_in_list]. *)
Definition freed_into (lb ub : Z) (f : free_list) (curr low n : Z)
    (r : Z * free_list * list Z) : Prop :=
  ∃ f' nodes, r = (0, f', nodes) ∧ fl_ok lb ub f' ∧
    (∀ b, free_block f' b ↔ free_block f b ∨ low ≤ b ≤ low + n - 1) ∧
    num_free_blocks f' = num_free_blocks f + n ∧
    curr :: addrs (nodes_of f) ≡ₚ addrs (nodes_of f') ++ nodes.

(** The blocks, the size and the nodes of a new list of ranges [l'] where
    the old one was [A ++ B]. *)
Lemma freed_into_intro lb ub f curr low n log_page l' d g nodes :
  fl_ok lb ub f → ranges_from 2 lb ub l' → nodes_of g = l' → NoDup (addrs l') →
  total_size l' = total_size (nodes_of f) + n →
  Z.of_nat (length l') = Z.of_nat (length (nodes_of f)) + d →
  first_node g = node_addr <$> head l' →
  num_free_blocks g = num_free_blocks f →
  num_blocknode g = u64 (num_blocknode f + d) →
  (∀ b, in_ranges b l' ↔ free_block f b ∨ low ≤ b ≤ low + n - 1) →
  curr :: addrs (nodes_of f) ≡ₚ addrs l' ++ nodes →
  freed_into lb ub f curr low n (0, block_found log_page n g, nodes).
Proof.
  intros Hf Hr Hl Hnd Hsz Hlen Hfst Hnf Hnn Hin Hp.
  destruct (block_found_ok lb ub f (block_free_tree g) l' n d log_page
              Hf Hr Hl Hnd Hsz Hlen g eq_refl Hfst Hnf Hnn) as [Hok Hcnt].
  exists (block_found log_page n g), nodes. split; [done|]. split; [done|].
  split; [|split; [done|]].
  - intros b. unfold free_block. cbn. by rewrite Hl.
  - cbn. by rewrite Hl.
Qed.

Lemma fits_hole_spec lb ub f curr low n log_page A p m B :
  fl_ok lb ub f → nodes_of f = (A ++ [p]) ++ m :: B → 1 ≤ n →
  range_high p + 1 = low → range_low m = low + n →
  freed_into lb ub f curr low n
    (0, block_found log_page n
          (set_tree (rb_update (node_addr p) (set_high (range_high m))
                       (rb_erase (node_addr m) (block_free_tree f)))
             (set_num_node (u64 (num_blocknode f - 1)) f)),
     [node_addr m; curr]).
Proof.
  intros Hf HAB Hn Hp Hm. pose proof Hf as [[Hlb Hub] Hr Hnd Hfst Hnf Hnn].
  pose proof Hr as Hr'. rewrite HAB in Hr'.
  apply ranges_from_mid in Hr' as (HA&?&?&?&HB); [|lia].
  apply ranges_from_mid in HA as (HA&?&?&?&_); [|lia].
  assert (inorder (rb_erase (node_addr m) (block_free_tree f)) = A ++ p :: B) as He.
  { rewrite (rb_erase_spec _ _ _ _ HAB Hnd). by rewrite <- app_assoc. }
  assert (NoDup (addrs (A ++ p :: B))) as Hnd'.
  { eapply sublist_NoDup; [exact Hnd|]. rewrite HAB. apply fmap_sublist.
    rewrite <- app_assoc. apply sublist_app; [done|]. cbn.
    apply sublist_skip, sublist_cons. done. }
  apply (freed_into_intro lb ub f curr low n log_page
           (A ++ set_high (range_high m) p :: B) (-1)); try done.
  - apply ranges_from_mid; [lia|]. cbn. repeat split; try done; lia.
  - cbn. by rewrite (rb_update_spec _ A p B) by (rewrite He; done).
  - by rewrite fmap_app, fmap_cons in Hnd' |- *.
  - rewrite HAB, !total_size_app, !total_size_cons, total_size_nil.
    unfold range_size; cbn. lia.
  - rewrite HAB, !length_app. cbn. lia.
  - cbn. rewrite Hfst, HAB. by destruct A.
  - intros b. unfold free_block.
    rewrite HAB, !in_ranges_app, !in_ranges_cons, in_ranges_nil.
    unfold in_range; cbn. intuition lia.
  - rewrite HAB, !fmap_app, !fmap_cons. cbn. solve_Permutation.
Qed.

Lemma aligns_left_spec lb ub f curr low n log_page A p B :
  fl_ok lb ub f → nodes_of f = A ++ p :: B → 1 ≤ n → low + n - 1 ≤ ub →
  range_high p + 1 = low → ranges_from 2 (low + n + 1) ub B →
  freed_into lb ub f curr low n
    (0, block_found log_page n
          (set_tree (rb_update (node_addr p) (set_high (u64 (range_high p + n)))
                       (block_free_tree f)) f),
     [curr]).
Proof.
  intros Hf HAB Hn Hhi Hp HB. pose proof Hf as [[Hlb Hub] Hr Hnd Hfst Hnf Hnn].
  destruct (fl_ok_counts _ _ _ Hf) as [??].
  pose proof Hr as Hr'. rewrite HAB in Hr'.
  apply ranges_from_mid in Hr' as (HA&?&?&?&_); [|lia].
  rewrite (wrap_small 64 (range_high p + n)) by lia.
  apply (freed_into_intro lb ub f curr low n log_page
           (A ++ set_high (range_high p + n) p :: B) 0); try done.
  - apply ranges_from_mid; [lia|]. cbn. repeat split; try done; try lia.
    eapply ranges_from_weaken; [done|lia..].
  - cbn. by rewrite (rb_update_spec _ A p B).
  - rewrite HAB in Hnd. by rewrite fmap_app, fmap_cons in Hnd |- *.
  - rewrite HAB, !total_size_app, !total_size_cons. unfold range_size; cbn. lia.
  - rewrite HAB, !length_app. cbn. lia.
  - cbn. rewrite Hfst, HAB. by destruct A.
  - cbn. unwrap. lia.
  - intros b. unfold free_block.
    rewrite HAB, !in_ranges_app, !in_ranges_cons. unfold in_range; cbn. intuition lia.
  - rewrite HAB, !fmap_app, !fmap_cons. cbn. solve_Permutation.
Qed.

Lemma aligns_right_spec lb ub f curr low n log_page A m B :
  fl_ok lb ub f → nodes_of f = A ++ m :: B → 1 ≤ n → lb ≤ low →
  range_low m = low + n → ranges_from 2 lb (low - 2) A →
  freed_into lb ub f curr low n
    (0, block_found log_page n
          (set_tree (rb_update (node_addr m) (set_low (u64 (range_low m - n)))
                       (block_free_tree f)) f),
     [curr]).
Proof.
  intros Hf HAB Hn Hlo Hm HA. pose proof Hf as [[Hlb Hub] Hr Hnd Hfst Hnf Hnn].
  destruct (fl_ok_counts _ _ _ Hf) as [??].
  pose proof Hr as Hr'. rewrite HAB in Hr'.
  apply ranges_from_mid in Hr' as (_&?&?&?&HB); [|lia].
  rewrite (wrap_small 64 (range_low m - n)) by lia.
  apply (freed_into_intro lb ub f curr low n log_page
           (A ++ set_low (range_low m - n) m :: B) 0); try done.
  - apply ranges_from_mid; [lia|]. cbn. repeat split; try done; try lia.
    eapply ranges_from_weaken; [done|lia..].
  - cbn. by rewrite (rb_update_spec _ A m B).
  - rewrite HAB in Hnd. by rewrite fmap_app, fmap_cons in Hnd |- *.
  - rewrite HAB, !total_size_app, !total_size_cons. unfold range_size; cbn. lia.
  - rewrite HAB, !length_app. cbn. lia.
  - cbn. rewrite Hfst, HAB. by destruct A.
  - cbn. unwrap. lia.
  - intros b. unfold free_block.
    rewrite HAB, !in_ranges_app, !in_ranges_cons. unfold in_range; cbn. intuition lia.
  - rewrite HAB, !fmap_app, !fmap_cons. cbn. solve_Permutation.
Qed.

Lemma middle_spec lb ub f curr low n log_page A B t :
  fl_ok lb ub f → curr ∉ addrs (nodes_of f) → nodes_of f = A ++ B →
  1 ≤ n → lb ≤ low → low + n - 1 ≤ ub →
  ranges_from 2 lb (low - 2) A → ranges_from 2 (low + n + 1) ub B →
  inorder t = A ++ RangeNode curr low (low + n - 1) :: B →
  freed_into lb ub f curr low n
    (0, block_found log_page n
          (let f2 := match last A with
                     | None => set_first (Some curr) (set_tree t f)
                     | Some _ => set_tree t f
                     end in
           set_num_node (u64 (num_blocknode f2 + 1)) f2), []).
Proof.
  intros Hf Hcurr HAB Hn Hlo Hhi HA HB Ht.
  pose proof Hf as [[Hlb Hub] Hr Hnd Hfst Hnf Hnn].
  apply (freed_into_intro lb ub f curr low n log_page
           (A ++ RangeNode curr low (low + n - 1) :: B) 1); try done.
  - apply ranges_from_mid; [lia|]. cbn. repeat split; try done; try lia.
    eapply ranges_from_weaken; [done|lia..].
  - cbn. by case_match.
  - rewrite HAB in Hnd, Hcurr. rewrite fmap_app, fmap_cons; cbn.
    rewrite <- Permutation_middle, <- fmap_app. by constructor.
  - rewrite HAB, !total_size_app, !total_size_cons. unfold range_size; cbn. lia.
  - rewrite HAB, !length_app. cbn. lia.
  - destruct A as [|a A]; [done|]. cbn [app head fmap option_fmap option_map].
    rewrite HAB in Hfst. cbn in Hfst.
    destruct (last_is_Some (a :: A)) as [_ [x ->]]; [done|]. done.
  - cbn. by case_match.
  - cbn. by case_match.
  - intros b. unfold free_block.
    rewrite HAB, !in_ranges_app, !in_ranges_cons. unfold in_range; cbn. intuition lia.
  - rewrite HAB, !fmap_app, !fmap_cons. cbn. solve_Permutation.
Qed.

Lemma aligns_left_Some low prev p :
  aligns_left low prev = Some p → prev = Some p ∧ low = u64 (range_high p + 1).
Proof. unfold aligns_left. intros (q&->&?)%bind_Some. by split_ifs. Qed.
Lemma aligns_left_None low p :
  aligns_left low (Some p) = None → low ≠ u64 (range_high p + 1).
Proof. unfold aligns_left. cbn. by case_decide. Qed.
Lemma aligns_right_Some high next m :
  aligns_right high next = Some m → next = Some m ∧ u64 (high + 1) = range_low m.
Proof. unfold aligns_right. intros (q&->&?)%bind_Some. by split_ifs. Qed.
Lemma aligns_right_None high m :
  aligns_right high (Some m) = None → u64 (high + 1) ≠ range_low m.
Proof. unfold aligns_right. cbn. by case_decide. Qed.

(** Freeing blocks none of which is free puts exactly them into the list;
    the nodes of the tree and of the slab cache stay accounted for. *)
Lemma free_in_list_spec lb ub f curr low n log_page :
  fl_ok lb ub f → curr ∉ addrs (nodes_of f) →
  lb ≤ low → 1 ≤ n → low + n - 1 ≤ ub →
  (∀ b, low ≤ b ≤ low + n - 1 → ¬ free_block f b) →
  freed_into lb ub f curr low n (free_in_list f curr low n log_page).
Proof.
  intros Hf Hcurr Hlo Hn Hhi Hfree. pose proof Hf as [[Hlb Hub] Hr Hnd _ _ _].
  unfold free_in_list. rewrite (wrap_small 64 (low + n - 1)) by lia.
  destruct (nova_find_free_slot (block_free_tree f) low (low + n - 1))
    as [[ret prev] next] eqn:Hslot.
  destruct (find_free_slot_spec 2 lb ub (block_free_tree f) low (low + n - 1) ret
              prev next ltac:(lia) Hr Hnd ltac:(lia) Hslot)
    as [(_&_&_&b&Hb&Hin)|(->&A&B&HAB&Hsp&->&->)]; [by exfalso; eapply Hfree|].
  rewrite decide_False by lia.
  destruct (slot_ranges lb ub _ A B low (low + n - 1) Hr HAB Hsp Hfree) as [HA HB].
  replace (low + n - 1 + 1) with (low + n) in HB by lia.
  assert (∀ p, last A = Some p → u64 (range_high p + 1) = range_high p + 1) as HpA.
  { intros p [A' ->]%last_Some. apply ranges_from_mid in HA; [unwrap|]; lia. }
  assert (u64 (low + n - 1 + 1) = low + n) as Hw by (unwrap; lia).
  assert (aligns_left low (last A) = None → ranges_from 2 lb (low - 2) A) as HA2.
  { intros HN. apply ranges_from_gap; [lia|done|]. intros p Hp.
    rewrite Hp in HN. apply aligns_left_None in HN. rewrite HpA in HN by done. lia. }
  assert (aligns_right (low + n - 1) (head B) = None →
          ranges_from 2 (low + n + 1) ub B) as HB2.
  { intros HN. eapply ranges_from_above; [done|]. intros m Hm.
    rewrite Hm in HN. apply aligns_right_None in HN. rewrite Hw in HN.
    apply head_Some in Hm as [B' ->]. cbn in HB. lia. }
  destruct (aligns_left low (last A)) as [p|] eqn:Hal;
    destruct (aligns_right (low + n - 1) (head B)) as [m|] eqn:Har;
    try apply aligns_left_Some in Hal as [HlA Hp];
    try apply aligns_right_Some in Har as [HhB Hm].
  - rewrite HpA in Hp by done. apply last_Some in HlA as [A' ->].
    apply head_Some in HhB as [B' ->]. eapply fits_hole_spec; eauto; lia.
  - rewrite HpA in Hp by done. apply last_Some in HlA as [A' ->].
    rewrite <- app_assoc in HAB. eapply aligns_left_spec; eauto; lia.
  - apply head_Some in HhB as [B' ->]. eapply aligns_right_spec; eauto; lia.
  - destruct (insert_range_node_spec 2 lb ub (block_free_tree f)
                (RangeNode curr low (low + n - 1)) ltac:(lia) Hr)
      as [[_ Hin]|(A1&B1&t&->&HAB1&Hsp1&Ht)].
    + exfalso. apply (Hfree low); [lia|done].
    + destruct (split_at_unique low A B A1 B1) as [<- <-]; try done; try congruence.
      { intros k Hk. rewrite <- HAB in Hk.
        eapply (ranges_from_in 2 lb ub) in Hk; [lia|lia|done]. }
      rewrite decide_False by lia. eapply (middle_spec lb ub); eauto.
Qed.

(** Freeing a range whose first block is free already is refused. *)
Lemma free_in_list_double lb ub f curr low n log_page :
  fl_ok lb ub f → free_block f low →
  free_in_list f curr low n log_page = (- EINVAL, f, [curr]).
Proof.
  intros [_ Hr _ _ _ _] Hlow.
  unfold free_in_list, nova_find_free_slot, nova_find_range_node.
  destruct (find_from_spec 2 lb ub (block_free_tree f) None low ltac:(lia) Hr)
    as [(m&->&_)|(A&B&res&_&HAB&Hsp&_)].
  - cbn. done.
  - exfalso. apply (split_at_not_in low A B Hsp). by rewrite <- HAB.
Qed.

(** ** Allocation from one list *)

(** [f'] is [f] without the blocks [low .. low + n - 1], all of which [f]
    offered; [nodes] went back to the slab cache. *)
Definition taken_from (lb ub : Z) (f : free_list) (low n : Z) (f' : free_list)
    (nodes : list Z) : Prop :=
  (∀ b, low ≤ b ≤ low + n - 1 → free_block f b) ∧
  (∀ b, free_block f' b ↔ free_block f b ∧ ¬ (low ≤ b ≤ low + n - 1)) ∧
  fl_ok lb ub f' ∧ num_free_blocks f' = num_free_blocks f - n ∧
  addrs (nodes_of f) ≡ₚ addrs (nodes_of f') ++ nodes.

Lemma taken_from_intro lb ub f low n f1 nodes l1 curr l2 l' :
  fl_ok lb ub f → nodes_of f = l1 ++ curr :: l2 → 1 ≤ n →
  range_low curr = low → low + n - 1 ≤ range_high curr →
  nodes_of f1 = l' → ranges_from 2 lb ub l' →
  (∀ b, in_ranges b l' ↔ in_ranges b l1 ∨ low + n ≤ b ≤ range_high curr ∨ in_ranges b l2) →
  first_node f1 = node_addr <$> head l' →
  num_free_blocks f1 = num_free_blocks f →
  total_size l' = total_size (nodes_of f) - n →
  num_blocknode f1 = Z.of_nat (length l') →
  addrs (nodes_of f) ≡ₚ addrs l' ++ nodes →
  taken_from lb ub f low n (set_num_free (u64 (num_free_blocks f1 - n)) f1) nodes.
Proof.
  intros Hf HAB Hn Hlow Hhigh Hl Hr' Hin Hfst Hnf Hsz Hnn Hp.
  pose proof Hf as [[Hlb Hub] Hr Hnd _ Hnf0 _].
  destruct (fl_ok_counts _ _ _ Hf) as [Hc _].
  pose proof (total_size_nonneg 2 lb ub l' ltac:(lia) Hr').
  assert (u64 (num_free_blocks f1 - n) = num_free_blocks f - n) as Hw
    by (rewrite Hnf; unwrap; lia).
  assert (ranges_from 2 lb (low - 2) l1 ∧ ranges_from 2 (range_high curr + 2) ub l2)
    as [Hr1 Hr2].
  { rewrite HAB in Hr. apply ranges_from_mid in Hr; [|lia]. rewrite <- Hlow. tauto. }
  assert (NoDup (addrs l')) as Hnd'.
  { rewrite Hp in Hnd. by apply NoDup_app in Hnd as [? _]. }
  split_and!; unfold free_block; cbn; rewrite ?HAB, ?Hl.
  - intros b Hb. rewrite in_ranges_app, in_ranges_cons. unfold in_range. lia.
  - intros b. rewrite Hin, in_ranges_app, in_ranges_cons. unfold in_range.
    pose proof (in_ranges_bounds 2 _ _ l1 b ltac:(lia) Hr1).
    pose proof (in_ranges_bounds 2 _ _ l2 b ltac:(lia) Hr2). intuition lia.
  - split; cbn; rewrite ?Hl; try done. rewrite Hw. lia.
  - done.
  - by rewrite <- HAB.
Qed.

Lemma alloc_whole_spec lb ub f curr l1 l2 :
  fl_ok lb ub f → nodes_of f = l1 ++ curr :: l2 →
  let f1 := if decide (first_node f = Some (node_addr curr))
            then set_first (node_addr <$> rb_next (block_free_tree f) (node_addr curr)) f
            else f in
  let f2 := set_num_node (u64 (num_blocknode f1 - 1))
              (set_tree (rb_erase (node_addr curr) (block_free_tree f)) f1) in
  taken_from lb ub f (range_low curr) (range_size curr)
    (set_num_free (u64 (num_free_blocks f2 - range_size curr)) f2) [node_addr curr].
Proof.
  intros Hf HAB f1 f2. pose proof Hf as [[Hlb Hub] Hr Hnd Hfst Hnf Hnn].
  destruct (fl_ok_counts _ _ _ Hf) as [Hc1 Hc2].
  pose proof Hr as Hr'. rewrite HAB in Hr'.
  apply ranges_from_mid in Hr' as (HA&?&?&?&HB); [|lia].
  assert (inorder (rb_erase (node_addr curr) (block_free_tree f)) = l1 ++ l2) as He
    by (by apply rb_erase_spec).
  assert (num_free_blocks f1 = num_free_blocks f ∧ num_blocknode f1 = num_blocknode f)
    as [Hf1 Hf1'] by (subst f1; by case_decide).
  assert (first_node f1 = node_addr <$> head (l1 ++ l2)) as Hfst1.
  { subst f1. rewrite (rb_next_spec _ _ _ _ HAB Hnd).
    rewrite Hfst, HAB. destruct l1 as [|a l1]; cbn; [by rewrite decide_True|].
    rewrite decide_False; [by rewrite Hfst, HAB|]. intros Ha. simplify_eq.
    rewrite HAB in Hnd. apply (NoDup_addrs_mid (a :: l1) curr l2 a Hnd); set_solver. }
  eapply (taken_from_intro lb ub f _ _ f2 _ l1 curr l2 (l1 ++ l2)); try done.
  - unfold range_size. lia.
  - unfold range_size. lia.
  - destruct l2 as [|c l2]; rewrite ?app_nil_r.
    + eapply ranges_from_weaken; [done|lia..].
    + cbn in HB. apply ranges_from_mid; [lia|]. repeat split; try lia; [|tauto].
      eapply ranges_from_weaken; [done|lia..].
  - intros b. rewrite in_ranges_app. unfold range_size. intuition lia.
  - rewrite HAB, !total_size_app, total_size_cons. lia.
  - cbn. rewrite Hf1'. rewrite HAB, length_app in Hnn. cbn in Hnn.
    rewrite length_app. unwrap; lia.
  - rewrite HAB, !fmap_app, !fmap_cons. cbn. solve_Permutation.
Qed.

Lemma alloc_part_spec lb ub f curr l1 l2 n :
  fl_ok lb ub f → nodes_of f = l1 ++ curr :: l2 → 1 ≤ n < range_size curr →
  let f1 := set_tree (rb_update (node_addr curr) (set_low (u64 (range_low curr + n)))
                        (block_free_tree f)) f in
  taken_from lb ub f (range_low curr) n
    (set_num_free (u64 (num_free_blocks f1 - n)) f1) [].
Proof.
  intros Hf HAB Hn f1. pose proof Hf as [[Hlb Hub] Hr Hnd Hfst Hnf Hnn].
  unfold range_size in Hn. pose proof Hr as Hr'. rewrite HAB in Hr'.
  apply ranges_from_mid in Hr' as (HA&?&?&?&HB); [|lia].
  assert (nodes_of f1 = l1 ++ set_low (range_low curr + n) curr :: l2) as Hl.
  { subst f1. rewrite wrap_small by lia. cbn. by apply rb_update_spec. }
  eapply (taken_from_intro lb ub f _ _ f1 _ l1 curr l2); try done; try lia.
  - apply ranges_from_mid; [lia|]. cbn. repeat split; try done; try lia.
    eapply ranges_from_weaken; [done|lia..].
  - intros b. rewrite in_ranges_app, in_ranges_cons. unfold in_range. cbn. intuition lia.
  - cbn. rewrite Hfst, HAB. by destruct l1.
  - rewrite HAB, !total_size_app, !total_size_cons. unfold range_size. cbn. lia.
  - cbn. by rewrite Hnn, HAB, !length_app.
  - rewrite HAB, !fmap_app, !fmap_cons. cbn. by rewrite app_nil_r.
Qed.

(** The loop, started at [l2], with fuel for the nodes of [l2]. *)
Lemma alloc_loop_spec lb ub f btype num fuel l1 l2 :
  fl_ok lb ub f → nodes_of f = l1 ++ l2 → (length l2 ≤ fuel)%nat → 1 ≤ num →
  (∃ f1 n m nodes, alloc_loop fuel f (head l2) btype num
       = Done (f1, n, Some (range_low m), nodes) ∧
     1 ≤ n ≤ num ∧ (0 < btype → n = num) ∧ (btype ≤ 0 → head l2 = Some m) ∧
     n = Z.min num (range_size m) ∧ m ∈ l2 ∧
     taken_from lb ub f (range_low m) n
       (set_num_free (u64 (num_free_blocks f1 - n)) f1) nodes) ∨
  (alloc_loop fuel f (head l2) btype num = Done (f, num, None, []) ∧
   (l2 = [] ∨ 0 < btype) ∧ Forall (λ m, range_size m < num) l2).
Proof.
  intros Hf. pose proof Hf as [[Hlb Hub] Hr Hnd _ _ _].
  revert l1 fuel. induction l2 as [|curr l2 IH]; intros l1 fuel HAB Hfuel Hnum.
  { right. destruct fuel; cbn; auto. }
  destruct fuel as [|fuel]; [cbn in Hfuel; lia|].
  pose proof Hr as Hr'. rewrite HAB in Hr'.
  apply ranges_from_mid in Hr' as (_&?&?&?&_); [|lia]. cbn [head alloc_loop].
  assert (u64 (range_high curr - range_low curr + 1) = range_size curr) as ->
    by (unfold range_size; unwrap; lia).
  assert (1 ≤ range_size curr) by (unfold range_size; lia).
  destruct (decide (range_size curr ≤ num)) as [Hle|Hgt].
  - destruct (decide (0 < btype ∧ range_size curr < num)) as [[Hb Hlt]|Hb].
    + rewrite (rb_next_spec _ _ _ _ HAB Hnd).
      destruct (IH (l1 ++ [curr]) fuel) as [(f1&n&m&nodes&?&?&?&?&?&?&?)|(?&?&?)].
      * by rewrite <- app_assoc.
      * cbn in Hfuel. lia.
      * done.
      * left. exists f1, n, m, nodes. split_and!; try done; [lia..|set_solver].
      * right. split_and!; try done; [by right|by constructor].
    + left. eexists _, (range_size curr), curr, _. split; [reflexivity|].
      split_and!; try lia; try done; [set_solver|].
      by apply (alloc_whole_spec lb ub f curr l1 l2).
  - left. eexists _, num, curr, _. split; [reflexivity|].
    split_and!; try lia; try done; [set_solver|].
    apply (alloc_part_spec lb ub f curr l1 l2); try done; lia.
Qed.

Lemma deref_first_spec lb ub f :
  fl_ok lb ub f → deref_first f = Done (head (nodes_of f)).
Proof.
  intros [_ _ Hnd Hfst _ _]. unfold deref_first. rewrite Hfst.
  destruct (nodes_of f) as [|n l] eqn:Hl; [done|]. cbn.
  rewrite <- Hl in Hnd. by rewrite (rb_deref_spec _ [] n l Hl Hnd).
Qed.

(** Allocation takes a run of free blocks off the low end of a range, no
    longer than asked for (exactly as long for a superpage), from the first
    range for 4K blocks; or it finds nothing because every range is too
    short, and then only the block count changes. *)
Lemma alloc_in_list_spec lb ub f btype num :
  fl_ok lb ub f → 1 ≤ num →
  (∃ f' n m nodes, nova_alloc_blocks_in_free_list f btype num
       = Done (n, Some (range_low m), f', nodes) ∧
     1 ≤ n ≤ num ∧ (0 < btype → n = num) ∧
     (btype ≤ 0 → head (nodes_of f) = Some m) ∧
     n = Z.min num (range_size m) ∧ m ∈ nodes_of f ∧
     taken_from lb ub f (range_low m) n f' nodes) ∨
  (nova_alloc_blocks_in_free_list f btype num
     = Done (u64 (- ENOSPC), None,
             set_num_free (u64 (num_free_blocks f - num)) f, []) ∧
   (nodes_of f = [] ∨ 0 < btype) ∧ Forall (λ m, range_size m < num) (nodes_of f)).
Proof.
  intros Hf Hnum. unfold nova_alloc_blocks_in_free_list.
  rewrite (deref_first_spec _ _ _ Hf). cbn.
  destruct (alloc_loop_spec lb ub f btype num (length (nodes_of f)) [] (nodes_of f))
    as [(f1&n&m&nodes&->&?&?&?&?&?&?)|(->&?&?)]; auto.
  left. cbn. eexists _, n, m, nodes. split; [reflexivity|]. split_and!; auto; lia.
Qed.
End list_level.
