(* ===== verification/BallocProofs.v ===== *)
(** * The allocator as a whole (balloc.c)

    The invariant of all free lists together, and what [nova_free_blocks],
    [nova_new_blocks] and [nova_count_free_blocks] do to the set of free
    blocks. *)
From S2P Require Import Prelude Nvmm RangeTree Layout World Balloc BallocList.

(** ** The invariant *)

(** The abstract state of the allocator: the set of free blocks. *)
Definition block_free (s : nova_sb_info) (b : Z) : Prop :=
  ∃ c, 0 ≤ c ∧ free_block (nova_get_free_list s c) b.

(** Free in a per-CPU list: these are the ones allocation looks at first. *)
Definition cpu_free (s : nova_sb_info) (b : Z) : Prop :=
  ∃ c, 0 ≤ c < cpus s ∧ free_block (nova_get_free_list s c) b.

(** The lists of [c] and [c'] are the same object. *)
Definition same_list (s : nova_sb_info) (c c' : Z) : Prop :=
  c = c' ∨ cpus s ≤ c ∧ cpus s ≤ c'.

(** All range nodes in use, of the free lists and of the inode maps. *)
Definition list_nodes (f : free_list) : list Z := addrs (nodes_of f).
Definition map_nodes (m : inode_map) : list Z := addrs (inorder (inode_inuse_tree m)).
Definition all_nodes (s : nova_sb_info) : list Z :=
  (free_lists s ≫= list_nodes) ++ list_nodes (shared_free_list s) ++
  (inode_maps s ≫= map_nodes).

Record geometry_ok (s : nova_sb_info) : Prop := {
  geo_cpus : 0 < cpus s ≤ SHARED_CPU;
  geo_per : per_list_blocks s = num_blocks s / cpus s;
  geo_reserved : 0 < reserved_blocks s < per_list_blocks s;
  geo_blocks : num_blocks s < 2 ^ 44;
  geo_lists : length (free_lists s) = Z.to_nat (cpus s)
}.

(** Every list is well-formed and offers only blocks of the device behind the
    reserved ones; no block is in two lists; the range nodes are distinct
    objects of the slab cache.  A list need not keep to its CPU's share: an
    extent is freed into the list of its first block. *)
Record balloc_ok (w : world) : Prop := {
  bo_geometry : geometry_ok (w_sbi w);
  bo_lists c : 0 ≤ c →
    fl_ok (reserved_blocks (w_sbi w)) (num_blocks (w_sbi w) - 1)
      (nova_get_free_list (w_sbi w) c);
  bo_disjoint c c' b : 0 ≤ c → 0 ≤ c' →
    free_block (nova_get_free_list (w_sbi w) c) b →
    free_block (nova_get_free_list (w_sbi w) c') b → same_list (w_sbi w) c c';
  bo_nodup : NoDup (all_nodes (w_sbi w));
  bo_live p : p ∈ all_nodes (w_sbi w) → p ∈ w_live w
}.

(** An extent of the device behind the reserved blocks. *)
Definition extent_ok (s : nova_sb_info) (b n : Z) : Prop :=
  1 ≤ n ∧ reserved_blocks s ≤ b ∧ b + n ≤ num_blocks s.

Definition same_geometry (s s' : nova_sb_info) : Prop :=
  cpus s' = cpus s ∧ per_list_blocks s' = per_list_blocks s ∧
  num_blocks s' = num_blocks s ∧ reserved_blocks s' = reserved_blocks s.

(** What no operation of the allocator touches. *)
Definition same_rest (w w' : world) : Prop :=
  same_geometry (w_sbi w) (w_sbi w') ∧ inode_maps (w_sbi w') = inode_maps (w_sbi w) ∧
  w_inodes w' = w_inodes w.

(** The list [nova_free_blocks] puts a block into. *)
Definition home_list (s : nova_sb_info) (b : Z) : Z :=
  let cpuid := s32 (b / per_list_blocks s) in
  if decide (cpus s ≤ cpuid) then SHARED_CPU else cpuid.

(** What freeing [n] blocks from [b] and allocating [k] blocks from [b] do. *)
Definition blocks_freed (w w' : world) (b n : Z) : Prop :=
  balloc_ok w' ∧
  (∀ x, block_free (w_sbi w') x ↔ block_free (w_sbi w) x ∨ b ≤ x ≤ b + n - 1) ∧
  nova_count_free_blocks (w_sbi w') = nova_count_free_blocks (w_sbi w) + n ∧
  w_nvmm w' = w_nvmm w ∧ same_rest w w' ∧ w_hist w' = w_hist w ∧
  (∀ c x, 0 ≤ c → free_block (nova_get_free_list (w_sbi w') c) x →
     free_block (nova_get_free_list (w_sbi w) c) x ∨
     same_list (w_sbi w) (home_list (w_sbi w) b) c ∧ b ≤ x ≤ b + n - 1).

Definition blocks_allocated (w w' : world) (b k : Z) (zero : bool) : Prop :=
  extent_ok (w_sbi w) b k ∧ balloc_ok w' ∧
  (∀ x, b ≤ x ≤ b + k - 1 → block_free (w_sbi w) x) ∧
  (∀ c x, 0 ≤ c →
     free_block (nova_get_free_list (w_sbi w') c) x ↔
     free_block (nova_get_free_list (w_sbi w) c) x ∧ ¬ (b ≤ x ≤ b + k - 1)) ∧
  nova_count_free_blocks (w_sbi w') = nova_count_free_blocks (w_sbi w) - k ∧
  (∀ a, ld8 (vis (w_nvmm w')) a =
        if decide (zero = true ∧ b * 4096 ≤ a < (b + k) * 4096) then 0
        else ld8 (vis (w_nvmm w)) a) ∧
  same_rest w w' ∧
  (zero = false → w_nvmm w' = w_nvmm w ∧ w_hist w' = w_hist w) ∧
  (length (all_nodes (w_sbi w')) ≤ length (all_nodes (w_sbi w)))%nat ∧
  (∃ c, 0 ≤ c ∧ ∀ x, b ≤ x ≤ b + k - 1 → free_block (nova_get_free_list (w_sbi w) c) x).

(** ** Reading and writing lists *)
Section lists.
Context (s : nova_sb_info) (Hgeo : geometry_ok s).

Lemma geo_product :
  0 < per_list_blocks s ∧
  per_list_blocks s * cpus s ≤ num_blocks s < per_list_blocks s * cpus s + cpus s.
Proof.
  destruct Hgeo as [[??] Hper [??] _ _].
  pose proof (Z.div_mod (num_blocks s) (cpus s) ltac:(lia)).
  pose proof (Z.mod_pos_bound (num_blocks s) (cpus s) ltac:(lia)). nia.
Qed.

Lemma put_same_geometry c f : geometry_ok (put_free_list c f s).
Proof.
  unfold put_free_list. destruct Hgeo. case_decide; split; cbn; try done.
  by rewrite length_insert.
Qed.

Lemma put_geometry c f : same_geometry s (put_free_list c f s).
Proof. unfold put_free_list. by case_decide. Qed.

Lemma put_maps c f : inode_maps (put_free_list c f s) = inode_maps s.
Proof. unfold put_free_list. by case_decide. Qed.

Lemma get_put c f c' :
  0 ≤ c → 0 ≤ c' →
  (same_list s c c' ∧ nova_get_free_list (put_free_list c f s) c' = f) ∨
  (¬ same_list s c c' ∧
   nova_get_free_list (put_free_list c f s) c' = nova_get_free_list s c').
Proof.
  intros. pose proof (geo_lists s Hgeo) as Hlen.
  unfold same_list, nova_get_free_list, put_free_list.
  destruct (decide (c < cpus s)); cbn; destruct (decide (c' < cpus s));
    try (right; split; [lia|done]); [|left; split; [lia|done]].
  destruct (decide (c = c')) as [->|].
  - left. rewrite list_lookup_insert_eq by lia. auto.
  - right. rewrite list_lookup_insert_ne by lia. split; [lia|done].
Qed.

Lemma get_same c c' :
  same_list s c c' → nova_get_free_list s c = nova_get_free_list s c'.
Proof.
  unfold same_list, nova_get_free_list. intros [->|[??]]; [done|].
  by rewrite !decide_False by lia.
Qed.

(** Replacing a list moves range nodes only between it and the slab. *)
Lemma nodes_put c f X Y :
  0 ≤ c → X ++ list_nodes (nova_get_free_list s c) ≡ₚ list_nodes f ++ Y →
  X ++ all_nodes s ≡ₚ all_nodes (put_free_list c f s) ++ Y.
Proof.
  intros Hc Hp. pose proof (geo_lists s Hgeo) as Hlen.
  unfold all_nodes, put_free_list, nova_get_free_list in *. case_decide; cbn.
  - destruct (lookup_lt_is_Some_2 (free_lists s) (Z.to_nat c)) as [g Hg]; [lia|].
    rewrite Hg in Hp. cbn in Hp.
    rewrite insert_take_drop by (by eapply lookup_lt_Some).
    rewrite <- (take_drop_middle (free_lists s) (Z.to_nat c) g) at 1 by done.
    rewrite !bind_app, !bind_cons.
    transitivity ((X ++ list_nodes g) ++ (take (Z.to_nat c) (free_lists s) ≫= list_nodes) ++
      (drop (S (Z.to_nat c)) (free_lists s) ≫= list_nodes) ++
      list_nodes (shared_free_list s) ++ (inode_maps s ≫= map_nodes));
      [solve_Permutation|]. rewrite Hp. solve_Permutation.
  - transitivity ((X ++ list_nodes (shared_free_list s)) ++
      (free_lists s ≫= list_nodes) ++ (inode_maps s ≫= map_nodes));
      [solve_Permutation|]. rewrite Hp. solve_Permutation.
Qed.
End lists.

#[global] Instance free_block_dec f b : Decision (free_block f b).
Proof. unfold free_block, in_ranges, in_range. apply _. Defined.

(** A list replaced by [f], which shares no block with the others, [X] taken
    from the slab cache and [Y] given back, keeps the invariant. *)
Lemma balloc_ok_put w w' c f X Y :
  balloc_ok w → 0 ≤ c →
  fl_ok (reserved_blocks (w_sbi w)) (num_blocks (w_sbi w) - 1) f →
  (∀ c' b, 0 ≤ c' → free_block f b →
     free_block (nova_get_free_list (w_sbi w) c') b → same_list (w_sbi w) c c') →
  NoDup X → (∀ p, p ∈ X → p ∉ w_live w) →
  X ++ list_nodes (nova_get_free_list (w_sbi w) c) ≡ₚ list_nodes f ++ Y →
  w_sbi w' = put_free_list c f (w_sbi w) →
  (∀ p, p ∈ w_live w' ↔ (p ∈ X ∨ p ∈ w_live w) ∧ p ∉ Y) →
  balloc_ok w'.
Proof.
  intros [Hgeo Hl Hdj Hnd Hlive] Hc Hf Hfd HX HXl Hp Hs Hlv.
  pose proof (nodes_put _ Hgeo c f X Y Hc Hp) as Hall.
  assert (NoDup (X ++ all_nodes (w_sbi w))) as HndX.
  { apply NoDup_app. split_and!; try done. intros p ?%HXl Hp'. auto. }
  rewrite Hall in HndX. apply NoDup_app in HndX as (Hnd'&Hdis&_).
  destruct (put_geometry (w_sbi w) c f) as (Ec&Ep&En&Er).
  split; rewrite Hs; try done.
  - by apply put_same_geometry.
  - intros c' Hc'. rewrite En, Er.
    destruct (get_put _ Hgeo c f c' Hc Hc') as [[_ ->]|[_ ->]]; auto.
  - intros c1 c2 b Hc1 Hc2. unfold same_list in *. rewrite Ec.
    destruct (get_put _ Hgeo c f c1 Hc Hc1) as [[Hs1 ->]|[Hs1 ->]];
      destruct (get_put _ Hgeo c f c2 Hc Hc2) as [[Hs2 ->]|[Hs2 ->]];
      unfold same_list in *; intros Hb1 Hb2.
    + lia.
    + pose proof (Hfd c2 b Hc2 Hb1 Hb2). lia.
    + pose proof (Hfd c1 b Hc1 Hb2 Hb1). lia.
    + by apply (Hdj c1 c2 b).
  - intros p Hp'. apply Hlv. split; [|by intros ?%(Hdis p)].
    assert (p ∈ X ++ all_nodes (w_sbi w)) as [?|?]%elem_of_app; [|by auto..].
    rewrite Hall. set_solver.
Qed.

Lemma free_block_bounds w c b :
  balloc_ok w → 0 ≤ c → free_block (nova_get_free_list (w_sbi w) c) b →
  reserved_blocks (w_sbi w) ≤ b < num_blocks (w_sbi w).
Proof.
  intros Hok Hc Hb. pose proof (bo_lists w Hok c Hc) as [_ Hr _ _ _ _].
  pose proof (in_ranges_bounds 2 _ _ _ b ltac:(lia) Hr Hb). lia.
Qed.

Lemma block_free_bounds w b :
  balloc_ok w → block_free (w_sbi w) b → reserved_blocks (w_sbi w) ≤ b < num_blocks (w_sbi w).
Proof. intros Hok (c&Hc&Hb). by eapply free_block_bounds. Qed.

Lemma balloc_ok_same w w' :
  w_sbi w' = w_sbi w → w_live w' = w_live w → balloc_ok w → balloc_ok w'.
Proof. intros Es El []. split; rewrite ?Es, ?El; auto. Qed.

Lemma cpu_free_count w b :
  balloc_ok w → cpu_free (w_sbi w) b →
  ∃ i, 0 ≤ i < cpus (w_sbi w) ∧
    1 ≤ num_free_blocks (nova_get_free_list (w_sbi w) i).
Proof.
  intros Hok (c&Hc&Hb). exists c. split; [done|].
  pose proof (bo_lists w Hok c (proj1 Hc)) as [_ Hr _ _ -> _].
  unfold free_block in Hb. apply Exists_exists in Hb as (n&Hn&_).
  pose proof (length_le_total 2 _ _ _ ltac:(lia) Hr).
  destruct (nodes_of (nova_get_free_list (w_sbi w) c)); [set_solver|]. cbn in *. lia.
Qed.

Lemma get_put_same w c f :
  balloc_ok w → 0 ≤ c → nova_get_free_list (put_free_list c f (w_sbi w)) c = f.
Proof.
  intros Hok Hc. destruct (get_put _ (bo_geometry w Hok) c f c Hc Hc)
    as [[_ ->]|[Hns _]]; [done|]. exfalso. apply Hns. by left.
Qed.

(** The blocks of a list are in no other list, so replacing it replaces
    exactly them. *)
Lemma block_free_put w c f b :
  balloc_ok w → 0 ≤ c →
  block_free (put_free_list c f (w_sbi w)) b ↔
  free_block f b ∨
  block_free (w_sbi w) b ∧ ¬ free_block (nova_get_free_list (w_sbi w) c) b.
Proof.
  intros Hok Hc. pose proof (bo_geometry w Hok) as Hgeo. split.
  - intros (c'&Hc'&Hf).
    destruct (get_put _ Hgeo c f c' Hc Hc') as [[_ Heq]|[Hns Heq]];
      rewrite Heq in Hf; [by left|right].
    split; [by exists c'|]. intros Hf'. apply Hns. by apply (bo_disjoint w Hok c c' b).
  - intros [Hf|[(c'&Hc'&Hf) Hn]].
    + exists c. split; [done|]. by rewrite get_put_same.
    + exists c'. split; [done|].
      destruct (get_put _ Hgeo c f c' Hc Hc') as [[Hsame _]|[_ ->]]; [|done].
      exfalso. apply Hn. by rewrite (get_same _ c c').
Qed.

Lemma forM_free nodes w :
  forM nodes nova_free_range_node w =
  Done ((), set_live (w_live w ∖ list_to_set nodes) w).
Proof.
  revert w. induction nodes as [|p nodes IH]; intros w; cbn.
  - unfold mret, M_ret. rewrite difference_empty_L. by destruct w.
  - unfold mbind, M_bind, nova_free_range_node, modify. cbn. rewrite IH. cbn.
    by rewrite difference_difference_l_L.
Qed.

Lemma all_nodes_get s c p :
  geometry_ok s → 0 ≤ c → p ∈ list_nodes (nova_get_free_list s c) → p ∈ all_nodes s.
Proof.
  intros Hgeo Hc Hp. pose proof (nodes_put s Hgeo c zero_free_list []
    (list_nodes (nova_get_free_list s c)) Hc (reflexivity _)) as Hall.
  cbn in Hall. rewrite Hall. set_solver.
Qed.

(** ** Counting *)
Lemma foldl_u64_sum {A} (f : A → Z) l acc :
  0 ≤ acc → Forall (λ x, 0 ≤ f x) l → acc + Zsum (f <$> l) < 2 ^ 64 →
  foldl (λ n x, u64 (n + f x)) acc l = acc + Zsum (f <$> l).
Proof.
  revert acc. induction l as [|x l IH]; intros acc Hacc Hl Hsum;
    cbn in *; rewrite ?Zsum_nil, ?Zsum_cons in *; [lia|].
  apply Forall_cons in Hl as [Hx Hl].
  assert (0 ≤ Zsum (f <$> l)) by (apply Zsum_nonneg; by apply Forall_fmap).
  rewrite wrap_small by lia. rewrite IH; [lia|lia|done|lia].
Qed.

Lemma get_lists s :
  geometry_ok s → nova_get_free_list s <$> seqZ 0 (cpus s) = free_lists s.
Proof.
  intros [? _ _ _ Hlen]. apply list_eq. intros i. rewrite list_lookup_fmap.
  destruct (decide (Z.of_nat i < cpus s)) as [Hi|Hi].
  - rewrite lookup_seqZ_lt by lia. cbn. unfold nova_get_free_list.
    rewrite decide_True by lia. replace (Z.to_nat (0 + Z.of_nat i)) with i by lia.
    destruct (lookup_lt_is_Some_2 (free_lists s) i) as [f ->]; [lia|]. done.
  - rewrite lookup_seqZ_ge by lia. cbn. symmetry. apply lookup_ge_None. lia.
Qed.

Lemma list_free_bound w c :
  balloc_ok w → 0 ≤ c →
  0 ≤ num_free_blocks (nova_get_free_list (w_sbi w) c) ≤ num_blocks (w_sbi w).
Proof.
  intros Hok Hc. pose proof (bo_lists w Hok c Hc) as Hf.
  destruct (geo_product _ (bo_geometry w Hok)) as [??].
  destruct (bo_geometry w Hok) as [_ _ ? _ _].
  destruct Hf as [_ Hr _ _ -> _].
  split; [by eapply total_size_nonneg; [|done]|].
  apply total_size_upper in Hr; lia || nia.
Qed.

Lemma lists_free_bound w :
  balloc_ok w →
  0 ≤ Zsum (num_free_blocks <$> free_lists (w_sbi w)) ≤
  num_blocks (w_sbi w) * cpus (w_sbi w).
Proof.
  intros Hok. pose proof (bo_geometry w Hok) as Hgeo.
  assert (Forall (λ x, 0 ≤ x ≤ num_blocks (w_sbi w))
            (num_free_blocks <$> free_lists (w_sbi w))) as Hall.
  { rewrite <- (get_lists _ Hgeo), <- list_fmap_compose.
    apply Forall_fmap, Forall_forall. intros i Hi%elem_of_seqZ.
    apply list_free_bound; [done|lia]. }
  split.
  - apply Zsum_nonneg. eapply Forall_impl; [done|]. cbn. lia.
  - etrans; [apply (Zsum_bound _ (num_blocks (w_sbi w))); eapply Forall_impl; [done|]; cbn; lia|].
    rewrite length_fmap, (geo_lists _ Hgeo). destruct Hgeo. lia.
Qed.

(** The count the code reports is the exact number of free blocks: no sum
    wraps around. *)
Lemma count_free_sum w :
  balloc_ok w →
  nova_count_free_blocks (w_sbi w) =
  Zsum (num_free_blocks <$> free_lists (w_sbi w)) +
  num_free_blocks (shared_free_list (w_sbi w)).
Proof.
  intros Hok. pose proof (bo_geometry w Hok) as Hgeo.
  destruct (geo_product _ Hgeo) as [??].
  pose proof (list_free_bound w SHARED_CPU Hok ltac:(done)) as Hsh.
  unfold nova_get_free_list in Hsh.
  pose proof (lists_free_bound w Hok) as Hb.
  pose proof (geo_blocks _ Hgeo). pose proof (geo_cpus _ Hgeo).
  rewrite decide_False in Hsh by lia.
  assert (num_blocks (w_sbi w) * cpus (w_sbi w) < 2 ^ 46 * 2 ^ 17).
  { change SHARED_CPU with 65536 in *. nia. }
  rewrite <- (get_lists _ Hgeo), <- list_fmap_compose in Hb |- *.
  unfold nova_count_free_blocks.
  rewrite (foldl_u64_sum (num_free_blocks ∘ nova_get_free_list (w_sbi w)));
    [|lia| |lia].
  - unfold nova_get_free_list at 2. rewrite decide_False by lia. unwrap. lia.
  - apply Forall_forall. intros i Hi%elem_of_seqZ.
    apply (list_free_bound w i Hok). lia.
Qed.

Lemma count_free_put w w' c f :
  balloc_ok w → balloc_ok w' → 0 ≤ c → w_sbi w' = put_free_list c f (w_sbi w) →
  nova_count_free_blocks (w_sbi w') =
  nova_count_free_blocks (w_sbi w) - num_free_blocks (nova_get_free_list (w_sbi w) c)
  + num_free_blocks f.
Proof.
  intros Hok Hok' Hc Hs. rewrite !count_free_sum by done. rewrite Hs.
  pose proof (geo_lists _ (bo_geometry w Hok)) as Hlen.
  unfold put_free_list, nova_get_free_list. case_decide; cbn; [|lia].
  destruct (lookup_lt_is_Some_2 (free_lists (w_sbi w)) (Z.to_nat c)) as [g Hg]; [lia|].
  rewrite Hg, insert_take_drop by (by eapply lookup_lt_Some).
  rewrite <- (take_drop_middle (free_lists (w_sbi w)) (Z.to_nat c) g) at 3 by done.
  rewrite !fmap_app, !fmap_cons, !Zsum_app, !Zsum_cons. cbn. lia.
Qed.

(** ** Freeing *)

Lemma home_list_nonneg s b : geometry_ok s → 0 ≤ b < num_blocks s → 0 ≤ home_list s b.
Proof.
  intros Hgeo Hb. destruct (geo_product s Hgeo) as [Hper Hprod].
  destruct Hgeo as [Hcpus _ _ _ _]. change SHARED_CPU with 65536 in *.
  assert (0 ≤ b / per_list_blocks s) by (apply Z.div_pos; lia).
  assert (b / per_list_blocks s < 2 ^ 31) by (apply Z.div_lt_upper_bound; nia).
  unfold home_list. rewrite s32_small by lia. by case_decide.
Qed.

(** Disjointness of the lists of a concrete device: every range of a list is
    disjoint from every range of the lists behind it. *)
Definition ranges_disjoint (l1 l2 : list nova_range_node) : Prop :=
  Forall (λ m1, Forall (λ m2, range_high m1 < range_low m2 ∨ range_high m2 < range_low m1) l2) l1.
Definition device_lists (s : nova_sb_info) : list (list nova_range_node) :=
  ((λ f, nodes_of f) <$> free_lists s) ++ [nodes_of (shared_free_list s)].
Definition lists_disjoint_b (s : nova_sb_info) : bool :=
  bool_decide (Forall (λ i, Forall (λ j, i = j ∨
      ranges_disjoint (default [] (device_lists s !! i)) (default [] (device_lists s !! j)))
    (seq 0 (length (device_lists s)))) (seq 0 (length (device_lists s)))).

Lemma concrete_disjoint s c c' b :
  length (free_lists s) = Z.to_nat (cpus s) → 0 ≤ cpus s →
  lists_disjoint_b s = true → 0 ≤ c → 0 ≤ c' →
  free_block (nova_get_free_list s c) b → free_block (nova_get_free_list s c') b →
  same_list s c c'.
Proof.
  intros Hlen Hcpus Hb%bool_decide_eq_true Hc Hc' Hf Hf'.
  assert (∀ c, 0 ≤ c → nodes_of (nova_get_free_list s c) =
    default [] (device_lists s !! Z.to_nat (Z.min c (cpus s)))) as Hget.
  { intros d Hd. unfold nova_get_free_list, device_lists.
    destruct (decide (d < cpus s)).
    - rewrite Z.min_l by lia. rewrite lookup_app_l by (rewrite length_fmap; lia).
      rewrite list_lookup_fmap. by destruct (free_lists s !! Z.to_nat d).
    - rewrite Z.min_r by lia. rewrite lookup_app_r by (rewrite length_fmap; lia).
      rewrite length_fmap, Hlen, Nat.sub_diag. done. }
  unfold free_block in Hf, Hf'. rewrite Hget in Hf, Hf' by done.
  assert (length (device_lists s) = S (Z.to_nat (cpus s))) as Hl.
  { unfold device_lists. rewrite length_app, length_fmap, Hlen. cbn. lia. }
  rewrite Forall_forall in Hb.
  specialize (Hb (Z.to_nat (Z.min c (cpus s))) ltac:(apply elem_of_seq; lia)).
  rewrite Forall_forall in Hb.
  destruct (Hb (Z.to_nat (Z.min c' (cpus s))) ltac:(apply elem_of_seq; lia)) as [?|Hd];
    [unfold same_list; lia|].
  exfalso. apply Exists_exists in Hf as (m&Hm&Hmb). apply Exists_exists in Hf' as (m'&Hm'&Hmb').
  unfold ranges_disjoint in Hd. rewrite Forall_forall in Hd. specialize (Hd m Hm).
  rewrite Forall_forall in Hd. specialize (Hd m' Hm'). unfold in_range in *. lia.
Qed.

(** A device of 21 blocks on two CPUs: blocks 3-4, 7-9 and 10-19 are free, 5
    and 6 in use, one is left over. *)
Definition small_lists : list free_list :=
  [FreeList (RbNode (RbNode RbNil (RangeNode 100 3 4) RbNil) (RangeNode 101 7 9) RbNil)
     (Some 100) 3 9 5 2 zero_stats;
   FreeList (RbNode RbNil (RangeNode 200 10 19) RbNil) (Some 200) 10 19 10 1 zero_stats].
Definition small_sbi : nova_sb_info :=
  SbInfo 21 (21 * 4096) 0 3 2 0 10 [] small_lists
    (FreeList RbNil None 20 20 0 0 zero_stats) zero_mount_info.
Definition small_world : world :=
  World (nvmm_boot ∅) small_sbi {[100; 101; 200]} 0 ∅ [].

Lemma small_world_ok : balloc_ok small_world.
Proof.
  split.
  - split; cbn; done || lia.
  - intros c Hc. assert (c = 0 ∨ c = 1 ∨ 2 ≤ c) as [->|[->|Hge]] by lia.
    + by split; repeat constructor; cbn; try lia; try set_solver.
    + by split; repeat constructor; cbn; try lia; try set_solver.
    + unfold nova_get_free_list. cbn.
      rewrite !decide_False by lia. by split; repeat constructor; cbn.
  - intros c c' b. by apply concrete_disjoint; vm_compute.
  - by apply (bool_decide_unpack _).
  - intros p Hp. cbn in *. set_solver.
Qed.

Section theorems.
Context `{RbTreeLaws} `{EnvLaws}.

Lemma free_blocks_run w b num btype log_page :
  let n := nova_get_numblocks btype * num in
  balloc_ok w → 1 ≤ num → extent_ok (w_sbi w) b n →
  (∀ x, b ≤ x ≤ b + n - 1 → ¬ block_free (w_sbi w) x) →
  (kmem_cache_alloc (w_tick w) (w_live w) = None ∧
   nova_free_blocks b num btype log_page w = Done (- ENOMEM, next_tick w)) ∨
  (∃ w', nova_free_blocks b num btype log_page w = Done (0, w') ∧
     blocks_freed w w' b n).
Proof.
  intros n Hok Hnum (Hn&Hlo&Hhi) Hfree. pose proof (bo_geometry w Hok) as Hgeo.
  pose proof (home_list_nonneg _ b Hgeo) as Hc'.
  destruct (geo_product _ Hgeo) as [Hper _]. pose proof (geo_reserved _ Hgeo).
  specialize (Hc' ltac:(lia)).
  unfold home_list in Hc'. set (cpuid := if decide _ then _ else _) in *.
  unfold nova_free_blocks. rewrite decide_False by lia. run.
  rewrite decide_False by lia. cbv zeta. fold cpuid. rewrite decide_False by lia. run.
  destruct (kmem_cache_alloc (w_tick w) (w_live w)) as [p|] eqn:Hal; [|by left].
  right. apply kmem_cache_alloc_fresh in Hal as [Hfresh _].
  pose proof (bo_lists w Hok cpuid Hc') as Hfl.
  pose proof (proj2 (fl_bounds _ _ _ Hfl)). pose proof (proj1 (fl_bounds _ _ _ Hfl)).
  rewrite (wrap_small 64 (_ * num)) by (fold n; lia). fold n.
  set (f := nova_get_free_list (w_sbi w) cpuid) in *.
  assert (p ∉ list_nodes f) as Hpf.
  { intros Hp. apply Hfresh, (bo_live w Hok). by apply (all_nodes_get _ cpuid). }
  assert (∀ x, b ≤ x ≤ b + n - 1 → ¬ free_block f x) as Hff.
  { intros x Hx Hfx. apply (Hfree x Hx). by exists cpuid. }
  destruct (free_in_list_spec _ _ f p b n log_page Hfl Hpf Hlo Hn ltac:(lia) Hff)
    as (f'&nodes&->&Hok'&Hset&Hcnt&Hp).
  unfold update_free_list. run. rewrite (bind_run _ _ _ _ _ (forM_free nodes _)).
  eexists. split; [reflexivity|].
  assert (balloc_ok (set_live
     (w_live (set_sbi (put_free_list cpuid f' (w_sbi w))
        (set_live ({[p]} ∪ w_live w) (next_tick w))) ∖ list_to_set nodes)
     (set_sbi (put_free_list cpuid f' (w_sbi w))
        (set_live ({[p]} ∪ w_live w) (next_tick w))))) as Hok2.
  { eapply (balloc_ok_put w _ cpuid f' [p] nodes); try done.
    - intros c' x Hc2 [Hx|Hx]%Hset Hx'; [by apply (bo_disjoint w Hok cpuid c' x)|].
      exfalso. apply (Hfree x Hx). by exists c'.
    - apply NoDup_singleton.
    - set_solver.
    - cbn. set_solver. }
  split; [done|]. split_and!.
  - intros x. cbn. rewrite block_free_put by done. rewrite Hset.
    destruct (decide (free_block f x)) as [Hx|Hx]; [|by fold f; intuition].
    assert (block_free (w_sbi w) x) by (by exists cpuid). by intuition.
  - pose proof (count_free_put w _ cpuid f' Hok Hok2 Hc' eq_refl) as Hcf.
    cbn in Hcf |- *. fold f in Hcf. lia.
  - done.
  - split; [apply put_geometry|]. split; [apply put_maps|done].
  - done.
  - intros c x Hc Hx.
    change (free_block (nova_get_free_list (put_free_list cpuid f' (w_sbi w)) c) x) in Hx.
    destruct (get_put _ Hgeo cpuid f' c Hc' Hc) as [[Hs E]|[_ E]]; rewrite E in Hx; [|by left].
    apply Hset in Hx as [Hx|Hx]; [|by right].
    left. by rewrite <- (get_same _ _ _ Hs).
Qed.

Lemma put_get s c : geometry_ok s → 0 ≤ c → put_free_list c (nova_get_free_list s c) s = s.
Proof.
  intros Hgeo Hc. pose proof (geo_lists s Hgeo) as Hlen.
  unfold put_free_list, nova_get_free_list. case_decide.
  - destruct (lookup_lt_is_Some_2 (free_lists s) (Z.to_nat c)) as [g Hg]; [lia|].
    rewrite Hg. cbn. rewrite list_insert_id by done. by destruct s.
  - by destruct s.
Qed.

(** Freeing an extent whose first block is in the list it would be put into
    changes nothing and is refused. *)
Theorem nova_free_blocks_double w b num btype log_page :
  balloc_ok w → 1 ≤ num →
  free_block (nova_get_free_list (w_sbi w) (home_list (w_sbi w) b)) b → 0 ≤ b < num_blocks (w_sbi w) →
  nova_free_blocks b num btype log_page w =
  Done (match kmem_cache_alloc (w_tick w) (w_live w) with
        | None => - ENOMEM
        | Some _ => - EINVAL
        end, next_tick w).
Proof.
  intros Hok Hnum Hb Hbd. pose proof (bo_geometry w Hok) as Hgeo.
  pose proof (home_list_nonneg _ b Hgeo Hbd) as Hc'.
  destruct (geo_product _ Hgeo) as [Hper _].
  unfold home_list in Hb, Hc'. set (cpuid := if decide _ then _ else _) in *.
  pose proof (geo_reserved _ Hgeo). pose proof (free_block_bounds w cpuid b Hok Hc' Hb).
  unfold nova_free_blocks. rewrite decide_False by lia. run.
  rewrite decide_False by lia. cbv zeta. fold cpuid. rewrite decide_False by lia. run.
  destruct (kmem_cache_alloc (w_tick w) (w_live w)) as [p|] eqn:Hal; [|done].
  apply kmem_cache_alloc_fresh in Hal as [Hfresh _].
  rewrite (free_in_list_double _ _ _ p b _ log_page (bo_lists w Hok cpuid Hc') Hb).
  unfold update_free_list. run. rewrite (bind_run _ _ _ _ _ (forM_free [p] _)).
  unfold mret, M_ret. do 2 f_equal. unfold set_live, set_sbi, next_tick, set_tick; cbn.
  rewrite put_get by done. f_equal. set_solver.
Qed.

(** ** Allocating *)
Lemma no_first_no_blocks lb ub f :
  fl_ok lb ub f → first_node f = None → num_free_blocks f = 0.
Proof.
  intros [_ _ _ Hfst -> _] Hn. rewrite Hfst in Hn.
  by destruct (nodes_of f).
Qed.

Lemma candidate_loop s l acc :
  (∀ i, i ∈ l → 0 ≤ num_free_blocks (nova_get_free_list s i) < 2 ^ 31) →
  0 ≤ acc.2 < 2 ^ 31 →
  let r := foldl (candidate_step s) acc l in
  acc.2 ≤ r.2 < 2 ^ 31 ∧
  (∀ i, i ∈ l → num_free_blocks (nova_get_free_list s i) ≤ r.2) ∧
  (r = acc ∨ r.1 ∈ l ∧ r.2 = num_free_blocks (nova_get_free_list s r.1)).
Proof.
  revert acc. induction l as [|i l IH]; intros acc Hl Hacc; cbn.
  { split_and!; [lia..|set_solver|by left]. }
  pose proof (Hl i ltac:(set_solver)) as Hi.
  assert (candidate_step s acc i =
    if decide (num_free_blocks (nova_get_free_list s i) > acc.2)
    then (i, num_free_blocks (nova_get_free_list s i)) else acc) as ->.
  { unfold candidate_step. rewrite (wrap_small 64 acc.2), s32_small by lia. done. }
  destruct (decide (num_free_blocks (nova_get_free_list s i) > acc.2)).
  - destruct (IH (i, num_free_blocks (nova_get_free_list s i))) as (Hr1&Hr2&Hr3);
      [set_solver|cbn; lia|]. cbn in *.
    split_and!; [lia..| |].
    + intros j [->|?]%elem_of_cons; [lia|by apply Hr2].
    + right. destruct Hr3 as [->|[??]]; cbn; (split; [set_solver|done]).
  - destruct (IH acc) as (Hr1&Hr2&Hr3); [set_solver|done|]. split_and!; [lia..| |].
    + intros j [->|?]%elem_of_cons; [lia|by apply Hr2].
    + destruct Hr3 as [?|[??]]; [by left|right; split; [set_solver|done]].
Qed.

Lemma candidate_spec w :
  balloc_ok w → num_blocks (w_sbi w) < 2 ^ 31 →
  let c := nova_get_candidate_free_list (w_sbi w) in
  0 ≤ c < cpus (w_sbi w) ∧
  ∀ i, 0 ≤ i < cpus (w_sbi w) →
    num_free_blocks (nova_get_free_list (w_sbi w) i) ≤
    num_free_blocks (nova_get_free_list (w_sbi w) c).
Proof.
  intros Hok Hper. unfold nova_get_candidate_free_list.
  pose proof (geo_cpus _ (bo_geometry w Hok)) as Hcpus.
  destruct (candidate_loop (w_sbi w) (seqZ 0 (cpus (w_sbi w))) (0, 0))
    as (Ha&Hmax&Hwho); [|cbn; lia|].
  { intros i Hi%elem_of_seqZ.
    pose proof (list_free_bound w i Hok ltac:(lia)). lia. }
  cbn in Ha, Hmax, Hwho. destruct Hwho as [Heq|[Hin%elem_of_seqZ Heq]].
  - rewrite Heq in *. cbn in *. split; [lia|]. intros i Hi.
    pose proof (Hmax i ltac:(apply elem_of_seqZ; lia)).
    pose proof (list_free_bound w 0 Hok ltac:(lia)). lia.
  - split; [lia|]. intros i Hi. rewrite <- Heq. apply Hmax, elem_of_seqZ. lia.
Qed.

(** Choosing a list changes nothing (the branch that repairs [first_node]
    is never taken), and fails only if every per-CPU list is too short. *)
Lemma pick_free_list_spec w tries c n :
  balloc_ok w → num_blocks (w_sbi w) < 2 ^ 31 → 0 ≤ c → 1 ≤ n →
  ∃ r, pick_free_list tries c n w = Done (r, w) ∧
    match r with
    | Some c' => 0 ≤ c' ∧ n ≤ num_free_blocks (nova_get_free_list (w_sbi w) c')
    | None => (0 < tries)%nat →
        ∀ i, 0 ≤ i < cpus (w_sbi w) →
          num_free_blocks (nova_get_free_list (w_sbi w) i) < n
    end.
Proof.
  intros Hok Hper Hc Hn. revert c Hc.
  induction tries as [|tries IH]; intros c Hc; cbn [pick_free_list]; run;
    pose proof (bo_lists w Hok c Hc) as Hf;
    destruct (decide (n ≤ num_free_blocks (nova_get_free_list (w_sbi w) c))) as [Hge|Hlt].
  1,3: rewrite decide_False;
    [by exists (Some c)
    |intros [?|?%(no_first_no_blocks _ _ _ Hf)]; lia].
  - rewrite decide_True by lia. exists None. split; [done|]. lia.
  - rewrite decide_True by lia.
    destruct (candidate_spec w Hok Hper) as [Hcand Hmax].
    destruct (IH _ (proj1 Hcand)) as (r&Hr&Hspec). exists r. split; [done|].
    destruct r as [c'|]; [done|]. intros _ i Hi.
    destruct tries as [|tries]; [|by apply Hspec; [lia|]].
    cbn in Hr. unfold mbind, M_bind, get_sbi, gets in Hr.
    repeat case_decide; try done. specialize (Hmax i Hi). lia.
Qed.

Lemma numblocks_pos btype : 1 ≤ nova_get_numblocks btype ≤ 0x40000.
Proof. unfold nova_get_numblocks. repeat case_decide; lia. Qed.

(** The world after a successful allocation: [f'] replaces the list of [c]
    and, when asked for, the [k] blocks from [b] are overwritten by zeros. *)
Definition after_alloc (w : world) (c : Z) (f' : free_list) (nodes : list Z)
    (zero : bool) (b k : Z) : world :=
  let w1 := set_live (w_live w ∖ list_to_set nodes)
              (set_sbi (put_free_list c f' (w_sbi w)) w) in
  if zero then
    set_nvmm (nvmm_write WrittenBack
      (WZero (nova_get_block_off b) (4 * (u32 (u64 (PAGE_SIZE * k)) / 4)))
      (w_nvmm w1)) w1
  else w1.

(** The three ways [nova_new_blocks] can end. *)
Lemma new_blocks_cases w num btype zero atype :
  let n := num * nova_get_numblocks btype in
  balloc_ok w → num_blocks (w_sbi w) < 2 ^ 31 → 1 ≤ num < 2 ^ 32 →
  (nova_new_blocks num btype zero atype w = Done ((- ENOSPC, None), next_tick w) ∧
   ∀ i, 0 ≤ i < cpus (w_sbi w) →
     num_free_blocks (nova_get_free_list (w_sbi w) i) < n) ∨
  (∃ c f' m k nodes, 0 ≤ c ∧
     taken_from (reserved_blocks (w_sbi w)) (num_blocks (w_sbi w) - 1)
       (nova_get_free_list (w_sbi w) c) (range_low m) k f' nodes ∧
     1 ≤ k ≤ n ∧ (0 < btype → k = n) ∧ k = Z.min n (range_size m) ∧
     (btype ≤ 0 → head (nodes_of (nova_get_free_list (w_sbi w) c)) = Some m) ∧
     m ∈ nodes_of (nova_get_free_list (w_sbi w) c) ∧
     nova_new_blocks num btype zero atype w =
     Done ((s32 (k / nova_get_numblocks btype), Some (range_low m)),
           after_alloc (next_tick w) c (set_stats (stats_alloc atype k (stats f')) f')
             nodes zero (range_low m) k)) ∨
  (∃ c, 0 ≤ c ∧ 0 < btype ∧
     let f := nova_get_free_list (w_sbi w) c in
     n ≤ num_free_blocks f ∧ Forall (λ m, range_size m < n) (nodes_of f) ∧
     nova_new_blocks num btype zero atype w =
     Done ((- ENOSPC, None),
           after_alloc (next_tick w) c
             (set_stats (stats_alloc atype (u64 (- ENOSPC)) (stats f))
                (set_num_free (num_free_blocks f - n) f)) [] false 0 0)).
Proof.
  intros n Hok Hper Hnum. pose proof (numblocks_pos btype) as Hnb.
  pose proof (bo_geometry w Hok) as Hgeo.
  assert (1 ≤ n < 2 ^ 64) as Hn by nia.
  unfold nova_new_blocks. rewrite (wrap_small 64 (num * _)) by (fold n; lia). fold n.
  cbv zeta. rewrite decide_False by lia. run.
  destruct (pick_free_list_spec (next_tick w) 3 (smp_processor_id (w_tick w)) n)
    as (r&Hr&Hspec); [by destruct Hok|done|apply smp_processor_id_nonneg|lia|].
  rewrite (bind_run _ _ _ _ _ Hr). destruct r as [c|]; [|by left; auto with lia].
  right. destruct Hspec as [Hc Hge]. cbn [w_sbi next_tick set_tick] in Hge. run.
  pose proof (bo_lists w Hok c Hc) as Hf.
  pose proof (proj1 (fl_ok_counts _ _ _ Hf)) as Hcnt.
  destruct (alloc_in_list_spec _ _ _ btype n Hf ltac:(lia))
    as [(f'&k&m&nodes&Hal&Hk&Hkb&Hm&Hkm&Hin&Htk)|(Hal&Hne&Hshort)];
    cbn [w_sbi next_tick set_tick]; rewrite Hal; run; unfold update_free_list; run;
    rewrite (bind_run _ _ _ _ _ (forM_free _ _)).
  - left. exists c, f', m, k, nodes. split_and!; try done; try lia.
    assert (0 < range_low m < 2 ^ 44).
    { pose proof (geo_reserved _ Hgeo). pose proof (geo_blocks _ Hgeo).
      pose proof (ranges_from_in 2 _ _ _ m ltac:(lia) (fl_ranges _ _ _ Hf) Hin). lia. }
    cbn [from_option id]. rewrite decide_False by lia. run.
    destruct zero; [|done]. rewrite bind_block_ptr; [by run|].
    unfold nova_get_block_off, PAGE_SHIFT. rewrite Z.shiftl_mul_pow2, wrap_small; lia.
  - right. exists c. split; [done|].
    destruct Hne as [Hnil|Hb].
    + pose proof (fl_free _ _ _ Hf) as Hz. rewrite Hnil, total_size_nil in Hz. lia.
    + split_and!; try done. cbn. rewrite (wrap_small 64 (_ - n)) by lia. done.
Qed.

Lemma after_alloc_sbi w c f' nodes zero b k :
  w_sbi (after_alloc w c f' nodes zero b k) = put_free_list c f' (w_sbi w) ∧
  w_live (after_alloc w c f' nodes zero b k) = w_live w ∖ list_to_set nodes ∧
  w_inodes (after_alloc w c f' nodes zero b k) = w_inodes w.
Proof. by destruct zero. Qed.

(** What an allocation leaves: [blocks_allocated] without the memory. *)
Definition blocks_taken (w w' : world) (b k : Z) : Prop :=
  balloc_ok w' ∧ extent_ok (w_sbi w) b k ∧
  (∀ x, b ≤ x ≤ b + k - 1 → block_free (w_sbi w) x) ∧
  (∀ c x, 0 ≤ c →
     free_block (nova_get_free_list (w_sbi w') c) x ↔
     free_block (nova_get_free_list (w_sbi w) c) x ∧ ¬ (b ≤ x ≤ b + k - 1)) ∧
  nova_count_free_blocks (w_sbi w') = nova_count_free_blocks (w_sbi w) - k ∧
  same_rest w w' ∧ (length (all_nodes (w_sbi w')) ≤ length (all_nodes (w_sbi w)))%nat ∧
  (∃ c, 0 ≤ c ∧ ∀ x, b ≤ x ≤ b + k - 1 → free_block (nova_get_free_list (w_sbi w) c) x).

(** List by list, the free blocks lose exactly the run: so does their union. *)
Lemma lists_taken s s' b k :
  (∀ c x, 0 ≤ c →
     free_block (nova_get_free_list s' c) x ↔
     free_block (nova_get_free_list s c) x ∧ ¬ (b ≤ x ≤ b + k - 1)) →
  ∀ x, block_free s' x ↔ block_free s x ∧ ¬ (b ≤ x ≤ b + k - 1).
Proof.
  intros Hl x. split.
  - intros (c&Hc&Hx). apply Hl in Hx as [??]; [|done]. split; [by exists c|done].
  - intros [(c&Hc&Hx) ?]. exists c. split; [done|]. by apply Hl.
Qed.

Lemma after_alloc_spec w c f' nodes zero low k st :
  balloc_ok w → 0 ≤ c → 1 ≤ k →
  taken_from (reserved_blocks (w_sbi w)) (num_blocks (w_sbi w) - 1)
    (nova_get_free_list (w_sbi w) c) low k f' nodes →
  blocks_taken w (after_alloc (next_tick w) c (set_stats st f') nodes zero low k) low k.
Proof.
  intros Hok Hc Hk (Hall&Hset&Hf'&Hcnt&Hp). set (w' := after_alloc _ _ _ _ _ _ _).
  destruct (after_alloc_sbi (next_tick w) c (set_stats st f') nodes zero low k)
    as (Hs&Hl&Hi). fold w' in Hs, Hl, Hi. cbn in Hs, Hl, Hi.
  pose proof (bo_geometry w Hok) as Hgeo.
  assert (balloc_ok w') as Hok'.
  { eapply (balloc_ok_put w w' c (set_stats st f') [] nodes); try done.
    - by destruct Hf'.
    - intros c' x Hc' [Hx _]%Hset Hx'. by apply (bo_disjoint w Hok c c' x).
    - constructor.
    - set_solver.
    - rewrite Hl. set_solver. }
  pose proof (free_block_bounds w c low Hok Hc (Hall low ltac:(lia))).
  pose proof (free_block_bounds w c (low + k - 1) Hok Hc (Hall (low + k - 1) ltac:(lia))).
  split_and!; try done.
  - split; lia.
  - intros x Hx. exists c. auto.
  - intros c' x Hc'. rewrite Hs.
    destruct (get_put _ Hgeo c (set_stats st f') c' Hc Hc') as [[Hsm ->]|[Hns ->]].
    + rewrite <- (get_same _ _ _ Hsm). apply Hset.
    + split; [|by intros []]. intros Hx. split; [done|]. intros Hr.
      apply Hns. apply (bo_disjoint w Hok c c' x); auto.
  - rewrite (count_free_put w w' c _ Hok Hok' Hc Hs). cbn. lia.
  - split; [rewrite Hs; apply put_geometry|]. split; [by rewrite Hs, put_maps|done].
  - rewrite Hs. pose proof (nodes_put _ Hgeo c (set_stats st f') [] nodes Hc Hp) as Hn.
    apply Permutation_length in Hn. rewrite !length_app in Hn. cbn in Hn. lia.
  - exists c. auto.
Qed.

Lemma new_blocks_4K_run w num zero atype :
  balloc_ok w → num_blocks (w_sbi w) < 2 ^ 31 → 1 ≤ num < 2 ^ 20 →
  (nova_new_blocks num NOVA_BLOCK_TYPE_4K zero atype w
     = Done ((- ENOSPC, None), next_tick w) ∧
   ∀ i, 0 ≤ i < cpus (w_sbi w) →
     num_free_blocks (nova_get_free_list (w_sbi w) i) < num) ∨
  (∃ k b w', nova_new_blocks num NOVA_BLOCK_TYPE_4K zero atype w
       = Done ((k, Some b), w') ∧
     1 ≤ k ≤ num ∧ blocks_allocated w w' b k zero).
Proof.
  intros Hok Hper Hnum.
  destruct (new_blocks_cases w num NOVA_BLOCK_TYPE_4K zero atype Hok Hper ltac:(lia))
    as [[-> Hfew]|[(c&f'&m&k&nodes&Hc&Htk&Hk&_&Hkm&_&Hin&->)|(c&_&Hb&_)]];
    change (nova_get_numblocks NOVA_BLOCK_TYPE_4K) with 1 in *;
    rewrite ?Z.mul_1_r in *.
  - left. done.
  - right. rewrite Z.div_1_r, s32_small by lia. eexists k, (range_low m), _.
    split; [reflexivity|]. split; [done|].
    destruct (after_alloc_spec w c f' nodes zero (range_low m) k
                (stats_alloc atype k (stats f')) Hok Hc ltac:(lia) Htk)
      as (Hok'&Hext&Hall&Hset&Hcnt&Hrest&Hlen&Hone). split_and!; try done; [|by intros ->].
    intros a. destruct Hext as (_&Hlo&Hhi).
    pose proof (geo_reserved _ (bo_geometry w Hok)).
    pose proof (geo_blocks _ (bo_geometry w Hok)).
    destruct zero; [|by rewrite decide_False by (by intros [])].
    cbn. unfold nova_get_block_off, PAGE_SHIFT, PAGE_SIZE.
    rewrite Z.shiftl_mul_pow2, (wrap_small 64 (4096 * k)), (wrap_small 32) by lia.
    rewrite (wrap_small 64) by lia.
    replace (4096 * k / 4) with (1024 * k) by (apply Z.div_unique_exact; lia).
    rewrite ld8_zero_range. repeat case_decide; naive_solver lia.
  - exfalso. done.
Qed.

(** C12. Asking for [num] 4K blocks.  [-ENOSPC] comes with nothing changed and
    only when no per-CPU list has [num] free blocks.  Otherwise the result is
    a run of 1 to [num] blocks, all free before; exactly they stop being
    free, the count drops by their number, and memory is unchanged except
    that with [zero] the run reads as zeros. *)
Theorem nova_new_blocks_4K w num zero atype :
  balloc_ok w → num_blocks (w_sbi w) < 2 ^ 31 → 1 ≤ num < 2 ^ 20 →
  (nova_new_blocks num NOVA_BLOCK_TYPE_4K zero atype w
     = Done ((- ENOSPC, None), next_tick w) ∧
   ∀ i, 0 ≤ i < cpus (w_sbi w) →
     num_free_blocks (nova_get_free_list (w_sbi w) i) < num) ∨
  (∃ k b w', nova_new_blocks num NOVA_BLOCK_TYPE_4K zero atype w
       = Done ((k, Some b), w') ∧
     1 ≤ k ≤ num ∧ extent_ok (w_sbi w) b k ∧ balloc_ok w' ∧
     (∀ x, b ≤ x ≤ b + k - 1 → block_free (w_sbi w) x) ∧
     (∀ x, block_free (w_sbi w') x ↔ block_free (w_sbi w) x ∧ ¬ (b ≤ x ≤ b + k - 1)) ∧
     nova_count_free_blocks (w_sbi w') = nova_count_free_blocks (w_sbi w) - k ∧
     (∀ a, ld8 (vis (w_nvmm w')) a =
           if decide (zero = true ∧ b * 4096 ≤ a < (b + k) * 4096) then 0
           else ld8 (vis (w_nvmm w)) a) ∧
     same_rest w w').
Proof.
  intros Hok Hblk Hnum.
  destruct (new_blocks_4K_run w num zero atype Hok Hblk Hnum)
    as [?|(k&b&w'&Hrun&Hk&Hext&Hok'&Hall&Hset&?)]; [by left|right].
  exists k, b, w'. split_and!; try done; try tauto. by apply lists_taken.
Qed.

(** C13. Freeing an extent of the device none of whose blocks is free.  Either
    the slab cache is exhausted: [-ENOMEM], nothing freed, the extent is
    leaked.  Or the call returns 0, exactly these blocks become free, and
    the count grows by their number. *)
Theorem nova_free_blocks_spec w b num btype log_page :
  let n := nova_get_numblocks btype * num in
  balloc_ok w → 1 ≤ num → extent_ok (w_sbi w) b n →
  (∀ x, b ≤ x ≤ b + n - 1 → ¬ block_free (w_sbi w) x) →
  (kmem_cache_alloc (w_tick w) (w_live w) = None ∧
   nova_free_blocks b num btype log_page w = Done (- ENOMEM, next_tick w)) ∨
  (∃ w', nova_free_blocks b num btype log_page w = Done (0, w') ∧ balloc_ok w' ∧
     (∀ x, block_free (w_sbi w') x ↔ block_free (w_sbi w) x ∨ b ≤ x ≤ b + n - 1) ∧
     nova_count_free_blocks (w_sbi w') = nova_count_free_blocks (w_sbi w) + n ∧
     w_nvmm w' = w_nvmm w ∧ same_rest w w').
Proof.
  intros n Hok Hnum Hext Hfree.
  destruct (free_blocks_run w b num btype log_page Hok Hnum Hext Hfree)
    as [?|(w'&?&?&?&?&?&?&_)]; [by left|right; exists w'; split_and!; done].
Qed.


Lemma same_geometry_extent s s' b n :
  same_geometry s s' → extent_ok s b n → extent_ok s' b n.
Proof.
  intros (E1&E2&E3&E4). unfold extent_ok. by rewrite E3, E4.
Qed.

(** C23. Allocating 4K blocks and freeing what was allocated gives back the
    same set of free blocks and the same count (unless the slab cache has no
    node for the free). *)
Theorem alloc_free_roundtrip w num zero atype log_page k b w' :
  balloc_ok w → num_blocks (w_sbi w) < 2 ^ 31 → 1 ≤ num < 2 ^ 20 →
  nova_new_blocks num NOVA_BLOCK_TYPE_4K zero atype w = Done ((k, Some b), w') →
  nova_free_blocks b k NOVA_BLOCK_TYPE_4K log_page w' = Done (- ENOMEM, next_tick w') ∨
  ∃ w2, nova_free_blocks b k NOVA_BLOCK_TYPE_4K log_page w' = Done (0, w2) ∧
    balloc_ok w2 ∧ (∀ x, block_free (w_sbi w2) x ↔ block_free (w_sbi w) x) ∧
    nova_count_free_blocks (w_sbi w2) = nova_count_free_blocks (w_sbi w).
Proof.
  intros Hok Hper Hnum Hnew.
  destruct (new_blocks_4K_run w num zero atype Hok Hper Hnum)
    as [[Hno _]|(k'&b'&w2&Hw2&Hk&Hext&Hok'&Hall&Hset&Hcnt&_&(Hgeo&_)&_)]; [congruence|].
  pose proof (lists_taken _ _ _ _ Hset) as Hset'. clear Hset. rename Hset' into Hset.
  rewrite Hw2 in Hnew. simplify_eq.
  destruct (free_blocks_run w' b k NOVA_BLOCK_TYPE_4K log_page)
    as [[_ ->]|(w3&->&Hok3&Hset3&Hcnt3&_)]; try done; try lia.
  - change (nova_get_numblocks NOVA_BLOCK_TYPE_4K) with 1. rewrite Z.mul_1_l.
    by eapply same_geometry_extent.
  - change (nova_get_numblocks NOVA_BLOCK_TYPE_4K) with 1. rewrite Z.mul_1_l.
    intros x Hx [_ []]%Hset. done.
  - by left.
  - right. exists w3. change (nova_get_numblocks NOVA_BLOCK_TYPE_4K) with 1 in *.
    rewrite Z.mul_1_l in *. split_and!; try done; [|lia].
    intros x. rewrite Hset3, Hset. split; [by intros [[??]|?]; auto|].
    intros Hx. destruct (decide (b ≤ x ≤ b + k - 1)); auto.
Qed.

(** Changing only the count of a list breaks the invariant. *)
Lemma put_count_only w w' c g :
  balloc_ok w → 0 ≤ c → w_sbi w' = put_free_list c g (w_sbi w) →
  block_free_tree g = block_free_tree (nova_get_free_list (w_sbi w) c) →
  num_free_blocks g ≠ num_free_blocks (nova_get_free_list (w_sbi w) c) →
  nova_get_free_list (w_sbi w') c = g ∧
  (∀ x, block_free (w_sbi w') x ↔ block_free (w_sbi w) x) ∧ ¬ balloc_ok w'.
Proof.
  intros Hok Hc Hs Ht Hne.
  assert (nova_get_free_list (w_sbi w') c = g) as Hget.
  { rewrite Hs. destruct (get_put _ (bo_geometry w Hok) c g c Hc Hc)
      as [[_ ->]|[Hns _]]; [done|]. exfalso. apply Hns. by left. }
  split_and!; [done| |].
  - intros x. rewrite Hs, block_free_put by done. unfold free_block. rewrite Ht.
    destruct (decide (free_block (nova_get_free_list (w_sbi w) c) x)) as [Hx|Hx];
      [|by intuition]. split; [|by auto]. intros _. by exists c.
  - intros Hok'. apply Hne.
    rewrite (fl_free _ _ _ (bo_lists w Hok c Hc)), <- Ht, <- Hget.
    apply (fl_free _ _ _ (bo_lists w' Hok' c Hc)).
Qed.

(** C25. Asking for [num] superpages.  Either no per-CPU list has enough free
    blocks; or exactly the blocks asked for are returned; or the chosen list
    has enough free blocks but no range long enough: then [-ENOSPC] is
    returned with every block still free, while the list's count of free
    blocks is lowered by the blocks that were not allocated, so that the
    invariant is lost. *)
Theorem nova_new_blocks_superpage w num btype zero atype :
  let n := num * nova_get_numblocks btype in
  balloc_ok w → num_blocks (w_sbi w) < 2 ^ 31 → 1 ≤ num < 2 ^ 31 → 0 < btype →
  (nova_new_blocks num btype zero atype w = Done ((- ENOSPC, None), next_tick w) ∧
   ∀ i, 0 ≤ i < cpus (w_sbi w) →
     num_free_blocks (nova_get_free_list (w_sbi w) i) < n) ∨
  (∃ b w', nova_new_blocks num btype zero atype w = Done ((num, Some b), w') ∧
     extent_ok (w_sbi w) b n ∧ balloc_ok w' ∧
     (∀ x, b ≤ x ≤ b + n - 1 → block_free (w_sbi w) x) ∧
     (∀ x, block_free (w_sbi w') x ↔ block_free (w_sbi w) x ∧ ¬ (b ≤ x ≤ b + n - 1)) ∧
     nova_count_free_blocks (w_sbi w') = nova_count_free_blocks (w_sbi w) - n) ∨
  (∃ c w', nova_new_blocks num btype zero atype w = Done ((- ENOSPC, None), w') ∧
     0 ≤ c ∧
     Forall (λ m, range_size m < n) (nodes_of (nova_get_free_list (w_sbi w) c)) ∧
     (∀ x, block_free (w_sbi w') x ↔ block_free (w_sbi w) x) ∧
     num_free_blocks (nova_get_free_list (w_sbi w') c) =
       num_free_blocks (nova_get_free_list (w_sbi w) c) - n ∧
     ¬ balloc_ok w').
Proof.
  intros n Hok Hper Hnum Hb. pose proof (bo_geometry w Hok) as Hgeo.
  pose proof (numblocks_pos btype) as Hnb.
  destruct (new_blocks_cases w num btype zero atype Hok Hper ltac:(lia))
    as [?|[(c&f'&m&k&nodes&Hc&Htk&Hk&Hkn&_&_&_&->)|(c&Hc&_&Hge&Hshort&->)]];
    [by left| |]; right.
  - fold n in Hk, Hkn. left. rewrite Hkn in * by done. exists (range_low m). eexists. split.
    { unfold n. rewrite Z.div_mul, s32_small by lia. reflexivity. }
    destruct (after_alloc_spec w c f' nodes zero (range_low m) n
                (stats_alloc atype n (stats f')) Hok Hc ltac:(lia) Htk)
      as (?&?&?&Hset&?&?). split_and!; try done. by apply lists_taken.
  - fold n in Hge, Hshort |- *. right. set (w' := after_alloc _ _ _ _ _ _ _).
    exists c, w'. split; [reflexivity|]. split; [done|]. split; [done|].
    destruct (put_count_only w w' c _ Hok Hc eq_refl eq_refl)
      as (Hget&Hset&Hbad); [cbn; nia|].
    split_and!; [done|by rewrite Hget|done].
Qed.
End theorems.

(** ** Instances *)
Section instances.
#[local] Existing Instances bst_rb bst_rb_laws env1 env1_laws.

(** C26. The overlap check of [nova_find_free_slot] is incomplete: when the
    search ends at the range below, the range above is not looked at.  On the
    sample device block 7 is free, yet freeing 5-7 succeeds, block 7 is then
    in two ranges and counted twice. *)
Theorem overlapping_free_undetected :
  balloc_ok small_world ∧ block_free (w_sbi small_world) 7 ∧
  nova_count_free_blocks (w_sbi small_world) = 15 ∧
  ∃ w', nova_free_blocks 5 3 NOVA_BLOCK_TYPE_4K false small_world = Done (0, w') ∧
    nova_count_free_blocks (w_sbi w') = 18 ∧
    nodes_of (nova_get_free_list (w_sbi w') 0) = [RangeNode 100 3 7; RangeNode 101 7 9] ∧
    ¬ balloc_ok w'.
Proof.
  split; [apply small_world_ok|]. split.
  { exists 0. split; [done|]. apply (bool_decide_unpack _). by vm_compute. }
  split; [by vm_compute|]. eexists. split; [vm_compute; reflexivity|].
  split; [by vm_compute|]. split; [by vm_compute|].
  intros Hok. pose proof (fl_ranges _ _ _ (bo_lists _ Hok 0 ltac:(done))) as Hr.
  vm_compute in Hr. destruct Hr as (_&_&_&Hr&_). by apply Hr.
Qed.

Lemma nova_free_blocks_spec_witness :
  ∃ w', nova_free_blocks 5 2 NOVA_BLOCK_TYPE_4K true small_world = Done (0, w') ∧
    balloc_ok w'.
Proof.
  destruct (nova_free_blocks_spec small_world 5 2 NOVA_BLOCK_TYPE_4K true)
    as [[Hno _]|(w'&Hw&Hok&_)]; [apply small_world_ok|lia|by vm_compute| |done|eauto].
  - intros x Hx (c&Hc&Hb). change (5 ≤ x ≤ 6) in Hx.
    assert (c = 0 ∨ c = 1 ∨ 2 ≤ c) as [->|[->|Hge]] by lia.
    + change (in_ranges x [RangeNode 100 3 4; RangeNode 101 7 9]) in Hb.
      rewrite !in_ranges_cons, in_ranges_nil in Hb. unfold in_range in Hb.
      cbn in Hb. lia.
    + change (in_ranges x [RangeNode 200 10 19]) in Hb.
      rewrite !in_ranges_cons, in_ranges_nil in Hb. unfold in_range in Hb.
      cbn in Hb. lia.
    + unfold nova_get_free_list in Hb. rewrite decide_False in Hb by (cbn; lia).
      by apply in_ranges_nil in Hb.
Defined.

Lemma nova_free_blocks_double_witness :
  nova_free_blocks 8 1 NOVA_BLOCK_TYPE_4K false small_world
  = Done (- EINVAL, next_tick small_world).
Proof.
  rewrite (nova_free_blocks_double small_world 8 1 NOVA_BLOCK_TYPE_4K false);
    [by vm_compute|apply small_world_ok|lia| |done].
  apply (bool_decide_unpack _). by vm_compute.
Defined.

Lemma nova_new_blocks_4K_witness :
  ∃ k b w', nova_new_blocks 5 NOVA_BLOCK_TYPE_4K true LOG small_world
    = Done ((k, Some b), w') ∧ 1 ≤ k ≤ 5 ∧ balloc_ok w'.
Proof.
  destruct (nova_new_blocks_4K small_world 5 true LOG small_world_ok)
    as [[_ Hno]|(k&b&w'&?&?&_&?&_)]; [done|lia| |by eauto 10].
  specialize (Hno 1 ltac:(done)). by vm_compute in Hno.
Defined.

Lemma alloc_free_roundtrip_witness :
  ∃ w1 w2, nova_new_blocks 2 NOVA_BLOCK_TYPE_4K false DATA small_world
      = Done ((2, Some 3), w1) ∧
    nova_free_blocks 3 2 NOVA_BLOCK_TYPE_4K false w1 = Done (0, w2) ∧
    nova_count_free_blocks (w_sbi w2) = 15.
Proof.
  eexists. destruct (alloc_free_roundtrip small_world 2 false DATA false 2 3 _
    small_world_ok ltac:(done) ltac:(lia) ltac:(vm_compute; reflexivity))
    as [Hno|(w2&Hw2&_&_&Hcnt)]; [by vm_compute in Hno|].
  exists w2. split; [vm_compute; reflexivity|]. split; [exact Hw2|].
  rewrite Hcnt. by vm_compute.
Defined.

(** One CPU with 800 free blocks in two ranges of 400. *)
Definition frag_world : world :=
  World (nvmm_boot ∅)
    (SbInfo 1000 (1000 * 4096) 0 3 1 0 1000 []
       [FreeList (RbNode RbNil (RangeNode 100 3 402)
                    (RbNode RbNil (RangeNode 101 500 899) RbNil))
          (Some 100) 3 999 800 2 zero_stats]
       zero_free_list zero_mount_info) {[100; 101]} 0 ∅ [].

Lemma frag_world_ok : balloc_ok frag_world.
Proof.
  split.
  - split; cbn; done || lia.
  - intros c Hc. assert (c = 0 ∨ 1 ≤ c) as [->|Hge] by lia.
    + by split; repeat constructor; cbn; try lia; try set_solver.
    + unfold nova_get_free_list. cbn.
      rewrite !decide_False by lia. by split; repeat constructor; cbn.
  - intros c c' b. by apply concrete_disjoint; vm_compute.
  - by apply (bool_decide_unpack _).
  - intros p Hp. cbn in *. set_solver.
Qed.

Lemma nova_new_blocks_superpage_witness :
  ∃ w', nova_new_blocks 1 NOVA_BLOCK_TYPE_2M false DATA frag_world
      = Done ((- ENOSPC, None), w') ∧
    (∀ x, block_free (w_sbi w') x ↔ block_free (w_sbi frag_world) x) ∧
    nova_count_free_blocks (w_sbi frag_world) = 800 ∧
    nova_count_free_blocks (w_sbi w') = 288 ∧ ¬ balloc_ok w'.
Proof.
  destruct (nova_new_blocks_superpage frag_world 1 NOVA_BLOCK_TYPE_2M false DATA
    frag_world_ok ltac:(done) ltac:(lia) ltac:(done))
    as [[_ Hno]|[(b&w'&Hw&_)|(c&w'&Hw&_&_&Hset&_&Hbad)]].
  - specialize (Hno 0 ltac:(done)). by vm_compute in Hno.
  - by vm_compute in Hw.
  - exists w'. split; [done|]. split; [done|]. split; [by vm_compute|].
    split; [|done]. vm_compute in Hw. injection Hw as <-. by vm_compute.
Defined.
End instances.
