(* ===== verification/BallocShares.v ===== *)
(** * Shares of the free lists (balloc.c)

    Each CPU has a share of the device.  A free list that starts with blocks of
    its share keeps to it: an allocation comes from one list, so what it hands
    out lies in one share, and freed blocks go to the list of their share. *)
From S2P Require Import Prelude Nvmm RangeTree Layout World Balloc BallocList BallocProofs.

(** The list of the share a block lies in. *)
Definition cpu_of (s : nova_sb_info) (b : Z) : Z :=
  if decide (cpus s ≤ b / per_list_blocks s) then SHARED_CPU else b / per_list_blocks s.

(** Every list holds only blocks of its own share. *)
Definition shares_ok (s : nova_sb_info) : Prop :=
  ∀ c b, 0 ≤ c → free_block (nova_get_free_list s c) b → same_list s c (cpu_of s b).

Lemma home_list_cpu_of s b :
  geometry_ok s → 0 ≤ b < num_blocks s → home_list s b = cpu_of s b ∧ 0 ≤ cpu_of s b.
Proof.
  intros Hgeo Hb. destruct (geo_product s Hgeo). pose proof (geo_cpus s Hgeo).
  assert (0 ≤ b / per_list_blocks s < 2 * cpus s).
  { split; [apply Z.div_pos; lia|]. apply Z.div_lt_upper_bound; nia. }
  unfold home_list, cpu_of. change SHARED_CPU with 65536 in *.
  rewrite s32_small by lia. split; [done|]. case_decide; lia.
Qed.

Lemma cpu_of_geometry s s' b : same_geometry s s' → cpu_of s' b = cpu_of s b.
Proof. intros (Ec&Ep&_&_). unfold cpu_of. by rewrite Ec, Ep. Qed.

Lemma cpu_of_cases s b : cpu_of s b < cpus s ∨ cpu_of s b = SHARED_CPU.
Proof. unfold cpu_of. case_decide; [by right|left; lia]. Qed.

Lemma same_list_cpu s c b :
  geometry_ok s → same_list s (cpu_of s c) (cpu_of s b) → cpu_of s b = cpu_of s c.
Proof.
  intros Hgeo [->|[??]]; [done|].
  destruct (cpu_of_cases s b), (cpu_of_cases s c); lia || congruence.
Qed.

Lemma shares_ok_sub s s' :
  shares_ok s → same_geometry s s' →
  (∀ c b, 0 ≤ c → free_block (nova_get_free_list s' c) b →
     free_block (nova_get_free_list s c) b ∨ same_list s c (cpu_of s b)) →
  shares_ok s'.
Proof.
  intros Hsh Hg Hsub c b Hc Hb. rewrite (cpu_of_geometry _ _ _ Hg).
  assert (same_list s c (cpu_of s b)) as Hs by (destruct (Hsub c b Hc Hb); auto).
  unfold same_list in *. by rewrite (proj1 Hg).
Qed.

Section theorems.
Context `{RbTreeLaws} `{EnvLaws}.

(** C37. Shares are kept.  When every list holds blocks of its own share only,
    so it is after any allocation of 4K blocks, and the blocks allocated lie
    in one share.  Later, in any state of that kind where blocks of the
    allocation are in use, freeing them keeps to the shares as well. *)
Theorem shares_invariant w num zero atype k b w' :
  balloc_ok w → shares_ok (w_sbi w) → num_blocks (w_sbi w) < 2 ^ 31 → 1 ≤ num < 2 ^ 20 →
  nova_new_blocks num NOVA_BLOCK_TYPE_4K zero atype w = Done ((k, Some b), w') →
  shares_ok (w_sbi w') ∧
  (∀ x y, b ≤ x < b + k → b ≤ y < b + k → cpu_of (w_sbi w) x = cpu_of (w_sbi w) y) ∧
  ∀ w1 b1 n1 log_page r w2,
    balloc_ok w1 → shares_ok (w_sbi w1) → same_geometry (w_sbi w) (w_sbi w1) →
    b ≤ b1 → 1 ≤ n1 → b1 + n1 ≤ b + k →
    (∀ x, b1 ≤ x < b1 + n1 → ¬ block_free (w_sbi w1) x) →
    nova_free_blocks b1 n1 NOVA_BLOCK_TYPE_4K log_page w1 = Done (r, w2) →
    shares_ok (w_sbi w2).
Proof.
  intros Hok Hsh Hnb Hnum Hnew. pose proof (bo_geometry w Hok) as Hgeo.
  destruct (new_blocks_4K_run w num zero atype Hok Hnb Hnum)
    as [[Hno _]|(k'&b'&w0&Hw0&Hk&(_&Hlo&Hhi)&_&_&Hset&_&_&(Hg&_)&_&_&(c&Hc&Hall))];
    [congruence|]. rewrite Hw0 in Hnew. simplify_eq.
  assert (∀ x, b ≤ x < b + k → cpu_of (w_sbi w) x = cpu_of (w_sbi w) b) as Hone.
  { intros x Hx. pose proof (Hsh c x Hc (Hall x ltac:(lia))) as Hx1.
    pose proof (Hsh c b Hc (Hall b ltac:(lia))) as Hb1.
    apply same_list_cpu; [done|]. unfold same_list in *. lia. }
  split_and!.
  - eapply shares_ok_sub; [done|done|]. intros c' x Hc' [Hx _]%Hset; [by left|done].
  - intros x y Hx Hy. by rewrite (Hone x Hx), (Hone y Hy).
  - intros w1 b1 n1 log_page r w2 Hok1 Hsh1 Hg1 Hb1 Hn1 Hbn Hfree Hrun.
    pose proof Hg1 as (_&_&En&Er). pose proof (geo_reserved _ Hgeo).
    destruct (free_blocks_run w1 b1 n1 NOVA_BLOCK_TYPE_4K log_page Hok1 Hn1)
      as [[_ Hr]|(w3&Hr&_&_&_&_&(Hg2&_)&_&Hlist)];
      change (nova_get_numblocks NOVA_BLOCK_TYPE_4K) with 1 in *; rewrite ?Z.mul_1_l in *.
    + unfold extent_ok. lia.
    + intros x Hx. apply Hfree. lia.
    + rewrite Hr in Hrun. by simplify_eq.
    + rewrite Hr in Hrun. simplify_eq. eapply shares_ok_sub; [exact Hsh1|done|].
      intros c' x Hc' Hx. apply Hlist in Hx as [Hx|[Hs Hx]]; [by left|right|done].
      destruct (home_list_cpu_of (w_sbi w1) b1 (bo_geometry w1 Hok1) ltac:(lia)) as [Hh _].
      rewrite Hh, !(cpu_of_geometry _ _ _ Hg1) in *.
      rewrite (Hone x), <- (Hone b1) by lia. unfold same_list in *. lia.
Qed.
End theorems.

Section instances.
#[local] Existing Instances bst_rb bst_rb_laws env1 env1_laws.

Lemma small_shares : shares_ok small_sbi.
Proof.
  intros c b Hc Hb. unfold free_block in Hb.
  assert (c = 0 ∨ c = 1 ∨ 2 ≤ c) as [->|[->|Hge]] by lia.
  - assert (3 ≤ b < 10) as Hb'.
    { change (nodes_of _) with [RangeNode 100 3 4; RangeNode 101 7 9] in Hb.
      rewrite !in_ranges_cons, in_ranges_nil in Hb. unfold in_range in Hb. cbn in Hb. lia. }
    left. unfold cpu_of. cbn. by rewrite Z.div_small by lia.
  - assert (10 ≤ b < 20) as Hb'.
    { change (nodes_of _) with [RangeNode 200 10 19] in Hb.
      rewrite !in_ranges_cons, in_ranges_nil in Hb. unfold in_range in Hb. cbn in Hb. lia. }
    left. unfold cpu_of. cbn. replace (b / 10) with 1; [done|].
    apply (Z.div_unique b 10 1 (b - 10)); lia.
  - unfold nova_get_free_list in Hb. change (cpus small_sbi) with 2 in Hb.
    rewrite decide_False in Hb by lia. by apply in_ranges_nil in Hb.
Qed.

(** Two blocks of the small device, one of them freed again. *)
Lemma shares_invariant_witness :
  ∃ w1 w2, nova_new_blocks 2 NOVA_BLOCK_TYPE_4K false DATA small_world
      = Done ((2, Some 3), w1) ∧ shares_ok (w_sbi w1) ∧
    nova_free_blocks 4 1 NOVA_BLOCK_TYPE_4K false w1 = Done (0, w2) ∧ shares_ok (w_sbi w2).
Proof.
  destruct (new_blocks_4K_run small_world 2 false DATA small_world_ok) as [[Hno _]|Hyes];
    [reflexivity|lia|exfalso; vm_compute in Hno; discriminate Hno|].
  destruct Hyes as (k&b&w1&Hrun&_&Hext&Hok&_&Hset&_&_&(Hg&_)&_).
  assert (match nova_new_blocks 2 NOVA_BLOCK_TYPE_4K false DATA small_world with
          | Done (kb, _) => kb | Halt _ => (0, None) end = (2, Some 3)) as Hkb
    by (vm_compute; reflexivity).
  rewrite Hrun in Hkb. injection Hkb as -> ->.
  destruct (shares_invariant small_world 2 false DATA 2 3 w1 small_world_ok small_shares
    ltac:(reflexivity) ltac:(lia) Hrun) as (Hs&_&Hfree).
  pose proof (lists_taken _ _ _ _ Hset) as Hgone.
  destruct (free_blocks_run w1 4 1 NOVA_BLOCK_TYPE_4K false Hok ltac:(lia))
    as [[Hno _]|(w2&Hrun2&_)].
  - destruct Hg as (_&_&En&Er). unfold extent_ok. rewrite En, Er.
    change (1 ≤ 1 ∧ 3 ≤ 4 ∧ 4 + 1 ≤ 21). lia.
  - intros x Hx. rewrite Hgone. change (4 ≤ x ≤ 4 + 1 - 1) in Hx. lia.
  - discriminate Hno.
  - exists w1, w2. split; [exact Hrun|]. split; [exact Hs|]. split; [exact Hrun2|].
    apply (Hfree w1 4 1 false 0 w2); try assumption; try lia.
    intros x Hx. rewrite Hgone. lia.
Defined.
End instances.
