(* ===== verification/BallocCount.v ===== *)
(** * Counting free blocks (balloc.c)

    The list of all free blocks of an allocator in its invariant: it has no
    repetitions, and its length is the count the code keeps. *)
From S2P Require Import Prelude Nvmm RangeTree Layout World Balloc BallocList BallocProofs.

(** The blocks of a list of ranges. *)
Definition blocks_of (l : list nova_range_node) : list Z :=
  l ≫= λ n, seqZ (range_low n) (range_size n).

Lemma elem_of_blocks_of b l : b ∈ blocks_of l ↔ in_ranges b l.
Proof.
  unfold blocks_of, in_ranges. rewrite list_elem_of_bind, Exists_exists.
  split; intros (n&H1&H2); exists n; revert H1 H2; rewrite elem_of_seqZ;
    unfold in_range, range_size; intros; (split; [done|lia]) || (split; [lia|done]).
Qed.

Lemma length_blocks_of g lb ub l :
  1 ≤ g → ranges_from g lb ub l → Z.of_nat (length (blocks_of l)) = total_size l.
Proof.
  intros Hg. revert lb. induction l as [|n l IH]; intros lb; [done|].
  cbn [ranges_from]. intros (?&?&?&Hl%IH). unfold blocks_of in *. cbn.
  rewrite length_app, length_seqZ, total_size_cons. unfold range_size in *. lia.
Qed.

Lemma NoDup_blocks_of g lb ub l : 1 ≤ g → ranges_from g lb ub l → NoDup (blocks_of l).
Proof.
  intros Hg. revert lb. induction l as [|n l IH]; intros lb; [constructor|].
  cbn [ranges_from]. intros (?&?&?&Hl). unfold blocks_of. cbn. apply NoDup_app.
  split_and!; [apply NoDup_seqZ| |by eapply IH].
  intros b Hb%elem_of_seqZ Hin. fold (blocks_of l) in Hin.
  apply elem_of_blocks_of in Hin. apply (in_ranges_bounds g _ _ _ b Hg Hl) in Hin.
  unfold range_size in *. lia.
Qed.

Lemma length_bind_sum {A B} (f : A → list B) l :
  Z.of_nat (length (l ≫= f)) = Zsum ((λ x, Z.of_nat (length (f x))) <$> l).
Proof. induction l; [done|]. csimpl. rewrite length_app, Zsum_cons. lia. Qed.

(** The free blocks of all lists; the one of index [cpus] is the shared one. *)
Definition all_blocks (s : nova_sb_info) : list Z :=
  seqZ 0 (cpus s + 1) ≫= λ c, blocks_of (nodes_of (nova_get_free_list s c)).

Lemma elem_of_all_blocks w b :
  balloc_ok w → b ∈ all_blocks (w_sbi w) ↔ block_free (w_sbi w) b.
Proof.
  intros Hok. pose proof (geo_cpus _ (bo_geometry w Hok)). unfold all_blocks.
  rewrite list_elem_of_bind. split.
  - intros (c&Hb%elem_of_blocks_of&Hc%elem_of_seqZ). exists c. split; [lia|done].
  - intros (c&Hc&Hb). exists (Z.min c (cpus (w_sbi w))). rewrite elem_of_seqZ. split; [|lia].
    apply elem_of_blocks_of. revert Hb. unfold free_block, nova_get_free_list.
    destruct (decide (c < cpus (w_sbi w))); [by rewrite Z.min_l, decide_True by lia|].
    by rewrite Z.min_r, decide_False by lia.
Qed.

Lemma NoDup_all_blocks w : balloc_ok w → NoDup (all_blocks (w_sbi w)).
Proof.
  intros Hok. apply NoDup_bind; [| |apply NoDup_seqZ].
  - intros c1 c2 b Hc1%elem_of_seqZ Hc2%elem_of_seqZ H1%elem_of_blocks_of H2%elem_of_blocks_of.
    destruct (bo_disjoint w Hok c1 c2 b ltac:(lia) ltac:(lia) H1 H2) as [?|]; lia.
  - intros c Hc%elem_of_seqZ.
    destruct (bo_lists w Hok c ltac:(lia)) as [_ Hr _ _ _ _].
    by eapply (NoDup_blocks_of 2); [lia|].
Qed.

Lemma length_all_blocks w :
  balloc_ok w → Z.of_nat (length (all_blocks (w_sbi w))) = nova_count_free_blocks (w_sbi w).
Proof.
  intros Hok. rewrite (count_free_sum w Hok). pose proof (bo_geometry w Hok) as Hgeo.
  pose proof (geo_cpus _ Hgeo).
  assert (∀ c, 0 ≤ c →
    Z.of_nat (length (blocks_of (nodes_of (nova_get_free_list (w_sbi w) c)))) =
    num_free_blocks (nova_get_free_list (w_sbi w) c)) as Hlen.
  { intros c Hc. destruct (bo_lists w Hok c Hc) as [_ Hr _ _ -> _].
    by eapply (length_blocks_of 2); [lia|]. }
  unfold all_blocks. rewrite length_bind_sum, seqZ_app, fmap_app, Zsum_app by lia.
  rewrite <- (get_lists _ Hgeo), <- list_fmap_compose. f_equal.
  - f_equal. apply list_fmap_ext. intros i c Hi%list_elem_of_lookup_2%elem_of_seqZ.
    apply Hlen. lia.
  - rewrite seqZ_cons, seqZ_nil by lia. cbn. rewrite Zsum_cons, Zsum_nil, Hlen by lia.
    unfold nova_get_free_list. rewrite decide_False by lia. lia.
Qed.

Lemma count_free_bound w :
  balloc_ok w →
  nova_count_free_blocks (w_sbi w) ≤ num_blocks (w_sbi w) - reserved_blocks (w_sbi w).
Proof.
  intros Hok. rewrite <- length_all_blocks by done.
  pose proof (NoDup_submseteq (all_blocks (w_sbi w))
    (seqZ (reserved_blocks (w_sbi w)) (num_blocks (w_sbi w) - reserved_blocks (w_sbi w))))
    as Hsub.
  destruct (geo_product _ (bo_geometry w Hok)), (bo_geometry w Hok).
  assert (reserved_blocks (w_sbi w) ≤ num_blocks (w_sbi w)) by nia.
  assert (all_blocks (w_sbi w) ⊆+ seqZ (reserved_blocks (w_sbi w))
    (num_blocks (w_sbi w) - reserved_blocks (w_sbi w))) as Hl%submseteq_length.
  { apply Hsub; [by apply NoDup_all_blocks|]. intros b Hb%elem_of_all_blocks; [|done].
    apply (block_free_bounds w b Hok) in Hb. apply elem_of_seqZ. lia. }
  rewrite length_seqZ in Hl. lia.
Qed.
