(* ===== verification/BallocInit.v ===== *)
(** * Initialising the allocator (balloc.c)

    [nova_init_blockmap] on a new file system: the loop over the CPUs gives
    each list its share of the device. *)
From S2P Require Import Prelude Nvmm RangeTree Layout World Balloc BallocList.
From S2P Require Import BallocProofs.

(** The share of the device a list starts with; for the shared list, the
    blocks the division leaves over. *)
Definition lo_bound (s : nova_sb_info) (c : Z) : Z :=
  if decide (c < cpus s) then
    if decide (c = 0) then reserved_blocks s else per_list_blocks s * c
  else per_list_blocks s * cpus s.
Definition hi_bound (s : nova_sb_info) (c : Z) : Z :=
  if decide (c < cpus s) then per_list_blocks s * c + per_list_blocks s - 1
  else num_blocks s - 1.

Lemma share_bounds s k :
  geometry_ok s → 0 ≤ k < cpus s →
  reserved_blocks s ≤ lo_bound s k ≤ hi_bound s k ∧ hi_bound s k ≤ num_blocks s - 1.
Proof.
  intros Hgeo Hk. destruct (geo_product s Hgeo). destruct Hgeo.
  unfold lo_bound, hi_bound. rewrite !(decide_True (P := k < cpus s)) by lia.
  case_decide; subst; nia.
Qed.

Section theorems.
Context `{RbTreeLaws} `{EnvLaws}.

(** The state [nova_alloc_block_free_lists] leaves on a new file system. *)
Record fresh_lists (w : world) : Prop := {
  fr_cpus : 0 < cpus (w_sbi w) ≤ SHARED_CPU;
  fr_reserved : 0 < reserved_blocks (w_sbi w) < num_blocks (w_sbi w) / cpus (w_sbi w);
  fr_blocks : num_blocks (w_sbi w) < 2 ^ 44;
  fr_lists : free_lists (w_sbi w)
             = replicate (Z.to_nat (cpus (w_sbi w))) zero_free_list;
  fr_shared : shared_free_list (w_sbi w) = zero_free_list;
  fr_nodup : NoDup (inode_maps (w_sbi w) ≫= map_nodes);
  fr_live p : p ∈ inode_maps (w_sbi w) ≫= map_nodes → p ∈ w_live w
}.

(** The state of the loop before list [k]. *)
Definition init_inv (k : Z) (w : world) : Prop :=
  balloc_ok w ∧
  (∀ b, block_free (w_sbi w) b ↔
        reserved_blocks (w_sbi w) ≤ b < per_list_blocks (w_sbi w) * k) ∧
  (∀ c, k ≤ c → block_free_tree (nova_get_free_list (w_sbi w) c) = RbNil) ∧
  (∀ c, 0 ≤ c < k → block_end (nova_get_free_list (w_sbi w) c) = hi_bound (w_sbi w) c).

Lemma init_list_ok w k p t st :
  balloc_ok w → 0 ≤ k < cpus (w_sbi w) →
  let lo := lo_bound (w_sbi w) k in let hi := hi_bound (w_sbi w) k in
  inorder t = [RangeNode p lo hi] →
  fl_ok (reserved_blocks (w_sbi w)) (num_blocks (w_sbi w) - 1)
    (FreeList t (Some p) lo hi (hi - lo + 1) 1 st).
Proof.
  intros Hok Hk lo hi Ht. pose proof (bo_lists w Hok k ltac:(lia)) as [Hb _ _ _ _ _].
  pose proof (share_bounds _ k (bo_geometry w Hok) Hk) as Hlh.
  fold lo hi in Hlh.
  split; cbn; rewrite ?Ht; try done.
  - cbn. lia.
  - apply NoDup_singleton.
  - rewrite total_size_cons, total_size_nil. unfold range_size; cbn. lia.
Qed.

(** What the loop body has computed when it allocates the node. *)
Lemma init_window s k f :
  geometry_ok s → 0 ≤ k < cpus s →
  let start := u64 (per_list_blocks s * k) in
  let f := set_num_free (per_list_blocks s)
             (set_window start (u64 (start + per_list_blocks s - 1)) f) in
  let f := if decide (k = 0) then
             set_num_free (u64 (num_free_blocks f - reserved_blocks s))
               (set_window (u64 (block_start f + reserved_blocks s)) (block_end f) f)
           else f in
  f = FreeList (block_free_tree f) (first_node f) (lo_bound s k) (hi_bound s k)
        (hi_bound s k - lo_bound s k + 1) (num_blocknode f) (stats f).
Proof.
  intros Hgeo Hk. destruct (geo_product s Hgeo). destruct Hgeo.
  assert (0 ≤ per_list_blocks s * k) by nia.
  assert (per_list_blocks s * k + per_list_blocks s ≤ num_blocks s) by nia.
  cbv zeta. rewrite (wrap_small 64 (per_list_blocks s * k)) by lia.
  unfold lo_bound, hi_bound. rewrite !(decide_True (P := k < cpus s)) by lia.
  rewrite (wrap_small 64 (per_list_blocks s * k + per_list_blocks s - 1)) by lia.
  destruct (decide (k = 0)) as [->|]; cbn;
    unfold set_num_free, set_window; cbn; unwrap; f_equal; lia.
Qed.

Lemma init_step w k :
  (∀ t live, is_Some (kmem_cache_alloc t live)) →
  init_inv k w → 0 ≤ k < cpus (w_sbi w) →
  ∃ w', init_blockmap_list false k w = Done (true, w') ∧ init_inv (k + 1) w' ∧
    same_geometry (w_sbi w) (w_sbi w') ∧ w_nvmm w' = w_nvmm w ∧
    shared_free_list (w_sbi w') = shared_free_list (w_sbi w).
Proof.
  intros Hslab (Hok&Hset&Hnil&Hend) Hk. pose proof (bo_geometry w Hok) as Hgeo.
  unfold init_blockmap_list. run. cbv zeta. run.
  destruct (Hslab (w_tick w) (w_live w)) as [p Hp]. rewrite Hp. run.
  apply kmem_cache_alloc_fresh in Hp as [Hfresh _].
  pose proof (init_window (w_sbi w) k (nova_get_free_list (w_sbi w) k) Hgeo Hk) as Hwin.
  cbv zeta in Hwin. set (f := if decide (k = 0) then _ else _) in *.
  assert (block_free_tree f = RbNil) as Htree.
  { subst f. case_decide; cbn; apply Hnil; lia. }
  rewrite Htree. cbn [nova_insert_range_node link_range_node].
  unfold nova_insert_range_node; cbn [link_range_node]. rewrite decide_False by lia.
  unfold update_free_list. run. eexists. split; [reflexivity|].
  set (t := rb_insert_color _ _).
  assert (inorder t = [RangeNode p (lo_bound (w_sbi w) k) (hi_bound (w_sbi w) k)]) as Ht.
  { subst t. rewrite rb_insert_color_spec, Hwin. done. }
  set (f' := set_num_node 1 _).
  assert (f' = FreeList t (Some p) (lo_bound (w_sbi w) k) (hi_bound (w_sbi w) k)
    (hi_bound (w_sbi w) k - lo_bound (w_sbi w) k + 1) 1 (stats f)) as Hf'.
  { subst f'. rewrite Hwin. done. }
  clearbody f'. subst f'. set (f' := FreeList _ _ _ _ _ _ _). set (w' := set_sbi _ _).
  assert (list_nodes (nova_get_free_list (w_sbi w) k) = []) as Hold.
  { unfold list_nodes. rewrite Hnil by lia. done. }
  assert (balloc_ok w') as Hok'.
  { eapply (balloc_ok_put w w' k f' [p] []); try done.
    - lia.
    - by apply init_list_ok.
    - intros c x Hc' Hx Hx'. exfalso.
      assert (block_free (w_sbi w) x) as ?%Hset by (by exists c).
      unfold free_block in Hx. cbn [block_free_tree f'] in Hx.
      rewrite Ht, in_ranges_cons, in_ranges_nil in Hx. unfold in_range in Hx. cbn in Hx.
      unfold lo_bound in Hx. rewrite decide_True in Hx by lia. 
      pose proof (geo_reserved _ Hgeo). case_decide; subst; lia.
    - apply NoDup_singleton.
    - set_solver.
    - rewrite Hold, app_nil_r. unfold list_nodes. cbn. by rewrite Ht.
    - cbn. set_solver. }
  split_and!; try done; cycle 1.
  - apply put_geometry.
  - cbn. unfold put_free_list. by rewrite decide_True by lia.
  - destruct (put_geometry (w_sbi w) k f') as (Ec&Ep&En&Er). split_and!; [done| | |].
    + intros b. change (w_sbi w') with (put_free_list k f' (w_sbi w)). rewrite Ep, Er.
      etrans; [apply block_free_put; [done|lia]|]. rewrite Hset.
      unfold free_block. cbn [block_free_tree f']. rewrite Ht, (Hnil k) by lia. cbn.
      rewrite in_ranges_cons, !in_ranges_nil. unfold in_range; cbn.
      destruct (geo_product _ Hgeo) as [??]. pose proof (geo_reserved _ Hgeo).
      unfold lo_bound, hi_bound. rewrite !(decide_True (P := k < _)) by lia.
      case_decide; subst; split; intros; try nia.
    + intros c Hc'. change (w_sbi w') with (put_free_list k f' (w_sbi w)).
      destruct (get_put _ Hgeo k f' c ltac:(lia) ltac:(lia)) as [[Hs _]|[_ ->]].
      * destruct Hs as [->|[??]]; lia.
      * apply Hnil. lia.
    + intros c Hc'. change (w_sbi w') with (put_free_list k f' (w_sbi w)).
      unfold hi_bound. rewrite Ec, Ep, En. fold (hi_bound (w_sbi w) c).
      destruct (get_put _ Hgeo k f' c ltac:(lia) ltac:(lia)) as [[Hs ->]|[Hns ->]].
      * destruct Hs as [->|[??]]; [done|lia].
      * apply Hend. assert (k ≠ c) by (intros ->; apply Hns; by left). lia.
Qed.

Lemma init_loop w k n :
  (∀ t live, is_Some (kmem_cache_alloc t live)) →
  init_inv k w → 0 ≤ k → k + Z.of_nat n = cpus (w_sbi w) →
  ∃ w', init_blockmap_lists false (seqZ k (Z.of_nat n)) w = Done (true, w') ∧
    init_inv (cpus (w_sbi w)) w' ∧
    same_geometry (w_sbi w) (w_sbi w') ∧ w_nvmm w' = w_nvmm w ∧
    shared_free_list (w_sbi w') = shared_free_list (w_sbi w).
Proof.
  intros Hslab. revert w k. induction n as [|n IH]; intros w k Hinv Hk Hn.
  { exists w. replace (cpus (w_sbi w)) with k by lia. done. }
  rewrite seqZ_cons by lia. cbn [init_blockmap_lists].
  destruct (init_step w k Hslab Hinv ltac:(lia)) as (w1&Hw1&Hinv1&Hg1&Hm1&Hs1).
  rewrite (bind_run _ _ _ _ _ Hw1).
  replace (Z.succ k) with (k + 1) by lia.
  replace (Z.pred (Z.of_nat (S n))) with (Z.of_nat n) by lia.
  destruct Hg1 as (Ec&Ep&En&Er).
  destruct (IH w1 (k + 1) Hinv1 ltac:(lia) ltac:(lia)) as (w2&Hw2&Hinv2&Hg2&Hm2&Hs2).
  destruct Hg2 as (?&?&?&?).
  exists w2. rewrite <- Ec. split_and!; try done; try congruence.
  repeat split; congruence.
Qed.

Lemma zero_list_ok lb ub : 0 ≤ lb → ub < 2 ^ 63 → fl_ok lb ub zero_free_list.
Proof. intros. by split; repeat constructor. Qed.

Lemma fresh_init_inv w :
  fresh_lists w →
  init_inv 0 (set_sbi (set_per_list_blocks (num_blocks (w_sbi w) / cpus (w_sbi w))
                         (w_sbi w)) w).
Proof.
  intros [Hcpus Hres Hblk Hlists Hsh Hnd Hlive]. set (w1 := set_sbi _ w).
  assert (geometry_ok (w_sbi w1)) as Hgeo.
  { split; cbn; try done. by rewrite Hlists, length_replicate. }
  assert (∀ c, nova_get_free_list (w_sbi w1) c = zero_free_list) as Hget.
  { intros c. unfold nova_get_free_list. cbn. case_decide; [|done].
    rewrite Hlists. destruct (replicate _ _ !! Z.to_nat c) as [f|] eqn:Hf; [|done].
    apply lookup_replicate in Hf as [-> _]. done. }
  assert (all_nodes (w_sbi w1) = inode_maps (w_sbi w) ≫= map_nodes) as Hnodes.
  { unfold all_nodes. cbn. rewrite Hlists, Hsh. cbn.
    by rewrite (bind_replicate_nil _ _ list_nodes). }
  split_and!; [split| | |]; rewrite ?Hnodes; try done.
  - intros c Hc. rewrite Hget. apply zero_list_ok.
    + cbn. lia.
    + cbn. lia.
  - intros c c' b Hc Hc'. rewrite Hget. by intros ?%in_ranges_nil.
  - intros b. rewrite Z.mul_0_r. split; [|cbn; lia].
    intros (c&_&Hb). rewrite Hget in Hb. by apply in_ranges_nil in Hb.
  - intros c _. by rewrite Hget.
  - intros c ?. lia.
Qed.

(** The window fields of the shared list carry no blocks. *)
Lemma set_shared_window w lo hi :
  balloc_ok w →
  let w' := set_sbi (set_shared_free_list
              (set_window lo hi (shared_free_list (w_sbi w))) (w_sbi w)) w in
  balloc_ok w' ∧ ∀ b, block_free (w_sbi w') b ↔ block_free (w_sbi w) b.
Proof.
  intros Hok w'. pose proof (geo_cpus _ (bo_geometry w Hok)) as Hcpus.
  assert (nova_get_free_list (w_sbi w) SHARED_CPU = shared_free_list (w_sbi w)) as Hget.
  { unfold nova_get_free_list. by rewrite decide_False by lia. }
  set (f := set_window lo hi (shared_free_list (w_sbi w))) in *.
  assert (w_sbi w' = put_free_list SHARED_CPU f (w_sbi w)) as Hs.
  { unfold put_free_list. by rewrite decide_False by lia. }
  pose proof (bo_lists w Hok SHARED_CPU ltac:(done)) as Hsh. rewrite Hget in Hsh.
  split.
  - eapply (balloc_ok_put w w' SHARED_CPU f [] []); try done.
    + by destruct Hsh.
    + intros c' x Hc' Hx Hx'. apply (bo_disjoint w Hok SHARED_CPU c' x); try done.
      by rewrite Hget.
    + constructor.
    + set_solver.
    + rewrite Hget. by rewrite app_nil_r.
    + set_solver.
  - intros b. rewrite Hs, block_free_put by done. rewrite Hget.
    change (free_block f b) with (free_block (shared_free_list (w_sbi w)) b).
    destruct (decide (free_block (shared_free_list (w_sbi w)) b)) as [Hb|Hb];
      [|by intuition]. split; [|by auto]. intros _. exists SHARED_CPU. by rewrite Hget.
Qed.

(** C24. [nova_init_blockmap] on a new file system: the allocator starts in its
    invariant, and the free blocks are those from the reserved ones to the
    last full share.  The blocks the division leaves over become free
    nowhere: the shared list gets their bounds but no range. *)
Theorem nova_init_blockmap_spec w :
  (∀ t live, is_Some (kmem_cache_alloc t live)) → fresh_lists w →
  ∃ w', nova_init_blockmap false w = Done ((), w') ∧ balloc_ok w' ∧
    per_list_blocks (w_sbi w') = num_blocks (w_sbi w) / cpus (w_sbi w) ∧
    (∀ b, block_free (w_sbi w') b ↔
       reserved_blocks (w_sbi w) ≤ b <
       num_blocks (w_sbi w) / cpus (w_sbi w) * cpus (w_sbi w)) ∧
    num_free_blocks (shared_free_list (w_sbi w')) = 0 ∧
    (num_blocks (w_sbi w) mod cpus (w_sbi w) ≠ 0 →
     block_start (shared_free_list (w_sbi w')) =
       num_blocks (w_sbi w) / cpus (w_sbi w) * cpus (w_sbi w) ∧
     block_end (shared_free_list (w_sbi w')) = num_blocks (w_sbi w) - 1).
Proof.
  intros Hslab [Hcpus Hres Hblk Hlists Hsh Hnd Hlive]. unfold nova_init_blockmap. run.
  rewrite decide_False by lia. run. set (w1 := set_sbi _ w).
  assert (init_inv 0 w1) as Hinv by (by apply fresh_init_inv).
  destruct (init_loop w1 0 (Z.to_nat (cpus (w_sbi w))) Hslab Hinv ltac:(lia))
    as (w2&Hw2&(Hok2&Hset2&_&Hend2)&(Ec&Ep&En&Er)&_&Hsh2); [cbn; lia|].
  rewrite Z2Nat.id in Hw2 by lia. rewrite (bind_run _ _ _ _ _ Hw2). cbn [when]. run.
  cbn [w1 set_sbi w_sbi set_per_list_blocks cpus per_list_blocks num_blocks
    reserved_blocks shared_free_list] in *.
  destruct (geo_product _ (bo_geometry w2 Hok2)) as [Hper Hprod].
  rewrite Ec, Ep, En in *.
  pose proof (Z.div_mod (num_blocks (w_sbi w)) (cpus (w_sbi w)) ltac:(lia)) as Hdm.
  assert (block_end (nova_get_free_list (w_sbi w2) (cpus (w_sbi w) - 1)) + 1 =
          num_blocks (w_sbi w) / cpus (w_sbi w) * cpus (w_sbi w)) as Hlast.
  { rewrite Hend2 by lia. unfold hi_bound. rewrite Ec, Ep, decide_True by lia. lia. }
  rewrite Hlast, (wrap_small 64 (_ * _)), (wrap_small 64 (_ - 1)) by lia.
  case_bool_decide as Hleft; cbn [when].
  - eexists. split; [reflexivity|].
    destruct (set_shared_window w2 (num_blocks (w_sbi w) / cpus (w_sbi w) * cpus (w_sbi w))
                (num_blocks (w_sbi w) - 1) Hok2) as [Hok3 Hset3].
    split_and!; try done.
    + intros b. rewrite <- Er. etrans; [apply Hset3|apply Hset2].
    + cbn. by rewrite Hsh2, Hsh.
  - exists w2. split_and!; try done.
    + intros b. rewrite <- Er. apply Hset2.
    + by rewrite Hsh2, Hsh.
    + intros. lia.
Qed.
End theorems.

Section instances.
#[local] Existing Instances bst_rb bst_rb_laws env1 env1_laws.

(** A new file system of 21 blocks on two CPUs. *)
Definition new_world : world :=
  World (nvmm_boot ∅)
    (SbInfo 21 (21 * 4096) 0 3 2 0 0 [] [zero_free_list; zero_free_list] zero_free_list
       zero_mount_info)
    ∅ 0 ∅ [].

Lemma nova_init_blockmap_spec_witness :
  ∃ w', nova_init_blockmap false new_world = Done ((), w') ∧ balloc_ok w' ∧
    ∀ b, block_free (w_sbi w') b ↔ 3 ≤ b < 20.
Proof.
  destruct (nova_init_blockmap_spec new_world) as (w'&Hw&Hok&_&Hset&_).
  - intros t live. by eexists.
  - split; cbn; try done; try lia; try apply NoDup_nil_2. intros p Hp. set_solver.
  - exists w'. split; [done|]. split; [done|]. exact Hset.
Defined.
End instances.
