(* ===== verification/Journal.v ===== *)
(** * The lite journal (journal.c)

    Each CPU has one page of 64-byte entries used as a ring; a transaction
    writes one or two entries with the old values of at most eight fields,
    moves [journal_tail] over them, and commits by moving [journal_head].  At
    mount a journal whose head is behind its tail is undone. *)
From S2P Require Import Prelude Nvmm RangeTree Layout World Balloc.

(** [struct nova_lite_journal_entry] in DRAM. *)
Record lite_entry := LiteEntry { le_addrs : list Z; le_values : list Z }.

Definition encode_entry (e : lite_entry) : list Z :=
  (le_addrs e ≫= le_split 8) ++ (le_values e ≫= le_split 8).

Definition next_lite_journal (curr_p : Z) : Z :=
  if decide (Z.land curr_p (PAGE_SIZE - 1) + nova_lite_journal_entry.sizeof >= PAGE_SIZE)
  then Z.land curr_p (Z.lnot (PAGE_SIZE - 1))
  else u64 (curr_p + nova_lite_journal_entry.sizeof).

(** nova.h: [nova_get_journal_pointers]; [None] is the null pointer. *)
Definition nova_get_journal_pointers (s : nova_sb_info) (cpu : Z) : option Z :=
  if decide (cpus s ≤ cpu) then None
  else Some (NOVA_DEF_BLOCK_SIZE_4K + cpu * CACHELINE_SIZE).

(** nova.h: [nova_get_inode_table] *)
Definition nova_get_inode_table (s : nova_sb_info) (cpu : Z) : option Z :=
  if decide (cpus s ≤ cpu) then None
  else Some (NOVA_DEF_BLOCK_SIZE_4K * 2 + cpu * CACHELINE_SIZE).

Definition nova_recover_lite_journal_entry (addr value type : Z) : M () :=
  p ← block_ptr addr;
  (if decide (type = 1) then store 1 p (u8 value)
   else if decide (type = 2) then store 2 p (u16 value)
   else if decide (type = 4) then store 4 p (u32 value)
   else if decide (type = 8) then store 8 p value
   else mret ()) ;;
  flush_buffer p CACHELINE_SIZE false.

(** [BUG()] when the journal of the CPU is missing or not idle.  The copies
    are non-temporal stores. *)
Definition nova_create_lite_transaction (dram_entry1 dram_entry2 : lite_entry)
    (entries cpu : Z) : M Z :=
  s ← get_sbi;
  match nova_get_journal_pointers s cpu with
  | None => stop HBug
  | Some jp =>
    head ← load 8 (jp + ptr_pair.journal_head);
    tail ← load 8 (jp + ptr_pair.journal_tail);
    if decide (head = 0 ∨ head ≠ tail) then stop HBug else
    entry ← block_ptr head;
    store_bytes_nt entry (encode_entry dram_entry1) ;;
    temp ← (if decide (entries = 2) then
              let temp := next_lite_journal head in
              entry ← block_ptr temp;
              store_bytes_nt entry (encode_entry dram_entry2) ;;
              mret temp
            else mret head);
    let new_tail := next_lite_journal temp in
    store 8 (jp + ptr_pair.journal_tail) new_tail ;;
    flush_buffer (jp + ptr_pair.journal_head) CACHELINE_SIZE true ;;
    mret new_tail
  end.

Definition nova_commit_lite_transaction (tail cpu : Z) : M () :=
  s ← get_sbi;
  match nova_get_journal_pointers s cpu with
  | None => stop HBug
  | Some jp =>
    t ← load 8 (jp + ptr_pair.journal_tail);
    if decide (t ≠ tail) then stop HBug else
    store 8 (jp + ptr_pair.journal_head) tail ;;
    flush_buffer (jp + ptr_pair.journal_head) CACHELINE_SIZE true
  end.

(** The body of the loop over the four fields of an entry. *)
Definition undo_field (entry i : Z) : M () :=
  addr ← load 8 (entry + nova_lite_journal_entry.addrs i);
  let type := u8 (Z.shiftr addr 56) in
  if decide (addr ≠ 0 ∧ type ≠ 0) then
    value ← load 8 (entry + nova_lite_journal_entry.values i);
    nova_recover_lite_journal_entry addr value type
  else mret ().

Definition nova_undo_lite_journal_entry (entry : Z) : M () :=
  forM (seqZ 0 4) (undo_field entry).

Definition nova_recover_lite_journal (jp recover : Z) : M Z :=
  head ← load 8 (jp + ptr_pair.journal_head);
  entry ← block_ptr head;
  nova_undo_lite_journal_entry entry ;;
  (if decide (recover = 2) then
     head ← load 8 (jp + ptr_pair.journal_head);
     entry ← block_ptr (next_lite_journal head);
     nova_undo_lite_journal_entry entry
   else mret ()) ;;
  head ← load 8 (jp + ptr_pair.journal_head);
  store 8 (jp + ptr_pair.journal_tail) head ;;
  flush_buffer (jp + ptr_pair.journal_head) CACHELINE_SIZE true ;;
  mret 0.

(** The body of the loop of [nova_lite_journal_soft_init]. *)
Definition soft_init_cpu (i : Z) : M Z :=
  s ← get_sbi;
  jp ← deref (nova_get_journal_pointers s i);
  head ← load 8 (jp + ptr_pair.journal_head);
  tail ← load 8 (jp + ptr_pair.journal_tail);
  if decide (head = tail) then mret 0 else
  let temp := next_lite_journal head in
  if decide (tail = temp) then nova_recover_lite_journal jp 1 ;; mret 0 else
  let temp := next_lite_journal temp in
  if decide (tail = temp) then nova_recover_lite_journal jp 2 ;; mret 0 else
  mret (- EINVAL).

(** A loop that ends at the first non-zero code. *)
Fixpoint until_error (body : Z → M Z) (l : list Z) : M Z :=
  match l with
  | [] => mret 0
  | i :: l => ret ← body i; if decide (ret = 0) then until_error body l else mret ret
  end.

Section env.
Context `{RbTree} `{Env}.

Definition nova_lite_journal_soft_init : M Z :=
  ok ← try_kzalloc;
  if (ok : bool) then
    s ← get_sbi; until_error soft_init_cpu (seqZ 0 (cpus s))
  else mret (- ENOMEM).

Definition hard_init_cpu (i : Z) : M Z :=
  s ← get_sbi;
  match nova_get_journal_pointers s i with
  | None => mret (- EINVAL)
  | Some jp =>
    r ← nova_new_log_blocks NOVA_BLOCK_TYPE_4K 1 true;
    match r with
    | (allocated, blocknr) =>
      let blocknr := default 0 blocknr in
      if decide (allocated ≠ 1 ∨ blocknr = 0) then mret (- ENOSPC) else
      let block := nova_get_block_off blocknr in
      store 8 (jp + ptr_pair.journal_tail) block ;;
      store 8 (jp + ptr_pair.journal_head) block ;;
      flush_buffer jp CACHELINE_SIZE false ;;
      mret 0
    end
  end.

(** [blocknr] of one CPU is overwritten by the next successful allocation;
    a failed one ends the loop, so its old value is never used. *)
Definition nova_lite_journal_hard_init : M Z :=
  s ← get_sbi;
  ret ← until_error hard_init_cpu (seqZ 0 (cpus s));
  if decide (ret = 0) then barrier ;; nova_lite_journal_soft_init
  else mret ret.
End env.
