(* ===== verification/JournalProofs.v ===== *)
(** * Correctness of the lite journal (journal.c)

    The ring of entries, what a transaction writes and when it is durable,
    and what recovery at mount does. *)
From S2P Require Import Prelude Nvmm RangeTree Layout World Balloc BallocList.
From S2P Require Import BallocProofs Journal.

Definition jptr (cpu : Z) : Z := NOVA_DEF_BLOCK_SIZE_4K + cpu * CACHELINE_SIZE.

(** A position in a journal page: 64-byte aligned, behind the three reserved
    blocks. *)
Definition ring_ok (p : Z) : Prop := p mod 64 = 0 ∧ 12288 ≤ p < 2 ^ 56.

(** CPU [cpu] has a journal with the given pointers; the second block holds
    the pointers of 64 CPUs. *)
Record journal_at (w : world) (cpu head tail : Z) : Prop := {
  ja_cpu : 0 ≤ cpu < 64 ∧ cpu < cpus (w_sbi w);
  ja_head : ld 8 (vis (w_nvmm w)) (jptr cpu + ptr_pair.journal_head) = head;
  ja_tail : ld 8 (vis (w_nvmm w)) (jptr cpu + ptr_pair.journal_tail) = tail
}.

Definition entry_ok (e : lite_entry) : Prop :=
  length (le_addrs e) = 4%nat ∧ length (le_values e) = 4%nat.

(** ** The ring *)
Lemma next_ring p :
  ring_ok p →
  next_lite_journal p = p - p mod 4096 + (p mod 4096 + 64) mod 4096.
Proof.
  intros [Ha Hp]. unfold next_lite_journal, nova_lite_journal_entry.sizeof.
  change PAGE_SIZE with (2 ^ 12). rewrite land_low_mask, land_high_mask by lia.
  change (2 ^ 12) with 4096.
  pose proof (Z.mod_pos_bound p 4096 ltac:(lia)) as Hm.
  assert ((p mod 4096) mod 64 = 0) as Hm64.
  { rewrite Z.mod_mod_divide; [done|]. by exists 64. }
  pose proof (Z.div_mod (p mod 4096) 64 ltac:(lia)). case_decide as Hc.
  - assert (p mod 4096 = 4032) as -> by lia.
    change ((4032 + 64) mod 4096) with 0. lia.
  - rewrite wrap_small by lia. rewrite (Z.mod_small (_ + 64)) by lia. lia.
Qed.

Lemma next_ok p : ring_ok p → ring_ok (next_lite_journal p).
Proof.
  intros Hp. rewrite next_ring by done. destruct Hp as [Ha Hp].
  pose proof (Z.mod_pos_bound p 4096 ltac:(lia)).
  pose proof (Z.mod_pos_bound (p mod 4096 + 64) 4096 ltac:(lia)).
  pose proof (Z.div_mod p 4096 ltac:(lia)) as Hd.
  pose proof (Z.div_mod (p mod 4096 + 64) 4096 ltac:(lia)) as Hd2.
  set (q := p / 4096) in *. set (r := (p mod 4096 + 64) / 4096) in *.
  replace (p - p mod 4096 + (p mod 4096 + 64) mod 4096)
    with (p + (1 - 64 * r) * 64) by lia.
  split; [by rewrite Z.mod_add by lia|].
  assert (3 ≤ q) by lia. assert (q < 2 ^ 44) by lia. lia.
Qed.

Definition ring_iter (k : nat) (p : Z) : Z := Nat.iter k next_lite_journal p.

Lemma ring_iter_spec k p :
  ring_ok p →
  ring_ok (ring_iter k p) ∧
  ring_iter k p = p - p mod 4096 + (p mod 4096 + 64 * Z.of_nat k) mod 4096.
Proof.
  intros Hp. induction k as [|k [IHok IH]].
  { split; [done|]. cbn. rewrite Z.add_0_r, Zmod_mod. lia. }
  change (ring_iter (S k) p) with (next_lite_journal (ring_iter k p)).
  split; [by apply next_ok|]. rewrite next_ring by done. rewrite IH.
  set (x := p mod 4096 + 64 * Z.of_nat k).
  pose proof (Z.mod_pos_bound x 4096 ltac:(lia)).
  pose proof (Z.div_mod p 4096 ltac:(lia)) as Hd.
  replace (p - p mod 4096 + x mod 4096) with (x mod 4096 + p / 4096 * 4096) by lia.
  rewrite Z.mod_add, Zmod_mod by lia.
  replace (p mod 4096 + 64 * Z.of_nat (S k)) with (x + 64) by lia.
  rewrite Zplus_mod_idemp_l. lia.
Qed.

(** ** Creating and committing a transaction *)
Lemma journal_pointers w cpu head tail :
  journal_at w cpu head tail →
  nova_get_journal_pointers (w_sbi w) cpu = Some (jptr cpu).
Proof.
  intros [Hc _ _]. unfold nova_get_journal_pointers. by rewrite decide_False by lia.
Qed.

Lemma length_encode e : entry_ok e → length (encode_entry e) = 64%nat.
Proof.
  destruct e as [a v]; intros [Ha Hv]; cbn in *.
  do 5 (destruct a as [|? a]; try done). do 5 (destruct v as [|? v]; try done).
Qed.

Lemma encode_bytes e : Forall (λ b, 0 ≤ b < 256) (encode_entry e).
Proof.
  unfold encode_entry. apply Forall_app. split; apply Forall_bind, Forall_true;
    intros x; apply Forall_lookup; intros i b Hb; by eapply le_split_byte.
Qed.

Lemma jptr_flush cpu :
  flush_lo (jptr cpu) = jptr cpu ∧ flush_hi (jptr cpu) CACHELINE_SIZE = jptr cpu + 64.
Proof.
  unfold flush_hi, flush_lo, jptr, NOVA_DEF_BLOCK_SIZE_4K, CACHELINE_SIZE.
  replace (4096 + cpu * 64) with ((64 + cpu) * 64) by lia.
  rewrite Z.mod_mul by lia. change (u32 (64 + 0) + 64 - 1) with 127.
  change (127 / 64) with 1. lia.
Qed.

(** The store of a pointer of the pair and its flush with a fence. *)
Lemma pair_store_settled cpu off v p x :
  0 ≤ off ≤ 56 → written_back p x →
  settled (nova_flush_buffer (jptr cpu + ptr_pair.journal_head) CACHELINE_SIZE true
             (nvmm_write Cached (WBytes (jptr cpu + off) (le_split 8 v)) p)) x.
Proof.
  intros Hoff Hp. apply settled_flush_fence. unfold ptr_pair.journal_head.
  rewrite Z.add_0_r. destruct (jptr_flush cpu) as [Hlo Hhi].
  apply written_back_store_flush; [done|].
  rewrite Hlo, Hhi. cbn. rewrite length_le_split. lia.
Qed.

(** What a transaction of [entries] entries leaves. *)
Record transaction_open (w w' : world) (cpu head entries : Z) (e1 e2 : lite_entry)
    : Prop := {
  to_only : only_nvmm w w';
  to_at : journal_at w' cpu head (ring_iter (Z.to_nat entries) head);
  to_entry1 : ld_bytes 64 (vis (w_nvmm w')) head = encode_entry e1;
  to_entry2 : entries = 2 →
    ld_bytes 64 (vis (w_nvmm w')) (next_lite_journal head) = encode_entry e2;
  to_frame a :
    ¬ (jptr cpu + 8 ≤ a < jptr cpu + 16) → ¬ (head ≤ a < head + 64) →
    ¬ (entries = 2 ∧ next_lite_journal head ≤ a < next_lite_journal head + 64) →
    ld8 (vis (w_nvmm w')) a = ld8 (vis (w_nvmm w)) a;
  to_ok : nvmm_ok (w_nvmm w) → nvmm_ok (w_nvmm w');
  to_settled x : written_back (w_nvmm w) x → settled (w_nvmm w') x
}.

Lemma ring_far cpu p : 0 ≤ cpu < 64 → ring_ok p → jptr cpu + 64 ≤ p.
Proof. unfold jptr, NOVA_DEF_BLOCK_SIZE_4K, CACHELINE_SIZE. intros ? [??]. lia. Qed.

Lemma next_disjoint p : ring_ok p → next_lite_journal p + 64 ≤ p ∨ p + 64 ≤ next_lite_journal p.
Proof.
  intros Hp. rewrite next_ring by done. destruct Hp as [Ha Hp].
  pose proof (Z.mod_pos_bound p 4096 ltac:(lia)).
  pose proof (Z.div_mod (p mod 4096 + 64) 4096 ltac:(lia)).
  pose proof (Z.mod_pos_bound (p mod 4096 + 64) 4096 ltac:(lia)). lia.
Qed.

(** Storing [v] into the field at [off] of the pair, flushed and fenced. *)
Definition pair_write (cpu off v : Z) (p : nvmm) : nvmm :=
  nova_flush_buffer (jptr cpu + ptr_pair.journal_head) CACHELINE_SIZE true
    (nvmm_write Cached (WBytes (jptr cpu + off) (le_split 8 v)) p).

Lemma pair_write_spec cpu off v p :
  0 ≤ off ≤ 56 → 0 ≤ v < 2 ^ 64 →
  ld 8 (vis (pair_write cpu off v p)) (jptr cpu + off) = v ∧
  (∀ a, ¬ (jptr cpu + off ≤ a < jptr cpu + off + 8) →
     ld8 (vis (pair_write cpu off v p)) a = ld8 (vis p) a) ∧
  (nvmm_ok p → nvmm_ok (pair_write cpu off v p)) ∧
  (∀ x, written_back p x → settled (pair_write cpu off v p) x).
Proof.
  intros Hoff Hv. unfold pair_write. rewrite !vis_flush. cbn [vis nvmm_write apply_write].
  split_and!.
  - rewrite ld_st. change (256 ^ Z.of_nat 8) with (2 ^ 64). by apply Z.mod_small.
  - intros a Ha. apply ld8_st_bytes_out. rewrite length_le_split. lia.
  - auto with nova.
  - intros x. by apply pair_store_settled.
Qed.

(** Storing an entry with non-temporal stores. *)
Lemma entry_write_spec head e p :
  entry_ok e →
  let p' := nvmm_write WrittenBack (WBytes head (encode_entry e)) p in
  ld_bytes 64 (vis p') head = encode_entry e ∧
  (∀ a, ¬ (head ≤ a < head + 64) → ld8 (vis p') a = ld8 (vis p) a) ∧
  (nvmm_ok p → nvmm_ok p') ∧ (∀ x, written_back p x → written_back p' x).
Proof.
  intros He p'. pose proof (length_encode e He) as Hl. split_and!.
  - cbn. rewrite <- Hl. apply ld_bytes_st_bytes, encode_bytes.
  - intros a Ha. cbn. apply ld8_st_bytes_out. lia.
  - subst p'. auto with nova.
  - intros x Hx. apply written_back_write; auto.
Qed.

Lemma create_run w cpu head e1 e2 entries :
  journal_at w cpu head head → ring_ok head → entry_ok e1 → entry_ok e2 →
  entries = 1 ∨ entries = 2 →
  ∃ w', nova_create_lite_transaction e1 e2 entries cpu w
        = Done (ring_iter (Z.to_nat entries) head, w') ∧
    transaction_open w w' cpu head entries e1 e2.
Proof.
  intros Hj Hr He1 He2 Hen. pose proof Hj as [Hc Hh Ht].
  pose proof (ring_far cpu head (proj1 Hc) Hr) as Hfar.
  pose proof (next_ok head Hr) as Hn. pose proof (next_disjoint head Hr) as Hdis.
  pose proof (ring_far cpu _ (proj1 Hc) Hn) as Hfar2.
  pose proof (next_ok _ Hn) as [_ Hn2].
  unfold nova_create_lite_transaction. run. rewrite (journal_pointers _ _ _ _ Hj). run.
  rewrite Hh, Ht. unfold ptr_pair.journal_head, ptr_pair.journal_tail in *.
  destruct Hr as [Hr1 Hr2], Hn as [_ Hn].
  rewrite decide_False, bind_block_ptr by lia. run.
  set (p1 := nvmm_write WrittenBack (WBytes head (encode_entry e1)) (w_nvmm w)).
  destruct (entry_write_spec head e1 (w_nvmm w) He1) as (He1'&Hf1&Hok1&Hwb1).
  fold p1 in He1', Hf1, Hok1, Hwb1.
  destruct Hen as [->| ->].
  - rewrite (decide_False (P := 1 = 2)) by lia. run.
    destruct (pair_write_spec cpu 8 (next_lite_journal head) p1 ltac:(lia) ltac:(lia))
      as (Htl&Hf&Hok&Hst).
    set (w2 := set_nvmm (nova_flush_buffer _ _ _ _) _).
    assert (w_nvmm w2 = pair_write cpu 8 (next_lite_journal head) p1) as Hnv by done.
    exists w2. split; [done|]. split; rewrite ?Hnv; try done; try auto.
    + split; rewrite ?Hnv; [done| |exact Htl]. etrans; [|exact Hh]. apply ld_frame.
      intros x Hx. rewrite Hf, Hf1 by lia. done.
    + etrans; [|exact He1']. apply ld_bytes_frame. intros x Hx. apply Hf. lia.
    + intros a Ha1 Ha2 _. rewrite Hf, Hf1 by lia. done.
  - rewrite (decide_True (P := 2 = 2)) by lia. run.
    set (n := next_lite_journal head) in *.
    rewrite bind_block_ptr by lia. run.
    set (p2 := nvmm_write WrittenBack (WBytes n (encode_entry e2)) p1).
    destruct (entry_write_spec n e2 p1 He2) as (He2'&Hf2&Hok2&Hwb2).
    fold p2 in He2', Hf2, Hok2, Hwb2.
    destruct (pair_write_spec cpu 8 (next_lite_journal n) p2 ltac:(lia) ltac:(lia))
      as (Htl&Hf&Hok&Hst).
    set (w2 := set_nvmm (nova_flush_buffer _ _ _ _) _).
    assert (w_nvmm w2 = pair_write cpu 8 (next_lite_journal n) p2) as Hnv by done.
    exists w2. split; [done|]. split; rewrite ?Hnv; try done; try auto.
    + split; rewrite ?Hnv; [done| |exact Htl]. etrans; [|exact Hh]. apply ld_frame.
      intros x Hx. rewrite Hf, Hf2, Hf1 by lia. done.
    + etrans; [|exact He1']. apply ld_bytes_frame. intros x Hx. rewrite Hf, Hf2 by lia. done.
    + intros _. etrans; [|exact He2']. apply ld_bytes_frame. intros x Hx. apply Hf. lia.
    + intros a Ha1 Ha2 Ha3. rewrite Hf, Hf2, Hf1 by lia. done.
Qed.

Lemma commit_run w cpu head tail :
  journal_at w cpu head tail → ring_ok tail →
  ∃ w', nova_commit_lite_transaction tail cpu w = Done ((), w') ∧
    only_nvmm w w' ∧ journal_at w' cpu tail tail ∧
    (∀ a, ¬ (jptr cpu ≤ a < jptr cpu + 8) →
       ld8 (vis (w_nvmm w')) a = ld8 (vis (w_nvmm w)) a) ∧
    (nvmm_ok (w_nvmm w) → nvmm_ok (w_nvmm w')) ∧
    (∀ x, written_back (w_nvmm w) x → settled (w_nvmm w') x).
Proof.
  intros Hj [_ Htail]. pose proof Hj as [Hc Hh Ht].
  unfold nova_commit_lite_transaction. run. rewrite (journal_pointers _ _ _ _ Hj). run.
  rewrite Ht, decide_False by (intros []; done). run.
  unfold ptr_pair.journal_head, ptr_pair.journal_tail in *.
  destruct (pair_write_spec cpu 0 tail (w_nvmm w) ltac:(lia) ltac:(lia))
    as (Htl&Hf&Hok&Hst).
  eexists. split; [reflexivity|]. split; [done|]. split_and!.
  - split; [done|exact Htl|]. etrans; [|exact Ht]. apply ld_frame.
    intros x Hx. apply Hf. lia.
  - intros a Ha. apply Hf. lia.
  - exact Hok.
  - exact Hst.
Qed.

(** The journal bytes of a CPU: its pair and the slots of a transaction. *)
Definition journal_byte (cpu head entries x : Z) : Prop :=
  jptr cpu ≤ x < jptr cpu + 16 ∨ head ≤ x < head + 64 ∨
  entries = 2 ∧ next_lite_journal head ≤ x < next_lite_journal head + 64.

(** C16. On an idle journal [nova_create_lite_transaction] writes its entries at
    the head, advances only the tail, changes nothing else and returns the
    new tail; once it has returned, the open transaction survives any power
    failure. *)
Theorem nova_create_lite_transaction_spec w cpu head e1 e2 entries :
  journal_at w cpu head head → ring_ok head → entry_ok e1 → entry_ok e2 →
  entries = 1 ∨ entries = 2 → nvmm_ok (w_nvmm w) →
  (∀ x, journal_byte cpu head entries x → written_back (w_nvmm w) x) →
  let tail := ring_iter (Z.to_nat entries) head in
  ∃ w', nova_create_lite_transaction e1 e2 entries cpu w = Done (tail, w') ∧
    only_nvmm w w' ∧ journal_at w' cpu head tail ∧
    (∀ a, ¬ journal_byte cpu head entries a →
       ld8 (vis (w_nvmm w')) a = ld8 (vis (w_nvmm w)) a) ∧
    ∀ m, crash_image (w_nvmm w') m →
      ld 8 m (jptr cpu) = head ∧ ld 8 m (jptr cpu + 8) = tail ∧
      ld_bytes 64 m head = encode_entry e1 ∧
      (entries = 2 → ld_bytes 64 m (next_lite_journal head) = encode_entry e2).
Proof.
  intros Hj Hr He1 He2 Hen Hok Hwb tail.
  destruct (create_run w cpu head e1 e2 entries Hj Hr He1 He2 Hen)
    as (w'&Hrun&[Honly Hat Hent1 Hent2 Hframe Hok' Hset]).
  exists w'. split_and!; try done.
  - intros a Ha. unfold journal_byte in Ha. apply Hframe; intuition lia.
  - intros m Hm. specialize (Hok' Hok).
    assert (∀ x, journal_byte cpu head entries x → ld8 m x = ld8 (vis (w_nvmm w')) x)
      as Hsame by (intros x Hx; eapply settled_crash; auto).
    unfold journal_byte in Hsame. destruct Hat as [_ Hh Ht].
    unfold ptr_pair.journal_head, ptr_pair.journal_tail in *.
    rewrite Z.add_0_r in Hh. split_and!.
    + etrans; [apply ld_frame|exact Hh]. intros x Hx. apply Hsame. lia.
    + etrans; [apply ld_frame|exact Ht]. intros x Hx. apply Hsame. lia.
    + etrans; [apply ld_bytes_frame|exact Hent1]. intros x Hx. apply Hsame. lia.
    + intros Heq. etrans; [apply ld_bytes_frame|exact (Hent2 Heq)].
      intros x Hx. apply Hsame. lia.
Qed.

(** C17. A transaction from begin to end: after creating it, and after any
    stores [w1] that leave the pair alone, the commit finds the transaction,
    and the journal is idle again at the next position, durably; no [BUG()]
    is reached. *)
Theorem lite_transaction_cycle w cpu head e1 e2 entries :
  journal_at w cpu head head → ring_ok head → entry_ok e1 → entry_ok e2 →
  entries = 1 ∨ entries = 2 →
  let tail := ring_iter (Z.to_nat entries) head in
  ∃ w', nova_create_lite_transaction e1 e2 entries cpu w = Done (tail, w') ∧
    ∀ w1, only_nvmm w' w1 → nvmm_ok (w_nvmm w1) →
      (∀ x, jptr cpu ≤ x < jptr cpu + 16 →
         ld8 (vis (w_nvmm w1)) x = ld8 (vis (w_nvmm w')) x ∧
         written_back (w_nvmm w1) x) →
      ∃ w2, nova_commit_lite_transaction tail cpu w1 = Done ((), w2) ∧
        journal_at w2 cpu tail tail ∧ ring_ok tail ∧
        (∀ a, ¬ (jptr cpu ≤ a < jptr cpu + 8) →
           ld8 (vis (w_nvmm w2)) a = ld8 (vis (w_nvmm w1)) a) ∧
        ∀ m, crash_image (w_nvmm w2) m →
          ld 8 m (jptr cpu) = tail ∧ ld 8 m (jptr cpu + 8) = tail.
Proof.
  intros Hj Hr He1 He2 Hen tail.
  destruct (create_run w cpu head e1 e2 entries Hj Hr He1 He2 Hen)
    as (w'&Hrun&[Honly [Hc Hh Ht] _ _ _ _ _]).
  exists w'. split; [done|]. intros w1 (Es&_) Hok1 Hpair.
  assert (ring_ok tail) as Hrt by (by apply ring_iter_spec).
  unfold ptr_pair.journal_head, ptr_pair.journal_tail in *.
  assert (journal_at w1 cpu head tail) as Hj1.
  { split; [by rewrite Es| |]; [etrans; [|exact Hh]|etrans; [|exact Ht]];
      apply ld_frame; unfold ptr_pair.journal_head, ptr_pair.journal_tail;
      intros x Hx; apply Hpair; lia. }
  destruct (commit_run w1 cpu head tail Hj1 Hrt) as (w2&Hrun2&_&Hj2&Hframe&Hok2&Hset).
  exists w2. split_and!; try done. intros m Hm.
  assert (∀ x, jptr cpu ≤ x < jptr cpu + 16 → ld8 m x = ld8 (vis (w_nvmm w2)) x) as Hsame.
  { intros x Hx. eapply settled_crash; auto. by apply Hset, Hpair. }
  destruct Hj2 as [_ Hh2 Ht2]. unfold ptr_pair.journal_head, ptr_pair.journal_tail in *.
  rewrite Z.add_0_r in Hh2. split; (etrans; [apply ld_frame|done]);
    intros x Hx; apply Hsame; lia.
Qed.

(** A second transaction on a busy journal, and a commit with a stale
    tail, stop in [BUG()]. *)
Theorem lite_journal_bug w cpu head tail e1 e2 entries t :
  journal_at w cpu head tail →
  (head ≠ tail → nova_create_lite_transaction e1 e2 entries cpu w = Halt HBug) ∧
  (t ≠ tail → nova_commit_lite_transaction t cpu w = Halt HBug).
Proof.
  intros Hj. pose proof Hj as [Hc Hh Ht]. split; intros Hne.
  - unfold nova_create_lite_transaction. run. rewrite (journal_pointers _ _ _ _ Hj). run.
    rewrite Hh, Ht, decide_True by auto. done.
  - unfold nova_commit_lite_transaction. run. rewrite (journal_pointers _ _ _ _ Hj). run.
    rewrite Ht, decide_True by auto. done.
Qed.

(** ** Recovery *)

(** The type byte of field [i] of the entry at [entry]. *)
Definition field_type (m : mem) (entry i : Z) : Z :=
  u8 (Z.shiftr (ld 8 m (entry + nova_lite_journal_entry.addrs i)) 56).

Lemma type_byte_high addr :
  0 ≤ addr < 2 ^ 64 → u8 (Z.shiftr addr 56) ≠ 0 → 2 ^ 56 ≤ addr.
Proof.
  intros Ha Ht. rewrite Z.shiftr_div_pow2 in Ht by lia.
  destruct (decide (addr < 2 ^ 56)); [|lia].
  rewrite Z.div_small in Ht by lia. done.
Qed.

Lemma undo_field_run entry i w :
  undo_field entry i w =
  if decide (field_type (vis (w_nvmm w)) entry i = 0) then Done ((), w) else Halt HFault.
Proof.
  unfold undo_field, field_type. run. set (addr := ld 8 _ _).
  pose proof (ld_range 8 (vis (w_nvmm w)) (entry + nova_lite_journal_entry.addrs i)) as Hr.
  fold addr in Hr. case_decide as Hd; case_decide as Hd2; try tauto.
  - run. pose proof (type_byte_high addr Hr ltac:(tauto)).
    unfold nova_recover_lite_journal_entry, block_ptr, nova_get_block.
    rewrite decide_False, decide_False by lia. done.
  - destruct Hd. split; [|done]. intros Hz. apply Hd2. by rewrite Hz.
Qed.

Lemma length_bind_split n (l : list Z) : length (l ≫= le_split n) = (n * length l)%nat.
Proof.
  induction l as [|x l IH]; [cbn; lia|]. rewrite bind_cons, length_app, IH, length_le_split.
  cbn [length]. lia.
Qed.

(** The recorded addresses, read back. *)
Lemma entry_addr m p e i a :
  le_addrs e !! i = Some a → ld_bytes 64 m p = encode_entry e →
  ld 8 m (p + nova_lite_journal_entry.addrs (Z.of_nat i)) = u64 a.
Proof.
  intros Ha Hb. pose proof (lookup_lt_Some _ _ _ Ha). unfold encode_entry in Hb.
  rewrite <- (take_drop_middle _ _ _ Ha), bind_app, bind_cons, <- !app_assoc in Hb.
  apply ld_field in Hb. rewrite length_bind_split, length_take in Hb.
  change (u64 a) with (a mod 256 ^ Z.of_nat 8). rewrite <- Hb. f_equal.
  unfold nova_lite_journal_entry.addrs. lia.
Qed.

(** Undoing an entry stops in a fault at the first field that has a type. *)
Lemma undo_run entry w :
  nova_undo_lite_journal_entry entry w =
  if decide (Exists (λ i, field_type (vis (w_nvmm w)) entry i ≠ 0) (seqZ 0 4))
  then Halt HFault else Done ((), w).
Proof.
  unfold nova_undo_lite_journal_entry. generalize (seqZ 0 4). intros l.
  induction l as [|i l IH]; cbn [forM].
  { rewrite decide_False; [done|]. intros He%Exists_nil. done. }
  pose proof (undo_field_run entry i w) as Hf. case_decide as Hd.
  - rewrite (bind_run _ _ _ _ _ Hf), IH. case_decide as He.
    + rewrite decide_True; [done|]. rewrite Exists_cons. by right.
    + rewrite decide_False; [done|]. rewrite Exists_cons. tauto.
  - rewrite decide_True by (rewrite Exists_cons; by left).
    by apply bind_halt.
Qed.

Lemma soft_init_idle l w :
  (∀ i, i ∈ l → ∃ h, journal_at w i h h) → until_error soft_init_cpu l w = Done (0, w).
Proof.
  induction l as [|i l IH]; intros Hl; [done|]. cbn [until_error].
  destruct (Hl i) as (h&Hj); [set_solver|]. pose proof Hj as [_ Hh Ht].
  assert (soft_init_cpu i w = Done (0, w)) as Hi.
  { unfold soft_init_cpu. run. rewrite (journal_pointers _ _ _ _ Hj). run.
    by rewrite Hh, Ht, decide_True. }
  rewrite (bind_run _ _ _ _ _ Hi), decide_True by done. apply IH. set_solver.
Qed.

Lemma until_error_app body l1 l2 w w1 :
  until_error body l1 w = Done (0, w1) →
  until_error body (l1 ++ l2) w = until_error body l2 w1.
Proof.
  revert w. induction l1 as [|x l1 IH]; intros w; cbn [app until_error].
  { by intros [= ->]. }
  unfold mbind, M_bind. destruct (body x w) as [[r w2]|]; [|done].
  case_decide; [apply IH|by intros [= ->]].
Qed.

(** The journal of CPU [cpu] was interrupted: one or two entries are pending,
    and the first has a field with a type. *)
Record interrupted (w : world) (cpu head : Z) (entries : nat) : Prop := {
  in_count : entries = 1%nat ∨ entries = 2%nat;
  in_at : journal_at w cpu head (ring_iter entries head);
  in_ring : ring_ok head;
  in_type : ∃ i, 0 ≤ i < 4 ∧ field_type (vis (w_nvmm w)) head i ≠ 0
}.

Lemma ring_iter_moves k p : ring_ok p → k = 1%nat ∨ k = 2%nat → ring_iter k p ≠ p.
Proof.
  intros Hp Hk. rewrite (proj2 (ring_iter_spec k p Hp)).
  pose proof (Z.mod_pos_bound p 4096 ltac:(lia)) as Hm. intros Heq.
  assert ((p mod 4096 + 64 * Z.of_nat k) mod 4096 = p mod 4096) as Hr by lia.
  pose proof (Z.div_mod (p mod 4096 + 64 * Z.of_nat k) 4096 ltac:(lia)).
  destruct Hk as [->| ->]; lia.
Qed.

Lemma recover_faults w cpu head entries r :
  interrupted w cpu head entries →
  nova_recover_lite_journal (jptr cpu) r w = Halt HFault.
Proof.
  intros [_ [_ Hh _] [_ Hr] (i&Hi&Hty)]. unfold nova_recover_lite_journal. run.
  rewrite Hh, bind_block_ptr by lia. unfold mbind at 1, M_bind at 1.
  rewrite undo_run, decide_True; [done|]. apply Exists_exists. exists i.
  split; [|done]. apply elem_of_seqZ. lia.
Qed.

Lemma soft_init_cpu_faults w cpu head entries :
  interrupted w cpu head entries → soft_init_cpu cpu w = Halt HFault.
Proof.
  intros Hi. pose proof (recover_faults w cpu head entries) as Hrec.
  pose proof Hi as [Hk Hat Hr _]. pose proof (ring_iter_moves _ _ Hr Hk).
  unfold soft_init_cpu. run. rewrite (journal_pointers _ _ _ _ Hat). run.
  destruct Hat as [_ -> ->]. rewrite decide_False by done. cbv zeta.
  case_decide as Hd1; [by apply bind_halt, Hrec|].
  case_decide as Hd2; [by apply bind_halt, Hrec|].
  destruct Hk as [->| ->]; [by destruct Hd1|by destruct Hd2].
Qed.

Section env.
Context `{RbTree} `{Env}.

(** With CPU [cpu] the first whose journal is not idle. *)
Lemma soft_init_faults w cpu head entries :
  kzalloc (w_tick w) = true →
  (∀ i, 0 ≤ i < cpu → ∃ h, journal_at w i h h) → interrupted w cpu head entries →
  nova_lite_journal_soft_init w = Halt HFault.
Proof.
  intros Hk Hidle Hi. unfold nova_lite_journal_soft_init. rewrite bind_try_kzalloc, Hk. run.
  destruct (ja_cpu _ _ _ _ (in_at _ _ _ _ Hi)) as [Hc1 Hc2].
  assert (seqZ 0 (cpus (w_sbi w)) =
          seqZ 0 cpu ++ cpu :: seqZ (Z.succ cpu) (cpus (w_sbi w) - cpu - 1)) as Hseq.
  { replace (cpus (w_sbi w)) with (cpu + (cpus (w_sbi w) - cpu)) at 1 by lia.
    rewrite seqZ_app by lia. rewrite (seqZ_cons (0 + cpu)) by lia. do 3 f_equal; lia. }
  cbn [w_sbi next_tick set_tick]. rewrite Hseq.
  assert (until_error soft_init_cpu (seqZ 0 cpu) (next_tick w) = Done (0, next_tick w)) as Hpre.
  { apply soft_init_idle. intros i Hi'%elem_of_seqZ.
    destruct (Hidle i ltac:(lia)) as (h&[]). by exists h. }
  rewrite (until_error_app _ _ _ _ _ Hpre). cbn [until_error].
  apply bind_halt, (soft_init_cpu_faults _ _ head entries).
  by destruct Hi as [? [] ? ?].
Qed.

(** Mounting: with every journal idle [nova_lite_journal_soft_init] succeeds
    and changes nothing on the device; if a CPU's journal was interrupted the
    mount faults, because the type byte of a recorded address is not removed
    before the address is followed. *)
Theorem nova_lite_journal_soft_init_spec w :
  kzalloc (w_tick w) = true →
  ((∀ i, 0 ≤ i < cpus (w_sbi w) → ∃ h, journal_at w i h h) →
   nova_lite_journal_soft_init w = Done (0, next_tick w)) ∧
  ∀ cpu head entries,
    (∀ i, 0 ≤ i < cpu → ∃ h, journal_at w i h h) → interrupted w cpu head entries →
    nova_lite_journal_soft_init w = Halt HFault.
Proof.
  intros Hk. split; [|intros; by eapply soft_init_faults].
  intros Hidle. unfold nova_lite_journal_soft_init. rewrite bind_try_kzalloc, Hk. run.
  apply soft_init_idle. intros i Hi%elem_of_seqZ. cbn [w_sbi next_tick set_tick] in Hi.
  destruct (Hidle i ltac:(lia)) as (h&[]). by exists h.
Qed.

(** C27. A power failure between the creation and the commit of a transaction:
    if the entry records a field with a type, the next mount faults, on every
    crash image in which the journals of the CPUs before it are idle. *)
Theorem interrupted_transaction_faults w cpu head e1 e2 entries i a s live tick :
  journal_at w cpu head head → ring_ok head → entry_ok e1 → entry_ok e2 →
  entries = 1 ∨ entries = 2 → nvmm_ok (w_nvmm w) →
  (∀ x, journal_byte cpu head entries x → written_back (w_nvmm w) x) →
  le_addrs e1 !! i = Some a → u8 (Z.shiftr (u64 a) 56) ≠ 0 →
  cpu < cpus s → kzalloc tick = true →
  ∃ w', nova_create_lite_transaction e1 e2 entries cpu w
        = Done (ring_iter (Z.to_nat entries) head, w') ∧
    ∀ m, crash_image (w_nvmm w') m →
      let mounted := World (nvmm_boot m) s live tick ∅ [] in
      (∀ j, 0 ≤ j < cpu → ∃ h, journal_at mounted j h h) →
      nova_lite_journal_soft_init mounted = Halt HFault.
Proof.
  intros Hj Hr He1 He2 Hen Hok Hwb Ha Hty Hcpu Hkz. pose proof (ja_cpu _ _ _ _ Hj) as Hc.
  destruct (create_run w cpu head e1 e2 entries Hj Hr He1 He2 Hen)
    as (w'&Hrun&[_ Hat Hent1 _ _ Hok' Hset]).
  exists w'. split; [done|]. intros m Hm mounted Hidle.
  assert (∀ x, journal_byte cpu head entries x → ld8 m x = ld8 (vis (w_nvmm w')) x)
    as Hsame by (intros x Hx; eapply settled_crash; auto).
  apply (soft_init_faults mounted cpu head (Z.to_nat entries)); [done|done|].
  unfold journal_byte in Hsame. split; [lia| |done|].
  - destruct Hat as [_ Hh Ht]. unfold ptr_pair.journal_head, ptr_pair.journal_tail in *.
    split; [cbn; lia|rewrite <- Hh|rewrite <- Ht]; apply ld_frame; intros x Hx; apply Hsame;
      unfold ptr_pair.journal_head, ptr_pair.journal_tail in *; lia.
  - pose proof (lookup_lt_Some _ _ _ Ha) as Hi. rewrite (proj1 He1) in Hi.
    exists (Z.of_nat i). split; [lia|]. unfold field_type.
    replace (ld 8 _ _) with (u64 a); [done|]. symmetry.
    assert (ld_bytes 64 m head = encode_entry e1) as Hent.
    { rewrite <- Hent1. apply ld_bytes_frame. intros x Hx. apply Hsame. lia. }
    by apply (entry_addr m head e1).
Qed.
End env.

(** ** Setting up the journals of a new file system *)
Section hard_init.
Context `{RbTreeLaws} `{EnvLaws}.

(** One journal: a free block [b] of its own, zeroed, both pointers to it. *)
Lemma hard_init_cpu_run w i x :
  balloc_ok w → num_blocks (w_sbi w) < 2 ^ 31 →
  reserved_blocks (w_sbi w) = RESERVED_BLOCKS → 0 ≤ i < 64 → i < cpus (w_sbi w) →
  cpu_free (w_sbi w) x →
  ∃ b w', hard_init_cpu i w = Done (0, w') ∧ balloc_ok w' ∧
    same_geometry (w_sbi w) (w_sbi w') ∧ block_free (w_sbi w) b ∧ 3 ≤ b < 2 ^ 44 ∧
    (∀ y, cpu_free (w_sbi w) y → y ≠ b → cpu_free (w_sbi w') y) ∧
    (∀ y, block_free (w_sbi w') y ↔ block_free (w_sbi w) y ∧ y ≠ b) ∧
    ld 8 (vis (w_nvmm w')) (jptr i) = b * 4096 ∧
    ld 8 (vis (w_nvmm w')) (jptr i + 8) = b * 4096 ∧
    (∀ a, ¬ (jptr i ≤ a < jptr i + 16) →
       ld8 (vis (w_nvmm w')) a =
       if decide (b * 4096 ≤ a < b * 4096 + 4096) then 0 else ld8 (vis (w_nvmm w)) a).
Proof.
  intros Hok Hper Hres Hi Hi2 Hx. unfold hard_init_cpu. run.
  unfold nova_get_journal_pointers. rewrite decide_False by lia. fold (jptr i).
  unfold nova_new_log_blocks.
  destruct (new_blocks_4K_run w 1 true LOG Hok Hper ltac:(lia))
    as [[_ Hno]|(k&b&w1&Hw1&Hk&Hext&Hok1&Hall&Hset&_&Hmem&(Hgeo&_)&_)].
  { destruct (cpu_free_count w x Hok Hx) as (j&Hj&Hge).
    specialize (Hno j Hj). lia. }
  assert (k = 1) as -> by lia. rewrite (bind_run _ _ _ _ _ Hw1).
  specialize (Hall b ltac:(lia)) as Hb. pose proof (geo_blocks _ (bo_geometry w Hok)).
  pose proof (block_free_bounds w b Hok Hb) as Hb3. rewrite Hres in Hb3.
  change RESERVED_BLOCKS with 3 in Hb3. cbn [from_option id].
  rewrite decide_False by lia. run.
  assert (nova_get_block_off b = b * 4096) as ->.
  { unfold nova_get_block_off, PAGE_SHIFT. rewrite Z.shiftl_mul_pow2, wrap_small; lia. }
  eexists b, _. split; [reflexivity|]. split; [by eapply balloc_ok_same; [..|exact Hok1]|].
  split; [done|]. split; [done|]. split; [lia|]. split.
  { intros y (c&Hc&Hy) Hne. exists c. split; [cbn; by rewrite (proj1 Hgeo)|].
    apply Hset; [lia|]. split; [done|lia]. }
  unfold ptr_pair.journal_head, ptr_pair.journal_tail. rewrite Z.add_0_r.
  cbn [w_nvmm set_nvmm vis nova_flush_buffer nvmm_write apply_write w_sbi].
  split_and!.
  - intros y. rewrite (lists_taken _ _ _ _ Hset). intuition lia.
  - rewrite ld_st. apply Z.mod_small. cbn. lia.
  - rewrite ld_st_bytes_out by (rewrite length_le_split; lia).
    rewrite ld_st. apply Z.mod_small. cbn. lia.
  - intros a Ha. rewrite !ld8_st_bytes_out by (rewrite length_le_split; lia).
    rewrite Hmem. repeat case_decide; naive_solver lia.
Qed.

(** The journals of CPUs [k], [k + 1], ... are on the blocks [bs]. *)
Definition journals_on (w : world) (k : Z) (bs : list Z) : Prop :=
  ∀ j b, bs !! j = Some b →
    ld 8 (vis (w_nvmm w)) (jptr (k + Z.of_nat j)) = b * 4096 ∧
    ld 8 (vis (w_nvmm w)) (jptr (k + Z.of_nat j) + 8) = b * 4096 ∧
    ∀ a, b * 4096 ≤ a < b * 4096 + 4096 → ld8 (vis (w_nvmm w)) a = 0.

Lemma hard_init_loop n : ∀ w k L,
  balloc_ok w → num_blocks (w_sbi w) < 2 ^ 31 →
  reserved_blocks (w_sbi w) = RESERVED_BLOCKS →
  0 ≤ k → k + Z.of_nat n = cpus (w_sbi w) → cpus (w_sbi w) ≤ 64 →
  NoDup L → (n ≤ length L)%nat →
  (∀ x, x ∈ L → cpu_free (w_sbi w) x) →
  ∃ bs w', until_error hard_init_cpu (seqZ k (Z.of_nat n)) w = Done (0, w') ∧
    balloc_ok w' ∧ same_geometry (w_sbi w) (w_sbi w') ∧
    length bs = n ∧ NoDup bs ∧
    (∀ b, b ∈ bs → block_free (w_sbi w) b ∧ 3 ≤ b < 2 ^ 44) ∧
    (∀ y, block_free (w_sbi w') y ↔ block_free (w_sbi w) y ∧ y ∉ bs) ∧
    journals_on w' k bs ∧
    (∀ a, a < jptr k ∨ 8192 ≤ a → (∀ b, b ∈ bs → ¬ (b * 4096 ≤ a < b * 4096 + 4096)) →
       ld8 (vis (w_nvmm w')) a = ld8 (vis (w_nvmm w)) a).
Proof.
  induction n as [|n IH]; intros w k L Hok Hper Hres Hk Hn Hc HL Hlen Hfree.
  { exists [], w. split_and!; try done; [constructor|set_solver|set_solver]. }
  rewrite seqZ_cons by lia. cbn [until_error].
  destruct L as [|x L]; [cbn in Hlen; lia|].
  pose proof (Hfree x ltac:(set_solver)) as Hx.
  destruct (hard_init_cpu_run w k x Hok Hper Hres ltac:(lia) ltac:(lia) Hx)
    as (b&w1&Hrun1&Hok1&Hgeo1&Hb&Hb3&Hcf1&Hset1&Hh1&Ht1&Hmem1).
  rewrite (bind_run _ _ _ _ _ Hrun1), decide_True by done.
  replace (Z.succ k) with (k + 1) by lia.
  replace (Z.pred (Z.of_nat (S n))) with (Z.of_nat n) by lia.
  pose proof Hgeo1 as (Ec&Ep&En&Er).
  destruct (NoDup_minus x L b HL) as (L'&HL'&Hlen'&Hsub).
  destruct (IH w1 (k + 1) L') as (bs&w2&Hrun2&Hok2&Hgeo2&Hl2&Hnd2&Hin2&Hset2&Hon2&Hfr2);
    try done; rewrite ?Ec, ?Ep, ?Er; try lia; [cbn in Hlen; lia| |].
  { intros y Hy. destruct (Hsub y Hy) as [Hy1 Hy2]. auto. }
  assert (∀ i, 0 ≤ i < 64 → jptr i + 16 ≤ 8192) as Hj
    by (unfold jptr, NOVA_DEF_BLOCK_SIZE_4K, CACHELINE_SIZE; lia).
  assert (jptr (k + 1) = jptr k + 64) as Hj1 by (unfold jptr, CACHELINE_SIZE; lia).
  assert (b ∉ bs) as Hbbs.
  { intros Hbb. apply Hin2 in Hbb as [Hbb _]. apply Hset1 in Hbb as [_ []]. done. }
  exists (b :: bs), w2. split; [done|]. split; [done|]. split.
  { destruct Hgeo2 as (?&?&?&?). repeat split; congruence. }
  split_and!; [by cbn; rewrite Hl2|by constructor| | | |].
  - intros y [->|Hy]%elem_of_cons; [done|]. destruct (Hin2 y Hy) as [Hy1 Hy2].
    split; [|done]. by apply Hset1 in Hy1 as [? _].
  - intros y. rewrite Hset2, Hset1. set_solver.
  - intros [|j] b' Hj'; cbn in Hj'.
    + injection Hj' as <-. rewrite Z.add_0_r.
      assert (∀ a, jptr k ≤ a < jptr k + 16 ∨ b * 4096 ≤ a < b * 4096 + 4096 →
                ld8 (vis (w_nvmm w2)) a = ld8 (vis (w_nvmm w1)) a) as Hkeep.
      { intros a Ha. specialize (Hj k ltac:(lia)). apply Hfr2; [lia|].
        intros y Hy. destruct (Hin2 y Hy) as [_ Hy3].
        assert (y ≠ b) by (by intros ->). lia. }
      split_and!.
      * etrans; [apply ld_frame|exact Hh1]. intros a Ha. apply Hkeep. lia.
      * etrans; [apply ld_frame|exact Ht1]. intros a Ha. apply Hkeep. lia.
      * intros a Ha. specialize (Hj k ltac:(lia)).
        rewrite Hkeep, Hmem1, decide_True by lia. done.
    + replace (k + Z.of_nat (S j)) with (k + 1 + Z.of_nat j) by lia. by apply Hon2.
  - intros a Ha Hne. rewrite Hfr2; [|lia|set_solver].
    specialize (Hj k ltac:(lia)). rewrite Hmem1 by lia.
    rewrite decide_False; [done|]. apply Hne. set_solver.
Qed.

(** C28. Setting up the journals of a new file system: if the per-CPU lists hold
    one free block per CPU, every CPU gets a journal on a block of its own,
    zeroed, with both pointers at its start; exactly these blocks stop being
    free. *)
Theorem nova_lite_journal_hard_init_spec w L :
  balloc_ok w → num_blocks (w_sbi w) < 2 ^ 31 →
  reserved_blocks (w_sbi w) = RESERVED_BLOCKS → cpus (w_sbi w) ≤ 64 →
  (∀ t, kzalloc t = true) →
  NoDup L → cpus (w_sbi w) ≤ Z.of_nat (length L) →
  (∀ x, x ∈ L → cpu_free (w_sbi w) x) →
  ∃ bs w', nova_lite_journal_hard_init w = Done (0, w') ∧ balloc_ok w' ∧
    Z.of_nat (length bs) = cpus (w_sbi w) ∧ NoDup bs ∧
    (∀ b, b ∈ bs → block_free (w_sbi w) b) ∧
    (∀ y, block_free (w_sbi w') y ↔ block_free (w_sbi w) y ∧ y ∉ bs) ∧
    ∀ i b, bs !! i = Some b →
      journal_at w' (Z.of_nat i) (b * 4096) (b * 4096) ∧ ring_ok (b * 4096) ∧
      ∀ a, b * 4096 ≤ a < b * 4096 + 4096 → ld8 (vis (w_nvmm w')) a = 0.
Proof.
  intros Hok Hper Hres Hc Hkz HL Hlen Hfree.
  pose proof (geo_cpus _ (bo_geometry w Hok)) as Hc0.
  destruct (hard_init_loop (Z.to_nat (cpus (w_sbi w))) w 0 L)
    as (bs&w1&Hrun1&Hok1&(Ec&_)&Hl1&Hnd1&Hin1&Hset1&Hon1&_); try done; try lia.
  rewrite Z2Nat.id in Hrun1 by lia.
  unfold nova_lite_journal_hard_init. run. rewrite (bind_run _ _ _ _ _ Hrun1).
  rewrite decide_True by done. run.
  set (w2 := set_nvmm (PERSISTENT_BARRIER (w_nvmm w1)) w1).
  assert (∀ i b, bs !! i = Some b → journal_at (next_tick w2) (Z.of_nat i) (b * 4096)
    (b * 4096)) as Hat.
  { intros i b Hib. destruct (Hon1 i b Hib) as (Hh&Ht&_). cbn in Hh, Ht.
    apply lookup_lt_Some in Hib. split; cbn; rewrite ?Ec; try lia; try done.
    unfold ptr_pair.journal_head. by rewrite Z.add_0_r. }
  exists bs, (next_tick w2). split_and!; try done; try lia.
  - unfold nova_lite_journal_soft_init, try_kzalloc. unfold mbind at 1, M_bind at 1.
    rewrite Hkz. run. apply soft_init_idle. intros i Hi%elem_of_seqZ.
    cbn in Hi. rewrite Ec in Hi.
    destruct (lookup_lt_is_Some_2 bs (Z.to_nat i)) as [b Hb]; [lia|].
    exists (b * 4096). specialize (Hat _ _ Hb). by rewrite Z2Nat.id in Hat by lia.
  - by eapply balloc_ok_same; [..|exact Hok1].
  - intros b Hb. by apply Hin1.
  - intros i b Hib. split; [by apply Hat|].
    destruct (Hon1 i b Hib) as (_&_&Hz). apply list_elem_of_lookup_2 in Hib.
    destruct (Hin1 b Hib) as [_ Hb]. split; [|done].
    split; [|lia]. replace (b * 4096) with (b * 64 * 64) by lia. by rewrite Z.mod_mul.
Qed.
End hard_init.


(** ** Instances *)
Section instances.
#[local] Existing Instances bst_rb bst_rb_laws env1 env1_laws.

(** One CPU whose journal is idle at the start of block 3. *)
Definition jmem : mem :=
  st_bytes (st_bytes ∅ 4096 (le_split 8 12288)) 4104 (le_split 8 12288).
Definition jsbi : nova_sb_info :=
  SbInfo 100 (100 * 4096) 0 3 1 0 100 [] [zero_free_list] zero_free_list
    zero_mount_info.
Definition jworld : world := World (nvmm_boot jmem) jsbi ∅ 0 ∅ [].
Definition jentry : lite_entry :=
  LiteEntry [8 * 2 ^ 56 + 1104; 2 ^ 56 + 1154; 0; 0] [40960; 0; 0; 0].

Lemma jworld_idle : journal_at jworld 0 12288 12288.
Proof. split; [cbn; lia|by vm_compute..]. Qed.
Lemma jring : ring_ok 12288.
Proof. by split. Qed.
Lemma jentry_ok : entry_ok jentry.
Proof. done. Qed.

Lemma nova_create_lite_transaction_spec_witness :
  ∃ w', nova_create_lite_transaction jentry jentry 2 0 jworld = Done (12416, w') ∧
    journal_at w' 0 12288 12416.
Proof.
  destruct (nova_create_lite_transaction_spec jworld 0 12288 jentry jentry 2
    jworld_idle jring jentry_ok jentry_ok) as (w'&Hrun&_&Hat&_); [auto|done| |].
  - intros x _. constructor.
  - exists w'. split; [exact Hrun|exact Hat].
Defined.

(** A commit with all earlier stores on the medium. *)
Lemma lite_transaction_cycle_witness :
  ∃ w' w1 w2, nova_create_lite_transaction jentry jentry 1 0 jworld = Done (12352, w') ∧
    nova_commit_lite_transaction 12352 0 w1 = Done ((), w2) ∧
    journal_at w2 0 12352 12352.
Proof.
  destruct (lite_transaction_cycle jworld 0 12288 jentry jentry 1
    jworld_idle jring jentry_ok jentry_ok) as (w'&Hrun&Hcommit); [auto|].
  set (w1 := World (nvmm_boot (vis (w_nvmm w'))) (w_sbi w') (w_live w') (w_tick w')
               (w_inodes w') []).
  destruct (Hcommit w1) as (w2&Hrun2&Hat&_).
  - by repeat split.
  - apply nvmm_ok_boot.
  - intros x _. split; [reflexivity|constructor].
  - exists w', w1, w2. split; [exact Hrun|]. split; [exact Hrun2|exact Hat].
Defined.

(** The same CPU after a crash inside a transaction of one entry. *)
Definition jcrashed : world :=
  World (nvmm_boot (st_bytes (st_bytes jmem 4104 (le_split 8 12352))
                      12288 (encode_entry jentry))) jsbi ∅ 0 ∅ [].

Lemma jcrashed_at : journal_at jcrashed 0 12288 12352.
Proof. split; [cbn; lia|by vm_compute..]. Qed.

Lemma lite_journal_bug_witness :
  nova_create_lite_transaction jentry jentry 1 0 jcrashed = Halt HBug.
Proof.
  apply (lite_journal_bug jcrashed 0 12288 12352 jentry jentry 1 0 jcrashed_at).
  lia.
Defined.

Lemma nova_lite_journal_soft_init_spec_witness :
  nova_lite_journal_soft_init jworld = Done (0, next_tick jworld) ∧
  nova_lite_journal_soft_init jcrashed = Halt HFault.
Proof.
  split.
  - apply (nova_lite_journal_soft_init_spec jworld); [done|]. intros i Hi.
    assert (i = 0) as -> by (cbn in Hi; lia). exists 12288. apply jworld_idle.
  - destruct (nova_lite_journal_soft_init_spec jcrashed) as [_ Hfault]; [done|].
    apply (Hfault 0 12288 1%nat); [lia|].
    split; [by left|apply jcrashed_at|apply jring|]. exists 0. split; [lia|by vm_compute].
Defined.

(** Power fails right after the transaction was opened. *)
Lemma interrupted_transaction_faults_witness :
  ∃ w' m, nova_create_lite_transaction jentry jentry 1 0 jworld = Done (12352, w') ∧
    crash_image (w_nvmm w') m ∧
    nova_lite_journal_soft_init (World (nvmm_boot m) jsbi ∅ 0 ∅ []) = Halt HFault.
Proof.
  destruct (interrupted_transaction_faults jworld 0 12288 jentry jentry 1 0
    (8 * 2 ^ 56 + 1104) jsbi ∅ 0 jworld_idle jring jentry_ok jentry_ok)
    as (w'&Hrun&Hmount); try done; [auto| |].
  - intros x _. constructor.
  - exists w', (apply_writes (base (w_nvmm w')) (plog (w_nvmm w')).*1).
    split; [exact Hrun|]. split; [apply crashes_all|].
    apply Hmount; [apply crashes_all|]. intros j Hj. lia.
Defined.


Lemma nova_lite_journal_hard_init_spec_witness :
  ∃ (bs : list Z) w', nova_lite_journal_hard_init small_world = Done (0, w') ∧ balloc_ok w' ∧
    length bs = 2%nat ∧ NoDup bs.
Proof.
  destruct (nova_lite_journal_hard_init_spec small_world [3; 10])
    as (bs&w'&Hrun&Hok&Hlen&Hnd&_).
  - apply small_world_ok.
  - done.
  - done.
  - done.
  - done.
  - by apply (bool_decide_unpack _).
  - done.
  - intros x Hx. assert (x = 3 ∨ x = 10) as [->| ->] by set_solver.
    + exists 0. split; [done|]. apply (bool_decide_unpack _). by vm_compute.
    + exists 1. split; [done|]. apply (bool_decide_unpack _). by vm_compute.
  - exists bs, w'. cbn in Hlen. split; [exact Hrun|]. split; [exact Hok|].
    split; [lia|exact Hnd].
Defined.
End instances.
