(* ===== verification/Frame.v ===== *)
(** * What an operation leaves alone

    [keeps f m]: whenever [m] returns, [f] of the world is what it was before.
    The lemmas are the rules for the monad, the tactic [keeps] applies them
    and those registered in the database of the same name. *)
From S2P Require Import Prelude Nvmm RangeTree Layout World Balloc Journal.

Definition keeps {A B} (f : world → B) (m : M A) : Prop :=
  ∀ w a w', m w = Done (a, w') → f w' = f w.

Lemma ret_Done {A} (a b : A) w w' : (mret a : M A) w = Done (b, w') → a = b ∧ w = w'.
Proof. by intros [= -> ->]. Qed.

Create HintDb keeps.

Section rules.
Context {B : Type} (f : world → B).

Lemma keeps_ret {A} (a : A) : keeps f (mret a).
Proof. by intros w a' w' [= _ <-]. Qed.
Lemma keeps_stop {A} h : keeps f (@stop A h).
Proof. by intros w a w' ?. Qed.
Lemma keeps_gets {A} (g : world → A) : keeps f (gets g).
Proof. by intros w a w' [= _ <-]. Qed.
Lemma keeps_get_sbi : keeps f get_sbi.
Proof. apply keeps_gets. Qed.
Lemma keeps_load n a : keeps f (load n a).
Proof. apply keeps_gets. Qed.
Lemma keeps_load_bytes n a : keeps f (load_bytes n a).
Proof. apply keeps_gets. Qed.
Lemma keeps_lift {A} (o : outcome A) : keeps f (lift o).
Proof. intros w a w'. unfold lift. destruct o; [|done]. by intros [= _ <-]. Qed.
Lemma keeps_deref {A} (p : option A) : keeps f (deref p).
Proof. destruct p; [apply keeps_ret|apply keeps_stop]. Qed.
Lemma keeps_block_ptr a : keeps f (block_ptr a).
Proof.
  unfold block_ptr. case_match; [case_decide|]; auto using @keeps_ret, @keeps_stop.
Qed.
Lemma keeps_modify g : (∀ w, f (g w) = f w) → keeps f (modify g).
Proof. by intros Hg w a w' [= _ <-]. Qed.
Lemma keeps_bind {A C} (m : M A) (k : A → M C) :
  keeps f m → (∀ a, keeps f (k a)) → keeps f (m ≫= k).
Proof.
  intros Hm Hk w c w' (a&w1&H1&H2)%bind_Done.
  rewrite (Hk _ _ _ _ H2). by eapply Hm.
Qed.
Lemma keeps_when b m : keeps f m → keeps f (when b m).
Proof. destruct b; [done|]. intros _. apply keeps_ret. Qed.
Lemma keeps_forM {A} (l : list A) g : (∀ x, keeps f (g x)) → keeps f (forM l g).
Proof. intros Hg. induction l; [apply keeps_ret|]. by apply keeps_bind. Qed.
Lemma keeps_until_error l g : (∀ x, keeps f (g x)) → keeps f (until_error g l).
Proof.
  intros Hg. induction l as [|x l IH]; [apply keeps_ret|]. cbn. apply keeps_bind; [done|].
  intros. case_decide; [done|apply keeps_ret].
Qed.
Lemma keeps_tick `{Env} {A} (g : world → A) :
  (∀ w, f (next_tick w) = f w) → keeps f (λ w, Done (g w, next_tick w)).
Proof. by intros Hf w a w' [= _ <-]. Qed.
Lemma keeps_alloc_node `{Env} :
  (∀ w, f (next_tick w) = f w) → (∀ l w, f (set_live l w) = f w) →
  keeps f nova_alloc_range_node.
Proof.
  intros Hf Hl w a w'. unfold nova_alloc_range_node.
  destruct (kmem_cache_alloc _ _); intros [= _ <-]; by rewrite ?Hl, Hf.
Qed.
End rules.

#[export] Hint Resolve keeps_ret keeps_stop keeps_gets keeps_get_sbi keeps_load
  keeps_load_bytes keeps_lift keeps_deref keeps_block_ptr : keeps.

Ltac keeps_step :=
  lazymatch goal with
  | |- keeps _ (_ ≫= _) => apply keeps_bind; [|intros ?]
  | |- keeps _ (modify _) => apply keeps_modify; done
  | |- keeps _ (when _ _) => apply keeps_when
  | |- keeps _ (forM _ _) => apply keeps_forM; intros ?
  | |- keeps _ (until_error _ _) => apply keeps_until_error; intros ?
  | |- keeps _ nova_alloc_range_node => apply keeps_alloc_node; done
  | |- keeps _ (let '_ := ?x in _) => destruct x
  | |- keeps _ (match ?x with _ => _ end) => destruct x eqn:?
  | |- keeps _ _ => solve [auto with keeps nocore | apply keeps_tick; done]
  end.
Ltac keeps := repeat keeps_step.
