(* ===== verification/InodeMap.v ===== *)
(** * Inode numbers and inode slots (inode.c, balloc.c)

    Inode number [ino] belongs to CPU [ino % cpus], which keeps the numbers
    [ino / cpus] in use as ranges in a red-black tree.  The 128-byte slot of
    an inode lies in the chain of 2M superpages of its CPU. *)
From S2P Require Import Prelude Nvmm RangeTree Layout World Balloc Journal.

Definition imap_set_tree (t : rb_tree) (m : inode_map) : inode_map :=
  InodeMap t (num_range_node_inode m) (first_inode_range m) (allocated m) (freed m).
Definition imap_set_num (n : Z) (m : inode_map) : inode_map :=
  InodeMap (inode_inuse_tree m) n (first_inode_range m) (allocated m) (freed m).
Definition imap_set_first (p : option Z) (m : inode_map) : inode_map :=
  InodeMap (inode_inuse_tree m) (num_range_node_inode m) p (allocated m) (freed m).
Definition imap_inc_allocated (m : inode_map) : inode_map :=
  InodeMap (inode_inuse_tree m) (num_range_node_inode m) (first_inode_range m)
    (s32 (allocated m + 1)) (freed m).
Definition imap_inc_freed (m : inode_map) : inode_map :=
  InodeMap (inode_inuse_tree m) (num_range_node_inode m) (first_inode_range m)
    (allocated m) (s32 (freed m + 1)).

(** [&sbi->inode_maps[cpuid]]: reading and writing through it. *)
Definition get_imap (cpuid : Z) : M inode_map :=
  s ← get_sbi; deref (inode_maps s !! Z.to_nat cpuid).
Definition update_imap (cpuid : Z) (m : inode_map) : M () :=
  modify (λ w, set_sbi (set_inode_maps (<[Z.to_nat cpuid := m]> (inode_maps (w_sbi w)))
                          (w_sbi w)) w).
Definition add_used_count (d : Z) : M () :=
  modify (λ w, set_sbi (set_used_count (u64 (s_inodes_used_count (w_sbi w) + d))
                          (w_sbi w)) w).

Section inode_map.
Context `{RbTree} `{Env}.

(** balloc.c *)
Definition nova_search_inodetree (ino : Z) : M (Z * option nova_range_node) :=
  s ← get_sbi;
  if decide (cpus s = 0) then stop HFault else
  m ← get_imap (ino mod cpus s);
  mret (nova_find_range_node (inode_inuse_tree m) (ino / cpus s)).

Definition nova_insert_inodetree (new_node : nova_range_node) (cpu : Z) : M Z :=
  m ← get_imap cpu;
  match nova_insert_range_node (inode_inuse_tree m) new_node with
  | (ret, t) => update_imap cpu (imap_set_tree t m) ;; mret ret
  end.

(** ** Setting up *)
Definition init_inuse_cpu (range_high i : Z) : M Z :=
  p ← nova_alloc_range_node;
  match p with
  | None => mret (- ENOMEM)
  | Some p =>
      ret ← nova_insert_inodetree (RangeNode p 0 range_high) i;
      if decide (ret ≠ 0) then nova_free_range_node p ;; mret ret
      else
        m ← get_imap i;
        update_imap i (imap_set_first (Some p) (imap_set_num 1 m)) ;;
        mret 0
  end.

Definition nova_init_inode_inuse_list : M Z :=
  modify (λ w, set_sbi (set_used_count NOVA_NORMAL_INODE_START (w_sbi w)) w) ;;
  s ← get_sbi;
  if decide (cpus s = 0) then stop HFault else
  let range_high := (NOVA_NORMAL_INODE_START - 1) / cpus s in
  let range_high := if decide (NOVA_NORMAL_INODE_START mod cpus s ≠ 0)
                    then range_high + 1 else range_high in
  until_error (init_inuse_cpu range_high) (seqZ 0 (cpus s)).

Definition init_table_cpu (pi i : Z) : M Z :=
  s ← get_sbi;
  match nova_get_inode_table s i with
  | None => mret (- EINVAL)
  | Some inode_table =>
      btype ← load 1 (pi + nova_inode.i_blk_type);
      r ← nova_new_log_blocks btype 1 true;
      match r with
      | (allocated, blocknr) =>
        let blocknr := default 0 blocknr in
        if decide (allocated ≠ 1 ∨ blocknr = 0) then mret (- ENOSPC) else
        store 8 inode_table (nova_get_block_off blocknr) ;;
        flush_buffer inode_table CACHELINE_SIZE false ;;
        mret 0
      end
  end.

Definition nova_init_inode_table : M Z :=
  pi ← deref (nova_get_inode_by_ino NOVA_INODETABLE_INO);
  store 2 (pi + nova_inode.i_mode) 0 ;;
  store 4 (pi + nova_inode.i_uid) 0 ;;
  store 4 (pi + nova_inode.i_gid) 0 ;;
  store 2 (pi + nova_inode.i_links_count) 1 ;;
  store 4 (pi + nova_inode.i_flags) 0 ;;
  store 8 (pi + nova_inode.nova_ino) NOVA_INODETABLE_INO ;;
  store 1 (pi + nova_inode.i_blk_type) NOVA_BLOCK_TYPE_2M ;;
  s ← get_sbi;
  ret ← until_error (init_table_cpu pi) (seqZ 0 (cpus s));
  if decide (ret = 0) then barrier ;; mret 0 else mret ret.

(** ** The slot of an inode *)

(** The loop over the superpages: the address of the last one, or an error
    code; [blocknr] is uninitialised until the first allocation. *)
Fixpoint walk_superpages (count : nat) (pi curr : Z) (extendable : bool)
  : M (Z + Z) :=
  match count with
  | O => mret (inr curr)
  | S count =>
      if decide (curr = 0) then mret (inl (- EINVAL)) else
      curr_addr ← block_ptr curr;
      let curr_addr := curr_addr + 2097152 - 8 in
      next ← load 8 curr_addr;
      if decide (next = 0) then
        if extendable then
          btype ← load 1 (pi + nova_inode.i_blk_type);
          r ← nova_new_log_blocks btype 1 true;
          match r with
          | (allocated, blocknr) =>
            if decide (allocated ≠ 1) then mret (inl allocated) else
            blocknr ← deref blocknr;
            let next := nova_get_block_off blocknr in
            store 8 curr_addr next ;;
            flush_buffer curr_addr NOVA_INODE_SIZE true ;;
            walk_superpages count pi next extendable
          end
        else mret (inl (- EINVAL))
      else walk_superpages count pi next extendable
  end.

(** [inr a]: returns 0 with [a] stored through [pi_addr]. *)
Definition nova_get_inode_address (ino : Z) (extendable : bool) : M (Z + Z) :=
  pi ← deref (nova_get_inode_by_ino NOVA_INODETABLE_INO);
  btype ← load 1 (pi + nova_inode.i_blk_type);
  data_bits ← deref ([12; 21; 30] !! Z.to_nat btype);
  let num_inodes_bits := data_bits - NOVA_INODE_BITS in
  s ← get_sbi;
  if decide (cpus s = 0) then stop HFault else
  let internal_ino := ino / cpus s in
  inode_table ← deref (nova_get_inode_table s (ino mod cpus s));
  let superpage_count := u32 (Z.shiftr internal_ino num_inodes_bits) in
  let index := u32 (Z.land internal_ino (Z.shiftl 1 num_inodes_bits - 1)) in
  curr ← load 8 inode_table;
  if decide (curr = 0) then mret (inl (- EINVAL)) else
  r ← walk_superpages (Z.to_nat superpage_count) pi curr extendable;
  match r with
  | inl e => mret (inl e)
  | inr curr => mret (inr (u64 (curr + u32 (index * NOVA_INODE_SIZE))))
  end.

(** ** Allocating and freeing numbers *)
Definition MAX_INODE : Z := Z.shiftl 1 31.

(** [inl] is an error code, [inr ino] the new number. *)
Definition nova_alloc_unused_inode (cpuid : Z) : M (Z + Z) :=
  m ← get_imap cpuid;
  p ← deref (first_inode_range m);
  i ← deref (rb_deref (inode_inuse_tree m) p);
  let next_i := rb_next (inode_inuse_tree m) p in
  let next_range_low := match next_i with Some n => range_low n | None => MAX_INODE end in
  let new_ino := u64 (range_high i + 1) in
  m' ← (match next_i with
        | Some n =>
            if decide (new_ino = u64 (next_range_low - 1)) then
              let t := rb_erase (node_addr n)
                         (rb_update p (set_high (range_high n)) (inode_inuse_tree m)) in
              nova_free_range_node (node_addr n) ;;
              mret (Some (imap_set_num (u64 (num_range_node_inode m - 1))
                            (imap_set_tree t m)))
            else if decide (new_ino < u64 (next_range_low - 1)) then
              mret (Some (imap_set_tree
                (rb_update p (set_high new_ino) (inode_inuse_tree m)) m))
            else mret None
        | None =>
            if decide (new_ino < u64 (next_range_low - 1)) then
              mret (Some (imap_set_tree
                (rb_update p (set_high new_ino) (inode_inuse_tree m)) m))
            else mret None
        end);
  match m' with
  | None => mret (inl (- ENOSPC))
  | Some m' =>
      s ← get_sbi;
      add_used_count 1 ;;
      update_imap cpuid (imap_inc_allocated m') ;;
      mret (inr (u64 (new_ino * cpus s + cpuid)))
  end.

(** The label [block_found]. *)
Definition inode_freed (cpuid : Z) (m : inode_map) : M Z :=
  add_used_count (-1) ;; update_imap cpuid (imap_inc_freed m) ;; mret 0.

Definition nova_free_inuse_inode (ino : Z) : M Z :=
  s ← get_sbi;
  if decide (cpus s = 0) then stop HFault else
  let cpuid := ino mod cpus s in
  let internal_ino := ino / cpus s in
  m ← get_imap cpuid;
  found ← nova_search_inodetree ino;
  match found with
  | (0, _) | (_, None) => mret (- EINVAL)
  | (_, Some i) =>
      let tree := inode_inuse_tree m in
      if decide (internal_ino = range_low i ∧ internal_ino = range_high i) then
        nova_free_range_node (node_addr i) ;;
        inode_freed cpuid
          (imap_set_num (u64 (num_range_node_inode m - 1))
             (imap_set_tree (rb_erase (node_addr i) tree) m))
      else if decide (internal_ino = range_low i ∧ internal_ino < range_high i) then
        inode_freed cpuid (imap_set_tree
          (rb_update (node_addr i) (set_low (u64 (internal_ino + 1))) tree) m)
      else if decide (range_low i < internal_ino ∧ internal_ino = range_high i) then
        inode_freed cpuid (imap_set_tree
          (rb_update (node_addr i) (set_high (u64 (internal_ino - 1))) tree) m)
      else if decide (range_low i < internal_ino < range_high i) then
        p ← nova_alloc_range_node;
        match p with
        | None => inode_freed cpuid m (* counted as freed, still in use *)
        | Some p =>
            let curr_node := RangeNode p (u64 (internal_ino + 1)) (range_high i) in
            let t := rb_update (node_addr i) (set_high (u64 (internal_ino - 1))) tree in
            update_imap cpuid (imap_set_tree t m) ;;
            ret ← nova_insert_inodetree curr_node cpuid;
            if decide (ret ≠ 0) then nova_free_range_node p ;; mret ret
            else
              m ← get_imap cpuid;
              inode_freed cpuid (imap_set_num (u64 (num_range_node_inode m + 1)) m)
        end
      else mret 0
  end.

(** 0 on failure, as in the code; otherwise the number and the address of
    its slot. *)
Definition nova_new_nova_inode : M (Z * option Z) :=
  s ← get_sbi;
  if decide (cpus s = 0) then stop HFault else
  let id := s32 (map_id s) in
  modify (λ w, set_sbi (set_map_id (u64 (map_id s + 1) mod cpus s) (w_sbi w)) w) ;;
  r ← nova_alloc_unused_inode id;
  match r with
  | inl _ => mret (0, None)
  | inr free_ino =>
      a ← nova_get_inode_address free_ino true;
      match a with
      | inl _ => mret (0, None)
      | inr pi_addr => mret (free_ino, Some pi_addr)
      end
  end.
End inode_map.
