(* ===== verification/InodeMapProofs.v ===== *)
(** * Correctness of inode numbers and slots (inode.c) *)
From S2P Require Import Prelude Nvmm RangeTree Layout World Balloc BallocList.
From S2P Require Import BallocProofs Journal JournalProofs InodeMap.

Abbreviation inodes_of m := (inorder (inode_inuse_tree m)).

(** The numbers of one CPU in use: maximal ranges, the first one starting at 0
    (the reserved numbers), all below [MAX_INODE - 1]. *)
Record imap_ok (m : inode_map) : Prop := {
  im_ranges : ranges_from 2 0 (2 ^ 31 - 2) (inodes_of m);
  im_zero : in_ranges 0 (inodes_of m);
  im_nodup : NoDup (addrs (inodes_of m));
  im_first : first_inode_range m = node_addr <$> head (inodes_of m);
  im_num : num_range_node_inode m = Z.of_nat (length (inodes_of m))
}.

Record imaps_ok (s : nova_sb_info) : Prop := {
  ims_cpus : 0 < cpus s ≤ SHARED_CPU;
  ims_len : length (inode_maps s) = Z.to_nat (cpus s);
  ims_ok i m : inode_maps s !! i = Some m → imap_ok m
}.

(** Number [n] of CPU [c] is in use. *)
Definition inuse (s : nova_sb_info) (c n : Z) : Prop :=
  ∃ m, inode_maps s !! Z.to_nat c = Some m ∧ in_ranges n (inodes_of m).
Definition ino_inuse (s : nova_sb_info) (ino : Z) : Prop :=
  inuse s (ino mod cpus s) (ino / cpus s).

(** The in-memory superblock with one inode map replaced. *)
Definition imap_replaced (s s' : nova_sb_info) (c : Z) (m : inode_map) : Prop :=
  same_geometry s s' ∧ free_lists s' = free_lists s ∧
  shared_free_list s' = shared_free_list s ∧
  inode_maps s' = <[Z.to_nat c := m]> (inode_maps s).

Lemma get_free_list_same s s' c :
  cpus s' = cpus s → free_lists s' = free_lists s →
  shared_free_list s' = shared_free_list s →
  nova_get_free_list s' c = nova_get_free_list s c.
Proof. intros E1 E2 E3. unfold nova_get_free_list. by rewrite E1, E2, E3. Qed.

Lemma nodes_put_map s s' c m0 m X Y :
  imap_replaced s s' c m → inode_maps s !! Z.to_nat c = Some m0 →
  X ++ map_nodes m0 ≡ₚ map_nodes m ++ Y →
  X ++ all_nodes s ≡ₚ all_nodes s' ++ Y.
Proof.
  intros (_&E1&E2&E3) Hm0 Hp. unfold all_nodes. rewrite E1, E2, E3.
  rewrite insert_take_drop by (by eapply lookup_lt_Some).
  rewrite <- (take_drop_middle (inode_maps s) (Z.to_nat c) m0) at 1 by done.
  rewrite !bind_app, !bind_cons.
  transitivity ((X ++ map_nodes m0) ++ (free_lists s ≫= list_nodes) ++
    list_nodes (shared_free_list s) ++ (take (Z.to_nat c) (inode_maps s) ≫= map_nodes) ++
    (drop (S (Z.to_nat c)) (inode_maps s) ≫= map_nodes)); [solve_Permutation|].
  rewrite Hp. solve_Permutation.
Qed.

(** Replacing an inode map leaves the block allocator alone. *)
Lemma balloc_ok_imap w w' c m0 m X Y :
  balloc_ok w → imap_replaced (w_sbi w) (w_sbi w') c m →
  inode_maps (w_sbi w) !! Z.to_nat c = Some m0 →
  NoDup X → (∀ p, p ∈ X → p ∉ w_live w) →
  X ++ map_nodes m0 ≡ₚ map_nodes m ++ Y →
  (∀ p, p ∈ w_live w' ↔ (p ∈ X ∨ p ∈ w_live w) ∧ p ∉ Y) →
  balloc_ok w' ∧ (∀ b, block_free (w_sbi w') b ↔ block_free (w_sbi w) b).
Proof.
  intros [Hgeo Hl Hdj Hnd Hlive] Hrep Hm0 HX HXl Hp Hlv.
  pose proof (nodes_put_map _ _ c m0 m X Y Hrep Hm0 Hp) as Hall.
  destruct Hrep as ((Ec&Ep&En&Er)&E1&E2&E3).
  assert (∀ d, nova_get_free_list (w_sbi w') d = nova_get_free_list (w_sbi w) d) as Hget
    by (intros; by apply get_free_list_same).
  assert (NoDup (X ++ all_nodes (w_sbi w))) as HndX.
  { apply NoDup_app. split_and!; try done. intros p ?%HXl Hp'. auto. }
  rewrite Hall in HndX. apply NoDup_app in HndX as (Hnd'&Hdis&_).
  split.
  - split; try done.
    + destruct Hgeo. split; rewrite ?Ec, ?Ep, ?En, ?Er, ?E1; done.
    + intros d Hd. rewrite Hget, En, Er. by apply Hl.
    + intros d d' b. rewrite !Hget. unfold same_list. rewrite Ec. apply Hdj.
    + intros p Hp'. apply Hlv. split; [|by intros ?%(Hdis p)].
      assert (p ∈ X ++ all_nodes (w_sbi w)) as [?|?]%elem_of_app; [|by auto..].
      rewrite Hall. set_solver.
  - intros b. unfold block_free. by setoid_rewrite Hget.
Qed.

Lemma imaps_ok_put s s' c m :
  imaps_ok s → imap_replaced s s' c m → imap_ok m → imaps_ok s'.
Proof.
  intros [Hc Hlen Hok] ((Ec&_)&_&_&Ei) Hm. split; rewrite ?Ec, ?Ei; try done.
  - by rewrite length_insert.
  - intros i m' Hi. destruct (decide (i = Z.to_nat c)) as [->|Hne].
    + apply list_lookup_insert_Some in Hi as [(_&<-&_)|[? _]]; [done|done].
    + rewrite list_lookup_insert_ne in Hi by done. eauto.
Qed.

Lemma inuse_put s s' c m c' n :
  imaps_ok s → imap_replaced s s' c m → 0 ≤ c < cpus s → 0 ≤ c' →
  inuse s' c' n ↔ if decide (c' = c) then in_ranges n (inodes_of m) else inuse s c' n.
Proof.
  intros [_ Hlen _] (_&_&_&Ei) Hc Hc'. unfold inuse. rewrite Ei.
  case_decide as Hd; [subst c'|].
  - rewrite list_lookup_insert_eq by lia. naive_solver.
  - by rewrite list_lookup_insert_ne by lia.
Qed.

Lemma map_nodes_all s c m p :
  inode_maps s !! Z.to_nat c = Some m → p ∈ map_nodes m → p ∈ all_nodes s.
Proof.
  intros Hm Hp. unfold all_nodes. rewrite !elem_of_app. right. right.
  apply list_elem_of_bind. exists m. split; [done|]. by eapply list_elem_of_lookup_2.
Qed.

Lemma imap_lookup s c :
  imaps_ok s → 0 ≤ c < cpus s → ∃ m, inode_maps s !! Z.to_nat c = Some m ∧ imap_ok m.
Proof.
  intros [_ Hlen Hok] Hc.
  destruct (lookup_lt_is_Some_2 (inode_maps s) (Z.to_nat c)) as [m Hm]; [lia|]. eauto.
Qed.

(** The first range of a map starts at 0. *)
Lemma imap_head m :
  imap_ok m → ∃ i l, inodes_of m = i :: l ∧ range_low i = 0 ∧ 0 ≤ range_high i ∧
    range_high i ≤ 2 ^ 31 - 2 ∧ ranges_from 2 (range_high i + 2) (2 ^ 31 - 2) l.
Proof.
  intros [Hr Hz _ _ _]. destruct (inodes_of m) as [|i l].
  - by apply in_ranges_nil in Hz.
  - cbn in Hr. destruct Hr as (Hlo&Hle&Hhi&Hl). exists i, l. split; [done|].
    apply in_ranges_cons in Hz as [Hz|Hz].
    + unfold in_range in Hz. split_and!; try lia. done.
    + pose proof (in_ranges_bounds 2 _ _ _ 0 ltac:(lia) Hl Hz). lia.
Qed.

Section laws.
Context `{RbTreeLaws} `{EnvLaws}.

(** What allocating [n] in map [m] gives: [m'], with [nodes] freed. *)
Definition ino_taken (m : inode_map) (n : Z) (m' : inode_map) (nodes : list Z) : Prop :=
  imap_ok m' ∧
  (∀ b, in_ranges b (inodes_of m') ↔ in_ranges b (inodes_of m) ∨ b = n) ∧
  map_nodes m ≡ₚ map_nodes m' ++ nodes.

Lemma alloc_gap_spec m i x l :
  imap_ok m → inodes_of m = i :: x :: l → range_high i + 1 = range_low x - 1 →
  ino_taken m (range_high i + 1)
    (imap_set_num (u64 (num_range_node_inode m - 1))
       (imap_set_tree (rb_erase (node_addr x)
          (rb_update (node_addr i) (set_high (range_high x)) (inode_inuse_tree m))) m))
    [node_addr x].
Proof.
  intros Hm Hl Hgap. pose proof Hm as [Hr Hz Hnd Hfst Hnum].
  set (t := rb_update (node_addr i) (set_high (range_high x)) (inode_inuse_tree m)).
  assert (inorder t = [set_high (range_high x) i] ++ x :: l) as Ht.
  { subst t. by rewrite (rb_update_spec _ [] i (x :: l)). }
  assert (NoDup (addrs (inorder t))) as Hndt by (rewrite Ht; by rewrite Hl in Hnd).
  assert (inorder (rb_erase (node_addr x) t) = set_high (range_high x) i :: l) as He.
  { by rewrite (rb_erase_spec _ _ _ _ Ht Hndt). }
  rewrite Hl in *. cbn in Hr. destruct Hr as (?&?&?&?&?&?&Hr).
  split_and!; [split|..]; cbn; rewrite ?He; try done.
  - cbn. repeat split; done || lia.
  - rewrite !in_ranges_cons in *. unfold in_range in *. cbn. intuition lia.
  - cbn in Hnd |- *. apply NoDup_cons in Hnd as [Hni [_ Hnd]%NoDup_cons].
    apply NoDup_cons. set_solver.
  - rewrite Hnum. cbn. rewrite wrap_small; [lia|].
    pose proof (length_le_total 2 _ _ _ ltac:(lia) Hr).
    pose proof (total_size_upper 2 (range_high x + 2) (2 ^ 31 - 2) l
      ltac:(lia) ltac:(lia) ltac:(lia) Hr). lia.
  - intros b. rewrite Hl, !in_ranges_cons. unfold in_range. cbn. intuition lia.
  - unfold map_nodes. cbn. rewrite ?He, Hl. cbn. solve_Permutation.
Qed.

Lemma alloc_left_spec m i l :
  imap_ok m → inodes_of m = i :: l → range_high i + 1 ≤ 2 ^ 31 - 2 →
  (∀ x, head l = Some x → range_high i + 1 < range_low x - 1) →
  ino_taken m (range_high i + 1)
    (imap_set_tree (rb_update (node_addr i) (set_high (range_high i + 1))
       (inode_inuse_tree m)) m) [].
Proof.
  intros Hm Hl Hmax Hgap. pose proof Hm as [Hr Hz Hnd Hfst Hnum].
  assert (inorder (rb_update (node_addr i) (set_high (range_high i + 1))
            (inode_inuse_tree m)) = set_high (range_high i + 1) i :: l) as Ht.
  { by rewrite (rb_update_spec _ [] i l). }
  rewrite Hl in *. cbn in Hr. destruct Hr as (?&?&?&Hr).
  split_and!; [split|..]; cbn; rewrite ?Ht; try done.
  - cbn. repeat split; try lia. eapply ranges_from_above; [done|].
    intros x Hx. specialize (Hgap x Hx). lia.
  - rewrite !in_ranges_cons in *. unfold in_range in *. cbn. intuition lia.
  - intros b. rewrite Hl, !in_ranges_cons. unfold in_range. cbn. intuition lia.
  - unfold map_nodes. cbn. rewrite ?Ht, Hl. cbn. by rewrite app_nil_r.
Qed.

(** The counters of a map play no role. *)
Lemma ino_taken_counted m n m' nodes :
  ino_taken m n m' nodes → ino_taken m n (imap_inc_allocated m') nodes.
Proof. intros ([]&?&?). split_and!; [by split|done|done]. Qed.

Lemma alloc_world w cpuid m n m' nodes w1 :
  balloc_ok w → imaps_ok (w_sbi w) → 0 ≤ cpuid < cpus (w_sbi w) →
  inode_maps (w_sbi w) !! Z.to_nat cpuid = Some m → ino_taken m n m' nodes →
  imap_replaced (w_sbi w) (w_sbi w1) cpuid m' →
  w_live w1 = w_live w ∖ list_to_set nodes →
  balloc_ok w1 ∧ imaps_ok (w_sbi w1) ∧
  (∀ b, block_free (w_sbi w1) b ↔ block_free (w_sbi w) b) ∧
  (∀ c k, 0 ≤ c → inuse (w_sbi w1) c k ↔ inuse (w_sbi w) c k ∨ c = cpuid ∧ k = n).
Proof.
  intros Hok Hims Hc Hm (Hm'&Hset&Hp) Hrep Hlive.
  destruct (balloc_ok_imap w w1 cpuid m m' [] nodes) as [Hok1 Hbf]; try done.
  - constructor.
  - set_solver.
  - rewrite Hlive. set_solver.
  - split_and!; try done; [by eapply imaps_ok_put|].
    intros c k Hc'. rewrite (inuse_put _ _ cpuid m') by done.
    case_decide as Hd; [|naive_solver]. subst. rewrite Hset.
    unfold inuse. rewrite Hm. naive_solver.
Qed.

Lemma bind_get_imap {B} (k : inode_map → M B) w c m :
  inode_maps (w_sbi w) !! Z.to_nat c = Some m → (get_imap c ≫= k) w = k m w.
Proof. intros Hm. unfold get_imap. run. rewrite Hm. by run. Qed.

(** Number [n] of CPU [cpuid], the lowest unused one, is now in use. *)
Definition ino_allocated (w w' : world) (cpuid n : Z) : Prop :=
  0 < n ≤ 2 ^ 31 - 2 ∧ ¬ inuse (w_sbi w) cpuid n ∧
  (∀ k, 0 ≤ k < n → inuse (w_sbi w) cpuid k) ∧
  (∀ c k, 0 ≤ c → inuse (w_sbi w') c k ↔ inuse (w_sbi w) c k ∨ c = cpuid ∧ k = n) ∧
  balloc_ok w' ∧ imaps_ok (w_sbi w') ∧
  (∀ b, block_free (w_sbi w') b ↔ block_free (w_sbi w) b) ∧
  same_geometry (w_sbi w) (w_sbi w') ∧ w_nvmm w' = w_nvmm w ∧
  map_id (w_sbi w') = map_id (w_sbi w).

(** The common end of the successful branches. *)
Lemma alloc_finish w w0 cpuid m i l m' nodes :
  balloc_ok w → imaps_ok (w_sbi w) → 0 ≤ cpuid < cpus (w_sbi w) →
  inode_maps (w_sbi w) !! Z.to_nat cpuid = Some m → inodes_of m = i :: l →
  ino_taken m (range_high i + 1) m' nodes → range_high i + 1 ≤ 2 ^ 31 - 2 →
  w_sbi w0 = w_sbi w → w_live w0 = w_live w ∖ list_to_set nodes → w_nvmm w0 = w_nvmm w →
  ∃ w', (s ← get_sbi; add_used_count 1 ;; update_imap cpuid (imap_inc_allocated m') ;;
         mret (inr (u64 ((range_high i + 1) * cpus s + cpuid)))) w0
        = Done (inr ((range_high i + 1) * cpus (w_sbi w) + cpuid) : Z + Z, w') ∧
    ino_allocated w w' cpuid (range_high i + 1).
Proof.
  intros Hok Hims Hc Hm Hl Htk%ino_taken_counted Hmax Es El En.
  pose proof (ims_cpus _ Hims) as Hcpus. unfold SHARED_CPU in Hcpus.
  destruct (imap_head m (ims_ok _ Hims _ _ Hm)) as (i'&l'&Hl'&Hlow&Hhi0&_&Hrest).
  rewrite Hl in Hl'. injection Hl' as <- <-.
  unfold add_used_count, update_imap. run. rewrite Es.
  rewrite (wrap_small 64 (_ * _ + _)) by nia. eexists. split; [reflexivity|].
  set (w1 := set_sbi _ _).
  assert (imap_replaced (w_sbi w) (w_sbi w1) cpuid (imap_inc_allocated m')) as Hrep.
  { subst w1. cbn. rewrite ?Es. by repeat split. }
  destruct (alloc_world w cpuid m _ _ _ w1 Hok Hims Hc Hm Htk Hrep El)
    as (Hok'&Hims'&Hbf&Hin).
  assert (∀ k, inuse (w_sbi w) cpuid k ↔ in_ranges k (i :: l)) as Huse.
  { intros k. unfold inuse. rewrite Hm, <- Hl. naive_solver. }
  split_and!; try lia; try done.
  - rewrite Huse, in_ranges_cons. unfold in_range.
    intros [?|Hb%(in_ranges_bounds 2 _ _ _ _ ltac:(lia) Hrest)]; lia.
  - intros k Hk. rewrite Huse, in_ranges_cons. unfold in_range. lia.
Qed.

Lemma alloc_unused_run w cpuid :
  balloc_ok w → imaps_ok (w_sbi w) → 0 ≤ cpuid < cpus (w_sbi w) →
  (nova_alloc_unused_inode cpuid w = Done (inl (- ENOSPC), w) ∧
   ∀ k, 0 ≤ k ≤ 2 ^ 31 - 2 → inuse (w_sbi w) cpuid k) ∨
  (∃ n w', nova_alloc_unused_inode cpuid w
       = Done (inr (n * cpus (w_sbi w) + cpuid), w') ∧ ino_allocated w w' cpuid n).
Proof.
  intros Hok Hims Hc. destruct (imap_lookup _ _ Hims Hc) as (m&Hm&Hmok).
  destruct (imap_head m Hmok) as (i&l&Hl&Hlow&Hhi0&Hhi&Hrest).
  pose proof Hmok as [_ _ Hnd Hfst _]. rewrite Hl in Hfst. cbn in Hfst.
  unfold nova_alloc_unused_inode. rewrite (bind_get_imap _ _ _ _ Hm).
  rewrite Hfst. run. rewrite (rb_deref_spec _ [] i l Hl Hnd). run.
  rewrite (rb_next_spec _ [] i l Hl Hnd). cbv zeta.
  rewrite (wrap_small 64 (range_high i + 1)) by lia.
  assert (∀ w0, w_live w0 = w_live w0 ∖ list_to_set []) as Hl0 by set_solver.
  destruct l as [|x l]; cbn [head].
  - change MAX_INODE with (2 ^ 31). rewrite wrap_small by lia. case_decide.
    + right. run. exists (range_high i + 1).
      eapply (alloc_finish w w cpuid m i [] _ []); try done; [|lia].
      apply (alloc_left_spec m i []); [done|done|lia|done].
    + left. split; [done|]. intros k Hk. exists m. rewrite Hl, in_ranges_cons.
      split; [done|]. left. unfold in_range. lia.
  - pose proof Hrest as (?&?&?&_). rewrite wrap_small by lia.
    right. exists (range_high i + 1). case_decide.
    + run. eapply (alloc_finish w _ cpuid m i (x :: l) _ [node_addr x]); try done;
        [|lia|cbn; set_solver]. by apply (alloc_gap_spec m i x l).
    + rewrite decide_True by lia. run.
      eapply (alloc_finish w w cpuid m i (x :: l) _ []); try done; [|lia].
      apply (alloc_left_spec m i (x :: l)); [done|done|lia|].
      intros y [= <-]. lia.
Qed.

(** C18. Allocating an inode number of a CPU: the result is the lowest number
    of that CPU not in use, exactly it becomes in use, and the block
    allocator is untouched; [-ENOSPC] only when all numbers are in use. *)
Theorem nova_alloc_unused_inode_spec w cpuid :
  balloc_ok w → imaps_ok (w_sbi w) → 0 ≤ cpuid < cpus (w_sbi w) →
  (nova_alloc_unused_inode cpuid w = Done (inl (- ENOSPC), w) ∧
   ∀ k, 0 ≤ k ≤ 2 ^ 31 - 2 → inuse (w_sbi w) cpuid k) ∨
  (∃ n w', nova_alloc_unused_inode cpuid w
       = Done (inr (n * cpus (w_sbi w) + cpuid), w') ∧
     0 < n ≤ 2 ^ 31 - 2 ∧ ¬ inuse (w_sbi w) cpuid n ∧
     (∀ k, 0 ≤ k < n → inuse (w_sbi w) cpuid k) ∧
     (∀ c k, 0 ≤ c → inuse (w_sbi w') c k ↔ inuse (w_sbi w) c k ∨ c = cpuid ∧ k = n) ∧
     balloc_ok w' ∧ imaps_ok (w_sbi w') ∧
     (∀ b, block_free (w_sbi w') b ↔ block_free (w_sbi w) b) ∧
     same_geometry (w_sbi w) (w_sbi w') ∧ w_nvmm w' = w_nvmm w ∧
     map_id (w_sbi w') = map_id (w_sbi w)).
Proof. exact (alloc_unused_run w cpuid). Qed.

(** ** Freeing a number *)

(** What freeing [n] in map [m] gives: [X] taken from and [nodes] given back to
    the slab cache. *)
Definition ino_dropped (m : inode_map) (n : Z) (m' : inode_map) (X nodes : list Z)
    : Prop :=
  imap_ok m' ∧
  (∀ b, in_ranges b (inodes_of m') ↔ in_ranges b (inodes_of m) ∧ b ≠ n) ∧
  X ++ map_nodes m ≡ₚ map_nodes m' ++ nodes.

(** The parts every case shares, with the new list of ranges [l']. *)
Lemma ino_dropped_intro m n m' X nodes l1 i l2 l' :
  imap_ok m → inodes_of m = l1 ++ i :: l2 → in_range n i → 0 < n →
  inodes_of m' = l' → ranges_from 2 0 (2 ^ 31 - 2) l' → NoDup (addrs l') →
  first_inode_range m' = node_addr <$> head l' →
  num_range_node_inode m' = Z.of_nat (length l') →
  (∀ b, in_ranges b l' ↔ in_ranges b l1 ∨ in_range b i ∧ b ≠ n ∨ in_ranges b l2) →
  X ++ map_nodes m ≡ₚ addrs l' ++ nodes →
  ino_dropped m n m' X nodes.
Proof.
  intros [Hr Hz _ _ _] Hl Hin Hn Hl' Hr' Hnd' Hfst' Hnum' Hset Hp.
  rewrite Hl in Hr. apply ranges_from_mid in Hr as (H1'&_&_&_&H2'); [|lia].
  assert (∀ b, in_ranges b l' ↔ in_ranges b (inodes_of m) ∧ b ≠ n) as Hset'.
  { intros b. rewrite Hset, Hl, in_ranges_app, in_ranges_cons. unfold in_range in *.
    pose proof (in_ranges_bounds 2 _ _ l1 b ltac:(lia) H1').
    pose proof (in_ranges_bounds 2 _ _ l2 b ltac:(lia) H2'). intuition lia. }
  split_and!.
  - split; rewrite ?Hl'; try done. apply Hset'. split; [done|lia].
  - intros b. by rewrite Hl'.
  - unfold map_nodes at 2. by rewrite Hl'.
Qed.

Section cases.
Context (m : inode_map) (n : Z) (l1 : list nova_range_node) (i : nova_range_node)
  (l2 : list nova_range_node).
Context (Hm : imap_ok m) (Hl : inodes_of m = l1 ++ i :: l2) (Hn : 0 < n).

Lemma mid_ranges :
  ranges_from 2 0 (range_low i - 2) l1 ∧ 0 ≤ range_low i ∧
  range_low i ≤ range_high i ∧ range_high i ≤ 2 ^ 31 - 2 ∧
  ranges_from 2 (range_high i + 2) (2 ^ 31 - 2) l2.
Proof using Hl Hm.
  destruct Hm as [Hr _ _ _ _]. rewrite Hl in Hr. by apply ranges_from_mid in Hr; [|lia].
Qed.

Lemma mid_num : num_range_node_inode m = Z.of_nat (length l1) + 1 + Z.of_nat (length l2)
  ∧ num_range_node_inode m < 2 ^ 32.
Proof using Hl Hm.
  destruct Hm as [Hr _ _ _ ->].
  pose proof (length_le_total 2 _ _ _ ltac:(lia) Hr).
  pose proof (total_size_upper 2 0 (2 ^ 31 - 2) _ ltac:(lia) ltac:(lia) ltac:(lia) Hr).
  rewrite Hl, length_app in *. cbn in *. lia.
Qed.

Lemma free_whole_spec :
  n = range_low i → n = range_high i →
  ino_dropped m n
    (imap_set_num (u64 (num_range_node_inode m - 1))
       (imap_set_tree (rb_erase (node_addr i) (inode_inuse_tree m)) m)) [] [node_addr i].
Proof.
  intros Hlo Hhi. destruct mid_ranges as (Hr1&?&?&?&Hr2). destruct mid_num as [Hnum ?].
  pose proof Hm as [_ Hz Hnd Hfst _].
  apply (ino_dropped_intro m n _ [] [node_addr i] l1 i l2 (l1 ++ l2));
    try done; try (unfold in_range; lia).
  - cbn. by apply rb_erase_spec.
  - destruct l2 as [|c l3]; rewrite ?app_nil_r; [eapply ranges_from_weaken; [done|lia..]|].
    cbn in Hr2. apply ranges_from_mid; [lia|]. split_and!; try lia; [|tauto].
    eapply ranges_from_weaken; [done|lia..].
  - rewrite Hl, fmap_app, fmap_cons, <- Permutation_middle in Hnd.
    apply NoDup_cons in Hnd as [_ Hnd]. by rewrite fmap_app.
  - cbn. rewrite Hfst, Hl. destruct l1; [|done]. exfalso.
    rewrite Hl in Hz. apply in_ranges_cons in Hz as [?|Hz]; [unfold in_range in *; lia|].
    pose proof (in_ranges_bounds 2 _ _ l2 0 ltac:(lia) Hr2 Hz). lia.
  - cbn. rewrite length_app. unwrap; lia.
  - intros b. rewrite in_ranges_app. unfold in_range. intuition lia.
  - unfold map_nodes. rewrite Hl, !fmap_app, fmap_cons. cbn. solve_Permutation.
Qed.

(** Shrinking range [i] to [i'], which keeps its object. *)
Lemma free_shrink_spec f :
  node_addr (f i) = node_addr i →
  range_low i ≤ range_low (f i) ∧ range_low (f i) ≤ range_high (f i) ∧
    range_high (f i) ≤ range_high i →
  in_range n i → (∀ b, in_range b (f i) ↔ in_range b i ∧ b ≠ n) →
  ino_dropped m n (imap_set_tree (rb_update (node_addr i) f (inode_inuse_tree m)) m) [] [].
Proof.
  intros Ha Hb Hin Hset. destruct mid_ranges as (Hr1&?&?&?&Hr2).
  destruct mid_num as [Hnum _]. pose proof Hm as [_ _ Hnd Hfst _].
  apply (ino_dropped_intro m n _ [] [] l1 i l2 (l1 ++ f i :: l2)); try done.
  - cbn. by apply rb_update_spec.
  - apply ranges_from_mid; [lia|]. split_and!; try lia;
      eapply ranges_from_weaken; (done || lia).
  - rewrite Hl in Hnd. by rewrite fmap_app, fmap_cons in *; rewrite Ha.
  - cbn. rewrite Hfst, Hl. destruct l1; cbn; [by rewrite Ha|done].
  - cbn. rewrite length_app. cbn. lia.
  - intros b. rewrite in_ranges_app, in_ranges_cons, Hset. tauto.
  - unfold map_nodes. rewrite Hl, !fmap_app, !fmap_cons, Ha, app_nil_r. done.
Qed.

(** Splitting range [i] around [n], with the new node [p] above it. *)
Lemma free_middle_spec p :
  range_low i < n < range_high i → p ∉ map_nodes m →
  let t := rb_update (node_addr i) (set_high (n - 1)) (inode_inuse_tree m) in
  ∃ t2, nova_insert_range_node t (RangeNode p (n + 1) (range_high i)) = (0, t2) ∧
    ino_dropped m n
      (imap_set_num (u64 (num_range_node_inode m + 1)) (imap_set_tree t2 m)) [p] [].
Proof.
  intros Hb Hp t. destruct mid_ranges as (Hr1&?&?&?&Hr2).
  destruct mid_num as [Hnum ?]. pose proof Hm as [_ _ Hnd Hfst _].
  assert (inorder t = (l1 ++ [set_high (n - 1) i]) ++ l2) as Ht.
  { subst t. rewrite (rb_update_spec _ l1 i l2) by done. by rewrite <- app_assoc. }
  assert (ranges_from 2 0 (2 ^ 31 - 2) (inorder t)) as Hrt.
  { rewrite Ht, <- app_assoc. apply ranges_from_mid; [lia|]. cbn.
    split_and!; try lia; [done|]. eapply ranges_from_weaken; [done|lia..]. }
  assert (split_at (n + 1) (l1 ++ [set_high (n - 1) i]) l2) as Hsp.
  { split.
    - apply Forall_app. split; [|apply Forall_singleton; cbn; lia].
      apply Forall_forall. intros k Hk.
      pose proof (ranges_from_in 2 _ _ _ k ltac:(lia) Hr1 Hk). lia.
    - apply Forall_forall. intros k Hk.
      pose proof (ranges_from_in 2 _ _ _ k ltac:(lia) Hr2 Hk). lia. }
  destruct (insert_range_node_spec 2 0 (2 ^ 31 - 2) t
              (RangeNode p (n + 1) (range_high i)) ltac:(lia) Hrt)
    as [[_ Hin]|(A&B&t2&Hins&HAB&Hsp2&Ht2)].
  { exfalso. apply (split_at_not_in _ _ _ Hsp). rewrite <- Ht. exact Hin. }
  exists t2. split; [done|].
  destruct (split_at_unique (n + 1) (l1 ++ [set_high (n - 1) i]) l2 A B) as [<- <-];
    [|done|done|congruence|].
  { intros k Hk. rewrite <- Ht in Hk.
    pose proof (ranges_from_in 2 _ _ _ k ltac:(lia) Hrt Hk). lia. }
  rewrite <- app_assoc in Ht2. cbn in Ht2.
  eapply (ino_dropped_intro m n _ [p] [] l1 i l2 _ Hm Hl);
    [unfold in_range; lia|done|exact Ht2|..].
  - apply ranges_from_mid; [lia|]. cbn. split_and!; try lia; [done|].
    eapply ranges_from_weaken; [done|lia..].
  - unfold map_nodes in Hp. rewrite Hl in Hnd, Hp. rewrite !fmap_app, !fmap_cons in *. cbn.
    rewrite (Permutation_swap p), <- Permutation_middle.
    apply NoDup_cons. set_solver.
  - cbn. rewrite Hfst, Hl. by destruct l1.
  - cbn. rewrite length_app. cbn. unwrap; lia.
  - intros b. rewrite in_ranges_app, !in_ranges_cons. unfold in_range. cbn. intuition lia.
  - unfold map_nodes. rewrite Hl, !fmap_app, !fmap_cons. cbn. solve_Permutation.
Qed.
End cases.

(** The number [n] of CPU [cpuid] is no longer in use; nothing else changed. *)
Definition ino_freed (w w' : world) (cpuid n : Z) : Prop :=
  balloc_ok w' ∧ imaps_ok (w_sbi w') ∧
  (∀ c k, 0 ≤ c → inuse (w_sbi w') c k ↔ inuse (w_sbi w) c k ∧ ¬ (c = cpuid ∧ k = n)) ∧
  (∀ b, block_free (w_sbi w') b ↔ block_free (w_sbi w) b) ∧
  same_geometry (w_sbi w) (w_sbi w') ∧ w_nvmm w' = w_nvmm w.

Lemma free_finish w w0 cpuid m n m' X nodes :
  balloc_ok w → imaps_ok (w_sbi w) → 0 ≤ cpuid < cpus (w_sbi w) →
  inode_maps (w_sbi w) !! Z.to_nat cpuid = Some m → ino_dropped m n m' X nodes →
  NoDup X → (∀ p, p ∈ X → p ∉ w_live w) →
  (∃ m0, imap_replaced (w_sbi w) (w_sbi w0) cpuid m0) →
  (∀ p, p ∈ w_live w0 ↔ (p ∈ X ∨ p ∈ w_live w) ∧ p ∉ nodes) → w_nvmm w0 = w_nvmm w →
  ∃ w', inode_freed cpuid m' w0 = Done (0, w') ∧ ino_freed w w' cpuid n.
Proof.
  intros Hok Hims Hc Hm (Hm'&Hset&Hp) HX HXl [m0 (Hg&E1&E2&E3)] Hlv Hnv.
  unfold inode_freed, add_used_count, update_imap. run. eexists. split; [reflexivity|].
  set (w1 := set_sbi _ _).
  assert (imap_replaced (w_sbi w) (w_sbi w1) cpuid (imap_inc_freed m')) as Hrep.
  { split_and!; cbn; try done. by rewrite E3, list_insert_insert_eq. }
  destruct (balloc_ok_imap w w1 cpuid m (imap_inc_freed m') X nodes) as [Hok1 Hbf];
    try done.
  assert (imap_ok (imap_inc_freed m')) as Hmok by (destruct Hm'; by split).
  split_and!; try done; [by eapply imaps_ok_put|].
  intros c k Hc'. rewrite (inuse_put _ _ cpuid _ c k Hims Hrep Hc Hc').
  case_decide as Hd; [|naive_solver]. subst.
  change (inodes_of (imap_inc_freed m')) with (inodes_of m'). rewrite Hset.
  unfold inuse. rewrite Hm. naive_solver.
Qed.

Lemma imap_replaced_refl s c m :
  inode_maps s !! Z.to_nat c = Some m → imap_replaced s s c m.
Proof. intros Hm. split_and!; try done. by rewrite list_insert_id. Qed.

(** [ino_freed] in terms of inode numbers, for the outcome [o] of a call. *)
Lemma ino_freed_number w ino o :
  imaps_ok (w_sbi w) → 0 ≤ ino →
  (∃ w', o = Done (0, w') ∧
     ino_freed w w' (ino mod cpus (w_sbi w)) (ino / cpus (w_sbi w))) →
  ∃ w', o = Done (0, w') ∧ balloc_ok w' ∧ imaps_ok (w_sbi w') ∧
    (∀ x, 0 ≤ x → ino_inuse (w_sbi w') x ↔ ino_inuse (w_sbi w) x ∧ x ≠ ino) ∧
    (∀ b, block_free (w_sbi w') b ↔ block_free (w_sbi w) b).
Proof.
  intros Hims Hino (w'&->&Hok'&Hims'&Hset&Hbf&(Ec&_)&_). exists w'.
  pose proof (ims_cpus _ Hims) as Hcpus. split_and!; try done.
  intros x Hx. unfold ino_inuse. rewrite Ec.
  pose proof (Z.mod_pos_bound x (cpus (w_sbi w)) ltac:(lia)).
  rewrite Hset by lia. split; intros [Hu Hne]; (split; [done|]).
  - intros ->. by apply Hne.
  - intros [Em Ed]. apply Hne.
    rewrite (Z.div_mod x (cpus (w_sbi w))), (Z.div_mod ino (cpus (w_sbi w))) by lia.
    by rewrite Em, Ed.
Qed.

(** C19. Freeing an inode number (not one of the first of each CPU).  A number
    not in use is refused and nothing changes; otherwise the call returns 0
    and exactly that number stops being in use.  The exception: a number
    strictly inside a range needs a new node, and when the slab cache has
    none the call still returns 0 and counts the number as freed although it
    stays in use. *)
Theorem nova_free_inuse_inode_spec w ino :
  let c := ino mod cpus (w_sbi w) in
  let n := ino / cpus (w_sbi w) in
  balloc_ok w → imaps_ok (w_sbi w) → 0 ≤ ino → 0 < n →
  (¬ ino_inuse (w_sbi w) ino →
   nova_free_inuse_inode ino w = Done (- EINVAL, w)) ∧
  (ino_inuse (w_sbi w) ino →
   (∃ w', nova_free_inuse_inode ino w = Done (0, w') ∧
      balloc_ok w' ∧ imaps_ok (w_sbi w') ∧
      (∀ x, 0 ≤ x → ino_inuse (w_sbi w') x ↔ ino_inuse (w_sbi w) x ∧ x ≠ ino) ∧
      (∀ b, block_free (w_sbi w') b ↔ block_free (w_sbi w) b)) ∨
   (kmem_cache_alloc (w_tick w) (w_live w) = None ∧
    inuse (w_sbi w) c (n - 1) ∧ inuse (w_sbi w) c (n + 1) ∧
    ∃ w', nova_free_inuse_inode ino w = Done (0, w') ∧
      (∀ x, ino_inuse (w_sbi w') x ↔ ino_inuse (w_sbi w) x) ∧
      s_inodes_used_count (w_sbi w') = u64 (s_inodes_used_count (w_sbi w) - 1))).
Proof.
  intros c n Hok Hims Hino Hn. pose proof (ims_cpus _ Hims) as Hcpus.
  pose proof (Z.mod_pos_bound ino (cpus (w_sbi w)) ltac:(lia)) as Hc. fold c in Hc.
  destruct (imap_lookup _ c Hims Hc) as (m&Hm&Hmok).
  unfold nova_free_inuse_inode. run. rewrite !decide_False by lia. cbv zeta.
  fold c n. rewrite (bind_get_imap _ _ _ _ Hm).
  unfold nova_search_inodetree. run. rewrite decide_False by lia. fold c n. run.
  rewrite (bind_get_imap _ _ _ _ Hm). run.
  pose proof (im_ranges _ Hmok) as Hr. unfold nova_find_range_node.
  destruct (find_from_spec 2 0 (2 ^ 31 - 2) (inode_inuse_tree m) None n ltac:(lia) Hr)
    as [(i&->&Hi&Hin)|(A&B&res&->&HAB&Hsp&_)]; cycle 1.
  { split; [done|]. intros (m2&Hm2&Hin). fold c in Hm2. rewrite Hm in Hm2.
    injection Hm2 as <-. exfalso. apply (split_at_not_in _ _ _ Hsp).
    by rewrite <- HAB. }
  assert (ino_inuse (w_sbi w) ino) as Huse.
  { exists m. split; [done|]. apply Exists_exists. eauto. }
  split; [done|]. intros _. apply list_elem_of_split in Hi as (l1&l2&Hl).
  pose proof (mid_ranges m l1 i l2 Hmok Hl) as (_&Hlo0&_&Hhi0&_).
  pose proof (imap_replaced_refl _ _ _ Hm) as Hrefl. unfold in_range in Hin.
  rewrite (wrap_small 64 (n + 1)), (wrap_small 64 (n - 1)) by lia.
  destruct (decide (n = range_low i ∧ n = range_high i)) as [[??]|Hd1];
    [left|destruct (decide (n = range_low i ∧ n < range_high i)) as [[??]|Hd2];
    [left|destruct (decide (range_low i < n ∧ n = range_high i)) as [[??]|Hd3];
    [left|rewrite decide_True by lia]]].
  - run. apply (ino_freed_number w ino); try done.
    pose proof (free_whole_spec m n l1 i l2 Hmok Hl Hn ltac:(done) ltac:(done)) as Hdrop.
    eapply (free_finish w _ c m n _ _ _ Hok Hims Hc Hm Hdrop); eauto using NoDup_nil_2;
      cbn; set_solver.
  - run. apply (ino_freed_number w ino); try done.
    assert (ino_dropped m n (imap_set_tree (rb_update (node_addr i) (set_low (n + 1))
              (inode_inuse_tree m)) m) [] []) as Hdrop.
    { apply (free_shrink_spec m n l1 i l2); try done; unfold in_range; cbn; intros; lia. }
    eapply (free_finish w _ c m n _ _ _ Hok Hims Hc Hm Hdrop); eauto using NoDup_nil_2;
      set_solver.
  - run. apply (ino_freed_number w ino); try done.
    assert (ino_dropped m n (imap_set_tree (rb_update (node_addr i) (set_high (n - 1))
              (inode_inuse_tree m)) m) [] []) as Hdrop.
    { apply (free_shrink_spec m n l1 i l2); try done; unfold in_range; cbn; intros; lia. }
    eapply (free_finish w _ c m n _ _ _ Hok Hims Hc Hm Hdrop); eauto using NoDup_nil_2;
      set_solver.
  - run. destruct (kmem_cache_alloc (w_tick w) (w_live w)) as [p|] eqn:Hal.
    + left. apply kmem_cache_alloc_fresh in Hal as [Hfresh _].
      apply (ino_freed_number w ino); try done.
      assert (p ∉ map_nodes m) as Hp.
      { intros Hp. apply Hfresh, (bo_live w Hok). eapply map_nodes_all; eauto. }
      destruct (free_middle_spec m n l1 i l2 Hmok Hl Hn p ltac:(lia) Hp) as (t2&Hins&Hdrop).
      unfold update_imap, nova_insert_inodetree. run.
      rewrite (bind_get_imap _ _ c (imap_set_tree (rb_update (node_addr i)
        (set_high (n - 1)) (inode_inuse_tree m)) m)); [|cbn; apply list_lookup_insert_eq; by eapply lookup_lt_Some].
      cbn [inode_inuse_tree imap_set_tree]. rewrite Hins.
      unfold update_imap. run. rewrite decide_False by lia.
      rewrite (bind_get_imap _ _ c (imap_set_tree t2 m));
        [|cbn; rewrite list_insert_insert_eq; apply list_lookup_insert_eq;
          by eapply lookup_lt_Some].
      eapply (free_finish w _ c m n _ _ _ Hok Hims Hc Hm Hdrop);
        [apply NoDup_singleton|set_solver| |cbn; set_solver|done].
      exists (imap_set_tree t2 m). split_and!; try done.
      cbn. by rewrite list_insert_insert_eq.
    + right. split; [done|].
      assert (∀ k, range_low i ≤ k ≤ range_high i → inuse (w_sbi w) c k) as Hrange.
      { intros k Hk. exists m. split; [done|]. rewrite Hl, in_ranges_app, in_ranges_cons.
        unfold in_range. auto. }
      split; [apply Hrange; lia|]. split; [apply Hrange; lia|].
      unfold inode_freed, add_used_count, update_imap. run.
      eexists. split; [reflexivity|]. split; [|done]. intros x.
      unfold ino_inuse, inuse. cbn.
      destruct (decide (Z.to_nat (x mod cpus (w_sbi w)) = Z.to_nat c)) as [->|Hne].
      * rewrite list_lookup_insert_eq, Hm by (by eapply lookup_lt_Some). naive_solver.
      * by rewrite list_lookup_insert_ne.
Qed.
End laws.

(** ** Inode slots *)

(** The superpages of a table, linked by the pointer in their last 8 bytes. *)
Fixpoint chain (m : mem) (curr : Z) (pages : list Z) : Prop :=
  match pages with
  | [] => curr = 0
  | p :: pages => curr = p ∧ 0 < p < 2 ^ 56 ∧ chain m (ld 8 m (p + 2097144)) pages
  end.

Lemma chain_head_nonzero m curr pages : chain m curr pages → pages ≠ [] → curr ≠ 0.
Proof. destruct pages; [done|]. cbn. lia. Qed.

Lemma chain_bound m curr pages k q :
  chain m curr pages → pages !! k = Some q → 0 < q < 2 ^ 56.
Proof.
  revert curr k. induction pages as [|p pages IH]; intros curr [|k]; cbn; try done.
  - intros (_&?&_) [= <-]. done.
  - intros (_&_&?). by eapply IH.
Qed.

(** The inode tables [T c] of all CPUs: non-empty, and no two superpages
    overlap; the table inode is of type 2M. *)
Record tables_ok (w : world) (T : Z → list Z) : Prop := {
  tb_cpus : 0 < cpus (w_sbi w) ≤ 64;
  tb_type : ld 1 (vis (w_nvmm w)) (nova_get_basic_inode NOVA_INODETABLE_INO
              + nova_inode.i_blk_type) = NOVA_BLOCK_TYPE_2M;
  tb_chain c : 0 ≤ c < cpus (w_sbi w) → T c ≠ [] ∧
    chain (vis (w_nvmm w)) (ld 8 (vis (w_nvmm w)) (8192 + c * 64)) (T c);
  tb_apart c i p c' j q : T c !! i = Some p → T c' !! j = Some q →
    c = c' ∧ i = j ∨ p + 2097152 ≤ q ∨ q + 2097152 ≤ p
}.

(** The superpage and the slot of an inode number. *)
Definition slot_page (s : nova_sb_info) (T : Z → list Z) (ino : Z) : option Z :=
  T (ino mod cpus s) !! Z.to_nat (ino / cpus s / 16384).
Definition slot_offset (s : nova_sb_info) (ino : Z) : Z :=
  (ino / cpus s) mod 16384 * 128.

Section slots.
Context `{RbTree} `{Env}.

Lemma walk_existing w pi k : ∀ curr pages q extendable,
  chain (vis (w_nvmm w)) curr pages → pages !! k = Some q →
  walk_superpages k pi curr extendable w = Done (inr q, w).
Proof.
  induction k as [|k IH]; intros curr [|p pages] q ext Hch Hq; try done.
  - cbn in *. destruct Hch as [-> _]. by injection Hq as ->.
  - cbn in Hq. cbn [chain] in Hch. destruct Hch as (->&Hp&Hch).
    cbn [walk_superpages]. rewrite decide_False, bind_block_ptr by lia. run. cbv zeta.
    replace (p + 2097152 - 8) with (p + 2097144) by lia.
    rewrite decide_False; [by eapply IH|].
    apply (chain_head_nonzero _ _ _ Hch). by destruct pages.
Qed.

Lemma walk_too_short w pi k : ∀ curr pages,
  chain (vis (w_nvmm w)) curr pages → pages ≠ [] → (length pages ≤ k)%nat →
  walk_superpages k pi curr false w = Done (inl (- EINVAL), w).
Proof.
  induction k as [|k IH]; intros curr [|p pages] Hch Hne Hk; try done.
  { cbn in Hk. lia. }
  cbn [chain] in Hch. destruct Hch as (->&Hp&Hch).
  cbn [walk_superpages]. rewrite decide_False, bind_block_ptr by lia. run. cbv zeta.
  replace (p + 2097152 - 8) with (p + 2097144) by lia.
  destruct pages as [|p2 pages].
  - cbn in Hch. by rewrite Hch, decide_True.
  - rewrite decide_False by (by apply (chain_head_nonzero _ _ _ Hch)).
    apply (IH _ (p2 :: pages)); [done|done|]. cbn in *. lia.
Qed.

Lemma get_inode_address_run w T ino extendable q :
  tables_ok w T → 0 ≤ ino < 2 ^ 46 → slot_page (w_sbi w) T ino = Some q →
  nova_get_inode_address ino extendable w
  = Done (inr (q + slot_offset (w_sbi w) ino), w).
Proof.
  intros [Hc Hty Hch _] Hino Hq. unfold nova_get_inode_address.
  change (nova_get_inode_by_ino NOVA_INODETABLE_INO)
    with (Some (nova_get_basic_inode NOVA_INODETABLE_INO)). run.
  rewrite Hty. change ([12; 21; 30] !! Z.to_nat NOVA_BLOCK_TYPE_2M) with (Some 21). run.
  rewrite decide_False by lia. unfold nova_get_inode_table.
  pose proof (Z.mod_pos_bound ino (cpus (w_sbi w)) ltac:(lia)) as Hm.
  rewrite decide_False by lia. run. change (NOVA_DEF_BLOCK_SIZE_4K * 2) with 8192.
  unfold CACHELINE_SIZE. cbv zeta.
  destruct (Hch _ Hm) as [Hne Hch'].
  rewrite decide_False by (by apply (chain_head_nonzero _ _ _ Hch')).
  change (21 - NOVA_INODE_BITS) with 14. rewrite Z.shiftr_div_pow2 by lia.
  change (Z.shiftl 1 14) with (2 ^ 14). rewrite land_low_mask by lia.
  change (2 ^ 14) with 16384.
  assert (0 ≤ ino / cpus (w_sbi w) < 2 ^ 46) as Hn.
  { split; [apply Z.div_pos; lia|]. apply Z.div_lt_upper_bound; nia. }
  assert (0 ≤ ino / cpus (w_sbi w) / 16384 < 2 ^ 32) as Hn2.
  { split; [apply Z.div_pos; lia|]. apply Z.div_lt_upper_bound; lia. }
  pose proof (Z.mod_pos_bound (ino / cpus (w_sbi w)) 16384 ltac:(lia)).
  rewrite (wrap_small 32 (_ / 16384)), (wrap_small 32 (_ mod 16384)) by lia.
  rewrite (bind_run _ _ _ _ _ (walk_existing _ _ _ _ _ _ _ Hch' Hq)).
  pose proof (chain_bound _ _ _ _ _ Hch' Hq).
  unfold slot_offset, NOVA_INODE_SIZE. rewrite (wrap_small 32), (wrap_small 64) by lia.
  done.
Qed.

(** The address of an inode that is within its CPU's table is slot
    [ino / cpus mod 16384] of superpage [ino / cpus / 16384], whether the
    table may be extended or not; nothing changes.  Beyond the table, without
    permission to extend it, the call fails with [-EINVAL]. *)
Theorem nova_get_inode_address_spec w T ino :
  tables_ok w T → 0 ≤ ino < 2 ^ 46 →
  match slot_page (w_sbi w) T ino with
  | Some q => ∀ extendable, nova_get_inode_address ino extendable w
                = Done (inr (q + slot_offset (w_sbi w) ino), w)
  | None => nova_get_inode_address ino false w = Done (inl (- EINVAL), w)
  end.
Proof.
  intros HT Hino. destruct (slot_page (w_sbi w) T ino) as [q|] eqn:Hq.
  { intros ext. by apply get_inode_address_run with T. }
  destruct HT as [Hc Hty Hch _]. unfold nova_get_inode_address.
  change (nova_get_inode_by_ino NOVA_INODETABLE_INO)
    with (Some (nova_get_basic_inode NOVA_INODETABLE_INO)). run.
  rewrite Hty. change ([12; 21; 30] !! Z.to_nat NOVA_BLOCK_TYPE_2M) with (Some 21). run.
  rewrite decide_False by lia. unfold nova_get_inode_table.
  pose proof (Z.mod_pos_bound ino (cpus (w_sbi w)) ltac:(lia)) as Hm.
  rewrite decide_False by lia. run. change (NOVA_DEF_BLOCK_SIZE_4K * 2) with 8192.
  unfold CACHELINE_SIZE. cbv zeta. destruct (Hch _ Hm) as [Hne Hch'].
  rewrite decide_False by (by apply (chain_head_nonzero _ _ _ Hch')).
  change (21 - NOVA_INODE_BITS) with 14. rewrite Z.shiftr_div_pow2 by lia.
  change (2 ^ 14) with 16384.
  assert (0 ≤ ino / cpus (w_sbi w) < 2 ^ 46).
  { split; [apply Z.div_pos; lia|]. apply Z.div_lt_upper_bound; nia. }
  assert (0 ≤ ino / cpus (w_sbi w) / 16384 < 2 ^ 32).
  { split; [apply Z.div_pos; lia|]. apply Z.div_lt_upper_bound; lia. }
  rewrite (wrap_small 32 (_ / 16384)) by lia.
  apply lookup_ge_None in Hq.
  by rewrite (bind_run _ _ _ _ _ (walk_too_short _ _ _ _ _ Hch' Hne Hq)).
Qed.

(** Slots of different inode numbers are disjoint, and the part of a slot
    that holds fields stays clear of the link in the last 8 bytes of the
    superpage. *)
Theorem inode_slots_disjoint w T ino ino' a a' w1 w1' :
  tables_ok w T → 0 ≤ ino < 2 ^ 46 → 0 ≤ ino' < 2 ^ 46 → ino ≠ ino' →
  nova_get_inode_address ino false w = Done (inr a, w1) →
  nova_get_inode_address ino' false w = Done (inr a', w1') →
  slot_page (w_sbi w) T ino ≠ None → slot_page (w_sbi w) T ino' ≠ None →
  (a + NOVA_INODE_SIZE ≤ a' ∨ a' + NOVA_INODE_SIZE ≤ a) ∧
  ∃ q, slot_page (w_sbi w) T ino = Some q ∧
    q ≤ a ∧ a + nova_inode.sizeof ≤ q + 2097152 - 8.
Proof.
  intros HT Hino Hino' Hne Ha Ha' Hq Hq'.
  destruct (slot_page (w_sbi w) T ino) as [q|] eqn:Eq; [clear Hq|done].
  destruct (slot_page (w_sbi w) T ino') as [q'|] eqn:Eq'; [clear Hq'|done].
  rewrite (get_inode_address_run w T ino false q) in Ha by done.
  rewrite (get_inode_address_run w T ino' false q') in Ha' by done.
  injection Ha as <- _. injection Ha' as <- _.
  pose proof (tb_apart _ _ HT _ _ _ _ _ _ Eq Eq') as Hap. pose proof (tb_cpus _ _ HT) as Hc.
  unfold slot_page, slot_offset, NOVA_INODE_SIZE, nova_inode.sizeof in *.
  set (n := ino / cpus (w_sbi w)) in *. set (n' := ino' / cpus (w_sbi w)) in *.
  pose proof (Z.mod_pos_bound n 16384 ltac:(lia)).
  pose proof (Z.mod_pos_bound n' 16384 ltac:(lia)).
  split; [|exists q; split; [done|lia]].
  destruct Hap as [[Ec Ei]|Hap]; [|lia].
  assert (q = q') as -> by (rewrite Ec, Ei, Eq' in Eq; congruence).
  assert (n mod 16384 ≠ n' mod 16384); [|lia]. intros Em. apply Hne.
  assert (0 ≤ n) by (apply Z.div_pos; lia). assert (0 ≤ n') by (apply Z.div_pos; lia).
  pose proof (Z.div_pos n 16384 ltac:(lia) ltac:(lia)).
  pose proof (Z.div_pos n' 16384 ltac:(lia) ltac:(lia)).
  assert (n / 16384 = n' / 16384) as Ed by lia.
  rewrite (Z.div_mod ino (cpus (w_sbi w))), (Z.div_mod ino' (cpus (w_sbi w))) by lia.
  fold n n'. rewrite Ec, (Z.div_mod n 16384), (Z.div_mod n' 16384), Em, Ed by lia. done.
Qed.
End slots.

(** ** A new inode *)
Section new_inode.
Context `{RbTreeLaws} `{EnvLaws}.

Lemma balloc_ok_set_map_id w n : balloc_ok w → balloc_ok (set_sbi (set_map_id n (w_sbi w)) w).
Proof.
  intros [[] Hl ? ?]. split; cbn; done.
Qed.

(** Creating an inode takes the next CPU in turn, gives it the lowest
    unused number of that CPU, and returns the slot of that number: the
    number was not in use and is now.  (Here the slot is within the table
    already; the call fails with 0 when all numbers are in use.) *)
Theorem nova_new_nova_inode_spec w T :
  balloc_ok w → imaps_ok (w_sbi w) → tables_ok w T →
  0 ≤ map_id (w_sbi w) < cpus (w_sbi w) →
  (∀ n, 0 ≤ n ≤ 2 ^ 31 - 2 → ¬ inuse (w_sbi w) (map_id (w_sbi w)) n →
     (∀ k, 0 ≤ k < n → inuse (w_sbi w) (map_id (w_sbi w)) k) →
     slot_page (w_sbi w) T (n * cpus (w_sbi w) + map_id (w_sbi w)) ≠ None) →
  ∃ r w', nova_new_nova_inode w = Done (r, w') ∧
    balloc_ok w' ∧ imaps_ok (w_sbi w') ∧ w_nvmm w' = w_nvmm w ∧
    map_id (w_sbi w') = (map_id (w_sbi w) + 1) mod cpus (w_sbi w) ∧
    match r with
    | (ino, Some a) =>
        ¬ ino_inuse (w_sbi w) ino ∧ ino_inuse (w_sbi w') ino ∧
        ino mod cpus (w_sbi w) = map_id (w_sbi w) ∧
        ∃ q, slot_page (w_sbi w) T ino = Some q ∧ a = q + slot_offset (w_sbi w) ino
    | (ino, None) =>
        ino = 0 ∧ ∀ k, 0 ≤ k ≤ 2 ^ 31 - 2 → inuse (w_sbi w) (map_id (w_sbi w)) k
    end.
Proof.
  intros Hok Hims HT Hid Hslot. pose proof (tb_cpus _ _ HT) as Hc.
  unfold nova_new_nova_inode. run. rewrite decide_False by lia. cbv zeta.
  rewrite s32_small, (wrap_small 64) by lia. run.
  set (w0 := set_sbi _ w).
  assert (balloc_ok w0) as Hok0 by (by apply balloc_ok_set_map_id).
  assert (imaps_ok (w_sbi w0)) as Hims0 by (destruct Hims; by split).
  destruct (alloc_unused_run w0 (map_id (w_sbi w)) Hok0 Hims0 Hid)
    as [[Hrun Hfull]|(n&w1&Hrun&Hn&Hnot&Hlow&Hset&Hok1&Hims1&_&(Ec&_)&Hnv&Hmid)].
  - rewrite (bind_run _ _ _ _ _ Hrun). eexists _, _. split; [reflexivity|]. done.
  - rewrite (bind_run _ _ _ _ _ Hrun).
    change (cpus (w_sbi w0)) with (cpus (w_sbi w)) in *.
    change (inuse (w_sbi w0)) with (inuse (w_sbi w)) in *.
    set (ino := n * cpus (w_sbi w) + map_id (w_sbi w)) in *.
    assert (ino mod cpus (w_sbi w) = map_id (w_sbi w) ∧ ino / cpus (w_sbi w) = n) as [Em Ed].
    { subst ino. split.
      - rewrite Z.add_comm, Z.mod_add by lia. by apply Z.mod_small.
      - rewrite Z.div_add_l, Z.div_small by lia. lia. }
    destruct (slot_page (w_sbi w) T ino) as [q|] eqn:Hq;
      [|by exfalso; apply (Hslot n); [lia|done|done|]].
    assert (tables_ok w1 T) as HT1.
    { destruct HT as [? ? ? ?]. split; rewrite ?Ec, ?Hnv; done. }
    assert (slot_page (w_sbi w1) T ino = Some q) as Hq1
      by (unfold slot_page in *; by rewrite Ec).
    rewrite (bind_run _ _ _ _ _ (get_inode_address_run w1 T ino true q HT1
      ltac:(subst ino; nia) Hq1)).
    eexists _, _. split; [reflexivity|]. split_and!; try done.
    + unfold ino_inuse. by rewrite Em, Ed.
    + unfold ino_inuse. rewrite Ec. cbn [w_sbi w0 set_sbi set_map_id cpus].
      rewrite Em, Ed. apply Hset; [lia|]. by right.
    + exists q. split; [done|]. unfold slot_offset. by rewrite Ec.
Qed.
End new_inode.

(** ** Instances *)
Section instances.
#[local] Existing Instances bst_rb bst_rb_laws env1 env1_laws.

(** The sample device with the reserved inode numbers and a superpage of
    inodes per CPU. *)
Definition imap0 (p : Z) : inode_map :=
  InodeMap (RbNode RbNil (RangeNode p 0 7) RbNil) 1 (Some p) 0 0.
Definition imem : mem :=
  st_bytes (st_bytes (st_bytes ∅ 1155 [1]) 8192 (le_split 8 (2 ^ 22)))
    8256 (le_split 8 (2 ^ 23)).
Definition iworld : world :=
  World (nvmm_boot imem)
    (SbInfo 21 (21 * 4096) 16 3 2 0 10 [imap0 300; imap0 301] small_lists
       (FreeList RbNil None 20 20 0 0 zero_stats) zero_mount_info)
    {[100; 101; 200; 300; 301]} 0 ∅ [].
Definition itables (c : Z) : list Z :=
  if decide (c = 0) then [2 ^ 22] else if decide (c = 1) then [2 ^ 23] else [].

Lemma iworld_ok : balloc_ok iworld.
Proof.
  split.
  - split; cbn; done || lia.
  - intros c Hc. assert (c = 0 ∨ c = 1 ∨ 2 ≤ c) as [->|[->|Hge]] by lia.
    + by split; repeat constructor; cbn; try lia; try set_solver.
    + by split; repeat constructor; cbn; try lia; try set_solver.
    + unfold nova_get_free_list. cbn.
      rewrite !decide_False by lia. by split; repeat constructor; cbn.
  - intros c c' b. by apply concrete_disjoint; vm_compute.
  - by apply (bool_decide_unpack _).
  - intros p Hp. cbn in *. set_solver.
Qed.

Lemma imap0_ok p : imap_ok (imap0 p).
Proof.
  split; cbn; try done; [|apply NoDup_singleton].
  apply in_ranges_cons. left. by split.
Qed.

Lemma iworld_imaps : imaps_ok (w_sbi iworld).
Proof.
  split; try done. intros [|[|i]] m [= <-]; apply imap0_ok.
Qed.

Lemma iworld_tables : tables_ok iworld itables.
Proof.
  split; try done.
  - intros c Hc. cbn in Hc. assert (c = 0 ∨ c = 1) as [->| ->] by lia;
      (split; [done|]); cbn [itables]; repeat split; by vm_compute.
  - intros c i p c' j q. unfold itables. repeat case_decide; subst;
      destruct i as [|i], j as [|j]; intros [= <-] [= <-]; auto; lia.
Qed.

Lemma nova_alloc_unused_inode_spec_witness :
  ∃ w', nova_alloc_unused_inode 1 iworld = Done (inr 17, w') ∧ balloc_ok w'.
Proof.
  destruct (nova_alloc_unused_inode_spec iworld 1 iworld_ok iworld_imaps ltac:(done))
    as [[Hno _]|(n&w'&Hrun&_&_&_&_&Hok&_)].
  - by vm_compute in Hno.
  - exists w'. split; [|done]. rewrite Hrun. do 2 f_equal.
    vm_compute in Hrun. by injection Hrun as ->.
Defined.

Lemma nova_free_inuse_inode_spec_witness :
  ∃ w', nova_free_inuse_inode 9 iworld = Done (0, w') ∧
    (∀ x, 0 ≤ x → ino_inuse (w_sbi w') x ↔ ino_inuse (w_sbi iworld) x ∧ x ≠ 9).
Proof.
  destruct (nova_free_inuse_inode_spec iworld 9 iworld_ok iworld_imaps)
    as [_ Hin]; [done|done|].
  destruct Hin as [(w'&Hrun&_&_&Hset&_)|(Hno&_)].
  - exists (imap0 301). split; [done|]. apply in_ranges_cons. left. by split.
  - exists w'. split; [exact Hrun|exact Hset].
  - done.
Defined.

Lemma nova_get_inode_address_spec_witness :
  nova_get_inode_address 21 false iworld = Done (inr (2 ^ 23 + 10 * 128), iworld).
Proof.
  exact (nova_get_inode_address_spec iworld itables 21 iworld_tables ltac:(lia) false).
Defined.

Lemma inode_slots_disjoint_witness :
  2 ^ 23 + 10 * 128 + NOVA_INODE_SIZE ≤ 2 ^ 23 + 11 * 128 ∨
  2 ^ 23 + 11 * 128 + NOVA_INODE_SIZE ≤ 2 ^ 23 + 10 * 128.
Proof.
  apply (inode_slots_disjoint iworld itables 21 23 (2 ^ 23 + 10 * 128) (2 ^ 23 + 11 * 128)
    iworld iworld iworld_tables); try lia; try done; by vm_compute.
Defined.

Lemma nova_new_nova_inode_spec_witness :
  ∃ r w', nova_new_nova_inode iworld = Done (r, w') ∧ balloc_ok w' ∧
    map_id (w_sbi w') = 1.
Proof.
  destruct (nova_new_nova_inode_spec iworld itables iworld_ok iworld_imaps iworld_tables)
    as (r&w'&Hrun&Hok&_&_&Hid&_); [done| |].
  - intros n Hn Hnot Hlow. change (map_id (w_sbi iworld)) with 0 in *.
    change (cpus (w_sbi iworld)) with 2. rewrite Z.add_0_r.
    destruct (decide (n = 8)) as [->|]; [by vm_compute|].
    exfalso. assert (n < 8 ∨ 8 < n) as [?|?] by lia.
    + apply Hnot. exists (imap0 300). split; [done|]. apply in_ranges_cons. left.
      split; cbn; lia.
    + destruct (Hlow 8 ltac:(lia)) as (m&[= <-]&Hm).
      apply in_ranges_cons in Hm as [Hm|Hm]; [|by apply in_ranges_nil in Hm].
      unfold in_range in Hm. cbn in Hm. lia.
  - exists r, w'. split; [exact Hrun|]. split; [exact Hok|exact Hid].
Defined.
End instances.
