(* ===== verification/Log.v ===== *)
(** * Inode logs (inode.c, nova.h)

    The log of an inode is a chain of 4K pages; the last 32 bytes of a page
    hold the offset of the next one.  Entries are appended at [log_tail];
    when the chain is full it is extended, which first collects the pages
    whose entries are all dead ([nova_inode_log_fast_gc]) and, when little
    is alive, copies the live entries to a new chain
    ([nova_inode_log_thorough_gc]). *)
From S2P Require Import Prelude Nvmm RangeTree Layout World Balloc.

(** ** The in-core inode *)
Definition sih_set_tree (t : gmap Z Z) (s : nova_inode_info_header) :=
  Sih t (cache_tree s) (sih_mode s) (log_pages s) (sih_size s) (sih_ino s) (pi_addr s)
    (mmap_pages s) (low_dirty s) (high_dirty s) (valid_bytes s) (last_setattr s)
    (last_link_change s).
Definition sih_set_log_pages (n : Z) (s : nova_inode_info_header) :=
  Sih (tree s) (cache_tree s) (sih_mode s) n (sih_size s) (sih_ino s) (pi_addr s)
    (mmap_pages s) (low_dirty s) (high_dirty s) (valid_bytes s) (last_setattr s)
    (last_link_change s).
Definition sih_set_valid_bytes (n : Z) (s : nova_inode_info_header) :=
  Sih (tree s) (cache_tree s) (sih_mode s) (log_pages s) (sih_size s) (sih_ino s)
    (pi_addr s) (mmap_pages s) (low_dirty s) (high_dirty s) n (last_setattr s)
    (last_link_change s).
Definition sih_set_last_setattr (p : Z) (s : nova_inode_info_header) :=
  Sih (tree s) (cache_tree s) (sih_mode s) (log_pages s) (sih_size s) (sih_ino s)
    (pi_addr s) (mmap_pages s) (low_dirty s) (high_dirty s) (valid_bytes s) p
    (last_link_change s).
Definition sih_set_last_link_change (p : Z) (s : nova_inode_info_header) :=
  Sih (tree s) (cache_tree s) (sih_mode s) (log_pages s) (sih_size s) (sih_ino s)
    (pi_addr s) (mmap_pages s) (low_dirty s) (high_dirty s) (valid_bytes s)
    (last_setattr s) p.

(** [h] is the address of the [struct nova_inode_info]. *)
Definition get_inode (h : Z) : M nova_inode_info :=
  r ← gets (λ w, w_inodes w !! h); deref r.
Definition put_inode (h : Z) (i : nova_inode_info) : M () :=
  modify (λ w, set_inodes (<[h := i]> (w_inodes w)) w).
Definition get_sih (h : Z) : M nova_inode_info_header :=
  i ← get_inode h; mret (header i).
Definition update_sih (h : Z) (f : nova_inode_info_header → nova_inode_info_header)
  : M () :=
  i ← get_inode h; put_inode h (InodeInfo (f (header i)) (vfs i)).

(** ** Pages of a log (nova.h) *)

(** Setting [log_tail] after everything before is persistent. *)
Definition nova_update_tail (pi new_tail : Z) : M () :=
  barrier ;;
  store 8 (pi + nova_inode.log_tail) new_tail ;;
  flush_buffer (pi + nova_inode.log_tail) CACHELINE_SIZE true.

Definition nova_get_entry_type (p : option Z) : M Z := a ← deref p; load 1 a.

(** The address of [page_tail.next_page] of the page at [p]. *)
Definition next_field (p : Z) : Z := p + LAST_ENTRY + nova_inode_page_tail.next_page.

Definition next_log_page (curr_p : Z) : M Z :=
  a ← block_ptr curr_p;
  load 8 (next_field (BLOCK_OFF a)).

Definition nova_set_next_page_address (curr_page : option Z) (next_page : Z)
    (fence : bool) : M () :=
  p ← deref curr_page;
  store 8 (next_field p) next_page ;;
  flush_buffer (p + LAST_ENTRY) nova_inode_page_tail.sizeof false ;;
  when fence barrier.

Definition goto_next_page (curr_p : Z) : M bool :=
  if decide (ENTRY_LOC curr_p + 32 > LAST_ENTRY) then mret true
  else
    type ← nova_get_entry_type (nova_get_block curr_p);
    mret (bool_decide (type = NEXT_PAGE)).

Section log.
Context `{RbTree} `{Env}.

(** ** Allocating and freeing pages *)

(** The loop of [nova_free_contiguous_log_blocks]; returns [start_blocknr],
    [num_free] and [freed] after it. *)
Fixpoint free_log_loop (fuel : nat) (btype curr_block start_blocknr num_free freed : Z)
  : M (Z * Z * Z) :=
  match fuel with
  | O => stop HFuel
  | S fuel =>
    if decide (curr_block = 0 ∨ Z.land curr_block INVALID_MASK ≠ 0)
    then mret (start_blocknr, num_free, freed)
    else
      curr_page ← block_ptr curr_block;
      let blocknr := nova_get_blocknr curr_block in
      next ← load 8 (next_field curr_page);
      if decide (start_blocknr = 0) then
        free_log_loop fuel btype next blocknr 1 freed
      else if decide (blocknr = u64 (start_blocknr + num_free)) then
        free_log_loop fuel btype next start_blocknr (s32 (num_free + 1)) freed
      else
        _ ← nova_free_log_blocks btype start_blocknr num_free;
        free_log_loop fuel btype next blocknr 1 (s32 (freed + num_free))
  end.

(** A chain without a cycle has at most [num_blocks] pages. *)
Definition nova_free_contiguous_log_blocks (pi head : Z) : M Z :=
  btype ← load 1 (pi + nova_inode.i_blk_type);
  s ← get_sbi;
  r ← free_log_loop (S (Z.to_nat (num_blocks s))) btype head 0 0 0;
  match r with
  | (start_blocknr, num_free, freed) =>
      if decide (start_blocknr ≠ 0) then
        _ ← nova_free_log_blocks btype start_blocknr num_free;
        mret (s32 (freed + num_free))
      else mret freed
  end.

(** Links the [num_pages] pages from block [first_blocknr], and the page of
    [prev_blocknr] to the first of them. *)
Definition nova_coalesce_log_pages (prev_blocknr first_blocknr num_pages : Z) : M Z :=
  (if decide (prev_blocknr ≠ 0) then
     let curr_block := nova_get_block_off prev_blocknr in
     let curr_page := nova_get_block curr_block in
     nova_set_next_page_address curr_page (nova_get_block_off first_blocknr) false
   else mret ()) ;;
  let curr_block := nova_get_block_off first_blocknr in
  curr_page ← block_ptr curr_block;
  forM (seqZ 0 (u64 (num_pages - 1))) (λ i,
    nova_set_next_page_address (Some (curr_page + 4096 * i))
      (nova_get_block_off (u64 (first_blocknr + 1 + i))) false) ;;
  nova_set_next_page_address (Some (curr_page + 4096 * (u64 (num_pages - 1)))) 0 true ;;
  mret 0.

(** The loop over the remaining pages. *)
Fixpoint allocate_loop (fuel : nat) (btype num_pages prev_blocknr ret_pages : Z) : M Z :=
  match fuel with
  | O => stop HFuel
  | S fuel =>
    if decide (num_pages = 0) then mret ret_pages else
    r ← nova_new_log_blocks btype (u32 num_pages) false;
    match r with
    | (allocated, new_inode_blocknr) =>
      if decide (allocated ≤ 0) then mret ret_pages else
      new_inode_blocknr ← deref new_inode_blocknr;
      _ ← nova_coalesce_log_pages prev_blocknr new_inode_blocknr allocated;
      allocate_loop fuel btype (u64 (num_pages - allocated))
        (u64 (new_inode_blocknr + allocated - 1)) (s32 (ret_pages + allocated))
    end
  end.

(** Returns the number of pages and what is stored through [new_block]. *)
Definition nova_allocate_inode_log_pages (pi num_pages : Z) : M (Z * option Z) :=
  btype ← load 1 (pi + nova_inode.i_blk_type);
  r ← nova_new_log_blocks btype (u32 num_pages) false;
  match r with
  | (allocated, new_inode_blocknr) =>
    if decide (allocated ≤ 0) then mret (allocated, None) else
    first_blocknr ← deref new_inode_blocknr;
    _ ← nova_coalesce_log_pages 0 first_blocknr allocated;
    ret_pages ← allocate_loop (S (Z.to_nat num_pages)) btype
                  (u64 (num_pages - allocated)) (u64 (first_blocknr + allocated - 1))
                  allocated;
    mret (ret_pages, Some (nova_get_block_off first_blocknr))
  end.

(** For thorough GC: one more page behind the page of [curr_p]. *)
Definition nova_append_one_log_page (pi curr_p : Z) : M Z :=
  r ← nova_allocate_inode_log_pages pi 1;
  match r with
  | (allocated, new_block) =>
    if decide (allocated ≠ 1) then mret 0 else
    new_block ← deref new_block;
    if decide (curr_p = 0) then mret new_block else
    let curr_page := nova_get_block (BLOCK_OFF curr_p) in
    nova_set_next_page_address curr_page new_block true ;;
    mret curr_p
  end.

(** ** Dead entries *)

(** Marks that the rest of the page holds no entries. *)
Definition nova_set_next_page_flag (curr_p : Z) : M () :=
  if decide (LAST_ENTRY ≤ ENTRY_LOC curr_p) then mret ()
  else
    p ← block_ptr curr_p;
    store 1 p NEXT_PAGE ;;
    flush_buffer p CACHELINE_SIZE true.

(** Whether the entry at [curr_p] is dead, and its length. *)
Definition curr_log_entry_invalid (h curr_p : Z) : M (bool * Z) :=
  addr ← block_ptr curr_p;
  type ← load 1 addr;
  sih ← get_sih h;
  if decide (type = SET_ATTR) then
    attr ← load 1 (addr + nova_setattr_logentry.attr);
    mret (negb (bool_decide (last_setattr sih = curr_p ∨ Z.land attr ATTR_SIZE ≠ 0)),
          nova_setattr_logentry.sizeof)
  else if decide (type = LINK_CHANGE) then
    mret (negb (bool_decide (last_link_change sih = curr_p)),
          nova_link_change_entry.sizeof)
  else if decide (type = FILE_WRITE) then
    num ← load 4 (addr + nova_file_write_entry.num_pages);
    invalid ← load 4 (addr + nova_file_write_entry.invalid_pages);
    mret (negb (bool_decide (num ≠ invalid)), nova_file_write_entry.sizeof)
  else if decide (type = DIR_LOG) then
    ino ← load 8 (addr + nova_dentry.ino);
    invalid ← load 1 (addr + nova_dentry.invalid);
    len ← load 2 (addr + nova_dentry.de_len);
    mret (negb (bool_decide (ino ≠ 0 ∧ invalid = 0)), len)
  else (* [NEXT_PAGE] and unknown types *)
    mret (true, PAGE_SIZE - ENTRY_LOC curr_p).

(** The loop of [curr_page_invalid]; [ret] is the result so far. *)
Fixpoint page_invalid_loop (fuel : nat) (h page_head curr_p : Z) (ret : bool) : M bool :=
  match fuel with
  | O => stop HFuel
  | S fuel =>
    if decide (curr_p < u64 (page_head + LAST_ENTRY)) then
      if decide (curr_p = 0) then stop HBug else
      r ← curr_log_entry_invalid h curr_p;
      match r with
      | (invalid, length) =>
        (if invalid then mret ()
         else update_sih h (λ s,
                sih_set_valid_bytes (u64 (valid_bytes s + length)) s)) ;;
        page_invalid_loop fuel h page_head (u64 (curr_p + length)) (ret && invalid)
      end
    else mret ret
  end.

(** Every entry has at least one byte, unless a directory entry says 0. *)
Definition curr_page_invalid (h page_head : Z) : M bool :=
  page_invalid_loop (S (Z.to_nat LAST_ENTRY)) h page_head page_head true.

Definition free_curr_page (pi : Z) (curr_page last_page : option Z) (curr_head : Z)
  : M () :=
  btype ← load 1 (pi + nova_inode.i_blk_type);
  p ← deref curr_page;
  next ← load 8 (next_field p);
  nova_set_next_page_address last_page next true ;;
  _ ← nova_free_log_blocks btype (nova_get_blocknr curr_head) 1;
  mret ().

(** ** Moving entries *)

(** In-core pointers to a log entry at [old] become pointers to [new]. *)
Definition replace_slot (index old new : Z) (t : gmap Z Z) : gmap Z Z :=
  if decide (t !! index = Some old) then <[index := new]> t else t.

Definition nova_gc_assign_file_entry (h old_entry new_entry : Z) : M () :=
  start_pgoff ← load 8 (old_entry + nova_file_write_entry.pgoff);
  num ← load 4 (old_entry + nova_file_write_entry.num_pages);
  update_sih h (λ s, sih_set_tree
    (foldl (λ t i, replace_slot (u64 (start_pgoff + i)) old_entry new_entry t)
       (tree s) (seqZ 0 num)) s).

Definition nova_gc_assign_dentry (h old_dentry new_dentry : Z) : M () :=
  name_len ← load 1 (old_dentry + nova_dentry.name_len);
  name ← load_bytes (Z.to_nat name_len) (old_dentry + nova_dentry.name);
  update_sih h (λ s, sih_set_tree
    (replace_slot (BKDRHash name) old_dentry new_dentry (tree s)) s).

Definition nova_gc_assign_new_entry (h curr_p new_curr : Z) : M () :=
  addr ← block_ptr curr_p;
  type ← load 1 addr;
  if decide (type = SET_ATTR) then update_sih h (sih_set_last_setattr new_curr)
  else if decide (type = LINK_CHANGE) then
    update_sih h (sih_set_last_link_change new_curr)
  else if decide (type = FILE_WRITE) then
    new_addr ← block_ptr new_curr;
    nova_gc_assign_file_entry h addr new_addr
  else if decide (type = DIR_LOG) then
    new_addr ← block_ptr new_curr;
    nova_gc_assign_dentry h addr new_addr
  else mret ().

(** ** Finding room for an entry *)

(** [nova_get_append_head]; [grow] is what it does when the log is full:
    [nova_extend_inode_log], or [nova_append_one_log_page] for thorough GC
    (where [sih] is null).  Returns [curr_p] and [*extended]. *)
Definition append_head (grow : Z → M Z) (pi tail size : Z) : M (Z * bool) :=
  curr_p ← (if decide (tail ≠ 0) then mret tail else load 8 (pi + nova_inode.log_tail));
  full ← (if decide (curr_p = 0) then mret true
          else if is_last_entry curr_p size then
            next ← next_log_page curr_p; mret (bool_decide (next = 0))
          else mret false);
  r ← (if (full : bool) then
         (if is_last_entry curr_p size then nova_set_next_page_flag curr_p
          else mret ()) ;;
         curr_p ← grow curr_p; mret (curr_p, true)
       else mret (curr_p, false));
  match r with
  | (curr_p, extended) =>
    if decide (extended = true ∧ curr_p = 0) then mret (0, extended) else
    if is_last_entry curr_p size then
      nova_set_next_page_flag curr_p ;;
      curr_p ← next_log_page curr_p; mret (curr_p, extended)
    else mret (curr_p, extended)
  end.

(** ** Thorough GC *)

(** The loop that copies the live entries; returns [old_curr_p], [new_curr]
    and [blocks] after it. *)
Fixpoint gc_copy_loop (fuel : nat) (pi h curr_p old_curr_p new_curr blocks : Z)
  : M (Z * Z * Z) :=
  match fuel with
  | O => stop HFuel
  | S fuel =>
    log_tail ← load 8 (pi + nova_inode.log_tail);
    if decide (curr_p = log_tail) then mret (old_curr_p, new_curr, blocks) else
    let old_curr_p := curr_p in
    go ← goto_next_page curr_p;
    curr_p ← (if (go : bool) then next_log_page curr_p else mret curr_p);
    if decide (Z.shiftr curr_p PAGE_SHIFT = Z.shiftr log_tail PAGE_SHIFT)
    then mret (old_curr_p, new_curr, blocks) else
    if decide (curr_p = 0) then stop HBug else
    r ← curr_log_entry_invalid h curr_p;
    match r with
    | (true, length) =>
        gc_copy_loop fuel pi h (u64 (curr_p + length)) old_curr_p new_curr blocks
    | (false, length) =>
        r ← append_head (nova_append_one_log_page pi) pi new_curr length;
        match r with
        | (new_curr, extended) =>
          let blocks := if (extended : bool) then u64 (blocks + 1) else blocks in
          dst ← block_ptr new_curr;
          src ← block_ptr curr_p;
          bytes ← load_bytes (Z.to_nat length) src;
          store_bytes_nt dst bytes ;;
          nova_gc_assign_new_entry h curr_p new_curr ;;
          gc_copy_loop fuel pi h (u64 (curr_p + length)) old_curr_p
            (u64 (new_curr + length)) blocks
        end
    end
  end.

(** Steps 1 to 4 behind the loop. *)
Definition gc_switch_log (pi h old_head new_head old_curr_p new_curr blocks
    checked_pages : Z) : M () :=
  log_tail ← load 8 (pi + nova_inode.log_tail);
  let tail_block := BLOCK_OFF log_tail in
  curr_page ← block_ptr (BLOCK_OFF new_curr);
  next ← load 8 (next_field curr_page);
  (if decide (next ≠ 0) then _ ← nova_free_contiguous_log_blocks pi next; mret ()
   else mret ()) ;;
  nova_set_next_page_flag new_curr ;;
  nova_set_next_page_address (Some curr_page) tail_block false ;;
  flush_buffer curr_page PAGE_SIZE false ;;
  store 8 (pi + nova_inode.log_head) new_head ;;
  flush_buffer pi nova_inode.sizeof true ;;
  curr_page ← block_ptr (BLOCK_OFF old_curr_p);
  next ← load 8 (next_field curr_page);
  if decide (next ≠ tail_block) then stop HBug else
  nova_set_next_page_address (Some curr_page) 0 true ;;
  _ ← nova_free_contiguous_log_blocks pi old_head;
  update_sih h (λ s, sih_set_log_pages (u64 (log_pages s + blocks - checked_pages)) s).

(** Each pass of the copy loop moves on by at least one byte of a page. *)
Definition nova_inode_log_thorough_gc (pi h blocks checked_pages : Z) : M () :=
  curr_p ← load 8 (pi + nova_inode.log_head);
  log_tail ← load 8 (pi + nova_inode.log_tail);
  if decide (curr_p = 0 ∧ log_tail = 0) then mret () else
  if decide (Z.shiftr curr_p PAGE_SHIFT = Z.shiftr log_tail PAGE_SHIFT)
  then mret () else
  r ← nova_allocate_inode_log_pages pi blocks;
  match r with
  | (allocated, new_head) =>
    if decide (u64 allocated ≠ blocks) then mret () else
    let new_head := default 0 new_head in
    s ← get_sbi;
    r ← gc_copy_loop (S (Z.to_nat (num_blocks s * 4096))) pi h curr_p curr_p new_head
          blocks;
    match r with
    | (old_curr_p, new_curr, blocks) =>
        gc_switch_log pi h curr_p new_head old_curr_p new_curr blocks checked_pages
    end
  end.

Definition need_thorough_gc (blocks checked_pages : Z) : bool :=
  bool_decide (blocks ≠ 0 ∧ u64 (blocks * 2) < checked_pages).

(** ** Fast GC *)

(** The local variables of its loop. *)
Record fast_gc_state := FastGc {
  gc_possible_head : Z;
  gc_found_head : bool;
  gc_last_page : option Z;
  gc_first_need_free : bool;
  gc_checked_pages : Z;
  gc_freed_pages : Z
}.

(** The body of the loop for the page [curr_page] at [curr], whose entries
    are all dead or not. *)
Definition fast_gc_page (pi curr curr_page : Z) (invalid : bool) (g : fast_gc_state)
  : M fast_gc_state :=
  match g with
  | FastGc possible_head found_head last_page first_need_free checked freed =>
    if invalid then
      log_head ← load 8 (pi + nova_inode.log_head);
      if decide (curr = log_head) then
        mret (FastGc possible_head found_head (Some curr_page) true
                (u64 (checked + 1)) (s32 (freed + 1)))
      else
        free_curr_page pi (Some curr_page) last_page curr ;;
        mret (FastGc possible_head found_head last_page first_need_free
                (u64 (checked + 1)) (s32 (freed + 1)))
    else
      mret (FastGc (if found_head then possible_head else curr) true (Some curr_page)
              first_need_free (u64 (checked + 1)) freed)
  end.

Fixpoint fast_gc_loop (fuel : nat) (pi h curr : Z) (g : fast_gc_state)
  : M fast_gc_state :=
  match fuel with
  | O => stop HFuel
  | S fuel =>
    log_tail ← load 8 (pi + nova_inode.log_tail);
    if decide (Z.shiftr curr PAGE_SHIFT = Z.shiftr log_tail PAGE_SHIFT) then
      mret (FastGc (if gc_found_head g then gc_possible_head g else curr)
              (gc_found_head g) (gc_last_page g) (gc_first_need_free g)
              (gc_checked_pages g) (gc_freed_pages g))
    else
      curr_page ← block_ptr curr;
      next ← load 8 (next_field curr_page);
      invalid ← curr_page_invalid h curr;
      g ← fast_gc_page pi curr curr_page invalid g;
      if decide (next = 0) then mret g else fast_gc_loop fuel pi h next g
  end.

Definition nova_inode_log_fast_gc (pi h curr_tail new_block num_pages : Z) : M () :=
  btype ← load 1 (pi + nova_inode.i_blk_type);
  curr ← load 8 (pi + nova_inode.log_head);
  update_sih h (sih_set_valid_bytes 0) ;;
  s ← get_sbi;
  g ← fast_gc_loop (S (Z.to_nat (num_blocks s))) pi h curr
        (FastGc 0 false None false 0 0);
  let checked_pages := u64 (gc_checked_pages g - gc_freed_pages g) in
  nova_set_next_page_address (nova_get_block (BLOCK_OFF curr_tail)) new_block true ;;
  curr ← load 8 (pi + nova_inode.log_head);
  store 8 (pi + nova_inode.log_head) (gc_possible_head g) ;;
  update_sih h (λ s,
    sih_set_log_pages (u64 (log_pages s + (num_pages - gc_freed_pages g))) s) ;;
  i_blocks ← load 8 (pi + nova_inode.i_blocks);
  store 8 (pi + nova_inode.i_blocks) (u64 (i_blocks + (num_pages - gc_freed_pages g))) ;;
  flush_buffer (pi + nova_inode.log_head) CACHELINE_SIZE true ;;
  (if gc_first_need_free g then
     _ ← nova_free_log_blocks btype (nova_get_blocknr curr) 1; mret ()
   else mret ()) ;;
  sih ← get_sih h;
  let blocks := valid_bytes sih / LAST_ENTRY in
  let blocks := if decide (valid_bytes sih mod LAST_ENTRY ≠ 0) then blocks + 1
                else blocks in
  if need_thorough_gc blocks checked_pages
  then nova_inode_log_thorough_gc pi h blocks checked_pages
  else mret ().

(** ** Appending *)
Definition nova_extend_inode_log (pi h curr_p : Z) : M Z :=
  if decide (curr_p = 0) then
    r ← nova_allocate_inode_log_pages pi 1;
    match r with
    | (allocated, new_block) =>
      if decide (allocated ≠ 1) then mret 0 else
      new_block ← deref new_block;
      store 8 (pi + nova_inode.log_tail) new_block ;;
      flush_buffer (pi + nova_inode.log_tail) CACHELINE_SIZE false ;;
      store 8 (pi + nova_inode.log_head) new_block ;;
      update_sih h (sih_set_log_pages 1) ;;
      i_blocks ← load 8 (pi + nova_inode.i_blocks);
      store 8 (pi + nova_inode.i_blocks) (u64 (i_blocks + 1)) ;;
      flush_buffer (pi + nova_inode.log_head) CACHELINE_SIZE true ;;
      mret new_block
    end
  else
    sih ← get_sih h;
    let num_pages := if decide (EXTEND_THRESHOLD ≤ log_pages sih) then EXTEND_THRESHOLD
                     else log_pages sih in
    r ← nova_allocate_inode_log_pages pi num_pages;
    match r with
    | (allocated, new_block) =>
      if decide (allocated ≤ 0) then mret 0 else
      new_block ← deref new_block;
      nova_inode_log_fast_gc pi h curr_p new_block allocated ;;
      mret new_block
    end.

Definition nova_get_append_head (pi h tail size : Z) : M Z :=
  r ← append_head (nova_extend_inode_log pi h) pi tail size;
  mret (r.1).

(** Appends the bytes [data] of a write entry; [log_tail] is moved later, by
    the caller. *)
Definition nova_append_file_write_entry (pi h : Z) (data : list Z) (tail : Z) : M Z :=
  curr_p ← nova_get_append_head pi h tail nova_file_write_entry.sizeof;
  if decide (curr_p = 0) then mret 0 else
  entry ← block_ptr curr_p;
  store_bytes_nt entry data ;;
  mret curr_p.

Definition nova_free_inode_log (pi : Z) : M () :=
  log_head ← load 8 (pi + nova_inode.log_head);
  log_tail ← load 8 (pi + nova_inode.log_tail);
  if decide (log_head = 0 ∨ log_tail = 0) then mret () else
  store 8 (pi + nova_inode.log_tail) 0 ;;
  store 8 (pi + nova_inode.log_head) 0 ;;
  flush_buffer (pi + nova_inode.log_head) CACHELINE_SIZE false ;;
  _ ← nova_free_contiguous_log_blocks pi log_head;
  mret ().
End log.
