(* ===== verification/LogPages.v ===== *)
(** * Chains of log pages (inode.c)

    Segments of linked pages, in the style of list segments; what allocating
    and freeing chains of pages does. *)
From S2P Require Import Prelude Nvmm RangeTree Layout World Balloc BallocList.
From S2P Require Import BallocProofs Log.

(** The pages of blocks [bs] are linked in this order, from [p] to [q]. *)
Fixpoint log_seg (m : mem) (p q : Z) (bs : list Z) : Prop :=
  match bs with
  | [] => p = q
  | b :: bs => p = b * 4096 ∧ log_seg m (ld 8 m (next_field (b * 4096))) q bs
  end.

Lemma log_seg_app m p q bs cs :
  log_seg m p q (bs ++ cs) ↔ ∃ r, log_seg m p r bs ∧ log_seg m r q cs.
Proof.
  revert p. induction bs as [|b bs IH]; intros p; cbn.
  - naive_solver.
  - rewrite IH. naive_solver.
Qed.

Lemma log_seg_frame m m' p q bs :
  (∀ b, b ∈ bs → ld 8 m' (next_field (b * 4096)) = ld 8 m (next_field (b * 4096))) →
  log_seg m p q bs → log_seg m' p q bs.
Proof.
  revert p. induction bs as [|b bs IH]; intros p Hm; cbn; [done|].
  intros [-> Hs]. split; [done|]. rewrite Hm by set_solver.
  apply IH; [|done]. intros. apply Hm. set_solver.
Qed.

(** The bytes of the links of the pages [bs]. *)
Definition link_byte (bs : list Z) (a : Z) : Prop :=
  ∃ b, b ∈ bs ∧ next_field (b * 4096) ≤ a < next_field (b * 4096) + 8.

Lemma next_field_eq p : next_field p = p + 4088.
Proof. unfold next_field, LAST_ENTRY, nova_inode_page_tail.next_page. lia. Qed.

(** [w'] is [w] with stores to links of the pages [bs] only. *)
Definition links_changed (w w' : world) (bs : list Z) : Prop :=
  only_nvmm w w' ∧
  ∀ a, ¬ link_byte bs a → ld8 (vis (w_nvmm w')) a = ld8 (vis (w_nvmm w)) a.

Lemma only_nvmm_refl w : only_nvmm w w.
Proof. done. Qed.
Lemma only_nvmm_trans w1 w2 w3 : only_nvmm w1 w2 → only_nvmm w2 w3 → only_nvmm w1 w3.
Proof. intros (?&?&?&?) (?&?&?&?). split_and!; congruence. Qed.
#[export] Hint Resolve only_nvmm_refl : nova.

Lemma links_changed_refl w bs : links_changed w w bs.
Proof. done. Qed.

Lemma links_changed_trans w1 w2 w3 bs cs :
  links_changed w1 w2 bs → links_changed w2 w3 cs → links_changed w1 w3 (bs ++ cs).
Proof.
  intros [H1 F1] [H2 F2]. split; [by eapply only_nvmm_trans|].
  intros a Ha. rewrite F2, F1; [done|..]; intros (b&?&?); apply Ha; exists b; set_solver.
Qed.

(** Setting one link. *)
Lemma set_next_run w b next fence :
  0 ≤ next < 2 ^ 64 →
  ∃ w', nova_set_next_page_address (Some (b * 4096)) next fence w = Done ((), w') ∧
    links_changed w w' [b] ∧
    ld 8 (vis (w_nvmm w')) (next_field (b * 4096)) = next.
Proof.
  intros Hn. unfold nova_set_next_page_address. run.
  assert (∀ w1, vis (w_nvmm w1) = st_bytes (vis (w_nvmm w)) (next_field (b * 4096)) (le_split 8 next) →
    only_nvmm w w1 → links_changed w w1 [b] ∧
    ld 8 (vis (w_nvmm w1)) (next_field (b * 4096)) = next) as Hw.
  { intros w1 Hv Ho. rewrite Hv. split; [split; [done|]|].
    - intros a Ha. rewrite Hv. apply ld8_st_bytes_out. rewrite length_le_split.
      destruct (decide (next_field (b * 4096) ≤ a < next_field (b * 4096) + 8));
        [|lia]. exfalso. apply Ha. exists b. set_solver.
    - rewrite ld_st. by apply Z.mod_small. }
  destruct fence; cbn [when]; (eexists; split; [reflexivity|]); by apply Hw.
Qed.

Section pages.
Context `{RbTreeLaws} `{EnvLaws}.

Lemma block_off_small b : 0 ≤ b < 2 ^ 44 → nova_get_block_off b = b * 4096.
Proof.
  intros. unfold nova_get_block_off, PAGE_SHIFT.
  rewrite Z.shiftl_mul_pow2, wrap_small by lia. lia.
Qed.

Lemma get_block_pos b : 0 < b → nova_get_block (b * 4096) = Some (b * 4096).
Proof. intros. unfold nova_get_block. rewrite decide_False by lia. done. Qed.

(** The loop that links [n] further pages behind page [b]. *)
Lemma link_loop n : ∀ w first i,
  0 < first → 0 ≤ i → first + i + Z.of_nat n < 2 ^ 44 →
  ∃ w', forM (seqZ i (Z.of_nat n)) (λ i,
      nova_set_next_page_address (Some (first * 4096 + 4096 * i))
        (nova_get_block_off (u64 (first + 1 + i))) false) w = Done ((), w') ∧
    links_changed w w' (seqZ (first + i) (Z.of_nat n)) ∧
    ∀ b, first + i ≤ b < first + i + Z.of_nat n →
      ld 8 (vis (w_nvmm w')) (next_field (b * 4096)) = (b + 1) * 4096.
Proof.
  induction n as [|n IH]; intros w first i Hf Hi Hb.
  { exists w. split_and!; [done|apply links_changed_refl|lia]. }
  rewrite seqZ_cons by lia. cbn [forM].
  replace (first * 4096 + 4096 * i) with ((first + i) * 4096) by lia.
  rewrite wrap_small, block_off_small by lia.
  destruct (set_next_run w (first + i) ((first + 1 + i) * 4096) false ltac:(lia))
    as (w1&Hr1&Hc1&Hl1).
  rewrite (bind_run _ _ _ _ _ Hr1).
  replace (Z.pred (Z.of_nat (S n))) with (Z.of_nat n) by lia.
  destruct (IH w1 first (Z.succ i) Hf ltac:(lia) ltac:(lia)) as (w2&Hr2&Hc2&Hl2).
  exists w2. split; [exact Hr2|].
  replace (first + Z.succ i) with (Z.succ (first + i)) in * by lia.
  rewrite (seqZ_cons (first + i)) by lia.
  replace (Z.pred (Z.of_nat (S n))) with (Z.of_nat n) by lia.
  split; [by apply (links_changed_trans w w1 w2 [first + i])|].
  intros b Hbr. destruct (decide (b = first + i)) as [->|]; [|apply Hl2; lia].
  etrans; [apply ld_frame|by rewrite Hl1; lia].
  intros x Hx. apply Hc2. rewrite next_field_eq in Hx.
  intros (c&Hc%elem_of_seqZ&Hcx). rewrite next_field_eq in Hcx. lia.
Qed.

(** [n] pages from [first] linked one after the other. *)
Lemma log_seg_seq m n : ∀ first q,
  (∀ b, first ≤ b < first + Z.of_nat n - 1 →
     ld 8 m (next_field (b * 4096)) = (b + 1) * 4096) →
  (n ≠ 0%nat → ld 8 m (next_field ((first + Z.of_nat n - 1) * 4096)) = q) →
  n ≠ 0%nat →
  log_seg m (first * 4096) q (seqZ first (Z.of_nat n)).
Proof.
  induction n as [|n IH]; intros first q Hl Hq Hn; [done|].
  rewrite seqZ_cons by lia. replace (Z.pred (Z.of_nat (S n))) with (Z.of_nat n) by lia.
  cbn. split; [done|]. destruct (decide (n = 0%nat)) as [->|Hn0].
  - cbn. specialize (Hq ltac:(lia)). by rewrite <- Hq; do 2 f_equal; lia.
  - rewrite Hl by lia. replace (first + 1) with (Z.succ first) by lia. apply IH; [..|done].
    + intros. apply Hl. lia.
    + intros _. rewrite <- Hq by lia. do 2 f_equal. lia.
Qed.

Lemma coalesce_run w prev first n :
  0 < first → 1 ≤ n → first + n < 2 ^ 44 → 0 ≤ prev < 2 ^ 44 →
  prev ∉ seqZ first n →
  ∃ w', nova_coalesce_log_pages prev first n w = Done (0, w') ∧
    links_changed w w' ((if decide (prev = 0) then [] else [prev]) ++ seqZ first n) ∧
    log_seg (vis (w_nvmm w')) (first * 4096) 0 (seqZ first n) ∧
    (prev ≠ 0 → ld 8 (vis (w_nvmm w')) (next_field (prev * 4096)) = first * 4096).
Proof.
  intros Hf Hn Hb Hp Hpn. unfold nova_coalesce_log_pages.
  assert (∃ w1, (if decide (prev ≠ 0) then
     nova_set_next_page_address (nova_get_block (nova_get_block_off prev))
       (nova_get_block_off first) false else mret ()) w = Done ((), w1) ∧
     links_changed w w1 (if decide (prev = 0) then [] else [prev]) ∧
     (prev ≠ 0 → ld 8 (vis (w_nvmm w1)) (next_field (prev * 4096)) = first * 4096))
    as (w1&Hr1&Hc1&Hl1).
  { destruct (decide (prev = 0)) as [->|Hp0]; cbn [decide].
    - exists w. rewrite decide_False by tauto. split_and!; [done|apply links_changed_refl|done].
    - rewrite decide_True by done. rewrite !block_off_small, get_block_pos by lia.
      destruct (set_next_run w prev (first * 4096) false ltac:(lia)) as (w1&?&?&?). eauto. }
  rewrite (bind_run _ _ _ _ _ Hr1). cbv zeta. rewrite block_off_small, bind_block_ptr by lia.
  run. rewrite (wrap_small 64 (n - 1)) by lia.
  destruct (link_loop (Z.to_nat (n - 1)) w1 first 0 Hf ltac:(lia) ltac:(lia))
    as (w2&Hr2&Hc2&Hl2). rewrite Z2Nat.id, Z.add_0_r in * by lia.
  rewrite (bind_run _ _ _ _ _ Hr2).
  replace (first * 4096 + 4096 * (n - 1)) with ((first + n - 1) * 4096) by lia.
  destruct (set_next_run w2 (first + n - 1) 0 true ltac:(lia)) as (w3&Hr3&Hc3&Hl3).
  rewrite (bind_run _ _ _ _ _ Hr3). exists w3. split; [done|].
  assert (∀ b, b ≠ first + n - 1 → ld 8 (vis (w_nvmm w3)) (next_field (b * 4096)) =
    ld 8 (vis (w_nvmm w2)) (next_field (b * 4096))) as Hk3.
  { intros b Hbn. apply ld_frame. intros x Hx. apply Hc3.
    intros (c&->%list_elem_of_singleton&Hcx). rewrite next_field_eq in *. lia. }
  split_and!.
  - replace (seqZ first n) with (seqZ first (n - 1) ++ [first + n - 1]).
    { by eapply links_changed_trans; [|by eapply links_changed_trans]. }
    replace n with (n - 1 + 1) at 3 by lia. rewrite seqZ_app by lia.
    f_equal. apply (f_equal (λ x, [x])). lia.
  - replace n with (Z.of_nat (Z.to_nat n)) by lia. apply log_seg_seq; [| |lia].
    + intros b Hbr. rewrite Hk3 by lia. apply Hl2. lia.
    + intros _. replace (first + Z.of_nat (Z.to_nat n) - 1) with (first + n - 1) by lia. done.
  - intros Hp0. rewrite elem_of_seqZ in Hpn. rewrite Hk3 by lia.
    rewrite <- (Hl1 Hp0). apply ld_frame. intros x Hx. apply Hc2.
    intros (c&Hc%elem_of_seqZ&Hcx). rewrite next_field_eq in *. lia.
Qed.

(** ** Allocating *)

(** The blocks [bs] were free and are not any more. *)
Record blocks_gone (w w' : world) (bs : list Z) : Prop := {
  bg_ok : balloc_ok w';
  bg_nodup : NoDup bs;
  bg_free b : b ∈ bs → block_free (w_sbi w) b;
  bg_set b : block_free (w_sbi w') b ↔ block_free (w_sbi w) b ∧ b ∉ bs;
  bg_count : nova_count_free_blocks (w_sbi w') =
             nova_count_free_blocks (w_sbi w) - Z.of_nat (length bs);
  bg_rest : same_rest w w';
  bg_list c b : 0 ≤ c → free_block (nova_get_free_list (w_sbi w') c) b →
                free_block (nova_get_free_list (w_sbi w) c) b;
  bg_nodes : (length (all_nodes (w_sbi w')) ≤ length (all_nodes (w_sbi w)))%nat
}.

Lemma same_rest_trans w1 w2 w3 : same_rest w1 w2 → same_rest w2 w3 → same_rest w1 w3.
Proof.
  intros ((?&?&?&?)&?&?) ((?&?&?&?)&?&?). repeat split; congruence.
Qed.

Lemma blocks_gone_trans w1 w2 w3 bs cs :
  blocks_gone w1 w2 bs → blocks_gone w2 w3 cs → blocks_gone w1 w3 (bs ++ cs).
Proof.
  intros [Hok1 Hn1 Hf1 Hs1 Hc1 Hr1 Hl1 Hz1] [Hok2 Hn2 Hf2 Hs2 Hc2 Hr2 Hl2 Hz2]. split; [done|..].
  - apply NoDup_app. split_and!; [done| |done].
    intros b Hb Hb'. apply Hf2, Hs1 in Hb' as [_ ?]. done.
  - intros b [?|Hb]%elem_of_app; [by auto|]. by apply Hf2, Hs1 in Hb as [? _].
  - intros b. rewrite Hs2, Hs1, elem_of_app. tauto.
  - rewrite Hc2, Hc1, length_app. lia.
  - by eapply same_rest_trans.
  - auto.
  - lia.
Qed.

Lemma blocks_gone_nil w w' :
  balloc_ok w → w_sbi w' = w_sbi w → w_live w' = w_live w → w_inodes w' = w_inodes w →
  blocks_gone w w' [].
Proof.
  intros Hok Es El Ei. split; rewrite ?Es; try done.
  - by eapply balloc_ok_same.
  - constructor.
  - set_solver.
  - set_solver.
  - cbn. lia.
  - split; rewrite ?Es, ?Ei; done.
Qed.

Lemma blocks_gone_seq w w' b k zero :
  blocks_allocated w w' b k zero → 1 ≤ k → blocks_gone w w' (seqZ b k).
Proof.
  intros (Hext&Hok&Hall&Hset&Hcnt&_&Hrest&_&Hlen&_) Hk. split; try done.
  - apply NoDup_seqZ.
  - intros x Hx%elem_of_seqZ. apply Hall. lia.
  - intros x. rewrite (lists_taken _ _ _ _ Hset), elem_of_seqZ. intuition lia.
  - rewrite Hcnt, length_seqZ. lia.
  - intros c x Hc. rewrite (Hset c x Hc). tauto.
Qed.

Lemma last_seqZ b k : 1 ≤ k → last (seqZ b k) = Some (b + k - 1).
Proof.
  intros Hk. replace k with (k - 1 + 1) by lia. rewrite seqZ_app by lia.
  rewrite last_app. cbn. f_equal. lia.
Qed.

Lemma only_nvmm_gone w w' : balloc_ok w → only_nvmm w w' → blocks_gone w w' [].
Proof. intros Hok (?&?&?&?). by apply blocks_gone_nil. Qed.

(** One run of pages: [k] new blocks from [b], linked behind [prev]. *)
Lemma allocate_step w num prev :
  balloc_ok w → num_blocks (w_sbi w) < 2 ^ 31 → 1 ≤ num < 2 ^ 20 →
  0 ≤ prev < 2 ^ 44 → ¬ block_free (w_sbi w) prev →
  (nova_new_log_blocks 0 (u32 num) false w = Done ((- ENOSPC, None), next_tick w)) ∨
  (∃ b k w1 w2, nova_new_log_blocks 0 (u32 num) false w = Done ((k, Some b), w1) ∧
     nova_coalesce_log_pages prev b k w1 = Done (0, w2) ∧
     1 ≤ k ≤ num ∧ 0 < b ∧ b + k < 2 ^ 44 ∧ blocks_gone w w2 (seqZ b k) ∧
     log_seg (vis (w_nvmm w2)) (b * 4096) 0 (seqZ b k) ∧
     (prev ≠ 0 → ld 8 (vis (w_nvmm w2)) (next_field (prev * 4096)) = b * 4096) ∧
     ∀ a, ¬ link_byte ((if decide (prev = 0) then [] else [prev]) ++ seqZ b k) a →
       ld8 (vis (w_nvmm w2)) a = ld8 (vis (w_nvmm w)) a).
Proof.
  intros Hok Hnb Hnum Hp Hpf. rewrite wrap_small by lia. unfold nova_new_log_blocks.
  destruct (new_blocks_4K_run w num false LOG Hok Hnb Hnum)
    as [[Hno _]|(k&b&w1&Hw1&Hk&Hall)]; [by left|right].
  pose proof (blocks_gone_seq _ _ _ _ _ Hall ltac:(lia)) as Hg.
  destruct Hall as ((_&Hlo&Hhi)&_&_&_&_&_&_&Hsame&_).
  destruct (Hsame eq_refl) as [Hmem _].
  pose proof (geo_reserved _ (bo_geometry w Hok)). pose proof (geo_blocks _ (bo_geometry w Hok)).
  destruct (coalesce_run w1 prev b k) as (w2&Hw2&Hc2&Hseg2&Hprev2); try lia.
  { intros Hin. by apply Hpf, (bg_free _ _ _ Hg). }
  exists b, k, w1, w2. split; [exact Hw1|]. split; [exact Hw2|]. split; [lia|].
  split; [lia|]. split; [lia|]. split.
  { rewrite <- (app_nil_r (seqZ b k)). eapply blocks_gone_trans; [exact Hg|].
    apply only_nvmm_gone; [apply Hg|apply Hc2]. }
  split_and!; try done. intros a Ha. rewrite <- Hmem. by apply Hc2.
Qed.

(** The loop: [bs] are the pages so far, [prev] the last of them. *)
Lemma allocate_loop_run fuel : ∀ w num prev ret bs p,
  balloc_ok w → num_blocks (w_sbi w) < 2 ^ 31 → 0 ≤ num < 2 ^ 20 →
  (Z.to_nat num < fuel)%nat → 0 ≤ ret → ret + num < 2 ^ 31 →
  last bs = Some prev → (∀ b, b ∈ bs → ¬ block_free (w_sbi w) b ∧ 0 < b < 2 ^ 44) →
  NoDup bs → log_seg (vis (w_nvmm w)) p 0 bs →
  ∃ cs w', allocate_loop fuel 0 num prev ret w
      = Done (ret + Z.of_nat (length cs), w') ∧
    Z.of_nat (length cs) ≤ num ∧ blocks_gone w w' cs ∧
    log_seg (vis (w_nvmm w')) p 0 (bs ++ cs) ∧
    (∀ a, ¬ link_byte (bs ++ cs) a → ld8 (vis (w_nvmm w')) a = ld8 (vis (w_nvmm w)) a) ∧
    ∀ b, b ∈ cs → 0 < b < 2 ^ 44.
Proof.
  induction fuel as [|fuel IH]; intros w num prev ret bs p Hok Hnb Hnum Hfuel Hret Hsum
    Hlast Hbs Hnd Hseg; [lia|]. cbn [allocate_loop].
  destruct (decide (num = 0)) as [->|Hn0].
  { exists [], w. rewrite app_nil_r. split_and!; try done; [|by apply blocks_gone_nil|set_solver].
    cbn. by rewrite Z.add_0_r. }
  assert (prev ∈ bs) as Hin by (by apply last_Some_elem_of).
  destruct (Hbs prev Hin) as [Hpf Hp].
  destruct (allocate_step w num prev Hok Hnb ltac:(lia) ltac:(lia) Hpf)
    as [Hno|(b&k&w1&w2&Hw1&Hw2&Hk&Hb&Hbk&Hg&Hseg2&Hprev2&Hfr2)].
  { rewrite (bind_run _ _ _ _ _ Hno). cbn. exists [], (next_tick w).
    rewrite app_nil_r. split_and!; try done; [|cbn; lia|by apply blocks_gone_nil|set_solver].
    unfold mret, M_ret. by rewrite Z.add_0_r. }
  rewrite (bind_run _ _ _ _ _ Hw1). cbn [from_option]. rewrite decide_False by lia. run.
  rewrite (bind_run _ _ _ _ _ Hw2).
  rewrite (wrap_small 64 (num - k)), (wrap_small 64 (b + k - 1)), s32_small by lia.
  assert (∀ c, c ∈ bs → c ∉ seqZ b k) as Hdis.
  { intros c Hc Hc'. by apply (bg_free _ _ _ Hg), (Hbs c Hc) in Hc'. }
  rewrite decide_False in Hfr2 by lia.
  assert (log_seg (vis (w_nvmm w2)) p 0 (bs ++ seqZ b k)) as Hseg3.
  { apply last_Some in Hlast as [bs0 ->]. rewrite <- app_assoc.
    apply log_seg_app in Hseg as (r&Hs1&[-> _]). apply log_seg_app. exists (prev * 4096).
    split; [|by cbn; rewrite Hprev2 by lia].
    eapply log_seg_frame; [|done]. intros c Hc. apply ld_frame. intros x Hx. apply Hfr2.
    intros (d&Hd&Hdx). rewrite next_field_eq in *. assert (d = c) as -> by lia.
    apply elem_of_app in Hd as [->%list_elem_of_singleton|Hd].
    - apply NoDup_app in Hnd as (_&Hnd&_). apply (Hnd prev Hc). set_solver.
    - by apply (Hdis c); [set_solver|]. }
  pose proof Hg as [Hok2 _ _ Hset2 _ ((_&_&En&_)&_) _ _].
  destruct (IH w2 (num - k) (b + k - 1) (ret + k) (bs ++ seqZ b k) p)
    as (cs&w'&Hrun&Hlen&Hg'&Hseg'&Hfr'&Hcs); try done; try lia.
  - rewrite last_app, last_seqZ by lia. done.
  - intros c. rewrite elem_of_app, Hset2.
    intros [Hc|Hc]; [destruct (Hbs c Hc); tauto|]. split; [tauto|].
    apply elem_of_seqZ in Hc. lia.
  - apply NoDup_app. split_and!; [done|done|apply NoDup_seqZ].
  - exists (seqZ b k ++ cs), w'. rewrite <- app_assoc in Hseg', Hfr'.
    split; [rewrite Hrun, length_app, length_seqZ; do 2 f_equal; lia|].
    split; [rewrite length_app, length_seqZ; lia|].
    split; [by eapply blocks_gone_trans|]. split; [done|]. split.
    + intros a Ha. rewrite Hfr' by done. apply Hfr2. intros (d&Hd&Hdx). apply Ha.
      exists d. split; [|done]. set_solver.
    + intros c [Hc%elem_of_seqZ|?]%elem_of_app; [lia|auto].
Qed.

Lemma block0_not_free w : balloc_ok w → ¬ block_free (w_sbi w) 0.
Proof.
  intros Hok Hb. apply (block_free_bounds w 0 Hok) in Hb.
  pose proof (geo_reserved _ (bo_geometry w Hok)). lia.
Qed.

Lemma allocate_pages_run w pi num :
  balloc_ok w → num_blocks (w_sbi w) < 2 ^ 31 → 1 ≤ num < 2 ^ 20 →
  ld 1 (vis (w_nvmm w)) (pi + nova_inode.i_blk_type) = NOVA_BLOCK_TYPE_4K →
  nova_allocate_inode_log_pages pi num w = Done ((- ENOSPC, None), next_tick w) ∨
  (∃ b bs w', nova_allocate_inode_log_pages pi num w
      = Done ((Z.of_nat (length (b :: bs)), Some (b * 4096)), w') ∧
     Z.of_nat (length (b :: bs)) ≤ num ∧ blocks_gone w w' (b :: bs) ∧
     log_seg (vis (w_nvmm w')) (b * 4096) 0 (b :: bs) ∧
     (∀ a, ¬ link_byte (b :: bs) a → ld8 (vis (w_nvmm w')) a = ld8 (vis (w_nvmm w)) a) ∧
     ∀ c, c ∈ b :: bs → 0 < c < 2 ^ 44).
Proof.
  intros Hok Hnb Hnum Hbt. unfold nova_allocate_inode_log_pages. run. rewrite Hbt.
  change NOVA_BLOCK_TYPE_4K with 0.
  destruct (allocate_step w num 0 Hok Hnb Hnum ltac:(lia) (block0_not_free w Hok))
    as [Hno|(b&k&w1&w2&Hw1&Hw2&Hk&Hb&Hbk&Hg&Hseg2&_&Hfr2)].
  { left. by rewrite (bind_run _ _ _ _ _ Hno). }
  right. rewrite (bind_run _ _ _ _ _ Hw1). rewrite decide_False by lia. run.
  rewrite (bind_run _ _ _ _ _ Hw2). rewrite decide_True in Hfr2 by done. cbn in Hfr2.
  rewrite (wrap_small 64 (num - k)), (wrap_small 64 (b + k - 1)) by lia.
  pose proof Hg as [Hok2 _ _ Hset2 _ ((_&_&En&_)&_) _ _].
  destruct (allocate_loop_run (S (Z.to_nat num)) w2 (num - k) (b + k - 1) k (seqZ b k)
    (b * 4096)) as (cs&w'&Hrun&Hlen&Hg'&Hseg'&Hfr'&Hcs); try done; try lia.
  - apply last_seqZ. lia.
  - intros c Hc. split; [by rewrite Hset2; tauto|]. apply elem_of_seqZ in Hc. lia.
  - apply NoDup_seqZ.
  - rewrite (bind_run _ _ _ _ _ Hrun), block_off_small by lia.
    assert (seqZ b k ++ cs = b :: seqZ (Z.succ b) (Z.pred k) ++ cs) as Heq
      by (by rewrite (seqZ_cons b) by lia).
    exists b, (seqZ (Z.succ b) (Z.pred k) ++ cs), w'. rewrite <- Heq.
    split; [rewrite length_app, length_seqZ; unfold mret, M_ret; do 3 f_equal; lia|].
    split; [rewrite length_app, length_seqZ; lia|].
    split; [by eapply blocks_gone_trans|]. split; [done|]. split.
    + intros a Ha. rewrite Hfr' by done. apply Hfr2. intros (d&Hd&Hdx). apply Ha.
      exists d. set_solver.
    + intros c [Hc%elem_of_seqZ|?]%elem_of_app; [lia|auto].
Qed.

(** ** Freeing *)

(** [w'] is [w] with blocks of [X] made free: all of them, unless the slab
    cache was exhausted in between. *)
Record blocks_back (w w' : world) (X : list Z) : Prop := {
  bb_ok : balloc_ok w';
  bb_rest : same_rest w w';
  bb_nvmm : w_nvmm w' = w_nvmm w;
  bb_hist : w_hist w' = w_hist w;
  bb_keep b : block_free (w_sbi w) b → block_free (w_sbi w') b;
  bb_set b : block_free (w_sbi w') b → block_free (w_sbi w) b ∨ b ∈ X;
  bb_all : (∀ t live, is_Some (kmem_cache_alloc t live)) →
           ∀ b, b ∈ X → block_free (w_sbi w') b
}.

Lemma blocks_back_trans w1 w2 w3 X Y :
  blocks_back w1 w2 X → blocks_back w2 w3 Y → blocks_back w1 w3 (X ++ Y).
Proof.
  intros [Hok1 Hr1 Hm1 Hh1 Hk1 Hs1 Ha1] [Hok2 Hr2 Hm2 Hh2 Hk2 Hs2 Ha2].
  split; try done; try congruence.
  - by eapply same_rest_trans.
  - auto.
  - intros b [Hb|Hb]%Hs2; [|set_solver]. apply Hs1 in Hb. set_solver.
  - intros Hslab b [Hb|Hb]%elem_of_app; auto.
Qed.

Lemma blocks_back_refl w : balloc_ok w → blocks_back w w [].
Proof. intros Hok. split; try done; set_solver. Qed.

Lemma same_rest_refl w : same_rest w w.
Proof. done. Qed.

Lemma free_log_run w b n :
  balloc_ok w → 1 ≤ n → extent_ok (w_sbi w) b n →
  (∀ x, x ∈ seqZ b n → ¬ block_free (w_sbi w) x) →
  ∃ r w', nova_free_log_blocks 0 b n w = Done (r, w') ∧ blocks_back w w' (seqZ b n).
Proof.
  intros Hok Hn Hext Hfree. pose proof (geo_reserved _ (bo_geometry w Hok)).
  destruct Hext as (_&Hlo&Hhi). unfold nova_free_log_blocks. rewrite decide_False by lia.
  destruct (free_blocks_run w b n 0 true) as [[Hno Hrun]|(w'&Hrun&Hok'&Hset&_&Hm&Hr&Hh&_)];
    change (nova_get_numblocks 0) with 1 in *; rewrite ?Z.mul_1_l in *; try done.
  - intros x Hx. apply Hfree, elem_of_seqZ. lia.
  - eexists _, _. split; [exact Hrun|]. split; try done.
    + by apply (balloc_ok_same w).
    + auto.
    + intros Hslab. destruct (Hslab (w_tick w) (w_live w)). congruence.
  - eexists _, _. split; [exact Hrun|]. split; try done.
    + intros x Hx. apply Hset. by left.
    + intros x. rewrite Hset, elem_of_seqZ. intuition lia.
    + intros _ x Hx%elem_of_seqZ. apply Hset. right. lia.
Qed.

Lemma blocks_back_perm w w' X Y :
  (∀ b, b ∈ X ↔ b ∈ Y) → blocks_back w w' X → blocks_back w w' Y.
Proof.
  intros HXY [Hok Hr Hm Hh Hk Hs Ha]. split; try done.
  - intros b Hb. rewrite <- HXY. auto.
  - intros Hslab b. rewrite <- HXY. auto.
Qed.

(** Blocks of the device that are in use. *)
Definition in_use (s : nova_sb_info) (bs : list Z) : Prop :=
  ∀ b, b ∈ bs → reserved_blocks s ≤ b < num_blocks s ∧ ¬ block_free s b.

Lemma in_use_back w w' X bs :
  blocks_back w w' X → in_use (w_sbi w) bs → (∀ b, b ∈ X → b ∉ bs) →
  in_use (w_sbi w') bs.
Proof.
  intros [_ ((_&_&En&Er)&_) _ _ _ Hs _] Hu Hd b Hb. rewrite En, Er.
  destruct (Hu b Hb) as [? Hf]. split; [done|]. intros [?|Hx]%Hs; [done|].
  by apply (Hd b).
Qed.

Lemma in_use_sub s bs cs : (∀ b, b ∈ cs → b ∈ bs) → in_use s bs → in_use s cs.
Proof. intros Hs Hu b Hb. auto. Qed.

Lemma blocknr_page b : nova_get_blocknr (b * 4096) = b.
Proof.
  unfold nova_get_blocknr, PAGE_SHIFT. rewrite Z.shiftr_div_pow2 by lia.
  by rewrite Z.div_mul by lia.
Qed.

Lemma page_aligned b : Z.land (b * 4096) INVALID_MASK = 0.
Proof. change (ENTRY_LOC (b * 4096) = 0). by rewrite ENTRY_LOC_mod, Z.mod_mul. Qed.

Lemma pending_extent w start k bs :
  1 ≤ k → in_use (w_sbi w) (seqZ start k ++ bs) → balloc_ok w →
  extent_ok (w_sbi w) start k ∧ 0 < start ∧ start + k ≤ num_blocks (w_sbi w) ∧
  ∀ x, x ∈ seqZ start k → ¬ block_free (w_sbi w) x.
Proof.
  intros Hk Hu Hok. pose proof (geo_reserved _ (bo_geometry w Hok)).
  destruct (Hu start) as [? _]; [apply elem_of_app; left; apply elem_of_seqZ; lia|].
  destruct (Hu (start + k - 1)) as [? _];
    [apply elem_of_app; left; apply elem_of_seqZ; lia|].
  split; [split; lia|]. split; [lia|]. split; [lia|].
  intros x Hx. apply (Hu x). set_solver.
Qed.

Lemma seqZ_1 b : seqZ b 1 = [b].
Proof. rewrite seqZ_cons by lia. done. Qed.

(** The loop: the run of [k] blocks from [start] waits to be freed, [bs] are
    the pages ahead. *)
Lemma free_log_loop_run bs : ∀ fuel w p start k freed,
  balloc_ok w → num_blocks (w_sbi w) < 2 ^ 31 → (length bs < fuel)%nat →
  log_seg (vis (w_nvmm w)) p 0 bs → NoDup (seqZ start k ++ bs) →
  in_use (w_sbi w) (seqZ start k ++ bs) →
  (start = 0 ∧ k = 0 ∨ 1 ≤ k) → 0 ≤ freed →
  freed + k + Z.of_nat (length bs) < 2 ^ 31 →
  ∃ start' k' freed' w' D, free_log_loop fuel 0 p start k freed w
      = Done ((start', k', freed'), w') ∧
    blocks_back w w' D ∧ D ++ seqZ start' k' ≡ₚ seqZ start k ++ bs ∧
    (start' = 0 ∧ k' = 0 ∨ 1 ≤ k') ∧
    freed' + k' = freed + k + Z.of_nat (length bs) ∧ 0 ≤ freed'.
Proof.
  induction bs as [|b bs IH]; intros fuel w p start k freed Hok Hnb Hfuel Hseg Hnd Hu
    Hk Hf Hsum; (destruct fuel as [|fuel]; [cbn in Hfuel; lia|]); cbn [free_log_loop].
  { cbn in Hseg. subst p. rewrite decide_True by auto. exists start, k, freed, w, [].
    split_and!; try done; [by apply blocks_back_refl|by rewrite app_nil_r|].
    cbn. lia. }
  destruct Hseg as [-> Hseg]. cbn [length] in Hfuel, Hsum.
  destruct (Hu b) as [Hb Hbf]; [set_solver|].
  pose proof (geo_reserved _ (bo_geometry w Hok)) as Hres.
  rewrite decide_False by (rewrite page_aligned; lia).
  rewrite bind_block_ptr by lia. run. rewrite blocknr_page.
  destruct (decide (start = 0)) as [->|Hs0].
  - assert (k = 0) as ->.
    { destruct Hk as [[_ ?]|?]; [done|].
      destruct (Hu 0) as [? _]; [apply elem_of_app; left; apply elem_of_seqZ; lia|]. lia. }
    destruct (IH fuel w _ b 1 freed Hok Hnb ltac:(lia) Hseg)
      as (s'&k'&f'&w'&D&Hrun&Hbb&Hp&Hk'&Hsm&Hf'); rewrite ?seqZ_1 in *; try done; try lia.
    exists s', k', f', w', D. cbn [length]. split_and!; [done..|lia|done].
  - destruct Hk as [[? _]|Hk]; [done|].
    destruct (pending_extent w start k _ Hk Hu Hok) as (Hext&Hst&Hsk&Hpf).
    rewrite (wrap_small 64) by lia.
    destruct (decide (b = start + k)) as [->|Hne].
    + rewrite s32_small by lia.
      assert (seqZ start (k + 1) ++ bs ≡ₚ seqZ start k ++ (start + k) :: bs) as Hpm.
      { rewrite seqZ_app, <- app_assoc by lia. done. }
      destruct (IH fuel w _ start (k + 1) freed Hok Hnb ltac:(lia) Hseg)
        as (s'&k'&f'&w'&D&Hrun&Hbb&Hp&Hk'&Hsm&Hf'); try lia.
      * by rewrite Hpm.
      * eapply in_use_sub; [|exact Hu]. intros x. by rewrite Hpm.
      * exists s', k', f', w', D. rewrite Hp, Hpm. cbn [length]. split_and!; [done..|lia|done].
    + destruct (free_log_run w start k Hok Hk Hext Hpf) as (r&w1&Hr1&Hbb1).
      rewrite (bind_run _ _ _ _ _ Hr1), s32_small by lia.
      pose proof Hbb1 as [Hok1 ((_&_&En&_)&_) Hm1 _ _ _ _].
      apply NoDup_app in Hnd as (_&Hdis&Hnd).
      destruct (IH fuel w1 (ld 8 (vis (w_nvmm w)) (next_field (b * 4096))) b 1 (freed + k))
        as (s'&k'&f'&w'&D&Hrun&Hbb&Hp&Hk'&Hsm&Hf'); rewrite ?seqZ_1 in *; try done; try lia.
      * by rewrite Hm1.
      * eapply in_use_back; [exact Hbb1| |exact Hdis].
        eapply in_use_sub; [|exact Hu]. set_solver.
      * exists s', k', f', w', (seqZ start k ++ D).
        split; [exact Hrun|]. split; [by eapply blocks_back_trans|].
        split; [by rewrite <- app_assoc, Hp|]. split; [done|]. cbn [length]. lia.
Qed.

Lemma length_in_use s bs :
  NoDup bs → in_use s bs → 0 ≤ reserved_blocks s → 
  (length bs ≤ Z.to_nat (num_blocks s))%nat.
Proof.
  intros Hnd Hu Hr. rewrite <- (length_seqZ 0 (num_blocks s)).
  apply submseteq_length, NoDup_submseteq; [done|].
  intros b Hb. apply elem_of_seqZ. destruct (Hu b Hb). lia.
Qed.

(** Freeing a chain of pages frees its blocks; the number of pages comes
    back. *)
Lemma free_chain_run w pi p bs :
  balloc_ok w → num_blocks (w_sbi w) < 2 ^ 31 →
  ld 1 (vis (w_nvmm w)) (pi + nova_inode.i_blk_type) = NOVA_BLOCK_TYPE_4K →
  log_seg (vis (w_nvmm w)) p 0 bs → NoDup bs → in_use (w_sbi w) bs →
  ∃ w', nova_free_contiguous_log_blocks pi p w = Done (Z.of_nat (length bs), w') ∧
    blocks_back w w' bs.
Proof.
  intros Hok Hnb Hbt Hseg Hnd Hu. pose proof (geo_reserved _ (bo_geometry w Hok)) as Hres.
  pose proof (length_in_use _ _ Hnd Hu ltac:(lia)) as Hlen.
  unfold nova_free_contiguous_log_blocks. run. rewrite Hbt.
  change NOVA_BLOCK_TYPE_4K with 0.
  destruct (free_log_loop_run bs (S (Z.to_nat (num_blocks (w_sbi w)))) w p 0 0 0)
    as (s'&k'&f'&w1&D&Hrun&Hbb&Hp&Hk'&Hsm&Hf'); try done; try lia.
  rewrite (bind_run _ _ _ _ _ Hrun). cbn in Hp.
  pose proof Hbb as [Hok1 ((_&_&En&_)&_) Hm1 _ _ _ _].
  destruct Hk' as [[-> ->]|Hk'].
  - rewrite decide_False by tauto. exists w1. rewrite app_nil_r in Hp.
    split; [|eapply blocks_back_perm; [|exact Hbb]; by intros; rewrite Hp].
    unfold mret, M_ret. do 2 f_equal. lia.
  - rewrite <- Hp in Hnd. apply NoDup_app in Hnd as (_&Hdis&_).
    assert (in_use (w_sbi w1) (seqZ s' k' ++ [])) as Hu1.
    { rewrite app_nil_r. eapply in_use_back; [exact Hbb| |exact Hdis].
      eapply in_use_sub; [|exact Hu]. intros x. rewrite <- Hp. set_solver. }
    destruct (pending_extent w1 s' k' [] Hk' Hu1 Hok1) as (Hext&Hst&Hsk&Hpf).
    rewrite decide_True by lia.
    destruct (free_log_run w1 s' k' Hok1 Hk' Hext Hpf) as (r&w2&Hr2&Hbb2).
    rewrite (bind_run _ _ _ _ _ Hr2), s32_small by lia. exists w2.
    split; [unfold mret, M_ret; do 2 f_equal; lia|].
    eapply blocks_back_perm; [|eapply blocks_back_trans; [exact Hbb|exact Hbb2]].
    intros x. by rewrite Hp.
Qed.
End pages.
