(* ===== verification/LogProofs.v ===== *)
(** * Theorems on inode logs (inode.c, nova.h)

    The commit point of every operation, moving [log_tail] after the entries
    are persistent; growing a log by pages and freeing it. *)
From S2P Require Import Prelude Nvmm RangeTree Layout World Balloc BallocList.
From S2P Require Import BallocProofs Log LogPages.

(** ** The commit point *)
Abbreviation tail_of pi := (pi + nova_inode.log_tail).

(** The tail is settled on the medium, aligned, and does not overlap the
    [n] bytes at [p]. *)
Record commit_ok (q : nvmm) (pi p n : Z) : Prop := {
  co_ok : nvmm_ok q;
  co_align : tail_of pi mod 8 = 0;
  co_tail x : tail_of pi ≤ x < tail_of pi + 8 → settled q x;
  co_apart : p + n ≤ tail_of pi ∨ tail_of pi + 8 ≤ p
}.

(** After a power failure in state [q]: the old tail, or the new one and the
    bytes [data]. *)
Definition old_or_new (q : nvmm) (pi p old new : Z) (data : list Z) : Prop :=
  ∀ m, crash_image q m →
    ld 8 m (tail_of pi) = old ∨
    ld 8 m (tail_of pi) = new ∧ ld_bytes (length data) m p = data.

Lemma settled_old q pi p old new data :
  nvmm_ok q → (∀ x, tail_of pi ≤ x < tail_of pi + 8 → settled q x) →
  ld 8 (vis q) (tail_of pi) = old → old_or_new q pi p old new data.
Proof.
  intros Hok Hs Hold m Hm. left. rewrite <- Hold. apply ld_frame. intros x Hx.
  eapply settled_crash; [done|done|]. apply Hs. lia.
Qed.

Lemma settled_bytes q m p data :
  nvmm_ok q → crash_image q m → ld_bytes (length data) (vis q) p = data →
  (∀ x, p ≤ x < p + Z.of_nat (length data) → settled q x) →
  ld_bytes (length data) m p = data.
Proof.
  intros Hok Hm Hd Hs. rewrite <- Hd at 2. apply ld_bytes_frame. intros x Hx.
  eapply settled_crash; [done|done|]. apply Hs. lia.
Qed.

(** A store of up to a cache line at the start of a flushed line. *)
Lemma flush_covers a bs :
  Z.of_nat (length bs) ≤ 64 →
  write_within (flush_lo a) (flush_hi a CACHELINE_SIZE) (WBytes a bs).
Proof.
  intros Hl. unfold write_within, flush_hi, flush_lo, CACHELINE_SIZE.
  pose proof (Z.mod_pos_bound a 64). rewrite wrap_small by lia.
  set (k := (64 + a mod 64 + 64 - 1) / 64).
  assert (64 + a mod 64 + 64 - 1 < 64 * k + 64) by
    (pose proof (Z.mul_succ_div_gt (64 + a mod 64 + 64 - 1) 64); subst k; lia).
  lia.
Qed.

(** [nova_update_tail] when the bytes at [p] are written back. *)
Lemma update_tail_run w pi p new data :
  commit_ok (w_nvmm w) pi p (Z.of_nat (length data)) → 0 ≤ new < 2 ^ 64 →
  ld_bytes (length data) (vis (w_nvmm w)) p = data →
  (∀ x, p ≤ x < p + Z.of_nat (length data) → written_back (w_nvmm w) x) →
  let old := ld 8 (vis (w_nvmm w)) (tail_of pi) in
  ∃ w' q2 q3, nova_update_tail pi new w = Done ((), w') ∧
    w_hist w' = w_hist w ++ [w_nvmm w; q2; q3] ∧
    (∀ q, q ∈ [q2; q3; w_nvmm w'] → old_or_new q pi p old new data) ∧
    (∀ m, crash_image (w_nvmm w') m →
       ld 8 m (tail_of pi) = new ∧ ld_bytes (length data) m p = data) ∧
    only_nvmm w w'.
Proof.
  intros [Hok Hal Htl Hap] Hnew Hdata Hwb old. unfold nova_update_tail. run.
  set (q2 := PERSISTENT_BARRIER (w_nvmm w)).
  set (q3 := nvmm_write Cached (WBytes (tail_of pi) (le_split 8 new)) q2).
  set (q4 := nova_flush_buffer (tail_of pi) CACHELINE_SIZE true q3).
  eexists _, q2, q3. split; [reflexivity|].
  assert (nvmm_ok q2) as Hok2 by (by apply nvmm_ok_barrier).
  assert (nvmm_ok q3) as Hok3 by (by apply nvmm_ok_write).
  assert (nvmm_ok q4) as Hok4 by (by apply nvmm_ok_flush).
  assert (∀ x, p ≤ x < p + Z.of_nat (length data) → settled q2 x) as Hs2.
  { intros x Hx. by apply settled_barrier, Hwb. }
  assert (∀ x, p ≤ x < p + Z.of_nat (length data) → settled q3 x) as Hs3.
  { intros x Hx. apply settled_write; [by apply Hs2|]. cbn. rewrite length_le_split. lia. }
  assert (∀ x, tail_of pi ≤ x < tail_of pi + 8 → settled q2 x) as Ht2.
  { intros x Hx. by apply settled_fence, Htl. }
  assert (∀ x, tail_of pi ≤ x < tail_of pi + 8 → settled q4 x) as Ht4.
  { intros x Hx. apply settled_flush_fence, written_back_store_flush;
      [by apply settled_written_back, Ht2|]. apply flush_covers. rewrite length_le_split. lia. }
  assert (ld_bytes (length data) (vis q3) p = data) as Hd3.
  { rewrite <- Hdata at 2. apply ld_bytes_frame. intros x Hx.
    apply (ld8_st_bytes_out (vis q2)). rewrite length_le_split. lia. }
  assert (ld 8 (vis q4) (tail_of pi) = new) as Hn4.
  { unfold q4. rewrite vis_flush. unfold q3. cbn. rewrite ld_st.
    apply Z.mod_small. change (256 ^ Z.of_nat 8) with (2 ^ 64). lia. }
  assert (∀ m, crash_image q4 m →
    ld 8 m (tail_of pi) = new ∧ ld_bytes (length data) m p = data) as Hfin.
  { intros m Hm. split.
    - rewrite <- Hn4. apply ld_frame. intros x Hx. eapply settled_crash; [done|done|].
      apply Ht4. lia.
    - apply (settled_bytes q4 m p data Hok4 Hm Hd3). intros x Hx. by apply settled_flush, Hs3. }
  split_and!; try done; [by cbn; rewrite <- !app_assoc|].
  intros q Hq m Hm. rewrite !elem_of_cons, elem_of_nil in Hq.
  destruct Hq as [->|[->|[->|[]]]]; [by eapply (settled_old q2)| |right; by apply Hfin].
  destruct (crash_store_atomic q2 m Cached (tail_of pi) new Hok2 Hm Hal Ht2) as [->|Hv];
    [by left|right]. rewrite Hv, Z.mod_small by lia. split; [done|].
  by eapply (settled_bytes q3).
Qed.

Section append.
Context `{RbTree} `{Env}.

(** An entry that fits the page at [tail] goes there. *)
Lemma append_head_fits w grow pi tail size :
  tail ≠ 0 → is_last_entry tail size = false →
  append_head grow pi tail size w = Done ((tail, false), w).
Proof.
  intros Ht Hl. unfold append_head. rewrite decide_True by done. run.
  rewrite decide_False by done. rewrite !Hl. run. rewrite decide_False by naive_solver. by rewrite ?Hl.
Qed.

(** C5. Committing a write entry.  Appending a write entry that fits the
    current log page and moving [log_tail] behind it succeeds, and is atomic
    with respect to power failure: in every state NVMM passes through, an
    image after a power failure has the old tail, or the new tail and the
    whole entry; after the call returned it is the new tail and the entry. *)
Theorem log_append_commit w pi h data tail :
  length data = Z.to_nat nova_file_write_entry.sizeof →
  0 < tail < 2 ^ 56 → is_last_entry tail nova_file_write_entry.sizeof = false →
  commit_ok (w_nvmm w) pi tail nova_file_write_entry.sizeof →
  (∀ b, b ∈ data → 0 ≤ b < 256) →
  (∀ x, tail ≤ x < tail + nova_file_write_entry.sizeof → written_back (w_nvmm w) x) →
  let new := tail + nova_file_write_entry.sizeof in
  let old := ld 8 (vis (w_nvmm w)) (tail_of pi) in
  ∃ w' qs, (curr_p ← nova_append_file_write_entry pi h data tail;
            nova_update_tail pi (u64 (curr_p + nova_file_write_entry.sizeof))) w
      = Done ((), w') ∧
    w_hist w' = w_hist w ++ qs ∧
    (∀ q, q ∈ qs ++ [w_nvmm w'] → old_or_new q pi tail old new data) ∧
    (∀ m, crash_image (w_nvmm w') m →
       ld 8 m (tail_of pi) = new ∧ ld_bytes (length data) m tail = data).
Proof.
  intros Hlen Htail Hfit Hco Hbytes Hwb new old. pose proof Hco as [Hok Hal Htl Hap].
  change (Z.to_nat nova_file_write_entry.sizeof) with 40%nat in Hlen.
  change nova_file_write_entry.sizeof with 40 in *.
  unfold nova_append_file_write_entry, nova_get_append_head. run.
  rewrite (bind_run _ _ _ _ _ (append_head_fits w _ pi tail 40 ltac:(lia) Hfit)). run.
  cbn [fst]. rewrite decide_False by lia. rewrite bind_assoc, bind_block_ptr by lia. run.
  set (w1 := set_nvmm _ w). rewrite wrap_small by lia. fold new.
  assert (ld_bytes (length data) (vis (w_nvmm w1)) tail = data) as Hd
    by (apply ld_bytes_st_bytes, Forall_forall; auto).
  assert (ld 8 (vis (w_nvmm w1)) (tail_of pi) = old) as Hold.
  { apply ld_frame. intros x Hx. apply (ld8_st_bytes_out (vis (w_nvmm w))). lia. }
  destruct (update_tail_run w1 pi tail new data) as (w'&q2&q3&Hrun&Hh&Hq&Hfin&_); try done.
  - split; try done; [by apply nvmm_ok_write| |by rewrite Hlen].
    intros x Hx. apply settled_write; [by apply Htl|]. cbn. lia.
  - subst new. lia.
  - intros x Hx. apply written_back_write; [apply Hwb; lia|by left].
  - rewrite Hold in Hq. exists w', [w_nvmm w; w_nvmm w1; q2; q3].
    split_and!; try done; [by rewrite Hh; cbn; rewrite <- app_assoc|].
    intros q Hin. cbn in Hin. rewrite !elem_of_cons in Hin.
    destruct Hin as [->|[->|Hin]]; [by eapply settled_old| |apply Hq; set_solver].
    eapply settled_old; [by apply nvmm_ok_write| |done].
    intros x Hx. apply settled_write; [by apply Htl|]. cbn. lia.
Qed.
End append.

(** ** Growing and freeing a log *)
Section pages.
Context `{RbTreeLaws} `{EnvLaws}.

(** C21. Growing a log.  [nova_allocate_inode_log_pages] on a device with space
    returns at least one and at most the number of pages asked for: distinct
    blocks that were free and no longer are, linked in the order of the chain
    with a null link at the end; no byte but those links changes.  Without
    space it returns [-ENOSPC] and changes nothing. *)
Theorem nova_allocate_inode_log_pages_spec w pi num :
  balloc_ok w → num_blocks (w_sbi w) < 2 ^ 31 → 1 ≤ num < 2 ^ 20 →
  ld 1 (vis (w_nvmm w)) (pi + nova_inode.i_blk_type) = NOVA_BLOCK_TYPE_4K →
  nova_allocate_inode_log_pages pi num w = Done ((- ENOSPC, None), next_tick w) ∨
  (∃ b bs w', nova_allocate_inode_log_pages pi num w
      = Done ((Z.of_nat (length (b :: bs)), Some (b * 4096)), w') ∧
     Z.of_nat (length (b :: bs)) ≤ num ∧ blocks_gone w w' (b :: bs) ∧
     log_seg (vis (w_nvmm w')) (b * 4096) 0 (b :: bs) ∧
     ∀ a, ¬ link_byte (b :: bs) a → ld8 (vis (w_nvmm w')) a = ld8 (vis (w_nvmm w)) a).
Proof.
  intros Hok Hnb Hnum Hbt.
  destruct (allocate_pages_run w pi num Hok Hnb Hnum Hbt)
    as [?|(b&bs&w'&?&?&?&?&?&_)]; [by left|right]. by exists b, bs, w'.
Qed.

(** The fields of the inode at [pi] lie outside the pages [bs]. *)
Definition inode_outside (pi : Z) (bs : list Z) : Prop :=
  ∀ b, b ∈ bs → pi + nova_inode.sizeof ≤ b * 4096 ∨ (b + 1) * 4096 ≤ pi.

Lemma free_inode_log_run w pi p tail bs :
  balloc_ok w → num_blocks (w_sbi w) < 2 ^ 31 →
  ld 1 (vis (w_nvmm w)) (pi + nova_inode.i_blk_type) = NOVA_BLOCK_TYPE_4K →
  ld 8 (vis (w_nvmm w)) (pi + nova_inode.log_head) = p → p ≠ 0 →
  ld 8 (vis (w_nvmm w)) (pi + nova_inode.log_tail) = tail → tail ≠ 0 →
  log_seg (vis (w_nvmm w)) p 0 bs → NoDup bs → in_use (w_sbi w) bs → inode_outside pi bs →
  ∃ w', nova_free_inode_log pi w = Done ((), w') ∧ balloc_ok w' ∧
    ld 8 (vis (w_nvmm w')) (pi + nova_inode.log_head) = 0 ∧
    ld 8 (vis (w_nvmm w')) (pi + nova_inode.log_tail) = 0 ∧
    (∀ b, block_free (w_sbi w') b → block_free (w_sbi w) b ∨ b ∈ bs) ∧
    ((∀ t live, is_Some (kmem_cache_alloc t live)) →
     ∀ b, block_free (w_sbi w') b ↔ block_free (w_sbi w) b ∨ b ∈ bs).
Proof.
  intros Hok Hnb Hbt Hp Hp0 Ht Ht0 Hseg Hnd Hu Hout. unfold nova_free_inode_log. run.
  rewrite Hp, Ht, decide_False by tauto. run.
  match goal with |- context [(nova_free_contiguous_log_blocks pi p ≫= _) ?w1] =>
    set (w1' := w1) end.
  assert (∀ x, ¬ (pi + nova_inode.log_head ≤ x < pi + nova_inode.log_head + 16) →
    ld8 (vis (w_nvmm w1')) x = ld8 (vis (w_nvmm w)) x) as Hm.
  { intros x Hx. subst w1'. cbn.
    unfold nova_inode.log_head, nova_inode.log_tail in *.
    rewrite !ld8_st_bytes_out; [done|rewrite length_le_split; lia..]. }
  destruct (free_chain_run w1' pi p bs) as (w'&Hrun&Hbb); try done.
  - by apply (balloc_ok_same w).
  - rewrite <- Hbt. apply ld_frame. intros x Hx. apply Hm.
    unfold nova_inode.log_head, nova_inode.i_blk_type in *. lia.
  - eapply log_seg_frame; [|exact Hseg]. intros b Hb. apply ld_frame. intros x Hx. apply Hm.
    specialize (Hout b Hb). rewrite next_field_eq in Hx.
    unfold nova_inode.sizeof, nova_inode.log_head in *. lia.
  - rewrite (bind_run _ _ _ _ _ Hrun). destruct Hbb as [Hok' _ Hm' _ Hk Hs Ha].
    assert (∀ x, block_free (w_sbi w1') x ↔ block_free (w_sbi w) x) as Hsame by done.
    exists w'. rewrite Hm'. split_and!; try done.
    + subst w1'. cbn. by rewrite ld_st.
    + subst w1'. cbn. rewrite ld_st_bytes_out, ld_st; [done|].
      rewrite length_le_split. unfold nova_inode.log_head, nova_inode.log_tail. lia.
    + intros Hslab b. split; [by apply Hs|]. intros [Hb|Hb]; [by apply Hk|by apply Ha].
Qed.

(** C22. Freeing a log.  When the log of the inode at [pi] is the chain of pages
    [bs], blocks in use, [nova_free_inode_log] empties it: head and tail are 0
    and, as long as the slab gives nodes, exactly the blocks [bs] become free.
    Without nodes blocks of [bs] may be lost, but no other block becomes free. *)
Theorem nova_free_inode_log_spec w pi p tail bs :
  balloc_ok w → num_blocks (w_sbi w) < 2 ^ 31 →
  ld 1 (vis (w_nvmm w)) (pi + nova_inode.i_blk_type) = NOVA_BLOCK_TYPE_4K →
  ld 8 (vis (w_nvmm w)) (pi + nova_inode.log_head) = p → p ≠ 0 →
  ld 8 (vis (w_nvmm w)) (pi + nova_inode.log_tail) = tail → tail ≠ 0 →
  log_seg (vis (w_nvmm w)) p 0 bs → NoDup bs → in_use (w_sbi w) bs → inode_outside pi bs →
  ∃ w', nova_free_inode_log pi w = Done ((), w') ∧ balloc_ok w' ∧
    ld 8 (vis (w_nvmm w')) (pi + nova_inode.log_head) = 0 ∧
    ld 8 (vis (w_nvmm w')) (pi + nova_inode.log_tail) = 0 ∧
    (∀ b, block_free (w_sbi w') b → block_free (w_sbi w) b ∨ b ∈ bs) ∧
    ((∀ t live, is_Some (kmem_cache_alloc t live)) →
     ∀ b, block_free (w_sbi w') b ↔ block_free (w_sbi w) b ∨ b ∈ bs).
Proof. apply free_inode_log_run. Qed.
End pages.

Section instances.
#[local] Existing Instances bst_rb bst_rb_laws env1 env1_laws.

(** The root inode of an empty device; its log is at block 5. *)
Lemma log_append_commit_witness :
  let w := World (nvmm_boot ∅) small_sbi ∅ 0 ∅ [] in
  let data := replicate 40 7 in
  ∃ w' qs, (curr_p ← nova_append_file_write_entry 1024 1 data (5 * 4096);
            nova_update_tail 1024 (u64 (curr_p + 40))) w = Done ((), w') ∧
    w_hist w' = qs ∧
    (∀ q, q ∈ qs ++ [w_nvmm w'] → old_or_new q 1024 (5 * 4096) 0 (5 * 4096 + 40) data).
Proof.
  intros w data. destruct (log_append_commit w 1024 1 data (5 * 4096))
    as (w'&qs&Hrun&Hh&Hq&_); [done..| | | |].
  - split; try done; [intros; by apply Forall_nil|right; vm_compute; discriminate].
  - intros b Hb. apply elem_of_replicate in Hb as [-> _]. lia.
  - intros. by apply Forall_nil.
  - exists w', qs. split; [exact Hrun|]. split; [exact Hh|exact Hq].
Defined.

Lemma nova_allocate_inode_log_pages_spec_witness :
  ∃ b bs w', nova_allocate_inode_log_pages 1024 2 small_world
      = Done ((Z.of_nat (length (b :: bs)), Some (b * 4096)), w') ∧
    blocks_gone small_world w' (b :: bs).
Proof.
  destruct (nova_allocate_inode_log_pages_spec small_world 1024 2 small_world_ok
    ltac:(done) ltac:(done) ltac:(done)) as [Hno|(b&bs&w'&Hrun&_&Hg&_)].
  - exfalso. revert Hno. vm_compute. discriminate.
  - exists b, bs, w'. split; [exact Hrun|exact Hg].
Defined.

(** The log of the root inode: blocks 5 and 6. *)
Definition logged_mem : mem :=
  let m := st_bytes ∅ (1024 + nova_inode.log_head) (le_split 8 (5 * 4096)) in
  let m := st_bytes m (1024 + nova_inode.log_tail) (le_split 8 (6 * 4096 + 40)) in
  st_bytes m (next_field (5 * 4096)) (le_split 8 (6 * 4096)).
Definition logged_world : world :=
  World (nvmm_boot logged_mem) small_sbi {[100; 101; 200]} 0 ∅ [].

Lemma nova_free_inode_log_spec_witness :
  ∃ w', nova_free_inode_log 1024 logged_world = Done ((), w') ∧ balloc_ok w' ∧
    ∀ b, block_free (w_sbi w') b ↔ block_free small_sbi b ∨ b ∈ [5; 6].
Proof.
  destruct (nova_free_inode_log_spec logged_world 1024 (5 * 4096) (6 * 4096 + 40) [5; 6])
    as (w'&Hrun&Hok&_&_&_&Hset); [|done..| | | |].
  - apply (balloc_ok_same small_world); [done|done|apply small_world_ok].
  - by apply (bool_decide_unpack _).
  - intros b Hb. assert (b = 5 ∨ b = 6) as Hb' by set_solver. split; [cbn; lia|].
    intros (c&Hc&Hf). change (w_sbi logged_world) with small_sbi in Hf.
    assert (nova_get_free_list small_sbi c =
      nova_get_free_list small_sbi (Z.min c 2)) as Hmin.
    { unfold nova_get_free_list. change (cpus small_sbi) with 2.
      destruct (decide (c < 2)); [by rewrite Z.min_l, decide_True by lia|].
      by rewrite Z.min_r by lia. }
    rewrite Hmin in Hf. clear Hmin. apply (bool_decide_eq_true_2 (free_block _ _)) in Hf.
    assert (Z.min c 2 = 0 ∨ Z.min c 2 = 1 ∨ Z.min c 2 = 2) as Hcs by lia.
    destruct Hcs as [E|[E|E]], Hb' as [-> | ->]; rewrite E in Hf; by vm_compute in Hf.
  - intros b Hb. assert (b = 5 ∨ b = 6) by set_solver. unfold nova_inode.sizeof. lia.
  - exists w'. split; [exact Hrun|]. split; [exact Hok|]. apply Hset. intros. by eexists.
Defined.
End instances.
