(* ===== verification/FileTree.v ===== *)
(** * The page tree of a file (inode.c, nova.h)

    [sih->tree] maps each page offset of a file to the write entry in its
    log that holds the page.  A write entry covers [num_pages] pages from
    [pgoff], stored in consecutive blocks; [invalid_pages] counts those that
    were overwritten or truncated. *)
From S2P Require Import Prelude Nvmm RangeTree Layout World Balloc Log.

(** ** Radix trees *)

(** [radix_tree_gang_lookup] for one item: the first index from [from] on. *)
Definition tree_next (from : Z) (t : gmap Z Z) : option (Z * Z) :=
  map_fold (λ k v acc,
    if decide (from ≤ k) then
      match acc with
      | Some (k', _) => if decide (k < k') then Some (k, v) else acc
      | None => Some (k, v)
      end
    else acc) None t.

Definition sih_set_cache_tree (t : gmap Z Z) (s : nova_inode_info_header) :=
  Sih (tree s) t (sih_mode s) (log_pages s) (sih_size s) (sih_ino s) (pi_addr s)
    (mmap_pages s) (low_dirty s) (high_dirty s) (valid_bytes s) (last_setattr s)
    (last_link_change s).
Definition sih_set_mmap_pages (n : Z) (s : nova_inode_info_header) :=
  Sih (tree s) (cache_tree s) (sih_mode s) (log_pages s) (sih_size s) (sih_ino s)
    (pi_addr s) n (low_dirty s) (high_dirty s) (valid_bytes s) (last_setattr s)
    (last_link_change s).
Definition sih_set_dirty (lo hi : Z) (s : nova_inode_info_header) :=
  Sih (tree s) (cache_tree s) (sih_mode s) (log_pages s) (sih_size s) (sih_ino s)
    (pi_addr s) (mmap_pages s) lo hi (valid_bytes s) (last_setattr s)
    (last_link_change s).

(** The values [i] of a loop [for (i = first; i <= last; i++)] over
    [unsigned long]: it never ends when [last] is the largest one. *)
Definition loop_range (first last : Z) : M (list Z) :=
  if decide (last < first) then mret []
  else if decide (last = 2 ^ 64 - 1) then stop HFuel
  else mret (seqZ first (last - first + 1)).

(** ** nova.h *)

(** The range check of [get_nvmm] only prints. *)
Definition get_nvmm (entry pgoff : Z) : M Z :=
  block ← load 8 (entry + nova_file_write_entry.block);
  entry_pgoff ← load 8 (entry + nova_file_write_entry.pgoff);
  mret (u64 (Z.shiftr block PAGE_SHIFT + pgoff - entry_pgoff)).

Definition nova_get_write_entry (h blocknr : Z) : M (option Z) :=
  sih ← get_sih h; mret (tree sih !! blocknr).

Definition nova_find_nvmm_block (h : Z) (entry : option Z) (blocknr : Z) : M Z :=
  entry ← match entry with
          | Some e => mret (Some e)
          | None => nova_get_write_entry h blocknr
          end;
  match entry with
  | None => mret 0
  | Some e => nvmm ← get_nvmm e blocknr; mret (u64 (Z.shiftl nvmm PAGE_SHIFT))
  end.

Section file_tree.
Context `{RbTree} `{Env}.

(** ** Freeing data blocks *)

(** [run] is the pair [*start_blocknr], [*num_free] of blocks waiting to be
    freed; returns [freed] and the new pair. *)
Definition nova_free_contiguous_data_blocks (pi entry pgoff num_pages : Z) (run : Z * Z)
  : M (Z * (Z * Z)) :=
  num ← load 4 (entry + nova_file_write_entry.num_pages);
  invalid ← load 4 (entry + nova_file_write_entry.invalid_pages);
  if decide (num < u64 (invalid + num_pages)) then mret (0, run) else
  store 4 (entry + nova_file_write_entry.invalid_pages) (u32 (invalid + num_pages)) ;;
  nvmm ← get_nvmm entry pgoff;
  match run with
  | (start_blocknr, num_free) =>
    if decide (start_blocknr = 0) then mret (0, (nvmm, num_pages))
    else if decide (nvmm = u64 (start_blocknr + num_free)) then
      mret (0, (start_blocknr, u64 (num_free + num_pages)))
    else
      btype ← load 1 (pi + nova_inode.i_blk_type);
      _ ← nova_free_data_blocks btype start_blocknr (s32 num_free);
      mret (s32 num_free, (nvmm, num_pages))
  end.

Definition nova_delete_cache_tree (pi h start_blocknr last_blocknr : Z) : M () :=
  idx ← loop_range start_blocknr last_blocknr;
  forM idx (λ i,
    sih ← get_sih h;
    match cache_tree sih !! i with
    | None => mret ()
    | Some addr =>
        update_sih h (sih_set_cache_tree (delete i (cache_tree sih))) ;;
        btype ← load 1 (pi + nova_inode.i_blk_type);
        _ ← nova_free_data_blocks btype (Z.shiftr addr PAGE_SHIFT) 1;
        update_sih h (λ s, sih_set_mmap_pages (u64 (mmap_pages s - 1)) s)
    end) ;;
  sih ← get_sih h;
  if decide (mmap_pages sih = 0) then update_sih h (sih_set_dirty (2 ^ 64 - 1) 0)
  else mret ().

Definition nova_zero_cache_tree (h start_blocknr : Z) : M () :=
  sih ← get_sih h;
  idx ← loop_range start_blocknr (high_dirty sih);
  forM idx (λ i,
    match cache_tree sih !! i with
    | None => mret ()
    | Some block =>
        addr ← block_ptr block;
        write_mem Cached (WZero addr PAGE_SIZE)
    end).

Definition nova_find_next_entry (h pgoff : Z) : M (option Z) :=
  sih ← get_sih h; mret (snd <$> tree_next pgoff (tree sih)).

(** The loop of [nova_delete_file_tree]; returns the waiting run and
    [freed]. *)
Fixpoint delete_tree_loop (fuel : nat) (pi h pgoff last_blocknr : Z) (delete_nvmm : bool)
    (run : Z * Z) (freed : Z) : M (Z * Z * Z) :=
  match fuel with
  | O => stop HFuel
  | S fuel =>
    if decide (last_blocknr < pgoff) then mret (run, freed) else
    sih ← get_sih h;
    match tree sih !! pgoff with
    | Some entry =>
        update_sih h (sih_set_tree (delete pgoff (tree sih))) ;;
        r ← (if delete_nvmm then
               nova_free_contiguous_data_blocks pi entry pgoff 1 run
             else mret (0, run));
        delete_tree_loop fuel pi h (u64 (pgoff + 1)) last_blocknr delete_nvmm r.2
          (s32 (freed + r.1))
    | None =>
        entry ← nova_find_next_entry h pgoff;
        match entry with
        | None => mret (run, freed)
        | Some entry =>
            let pgoff := u64 (pgoff + 1) in
            entry_pgoff ← load 8 (entry + nova_file_write_entry.pgoff);
            delete_tree_loop fuel pi h (if decide (pgoff > entry_pgoff) then pgoff
                                        else entry_pgoff)
              last_blocknr delete_nvmm run freed
        end
    end
  end.

(** Every pass moves on by at least one page. *)
Definition nova_delete_file_tree (h start_blocknr last_blocknr : Z)
    (delete_nvmm delete_mmap : bool) : M Z :=
  sih ← get_sih h;
  pi ← block_ptr (pi_addr sih);
  (if decide (delete_mmap = true ∧ mmap_pages sih ≠ 0) then
     nova_delete_cache_tree pi h start_blocknr last_blocknr
   else mret ()) ;;
  sih ← get_sih h;
  (if decide (mmap_pages sih ≠ 0 ∧ start_blocknr ≤ high_dirty sih) then
     nova_zero_cache_tree h start_blocknr
   else mret ()) ;;
  r ← delete_tree_loop (S (Z.to_nat (last_blocknr - start_blocknr + 1))) pi h
        start_blocknr last_blocknr delete_nvmm (0, 0) 0;
  match r with
  | (free_blocknr, num_free, freed) =>
    if decide (free_blocknr ≠ 0) then
      btype ← load 1 (pi + nova_inode.i_blk_type);
      _ ← nova_free_data_blocks btype free_blocknr (s32 num_free);
      mret (s32 (freed + num_free))
    else mret freed
  end.

(** ** Inserting a write entry *)

(** [radix_tree_insert] fails when the index is taken or no node can be
    allocated. *)
Definition radix_tree_insert (h index item : Z) : M Z :=
  sih ← get_sih h;
  if decide (is_Some (tree sih !! index)) then mret (- EEXIST) else
  ok ← try_radix_node;
  if (ok : bool) then
    update_sih h (λ s, sih_set_tree (<[index := item]> (tree s)) s) ;; mret 0
  else mret (- ENOMEM).

(** The loop over the pages of the entry.  [ret] is uninitialised when no
    page had to be inserted: [None]. *)
Fixpoint assign_loop (pi h entry : Z) (free : bool) (pages : list Z) (ret : option Z)
  : M (option Z) :=
  match pages with
  | [] => mret ret
  | curr_pgoff :: pages =>
    sih ← get_sih h;
    match tree sih !! curr_pgoff with
    | Some old_entry =>
        old_nvmm ← get_nvmm old_entry curr_pgoff;
        (if free then
           invalid ← load 4 (old_entry + nova_file_write_entry.invalid_pages);
           store 4 (old_entry + nova_file_write_entry.invalid_pages)
             (u32 (invalid + 1)) ;;
           btype ← load 1 (pi + nova_inode.i_blk_type);
           _ ← nova_free_data_blocks btype old_nvmm 1;
           i_blocks ← load 8 (pi + nova_inode.i_blocks);
           store 8 (pi + nova_inode.i_blocks) (u64 (i_blocks - 1))
         else mret ()) ;;
        update_sih h (λ s, sih_set_tree (<[curr_pgoff := entry]> (tree s)) s) ;;
        assign_loop pi h entry free pages ret
    | None =>
        r ← radix_tree_insert h curr_pgoff entry;
        if decide (r ≠ 0) then mret (Some r)
        else assign_loop pi h entry free pages (Some r)
    end
  end.

Definition nova_assign_write_entry (pi h entry : Z) (free : bool) : M (option Z) :=
  start_pgoff ← load 8 (entry + nova_file_write_entry.pgoff);
  num ← load 4 (entry + nova_file_write_entry.num_pages);
  assign_loop pi h entry free ((λ i, u64 (start_pgoff + i)) <$> seqZ 0 num) None.

(** ** Searching for data and holes *)

(** Returns [blocks], an [int] in the end, [*data_found] and
    [*hole_found]. *)
Fixpoint lookup_hole_loop (fuel : nat) (h pgoff last_blocknr : Z) (hole : bool)
    (data_found hole_found : bool) (blocks : Z) : M (Z * bool * bool) :=
  match fuel with
  | O => stop HFuel
  | S fuel =>
    if decide (last_blocknr < pgoff) then mret (s32 blocks, data_found, hole_found) else
    sih ← get_sih h;
    let next (pgoff' : Z) (data_found hole_found : bool) :=
      lookup_hole_loop fuel h pgoff' last_blocknr hole data_found hole_found
        (if negb hole_found || negb hole then u64 (blocks + (pgoff' - pgoff))
         else blocks) in
    match tree sih !! pgoff with
    | Some _ =>
        if hole then next (u64 (pgoff + 1)) true hole_found
        else mret (s32 blocks, true, hole_found)
    | None =>
        entry ← nova_find_next_entry h pgoff;
        let pgoff1 := u64 (pgoff + 1) in
        pgoff2 ← match entry with
                 | None => mret pgoff1
                 | Some e =>
                     entry_pgoff ← load 8 (e + nova_file_write_entry.pgoff);
                     let p := if decide (pgoff1 > entry_pgoff) then pgoff1
                              else entry_pgoff in
                     mret (if decide (p > last_blocknr) then u64 (last_blocknr + 1)
                           else p)
                 end;
        next pgoff2 data_found true
    end
  end.

Definition nova_lookup_hole_in_range (h first_blocknr last_blocknr : Z)
    (data_found hole_found hole : bool) : M (Z * bool * bool) :=
  lookup_hole_loop (S (Z.to_nat (last_blocknr - first_blocknr + 1))) h first_blocknr
    last_blocknr hole data_found hole_found 0.
End file_tree.
