(* ===== verification/Inode.v ===== *)
(** * Attributes and size of inodes (inode.c, nova.h)

    Copying attributes between the inode in memory ([struct inode], a record
    [vfs_inode]) and the one on the medium, truncation, [setattr] and its log
    entry.  Blocks are 4K: [sb->s_blocksize] is 4096. *)
From S2P Require Import Prelude Nvmm RangeTree Layout World Balloc Log FileTree.

(** ** Constants of the kernel *)
Definition S_IFMT : Z := 0xF000.
Definition S_IFREG : Z := 0x8000.
Definition S_IFDIR : Z := 0x4000.
Definition S_IFLNK : Z := 0xA000.
Definition S_IFCHR : Z := 0x2000.
Definition S_IFBLK : Z := 0x6000.
Definition is_mode (fmt mode : Z) : bool := bool_decide (Z.land mode S_IFMT = fmt).
Abbreviation S_ISREG := (is_mode S_IFREG).
Abbreviation S_ISDIR := (is_mode S_IFDIR).
Abbreviation S_ISCHR := (is_mode S_IFCHR).
Abbreviation S_ISBLK := (is_mode S_IFBLK).

Definition FS_SECRM_FL : Z := 0x1.
Definition FS_UNRM_FL : Z := 0x2.
Definition FS_COMPR_FL : Z := 0x4.
Definition FS_SYNC_FL : Z := 0x8.
Definition FS_IMMUTABLE_FL : Z := 0x10.
Definition FS_APPEND_FL : Z := 0x20.
Definition FS_NODUMP_FL : Z := 0x40.
Definition FS_NOATIME_FL : Z := 0x80.
Definition FS_COMPRBLK_FL : Z := 0x200.
Definition FS_NOCOMP_FL : Z := 0x400.
Definition FS_JOURNAL_DATA_FL : Z := 0x4000.
Definition FS_NOTAIL_FL : Z := 0x8000.
Definition FS_DIRSYNC_FL : Z := 0x10000.
Definition FS_TOPDIR_FL : Z := 0x20000.
Definition S_SYNC : Z := 1.
Definition S_NOATIME : Z := 2.
Definition S_APPEND : Z := 4.
Definition S_IMMUTABLE : Z := 8.
Definition S_DIRSYNC : Z := 64.
Definition S_DAX : Z := 8192.

(** nova.h *)
Definition NOVA_EOFBLOCKS_FL : Z := 0x20000000.
Definition bits (l : list Z) : Z := foldr Z.lor 0 l.
Definition NOVA_FL_INHERITED : Z :=
  bits [FS_SECRM_FL; FS_UNRM_FL; FS_COMPR_FL; FS_SYNC_FL; FS_NODUMP_FL; FS_NOATIME_FL;
        FS_COMPRBLK_FL; FS_NOCOMP_FL; FS_JOURNAL_DATA_FL; FS_NOTAIL_FL; FS_DIRSYNC_FL].
Definition NOVA_REG_FLMASK : Z := Z.lnot (bits [FS_DIRSYNC_FL; FS_TOPDIR_FL]).
Definition NOVA_OTHER_FLMASK : Z := bits [FS_NODUMP_FL; FS_NOATIME_FL].

Definition nova_mask_flags (mode flags : Z) : Z :=
  let flags := Z.land flags NOVA_FL_INHERITED in
  if S_ISDIR mode then flags
  else if S_ISREG mode then Z.land flags NOVA_REG_FLMASK
  else Z.land flags NOVA_OTHER_FLMASK.

(** ** The VFS inode *)
Definition vfs_set_size (n : Z) (v : vfs_inode) :=
  VfsInode (v_ino v) (v_mode v) (v_nlink v) n (v_blocks v) (v_atime v) (v_mtime v)
    (v_ctime v) (v_flags v) (v_generation v) (v_uid v) (v_gid v) (v_rdev v) (v_bad v).
Definition vfs_set_blocks (n : Z) (v : vfs_inode) :=
  VfsInode (v_ino v) (v_mode v) (v_nlink v) (v_size v) n (v_atime v) (v_mtime v)
    (v_ctime v) (v_flags v) (v_generation v) (v_uid v) (v_gid v) (v_rdev v) (v_bad v).
Definition vfs_set_times (a m c : Z) (v : vfs_inode) :=
  VfsInode (v_ino v) (v_mode v) (v_nlink v) (v_size v) (v_blocks v) a m
    c (v_flags v) (v_generation v) (v_uid v) (v_gid v) (v_rdev v) (v_bad v).
Definition vfs_set_flags (n : Z) (v : vfs_inode) :=
  VfsInode (v_ino v) (v_mode v) (v_nlink v) (v_size v) (v_blocks v) (v_atime v)
    (v_mtime v) (v_ctime v) n (v_generation v) (v_uid v) (v_gid v) (v_rdev v) (v_bad v).
Definition vfs_set_nlink (n : Z) (v : vfs_inode) :=
  VfsInode (v_ino v) (v_mode v) n (v_size v) (v_blocks v) (v_atime v) (v_mtime v)
    (v_ctime v) (v_flags v) (v_generation v) (v_uid v) (v_gid v) (v_rdev v) (v_bad v).
Definition vfs_set_ino (n : Z) (v : vfs_inode) :=
  VfsInode n (v_mode v) (v_nlink v) (v_size v) (v_blocks v) (v_atime v) (v_mtime v)
    (v_ctime v) (v_flags v) (v_generation v) (v_uid v) (v_gid v) (v_rdev v) (v_bad v).
Definition vfs_set_ids (mode uid gid generation : Z) (v : vfs_inode) :=
  VfsInode (v_ino v) mode (v_nlink v) (v_size v) (v_blocks v) (v_atime v) (v_mtime v)
    (v_ctime v) (v_flags v) generation uid gid (v_rdev v) (v_bad v).
Definition vfs_set_rdev (n : Z) (v : vfs_inode) :=
  VfsInode (v_ino v) (v_mode v) (v_nlink v) (v_size v) (v_blocks v) (v_atime v)
    (v_mtime v) (v_ctime v) (v_flags v) (v_generation v) (v_uid v) (v_gid v) n (v_bad v).
Definition vfs_set_bad (v : vfs_inode) :=
  VfsInode (v_ino v) (v_mode v) (v_nlink v) (v_size v) (v_blocks v) (v_atime v)
    (v_mtime v) (v_ctime v) (v_flags v) (v_generation v) (v_uid v) (v_gid v) (v_rdev v)
    true.

Definition get_vfs (h : Z) : M vfs_inode := i ← get_inode h; mret (vfs i).
Definition update_vfs (h : Z) (f : vfs_inode → vfs_inode) : M () :=
  i ← get_inode h; put_inode h (InodeInfo (header i) (f (vfs i))).

Definition sih_set_mode (n : Z) (s : nova_inode_info_header) :=
  Sih (tree s) (cache_tree s) n (log_pages s) (sih_size s) (sih_ino s) (pi_addr s)
    (mmap_pages s) (low_dirty s) (high_dirty s) (valid_bytes s) (last_setattr s)
    (last_link_change s).
Definition sih_set_size (n : Z) (s : nova_inode_info_header) :=
  Sih (tree s) (cache_tree s) (sih_mode s) (log_pages s) n (sih_ino s) (pi_addr s)
    (mmap_pages s) (low_dirty s) (high_dirty s) (valid_bytes s) (last_setattr s)
    (last_link_change s).
Definition sih_set_pi (ino addr : Z) (s : nova_inode_info_header) :=
  Sih (tree s) (cache_tree s) (sih_mode s) (log_pages s) (sih_size s) ino addr
    (mmap_pages s) (low_dirty s) (high_dirty s) (valid_bytes s) (last_setattr s)
    (last_link_change s).

(** [struct iattr] *)
Record iattr := Iattr {
  ia_valid : Z; ia_mode : Z; ia_uid : Z; ia_gid : Z; ia_size : Z;
  ia_atime : Z; ia_mtime : Z; ia_ctime : Z
}.

(** ** The kernel's VFS layer

    What the code calls of it: permission checks and copying of attributes,
    the inode cache.  [new_inode] and [iget_locked] return the address of an
    object and, for a new one, what is in it. *)
Class Vfs := {
  inode_change_ok : N → vfs_inode → iattr → Z;
  setattr_copy : vfs_inode → iattr → vfs_inode;
  inode_has_no_xattr : vfs_inode → vfs_inode;
  make_bad_inode : N → vfs_inode → vfs_inode;
  inode_init_owner : vfs_inode → Z → vfs_inode → vfs_inode;
  init_special_inode : Z → Z → vfs_inode → vfs_inode;
  new_inode : N → gmap Z nova_inode_info → option (Z * nova_inode_info);
  insert_inode_locked : N → Z → bool;
  iget_locked : N → Z → gmap Z nova_inode_info → option (Z * option nova_inode_info)
}.

(** [nova_get_inode]: the inode on the medium, null before it has one. *)
Definition nova_get_inode (h : Z) : M (option Z) :=
  sih ← get_sih h; mret (nova_get_block (pi_addr sih)).

Section inode.
Context `{RbTree} `{Env} `{Vfs}.

(** ** Attributes *)
Definition nova_set_inode_flags (h pi flags : Z) : M () :=
  update_vfs h (λ v,
    let base := Z.land (v_flags v)
                  (Z.lnot (bits [S_SYNC; S_APPEND; S_IMMUTABLE; S_NOATIME; S_DIRSYNC])) in
    let set (fs s : Z) (f : Z) := if decide (Z.land flags fs ≠ 0) then Z.lor f s else f in
    vfs_set_flags
      (set FS_DIRSYNC_FL S_DIRSYNC (set FS_NOATIME_FL S_NOATIME
        (set FS_IMMUTABLE_FL S_IMMUTABLE (set FS_APPEND_FL S_APPEND
          (set FS_SYNC_FL S_SYNC base))))) v) ;;
  i_xattr ← load 8 (pi + nova_inode.i_xattr);
  (if decide (i_xattr = 0) then update_vfs h inode_has_no_xattr else mret ()) ;;
  update_vfs h (λ v, vfs_set_flags (Z.lor (v_flags v) S_DAX) v).

Definition nova_get_inode_flags (h pi : Z) : M () :=
  v ← get_vfs h;
  nova_flags ← load 4 (pi + nova_inode.i_flags);
  let base := Z.land nova_flags
    (Z.lnot (bits [FS_SYNC_FL; FS_APPEND_FL; FS_IMMUTABLE_FL; FS_NOATIME_FL;
                   FS_DIRSYNC_FL])) in
  let set (s fs : Z) (f : Z) := if decide (Z.land (v_flags v) s ≠ 0) then Z.lor f fs
                                else f in
  store 4 (pi + nova_inode.i_flags)
    (set S_DIRSYNC FS_DIRSYNC_FL (set S_NOATIME FS_NOATIME_FL
      (set S_IMMUTABLE FS_IMMUTABLE_FL (set S_APPEND FS_APPEND_FL
        (set S_SYNC FS_SYNC_FL base))))).

Definition nova_update_inode (h pi : Z) : M () :=
  v ← get_vfs h;
  store 2 (pi + nova_inode.i_mode) (v_mode v) ;;
  store 4 (pi + nova_inode.i_uid) (v_uid v) ;;
  store 4 (pi + nova_inode.i_gid) (v_gid v) ;;
  store 2 (pi + nova_inode.i_links_count) (v_nlink v) ;;
  store 8 (pi + nova_inode.i_size) (v_size v) ;;
  store 8 (pi + nova_inode.i_blocks) (v_blocks v) ;;
  store 4 (pi + nova_inode.i_atime) (v_atime v) ;;
  store 4 (pi + nova_inode.i_ctime) (v_ctime v) ;;
  store 4 (pi + nova_inode.i_mtime) (v_mtime v) ;;
  store 4 (pi + nova_inode.i_generation) (v_generation v) ;;
  nova_get_inode_flags h pi ;;
  if S_ISCHR (v_mode v) || S_ISBLK (v_mode v)
  then store 4 (pi + nova_inode.rdev) (v_rdev v) else mret ().

(** Reading an inode whose log has been rebuilt; the tables of operations
    are not part of the model. *)
Definition nova_read_inode (h pi_addr : Z) : M Z :=
  pi ← block_ptr pi_addr;
  sih ← get_sih h;
  uid ← load 4 (pi + nova_inode.i_uid);
  gid ← load 4 (pi + nova_inode.i_gid);
  generation ← load 4 (pi + nova_inode.i_generation);
  update_vfs h (vfs_set_ids (sih_mode sih) uid gid generation) ;;
  flags ← load 4 (pi + nova_inode.i_flags);
  nova_set_inode_flags h pi flags ;;
  valid ← load 1 (pi + nova_inode.valid);
  if decide (sih_mode sih = 0 ∨ valid = 0) then
    t ← gets w_tick;
    update_vfs h (λ v, vfs_set_bad (make_bad_inode t v)) ;;
    mret (- ESTALE)
  else
    blocks ← load 8 (pi + nova_inode.i_blocks);
    update_vfs h (vfs_set_blocks blocks) ;;
    rdev ← load 4 (pi + nova_inode.rdev);
    (if decide (Z.land (sih_mode sih) S_IFMT ∈ [S_IFREG; S_IFDIR; S_IFLNK]) then mret ()
     else update_vfs h (init_special_inode (sih_mode sih) rdev)) ;;
    atime ← load 4 (pi + nova_inode.i_atime);
    ctime ← load 4 (pi + nova_inode.i_ctime);
    mtime ← load 4 (pi + nova_inode.i_mtime);
    links ← load 2 (pi + nova_inode.i_links_count);
    update_vfs h (λ v, vfs_set_nlink links
      (vfs_set_times atime mtime ctime (vfs_set_size (sih_size sih) v))) ;;
    mret 0.

Definition nova_dirty_inode (h : Z) : M () :=
  p ← nova_get_inode h; pi ← deref p;
  v ← get_vfs h;
  store 4 (pi + nova_inode.i_atime) (v_atime v) ;;
  flush_buffer (pi + nova_inode.i_atime) 4 false.

(** ** Truncation *)
Definition nova_get_last_blocknr (h : Z) : M Z :=
  sih ← get_sih h;
  pi ← block_ptr (pi_addr sih);
  btype ← load 1 (pi + nova_inode.i_blk_type);
  mret (if decide (sih_size sih = 0) then 0
        else Z.shiftr (u64 (sih_size sih - 1)) (blk_type_to_shift btype)).

Definition check_eof_blocks (pi size : Z) : M () :=
  flags ← load 4 (pi + nova_inode.i_flags);
  blocks ← load 8 (pi + nova_inode.i_blocks);
  if decide (Z.land flags NOVA_EOFBLOCKS_FL ≠ 0 ∧
             u64 (size + PAGE_SIZE) > u64 (Z.shiftl blocks PAGE_SHIFT))
  then store 4 (pi + nova_inode.i_flags) (Z.land flags (Z.lnot NOVA_EOFBLOCKS_FL))
  else mret ().

Definition nova_truncate_file_blocks (h start end_ : Z) : M () :=
  p ← nova_get_inode h; pi ← deref p;
  btype ← load 1 (pi + nova_inode.i_blk_type);
  let data_bits := blk_type_to_shift btype in
  t ← get_time;
  update_vfs h (λ v, vfs_set_times (v_atime v) t t v) ;;
  let first_blocknr := Z.shiftr (u64 (start + 2 ^ data_bits - 1)) data_bits in
  if decide (end_ = 0) then mret () else
  let last_blocknr := Z.shiftr (end_ - 1) data_bits in
  if decide (first_blocknr > last_blocknr) then mret () else
  freed ← nova_delete_file_tree h first_blocknr last_blocknr true false;
  update_vfs h (λ v,
    vfs_set_blocks (u64 (v_blocks v - freed * 2 ^ (data_bits - PAGE_SHIFT))) v) ;;
  v ← get_vfs h;
  store 8 (pi + nova_inode.i_blocks) (v_blocks v) ;;
  check_eof_blocks pi (v_size v).

(** Zeroes the part of the last page behind the new end of the file. *)
Definition nova_clear_last_page_tail (h newsize : Z) : M () :=
  let offset := Z.land newsize (PAGE_SIZE - 1) in
  v ← get_vfs h;
  if decide (offset = 0 ∨ newsize > v_size v) then mret () else
  let length := PAGE_SIZE - offset in
  let pgoff := Z.shiftr newsize PAGE_SHIFT in
  nvmm ← nova_find_nvmm_block h None pgoff;
  if decide (nvmm = 0) then mret () else
  nvmm_addr ← block_ptr nvmm;
  write_mem Cached (WZero (nvmm_addr + offset) length) ;;
  flush_buffer (nvmm_addr + offset) length false ;;
  sih ← get_sih h;
  if decide (mmap_pages sih ≠ 0 ∧ pgoff ≤ high_dirty sih ∧ low_dirty sih ≤ pgoff) then
    match cache_tree sih !! pgoff with
    | None => mret ()
    | Some nvmm =>
        nvmm_addr ← block_ptr nvmm;
        write_mem Cached (WZero (nvmm_addr + offset) length)
    end
  else mret ().

Definition nova_setsize (h oldsize newsize : Z) : M () :=
  v ← get_vfs h;
  if S_ISREG (v_mode v) then
    (if decide (newsize ≠ oldsize) then
       nova_clear_last_page_tail h newsize ;;
       update_vfs h (vfs_set_size newsize) ;;
       update_sih h (sih_set_size newsize)
     else mret ()) ;;
    nova_truncate_file_blocks h newsize oldsize
  else mret ().

(** ** The setattr entry *)
Definition attr_mask : Z :=
  bits [ATTR_MODE; ATTR_UID; ATTR_GID; ATTR_SIZE; ATTR_ATIME; ATTR_MTIME; ATTR_CTIME].

Definition nova_update_setattr_entry (h entry : Z) (attr : iattr) : M () :=
  v ← get_vfs h;
  store 1 (entry + nova_setattr_logentry.entry_type) SET_ATTR ;;
  store 1 (entry + nova_setattr_logentry.attr) (Z.land (ia_valid attr) attr_mask) ;;
  store 2 (entry + nova_setattr_logentry.mode) (v_mode v) ;;
  store 4 (entry + nova_setattr_logentry.uid) (v_uid v) ;;
  store 4 (entry + nova_setattr_logentry.gid) (v_gid v) ;;
  store 4 (entry + nova_setattr_logentry.atime) (v_atime v) ;;
  store 4 (entry + nova_setattr_logentry.ctime) (v_ctime v) ;;
  store 4 (entry + nova_setattr_logentry.mtime) (v_mtime v) ;;
  store 8 (entry + nova_setattr_logentry.size)
    (if decide (Z.land (ia_valid attr) ATTR_SIZE ≠ 0) then ia_size attr else v_size v) ;;
  flush_buffer entry nova_setattr_logentry.sizeof false.

Definition nova_apply_setattr_entry (pi h entry : Z) : M () :=
  btype ← load 1 (pi + nova_inode.i_blk_type);
  let data_bits := blk_type_to_shift btype in
  type ← load 1 (entry + nova_setattr_logentry.entry_type);
  if decide (type ≠ SET_ATTR) then stop HBug else
  mode ← load 2 (entry + nova_setattr_logentry.mode);
  store 2 (pi + nova_inode.i_mode) mode ;;
  uid ← load 4 (entry + nova_setattr_logentry.uid);
  store 4 (pi + nova_inode.i_uid) uid ;;
  gid ← load 4 (entry + nova_setattr_logentry.gid);
  store 4 (pi + nova_inode.i_gid) gid ;;
  atime ← load 4 (entry + nova_setattr_logentry.atime);
  store 4 (pi + nova_inode.i_atime) atime ;;
  ctime ← load 4 (entry + nova_setattr_logentry.ctime);
  store 4 (pi + nova_inode.i_ctime) ctime ;;
  mtime ← load 4 (entry + nova_setattr_logentry.mtime);
  store 4 (pi + nova_inode.i_mtime) mtime ;;
  i_size ← load 8 (pi + nova_inode.i_size);
  size ← load 8 (entry + nova_setattr_logentry.size);
  (if decide (i_size > size ∧ S_ISREG mode = true) then
     let first_blocknr := Z.shiftr (u64 (size + 2 ^ data_bits - 1)) data_bits in
     let last_blocknr := if decide (0 < s64 i_size)
                         then Z.shiftr (s64 i_size - 1) data_bits else 0 in
     if decide (first_blocknr > last_blocknr) then mret ()
     else _ ← nova_delete_file_tree h first_blocknr last_blocknr false false; mret ()
   else mret ()) ;;
  store 8 (pi + nova_inode.i_size) size ;;
  update_sih h (sih_set_size size).

Definition nova_append_setattr_entry (pi h : Z) (attr : iattr) (tail : Z) : M Z :=
  curr_p ← nova_get_append_head pi h tail nova_setattr_logentry.sizeof;
  if decide (curr_p = 0) then stop HBug else
  entry ← block_ptr curr_p;
  nova_update_setattr_entry h entry attr ;;
  update_sih h (sih_set_last_setattr curr_p) ;;
  mret (u64 (curr_p + nova_setattr_logentry.sizeof)).

Definition nova_notify_change (h : Z) (attr : iattr) : M Z :=
  p ← nova_get_inode h;
  v ← get_vfs h;
  let oldsize := v_size v in
  match p with
  | None => mret (- EACCES)
  | Some pi =>
    t ← gets w_tick;
    let ret := inode_change_ok t v attr in
    if decide (ret ≠ 0) then mret ret else
    update_vfs h (λ v, setattr_copy v attr) ;;
    v ← get_vfs h;
    (if decide (Z.land (ia_valid attr) ATTR_MODE ≠ 0)
     then update_sih h (sih_set_mode (v_mode v)) else mret ()) ;;
    let ia_valid := Z.land (ia_valid attr) attr_mask in
    if decide (ia_valid = 0) then mret ret else
    new_tail ← nova_append_setattr_entry pi h attr 0;
    nova_update_tail pi new_tail ;;
    flags ← load 4 (pi + nova_inode.i_flags);
    (if decide (Z.land ia_valid ATTR_SIZE ≠ 0 ∧
                (ia_size attr ≠ oldsize ∨ Z.land flags NOVA_EOFBLOCKS_FL ≠ 0))
     then nova_setsize h oldsize (ia_size attr) else mret ()) ;;
    mret ret
  end.

(** ** [SEEK_DATA] and [SEEK_HOLE] *)

(** Returns the [unsigned long] result and [*offset]. *)
Definition nova_find_region (h offset : Z) (hole : bool) : M (Z * Z) :=
  p ← nova_get_inode h; pi ← deref p;
  btype ← load 1 (pi + nova_inode.i_blk_type);
  let data_bits := blk_type_to_shift btype in
  v ← get_vfs h;
  sih ← get_sih h;
  if decide (v_size v ≤ offset) then mret (u64 (- ENXIO), offset) else
  if decide (v_blocks v = 0 ∨ sih_size sih = 0) then
    mret (if hole then v_size v else u64 (- ENXIO), offset)
  else
  let offset_in_block := Z.land offset (2 ^ data_bits - 1) in
  let first_blocknr := Z.shiftr offset data_bits in
  let last_blocknr := Z.shiftr (v_size v) data_bits in
  r ← nova_lookup_hole_in_range h first_blocknr last_blocknr false false hole;
  match r with
  | (blocks, data_found, hole_found) =>
    let blocks := u64 blocks in
    if negb hole && negb data_found && hole_found then mret (u64 (- ENXIO), offset)
    else if data_found && negb hole_found then
      mret (0, if hole then v_size v else offset)
    else if hole && hole_found && bool_decide (blocks = 0) then
      mret (0, if data_found then offset else v_size v)
    else if decide (offset_in_block ≠ 0) then
      mret (0, s64 (offset + Z.shiftl (u64 (blocks - 1)) data_bits +
                    (2 ^ data_bits - offset_in_block)))
    else mret (0, s64 (offset + Z.shiftl blocks data_bits))
  end.
End inode.
