(* ===== verification/Dir.v ===== *)
(** * Directories (dir.c, namei.c)

    The log of a directory is a sequence of dentries; one with inode number 0
    deletes a name.  [sih->tree] maps the hash of each name to its entry. *)
From S2P Require Import Prelude Nvmm RangeTree Layout World Balloc Log FileTree Inode.
From S2P Require Import Journal InodeMap.

(** [struct dentry]: the parent directory, the name and the inode. *)
Record dentry := Dentry {
  d_parent : Z;
  d_name : list Z;
  d_inode : option Z
}.

(** [radix_tree_gang_lookup]: the first [n] items from index [from] on. *)
Fixpoint tree_gang (n : nat) (from : Z) (t : gmap Z Z) : list (Z * Z) :=
  match n with
  | O => []
  | S n =>
      match tree_next from t with
      | None => []
      | Some (k, v) => (k, v) :: tree_gang n (k + 1) t
      end
  end.

(** [strncmp] on two buffers of the same size: equal up to a NUL. *)
Fixpoint strncmp_eq (a b : list Z) : bool :=
  match a, b with
  | x :: a, y :: b => bool_decide (x = y) && (bool_decide (x = 0) || strncmp_eq a b)
  | _, _ => true
  end.

(** The name stored in an entry. *)
Definition dentry_name (entry : Z) : M (list Z) :=
  name_len ← load 1 (entry + nova_dentry.name_len);
  load_bytes (Z.to_nat name_len) (entry + nova_dentry.name).

(** nova.h; the bytes behind the name are not looked at. *)
Definition is_dir_init_entry (entry : Z) : M bool :=
  name ← dentry_name entry;
  mret (bool_decide (name = [46] ∨ name = [46; 46])).

(** ** The tree *)
Definition nova_find_dentry (h : Z) (name : list Z) : M (option Z) :=
  sih ← get_sih h; mret (tree sih !! BKDRHash name).

Definition nova_check_dentry_match (entry : Z) (name : list Z) : M bool :=
  len ← load 1 (entry + nova_dentry.name_len);
  bytes ← load_bytes (length name) (entry + nova_dentry.name);
  mret (bool_decide (len = Z.of_nat (length name)) && strncmp_eq bytes name).

Definition nova_remove_dir_radix_tree (h : Z) (name : list Z) (replay : bool) : M Z :=
  sih ← get_sih h;
  let hash := BKDRHash name in
  update_sih h (sih_set_tree (delete hash (tree sih))) ;;
  if replay then mret 0 else
  match tree sih !! hash with
  | None => mret (- EINVAL)
  | Some entry =>
      ino ← load 8 (entry + nova_dentry.ino);
      invalid ← load 1 (entry + nova_dentry.invalid);
      matches ← nova_check_dentry_match entry name;
      if decide (ino = 0 ∨ invalid ≠ 0 ∨ matches = false) then mret (- EINVAL) else
      store 1 (entry + nova_dentry.invalid) 1 ;;
      mret 0
  end.

(** The loop over one batch; returns [pos]. *)
Fixpoint delete_batch (h : Z) (entries : list (Z * Z)) (pos : Z) : M Z :=
  match entries with
  | [] => mret pos
  | (_, direntry) :: entries =>
      name ← dentry_name direntry;
      let pos := BKDRHash name in
      update_sih h (λ s, sih_set_tree (delete pos (tree s)) s) ;;
      delete_batch h entries pos
  end.

Fixpoint delete_dir_loop (fuel : nat) (h pos : Z) : M () :=
  match fuel with
  | O => stop HFuel
  | S fuel =>
      sih ← get_sih h;
      let entries := tree_gang FREE_BATCH pos (tree sih) in
      pos ← delete_batch h entries pos;
      if decide (length entries = FREE_BATCH) then delete_dir_loop fuel h (u64 (pos + 1))
      else mret ()
  end.

(** Every full batch of a consistent tree deletes its entries. *)
Definition nova_delete_dir_tree (h : Z) : M () :=
  sih ← get_sih h;
  delete_dir_loop (S (size (tree sih))) h 0.

Section dir.
Context `{RbTree} `{Env} `{Vfs}.

Definition nova_insert_dir_radix_tree (h : Z) (name : list Z) (direntry : Z) : M Z :=
  radix_tree_insert h (BKDRHash name) direntry.

(** ** Appending entries *)

(** Returns the entry and [*curr_tail]. *)
Definition nova_append_dir_inode_entry (pidir dir ino : Z) (name : list Z)
    (de_len tail link_change : Z) : M (Z * Z) :=
  curr_p ← nova_get_append_head pidir dir tail de_len;
  if decide (curr_p = 0) then stop HBug else
  entry ← block_ptr curr_p;
  v ← get_vfs dir;
  let len := Z.of_nat (length name) in
  store 1 (entry + nova_dentry.entry_type) DIR_LOG ;;
  store 8 (entry + nova_dentry.ino) ino ;;
  store 1 (entry + nova_dentry.name_len) len ;;
  store_bytes_nt (entry + nova_dentry.name) name ;;
  store 1 (entry + nova_dentry.name + len) 0 ;;
  store 1 (entry + nova_dentry.file_type) 0 ;;
  store 1 (entry + nova_dentry.invalid) 0 ;;
  store 4 (entry + nova_dentry.mtime) (v_mtime v) ;;
  store 8 (entry + nova_dentry.size) (v_size v) ;;
  let links_count := u16 (v_nlink v) in
  let links_count := if decide (links_count = 0 ∧ link_change = -1) then 0
                     else u16 (links_count + link_change) in
  store 2 (entry + nova_dentry.links_count) links_count ;;
  store 2 (entry + nova_dentry.de_len) de_len ;;
  flush_buffer entry de_len false ;;
  i_blocks ← load 8 (pidir + nova_inode.i_blocks);
  update_vfs dir (vfs_set_blocks i_blocks) ;;
  mret (curr_p, u64 (curr_p + de_len)).

(** The stores of one of the two initial entries; [name] with its NUL.  The
    fields [file_type] and [invalid] are not set. *)
Definition init_dentry (de_entry ino name_len links_count : Z) (name : list Z) : M () :=
  store 1 (de_entry + nova_dentry.entry_type) DIR_LOG ;;
  store 8 (de_entry + nova_dentry.ino) ino ;;
  store 1 (de_entry + nova_dentry.name_len) name_len ;;
  store 2 (de_entry + nova_dentry.de_len) (NOVA_DIR_LOG_REC_LEN name_len) ;;
  t ← get_time;
  store 4 (de_entry + nova_dentry.mtime) t ;;
  store 8 (de_entry + nova_dentry.size) PAGE_SIZE ;;
  store 2 (de_entry + nova_dentry.links_count) links_count ;;
  write_mem Cached (WBytes (de_entry + nova_dentry.name) name) ;;
  flush_buffer de_entry (NOVA_DIR_LOG_REC_LEN name_len) false.

Definition nova_append_dir_init_entries (pi self_ino parent_ino : Z) : M Z :=
  log_head ← load 8 (pi + nova_inode.log_head);
  if decide (log_head ≠ 0) then mret (- EINVAL) else
  r ← nova_allocate_inode_log_pages pi 1;
  match r with
  | (allocated, new_block) =>
    if decide (allocated ≠ 1) then mret (- ENOMEM) else
    new_block ← deref new_block;
    store 8 (pi + nova_inode.log_head) new_block ;;
    store 8 (pi + nova_inode.log_tail) new_block ;;
    store 8 (pi + nova_inode.i_blocks) 1 ;;
    flush_buffer (pi + nova_inode.log_head) CACHELINE_SIZE false ;;
    de_entry ← block_ptr new_block;
    init_dentry de_entry self_ino 1 1 [46; 0] ;;
    let curr_p := u64 (new_block + NOVA_DIR_LOG_REC_LEN 1) in
    len ← load 2 (de_entry + nova_dentry.de_len);
    init_dentry (de_entry + len) parent_ino 2 2 [46; 46; 0] ;;
    let curr_p := u64 (curr_p + NOVA_DIR_LOG_REC_LEN 2) in
    nova_update_tail pi curr_p ;;
    mret 0
  end.

(** ** Adding and removing names *)

(** Returns [ret] and [*new_tail], which is set unless the name is empty. *)
Definition nova_add_dentry (d : dentry) (ino inc_link tail : Z) : M (Z * option Z) :=
  let dir := d_parent d in
  let namelen := Z.of_nat (length (d_name d)) in
  if decide (namelen = 0) then mret (- EINVAL, None) else
  p ← nova_get_inode dir; pidir ← deref p;
  t ← get_time;
  update_vfs dir (λ v, vfs_set_times (v_atime v) t t v) ;;
  let loglen := u16 (NOVA_DIR_LOG_REC_LEN namelen) in
  r ← nova_append_dir_inode_entry pidir dir ino (d_name d) loglen tail inc_link;
  match r with
  | (curr_entry, curr_tail) =>
    direntry ← block_ptr curr_entry;
    ret ← nova_insert_dir_radix_tree dir (d_name d) direntry;
    mret (ret, Some curr_tail)
  end.

Definition nova_remove_dentry (d : dentry) (dec_link tail : Z) : M (Z * option Z) :=
  let dir := d_parent d in
  if decide (d_name d = []) then mret (- EINVAL, None) else
  p ← nova_get_inode dir; pidir ← deref p;
  t ← get_time;
  update_vfs dir (λ v, vfs_set_times (v_atime v) t t v) ;;
  let loglen := u16 (NOVA_DIR_LOG_REC_LEN (Z.of_nat (length (d_name d)))) in
  r ← nova_append_dir_inode_entry pidir dir 0 (d_name d) loglen tail dec_link;
  _ ← nova_remove_dir_radix_tree dir (d_name d) false;
  mret (0, Some r.2).

(** ** Replaying the log *)
Definition nova_replay_add_dentry (h entry : Z) : M Z :=
  name ← dentry_name entry;
  if decide (name = []) then mret (- EINVAL)
  else nova_insert_dir_radix_tree h name entry.

Definition nova_replay_remove_dentry (h entry : Z) : M Z :=
  name ← dentry_name entry;
  _ ← nova_remove_dir_radix_tree h name true;
  mret 0.

Definition nova_rebuild_dir_time_and_size (pi entry : Z) : M () :=
  mtime ← load 4 (entry + nova_dentry.mtime);
  store 4 (pi + nova_inode.i_ctime) mtime ;;
  store 4 (pi + nova_inode.i_mtime) mtime ;;
  size ← load 8 (entry + nova_dentry.size);
  store 8 (pi + nova_inode.i_size) size ;;
  links ← load 2 (entry + nova_dentry.links_count);
  store 2 (pi + nova_inode.i_links_count) links.

(** namei.c *)
Definition nova_apply_link_change_entry (pi entry : Z) : M () :=
  type ← load 1 (entry + nova_link_change_entry.entry_type);
  if decide (type ≠ LINK_CHANGE) then stop HBug else
  links ← load 2 (entry + nova_link_change_entry.links);
  store 2 (pi + nova_inode.i_links_count) links ;;
  ctime ← load 4 (entry + nova_link_change_entry.ctime);
  store 4 (pi + nova_inode.i_ctime) ctime ;;
  flags ← load 4 (entry + nova_link_change_entry.flags);
  store 4 (pi + nova_inode.i_flags) flags ;;
  generation ← load 4 (entry + nova_link_change_entry.generation);
  store 4 (pi + nova_inode.i_generation) generation.
End dir.
