(* ===== verification/Rebuild.v ===== *)
(** * Rebuilding an inode from its log (inode.c, dir.c, bbuild.c)

    The trees in memory are not stored: when an inode is first used after a
    mount its log is replayed from [log_head] to [log_tail]. *)
From S2P Require Import Prelude Nvmm RangeTree Layout World Balloc Log FileTree Inode.
From S2P Require Import Journal InodeMap Dir.

Definition inc_log_pages (h : Z) : M () :=
  update_sih h (λ s, sih_set_log_pages (u64 (log_pages s + 1)) s).

(** The start of a pass of a replay loop: the position of the next entry. *)
Definition replay_position (h curr_p : Z) : M Z :=
  go ← goto_next_page curr_p;
  curr_p ← (if (go : bool) then inc_log_pages h ;; next_log_page curr_p
            else mret curr_p);
  if decide (curr_p = 0) then stop HBug else mret curr_p.

(** "Keep traversing until log ends": counts the pages behind [curr_page]. *)
Fixpoint count_log_pages (fuel : nat) (h : Z) (curr_page : option Z) : M () :=
  match fuel with
  | O => stop HFuel
  | S fuel =>
    p ← deref curr_page;
    next ← load 8 (next_field p);
    if decide (next = 0) then mret ()
    else inc_log_pages h ;; count_log_pages fuel h (nova_get_block next)
  end.

Section rebuild.
Context `{RbTree} `{Env} `{Vfs}.

(** The cases [SET_ATTR] and [LINK_CHANGE], common to both loops: the next
    position, [None] for other types. *)
Definition replay_attributes (pi h curr_p type : Z) : M (option Z) :=
  addr ← block_ptr curr_p;
  if decide (type = SET_ATTR) then
    nova_apply_setattr_entry pi h addr ;;
    update_sih h (sih_set_last_setattr curr_p) ;;
    mret (Some (u64 (curr_p + nova_setattr_logentry.sizeof)))
  else if decide (type = LINK_CHANGE) then
    nova_apply_link_change_entry pi addr ;;
    update_sih h (sih_set_last_link_change curr_p) ;;
    mret (Some (u64 (curr_p + nova_link_change_entry.sizeof)))
  else mret None.

(** ** Files *)
Definition nova_rebuild_file_time_and_size (pi entry : Z) : M () :=
  mtime ← load 4 (entry + nova_file_write_entry.mtime);
  store 4 (pi + nova_inode.i_ctime) mtime ;;
  store 4 (pi + nova_inode.i_mtime) mtime ;;
  size ← load 8 (entry + nova_file_write_entry.size);
  store 8 (pi + nova_inode.i_size) size.

Fixpoint rebuild_file_loop (fuel : nat) (pi h curr_p : Z) : M Z :=
  match fuel with
  | O => stop HFuel
  | S fuel =>
    log_tail ← load 8 (pi + nova_inode.log_tail);
    if decide (curr_p = log_tail) then mret curr_p else
    curr_p ← replay_position h curr_p;
    type ← nova_get_entry_type (nova_get_block curr_p);
    next ← replay_attributes pi h curr_p type;
    match next with
    | Some next => rebuild_file_loop fuel pi h next
    | None =>
      let next := u64 (curr_p + nova_file_write_entry.sizeof) in
      if decide (type ≠ FILE_WRITE) then rebuild_file_loop fuel pi h next else
      entry ← block_ptr curr_p;
      num ← load 4 (entry + nova_file_write_entry.num_pages);
      invalid ← load 4 (entry + nova_file_write_entry.invalid_pages);
      (if decide (num ≠ invalid) then
         _ ← nova_assign_write_entry pi h entry false; mret ()
       else mret ()) ;;
      nova_rebuild_file_time_and_size pi entry ;;
      i_size ← load 8 (pi + nova_inode.i_size);
      update_sih h (sih_set_size i_size) ;;
      rebuild_file_loop fuel pi h next
    end
  end.

(** Behind the loop: size and mode, and the pages behind the tail. *)
Definition rebuild_finish (pi h curr_p : Z) : M () :=
  i_size ← load 8 (pi + nova_inode.i_size);
  update_sih h (sih_set_size i_size) ;;
  i_mode ← load 2 (pi + nova_inode.i_mode);
  update_sih h (sih_set_mode i_mode) ;;
  flush_buffer pi nova_inode.sizeof false ;;
  s ← get_sbi;
  count_log_pages (S (Z.to_nat (num_blocks s))) h (nova_get_block (BLOCK_OFF curr_p)).

(** Every entry has at least one byte, so a log without a cycle is read in
    one pass per byte at most. *)
Definition nova_rebuild_file_inode_tree (pi pi_addr h : Z) : M Z :=
  btype ← load 1 (pi + nova_inode.i_blk_type);
  let data_bits := blk_type_to_shift btype in
  update_sih h (λ s, sih_set_pi (sih_ino s) pi_addr s) ;;
  curr_p ← load 8 (pi + nova_inode.log_head);
  log_tail ← load 8 (pi + nova_inode.log_tail);
  if decide (curr_p = 0 ∧ log_tail = 0) then mret 0 else
  update_sih h (sih_set_log_pages 1) ;;
  s ← get_sbi;
  curr_p ← rebuild_file_loop (S (Z.to_nat (num_blocks s * 4096))) pi h curr_p;
  rebuild_finish pi h curr_p ;;
  sih ← get_sih h;
  store 8 (pi + nova_inode.i_blocks)
    (u64 (log_pages sih + Z.shiftr (sih_size sih) data_bits)) ;;
  mret 0.

(** ** Directories *)

(** [ret] is a variable of the function; it is uninitialised ([None]) until
    an entry is added or removed, and testing it then is undefined. *)
Definition replay_dentry (h entry : Z) (ret : option Z) : M (option Z) :=
  ino ← load 8 (entry + nova_dentry.ino);
  if decide (ino > 0) then
    invalid ← load 1 (entry + nova_dentry.invalid);
    if decide (invalid = 0) then r ← nova_replay_add_dentry h entry; mret (Some r)
    else mret ret
  else r ← nova_replay_remove_dentry h entry; mret (Some r).

Fixpoint rebuild_dir_loop (fuel : nat) (pi h curr_p : Z) (ret : option Z) : M Z :=
  match fuel with
  | O => stop HFuel
  | S fuel =>
    log_tail ← load 8 (pi + nova_inode.log_tail);
    if decide (curr_p = log_tail) then mret curr_p else
    curr_p ← replay_position h curr_p;
    type ← nova_get_entry_type (nova_get_block curr_p);
    next ← replay_attributes pi h curr_p type;
    match next with
    | Some next => rebuild_dir_loop fuel pi h next ret
    | None =>
      entry ← block_ptr curr_p;
      ret ← replay_dentry h entry ret;
      r ← deref ret;
      if decide (r ≠ 0) then mret curr_p else
      nova_rebuild_dir_time_and_size pi entry ;;
      de_len ← load 2 (entry + nova_dentry.de_len);
      rebuild_dir_loop fuel pi h (u64 (curr_p + de_len)) ret
    end
  end.

Definition nova_rebuild_dir_inode_tree (pi pi_addr h : Z) : M Z :=
  update_sih h (λ s, sih_set_pi (sih_ino s) pi_addr s) ;;
  curr_p ← load 8 (pi + nova_inode.log_head);
  if decide (curr_p = 0) then stop HBug else
  update_sih h (sih_set_log_pages 1) ;;
  s ← get_sbi;
  curr_p ← rebuild_dir_loop (S (Z.to_nat (num_blocks s * 4096))) pi h curr_p None;
  rebuild_finish pi h curr_p ;;
  sih ← get_sih h;
  store 8 (pi + nova_inode.i_blocks) (log_pages sih) ;;
  mret 0.

(** ** Any inode (bbuild.c) *)
Definition nova_init_header (h i_mode : Z) : M () :=
  update_sih h (λ s,
    Sih ∅ ∅ i_mode 0 0 (sih_ino s) 0 0 (2 ^ 64 - 1) 0 (valid_bytes s)
      (last_setattr s) (last_link_change s)).

Definition nova_rebuild_inode (h pi_addr : Z) : M Z :=
  pi ← block_ptr pi_addr;
  valid ← load 1 (pi + nova_inode.valid);
  if decide (valid = 0) then mret (- EINVAL) else
  nova_ino ← load 8 (pi + nova_inode.nova_ino);
  i_mode ← load 2 (pi + nova_inode.i_mode);
  nova_init_header h i_mode ;;
  update_sih h (λ s, sih_set_pi nova_ino (World.pi_addr s) s) ;;
  (if decide (Z.land i_mode S_IFMT = S_IFLNK ∨ Z.land i_mode S_IFMT = S_IFREG) then
     _ ← nova_rebuild_file_inode_tree pi pi_addr h; mret ()
   else if decide (Z.land i_mode S_IFMT = S_IFDIR) then
     _ ← nova_rebuild_dir_inode_tree pi pi_addr h; mret ()
   else
     log_head ← load 8 (pi + nova_inode.log_head);
     (if decide (log_head ≠ 0) then
        _ ← nova_rebuild_file_inode_tree pi pi_addr h; mret ()
      else mret ()) ;;
     update_sih h (λ s, sih_set_pi (sih_ino s) pi_addr s)) ;;
  mret 0.
End rebuild.
