(* ===== verification/InodeCycle.v ===== *)
(** * Life cycle of inodes (inode.c)

    Bringing an inode into memory, creating a new one, and what happens when
    the kernel drops one.  The dentry cache, the inode hash and reference
    counts are the kernel's; dropping the last reference of an inode is the
    separate operation [nova_evict_inode]. *)
From S2P Require Import Prelude Nvmm RangeTree Layout World Balloc Log FileTree Inode.
From S2P Require Import Journal InodeMap Dir Rebuild.

(** [enum nova_new_inode_type] *)
Inductive nova_new_inode_type := TYPE_CREATE | TYPE_MKNOD | TYPE_SYMLINK | TYPE_MKDIR.

Section cycle.
Context `{RbTree} `{Env} `{Vfs}.

(** Marks an inode bad; its last reference is dropped. *)
Definition drop_bad_inode (h : Z) : M () :=
  t ← gets w_tick;
  update_vfs h (λ v, vfs_set_bad (make_bad_inode t v)).

(** [ERR_PTR] is [inl].  The call [nova_flush_buffer(&pi, ...)] flushes the
    local variable, not the inode: nothing of NVMM. *)
Definition nova_new_vfs_inode (type : nova_new_inode_type)
    (dir pi_addr ino mode size rdev : Z) : M (Z + Z) :=
  t ← gets w_tick;
  inodes ← gets w_inodes;
  match new_inode t inodes with
  | None => mret (inl (- ENOMEM))
  | Some (h, i) =>
    put_inode h i ;;
    dv ← get_vfs dir;
    time ← get_time;
    s ← get_sbi;
    let generation := u32 (next_generation (mnt s) + 1) in
    modify (λ w, set_sbi (set_mnt
      (MountInfo (s_mount_opt (mnt s)) generation (sbi_mode (mnt s)) (sbi_uid (mnt s))
         (sbi_gid (mnt s)) (bpi (mnt s))) (w_sbi w)) w) ;;
    update_vfs h (λ v,
      let v := inode_init_owner dv mode v in
      vfs_set_size size (vfs_set_blocks 0 (vfs_set_times time time time
        (vfs_set_ids (v_mode v) (v_uid v) (v_gid v) generation v)))) ;;
    d ← nova_get_inode dir;
    match d with
    | None => drop_bad_inode h ;; mret (inl (- EACCES))
    | Some diri =>
      pi ← block_ptr pi_addr;
      update_vfs h (vfs_set_ino ino) ;;
      (match type with
       | TYPE_MKNOD => update_vfs h (init_special_inode mode rdev)
       | TYPE_MKDIR => update_vfs h (vfs_set_nlink 2)
       | TYPE_CREATE | TYPE_SYMLINK => mret ()
       end) ;;
      store 1 (pi + nova_inode.i_blk_type) NOVA_DEFAULT_BLOCK_TYPE ;;
      dflags ← load 4 (diri + nova_inode.i_flags);
      store 4 (pi + nova_inode.i_flags) (nova_mask_flags mode dflags) ;;
      store 8 (pi + nova_inode.log_head) 0 ;;
      store 8 (pi + nova_inode.log_tail) 0 ;;
      store 8 (pi + nova_inode.nova_ino) ino ;;
      v ← get_vfs h;
      nova_init_header h (v_mode v) ;;
      update_sih h (sih_set_pi ino pi_addr) ;;
      nova_update_inode h pi ;;
      flags ← load 4 (pi + nova_inode.i_flags);
      nova_set_inode_flags h pi flags ;;
      t ← gets w_tick;
      if insert_inode_locked t ino then mret (inr h)
      else drop_bad_inode h ;; mret (inl (- EINVAL))
    end
  end.

(** ** Dropping an inode *)
Definition nova_free_inode (h : Z) : M Z :=
  p ← nova_get_inode h; pi ← deref p;
  valid ← load 1 (pi + nova_inode.valid);
  (if decide (valid ≠ 0) then store 1 (pi + nova_inode.valid) 0 else mret ()) ;;
  nova_free_inode_log pi ;;
  store 8 (pi + nova_inode.i_blocks) 0 ;;
  update_sih h (λ s, sih_set_log_pages 0 (sih_set_mode 0
    (sih_set_pi (sih_ino s) 0 (sih_set_size 0 s)))) ;;
  nova_ino ← load 8 (pi + nova_inode.nova_ino);
  nova_free_inuse_inode nova_ino.

Definition nova_free_dram_resource (h : Z) : M Z :=
  sih ← get_sih h;
  if S_ISREG (sih_mode sih) then
    last_blocknr ← nova_get_last_blocknr h;
    nova_delete_file_tree h 0 last_blocknr false true
  else if S_ISDIR (sih_mode sih) then nova_delete_dir_tree h ;; mret 1
  else mret 0.

(** An inode without links gives its blocks, its log and its number back. *)
Definition evict_destroy (h : Z) : M () :=
  v ← get_vfs h;
  let fmt := Z.land (v_mode v) S_IFMT in
  (if decide (fmt = S_IFREG) then
     last_blocknr ← nova_get_last_blocknr h;
     _ ← nova_delete_file_tree h 0 last_blocknr true true; mret ()
   else if decide (fmt = S_IFDIR) then nova_delete_dir_tree h
   else if decide (fmt = S_IFLNK) then
     _ ← nova_delete_file_tree h 0 0 true true; mret ()
   else mret ()) ;;
  err ← nova_free_inode h;
  if decide (err ≠ 0) then mret () else
  t ← get_time;
  update_vfs h (λ v, vfs_set_size 0 (vfs_set_times (v_atime v) t t v)).

Definition nova_evict_inode (h : Z) : M () :=
  v ← get_vfs h;
  if decide (v_nlink v = 0 ∧ v_bad v = false ∧
             Z.land (v_flags v) (Z.lor S_APPEND S_IMMUTABLE) = 0)
  then evict_destroy h
  else _ ← nova_free_dram_resource h; mret ().

(** ** Bringing an inode into memory *)
Definition nova_iget (ino : Z) : M (Z + Z) :=
  t ← gets w_tick;
  inodes ← gets w_inodes;
  match iget_locked t ino inodes with
  | None => mret (inl (- ENOMEM))
  | Some (h, None) => mret (inr h)
  | Some (h, Some i) =>
    put_inode h i ;;
    a ← (if decide (ino = NOVA_ROOT_INO) then mret (inr NOVA_ROOT_INO_START)
         else nova_get_inode_address ino false);
    match a with
    | inl err => drop_bad_inode h ;; mret (inl err)
    | inr pi_addr =>
      if decide (pi_addr = 0) then drop_bad_inode h ;; mret (inl (- EACCES)) else
      err ← nova_rebuild_inode h pi_addr;
      if decide (err ≠ 0) then drop_bad_inode h ;; mret (inl err) else
      err ← nova_read_inode h pi_addr;
      if decide (err ≠ 0) then drop_bad_inode h ;; mret (inl err) else
      update_vfs h (vfs_set_ino ino) ;;
      mret (inr h)
    end
  end.
End cycle.
