(* ===== verification/Dax.v ===== *)
(** * Reading and writing files (dax.c)

    A write goes to newly allocated blocks; a write entry for each run of
    blocks is appended to the log, the tail is moved over all of them at
    once, and then the pages of the file are pointed to the new entries and
    the blocks they replace are freed. *)
From S2P Require Import Prelude Nvmm RangeTree Layout World Balloc Log FileTree Inode.

(** What the functions ask of the kernel about the caller: whether the file
    is mapped, whether the user buffer is accessible ([access_ok]) and how
    many bytes of a copy from or to it fail ([uncopied]); [stack_garbage] is
    what the padding of a local structure holds. *)
Class Uaccess := {
  mapping_mapped : N → bool;
  access_ok : N → bool;
  uncopied : N → Z → Z;
  file_remove_privs : N → Z;
  stack_garbage : N → Z
}.

(** A copy of [n] bytes fails at most all of them. *)
Class UaccessLaws `{Uaccess} : Prop := {
  uncopied_range t n : 0 ≤ n → 0 ≤ uncopied t n ≤ n
}.

(** The bytes of a write entry whose type was set after [block]. *)
Definition encode_write_entry (block pgoff num_pages invalid_pages mtime padding size : Z)
  : list Z :=
  FILE_WRITE :: drop 1 (le_split 8 block) ++ le_split 8 pgoff ++ le_split 4 num_pages ++
  le_split 4 invalid_pages ++ le_split 4 mtime ++ le_split 4 padding ++ le_split 8 size.

Section dax.
Context `{RbTree} `{Env} `{Uaccess}.

(** A question to the kernel. *)
Definition ask {A} (f : N → A) : M A := λ w, Done (f (w_tick w), next_tick w).

(** ** Reading *)

(** Where the bytes of page [index] are: [None] for a hole; [nr] is the
    maximum number of bytes to copy.  [inl]: the entry does not cover the
    page. *)
Definition read_page (h index : Z) : M (Z + Z * option Z) :=
  entry ← nova_get_write_entry h index;
  match entry with
  | None => mret (inr (PAGE_SIZE, None))
  | Some e =>
    pgoff ← load 8 (e + nova_file_write_entry.pgoff);
    num ← load 4 (e + nova_file_write_entry.num_pages);
    if decide (index < pgoff ∨ num ≤ u64 (index - pgoff)) then mret (inl (- EINVAL)) else
    invalid ← load 4 (e + nova_file_write_entry.invalid_pages);
    let nr := if decide (invalid = 0) then u64 ((num - (index - pgoff)) * PAGE_SIZE)
              else PAGE_SIZE in
    nvmm ← get_nvmm e index;
    dax_mem ← block_ptr (u64 (Z.shiftl nvmm PAGE_SHIFT));
    mret (inr (nr, Some dax_mem))
  end.

(** The result of the loop: [inl] returns at once, [inr (copied, error)] goes
    to the label [out]; [out] are the bytes in the user buffer. *)
Fixpoint read_loop (fuel : nat) (h isize len index offset : Z) (out : list Z)
  : M (Z + list Z * Z) :=
  match fuel with
  | O => stop HFuel
  | S fuel =>
    let end_index := Z.shiftr (isize - 1) PAGE_SHIFT in
    if decide (end_index < index) then mret (inr (out, 0)) else
    if decide (index = end_index ∧ Z.land (isize - 1) 4095 + 1 ≤ offset)
    then mret (inr (out, 0)) else
    r ← read_page h index;
    match r with
    | inl e => mret (inl e)
    | inr (nr, dax_mem) =>
      let copied := Z.of_nat (length out) in
      let nr := u64 (nr - offset) in
      let nr := if decide (nr > u64 (len - copied)) then u64 (len - copied) else nr in
      left_ ← ask (λ t, uncopied t nr);
      bytes ← match dax_mem with
              | Some p => load_bytes (Z.to_nat nr) (p + offset)
              | None => mret (replicate (Z.to_nat nr) 0)
              end;
      if decide (left_ ≠ 0) then mret (inr (out, - EFAULT)) else
      let out := out ++ bytes in
      let offset := offset + nr in
      if decide (copied + nr < len)
      then read_loop fuel h isize len (index + Z.shiftr offset PAGE_SHIFT)
             (Z.land offset 4095) out
      else mret (inr (out, 0))
    end
  end.

(** Returns the result, [*ppos] and the bytes copied.  After the first pass
    each one but the last covers whole pages. *)
Definition do_dax_mapping_read (h len ppos : Z) : M (Z * Z * list Z) :=
  let pos := ppos in
  let index := Z.shiftr pos PAGE_SHIFT in
  let offset := Z.land pos 4095 in
  let out (r : list Z * Z) :=
    let copied := Z.of_nat (length r.1) in
    mret (if decide (copied ≠ 0) then copied else r.2, pos + copied, r.1) in
  ok ← ask access_ok;
  if negb ok then out ([], - EFAULT) else
  v ← get_vfs h;
  let isize := v_size v in
  if decide (isize = 0) then out ([], 0) else
  let len := if decide (len > u64 (isize - pos)) then u64 (isize - pos) else len in
  if decide (len = 0) then out ([], 0) else
  r ← read_loop (S (S (Z.to_nat (len / PAGE_SIZE)))) h isize len index offset [];
  match r with
  | inl e => mret (e, ppos, [])
  | inr r => out r
  end.

Definition nova_dax_file_read (h len ppos : Z) : M (Z * Z * list Z) :=
  do_dax_mapping_read h len ppos.

(** ** Partial blocks *)
Definition nova_copy_partial_block (entry index offset kmem : Z) (is_end_blk : bool)
  : M () :=
  nvmm ← get_nvmm entry index;
  match nova_get_block (u64 (Z.shiftl nvmm PAGE_SHIFT)) with
  | None => mret ()
  | Some ptr =>
    if is_end_blk then
      bytes ← load_bytes (Z.to_nat (PAGE_SIZE - offset)) (ptr + offset);
      write_mem Cached (WBytes (kmem + offset) bytes)
    else
      bytes ← load_bytes (Z.to_nat offset) ptr;
      write_mem Cached (WBytes kmem bytes)
  end.

Definition nova_handle_head_tail_blocks (pi h pos count kmem : Z) : M () :=
  btype ← load 1 (pi + nova_inode.i_blk_type);
  let blk_size := blk_type_to_size btype in
  let num_blocks := Z.shiftr (u64 (count + Z.land pos (PAGE_SIZE - 1) - 1)) PAGE_SHIFT + 1 in
  let offset := Z.land pos (blk_size - 1) in
  let start_blk := Z.shiftr pos PAGE_SHIFT in
  let end_blk := u64 (start_blk + num_blocks - 1) in
  (if decide (offset ≠ 0) then
     entry ← nova_get_write_entry h start_blk;
     (match entry with
      | None => write_mem Cached (WZero kmem offset)
      | Some e => nova_copy_partial_block e start_blk offset kmem false
      end) ;;
     flush_buffer kmem offset false
   else mret ()) ;;
  let kmem := kmem + Z.shiftl (num_blocks - 1) PAGE_SHIFT in
  let eblk_offset := Z.land (u64 (pos + count)) (blk_size - 1) in
  if decide (eblk_offset ≠ 0) then
    entry ← nova_get_write_entry h end_blk;
    (match entry with
     | None => write_mem Cached (WZero (kmem + eblk_offset) (PAGE_SIZE - eblk_offset))
     | Some e => nova_copy_partial_block e end_blk eblk_offset kmem true
     end) ;;
    flush_buffer (kmem + eblk_offset) (PAGE_SIZE - eblk_offset) false
  else mret ().

(** ** Behind the commit *)
Fixpoint reassign_loop (fuel : nat) (pi h curr_p : Z) : M Z :=
  match fuel with
  | O => stop HFuel
  | S fuel =>
    log_tail ← load 8 (pi + nova_inode.log_tail);
    if decide (curr_p = log_tail) then mret 0 else
    curr_p ← (if is_last_entry curr_p nova_file_write_entry.sizeof
              then next_log_page curr_p else mret curr_p);
    if decide (curr_p = 0) then mret (- EINVAL) else
    entry_data ← block_ptr curr_p;
    type ← load 1 entry_data;
    (if decide (type ≠ FILE_WRITE) then mret ()
     else _ ← nova_assign_write_entry pi h entry_data true; mret ()) ;;
    reassign_loop fuel pi h (u64 (curr_p + nova_file_write_entry.sizeof))
  end.

(** Each pass moves on by 40 bytes of a page of the log. *)
Definition nova_reassign_file_tree (pi h begin_tail : Z) : M Z :=
  s ← get_sbi;
  reassign_loop (S (Z.to_nat (num_blocks s * 4096))) pi h begin_tail.

Fixpoint cleanup_loop (fuel : nat) (pi curr_p end_tail : Z) : M Z :=
  match fuel with
  | O => stop HFuel
  | S fuel =>
    if decide (curr_p = end_tail) then mret 0 else
    curr_p ← (if is_last_entry curr_p nova_file_write_entry.sizeof
              then next_log_page curr_p else mret curr_p);
    if decide (curr_p = 0) then mret (- EINVAL) else
    entry ← block_ptr curr_p;
    type ← load 1 entry;
    (if decide (type ≠ FILE_WRITE) then mret ()
     else
       block ← load 8 (entry + nova_file_write_entry.block);
       num ← load 4 (entry + nova_file_write_entry.num_pages);
       btype ← load 1 (pi + nova_inode.i_blk_type);
       _ ← nova_free_data_blocks btype (Z.shiftr block PAGE_SHIFT) (s32 num);
       mret ()) ;;
    cleanup_loop fuel pi (u64 (curr_p + nova_file_write_entry.sizeof)) end_tail
  end.

Definition nova_cleanup_incomplete_write (pi blocknr allocated begin_tail end_tail : Z)
  : M Z :=
  (if decide (0 < blocknr ∧ 0 < allocated) then
     btype ← load 1 (pi + nova_inode.i_blk_type);
     _ ← nova_free_data_blocks btype blocknr allocated; mret ()
   else mret ()) ;;
  if decide (begin_tail = 0 ∨ end_tail = 0) then mret 0 else
  s ← get_sbi;
  cleanup_loop (S (Z.to_nat (num_blocks s * 4096))) pi begin_tail end_tail.

(** ** Writing *)

(** The local variables of the loop of [nova_cow_file_write]. *)
Record cow_state := Cow {
  c_pos : Z;
  c_buf : list Z;
  c_count : Z;
  c_num_blocks : Z;
  c_written : Z;
  c_temp_tail : Z;
  c_begin_tail : Z;
  c_blocknr : Z;
  c_allocated : Z
}.

(** One pass: [inl ret] goes to the label [out], [inr true] on to the next
    pass, [inr false] breaks. *)
Definition cow_step (pi h time : Z) (c : cow_state) : M ((Z + bool) * cow_state) :=
  btype ← load 1 (pi + nova_inode.i_blk_type);
  let offset := Z.land (c_pos c) (blk_type_to_size btype - 1) in
  let start_blk := Z.shiftr (c_pos c) PAGE_SHIFT in
  r ← nova_new_data_blocks btype (u32 (c_num_blocks c)) false;
  match r with
  | (allocated, blocknr) =>
    let blocknr := default (c_blocknr c) blocknr in
    let c1 := Cow (c_pos c) (c_buf c) (c_count c) (c_num_blocks c) (c_written c)
                (c_temp_tail c) (c_begin_tail c) blocknr allocated in
    if decide (allocated ≤ 0) then mret (inl allocated, c1) else
    let bytes := u64 (PAGE_SIZE * allocated - offset) in
    let bytes := if decide (bytes > c_count c) then c_count c else bytes in
    kmem ← block_ptr (nova_get_block_off blocknr);
    (if decide (offset ≠ 0 ∨ Z.land (u64 (offset + bytes)) (PAGE_SIZE - 1) ≠ 0)
     then nova_handle_head_tail_blocks pi h (c_pos c) bytes kmem else mret ()) ;;
    left_ ← ask (λ t, uncopied t bytes);
    let copied := bytes - left_ in
    store_bytes_nt (kmem + offset) (take (Z.to_nat copied) (c_buf c)) ;;
    v ← get_vfs h;
    garbage ← ask stack_garbage;
    let size := if decide (u64 (c_pos c + copied) > v_size v) then u64 (c_pos c + copied)
                else v_size v in
    let entry_data := encode_write_entry (nova_get_block_off blocknr) start_blk allocated
                        0 time garbage size in
    curr_entry ← nova_append_file_write_entry pi h entry_data (c_temp_tail c);
    if decide (curr_entry = 0) then mret (inl (- ENOSPC), c1) else
    let c2 := if decide (0 < copied)
              then Cow (c_pos c + copied) (drop (Z.to_nat copied) (c_buf c))
                     (c_count c - copied) (u64 (c_num_blocks c - allocated))
                     (c_written c + copied) (c_temp_tail c) (c_begin_tail c) blocknr
                     allocated
              else c1 in
    if decide (copied ≠ bytes) then mret (inr false, c2) else
    mret (inr true,
          Cow (c_pos c2) (c_buf c2) (c_count c2) (c_num_blocks c2) (c_written c2)
            (u64 (curr_entry + nova_file_write_entry.sizeof))
            (if decide (c_begin_tail c = 0) then curr_entry else c_begin_tail c)
            blocknr allocated)
  end.

Fixpoint cow_loop (fuel : nat) (pi h time : Z) (c : cow_state)
  : M ((Z + ()) * cow_state) :=
  match fuel with
  | O => stop HFuel
  | S fuel =>
    if decide (c_num_blocks c = 0) then mret (inr (), c) else
    r ← cow_step pi h time c;
    match r with
    | (inl ret, c) => mret (inl ret, c)
    | (inr false, c) => mret (inr (), c)
    | (inr true, c) => cow_loop fuel pi h time c
    end
  end.

(** Behind the loop: commit and switch the pages over.  [ret] is a [size_t]. *)
Definition cow_commit (pi h total_blocks ppos : Z) (c : cow_state) : M (Z * Z) :=
  btype ← load 1 (pi + nova_inode.i_blk_type);
  let data_bits := blk_type_to_shift btype in
  i_blocks ← load 8 (pi + nova_inode.i_blocks);
  store 8 (pi + nova_inode.i_blocks)
    (u64 (i_blocks + Z.shiftl total_blocks (data_bits - PAGE_SHIFT))) ;;
  nova_update_tail pi (c_temp_tail c) ;;
  ret ← nova_reassign_file_tree pi h (c_begin_tail c);
  if decide (ret ≠ 0) then mret (u64 ret, ppos) else
  i_blocks ← load 8 (pi + nova_inode.i_blocks);
  update_vfs h (vfs_set_blocks i_blocks) ;;
  v ← get_vfs h;
  (if decide (c_pos c > v_size v) then
     update_vfs h (vfs_set_size (c_pos c)) ;; update_sih h (sih_set_size (c_pos c))
   else mret ()) ;;
  mret (u64 (c_written c), c_pos c).

(** Returns the [ssize_t] result and [*ppos].  A pass of the loop writes at
    least one block.  [ret] is unsigned, so the test in front of the clean-up
    never succeeds. *)
Definition nova_cow_file_write (h : Z) (buf : list Z) (ppos : Z) (append : bool)
  : M (Z * Z) :=
  let len := Z.of_nat (length buf) in
  if decide (len = 0) then mret (0, ppos) else
  mapped ← ask mapping_mapped;
  if (mapped : bool) then mret (- EACCES, ppos) else
  ok ← ask access_ok;
  if negb ok then mret (- EFAULT, ppos) else
  v ← get_vfs h;
  let pos := if append then v_size v else ppos in
  p ← nova_get_inode h; pi ← deref p;
  let offset := Z.land pos (PAGE_SIZE - 1) in
  let num_blocks := Z.shiftr (u64 (len + offset - 1)) PAGE_SHIFT + 1 in
  privs ← ask file_remove_privs;
  if decide (privs ≠ 0) then mret (privs, ppos) else
  t ← get_time;
  update_vfs h (λ v, vfs_set_times (v_atime v) t t v) ;;
  time ← get_time;
  temp_tail ← load 8 (pi + nova_inode.log_tail);
  r ← cow_loop (S (Z.to_nat num_blocks)) pi h time
        (Cow pos buf len num_blocks 0 temp_tail 0 0 0);
  match r with
  | (inl ret, c) =>
      let ret := u64 ret in
      (if decide (ret < 0) then
         _ ← nova_cleanup_incomplete_write pi (c_blocknr c) (c_allocated c)
               (c_begin_tail c) (c_temp_tail c); mret ()
       else mret ()) ;;
      mret (s64 ret, ppos)
  | (inr _, c) =>
      r ← cow_commit pi h num_blocks ppos c;
      mret (s64 r.1, r.2)
  end.

Definition nova_dax_file_write (h : Z) (buf : list Z) (ppos : Z) (append : bool) : M (Z * Z) :=
  nova_cow_file_write h buf ppos append.

(** ** Mapping blocks for mmap *)

(** [struct buffer_head]: the block [map_bh] sets, and [b_size]. *)
Record buffer_head := Bh { b_blocknr : option Z; b_size : Z }.

(** The entry exists: how many blocks it gives and from which on. *)
Definition get_blocks_mapped (entry iblock max_blocks : Z) : M (Z * Z) :=
  invalid ← load 4 (entry + nova_file_write_entry.invalid_pages);
  num ← load 4 (entry + nova_file_write_entry.num_pages);
  pgoff ← load 8 (entry + nova_file_write_entry.pgoff);
  let num_blocks := if decide (invalid = 0) then s32 (num - (iblock - pgoff)) else 1 in
  let num_blocks := if decide (u64 num_blocks > max_blocks) then s32 max_blocks
                    else num_blocks in
  nvmm ← get_nvmm entry iblock;
  mret (num_blocks, nvmm).

(** The entry is new: allocates zeroed blocks up to the next entry.  Returns
    [ret], [num_blocks], [nvmm], and for the clean-up [blocknr],
    [allocated] and [temp_tail]. *)
Definition get_blocks_create (pi h iblock max_blocks : Z)
  : M (Z * Z * Z * (Z * Z * Z)) :=
  t ← get_time;
  update_vfs h (λ v, vfs_set_times (v_atime v) t t v) ;;
  time ← get_time;
  entry ← nova_find_next_entry h iblock;
  num_blocks ← match entry with
    | None => mret (s32 max_blocks)
    | Some e =>
      next_pgoff ← load 8 (e + nova_file_write_entry.pgoff);
      if decide (next_pgoff ≤ iblock) then stop HBug else
      let num_blocks := s32 (next_pgoff - iblock) in
      mret (if decide (u64 num_blocks > max_blocks) then s32 max_blocks else num_blocks)
    end;
  btype ← load 1 (pi + nova_inode.i_blk_type);
  r ← nova_new_data_blocks btype (u32 num_blocks) true;
  match r with
  | (allocated, blocknr) =>
    let blocknr := default 0 blocknr in
    if decide (allocated ≤ 0) then
      mret (allocated, num_blocks, 0, (blocknr, allocated, 0)) else
    let num_blocks := allocated in
    v ← get_vfs h;
    garbage ← ask stack_garbage;
    let entry_data := encode_write_entry (nova_get_block_off blocknr) iblock num_blocks
                        0 time garbage (v_size v) in
    log_tail ← load 8 (pi + nova_inode.log_tail);
    curr_entry ← nova_append_file_write_entry pi h entry_data log_tail;
    if decide (curr_entry = 0) then
      mret (- ENOSPC, num_blocks, 0, (blocknr, allocated, 0)) else
    i_blocks ← load 8 (pi + nova_inode.i_blocks);
    store 8 (pi + nova_inode.i_blocks)
      (u64 (i_blocks + Z.shiftl num_blocks (blk_type_to_shift btype - PAGE_SHIFT))) ;;
    let temp_tail := u64 (curr_entry + nova_file_write_entry.sizeof) in
    nova_update_tail pi temp_tail ;;
    ret ← nova_reassign_file_tree pi h curr_entry;
    (if decide (ret ≠ 0) then mret () else
       i_blocks ← load 8 (pi + nova_inode.i_blocks);
       update_vfs h (vfs_set_blocks i_blocks)) ;;
    mret (ret, num_blocks, blocknr, (blocknr, allocated, temp_tail))
  end.

Definition nova_dax_get_blocks (h iblock max_blocks : Z) (bh : buffer_head)
    (create : bool) : M (Z * buffer_head) :=
  if decide (max_blocks = 0) then mret (0, bh) else
  let map_blocks (num_blocks nvmm : Z) :=
    mret (num_blocks, Bh (Some nvmm) (if decide (num_blocks > 1)
                                      then PAGE_SIZE * num_blocks else b_size bh)) in
  entry ← nova_get_write_entry h iblock;
  match entry with
  | Some entry =>
      r ← get_blocks_mapped entry iblock max_blocks;
      map_blocks r.1 r.2
  | None =>
    if negb create then mret (0, bh) else
    p ← nova_get_inode h; pi ← deref p;
    r ← get_blocks_create pi h iblock max_blocks;
    match r with
    | (ret, num_blocks, nvmm, (blocknr, allocated, temp_tail)) =>
      if decide (ret < 0) then
        _ ← nova_cleanup_incomplete_write pi blocknr allocated 0 temp_tail;
        mret (ret, bh)
      else map_blocks num_blocks nvmm
    end
  end.

Definition nova_dax_get_block (h iblock : Z) (bh : buffer_head) (create : bool)
  : M (Z * buffer_head) :=
  let max_blocks := Z.shiftr (b_size bh) PAGE_SHIFT in
  r ← nova_dax_get_blocks h iblock max_blocks bh create;
  match r with
  | (ret, bh) =>
    if decide (0 < ret) then mret (0, Bh (b_blocknr bh) (Z.shiftl ret PAGE_SHIFT))
    else mret (ret, bh)
  end.
End dax.
