(* ===== verification/DaxProofs.v ===== *)
(** * Reading is reading the abstract file (dax.c)

    The page tree and the write entries of an inode denote a file: a function
    from offsets to bytes, zero in holes.  [do_dax_mapping_read] copies whole
    extents at a time; it returns the bytes of that function. *)
From S2P Require Import Prelude Nvmm RangeTree Layout World Balloc Log FileTree Inode Dax.
From S2P Require Import BallocList BallocProofs.

(** ** The abstract file *)

(** The fields of the write entry at [e]. *)
Definition we_blocknr (m : mem) (e : Z) : Z :=
  Z.shiftr (ld 8 m (e + nova_file_write_entry.block)) PAGE_SHIFT.
Definition we_pgoff (m : mem) (e : Z) : Z := ld 8 m (e + nova_file_write_entry.pgoff).
Definition we_num (m : mem) (e : Z) : Z := ld 4 m (e + nova_file_write_entry.num_pages).
Definition we_invalid (m : mem) (e : Z) : Z :=
  ld 4 m (e + nova_file_write_entry.invalid_pages).

(** The block of page [p] in entry [e]. *)
Definition page_block (m : mem) (e p : Z) : Z := we_blocknr m e + p - we_pgoff m e.

Definition file_byte (m : mem) (t : gmap Z Z) (x : Z) : Z :=
  match t !! (x / 4096) with
  | None => 0
  | Some e => ld8 m (page_block m e (x / 4096) * 4096 + x mod 4096)
  end.

(** Every page of the tree lies in its entry; an entry without invalid pages
    still has all of its pages. *)
Record tree_ok (m : mem) (t : gmap Z Z) : Prop := {
  to_in p e : t !! p = Some e → we_pgoff m e ≤ p < we_pgoff m e + we_num m e;
  to_small p e : t !! p = Some e →
    0 < we_blocknr m e ∧ we_blocknr m e + we_num m e < 2 ^ 44 ∧ p < 2 ^ 52;
  to_valid p e q : t !! p = Some e → we_invalid m e = 0 →
    we_pgoff m e ≤ q < we_pgoff m e + we_num m e → t !! q = Some e
}.

Lemma ld_bytes_seq n m a : ld_bytes n m a = ld8 m <$> seqZ a (Z.of_nat n).
Proof.
  revert a; induction n as [|n IH]; intros a; [done|].
  change (ld_bytes (S n) m a) with (ld8 m a :: ld_bytes n m (a + 1)).
  rewrite seqZ_cons, fmap_cons by lia. f_equal. rewrite IH. f_equal. f_equal; lia.
Qed.

Lemma fmap_seqZ_ext {A} (f g : Z → A) a b n :
  (∀ i, 0 ≤ i < n → f (a + i) = g (b + i)) → f <$> seqZ a n = g <$> seqZ b n.
Proof.
  intros Hfg. unfold seqZ. rewrite <- !list_fmap_compose. apply list_fmap_ext.
  intros j i Hi%list_elem_of_lookup_2%elem_of_seq. cbn.
  rewrite !(Z.add_comm (Z.of_nat i)). apply Hfg. lia.
Qed.

(** [n] bytes from offset [o] on of the run of pages that starts at page [p]
    of entry [e]. *)
Lemma run_bytes m t p e o n :
  tree_ok m t → t !! p = Some e → 0 ≤ o → 0 ≤ p → 0 ≤ n →
  (∀ q, p ≤ q → q * 4096 < p * 4096 + o + n → t !! q = Some e) →
  ld_bytes (Z.to_nat n) m (page_block m e p * 4096 + o) =
  file_byte m t <$> seqZ (p * 4096 + o) n.
Proof.
  intros Hok Hp Ho Hp0 Hn Hrun. rewrite ld_bytes_seq, Z2Nat.id by lia. apply fmap_seqZ_ext.
  intros i Hi. unfold file_byte.
  pose proof (Z.div_mod (p * 4096 + o + i) 4096 ltac:(lia)).
  pose proof (Z.mod_pos_bound (p * 4096 + o + i) 4096 ltac:(lia)).
  assert (p ≤ (p * 4096 + o + i) / 4096) by (apply Z.div_le_lower_bound; lia).
  rewrite Hrun by lia. f_equal. unfold page_block. lia.
Qed.

Lemma hole_bytes m t p o n :
  t !! p = None → 0 ≤ o → o + n ≤ 4096 → 0 ≤ p → 0 ≤ n →
  replicate (Z.to_nat n) 0 = file_byte m t <$> seqZ (p * 4096 + o) n.
Proof.
  intros Hp Ho Hon Hp0 Hn.
  rewrite (fmap_seqZ_ext (file_byte m t) (λ _, 0) _ 0).
  - rewrite (const_fmap (λ _ : Z, 0) _ 0) by done. by rewrite length_seqZ.
  - intros i Hi. unfold file_byte. replace ((p * 4096 + o + i) / 4096) with p; [by rewrite Hp|].
    apply (Z.div_unique _ 4096 p (o + i)); lia.
Qed.

Lemma shiftr_page x : Z.shiftr x PAGE_SHIFT = x / 4096.
Proof. unfold PAGE_SHIFT. by rewrite Z.shiftr_div_pow2 by lia. Qed.
Lemma land_page x : Z.land x 4095 = x mod 4096.
Proof. apply (land_low_mask x 12). lia. Qed.

Section read.
Context `{RbTree} `{Env} `{Uaccess}.

(** [w'] is [w] some requests to the kernel later. *)
Definition ticked (w w' : world) : Prop := ∃ t, w' = set_tick t w.

Lemma ticked_refl w : ticked w w.
Proof. exists (w_tick w). by destruct w. Qed.
Lemma ticked_next w w' : ticked (next_tick w) w' → ticked w w'.
Proof. intros [t ->]. by exists t. Qed.

Lemma bind_get_sih {B} w h i (k : nova_inode_info_header → M B) :
  w_inodes w !! h = Some i → (get_sih h ≫= k) w = k (header i) w.
Proof. intros Hi. unfold get_sih, get_inode. run. by rewrite Hi; run. Qed.
Lemma bind_get_vfs {B} w h i (k : vfs_inode → M B) :
  w_inodes w !! h = Some i → (get_vfs h ≫= k) w = k (vfs i) w.
Proof. intros Hi. unfold get_vfs, get_inode. run. by rewrite Hi; run. Qed.

(** What one pass may copy: [n] pages from page [p] on, in one place or a hole. *)
Definition extent_at (m : mem) (t : gmap Z Z) (p : Z) (src : option Z) (n : Z) : Prop :=
  match t !! p with
  | None => src = None ∧ n = 1
  | Some e => src = Some (page_block m e p * 4096) ∧ 1 ≤ n < 2 ^ 32 ∧
              ∀ q, p ≤ q < p + n → t !! q = Some e
  end.

Lemma read_page_run w h i p :
  w_inodes w !! h = Some i → tree_ok (vis (w_nvmm w)) (tree (header i)) → 0 ≤ p →
  ∃ src n, read_page h p w = Done (inr (n * 4096, src), w) ∧
    extent_at (vis (w_nvmm w)) (tree (header i)) p src n.
Proof.
  intros Hi Hok Hp. unfold read_page, nova_get_write_entry, extent_at. run.
  rewrite (bind_get_sih _ _ _ _ Hi). run.
  destruct (tree (header i) !! p) as [e|] eqn:He; [|by exists None, 1].
  pose proof (to_in _ _ Hok p e He) as Hin. pose proof (to_small _ _ Hok p e He) as (Hb1&Hb2&Hp2).
  unfold get_nvmm. run. fold (we_pgoff (vis (w_nvmm w)) e) (we_num (vis (w_nvmm w)) e).
  set (pg := we_pgoff (vis (w_nvmm w)) e) in *. set (num := we_num (vis (w_nvmm w)) e) in *.
  assert (0 ≤ pg) by (apply ld_range). assert (0 ≤ num < 2 ^ 32) by apply (ld_range 4).
  rewrite (wrap_small 64 (p - pg)) by lia. rewrite decide_False by lia. run.
  fold (we_invalid (vis (w_nvmm w)) e) (we_blocknr (vis (w_nvmm w)) e) pg.
  fold (we_pgoff (vis (w_nvmm w)) e) pg.
  rewrite (wrap_small 64 (_ + p - pg)) by lia.
  replace (u64 (Z.shiftl (we_blocknr (vis (w_nvmm w)) e + p - pg) PAGE_SHIFT))
    with (page_block (vis (w_nvmm w)) e p * 4096).
  2: { unfold page_block, PAGE_SHIFT. fold pg. rewrite Z.shiftl_mul_pow2, wrap_small; lia. }
  rewrite bind_block_ptr by (unfold page_block; fold pg; lia).
  set (inv := we_invalid (vis (w_nvmm w)) e).
  exists (Some (page_block (vis (w_nvmm w)) e p * 4096)),
    (if decide (inv = 0) then num - (p - pg) else 1).
  unfold PAGE_SIZE. case_decide as Hinv.
  - split; [by rewrite (wrap_small 64) by lia|]. split_and!; [done|lia|lia|].
    intros q Hq. apply (to_valid _ _ Hok p e q He Hinv). fold pg num. lia.
  - split; [done|]. split_and!; [done|lia|lia|]. intros q Hq. by replace q with p by lia.
Qed.

(** The bytes of one pass: [k] bytes from offset [o] of page [p] on. *)
Lemma extent_bytes w h i p src n o k {B} (f : list Z → M B) :
  tree_ok (vis (w_nvmm w)) (tree (header i)) → w_inodes w !! h = Some i →
  extent_at (vis (w_nvmm w)) (tree (header i)) p src n →
  0 ≤ o → 0 ≤ p → 0 ≤ k → o + k ≤ n * 4096 →
  ((match src with
    | Some a => load_bytes (Z.to_nat k) (a + o)
    | None => mret (replicate (Z.to_nat k) 0)
    end) ≫= f) w =
  f (file_byte (vis (w_nvmm w)) (tree (header i)) <$> seqZ (p * 4096 + o) k) w.
Proof.
  intros Hok Hi Hext Ho Hp Hk Hn. unfold extent_at in Hext.
  destruct (tree (header i) !! p) as [e|] eqn:He.
  - destruct Hext as (->&Hn'&Hq). run. f_equal. apply run_bytes; try done.
    intros q Hq1 Hq2. apply Hq. lia.
  - destruct Hext as [-> ->]. run. f_equal. apply hole_bytes; [done|lia..].
Qed.

Context (pos isize len : Z) (h : Z) (i : nova_inode_info).

(** The abstract bytes read so far. *)
Definition read_bytes (m : mem) (k : Z) : list Z :=
  file_byte m (tree (header i)) <$> seqZ pos k.

Lemma length_read_bytes m k : 0 ≤ k → Z.of_nat (length (read_bytes m k)) = k.
Proof. intros. unfold read_bytes. rewrite length_fmap, length_seqZ. lia. Qed.

Lemma read_loop_run fuel : ∀ w index offset copied,
  w_inodes w !! h = Some i → tree_ok (vis (w_nvmm w)) (tree (header i)) →
  0 ≤ pos → pos + len ≤ isize < 2 ^ 63 → 0 ≤ index → 0 ≤ offset < 4096 →
  index * 4096 + offset = pos + copied → 0 ≤ copied < len →
  (pos + len - 1) / 4096 - index < Z.of_nat fuel →
  ∃ k err w', read_loop fuel h isize len index offset (read_bytes (vis (w_nvmm w)) copied) w
      = Done (inr (read_bytes (vis (w_nvmm w)) k, err), w') ∧
    0 ≤ k ≤ len ∧ ticked w w' ∧
    (err = 0 ∧ k = len ∨ err = - EFAULT ∧ k < len ∧ ∃ t n, uncopied t n ≠ 0).
Proof.
  induction fuel as [|fuel IH]; intros w index offset copied Hi Hok Hpos Hlen Hix Hoff Hcur
    Hcop Hfuel.
  { assert (index ≤ (pos + len - 1) / 4096) by (apply Z.div_le_lower_bound; lia). lia. }
  cbn [read_loop]. rewrite shiftr_page, land_page.
  pose proof (Z.div_mod (isize - 1) 4096 ltac:(lia)).
  assert (index ≤ (isize - 1) / 4096) by (apply Z.div_le_lower_bound; lia).
  rewrite decide_False by lia. rewrite decide_False by lia.
  destruct (read_page_run w h i index Hi Hok Hix) as (src&n&Hrun&Hext).
  rewrite (bind_run _ _ _ _ _ Hrun), length_read_bytes by lia.
  assert (1 ≤ n < 2 ^ 32) as Hn.
  { unfold extent_at in Hext. destruct (tree (header i) !! index); [tauto|lia]. }
  rewrite (wrap_small 64 (n * 4096 - offset)), (wrap_small 64 (len - copied)) by lia.
  set (nr := if decide _ then _ else _).
  assert (nr = Z.min (n * 4096 - offset) (len - copied)) as Hnr
    by (unfold nr; case_decide; lia). clearbody nr.
  unfold ask at 1. unfold mbind at 1, M_bind at 1.
  rewrite (extent_bytes (next_tick w) h i index src n offset nr _ Hok Hi Hext) by lia.
  change (vis (w_nvmm (next_tick w))) with (vis (w_nvmm w)). rewrite Hcur.
  assert (read_bytes (vis (w_nvmm w)) copied ++
    (file_byte (vis (w_nvmm w)) (tree (header i)) <$> seqZ (pos + copied) nr) =
    read_bytes (vis (w_nvmm w)) (copied + nr)) as Happ.
  { unfold read_bytes. rewrite seqZ_app, fmap_app by lia. done. }
  case_decide as Hleft.
  { exists copied, (- EFAULT), (next_tick w). split; [done|]. split; [lia|].
    split; [by apply ticked_next, ticked_refl|]. right. split_and!; [done|lia|eauto]. }
  rewrite Happ. case_decide as Hmore.
  - rewrite shiftr_page, land_page. replace (offset + nr) with (n * 4096) by lia.
    rewrite Z.div_mul, Z.mod_mul by lia.
    destruct (IH (next_tick w) (index + n) 0 (copied + nr)) as (k&err&w'&Hrun'&?&Ht&?);
      try done; try lia.
    exists k, err, w'. split; [exact Hrun'|]. split; [done|]. split; [by apply ticked_next|done].
  - exists len, 0, (next_tick w). replace (copied + nr) with len by lia.
    split; [done|]. split; [lia|]. split; [by apply ticked_next, ticked_refl|by left].
Qed.
End read.

Section theorems.
Context `{RbTree} `{Env} `{Uaccess}.

(** Behind the end of the file the loop ends at once. *)
Lemma read_loop_behind fuel h isize len pos w :
  0 < isize → isize ≤ pos →
  read_loop (S fuel) h isize len (pos / 4096) (pos mod 4096) [] w = Done (inr ([], 0), w).
Proof.
  intros Hs Hp. cbn [read_loop]. rewrite shiftr_page, land_page.
  pose proof (Z.div_mod pos 4096 ltac:(lia)). pose proof (Z.div_mod (isize - 1) 4096 ltac:(lia)).
  pose proof (Z.mod_pos_bound pos 4096 ltac:(lia)).
  pose proof (Z.mod_pos_bound (isize - 1) 4096 ltac:(lia)).
  assert ((isize - 1) / 4096 ≤ pos / 4096) by (apply Z.div_le_mono; lia).
  case_decide; [done|]. by rewrite decide_True by lia.
Qed.

(** The outcomes of a read that may return up to [n] bytes. *)
Definition read_result (w : world) (i : nova_inode_info) (pos n : Z)
    (o : outcome (Z * Z * list Z * world)) : Prop :=
  ∃ ret k w', o
      = Done ((ret, pos + k, file_byte (vis (w_nvmm w)) (tree (header i)) <$> seqZ pos k), w') ∧
    0 ≤ k ≤ n ∧ ticked w w' ∧
    (k = n ∧ ret = n ∨
     ret = (if decide (k = 0) then - EFAULT else k) ∧
     ((∃ t, access_ok t = false) ∨ ∃ t n, uncopied t n ≠ 0)).

Lemma read_nothing w w' i pos n :
  ticked w w' → n = 0 → read_result w i pos n (Done ((0, pos + 0, []), w')).
Proof. intros Hw' ->. exists 0, 0, w'. split; [done|]. split; [lia|]. by split; [|left]. Qed.

(** The length at or behind the end of the file. *)
Lemma read_len_behind len isize pos :
  0 ≤ len < 2 ^ 63 → 0 ≤ isize ≤ pos → pos < 2 ^ 63 →
  (if decide (len > u64 (isize - pos)) then u64 (isize - pos) else len) =
  (if decide (isize = pos) then 0 else len).
Proof.
  intros Hl Hs Hp. destruct (decide (isize = pos)) as [->|].
  - rewrite Z.sub_diag. change (u64 0) with 0. case_decide; lia.
  - rewrite decide_False; [done|]. unfold wrap.
    rewrite <- (Z.mod_unique (isize - pos) (2 ^ 64) (-1) (isize - pos + 2 ^ 64)); lia.
Qed.

Lemma read_run w h i len pos :
  w_inodes w !! h = Some i → tree_ok (vis (w_nvmm w)) (tree (header i)) →
  0 ≤ v_size (vfs i) < 2 ^ 63 → 0 ≤ pos < 2 ^ 63 → 0 ≤ len < 2 ^ 63 →
  read_result w i pos (Z.max 0 (Z.min len (v_size (vfs i) - pos))) (nova_dax_file_read h len pos w).
Proof.
  intros Hi Hok Hs Hp Hl. set (n := Z.max 0 _).
  unfold nova_dax_file_read, do_dax_mapping_read.
  rewrite shiftr_page, land_page. unfold ask at 1. unfold mbind at 1, M_bind at 1.
  assert (ticked w (next_tick w)) as Ht by (apply ticked_next, ticked_refl).
  destruct (access_ok (w_tick w)) eqn:Hacc; cbn [negb].
  2: { exists (- EFAULT), 0, (next_tick w). split; [reflexivity|].
       split; [lia|]. split; [done|]. right. split; [done|eauto]. }
  assert (w_inodes (next_tick w) !! h = Some i) as Hi' by done.
  rewrite (bind_get_vfs _ _ _ _ Hi').
  case_decide as Hz; [apply read_nothing; [done|lia]|].
  destruct (decide (v_size (vfs i) ≤ pos)) as [Hend|Hend].
  { rewrite read_len_behind by lia. destruct (decide (v_size (vfs i) = pos)).
    { rewrite decide_True by done. apply read_nothing; [done|lia]. }
    case_decide; [apply read_nothing; [done|lia]|].
    rewrite (bind_run _ _ _ _ _ (read_loop_behind _ h (v_size (vfs i)) len pos
      (next_tick w) ltac:(lia) Hend)). apply read_nothing; [done|lia]. }
  rewrite (wrap_small 64) by lia.
  replace (if decide (len > v_size (vfs i) - pos) then v_size (vfs i) - pos else len)
    with n by (unfold n; case_decide; lia).
  case_decide as Hn0; [apply read_nothing; [done|lia]|].
  pose proof (Z.div_mod pos 4096 ltac:(lia)). pose proof (Z.mod_pos_bound pos 4096 ltac:(lia)).
  destruct (read_loop_run pos (v_size (vfs i)) n h i (S (S (Z.to_nat (n / PAGE_SIZE))))
    (next_tick w) (pos / 4096) (pos mod 4096) 0) as (k&err&w'&Hrun&Hk&Htk&Hres);
    try done; try lia.
  { unfold PAGE_SIZE.
    pose proof (Z.div_mod n 4096 ltac:(lia)). pose proof (Z.mod_pos_bound n 4096 ltac:(lia)).
    assert ((pos + n - 1) / 4096 < pos / 4096 + n / 4096 + 2) by (apply Z.div_lt_upper_bound; lia).
    lia. }
  rewrite (bind_run _ _ _ _ _ Hrun). cbn [fst snd].
  rewrite length_read_bytes by lia. apply ticked_next in Htk.
  eexists _, k, w'. split; [reflexivity|]. split; [done|]. split; [done|].
  destruct Hres as [[-> ->]|(->&Hlt&Hu)].
  - left. split; [done|]. by rewrite decide_True by lia.
  - right. split; [|by right]. destruct (decide (k = 0)) as [->|]; [done|].
    by rewrite decide_True by lia.
Qed.

End theorems.

Section instances.
#[local] Existing Instances bst_rb env1.

(** A caller whose buffer is accessible. *)
Definition uaccess1 : Uaccess := {|
  mapping_mapped _ := false; access_ok _ := true; uncopied _ _ := 0;
  file_remove_privs _ := 0; stack_garbage _ := 0
|}.
#[local] Existing Instance uaccess1.

(** A file of two pages and five bytes: page 1 is a hole, the pages 0 and 2
    are the blocks 5 and 7 of two write entries at 8192. *)
Definition file_mem : mem :=
  let m := st_bytes ∅ 8192 (encode_write_entry (5 * 4096) 0 1 0 0 0 4096) in
  let m := st_bytes m 8232 (encode_write_entry (7 * 4096) 2 1 0 0 0 4096) in
  st_bytes (st_bytes m (5 * 4096) [10; 11; 12]) (7 * 4096) [20; 21; 22; 23; 24].
Definition file_header : nova_inode_info_header :=
  Sih {[0 := 8192; 2 := 8232]} ∅ 0 0 8197 20 0 0 0 0 0 0 0.
Definition file_inode : nova_inode_info :=
  InodeInfo file_header (VfsInode 20 0 1 8197 2 0 0 0 0 0 0 0 0 false).
Definition file_world : world :=
  World (nvmm_boot file_mem) small_sbi ∅ 0 {[1 := file_inode]} [].

Lemma file_world_ok : tree_ok file_mem (tree file_header).
Proof.
  assert (∀ p e, tree file_header !! p = Some e → p = 0 ∧ e = 8192 ∨ p = 2 ∧ e = 8232) as Ht.
  { intros p e He. change (<[0 := 8192]> (<[2 := 8232]> (∅ : gmap Z Z)) !! p = Some e) in He.
    apply lookup_insert_Some in He as [[<- <-]|[_ He]]; [auto|].
    apply lookup_insert_Some in He as [[<- <-]|[_ He]]; [auto|]. by apply lookup_empty_Some in He. }
  split.
  - intros p e [[-> ->]|[-> ->]]%Ht; vm_compute; split; congruence.
  - intros p e [[-> ->]|[-> ->]]%Ht; vm_compute; split_and!; congruence.
  - intros p e q [[-> ->]|[-> ->]]%Ht _ Hq.
    + change (0 ≤ q < 1) in Hq. by replace q with 0 by lia.
    + change (2 ≤ q < 3) in Hq. by replace q with 2 by lia.
Qed.

End instances.
