(* ===== verification/AssignProofs.v ===== *)
(** * Pointing a file to a new write entry (inode.c)

    After a copy-on-write the pages of the entry are pointed to it, page by
    page, and the blocks they had before are freed. *)
From S2P Require Import Prelude Nvmm RangeTree Layout World Trace Balloc BallocList BallocProofs.
From S2P Require Import Log LogPages FileTree Inode Dax DaxProofs.

(** ** What the loop may write *)

(** The counts of invalid pages of the entries in [t], and the block count of
    the inode at [pi]. *)
Definition touched (pi : Z) (t : gmap Z Z) (x : Z) : Prop :=
  pi + nova_inode.i_blocks ≤ x < pi + nova_inode.i_blocks + 8 ∨
  ∃ p e, t !! p = Some e ∧
    e + nova_file_write_entry.invalid_pages ≤ x < e + nova_file_write_entry.invalid_pages + 4.

(** Stores to them, with values in [B] for the count of an entry. *)
Definition count_store (pi : Z) (t : gmap Z Z) (B : Z → Z → Prop) (x : write) : Prop :=
  within (λ a, pi + nova_inode.i_blocks ≤ a < pi + nova_inode.i_blocks + 8) x ∨
  ∃ p e v, t !! p = Some e ∧
    x = WBytes (e + nova_file_write_entry.invalid_pages) (le_split 4 v) ∧ B e v.

Lemma count_store_mono pi t (B B' : Z → Z → Prop) x :
  (∀ e v, B e v → B' e v) → count_store pi t B x → count_store pi t B' x.
Proof. intros HB [?|(p&e&v&He&->&Hv)]; [by left|right]. exists p, e, v. auto. Qed.

Lemma count_store_touched pi t B x a : count_store pi t B x → write_touches x a → touched pi t a.
Proof.
  intros [Hx|(p&e&v&He&->&_)] Ha; [by left; apply Hx|right]. exists p, e. split; [done|].
  cbn in Ha. by rewrite length_le_split in Ha.
Qed.

Definition mem_keeps (pi : Z) (t : gmap Z Z) (m m' : mem) : Prop :=
  ∀ x, ¬ touched pi t x → ld8 m' x = ld8 m x.

(** The inode and the entries of the tree do not overlap. *)
Record apart (pi : Z) (t : gmap Z Z) : Prop := {
  ap_entries p p' e e' : t !! p = Some e → t !! p' = Some e' →
    e = e' ∨ e + nova_file_write_entry.sizeof ≤ e' ∨ e' + nova_file_write_entry.sizeof ≤ e;
  ap_inode p e : t !! p = Some e →
    pi + nova_inode.sizeof ≤ e ∨ e + nova_file_write_entry.sizeof ≤ pi
}.

Lemma keeps_entry pi t m m' p e :
  apart pi t → mem_keeps pi t m m' → t !! p = Some e →
  we_blocknr m' e = we_blocknr m e ∧ we_pgoff m' e = we_pgoff m e.
Proof.
  intros Hap Hk He. unfold we_blocknr, we_pgoff.
  assert (∀ x, e ≤ x < e + 20 → ld8 m' x = ld8 m x) as Hx.
  { intros x Hx. apply Hk. intros [Hi|(p'&e'&He'&Hx')].
    - destruct (ap_inode _ _ Hap p e He);
        unfold nova_inode.sizeof, nova_inode.i_blocks, nova_file_write_entry.sizeof in *; lia.
    - destruct (ap_entries _ _ Hap p p' e e' He He') as [->|[|]];
        unfold nova_file_write_entry.sizeof, nova_file_write_entry.invalid_pages in *; lia. }
  unfold nova_file_write_entry.block, nova_file_write_entry.pgoff. split; [f_equal|];
    apply ld_frame; intros x Hx'; apply Hx; lia.
Qed.

Lemma keeps_type pi t m m' :
  apart pi t → mem_keeps pi t m m' →
  ld 1 m' (pi + nova_inode.i_blk_type) = ld 1 m (pi + nova_inode.i_blk_type).
Proof.
  intros Hap Hk. apply ld_frame. intros x Hx. apply Hk.
  unfold nova_inode.i_blk_type in Hx. intros [Hi|(p&e&He&Hx')].
  - unfold nova_inode.i_blocks in Hi. lia.
  - destruct (ap_inode _ _ Hap p e He); unfold nova_inode.sizeof,
      nova_file_write_entry.sizeof, nova_file_write_entry.invalid_pages in *; lia.
Qed.

(** A store to a field that may be touched. *)
Lemma keeps_store pi t m m' a n v :
  mem_keeps pi t m m' → (∀ x, a ≤ x < a + Z.of_nat n → touched pi t x) →
  mem_keeps pi t m (st_bytes m' a (le_split n v)).
Proof.
  intros Hk Ha x Hx. rewrite ld8_st_bytes_out; [by apply Hk|]. rewrite length_le_split.
  destruct (decide (a ≤ x < a + Z.of_nat n)); [|lia]. by destruct Hx; apply Ha.
Qed.

(** ** Freeing one block of data *)
Section assign.
Context `{RbTreeLaws} `{EnvLaws}.

Lemma free_data_run w b :
  balloc_ok w → in_use (w_sbi w) [b] →
  ∃ r w', nova_free_data_blocks 0 b 1 w = Done (r, w') ∧ blocks_back w w' [b].
Proof.
  intros Hok Hu. destruct (Hu b ltac:(left)) as [Hb Hf].
  pose proof (geo_reserved _ (bo_geometry w Hok)).
  unfold nova_free_data_blocks. rewrite decide_False by lia.
  destruct (free_blocks_run w b 1 0 false) as [[Hno Hrun]|(w'&Hrun&Hok'&Hset&_&Hm&Hr&Hh&_)];
    change (nova_get_numblocks 0 * 1) with 1 in *; try done.
  - unfold extent_ok. lia.
  - intros x Hx. by replace x with b by lia.
  - eexists _, _. split; [exact Hrun|]. split; try done.
    + by apply (balloc_ok_same w).
    + auto.
    + intros Hslab. destruct (Hslab (w_tick w) (w_live w)). congruence.
  - eexists _, _. split; [exact Hrun|]. split; try done.
    + intros x Hx. apply Hset. by left.
    + intros x. rewrite Hset. intros [?|?]; [by left|right]. replace x with b by lia. left.
    + intros _ x ->%list_elem_of_singleton. apply Hset. right. lia.
Qed.

(** The allocator of [w'] is that of [w] with blocks of [X] made free: all of
    them, unless the slab cache was exhausted in between. *)
Record blocks_released (w w' : world) (X : list Z) : Prop := {
  rl_ok : balloc_ok w';
  rl_geometry : same_geometry (w_sbi w) (w_sbi w');
  rl_keep b : block_free (w_sbi w) b → block_free (w_sbi w') b;
  rl_set b : block_free (w_sbi w') b → block_free (w_sbi w) b ∨ b ∈ X;
  rl_all : (∀ t live, is_Some (kmem_cache_alloc t live)) →
           ∀ b, b ∈ X → block_free (w_sbi w') b
}.

Lemma released_trans w1 w2 w3 X Y :
  blocks_released w1 w2 X → blocks_released w2 w3 Y → blocks_released w1 w3 (X ++ Y).
Proof.
  intros [Hok1 (?&?&?&?) Hk1 Hs1 Ha1] [Hok2 (?&?&?&?) Hk2 Hs2 Ha2].
  split; [done|repeat split; congruence|auto| |].
  - intros b [Hb|Hb]%Hs2; [|set_solver]. apply Hs1 in Hb. set_solver.
  - intros Hslab b [Hb|Hb]%elem_of_app; auto.
Qed.

Lemma released_same w w' :
  balloc_ok w → w_sbi w' = w_sbi w → w_live w' = w_live w → blocks_released w w' [].
Proof.
  intros Hok Hs Hl. split; rewrite ?Hs; try done; [by eapply balloc_ok_same|auto|set_solver].
Qed.

Lemma released_back w w' X : blocks_back w w' X → blocks_released w w' X.
Proof. intros [Hok (Hg&_) _ _ Hk Hs Ha]. by split. Qed.

Lemma in_use_released w w' X bs :
  blocks_released w w' X → in_use (w_sbi w) bs → (∀ b, b ∈ X → b ∉ bs) →
  in_use (w_sbi w') bs.
Proof.
  intros [_ (_&_&En&Er) _ Hs _] Hu Hd b Hb. rewrite En, Er.
  destruct (Hu b Hb) as [? Hf]. split; [done|]. intros [?|Hx]%Hs; [done|].
  by apply (Hd b).
Qed.

Lemma update_sih_run w h i f :
  w_inodes w !! h = Some i →
  update_sih h f w =
  Done ((), set_inodes (<[h := InodeInfo (f (header i)) (vfs i)]> (w_inodes w)) w).
Proof. intros Hi. unfold update_sih, get_inode, put_inode. run. by rewrite Hi. Qed.

Lemma update_vfs_run w h i f :
  w_inodes w !! h = Some i →
  update_vfs h f w =
  Done ((), set_inodes (<[h := InodeInfo (header i) (f (vfs i))]> (w_inodes w)) w).
Proof. intros Hi. unfold update_vfs, get_inode, put_inode. run. by rewrite Hi. Qed.

Definition old_blocks (m : mem) (t : gmap Z Z) (pages : list Z) : list Z :=
  pages ≫= λ p, match t !! p with Some e => [page_block m e p] | None => [] end.

(** How many of the [pages] entry [e] holds. *)
Definition hits (t : gmap Z Z) (e : Z) (pages : list Z) : Z :=
  Z.of_nat (length (filter (λ p, t !! p = Some e) pages)).

Context (Hradix : ∀ t, radix_node_alloc t = true).
Context (pi h e : Z) (m0 : mem) (t0 : gmap Z Z).
Context (Hap : apart pi t0) (Ht0 : tree_ok m0 t0).
Context (Hty : ld 1 m0 (pi + nova_inode.i_blk_type) = NOVA_BLOCK_TYPE_4K).

(** One page of entry [e'] was retired: its count of invalid pages grows by
    one, and besides it only the block count of the inode changes. *)
Record retired (e' : Z) (m m' : mem) : Prop := {
  rt_invalid : we_invalid m' e' = u32 (we_invalid m e' + 1);
  rt_keep x : ¬ pi + nova_inode.i_blocks ≤ x < pi + nova_inode.i_blocks + 8 →
    ¬ e' + nova_file_write_entry.invalid_pages ≤ x <
      e' + nova_file_write_entry.invalid_pages + 4 → ld8 m' x = ld8 m x
}.

Lemma retired_keeps p e' m m' :
  t0 !! p = Some e' → retired e' m m' → mem_keeps pi t0 m0 m → mem_keeps pi t0 m0 m'.
Proof.
  intros He [_ Hk'] Hk x Hx. rewrite Hk'; [by apply Hk|..]; intros Hr; apply Hx.
  - by left.
  - right. by exists p, e'.
Qed.

(** The part of a pass that retires the old block of page [p]. *)
Lemma retire_run {B} w p e' (k : M B) :
  t0 !! p = Some e' → mem_keeps pi t0 m0 (vis (w_nvmm w)) → balloc_ok w →
  in_use (w_sbi w) [page_block m0 e' p] →
  ∃ w', (old_nvmm ← get_nvmm e' p;
         (invalid ← load 4 (e' + nova_file_write_entry.invalid_pages);
          store 4 (e' + nova_file_write_entry.invalid_pages) (u32 (invalid + 1)) ;;
          btype ← load 1 (pi + nova_inode.i_blk_type);
          _ ← nova_free_data_blocks btype old_nvmm 1;
          i_blocks ← load 8 (pi + nova_inode.i_blocks);
          store 8 (pi + nova_inode.i_blocks) (u64 (i_blocks - 1))) ;; k) w = k w' ∧
    blocks_released w w' [page_block m0 e' p] ∧
    retired e' (vis (w_nvmm w)) (vis (w_nvmm w')) ∧ w_inodes w' = w_inodes w ∧
    traces (count_store pi t0 (λ e1 v, e1 = e' ∧ v = u32 (we_invalid (vis (w_nvmm w)) e' + 1))) w w'.
Proof.
  intros He Hk Hok Hu. pose proof (to_in _ _ Ht0 p e' He) as Hin.
  destruct (to_small _ _ Ht0 p e' He) as (Hb1&Hb2&Hp).
  destruct (keeps_entry _ _ _ _ _ _ Hap Hk He) as [Eb Eg].
  unfold get_nvmm. run. fold (we_blocknr (vis (w_nvmm w)) e') (we_pgoff (vis (w_nvmm w)) e').
  rewrite Eb, Eg, (wrap_small 64 (_ + p - _)) by lia. fold (page_block m0 e' p).
  set (w1 := set_nvmm _ w).
  assert (mem_keeps pi t0 m0 (vis (w_nvmm w1))) as Hk1.
  { apply keeps_store; [done|]. intros x Hx. right. by exists p, e'. }
  rewrite (keeps_type _ _ _ _ Hap Hk1), Hty. change NOVA_BLOCK_TYPE_4K with 0.
  destruct (free_data_run w1 (page_block m0 e' p)) as (r&w2&Hrun&Hbb);
    [by apply (balloc_ok_same w)|done|].
  rewrite (bind_run _ _ _ _ _ Hrun). run. eexists. split; [reflexivity|].
  pose proof (bb_hist _ _ _ Hbb) as Hh. pose proof (bb_nvmm _ _ _ Hbb) as Hm. pose proof (bb_rest _ _ _ Hbb) as (_&_&Hi).
  split_and!.
  - rewrite <- (app_nil_l [page_block m0 e' p]), <- (app_nil_r (_ ++ _)).
    eapply released_trans; [eapply released_trans|].
    + apply (released_same w w1); done.
    + by apply released_back.
    + by apply released_same; [apply Hbb|..].
  - cbn [w_nvmm set_nvmm vis nvmm_write apply_write]. rewrite Hm. split.
    + unfold we_invalid. rewrite ld_st_bytes_out.
      * cbn. rewrite ld_st. by apply (wrap_wrap 32).
      * rewrite length_le_split. destruct (ap_inode _ _ Hap p e' He);
          unfold nova_inode.sizeof, nova_inode.i_blocks, nova_file_write_entry.sizeof,
            nova_file_write_entry.invalid_pages in *; lia.
    + intros x Hx1 Hx2. rewrite ld8_st_bytes_out by (rewrite length_le_split; lia).
      apply (ld8_st_bytes_out (vis (w_nvmm w))). rewrite length_le_split. lia.
  - exact Hi.
  - apply (traces_trans _ w w1); [|apply (traces_trans _ w1 w2); [by apply traces_same|]];
      apply traces_step; constructor.
    + right. by exists p, e', (u32 (we_invalid (vis (w_nvmm w)) e' + 1)).
    + left. intros x Hx. cbn in Hx. by rewrite length_le_split in Hx.
Qed.

Lemma hits_app t e1 xs ys : hits t e1 (xs ++ ys) = hits t e1 xs + hits t e1 ys.
Proof. unfold hits. rewrite filter_app, length_app. lia. Qed.

Lemma hits_none t e1 p : t !! p ≠ Some e1 → hits t e1 [p] = 0.
Proof. intros Hp. unfold hits. by rewrite filter_cons, decide_False. Qed.

Lemma invalid_small m e' : u32 (we_invalid m e' + 0) = we_invalid m e'.
Proof. rewrite Z.add_0_r. apply wrap_small. apply (ld_range 4). Qed.

Lemma retired_invalid p e1 m m' q e' :
  t0 !! p = Some e1 → retired e1 m m' → t0 !! q = Some e' →
  we_invalid m' e' = u32 (we_invalid m e' + hits t0 e' [p]).
Proof.
  intros He1 [Hinv Hk] He'. destruct (decide (e' = e1)) as [->|Hne].
  - rewrite Hinv. unfold hits. by rewrite filter_cons, decide_True, filter_nil.
  - rewrite hits_none by congruence. rewrite invalid_small. apply ld_frame. intros x Hx.
    apply Hk.
    + destruct (ap_inode _ _ Hap q e' He'); unfold nova_inode.sizeof, nova_inode.i_blocks,
        nova_file_write_entry.sizeof, nova_file_write_entry.invalid_pages in *; lia.
    + destruct (ap_entries _ _ Hap p q e1 e' He1 He') as [?|[|]]; [congruence|..];
        unfold nova_file_write_entry.sizeof, nova_file_write_entry.invalid_pages in *; lia.
Qed.

(** What pointing the [pages] to [e] leaves. *)
Record assigned (pages : list Z) (w : world) (i : nova_inode_info) (w' : world)
    (i' : nova_inode_info) : Prop := {
  as_inodes : w_inodes w' = <[h := i']> (w_inodes w);
  as_vfs : vfs i' = vfs i;
  as_header : ∃ t, header i' = sih_set_tree t (header i);
  as_tree p : tree (header i') !! p =
              if decide (p ∈ pages) then Some e else tree (header i) !! p;
  as_blocks : blocks_released w w' (old_blocks m0 t0 pages);
  as_mem : mem_keeps pi t0 m0 (vis (w_nvmm w'));
  as_invalid p e' : t0 !! p = Some e' →
    we_invalid (vis (w_nvmm w')) e' = u32 (we_invalid (vis (w_nvmm w)) e' + hits t0 e' pages);
  as_traces : traces (count_store pi t0 (λ e' v, ∃ j, 0 ≤ j ≤ hits t0 e' pages ∧
                        v = u32 (we_invalid (vis (w_nvmm w)) e' + j))) w w'
}.

Lemma assigned_app xs ys w i w1 i1 w2 i2 :
  assigned xs w i w1 i1 → assigned ys w1 i1 w2 i2 → assigned (xs ++ ys) w i w2 i2.
Proof.
  intros [Hi1 Hv1 [t1 Ht1] Htr1 Hb1 _ Hn1 Hq1] [Hi2 Hv2 [t2 Ht2] Htr2 Hb2 Hm2 Hn2 Hq2].
  split; try done.
  - by rewrite Hi2, Hi1, insert_insert_eq.
  - by rewrite Hv2.
  - exists t2. by rewrite Ht2, Ht1.
  - intros p. rewrite Htr2, Htr1. by repeat case_decide; set_solver.
  - unfold old_blocks. rewrite bind_app. by eapply released_trans.
  - intros p e' He. rewrite (Hn2 p e' He), (Hn1 p e' He), hits_app.
    unfold wrap. rewrite Zplus_mod_idemp_l. f_equal. lia.
  - eapply traces_trans; (eapply traces_mono; [|done]).
    + intros x. apply count_store_mono. intros e' v (j&Hj&->). exists j. rewrite hits_app.
      unfold hits in *. split; [lia|done].
    + intros x [?|(p&e'&v&He&->&j&Hj&->)]; [by left|right]. eexists p, e', _. split; [done|].
      split; [done|]. exists (hits t0 e' xs + j). rewrite hits_app, (Hn1 p e' He). split; [unfold hits in *; lia|].
      unfold wrap. rewrite Zplus_mod_idemp_l. f_equal. lia.
Qed.

Lemma assigned_nil w i :
  w_inodes w !! h = Some i → mem_keeps pi t0 m0 (vis (w_nvmm w)) → balloc_ok w →
  assigned [] w i w i.
Proof.
  intros Hi Hk Hok.
  split; try done; [by rewrite insert_id|by exists (tree (header i)); destruct i as [[]]| | |].
  - by apply released_same.
  - intros p e' _. symmetry. apply invalid_small.
  - by apply traces_same.
Qed.

Definition pointed (p : Z) (i : nova_inode_info) : nova_inode_info :=
  InodeInfo (sih_set_tree (<[p := e]> (tree (header i))) (header i)) (vfs i).

(** A page of the tree, and a hole. *)
Lemma assigned_pointed p w i w1 :
  mem_keeps pi t0 m0 (vis (w_nvmm w1)) → blocks_released w w1 (old_blocks m0 t0 [p]) →
  w_inodes w1 = w_inodes w →
  traces (count_store pi t0 (λ e' v, ∃ j, 0 ≤ j ≤ hits t0 e' [p] ∧
            v = u32 (we_invalid (vis (w_nvmm w)) e' + j))) w w1 →
  (∀ q e', t0 !! q = Some e' → we_invalid (vis (w_nvmm w1)) e' =
     u32 (we_invalid (vis (w_nvmm w)) e' + hits t0 e' [p])) →
  assigned [p] w i (set_inodes (<[h := pointed p i]> (w_inodes w1)) w1) (pointed p i).
Proof.
  intros Hk Hr Ei Htr Hinv. split; try done.
  - cbn. by rewrite Ei.
  - by eexists.
  - intros q. cbn. destruct (decide (q ∈ [p])) as [->%list_elem_of_singleton|Hq].
    + apply lookup_insert_eq.
    + apply lookup_insert_ne. set_solver.
  - rewrite <- (app_nil_r (old_blocks _ _ _)). eapply released_trans; [exact Hr|].
    by apply released_same; [apply Hr|..].
Qed.

Lemma assign_step_run pages p w i ret :
  w_inodes w !! h = Some i → tree (header i) !! p = t0 !! p →
  mem_keeps pi t0 m0 (vis (w_nvmm w)) → balloc_ok w → in_use (w_sbi w) (old_blocks m0 t0 [p]) →
  ∃ w1 r, assign_loop pi h e true (p :: pages) ret w = assign_loop pi h e true pages r w1 ∧
    (r = ret ∧ is_Some (t0 !! p) ∨ r = Some 0) ∧ assigned [p] w i w1 (pointed p i).
Proof.
  intros Hi Htr Hk Hok Hu. cbn [assign_loop]. rewrite (bind_get_sih _ _ _ _ Hi), Htr.
  pose proof (assigned_pointed p w i) as Has.
  unfold old_blocks in Hu, Has. cbn in Hu, Has. rewrite app_nil_r in Hu, Has.
  destruct (t0 !! p) as [e'|] eqn:He.
  - destruct (retire_run w p e'
      (update_sih h (λ s, sih_set_tree (<[p := e]> (tree s)) s) ;;
       assign_loop pi h e true pages ret) He Hk Hok Hu) as (w1&Hrun&Hrel&Hret&Hi1&Ht).
    rewrite Hrun. assert (w_inodes w1 !! h = Some i) as Hi1' by (by rewrite Hi1).
    rewrite (bind_run _ _ _ _ _ (update_sih_run _ _ _ _ Hi1')).
    eexists _, _. split; [reflexivity|]. split; [by left|]. apply Has; try done.
    + by eapply retired_keeps.
    + eapply traces_mono; [|exact Ht]. intros x. apply count_store_mono. intros e1 v [-> ->].
      exists 1. split; [|done]. unfold hits. rewrite filter_cons, decide_True by done. cbn. lia.
    + intros q e1. by apply (retired_invalid p e').
  - unfold radix_tree_insert. rewrite bind_assoc.
    rewrite (bind_get_sih _ _ _ _ Hi), Htr.
    rewrite decide_False by (by intros []). run. rewrite Hradix. run.
    assert (w_inodes (next_tick w) !! h = Some i) as Hi1 by done.
    rewrite (bind_run _ _ _ _ _ (update_sih_run _ _ _ _ Hi1)). run.
    rewrite decide_False by lia.
    eexists _, _. split; [reflexivity|]. split; [by right|]. apply Has; try done.
    + by apply released_same.
    + by apply traces_same.
    + intros q e1 He1. rewrite hits_none by congruence. symmetry. apply invalid_small.
Qed.

Lemma assign_loop_run pages : ∀ w i ret,
  w_inodes w !! h = Some i → (∀ p, p ∈ pages → tree (header i) !! p = t0 !! p) →
  mem_keeps pi t0 m0 (vis (w_nvmm w)) → balloc_ok w → NoDup pages →
  NoDup (old_blocks m0 t0 pages) → in_use (w_sbi w) (old_blocks m0 t0 pages) →
  ∃ r w' i', assign_loop pi h e true pages ret w = Done (r, w') ∧
    (r = ret ∧ (∀ p, p ∈ pages → is_Some (t0 !! p)) ∨ r = Some 0) ∧
    assigned pages w i w' i'.
Proof.
  induction pages as [|p pages IH]; intros w i ret Hi Htr Hk Hok Hnd Hndo Hu.
  { exists ret, w, i. split; [done|]. split; [left; split; [done|set_solver]|].
    by apply assigned_nil. }
  apply NoDup_cons in Hnd as [Hp Hnd].
  replace (old_blocks m0 t0 (p :: pages)) with (old_blocks m0 t0 [p] ++ old_blocks m0 t0 pages)
    in Hndo, Hu by (unfold old_blocks; cbn; by rewrite app_nil_r).
  apply NoDup_app in Hndo as (_&Hd&Hndo).
  destruct (assign_step_run pages p w i ret) as (w1&r1&Hrun&Hr1&Has1); try done.
  { apply Htr. by left. }
  { eapply in_use_sub; [|exact Hu]. set_solver. }
  rewrite Hrun. destruct (IH w1 (pointed p i) r1) as (r&w'&i'&Hrun'&Hr&Has); try done.
  - by rewrite (as_inodes _ _ _ _ _ Has1), lookup_insert_eq.
  - intros q Hq. cbn. rewrite lookup_insert_ne by (by intros ->). apply Htr. by right.
  - apply Has1.
  - apply Has1.
  - eapply in_use_released; [apply Has1| |exact Hd]. eapply in_use_sub; [|exact Hu]. set_solver.
  - exists r, w', i'. split; [exact Hrun'|]. split; [|by apply (assigned_app [p] pages w i w1 (pointed p i))].
    destruct Hr as [[-> Hr]| ->]; [|by right]. destruct Hr1 as [[-> Hr1]| ->]; [left|by right].
    split; [done|]. intros q [->|Hq]%elem_of_cons; auto.
Qed.
End assign.

Section theorems.
Context `{RbTreeLaws} `{EnvLaws}.

Lemma assign_entry_run w h i pi e :
  let m := vis (w_nvmm w) in let t := tree (header i) in
  let pages := seqZ (we_pgoff m e) (we_num m e) in
  (∀ t, radix_node_alloc t = true) →
  balloc_ok w → w_inodes w !! h = Some i → tree_ok m t → apart pi t →
  ld 1 m (pi + nova_inode.i_blk_type) = NOVA_BLOCK_TYPE_4K →
  we_pgoff m e + we_num m e ≤ 2 ^ 52 →
  NoDup (old_blocks m t pages) → in_use (w_sbi w) (old_blocks m t pages) →
  ∃ r w' i', nova_assign_write_entry pi h e true w = Done (r, w') ∧
    (r = None ∧ (∀ p, p ∈ pages → is_Some (t !! p)) ∨ r = Some 0) ∧
    assigned pi h e m t pages w i w' i'.
Proof.
  intros m t pages Hradix Hok Hi Ht Hap Hty Hend Hnd Hu. unfold nova_assign_write_entry. run.
  fold m. fold (we_pgoff m e) (we_num m e).
  assert (0 ≤ we_pgoff m e) by apply (ld_range 8). assert (0 ≤ we_num m e) by apply (ld_range 4).
  replace ((λ i, u64 (we_pgoff m e + i)) <$> seqZ 0 (we_num m e)) with pages.
  2: { unfold pages. rewrite <- (list_fmap_id (seqZ (we_pgoff m e) _)). apply fmap_seqZ_ext.
       intros j Hj. cbn. rewrite wrap_small by lia. lia. }
  by apply (assign_loop_run Hradix pi h e m t Hap Ht Hty pages w i None);
    [..|apply NoDup_seqZ| |].
Qed.

(** C14. Pointing a file to a new write entry.  When the page tree of a file
    agrees with its entries, the entries and the inode do not overlap, and the
    blocks of the overwritten pages are in use and different,
    [nova_assign_write_entry] (with radix tree nodes available) terminates:
    exactly the pages of the new entry point to it, exactly the blocks these
    pages had before become free, and besides the counts of invalid pages and
    the block count of the inode no byte of NVMM changes.  It returns 0, or an
    uninitialised value when every page was already in the tree. *)
Theorem assign_write_entry_spec w h i pi e :
  let m := vis (w_nvmm w) in let t := tree (header i) in
  let pages := seqZ (we_pgoff m e) (we_num m e) in
  (∀ t, radix_node_alloc t = true) →
  balloc_ok w → w_inodes w !! h = Some i → tree_ok m t → apart pi t →
  ld 1 m (pi + nova_inode.i_blk_type) = NOVA_BLOCK_TYPE_4K →
  we_pgoff m e + we_num m e ≤ 2 ^ 52 →
  NoDup (old_blocks m t pages) → in_use (w_sbi w) (old_blocks m t pages) →
  ∃ r w' i', nova_assign_write_entry pi h e true w = Done (r, w') ∧
    w_inodes w' = <[h := i']> (w_inodes w) ∧ vfs i' = vfs i ∧
    (∀ p, tree (header i') !! p =
          if decide (we_pgoff m e ≤ p < we_pgoff m e + we_num m e) then Some e else t !! p) ∧
    blocks_released w w' (old_blocks m t pages) ∧
    mem_keeps pi t m (vis (w_nvmm w')) ∧
    (r = Some 0 ∨ r = None ∧ ∀ p, p ∈ pages → is_Some (t !! p)).
Proof.
  intros m t pages Hradix Hok Hi Ht Hap Hty Hend Hnd Hu. subst m t pages.
  destruct (assign_entry_run w h i pi e) as (r&w'&i'&Hrun&Hr&[Hin Hv _ Htree Hb Hm _ _]); try done.
  exists r, w', i'. split_and!; try done.
  - intros p. rewrite Htree.
    destruct (decide (p ∈ _)) as [Hp|Hp]; rewrite elem_of_seqZ in Hp;
      [by rewrite decide_True by lia|by rewrite decide_False by lia].
  - destruct Hr as [[-> ?]| ->]; [by right|by left].
Qed.
End theorems.

Section instances.
#[local] Existing Instances bst_rb bst_rb_laws env1 env1_laws.

(** A file with one page, block 5; a new entry for two pages. *)
Definition overwrite_world : world :=
  let m := st_bytes ∅ 8192 (encode_write_entry (5 * 4096) 0 1 0 0 0 4096) in
  let m := st_bytes m 8232 (encode_write_entry (6 * 4096) 0 2 0 0 0 8192) in
  World (nvmm_boot m) small_sbi {[100; 101; 200]} 0
    {[1 := InodeInfo (Sih {[0 := 8192]} ∅ 0 0 4096 20 1024 0 0 0 0 0 0)
             (VfsInode 20 0 1 4096 1 0 0 0 0 0 0 0 0 false)]} [].

Lemma small_used : ¬ block_free small_sbi 5.
Proof.
  intros (c&Hc&Hf). assert (c = 0 ∨ c = 1 ∨ 2 ≤ c) as [->|[->|Hge]] by lia.
  - by apply (bool_decide_eq_true_2 (free_block _ _)) in Hf; vm_compute in Hf.
  - by apply (bool_decide_eq_true_2 (free_block _ _)) in Hf; vm_compute in Hf.
  - unfold nova_get_free_list in Hf. change (cpus small_sbi) with 2 in Hf.
    rewrite decide_False in Hf by lia. by apply in_ranges_nil in Hf.
Qed.

Lemma assign_write_entry_spec_witness :
  ∃ w' i', nova_assign_write_entry 1024 1 8232 true overwrite_world = Done (Some 0, w') ∧
    w_inodes w' !! 1 = Some i' ∧ tree (header i') !! 0 = Some 8232 ∧
    tree (header i') !! 1 = Some 8232 ∧ blocks_released overwrite_world w' [5].
Proof.
  set (t := {[0 := 8192]} : gmap Z Z).
  assert (∀ p e, t !! p = Some e → p = 0 ∧ e = 8192) as Hte
    by (intros p e [<- <-]%lookup_singleton_Some; done).
  destruct (assign_write_entry_spec overwrite_world 1
    (InodeInfo (Sih t ∅ 0 0 4096 20 1024 0 0 0 0 0 0)
       (VfsInode 20 0 1 4096 1 0 0 0 0 0 0 0 0 false)) 1024 8232)
    as (r&w'&i'&Hrun&Hin&_&Htree&Hb&_&Hr).
  - reflexivity.
  - apply (balloc_ok_same small_world); [reflexivity|reflexivity|apply small_world_ok].
  - reflexivity.
  - split.
    + intros p e [-> ->]%Hte. vm_compute. split; congruence.
    + intros p e [-> ->]%Hte. vm_compute. split_and!; congruence.
    + intros p e q [-> ->]%Hte _ Hq. change (0 ≤ q < 1) in Hq. by replace q with 0 by lia.
  - split.
    + intros p p' e e' [_ ->]%Hte [_ ->]%Hte. by left.
    + intros p e [_ ->]%Hte. left. vm_compute. discriminate.
  - reflexivity.
  - vm_compute. discriminate.
  - change (NoDup [5]). apply NoDup_singleton.
  - change (in_use small_sbi [5]). intros b ->%list_elem_of_singleton.
    split; [cbn; lia|apply small_used].
  - destruct Hr as [->|[_ Hall]].
    + exists w', i'. split; [exact Hrun|]. rewrite Hin. split; [reflexivity|].
      split; [apply (Htree 0)|]. split; [apply (Htree 1)|]. exact Hb.
    + exfalso. destruct (Hall 1) as [x Hx]; [vm_compute; right; left|]. discriminate Hx.
Defined.
End instances.
