(* ===== verification/Truncate.v ===== *)
(** * Dropping pages of a file (inode.c)

    [nova_delete_file_tree] without freeing blocks, as the replay of a
    truncation uses it: it skips holes with a lookup of the next entry. *)
From S2P Require Import Prelude Nvmm RangeTree Layout World Balloc BallocList BallocProofs.
From S2P Require Import Log LogPages FileTree Inode Dax DaxProofs AssignProofs.

(** The first index from [from] on. *)
Lemma tree_next_spec from t :
  match tree_next from t with
  | Some (k, v) => from ≤ k ∧ t !! k = Some v ∧ ∀ k', from ≤ k' < k → t !! k' = None
  | None => ∀ k, from ≤ k → t !! k = None
  end.
Proof.
  unfold tree_next. apply (map_fold_weak_ind (λ r t,
    match r with
    | Some (k, v) => from ≤ k ∧ t !! k = Some v ∧ ∀ k', from ≤ k' < k → t !! k' = None
    | None => ∀ k, from ≤ k → t !! k = None
    end)); [done|].
  intros k v t' r Hk Hr. destruct (decide (from ≤ k)) as [Hf|Hf].
  - destruct r as [[k1 v1]|].
    + destruct Hr as (Hf1&Hl1&Hn1). destruct (decide (k < k1)).
      * split; [done|]. rewrite lookup_insert_eq. split; [done|].
        intros k' Hk'. rewrite lookup_insert_ne by lia. apply Hn1. lia.
      * split; [done|]. assert (k ≠ k1) by congruence. rewrite lookup_insert_ne by done.
        split; [done|]. intros k' Hk'. rewrite lookup_insert_ne by lia. by apply Hn1.
    + split; [done|]. rewrite lookup_insert_eq. split; [done|].
      intros k' Hk'. rewrite lookup_insert_ne by lia. apply Hr. lia.
  - destruct r as [[k1 v1]|].
    + destruct Hr as (Hf1&Hl1&Hn1). split; [done|]. rewrite lookup_insert_ne by lia.
      split; [done|]. intros k' Hk'. rewrite lookup_insert_ne by lia. by apply Hn1.
    + intros k' Hk'. rewrite lookup_insert_ne by lia. by apply Hr.
Qed.

(** The tree without the pages from [lo] to [hi]. *)
Definition without (lo hi : Z) (t : gmap Z Z) : gmap Z Z :=
  filter (λ x, ¬ lo ≤ x.1 ≤ hi) t.

Lemma lookup_without lo hi t q :
  without lo hi t !! q = if decide (lo ≤ q ≤ hi) then None else t !! q.
Proof.
  unfold without. case_decide as Hq.
  - apply map_lookup_filter_None. right. intros e _. naive_solver.
  - destruct (t !! q) as [e|] eqn:He.
    + by apply map_lookup_filter_Some.
    + apply map_lookup_filter_None. by left.
Qed.

Lemma without_skip lo lo' hi t :
  lo ≤ lo' → (∀ q, lo ≤ q < lo' → t !! q = None) → without lo' hi t = without lo hi t.
Proof.
  intros Hle Hn. apply map_eq. intros q. rewrite !lookup_without.
  repeat case_decide; try done; try lia. apply Hn. lia.
Qed.

Lemma without_delete lo hi t :
  lo ≤ hi → without (lo + 1) hi (delete lo t) = without lo hi t.
Proof.
  intros Hle. apply map_eq. intros q. rewrite !lookup_without.
  destruct (decide (q = lo)) as [->|Hne].
  - rewrite lookup_delete_eq, (decide_True (P := lo ≤ lo ≤ hi)) by lia. by case_decide.
  - rewrite lookup_delete_ne by done. repeat case_decide; done || lia.
Qed.

Lemma without_none lo hi t : (∀ q, lo ≤ q ≤ hi → t !! q = None) → without lo hi t = t.
Proof.
  intros Hn. apply map_eq. intros q. rewrite lookup_without. case_decide as Hq; [|done].
  symmetry. by apply Hn.
Qed.

Section delete.
Context `{RbTree} `{Env}.

(** [w] with the tree [t] for the inode [h]. *)
Definition with_tree (h : Z) (i : nova_inode_info) (t : gmap Z Z) (w : world) : world :=
  set_inodes (<[h := InodeInfo (sih_set_tree t (header i)) (vfs i)]> (w_inodes w)) w.

Lemma with_tree_same h i w :
  w_inodes w !! h = Some i → with_tree h i (tree (header i)) w = w.
Proof.
  intros Hi. unfold with_tree, set_inodes.
  replace (InodeInfo _ _) with i by (by destruct i as [[] ?]).
  rewrite insert_id by done. by destruct w.
Qed.

Lemma with_tree_twice h i t t' w :
  with_tree h (InodeInfo (sih_set_tree t (header i)) (vfs i)) t' (with_tree h i t w) =
  with_tree h i t' w.
Proof. unfold with_tree, set_inodes. cbn. by rewrite insert_insert_eq. Qed.

Lemma delete_tree_run pi h last fuel : ∀ w i pgoff,
  w_inodes w !! h = Some i →
  (∀ q e, tree (header i) !! q = Some e → we_pgoff (vis (w_nvmm w)) e ≤ q) →
  0 ≤ pgoff → last < 2 ^ 63 → pgoff ≤ last + 1 → last - pgoff + 1 < Z.of_nat fuel →
  delete_tree_loop fuel pi h pgoff last false (0, 0) 0 w =
  Done ((0, 0, 0), with_tree h i (without pgoff last (tree (header i))) w).
Proof.
  induction fuel as [|fuel IH]; intros w i pgoff Hi Hin Hp Hlast Hpl Hf; [lia|].
  cbn [delete_tree_loop]. destruct (decide (last < pgoff)) as [Hend|Hgo].
  { rewrite without_none by (intros; lia). by rewrite with_tree_same. }
  rewrite (bind_get_sih _ _ _ _ Hi).
  destruct (tree (header i) !! pgoff) as [e|] eqn:He.
  - rewrite (bind_run _ _ _ _ _ (update_sih_run _ _ _ _ Hi)), bind_mret.
    cbn [fst snd]. change (s32 (0 + 0)) with 0. rewrite wrap_small by lia.
    fold (with_tree h i (delete pgoff (tree (header i))) w).
    rewrite (IH _ (InodeInfo (sih_set_tree (delete pgoff (tree (header i))) (header i)) (vfs i)));
      [|apply lookup_insert_eq| |lia..].
    + rewrite with_tree_twice. cbn [header sih_set_tree tree]. by rewrite without_delete by lia.
    + intros q e' Hq. apply (lookup_delete_Some (tree (header i))) in Hq as [_ Hq]. by apply Hin.
  - unfold nova_find_next_entry. rewrite bind_assoc, (bind_get_sih _ _ _ _ Hi), bind_mret.
    pose proof (tree_next_spec pgoff (tree (header i))) as Hnext.
    destruct (tree_next pgoff (tree (header i))) as [[k e]|]; cbn [fmap option_fmap option_map snd].
    + destruct Hnext as (Hk&Hke&Hno). pose proof (Hin k e Hke) as Hle. rewrite bind_load.
      fold (we_pgoff (vis (w_nvmm w)) e). rewrite wrap_small by lia.
      assert (pgoff ≠ k) by congruence. set (p := we_pgoff _ e) in *.
      set (next := if decide (pgoff + 1 > p) then pgoff + 1 else p).
      assert (pgoff < next ≤ k) as Hn by (subst next; case_decide; lia).
      destruct (decide (next ≤ last + 1)) as [Hnl|Hnl].
      * rewrite (IH w i next Hi Hin) by lia. do 3 f_equal. apply without_skip; [lia|].
        intros q Hq. destruct (decide (q = pgoff)) as [->|]; [done|apply Hno; lia].
      * destruct fuel as [|fuel]; [lia|]. cbn [delete_tree_loop]. rewrite decide_True by lia.
        rewrite without_none; [by rewrite with_tree_same|].
        intros q Hq. destruct (decide (q = pgoff)) as [->|]; [done|apply Hno; lia].
    + rewrite without_none; [by rewrite with_tree_same|]. intros q Hq. apply Hnext. lia.
Qed.

(** Without pages in the cache tree. *)
Lemma delete_file_tree_run w h i lo hi :
  w_inodes w !! h = Some i → 0 < pi_addr (header i) < 2 ^ 56 → mmap_pages (header i) = 0 →
  (∀ q e, tree (header i) !! q = Some e → we_pgoff (vis (w_nvmm w)) e ≤ q) →
  0 ≤ lo ≤ hi → hi < 2 ^ 63 →
  nova_delete_file_tree h lo hi false false w =
  Done (0, with_tree h i (without lo hi (tree (header i))) w).
Proof.
  intros Hi Hpi Hmm Hin Hlo Hhi. unfold nova_delete_file_tree.
  rewrite (bind_get_sih _ _ _ _ Hi), bind_block_ptr by lia.
  rewrite (decide_False (P := _ ∧ _)) by (by intros []). rewrite bind_mret.
  rewrite (bind_get_sih _ _ _ _ Hi), (decide_False (P := _ ∧ _)) by (by intros []).
  rewrite bind_mret, (bind_run _ _ _ _ _ (delete_tree_run _ h hi (S (Z.to_nat (hi - lo + 1))) w i lo Hi Hin
    ltac:(lia) ltac:(lia) ltac:(lia) ltac:(lia))). done.
Qed.
End delete.
