(* ===== verification/FileInv.v ===== *)
(** * The invariant of a file (inode.c, dax.c)

    What holds of the page tree of a file, its write entries and its data
    blocks between two operations, and while new entries are already in the
    log but not yet in the tree: a write appends them first, and points the
    pages to them after the commit. *)
From S2P Require Import Prelude Nvmm RangeTree Layout World Balloc BallocList BallocProofs.
From S2P Require Import Log LogPages FileTree Inode Dax DaxProofs AssignProofs.

Ltac offsets :=
  unfold nova_inode.sizeof, nova_inode.i_blocks, nova_inode.log_tail, nova_inode.i_blk_type,
    nova_file_write_entry.sizeof, nova_file_write_entry.invalid_pages,
    nova_file_write_entry.block, nova_file_write_entry.pgoff,
    nova_file_write_entry.num_pages in *; lia.

(** Page [q] belongs to entry [e]: the tree says so, or [e] is one of the
    entries [es] that wait to be put into the tree. *)
Definition slot (m : mem) (t : gmap Z Z) (es : list Z) (e q : Z) : Prop :=
  t !! q = Some e ∨ e ∈ es ∧ we_pgoff m e ≤ q < we_pgoff m e + we_num m e.

(** Byte [x] is one of the inode or of an entry. *)
Definition meta (m : mem) (pi : Z) (t : gmap Z Z) (es : list Z) (x : Z) : Prop :=
  pi ≤ x < pi + nova_inode.sizeof ∨
  ∃ e q, slot m t es e q ∧ e ≤ x < e + nova_file_write_entry.sizeof.

(** Byte [x] is one of the data of the file. *)
Definition data (m : mem) (t : gmap Z Z) (es : list Z) (x : Z) : Prop :=
  ∃ e q, slot m t es e q ∧ page_block m e q = x / 4096.

(** The pages of entry [e] that the tree gives to others. *)
Definition dead (m : mem) (t : gmap Z Z) (e : Z) : Z :=
  Z.of_nat (length (filter (λ q, t !! q ≠ Some e) (seqZ (we_pgoff m e) (we_num m e)))).

Record file_inv (s : nova_sb_info) (m : mem) (pi : Z) (t : gmap Z Z) (es : list Z) : Prop := {
  fi_type : ld 1 m (pi + nova_inode.i_blk_type) = NOVA_BLOCK_TYPE_4K;
  fi_in e q : slot m t es e q → we_pgoff m e ≤ q < we_pgoff m e + we_num m e;
  fi_small e q : slot m t es e q →
    0 < we_blocknr m e ∧ we_blocknr m e + we_num m e < 2 ^ 44 ∧
    we_pgoff m e + we_num m e ≤ 2 ^ 52;
  fi_apart e q e' q' : slot m t es e q → slot m t es e' q' →
    e = e' ∨ e + nova_file_write_entry.sizeof ≤ e' ∨ e' + nova_file_write_entry.sizeof ≤ e;
  fi_inode e q : slot m t es e q →
    pi + nova_inode.sizeof ≤ e ∨ e + nova_file_write_entry.sizeof ≤ pi;
  fi_inj e q e' q' : slot m t es e q → slot m t es e' q' →
    page_block m e q = page_block m e' q' → e = e' ∧ q = q';
  fi_use e q : slot m t es e q → in_use s [page_block m e q];
  fi_meta x : meta m pi t es x → ¬ block_free s (x / 4096) ∧ ¬ data m t es x;
  fi_dead e q : t !! q = Some e → we_invalid m e = dead m t e;
  fi_fresh e : e ∈ es → 1 ≤ we_num m e ∧ we_invalid m e = 0 ∧ ld 1 m e = FILE_WRITE ∧
    ∀ q, t !! q ≠ Some e;
  fi_nodup : NoDup es
}.

(** The bytes from [lo] to [hi] belong neither to the file nor to a free
    block. *)
Definition spare (s : nova_sb_info) (m : mem) (pi : Z) (t : gmap Z Z) (es : list Z)
    (lo hi : Z) : Prop :=
  ∀ x, lo ≤ x < hi →
    ¬ meta m pi t es x ∧ ¬ block_free s (x / 4096) ∧ ¬ data m t es x.

(** ** Consequences *)
Section facts.
Context s m pi t es (Hinv : file_inv s m pi t es).

Lemma inv_apart : apart pi t.
Proof.
  split.
  - intros p p' e e' He He'.
    by apply (fi_apart _ _ _ _ _ Hinv e p e' p'); left.
  - intros p e He. by apply (fi_inode _ _ _ _ _ Hinv e p); left.
Qed.

Lemma inv_tree_ok : tree_ok m t.
Proof.
  split.
  - intros p e He. by apply (fi_in _ _ _ _ _ Hinv); left.
  - intros p e He. destruct (fi_small _ _ _ _ _ Hinv e p ltac:(by left)) as (?&?&?).
    pose proof (fi_in _ _ _ _ _ Hinv e p ltac:(by left)). lia.
  - intros p e q He Hz Hq. rewrite (fi_dead _ _ _ _ _ Hinv e p He) in Hz.
    destruct (decide (t !! q = Some e)) as [|Hne]; [done|exfalso].
    unfold dead in Hz. assert (q ∈ filter (λ q, t !! q ≠ Some e)
      (seqZ (we_pgoff m e) (we_num m e))) as Hin.
    { apply list_elem_of_filter. rewrite elem_of_seqZ. split; [done|lia]. }
    destruct (filter _ _); [by apply not_elem_of_nil in Hin|cbn in Hz; lia].
Qed.

Lemma elem_old_blocks b pages :
  b ∈ old_blocks m t pages ↔
  ∃ p e, p ∈ pages ∧ t !! p = Some e ∧ b = page_block m e p.
Proof.
  unfold old_blocks. rewrite list_elem_of_bind. split.
  - intros (p&Hb&Hp). destruct (t !! p) as [e|] eqn:He; [|by apply not_elem_of_nil in Hb].
    apply list_elem_of_singleton in Hb as ->. eauto.
  - intros (p&e&Hp&He&->). exists p. rewrite He. split; [left|done].
Qed.

Lemma old_blocks_use pages : in_use s (old_blocks m t pages).
Proof.
  intros b (p&e&Hp&He&->)%elem_old_blocks.
  apply (fi_use _ _ _ _ _ Hinv e p); by left.
Qed.

Lemma old_blocks_nodup pages : NoDup pages → NoDup (old_blocks m t pages).
Proof.
  induction pages as [|p pages IH]; intros Hnd; [constructor|].
  apply NoDup_cons in Hnd as [Hp Hnd]. unfold old_blocks. cbn.
  fold (old_blocks m t pages). destruct (t !! p) as [e|] eqn:He; [|by apply IH].
  cbn. constructor; [|by apply IH]. intros (q&e'&Hq&He'&Heq)%elem_old_blocks.
  destruct (fi_inj _ _ _ _ _ Hinv e p e' q) as [_ ->]; [by left|by left|done|done].
Qed.

(** The whole of an entry lies in [meta]. *)
Lemma meta_entry e q x :
  slot m t es e q → e ≤ x < e + nova_file_write_entry.sizeof → meta m pi t es x.
Proof. intros Hs Hx. right. by exists e, q. Qed.

Lemma meta_inode x : pi ≤ x < pi + nova_inode.sizeof → meta m pi t es x.
Proof. by left. Qed.

Lemma fresh_slot e : e ∈ es → slot m t es e (we_pgoff m e).
Proof. intros He. right. split; [done|]. destruct (fi_fresh _ _ _ _ _ Hinv e He). lia. Qed.

Lemma fresh_not_in e q : e ∈ es → t !! q ≠ Some e.
Proof. intros He. by destruct (fi_fresh _ _ _ _ _ Hinv e He) as (_&_&_&Hq). Qed.

(** Free blocks hold nothing of the file. *)
Lemma free_not_held x :
  block_free s (x / 4096) → ¬ meta m pi t es x ∧ ¬ data m t es x.
Proof.
  intros Hf. split.
  - intros Hm. by destruct (fi_meta _ _ _ _ _ Hinv x Hm).
  - intros (e&q&Hs&Hb). destruct (fi_use _ _ _ _ _ Hinv e q Hs (x / 4096)) as [_ Hn];
      [rewrite Hb; left|done].
Qed.
End facts.

(** ** Frames *)

(** The entry at [e] says the same in [m'] as in [m], apart from its count of
    invalid pages. *)
Definition same_fields (m m' : mem) (e : Z) : Prop :=
  we_blocknr m' e = we_blocknr m e ∧ we_pgoff m' e = we_pgoff m e ∧ we_num m' e = we_num m e.

Lemma same_fields_frame m m' e :
  (∀ x, e ≤ x < e + nova_file_write_entry.invalid_pages → ld8 m' x = ld8 m x) →
  same_fields m m' e.
Proof.
  intros Hx. unfold same_fields, we_blocknr, we_pgoff, we_num.
  split_and!; [f_equal|..]; apply ld_frame; intros x Hx'; apply Hx; offsets.
Qed.

Lemma page_block_fields m m' e q : same_fields m m' e → page_block m' e q = page_block m e q.
Proof. intros (?&?&?). unfold page_block. congruence. Qed.

Section same.
Context m m' t es (Hf : ∀ e q, slot m t es e q → same_fields m m' e).
Context (Hes : ∀ e, e ∈ es → 1 ≤ we_num m e).

Lemma slot_same e q : slot m' t es e q ↔ slot m t es e q.
Proof.
  unfold slot. split; (intros [He|[He Hq]]; [by left|right]); split; try done;
    (destruct (Hf e (we_pgoff m e)) as (_&?&?);
       [right; split; [done|]; specialize (Hes e He); lia|]); lia.
Qed.

Lemma meta_same pi x : meta m' pi t es x ↔ meta m pi t es x.
Proof. unfold meta. by setoid_rewrite slot_same. Qed.

Lemma data_same x : data m' t es x ↔ data m t es x.
Proof.
  unfold data. setoid_rewrite slot_same. do 2 (apply exist_proper; intros ?).
  split; (intros [Hs Hb]; split; [done|]); pose proof (Hf _ _ Hs) as Hsf;
    by rewrite <- Hb, (page_block_fields _ _ _ _ Hsf).
Qed.

Lemma dead_same e q : slot m t es e q → dead m' t e = dead m t e.
Proof. intros Hs. unfold dead. by destruct (Hf e q Hs) as (_&->&->). Qed.

Lemma spare_same s s' pi lo hi :
  (∀ x, lo ≤ x < hi → block_free s' (x / 4096) → block_free s (x / 4096)) →
  spare s m pi t es lo hi → spare s' m' pi t es lo hi.
Proof.
  intros Hb Hs x Hx. destruct (Hs x Hx) as (?&?&?). rewrite meta_same, data_same. naive_solver.
Qed.
End same.

(** Nothing of the file but bytes of the inode changes, and not its type. *)
Section frame.
Context s m pi t es (Hinv : file_inv s m pi t es).
Context m' (Hm : ∀ e q x, slot m t es e q → e ≤ x < e + nova_file_write_entry.sizeof →
  ld8 m' x = ld8 m x).
Context (Hty : ld 1 m' (pi + nova_inode.i_blk_type) = ld 1 m (pi + nova_inode.i_blk_type)).

Lemma frame_fields e q : slot m t es e q → same_fields m m' e.
Proof. intros Hs. apply same_fields_frame. intros x Hx. eapply Hm; [done|]. offsets. Qed.

Lemma frame_nums e : e ∈ es → 1 ≤ we_num m e.
Proof. intros He. by destruct (fi_fresh _ _ _ _ _ Hinv e He). Qed.

Lemma inv_frame s' :
  same_geometry s s' → (∀ b, block_free s' b → block_free s b) → file_inv s' m' pi t es.
Proof.
  intros (_&_&Hn&Hr) Hb. pose proof (slot_same _ _ _ _ frame_fields frame_nums) as Hslot.
  assert (∀ e q, slot m t es e q → page_block m' e q = page_block m e q) as Hpb.
  { intros e q Hs. by apply page_block_fields, (frame_fields e q). }
  split; try setoid_rewrite Hslot; try by apply Hinv.
  - by rewrite Hty, (fi_type _ _ _ _ _ Hinv).
  - intros e q Hs. destruct (frame_fields e q Hs) as (_&->&->). by apply (fi_in _ _ _ _ _ Hinv).
  - intros e q Hs. destruct (frame_fields e q Hs) as (->&->&->).
    by apply (fi_small _ _ _ _ _ Hinv e q).
  - intros e q e' q' Hs Hs'. rewrite !Hpb by done. by apply (fi_inj _ _ _ _ _ Hinv).
  - intros e q Hs b Hin. rewrite Hpb in Hin by done.
    destruct (fi_use _ _ _ _ _ Hinv e q Hs b Hin). rewrite Hn, Hr. auto.
  - intros x. rewrite (meta_same _ _ _ _ frame_fields frame_nums),
      (data_same _ _ _ _ frame_fields frame_nums).
    intros Hx. destruct (fi_meta _ _ _ _ _ Hinv x Hx). auto.
  - intros e q He. assert (slot m t es e q) as Hs by (by left).
    rewrite (dead_same _ _ _ _ frame_fields e q Hs), <- (fi_dead _ _ _ _ _ Hinv e q He).
    apply ld_frame. intros x Hx. eapply Hm; [done|]. offsets.
  - intros e He. pose proof (fresh_slot _ _ _ _ _ Hinv e He) as Hs.
    destruct (frame_fields _ _ Hs) as (_&_&->).
    destruct (fi_fresh _ _ _ _ _ Hinv e He) as (?&<-&<-&?). split_and!; try done;
      apply ld_frame; intros x Hx; (eapply Hm; [done|]); offsets.
Qed.

Lemma spare_frame s' lo hi :
  (∀ x, lo ≤ x < hi → block_free s' (x / 4096) → block_free s (x / 4096)) →
  spare s m pi t es lo hi → spare s' m' pi t es lo hi.
Proof. by apply spare_same; [apply frame_fields|apply frame_nums]. Qed.
End frame.

(** The abstract file depends only on what belongs to the file. *)
Lemma file_byte_frame m m' t x :
  (∀ e q, t !! q = Some e → same_fields m m' e) →
  (∀ y, data m t [] y → ld8 m' y = ld8 m y) →
  file_byte m' t x = file_byte m t x.
Proof.
  intros Hf Hd. unfold file_byte. destruct (t !! (x / 4096)) as [e|] eqn:He; [|done].
  rewrite (page_block_fields m m') by (by eapply Hf). apply Hd.
  exists e, (x / 4096). split; [by left|].
  rewrite Z.div_add_l, (Z.div_small (x mod 4096)); [lia| |lia].
  apply Z.mod_pos_bound. lia.
Qed.

(** Forgetting the waiting entries. *)
Lemma inv_drop s m pi t es : file_inv s m pi t es → file_inv s m pi t [].
Proof.
  intros Hinv. assert (∀ e q, slot m t [] e q → slot m t es e q) as Hs.
  { intros e q [?|[?%not_elem_of_nil _]]; [by left|done]. }
  split; try (intros; by eapply Hinv; eauto).
  - intros x Hx. destruct (fi_meta _ _ _ _ _ Hinv x) as [? Hd].
    { destruct Hx as [?|(e&q&?&?)]; [by left|right]. exists e, q. auto. }
    split; [done|]. intros (e&q&?&?). apply Hd. exists e, q. auto.
  - apply (fi_dead _ _ _ _ _ Hinv).
  - intros e ?%not_elem_of_nil. done.
  - constructor.
Qed.

Lemma spare_drop s m pi t es lo hi : spare s m pi t es lo hi → spare s m pi t [] lo hi.
Proof.
  intros Hsp x Hx. destruct (Hsp x Hx) as (Hm&?&Hd).
  assert (∀ e q, slot m t [] e q → slot m t es e q) as Hs.
  { intros e q [?|[?%not_elem_of_nil _]]; [by left|done]. }
  split_and!; [|done|].
  - intros [?|(e&q&?&?)]; apply Hm; [by left|right]. exists e, q. auto.
  - intros (e&q&?&?). apply Hd. exists e, q. auto.
Qed.

(** ** Pointing the tree to the first waiting entry *)

Lemma length_filter_split {A} (P Q R : A → Prop) `{∀ x, Decision (P x), ∀ x, Decision (Q x),
    ∀ x, Decision (R x)} (l : list A) :
  (∀ x, x ∈ l → (R x ↔ P x ∨ Q x) ∧ ¬ (P x ∧ Q x)) →
  length (filter R l) = (length (filter P l) + length (filter Q l))%nat.
Proof.
  induction l as [|x l IH]; intros Hl; [done|]. rewrite !filter_cons.
  destruct (Hl x ltac:(left)) as [Hx Hx']. specialize (IH ltac:(intros y ?; apply Hl; by right)).
  repeat case_decide; cbn; try lia; tauto.
Qed.

Section point.
Context s m pi t e es (Hinv : file_inv s m pi t (e :: es)).
Context (s' : nova_sb_info) (m' : mem) (t' : gmap Z Z).
Let pages : list Z := seqZ (we_pgoff m e) (we_num m e).
Context (Ht' : ∀ p, t' !! p = if decide (p ∈ pages) then Some e else t !! p).
Context (Hk : mem_keeps pi t m m').
Context (Hinvalid : ∀ p e', t !! p = Some e' →
  we_invalid m' e' = u32 (we_invalid m e' + hits t e' pages)).
Context (Hgeo : same_geometry s s').
Context (Hfree : ∀ b, block_free s' b → block_free s b ∨ b ∈ old_blocks m t pages).

Lemma point_fields e0 q : slot m t (e :: es) e0 q → same_fields m m' e0.
Proof.
  intros Hs. apply same_fields_frame. intros x Hx. apply Hk. intros [Hi|(p&e1&He1&Hx1)].
  - destruct (fi_inode _ _ _ _ _ Hinv e0 q Hs); offsets.
  - destruct (fi_apart _ _ _ _ _ Hinv e0 q e1 p Hs ltac:(by left)) as [->|[|]]; offsets.
Qed.

Lemma point_fresh e0 n k :
  e0 ∈ e :: es → 0 ≤ n → n + Z.of_nat k ≤ nova_file_write_entry.sizeof →
  ld k m' (e0 + n) = ld k m (e0 + n).
Proof.
  intros He0 Hn Hk'. pose proof (fresh_slot _ _ _ _ _ Hinv e0 He0) as Hs.
  apply ld_frame. intros x Hx. apply Hk. intros [Hi|(p&e1&He1&Hx1)].
  - destruct (fi_inode _ _ _ _ _ Hinv e0 _ Hs); offsets.
  - destruct (fi_apart _ _ _ _ _ Hinv e0 _ e1 p Hs ltac:(by left)) as [->|[|]]; [|offsets..].
    by destruct (fresh_not_in _ _ _ _ _ Hinv e1 p He0).
Qed.

Lemma point_nums e0 : e0 ∈ es → 1 ≤ we_num m e0.
Proof. intros He0. by destruct (fi_fresh _ _ _ _ _ Hinv e0 ltac:(by right)). Qed.

Lemma point_slot e0 q : slot m' t' es e0 q → slot m t (e :: es) e0 q.
Proof.
  intros [He0|[He0 Hq]].
  - rewrite Ht' in He0. case_decide as Hp; [|by left].
    injection He0 as <-. right. split; [left|]. apply elem_of_seqZ in Hp. lia.
  - right. split; [by right|].
    destruct (point_fields e0 _ (fresh_slot _ _ _ _ _ Hinv e0 ltac:(by right))) as (_&<-&<-). done.
Qed.

Lemma point_meta x : meta m' pi t' es x → meta m pi t (e :: es) x.
Proof.
  intros [?|(e0&q&Hs%point_slot&Hx)]; [by left|right]. by exists e0, q.
Qed.

Lemma point_data x : data m' t' es x → data m t (e :: es) x.
Proof.
  intros (e0&q&Hs&Hb). apply point_slot in Hs. exists e0, q. split; [done|].
  by rewrite <- Hb, (page_block_fields _ _ _ _ (point_fields e0 q Hs)).
Qed.

(** The block of a page that is given up is not one of the pages left. *)
Lemma point_old e0 q b :
  slot m' t' es e0 q → b ∈ old_blocks m t pages → page_block m e0 q ≠ b.
Proof.
  intros Hs (p&e1&Hp&He1&->)%elem_old_blocks Heq.
  destruct (fi_inj _ _ _ _ _ Hinv e0 q e1 p) as [-> ->];
    [by apply point_slot|by left|done|].
  destruct Hs as [He'|[He' _]].
  - rewrite Ht', decide_True in He' by done. injection He' as ->.
    by destruct (fresh_not_in _ _ _ _ _ Hinv e1 p ltac:(left)).
  - by destruct (fresh_not_in _ _ _ _ _ Hinv e1 p ltac:(by right)).
Qed.

Lemma point_count e0 q :
  t !! q = Some e0 →
  Z.of_nat (length (filter (λ q, t' !! q ≠ Some e0) (seqZ (we_pgoff m e0) (we_num m e0)))) =
  dead m t e0 + hits t e0 pages.
Proof.
  intros He0. unfold dead, hits. rewrite <- Nat2Z.inj_add. f_equal.
  rewrite (length_filter_split (λ q, t !! q ≠ Some e0) (λ q, q ∈ pages ∧ t !! q = Some e0)
    (λ q, t' !! q ≠ Some e0)).
  - f_equal. apply Permutation_length, NoDup_Permutation.
    + apply NoDup_filter, NoDup_seqZ.
    + apply NoDup_filter, NoDup_seqZ.
    + intros p. rewrite !list_elem_of_filter. split; [tauto|]. intros [Hp Hin].
      split; [done|]. apply elem_of_seqZ, (fi_in _ _ _ _ _ Hinv). by left.
  - intros p _. rewrite Ht'. case_decide; [|tauto].
    destruct (decide (t !! p = Some e0)) as [Hp|Hp]; [|split; [|tauto]].
    + split; [|tauto]. split; [tauto|]. intros _ [= <-].
      by destruct (fresh_not_in _ _ _ _ _ Hinv e p ltac:(left)).
    + split; [tauto|]. intros _ [= <-].
      by destruct (fresh_not_in _ _ _ _ _ Hinv e q ltac:(left)).
Qed.

(** An entry that keeps a page has not lost all of them. *)
Lemma point_count_lt e0 q p :
  t !! q = Some e0 → t' !! p = Some e0 → 0 ≤ dead m t e0 + hits t e0 pages < we_num m e0.
Proof.
  intros He0 Hp. rewrite <- (point_count e0 q He0). split; [lia|].
  assert (slot m t (e :: es) e0 p) as Hs by (apply point_slot; by left).
  pose proof (fi_in _ _ _ _ _ Hinv e0 p Hs) as Hin.
  replace (we_num m e0) with (Z.of_nat (length (seqZ (we_pgoff m e0) (we_num m e0)))) at 2
    by (rewrite length_seqZ; lia).
  apply inj_lt, (length_filter_lt _ _ p); [apply elem_of_seqZ; lia|]. by intros [].
Qed.

Lemma point_dead e0 q : t' !! q = Some e0 → we_invalid m' e0 = dead m' t' e0.
Proof.
  intros He0. assert (slot m t (e :: es) e0 q) as Hs by (apply point_slot; by left).
  destruct (point_fields e0 q Hs) as (_&Hg&Hn). unfold dead. rewrite Hg, Hn.
  rewrite Ht' in He0. case_decide as Hq.
  - injection He0 as <-. destruct (fi_fresh _ _ _ _ _ Hinv e ltac:(left)) as (_&Hz&_).
    transitivity 0; [rewrite <- Hz; unfold we_invalid; apply point_fresh; [left|offsets..]|].
    rewrite filter_none; [done|]. apply Forall_forall.
    intros p Hp. rewrite Ht', decide_True by done. auto.
  - rewrite (Hinvalid q e0 He0), (fi_dead _ _ _ _ _ Hinv e0 q He0), (point_count e0 q He0).
    apply wrap_small. rewrite <- (point_count e0 q He0). split; [lia|].
    eapply Z.le_lt_trans; [apply inj_le, length_filter|]. rewrite length_seqZ.
    pose proof (ld_range 4 m (e0 + nova_file_write_entry.num_pages)).
    fold (we_num m e0) in *. lia.
Qed.

Lemma inv_point : file_inv s' m' pi t' es.
Proof.
  destruct Hgeo as (_&_&En&Er).
  assert (∀ e0 q, slot m' t' es e0 q → page_block m' e0 q = page_block m e0 q) as Hpb.
  { intros e0 q Hs%point_slot. by apply page_block_fields, (point_fields e0 q). }
  split.
  - rewrite <- (fi_type _ _ _ _ _ Hinv). eapply keeps_type; [|done]. by eapply inv_apart.
  - intros e0 q Hs%point_slot. destruct (point_fields e0 q Hs) as (_&->&->).
    by apply (fi_in _ _ _ _ _ Hinv).
  - intros e0 q Hs%point_slot. destruct (point_fields e0 q Hs) as (->&->&->).
    by apply (fi_small _ _ _ _ _ Hinv e0 q).
  - intros e0 q e1 q' Hs%point_slot Hs'%point_slot. by apply (fi_apart _ _ _ _ _ Hinv e0 q e1 q').
  - intros e0 q Hs%point_slot. by apply (fi_inode _ _ _ _ _ Hinv e0 q).
  - intros e0 q e1 q' Hs Hs'. rewrite !Hpb by done.
    by apply (fi_inj _ _ _ _ _ Hinv); apply point_slot.
  - intros e0 q Hs b Hb. rewrite Hpb in Hb by done. rewrite En, Er.
    destruct (fi_use _ _ _ _ _ Hinv e0 q (point_slot e0 q Hs) b Hb) as [? Hn]. split; [done|].
    intros [?|Ho]%Hfree; [done|]. apply list_elem_of_singleton in Hb as ->.
    by apply (point_old e0 q _ Hs Ho).
  - intros x Hx%point_meta. destruct (fi_meta _ _ _ _ _ Hinv x Hx) as [Hn Hd]. split.
    + intros [?|Ho]%Hfree; [done|]. apply elem_old_blocks in Ho as (p&e1&_&He1&Hb).
      apply Hd. exists e1, p. split; [by left|done].
    + intros ?%point_data. done.
  - apply point_dead.
  - intros e0 He0. destruct (fi_fresh _ _ _ _ _ Hinv e0 ltac:(by right)) as (Hn&Hz&Hty&Hno).
    unfold we_num, we_invalid in *. rewrite !point_fresh by (by right || offsets).
    split_and!; try done.
    + rewrite <- Hty, <- (Z.add_0_r e0). apply point_fresh; [by right|offsets..].
    + intros q. rewrite Ht'. case_decide; [|done]. intros [= <-].
      pose proof (fi_nodup _ _ _ _ _ Hinv) as Hnd. by apply NoDup_cons in Hnd as [? _].
  - pose proof (fi_nodup _ _ _ _ _ Hinv) as Hnd. by apply NoDup_cons in Hnd as [_ ?].
Qed.

Lemma spare_point lo hi : spare s m pi t (e :: es) lo hi → spare s' m' pi t' es lo hi.
Proof.
  intros Hs x Hx. destruct (Hs x Hx) as (Hm&Hn&Hd). split_and!.
  - intros ?%point_meta. done.
  - intros [?|Ho]%Hfree; [done|]. apply elem_old_blocks in Ho as (p&e1&_&He1&Hb).
    apply Hd. exists e1, p. split; [by left|done].
  - intros ?%point_data. done.
Qed.
End point.

(** ** A new entry that waits to be put into the tree *)
Section push.
Context s m pi t es (Hinv : file_inv s m pi t es).
Context e b k (Hb : we_blocknr m e = b) (Hk : we_num m e = k) (Hk1 : 1 ≤ k).
Context (Hz : we_invalid m e = 0) (Hty : ld 1 m e = FILE_WRITE).
Context (Hsmall : 0 < b ∧ b + k < 2 ^ 44 ∧ we_pgoff m e + k ≤ 2 ^ 52).
Context (Huse : in_use s (seqZ b k)).
Context (Hnew : ∀ x, b ≤ x / 4096 < b + k → ¬ meta m pi t es x ∧ ¬ data m t es x).
Context (Hspare : spare s m pi t es e (e + nova_file_write_entry.sizeof)).
Context (Happ : ∀ x, e ≤ x < e + nova_file_write_entry.sizeof → ¬ b ≤ x / 4096 < b + k).

Lemma push_slot e0 q :
  slot m t (es ++ [e]) e0 q ↔
  slot m t es e0 q ∨ e0 = e ∧ we_pgoff m e ≤ q < we_pgoff m e + k.
Proof. unfold slot. rewrite elem_of_app, list_elem_of_singleton, <- Hk. naive_solver. Qed.

Lemma push_block q :
  we_pgoff m e ≤ q < we_pgoff m e + k → b ≤ page_block m e q < b + k.
Proof. unfold page_block. lia. Qed.

(** The entry is apart from whatever belongs to the file. *)
Lemma push_apart lo n :
  0 < n → (∀ x, lo ≤ x < lo + n → meta m pi t es x) →
  lo + n ≤ e ∨ e + nova_file_write_entry.sizeof ≤ lo.
Proof.
  intros Hn Hm. destruct (decide (lo + n ≤ e ∨ e + nova_file_write_entry.sizeof ≤ lo)) as [|Hx];
    [done|exfalso].
  destruct (Hspare (Z.max lo e)) as (Hno&_); [offsets|]. apply Hno, Hm. offsets.
Qed.

Lemma push_meta x :
  meta m pi t (es ++ [e]) x ↔ meta m pi t es x ∨ e ≤ x < e + nova_file_write_entry.sizeof.
Proof.
  unfold meta. setoid_rewrite push_slot. split.
  - intros [?|(e0&q&[Hs|[-> Hq]]&Hx)]; [auto|left|by right]. right. by exists e0, q.
  - intros [[?|(e0&q&Hs&Hx)]|Hx]; [by left|right; exists e0, q; auto|].
    right. exists e, (we_pgoff m e). split; [right; lia|done].
Qed.

Lemma push_data x : data m t (es ++ [e]) x ↔ data m t es x ∨ b ≤ x / 4096 < b + k.
Proof.
  unfold data. setoid_rewrite push_slot. split.
  - intros (e0&q&[Hs|[-> Hq]]&Hx); [left; by exists e0, q|right]. rewrite <- Hx. by apply push_block.
  - intros [(e0&q&Hs&Hx)|Hx]; [exists e0, q; auto|].
    exists e, (we_pgoff m e + (x / 4096 - b)). split; [right; split; [done|lia]|].
    unfold page_block. lia.
Qed.

Lemma push_inj e0 q q' :
  slot m t es e0 q → we_pgoff m e ≤ q' < we_pgoff m e + k →
  page_block m e0 q ≠ page_block m e q'.
Proof.
  intros Hs Hq' Heq. pose proof (push_block q' Hq').
  destruct (Hnew (page_block m e0 q * 4096)) as [_ Hd]; rewrite ?Z.div_mul by lia; [lia|].
  apply Hd. exists e0, q. split; [done|]. by rewrite Z.div_mul by lia.
Qed.

Lemma inv_push : file_inv s m pi t (es ++ [e]).
Proof.
  assert (∀ q, t !! q ≠ Some e) as Hno.
  { intros q Hq. destruct (Hspare e) as (Hm&_); [offsets|]. apply Hm.
    right. exists e, q. split; [by left|offsets]. }
  assert (e ∉ es) as Hnes.
  { intros He. destruct (Hspare e) as (Hm&_); [offsets|]. apply Hm.
    eapply meta_entry; [by eapply fresh_slot|offsets]. }
  split; try setoid_rewrite push_slot; try by apply Hinv.
  - intros e0 q [Hs|[-> Hq]]; [by apply (fi_in _ _ _ _ _ Hinv)|lia].
  - intros e0 q [Hs|[-> Hq]]; [by apply (fi_small _ _ _ _ _ Hinv e0 q)|lia].
  - intros e0 q e1 q' [Hs|[-> Hq]] [Hs'|[-> Hq']]; [by apply (fi_apart _ _ _ _ _ Hinv e0 q e1 q')|..].
    + right. eapply (push_apart e0); [offsets|]. intros x Hx. by eapply meta_entry.
    + right. apply or_comm. eapply (push_apart e1); [offsets|]. intros x Hx. by eapply meta_entry.
    + by left.
  - intros e0 q [Hs|[-> Hq]]; [by apply (fi_inode _ _ _ _ _ Hinv e0 q)|].
    apply push_apart; [offsets|]. intros x Hx. by apply meta_inode.
  - intros e0 q e1 q' [Hs|[-> Hq]] [Hs'|[-> Hq']] Heq; [by apply (fi_inj _ _ _ _ _ Hinv)|..].
    + by destruct (push_inj e0 q q').
    + by destruct (push_inj e1 q' q).
    + split; [done|]. unfold page_block in Heq. lia.
  - intros e0 q [Hs|[-> Hq]]; [by apply (fi_use _ _ _ _ _ Hinv e0 q)|].
    eapply in_use_sub; [|exact Huse]. intros x ->%list_elem_of_singleton.
    apply elem_of_seqZ. by apply push_block.
  - intros x. rewrite push_meta, push_data. intros [Hx|Hx].
    + destruct (fi_meta _ _ _ _ _ Hinv x Hx). split; [done|]. intros [?|Hr]; [done|].
      by destruct (Hnew x Hr).
    + destruct (Hspare x Hx) as (_&?&?). split; [done|]. intros [?|Hr]; [done|].
      by apply (Happ x).
  - intros e0 [He0| ->%list_elem_of_singleton]%elem_of_app; [by apply (fi_fresh _ _ _ _ _ Hinv)|].
    by rewrite Hk.
  - apply NoDup_app. split_and!; [by apply Hinv| |apply NoDup_singleton].
    intros x Hx ->%list_elem_of_singleton. done.
Qed.

Lemma spare_push lo hi :
  e + nova_file_write_entry.sizeof ≤ lo →
  (∀ x, lo ≤ x < hi → ¬ b ≤ x / 4096 < b + k) →
  spare s m pi t es lo hi → spare s m pi t (es ++ [e]) lo hi.
Proof.
  intros Hlo Hx Hs x Hr. rewrite push_meta, push_data.
  destruct (Hs x Hr) as (?&?&?). specialize (Hx x Hr). split_and!; [|done|tauto]. intros [?|?]; [done|lia].
Qed.
End push.

(** ** The tree after all waiting entries were put into it *)
Definition point (m : mem) (t : gmap Z Z) (e : Z) : gmap Z Z :=
  foldr (λ p t, <[p := e]> t) t (seqZ (we_pgoff m e) (we_num m e)).

Lemma lookup_point m t e p :
  point m t e !! p =
  if decide (p ∈ seqZ (we_pgoff m e) (we_num m e)) then Some e else t !! p.
Proof.
  unfold point. induction (seqZ _ _) as [|q l IH]; [done|]. cbn [foldr].
  destruct (decide (p = q)) as [->|Hne].
  - rewrite lookup_insert_eq, decide_True by left. done.
  - rewrite lookup_insert_ne, IH by done. repeat case_decide; set_solver.
Qed.

Lemma lookup_points m es : ∀ t q,
  (∃ e, e ∈ es ∧ we_pgoff m e ≤ q < we_pgoff m e + we_num m e ∧
        foldl (point m) t es !! q = Some e) ∨
  (∀ e, e ∈ es → ¬ we_pgoff m e ≤ q < we_pgoff m e + we_num m e) ∧
  foldl (point m) t es !! q = t !! q.
Proof.
  induction es as [|e es IH]; intros t q; [right; split; [set_solver|done]|]. cbn [foldl].
  destruct (IH (point m t e) q) as [(e'&He'&Hq&Hl)|[Hno Hl]].
  - left. exists e'. split; [by right|done].
  - rewrite lookup_point in Hl. case_decide as Hq; rewrite elem_of_seqZ in Hq.
    + left. exists e. split; [left|done].
    + right. split; [|done]. intros e' [->|He']%elem_of_cons; [done|by apply Hno].
Qed.
