(* ===== verification/CowProofs.v ===== *)
(** * Writing is updating the abstract file (dax.c)

    [nova_cow_file_write] allocates runs of blocks, fills them with the bytes
    of the caller and, at both ends, with the bytes of the file around them,
    appends a write entry for each run, moves the tail over all entries and
    points the pages to them. *)
From S2P Require Import Prelude Nvmm RangeTree Layout World Trace Balloc BallocList BallocProofs.
From S2P Require Import Log LogPages LogProofs FileTree Inode Dax DaxProofs AssignProofs FileInv.

(** ** Bytes *)
Lemma ld8_st_bytes m a bs x :
  ld8 (st_bytes m a bs) x =
  if decide (a ≤ x < a + Z.of_nat (length bs)) then u8 (bs !!! Z.to_nat (x - a)) else ld8 m x.
Proof.
  case_decide as Hx; [|apply ld8_st_bytes_out; lia].
  destruct (lookup_lt_is_Some_2 bs (Z.to_nat (x - a))) as [b Hb]; [lia|].
  rewrite (list_lookup_total_correct _ _ _ Hb).
  replace x with (a + Z.of_nat (Z.to_nat (x - a))) at 1 by lia. by apply ld8_st_bytes_in.
Qed.

Lemma ld8_copy m a n m0 src x :
  ld8 (st_bytes m a (ld_bytes n m0 src)) x =
  if decide (a ≤ x < a + Z.of_nat n) then ld8 m0 (src + (x - a)) else ld8 m x.
Proof.
  rewrite ld8_st_bytes, length_ld_bytes. case_decide as Hx; [|done].
  rewrite ld_bytes_seq, (list_lookup_total_correct _ _ (ld8 m0 (src + (x - a)))).
  - apply wrap_small. apply ld8_range.
  - rewrite list_lookup_fmap, lookup_seqZ_lt by lia. cbn. do 2 f_equal. lia.
Qed.

Lemma length_write_entry b g k inv time pad size :
  length (encode_write_entry b g k inv time pad size) = 40%nat.
Proof. unfold encode_write_entry. cbn [length]. by rewrite !length_app, length_drop, !length_le_split. Qed.

(** What is read back of a write entry. *)
Lemma read_write_entry m e b g k inv time pad size :
  0 ≤ b < 2 ^ 44 → 0 ≤ g < 2 ^ 64 → 0 ≤ k < 2 ^ 32 → 0 ≤ inv < 2 ^ 32 →
  let m' := st_bytes m e (encode_write_entry (b * 4096) g k inv time pad size) in
  we_blocknr m' e = b ∧ we_pgoff m' e = g ∧ we_num m' e = k ∧ we_invalid m' e = inv ∧
  ld 1 m' e = FILE_WRITE ∧ ld 8 m' (e + nova_file_write_entry.size) = u64 size.
Proof.
  intros Hb Hg Hk Hi m'. unfold we_blocknr, we_pgoff, we_num, we_invalid.
  set (l := le_split 8 (b * 4096 + FILE_WRITE) ++ le_split 8 g ++ le_split 4 k ++
    le_split 4 inv ++ le_split 4 time ++ le_split 4 pad ++ le_split 8 size).
  assert (encode_write_entry (b * 4096) g k inv time pad size = l) as El.
  { unfold l, encode_write_entry, FILE_WRITE.
    assert (∀ v, le_split 8 v = v mod 256 :: le_split 7 (v / 256)) as H8 by done.
    rewrite !(H8 (b * 4096)), !(H8 (b * 4096 + 1)).
    replace ((b * 4096 + 1) mod 256) with 1 by (apply Z.mod_unique with (b * 16); lia).
    replace ((b * 4096 + 1) / 256) with (b * 4096 / 256); [done|].
    transitivity (b * 16); [symmetry; apply Z.div_unique_exact; lia|apply Z.div_unique with 1; lia]. }
  assert (ld_bytes 40 m' e = l) as Hl.
  { unfold m'. rewrite El. apply (ld_bytes_st_bytes m e l). unfold l.
    repeat apply Forall_app_2; apply Forall_lookup; apply le_split_byte. }
  assert (∀ pre n v post, l = pre ++ le_split n v ++ post →
    ld n m' (e + Z.of_nat (length pre)) = v mod 256 ^ Z.of_nat n) as Hf
    by (intros; eapply ld_field; by rewrite Hl).
  split_and!.
  - rewrite (Hf [] 8%nat (b * 4096 + FILE_WRITE) _ eq_refl :
      ld 8 m' (e + nova_file_write_entry.block) = _), shiftr_page. unfold FILE_WRITE.
    rewrite Z.mod_small by lia. symmetry. apply Z.div_unique with 1; lia.
  - rewrite (Hf (le_split 8 (b * 4096 + FILE_WRITE)) 8%nat g _ eq_refl :
      ld 8 m' (e + nova_file_write_entry.pgoff) = _). apply Z.mod_small. lia.
  - rewrite (Hf (le_split 8 (b * 4096 + FILE_WRITE) ++ le_split 8 g) 4%nat k _ eq_refl :
      ld 4 m' (e + nova_file_write_entry.num_pages) = _). apply Z.mod_small. lia.
  - rewrite (Hf (le_split 8 (b * 4096 + FILE_WRITE) ++ le_split 8 g ++ le_split 4 k) 4%nat
      inv _ eq_refl : ld 4 m' (e + nova_file_write_entry.invalid_pages) = _).
    apply Z.mod_small. lia.
  - rewrite <- (Z.add_0_r e), (Hf [] 1%nat (b * 4096 + FILE_WRITE) _ eq_refl :
      ld 1 m' (e + 0) = _). symmetry. apply Z.mod_unique with (b * 16); unfold FILE_WRITE; lia.
  - apply (Hf (le_split 8 (b * 4096 + FILE_WRITE) ++ le_split 8 g ++ le_split 4 k ++
      le_split 4 inv ++ le_split 4 time ++ le_split 4 pad) 8%nat size []).
    by rewrite app_nil_r, <- !app_assoc.
Qed.

(** The size in it: the larger of that of the file and the end of the write. *)
Lemma appended_size m e b g k time pad v x :
  0 ≤ b < 2 ^ 44 → 0 ≤ g < 2 ^ 64 → 0 ≤ k < 2 ^ 32 → 0 ≤ x < 2 ^ 64 →
  ld 8 (st_bytes m e (encode_write_entry (b * 4096) g k 0 time pad
          (if decide (u64 x > v) then u64 x else v))) (e + nova_file_write_entry.size) =
  u64 (Z.max v x).
Proof.
  intros Hb Hg Hk Hx. rewrite (wrap_small 64 x) by lia.
  destruct (read_write_entry m e b g k 0 time pad (if decide (x > v) then x else v))
    as (_&_&_&_&_&->); [lia..|]. f_equal. case_decide; lia.
Qed.

(** ** The partial blocks at both ends *)

Lemma file_byte_page m t p o :
  0 ≤ o < 4096 →
  file_byte m t (p * 4096 + o) =
  match t !! p with Some e => ld8 m (page_block m e p * 4096 + o) | None => 0 end.
Proof.
  intros Ho. unfold file_byte.
  rewrite Z.div_add_l, (Z.div_small o), Z.add_0_r by lia.
  by rewrite (Z.add_comm (p * 4096)), Z.mod_add, (Z.mod_small o) by lia.
Qed.

(** [w'] is [w] with the bytes from [lo] to [hi] taken from the abstract file,
    from offset [y] on. *)
Definition filled (t : gmap Z Z) (w w' : world) (lo hi y : Z) : Prop :=
  only_nvmm w w' ∧ tidy (λ x, lo ≤ x < hi) w w' ∧
  ∀ x, ld8 (vis (w_nvmm w')) x =
    if decide (lo ≤ x < hi) then file_byte (vis (w_nvmm w)) t (y + (x - lo))
    else ld8 (vis (w_nvmm w)) x.

Section head_tail.
Context `{RbTree} `{Env} `{Uaccess}.

Lemma copy_partial_run w t e p off kmem is_end :
  tree_ok (vis (w_nvmm w)) t → t !! p = Some e → 0 ≤ off ≤ 4096 →
  let lo := if (is_end : bool) then off else 0 in
  let hi := if is_end then 4096 else off in
  ∃ bs, Z.of_nat (length bs) = hi - lo ∧
    let w' := set_nvmm (nvmm_write Cached (WBytes (kmem + lo) bs) (w_nvmm w)) w in
    nova_copy_partial_block e p off kmem is_end w = Done ((), w') ∧
    ∀ x, ld8 (vis (w_nvmm w')) x =
      if decide (kmem + lo ≤ x < kmem + hi)
      then file_byte (vis (w_nvmm w)) t (p * 4096 + lo + (x - (kmem + lo)))
      else ld8 (vis (w_nvmm w)) x.
Proof.
  intros Hok He Hoff lo hi. pose proof (to_in _ _ Hok p e He) as Hin.
  destruct (to_small _ _ Hok p e He) as (Hb1&Hb2&Hp2).
  unfold nova_copy_partial_block, get_nvmm. run. set (m := vis (w_nvmm w)) in *.
  fold (we_blocknr m e) (we_pgoff m e).
  assert (0 ≤ we_pgoff m e) by apply (ld_range 8).
  rewrite (wrap_small 64 (_ + p - _)) by lia. fold (page_block m e p).
  rewrite wrap_small by (unfold page_block, PAGE_SHIFT; rewrite Z.shiftl_mul_pow2 by lia; lia).
  unfold PAGE_SHIFT. rewrite Z.shiftl_mul_pow2 by lia. change (2 ^ 12) with 4096.
  rewrite get_block_pos by (unfold page_block; lia).
  exists (ld_bytes (Z.to_nat (hi - lo)) m (page_block m e p * 4096 + lo)).
  assert (0 ≤ lo ≤ hi ∧ hi ≤ 4096) by (unfold lo, hi; destruct is_end; lia).
  rewrite length_ld_bytes. split; [lia|]. split.
  - unfold lo, hi. destruct is_end; run; [done|]. by rewrite Z.sub_0_r, !Z.add_0_r.
  - intros x. cbn. rewrite ld8_copy, Z2Nat.id by lia.
    replace (kmem + lo + (hi - lo)) with (kmem + hi) by lia.
    destruct (decide (kmem + lo ≤ x < kmem + hi)) as [Hx|Hx]; [|done].
    by rewrite <- !Z.add_assoc, file_byte_page, He by lia.
Qed.

(** One partial block: the bytes of the file up to [off] in it, or from [off]
    on. *)
Lemma fill_run w h i p off kmem (is_end : bool) a n :
  w_inodes w !! h = Some i → tree_ok (vis (w_nvmm w)) (tree (header i)) → 0 ≤ off ≤ 4096 →
  let lo := if is_end then off else 0 in
  let hi := if is_end then 4096 else off in
  a = kmem + lo → n = hi - lo →
  ∃ w', (entry ← nova_get_write_entry h p;
         (match entry with
          | None => write_mem Cached (WZero a n)
          | Some e => nova_copy_partial_block e p off kmem is_end
          end) ;; flush_buffer a n false) w = Done ((), w') ∧
    filled (tree (header i)) w w' (kmem + lo) (kmem + hi) (p * 4096 + lo).
Proof.
  intros Hi Hok Hoff lo hi -> ->. unfold nova_get_write_entry. rewrite bind_assoc.
  assert (0 ≤ lo ≤ hi ∧ hi ≤ 4096) by (unfold lo, hi; destruct is_end; lia).
  rewrite (bind_get_sih _ _ _ _ Hi). run. destruct (tree (header i) !! p) as [e|] eqn:He.
  - destruct (copy_partial_run w _ e p off kmem is_end Hok He Hoff) as (bs&Hlen&Hrun&Hq).
    rewrite (bind_run _ _ _ _ _ Hrun). run. eexists. split; [reflexivity|]. split; [done|].
    split; [|intros x; cbn [w_nvmm set_nvmm]; rewrite vis_flush; apply Hq].
    fold lo hi in Hlen. apply tidy_store_flush; cbn; rewrite Hlen; [|intros x Hx; lia].
    apply flush_covers_len; lia.
  - run. eexists. split; [reflexivity|]. split; [done|].
    split; [apply tidy_store_flush; cbn; [apply flush_covers_len|intros x Hx]; lia|].
    intros x. cbn [w_nvmm set_nvmm]. rewrite vis_flush. cbn. rewrite ld8_zero_range.
    destruct (decide (kmem + lo ≤ x < kmem + hi)) as [Hx|Hx].
    + rewrite decide_True by lia. by rewrite <- Z.add_assoc, file_byte_page, He by lia.
    + by rewrite decide_False by lia.
Qed.

(** Stores to the [nb] blocks at [kmem] do not change the abstract file. *)
Definition private (w : world) (t : gmap Z Z) (kmem nb : Z) : Prop :=
  ∀ m', (∀ x, ¬ kmem ≤ x < kmem + nb * 4096 → ld8 m' x = ld8 (vis (w_nvmm w)) x) →
    tree_ok m' t ∧ ∀ y, file_byte m' t y = file_byte (vis (w_nvmm w)) t y.

(** The blocks of a write of [n] bytes at [pos]. *)
Definition blocks_of (pos n : Z) : Z := (n + pos mod 4096 - 1) / 4096 + 1.

Lemma blocks_of_spec pos n :
  1 ≤ n → 0 ≤ pos → let nb := blocks_of pos n in
  1 ≤ nb ∧ nb * 4096 - 4096 < pos mod 4096 + n ≤ nb * 4096 ∧
  (pos mod 4096 + n < nb * 4096 → (pos + n) mod 4096 = pos mod 4096 + n - (nb - 1) * 4096) ∧
  (pos mod 4096 + n = nb * 4096 → (pos + n) mod 4096 = 0).
Proof.
  intros Hn Hp nb. unfold nb, blocks_of.
  pose proof (Z.div_mod pos 4096 ltac:(lia)) as Hd. pose proof (Z.mod_pos_bound pos 4096 ltac:(lia)).
  pose proof (Z.div_mod (n + pos mod 4096 - 1) 4096 ltac:(lia)).
  pose proof (Z.mod_pos_bound (n + pos mod 4096 - 1) 4096 ltac:(lia)).
  assert (0 ≤ (n + pos mod 4096 - 1) / 4096) by (apply Z.div_pos; lia).
  set (c := (n + pos mod 4096 - 1) / 4096) in *. split_and!; try lia.
  - intros Hlt. symmetry. apply Z.mod_unique with (pos / 4096 + c); lia.
  - intros Heq. symmetry. apply Z.mod_unique with (pos / 4096 + c + 1); lia.
Qed.

Lemma filled_none t w lo hi y : hi ≤ lo → filled t w w lo hi y.
Proof.
  intros Hle. split; [done|]. split; [by apply tidy_same|]. intros x. by rewrite decide_False by lia.
Qed.

Lemma fill_head w h i p off kmem :
  w_inodes w !! h = Some i → tree_ok (vis (w_nvmm w)) (tree (header i)) → 0 ≤ off < 4096 →
  ∃ w', (if decide (off ≠ 0) then
           entry ← nova_get_write_entry h p;
           (match entry with
            | None => write_mem Cached (WZero kmem off)
            | Some e => nova_copy_partial_block e p off kmem false
            end) ;; flush_buffer kmem off false
         else mret ()) w = Done ((), w') ∧
    filled (tree (header i)) w w' kmem (kmem + off) (p * 4096).
Proof.
  intros Hi Hok Hoff. destruct (decide (off ≠ 0)) as [|Hz].
  - destruct (fill_run w h i p off kmem false kmem off) as (w'&Hrun&Hf); try done; try lia.
    exists w'. split; [done|]. by rewrite !Z.add_0_r in Hf.
  - exists w. split; [done|]. apply filled_none. lia.
Qed.

Lemma fill_tail w h i p off kmem :
  w_inodes w !! h = Some i → tree_ok (vis (w_nvmm w)) (tree (header i)) → 0 ≤ off < 4096 →
  ∃ w', (if decide (off ≠ 0) then
           entry ← nova_get_write_entry h p;
           (match entry with
            | None => write_mem Cached (WZero (kmem + off) (4096 - off))
            | Some e => nova_copy_partial_block e p off kmem true
            end) ;; flush_buffer (kmem + off) (4096 - off) false
         else mret ()) w = Done ((), w') ∧
    filled (tree (header i)) w w' (kmem + off) (if decide (off = 0) then kmem else kmem + 4096)
      (p * 4096 + off).
Proof.
  intros Hi Hok Hoff. destruct (decide (off = 0)) as [Hz|Hz].
  - exists w. rewrite decide_False by auto. split; [done|]. apply filled_none. lia.
  - rewrite decide_True by done.
    by destruct (fill_run w h i p off kmem true (kmem + off) (4096 - off)) as (w'&Hrun&Hf);
      try done; try lia; exists w'.
Qed.

Lemma head_tail_run w h i pi pos n kmem :
  w_inodes w !! h = Some i → private w (tree (header i)) kmem (blocks_of pos n) →
  ld 1 (vis (w_nvmm w)) (pi + nova_inode.i_blk_type) = NOVA_BLOCK_TYPE_4K →
  0 ≤ pos → 1 ≤ n → pos + n < 2 ^ 63 →
  let off := pos mod 4096 in
  ∃ w', nova_handle_head_tail_blocks pi h pos n kmem w = Done ((), w') ∧ only_nvmm w w' ∧
    tidy (λ x, kmem ≤ x < kmem + blocks_of pos n * 4096) w w' ∧
    ∀ x, ld8 (vis (w_nvmm w')) x =
      if decide (kmem ≤ x < kmem + off ∨ kmem + off + n ≤ x < kmem + blocks_of pos n * 4096)
      then file_byte (vis (w_nvmm w)) (tree (header i)) (pos / 4096 * 4096 + (x - kmem))
      else ld8 (vis (w_nvmm w)) x.
Proof.
  intros Hi Hpriv Hty Hp Hn Hmax off.
  destruct (blocks_of_spec pos n Hn Hp) as (Hnb&Hb&Hlt&Heq). set (nb := blocks_of pos n) in *.
  pose proof (Z.mod_pos_bound pos 4096 ltac:(lia)) as Hoff. fold off in Hoff, Hb, Hlt, Heq.
  pose proof (Z.div_mod pos 4096 ltac:(lia)) as Hd.
  unfold nova_handle_head_tail_blocks. run. rewrite Hty.
  change (blk_type_to_size NOVA_BLOCK_TYPE_4K - 1) with 4095. unfold PAGE_SIZE.
  change (4096 - 1) with 4095. rewrite !land_page, !shiftr_page. fold off.
  rewrite (wrap_small 64 (n + off - 1)), (wrap_small 64 (pos + n)) by lia.
  replace ((n + off - 1) / 4096 + 1) with nb by done.
  rewrite (wrap_small 64 (_ + nb - 1)) by lia.
  unfold PAGE_SHIFT. rewrite Z.shiftl_mul_pow2 by lia. change (2 ^ 12) with 4096.
  destruct (Hpriv (vis (w_nvmm w)) ltac:(done)) as [Hok _].
  destruct (fill_head w h i (pos / 4096) off kmem Hi Hok Hoff) as (w1&Hrun1&Ho1&Htd1&Hf1).
  rewrite (bind_run _ _ _ _ _ Hrun1).
  destruct (Hpriv (vis (w_nvmm w1))) as [Hok1 Hfb].
  { intros x Hx. rewrite Hf1, decide_False; [done|lia]. }
  destruct (fill_tail w1 h i (pos / 4096 + nb - 1) ((pos + n) mod 4096) (kmem + (nb - 1) * 4096))
    as (w2&Hrun2&Ho2&Htd2&Hf2); try done; [by destruct Ho1 as (_&_&_&->)|by apply Z.mod_pos_bound|].
  exists w2. split; [exact Hrun2|]. split; [by eapply only_nvmm_trans|]. split.
  { pose proof (Z.mod_pos_bound (pos + n) 4096 ltac:(lia)).
    eapply tidy_trans; (eapply tidy_mono; [|done]); cbn; intros x Hx; [lia|].
    destruct (decide ((pos + n) mod 4096 = 0)); lia. }
  intros x. rewrite Hf2, Hf1, Hfb.
  destruct (decide (off + n = nb * 4096)) as [He|He].
  - rewrite (decide_True _ _ (Heq He)), (Heq He). rewrite (decide_False (P := _ ≤ x < _)) by lia.
    destruct (decide (kmem ≤ x < kmem + off)).
    + rewrite decide_True by lia. done.
    + rewrite decide_False by lia. done.
  - rewrite (Hlt ltac:(lia)), (decide_False (P := _ = 0)) by lia.
    destruct (decide (kmem + (nb - 1) * 4096 + (off + n - (nb - 1) * 4096) ≤ x <
      kmem + (nb - 1) * 4096 + 4096)).
    + rewrite decide_True by lia. f_equal. lia.
    + destruct (decide (kmem ≤ x < kmem + off)).
      * rewrite decide_True by lia. done.
      * rewrite decide_False by lia. done.
Qed.

(** [w'] has the allocator and the inodes in memory of [w]. *)
Definition only_stores (w w' : world) : Prop :=
  w_sbi w' = w_sbi w ∧ w_live w' = w_live w ∧ w_inodes w' = w_inodes w.

(** The blocks at [kmem] after a pass: the [n] bytes of the caller at [pos],
    and around them the bytes of the file. *)
Definition pass_bytes (t : gmap Z Z) (m : mem) (pos n : Z) (bs : list Z) (y : Z) : Z :=
  if decide (pos ≤ y < pos + n) then bs !!! Z.to_nat (y - pos) else file_byte m t y.

Lemma pass_run w h i pi pos n kmem bs :
  (∀ t n, uncopied t n = 0) →
  w_inodes w !! h = Some i → private w (tree (header i)) kmem (blocks_of pos n) →
  ld 1 (vis (w_nvmm w)) (pi + nova_inode.i_blk_type) = NOVA_BLOCK_TYPE_4K →
  0 ≤ pos → 1 ≤ n ≤ Z.of_nat (length bs) → pos + n < 2 ^ 63 → (∀ b, b ∈ bs → 0 ≤ b < 256) →
  let off := pos mod 4096 in
  ∃ w', (∀ B (k : Z → M B),
         ((if decide (off ≠ 0 ∨ Z.land (u64 (off + n)) 4095 ≠ 0)
          then nova_handle_head_tail_blocks pi h pos n kmem else mret ()) ;;
         left_ ← ask (λ t, uncopied t n);
         store_bytes_nt (kmem + off) (take (Z.to_nat (n - left_)) bs) ;; k left_) w = k 0 w') ∧
    only_stores w w' ∧ tidy (λ x, kmem ≤ x < kmem + blocks_of pos n * 4096) w w' ∧
    ∀ x, ld8 (vis (w_nvmm w')) x =
      if decide (kmem ≤ x < kmem + blocks_of pos n * 4096)
      then pass_bytes (tree (header i)) (vis (w_nvmm w)) pos n bs (pos / 4096 * 4096 + (x - kmem))
      else ld8 (vis (w_nvmm w)) x.
Proof.
  intros Hcopy Hi Hpriv Hty Hp Hn Hmax Hbs off.
  destruct (blocks_of_spec pos n ltac:(lia) Hp) as (Hnb&Hb&Hlt&Heq).
  set (nb := blocks_of pos n) in *. fold off in Hb, Hlt, Heq.
  pose proof (Z.mod_pos_bound pos 4096 ltac:(lia)) as Hoff. fold off in Hoff.
  pose proof (Z.div_mod pos 4096 ltac:(lia)) as Hd. fold off in Hd.
  assert (∃ w1, (if decide (off ≠ 0 ∨ Z.land (u64 (off + n)) 4095 ≠ 0)
     then nova_handle_head_tail_blocks pi h pos n kmem else mret ()) w = Done ((), w1) ∧
     only_nvmm w w1 ∧ tidy (λ x, kmem ≤ x < kmem + nb * 4096) w w1 ∧
     ∀ x, ld8 (vis (w_nvmm w1)) x =
      if decide (kmem ≤ x < kmem + off ∨ kmem + off + n ≤ x < kmem + nb * 4096)
      then file_byte (vis (w_nvmm w)) (tree (header i)) (pos / 4096 * 4096 + (x - kmem))
      else ld8 (vis (w_nvmm w)) x) as (w1&Hrun&Ho&Htd&Hf).
  { case_decide as Hpart; [by apply (head_tail_run w h i pi pos n kmem); try lia|].
    exists w. split; [done|]. split; [done|]. split; [by apply tidy_same|].
    intros x. rewrite decide_False; [done|]. rewrite land_page, (wrap_small 64) in Hpart by lia.
    assert (off = 0 ∧ (off + n) mod 4096 = 0) as [Hz Hm] by (split; tauto || lia).
    pose proof (Z.div_mod (off + n) 4096 ltac:(lia)). lia. }
  eexists. split.
  { intros B k. rewrite (bind_run _ _ _ _ _ Hrun). unfold ask at 1. unfold mbind at 1, M_bind at 1.
    rewrite Hcopy, Z.sub_0_r. run. reflexivity. }
  split; [by destruct Ho as (?&?&?&?)|].
  split.
  { eapply tidy_trans; [done|]. apply (tidy_trans _ w1 (next_tick w1)); [by apply tidy_same|].
    apply tidy_nt. cbn. rewrite length_take. intros x Hx. lia. }
  intros x. cbn. rewrite ld8_st_bytes, length_take, Hf. unfold pass_bytes.
  destruct (decide (kmem + off ≤ x < kmem + off + n)) as [Hx|Hx].
  - rewrite decide_True by lia. rewrite (decide_True (P := kmem ≤ x < _)) by lia.
    rewrite decide_True by lia.
    replace (Z.to_nat (pos / 4096 * 4096 + (x - kmem) - pos)) with (Z.to_nat (x - (kmem + off)))
      by (f_equal; lia).
    rewrite lookup_total_take, decide_True by lia. apply wrap_small, Hbs, list_elem_of_lookup_total_2. lia.
  - rewrite decide_False by lia.
    destruct (decide (kmem ≤ x < kmem + nb * 4096)).
    + rewrite decide_True by lia. by rewrite decide_False by lia.
    + by rewrite decide_False by lia.
Qed.
End head_tail.

(** ** The loop over the runs of blocks *)

Lemma blocks_of_end pos n :
  pos / 4096 + blocks_of pos n = (pos + n - 1) / 4096 + 1.
Proof.
  unfold blocks_of. pose proof (Z.div_mod pos 4096 ltac:(lia)).
  replace (pos + n - 1) with (n + pos mod 4096 - 1 + (pos / 4096) * 4096) by lia.
  rewrite Z.div_add by lia. lia.
Qed.

(** The byte at [x] of the blocks from [b] on. *)
Lemma in_blocks b k x : b * 4096 ≤ x < (b + k) * 4096 ↔ b ≤ x / 4096 < b + k.
Proof.
  pose proof (Z.div_mod x 4096 ltac:(lia)). pose proof (Z.mod_pos_bound x 4096 ltac:(lia)). lia.
Qed.

(** The [n] entries from [start] on fit their log page. *)
Definition log_room (start n : Z) : Prop :=
  0 < start ∧ start + 40 * n < 2 ^ 56 ∧ start mod 4096 + 40 * n ≤ LAST_ENTRY.

Lemma room_fits start n j :
  log_room start n → 0 ≤ j < n →
  is_last_entry (start + 40 * j) nova_file_write_entry.sizeof = false.
Proof.
  intros (Hs&_&Hr) Hj. unfold is_last_entry. apply bool_decide_false.
  pose proof (Z.div_mod start 4096 ltac:(lia)). pose proof (Z.mod_pos_bound start 4096 ltac:(lia)).
  unfold LAST_ENTRY, nova_file_write_entry.sizeof in *. rewrite ENTRY_LOC_mod.
  replace ((start + 40 * j) mod 4096) with (start mod 4096 + 40 * j)
    by (apply Z.mod_unique with (start / 4096); lia).
  rewrite wrap_small; lia.
Qed.

Lemma room_next start k n : log_room start n → 0 ≤ k ≤ n → log_room (start + 40 * k) (n - k).
Proof.
  intros (Hs&Ht&Hr) Hk. unfold log_room, LAST_ENTRY in *.
  pose proof (Z.div_mod start 4096 ltac:(lia)). pose proof (Z.mod_pos_bound start 4096 ltac:(lia)).
  replace ((start + 40 * k) mod 4096) with (start mod 4096 + 40 * k)
    by (apply Z.mod_unique with (start / 4096); lia). lia.
Qed.

(** How many bytes a pass with [a] blocks writes. *)
Definition pass_len (pos count a : Z) : Z :=
  let n := u64 (PAGE_SIZE * a - pos mod 4096) in if decide (n > count) then count else n.

Lemma pass_len_spec pos count a :
  0 ≤ pos → 1 ≤ count → 1 ≤ a ≤ blocks_of pos count → a < 2 ^ 20 →
  let n := pass_len pos count a in
  1 ≤ n ≤ count ∧ blocks_of pos n = a ∧
  (n = count ∧ a = blocks_of pos count ∨ n < count ∧ pos + n = (pos / 4096 + a) * 4096).
Proof.
  intros Hp Hc Ha Hmax n. destruct (blocks_of_spec pos count Hc Hp) as (_&Hb&_&_).
  pose proof (Z.mod_pos_bound pos 4096 ltac:(lia)). pose proof (Z.div_mod pos 4096 ltac:(lia)).
  assert (n = Z.min count (4096 * a - pos mod 4096)) as Hn.
  { unfold n, pass_len, PAGE_SIZE. rewrite wrap_small by lia. case_decide; lia. }
  assert (1 ≤ n ≤ count) as Hr by lia. split; [done|].
  destruct (blocks_of_spec pos n ltac:(lia) Hp) as (_&Hbn&_&_). lia.
Qed.

Section cow.
Context `{RbTreeLaws} `{EnvLaws} `{Uaccess}.
Context (w0 : world) (h pi pos tail : Z) (i : nova_inode_info) (buf : list Z).
Let m0 : mem := vis (w_nvmm w0).
Let t : gmap Z Z := tree (header i).
Let len : Z := Z.of_nat (length buf).
Let N : Z := blocks_of pos len.
Context (R : Z) (HR : N ≤ R).

(** The local variables when the next page is [g] and [n] entries are in the
    log. *)
Definition cow_local (c : cow_state) (n g : Z) : Prop :=
  let k := c_written c in
  0 ≤ k ≤ len ∧ c_pos c = pos + k ∧ c_buf c = drop (Z.to_nat k) buf ∧ c_count c = len - k ∧
  c_num_blocks c = pos / 4096 + N - g ∧ c_temp_tail c = tail + 40 * n ∧
  c_begin_tail c = (if decide (n = 0) then 0 else tail) ∧
  (k = len ∧ g = pos / 4096 + N ∨
   k < len ∧ (pos + k) / 4096 = g ∧ (k = 0 ∨ (pos + k) mod 4096 = 0)).

Record cow_at (w : world) (c : cow_state) (es : list Z) (g : Z) : Prop := {
  ca_inodes : w_inodes w = w_inodes w0;
  ca_balloc : balloc_ok w;
  ca_geo : same_geometry (w_sbi w0) (w_sbi w);
  ca_inv : file_inv (w_sbi w) (vis (w_nvmm w)) pi t es;
  ca_es : es = (λ j, tail + 40 * j) <$> seqZ 0 (Z.of_nat (length es));
  ca_spare : spare (w_sbi w) (vis (w_nvmm w)) pi t es
               (tail + 40 * Z.of_nat (length es)) (tail + 40 * R);
  ca_mem x : ¬ block_free (w_sbi w0) (x / 4096) → ¬ tail ≤ x < tail + 40 * R →
    ld8 (vis (w_nvmm w)) x = ld8 m0 x;
  ca_free b : block_free (w_sbi w) b → block_free (w_sbi w0) b;
  ca_byte y : file_byte (vis (w_nvmm w)) t y = file_byte m0 t y;
  ca_data e q o : e ∈ es →
    we_pgoff (vis (w_nvmm w)) e ≤ q < we_pgoff (vis (w_nvmm w)) e + we_num (vis (w_nvmm w)) e →
    0 ≤ o < 4096 →
    ld8 (vis (w_nvmm w)) (page_block (vis (w_nvmm w)) e q * 4096 + o) =
    pass_bytes t m0 pos len buf (q * 4096 + o);
  ca_new e q : e ∈ es →
    we_pgoff (vis (w_nvmm w)) e ≤ q < we_pgoff (vis (w_nvmm w)) e + we_num (vis (w_nvmm w)) e →
    block_free (w_sbi w0) (page_block (vis (w_nvmm w)) e q);
  ca_pages q : pos / 4096 ≤ q < g ↔
    ∃ e, e ∈ es ∧
      we_pgoff (vis (w_nvmm w)) e ≤ q < we_pgoff (vis (w_nvmm w)) e + we_num (vis (w_nvmm w)) e;
  ca_count : Z.of_nat (length es) ≤ g - pos / 4096;
  ca_tidy : tidy (λ x, block_free (w_sbi w0) (x / 4096) ∨ tail ≤ x < tail + 40 * R) w0 w;
  ca_size : es ≠ [] →
    ld 8 (vis (w_nvmm w))
      (tail + 40 * (Z.of_nat (length es) - 1) + nova_file_write_entry.size) =
    u64 (Z.max (v_size (vfs i)) (c_pos c));
  ca_local : cow_local c (Z.of_nat (length es)) g
}.

(** What a pass does to memory: new blocks from [b] on, and one entry [e]. *)
Record passed (m m' : mem) (e b a g : Z) : Prop := {
  pa_keep x : ¬ b ≤ x / 4096 < b + a →
    ¬ e ≤ x < e + nova_file_write_entry.sizeof → ld8 m' x = ld8 m x;
  pa_block : we_blocknr m' e = b;
  pa_pgoff : we_pgoff m' e = g;
  pa_num : we_num m' e = a;
  pa_invalid : we_invalid m' e = 0;
  pa_type : ld 1 m' e = FILE_WRITE;
  pa_data y : g * 4096 ≤ y < (g + a) * 4096 →
    ld8 m' (b * 4096 + (y - g * 4096)) = pass_bytes t m0 pos len buf y
}.

Section push_pass.
Context (w w1 w' : world) (c : cow_state) (es : list Z) (g b a : Z).
Context (Hat : cow_at w c es g) (Hal : blocks_allocated w w1 b a false) (Hst : only_stores w1 w').
Let e : Z := tail + 40 * Z.of_nat (length es).
Context (Hpa : passed (vis (w_nvmm w)) (vis (w_nvmm w')) e b a g).
Context (Htd : tidy (λ x, b ≤ x / 4096 < b + a ∨
                       e ≤ x < e + nova_file_write_entry.sizeof) w1 w').
Context (Hge : g + a ≤ pos / 4096 + N) (Hg0 : pos / 4096 ≤ g) (Hg : pos / 4096 + N ≤ 2 ^ 52).
Context (Hdev : num_blocks (w_sbi w0) < 2 ^ 31).

Lemma pass_free x : b ≤ x < b + a → block_free (w_sbi w) x.
Proof. intros Hx. destruct Hal as (_&_&Hall&_). apply Hall. lia. Qed.

Lemma pass_blocks x : block_free (w_sbi w') x ↔ block_free (w_sbi w) x ∧ ¬ b ≤ x < b + a.
Proof.
  destruct Hst as (->&_&_). destruct Hal as (_&_&_&Hset&_).
  rewrite (lists_taken _ _ _ _ Hset). intuition lia.
Qed.

Lemma pass_room : Z.of_nat (length es) + 1 ≤ N.
Proof. pose proof (ca_count _ _ _ _ Hat). destruct Hal as ((?&?&?)&_). lia. Qed.

(** What belongs to the file is not changed. *)
Lemma pass_keeps x :
  meta (vis (w_nvmm w)) pi t es x ∨ data (vis (w_nvmm w)) t es x →
  ld8 (vis (w_nvmm w')) x = ld8 (vis (w_nvmm w)) x.
Proof.
  intros Hx. apply (pa_keep _ _ _ _ _ _ Hpa).
  - intros Hb%pass_free. destruct (free_not_held _ _ _ _ _ (ca_inv _ _ _ _ Hat) x Hb). tauto.
  - intros He. pose proof pass_room.
    destruct (ca_spare _ _ _ _ Hat x) as (?&_&?); [subst e; offsets|tauto].
Qed.

Lemma pass_fields e0 q :
  slot (vis (w_nvmm w)) t es e0 q → same_fields (vis (w_nvmm w)) (vis (w_nvmm w')) e0.
Proof.
  intros Hs. apply same_fields_frame. intros x Hx. apply pass_keeps. left.
  eapply meta_entry; [done|offsets].
Qed.

Lemma pass_inv0 : file_inv (w_sbi w') (vis (w_nvmm w')) pi t es.
Proof.
  apply (inv_frame _ _ _ _ _ (ca_inv _ _ _ _ Hat)).
  - intros e0 q x Hs Hx. apply pass_keeps. left. by eapply meta_entry.
  - apply ld_frame. intros x Hx. apply pass_keeps. left. apply meta_inode. offsets.
  - destruct Hst as (->&_&_). by destruct Hal as (_&_&_&_&_&_&(?&_)&_).
  - intros x. rewrite pass_blocks. tauto.
Qed.

(** The room left in the log, with the entry and behind it. *)
Lemma pass_spare0 : spare (w_sbi w') (vis (w_nvmm w')) pi t es e (tail + 40 * R).
Proof.
  eapply (spare_frame _ _ _ _ _ (ca_inv _ _ _ _ Hat)); [| |apply (ca_spare _ _ _ _ Hat)].
  - intros e0 q x Hs Hx. apply pass_keeps. left. by eapply meta_entry.
  - intros x _. rewrite pass_blocks. tauto.
Qed.

Lemma pass_apart x : e ≤ x < tail + 40 * R → ¬ b ≤ x / 4096 < b + a.
Proof.
  intros Hx Hb%pass_free. by destruct (ca_spare _ _ _ _ Hat x Hx) as (_&?&_).
Qed.

Lemma pass_unheld x :
  b ≤ x / 4096 < b + a →
  ¬ meta (vis (w_nvmm w')) pi t es x ∧ ¬ data (vis (w_nvmm w')) t es x.
Proof.
  intros Hx%pass_free. pose proof (frame_nums _ _ _ _ _ (ca_inv _ _ _ _ Hat)) as Hn.
  rewrite (meta_same _ _ _ _ pass_fields Hn), (data_same _ _ _ _ pass_fields Hn).
  by apply (free_not_held _ _ _ _ _ (ca_inv _ _ _ _ Hat)).
Qed.

Lemma pass_inv :
  file_inv (w_sbi w') (vis (w_nvmm w')) pi t (es ++ [e]) ∧
  spare (w_sbi w') (vis (w_nvmm w')) pi t (es ++ [e]) (e + 40) (tail + 40 * R).
Proof.
  destruct Hpa as [_ Pb Pg Pn Pi Pt _]. pose proof pass_room as Hr.
  destruct Hal as ((Ha&Hlo&Hhi)&_&_&_&_&_&((_&_&En&Er)&_)&_).
  destruct (ca_geo _ _ _ _ Hat) as (_&_&En0&_).
  pose proof (geo_reserved _ (bo_geometry _ (ca_balloc _ _ _ _ Hat))).
  pose proof pass_spare0 as Hsp. pose proof pass_unheld as Hun.
  assert (in_use (w_sbi w') (seqZ b a)) as Huse.
  { intros x Hx%elem_of_seqZ. rewrite pass_blocks. destruct Hst as (->&_&_).
    rewrite En, Er. split; [lia|tauto]. }
  assert (∀ x, e ≤ x < e + nova_file_write_entry.sizeof → ¬ b ≤ x / 4096 < b + a) as Hap.
  { intros x Hx. apply pass_apart. subst e. offsets. }
  assert (0 < b ∧ b + a < 2 ^ 44 ∧ we_pgoff (vis (w_nvmm w')) e + a ≤ 2 ^ 52) by lia.
  split.
  - apply (inv_push _ _ _ _ _ pass_inv0 e b a); try done.
    intros x Hx. apply Hsp. subst e. offsets.
  - apply (spare_push _ _ _ _ _ e b a); try done.
    + intros x Hx. apply pass_apart. lia.
    + intros x Hx. apply Hsp. lia.
Qed.

(** The entries in the log and the pages they hold. *)
Lemma pass_old e0 : e0 ∈ es → same_fields (vis (w_nvmm w)) (vis (w_nvmm w')) e0.
Proof. intros He0. eapply pass_fields, (fresh_slot _ _ _ _ _ (ca_inv _ _ _ _ Hat)); done. Qed.

Lemma pass_entry e0 :
  e0 ∈ es ++ [e] → e0 ∈ es ∧ same_fields (vis (w_nvmm w)) (vis (w_nvmm w')) e0 ∨ e0 = e.
Proof.
  intros [He0|He0%list_elem_of_singleton]%elem_of_app; [left|by right].
  split; [done|by apply pass_old].
Qed.

Lemma pass_pages q :
  pos / 4096 ≤ q < g + a ↔
  ∃ e0, e0 ∈ es ++ [e] ∧ we_pgoff (vis (w_nvmm w')) e0 ≤ q <
    we_pgoff (vis (w_nvmm w')) e0 + we_num (vis (w_nvmm w')) e0.
Proof.
  destruct Hpa as [_ _ Pg Pn _ _ _]. destruct Hal as ((?&_)&_). split.
  - intros Hq. destruct (decide (q < g)) as [Hlt|Hlt].
    + destruct (proj1 (ca_pages _ _ _ _ Hat q)) as (e0&He0&Hq0); [lia|].
      exists e0. split; [set_solver|].
      by destruct (pass_old e0 He0) as (_&->&->).
    + exists e. split; [set_solver|lia].
  - intros (e0&He0&Hq). destruct (pass_entry e0 He0) as [[He (_&Eg&En)]| ->]; [|lia].
    rewrite Eg, En in Hq. assert (pos / 4096 ≤ q < g) by (apply (ca_pages _ _ _ _ Hat); eauto). lia.
Qed.

Lemma pass_data e0 q o :
  e0 ∈ es ++ [e] → we_pgoff (vis (w_nvmm w')) e0 ≤ q <
    we_pgoff (vis (w_nvmm w')) e0 + we_num (vis (w_nvmm w')) e0 → 0 ≤ o < 4096 →
  ld8 (vis (w_nvmm w')) (page_block (vis (w_nvmm w')) e0 q * 4096 + o) =
  pass_bytes t m0 pos len buf (q * 4096 + o).
Proof.
  intros He0 Hq Ho. destruct (pass_entry e0 He0) as [[He Hf]| ->].
  - rewrite (page_block_fields _ _ _ q Hf). destruct Hf as (_&Eg&En). rewrite Eg, En in Hq.
    rewrite pass_keeps; [by apply (ca_data _ _ _ _ Hat)|]. right. exists e0, q.
    split; [by right|]. rewrite Z.div_add_l, (Z.div_small o) by lia. lia.
  - destruct Hpa as [_ Pb Pg Pn _ _ Pd]. unfold page_block. rewrite Pb, Pg in *.
    rewrite <- Pd by lia. f_equal. lia.
Qed.

Lemma pass_new e0 q :
  e0 ∈ es ++ [e] → we_pgoff (vis (w_nvmm w')) e0 ≤ q <
    we_pgoff (vis (w_nvmm w')) e0 + we_num (vis (w_nvmm w')) e0 →
  block_free (w_sbi w0) (page_block (vis (w_nvmm w')) e0 q).
Proof.
  intros He0 Hq. destruct (pass_entry e0 He0) as [[He Hf]| ->].
  - rewrite (page_block_fields _ _ _ q Hf). destruct Hf as (_&Eg&En). rewrite Eg, En in Hq.
    by apply (ca_new _ _ _ _ Hat).
  - destruct Hpa as [_ Pb Pg Pn _ _ _]. apply (ca_free _ _ _ _ Hat), pass_free.
    unfold page_block. rewrite Pb, Pg, Pn in *. lia.
Qed.

Lemma pass_at c' :
  cow_local c' (Z.of_nat (length es) + 1) (g + a) → balloc_ok w' →
  ld 8 (vis (w_nvmm w')) (e + nova_file_write_entry.size) =
    u64 (Z.max (v_size (vfs i)) (c_pos c')) →
  cow_at w' c' (es ++ [e]) (g + a).
Proof.
  intros Hloc Hok Hsz. destruct pass_inv as [Hinv' Hsp']. pose proof pass_room as Hr.
  assert (Z.of_nat (length (es ++ [e])) = Z.of_nat (length es) + 1) as Elen
    by (rewrite length_app; cbn; lia).
  split; rewrite ?Elen; try done.
  - rewrite <- (ca_inodes _ _ _ _ Hat). destruct Hst as (_&_&->).
    by destruct Hal as (_&_&_&_&_&_&(_&_&?)&_).
  - destruct Hst as (->&_&_). destruct Hal as (_&_&_&_&_&_&((?&?&?&?)&_)&_).
    destruct (ca_geo _ _ _ _ Hat) as (?&?&?&?). repeat split; congruence.
  - rewrite seqZ_app, fmap_app by lia. rewrite <- (ca_es _ _ _ _ Hat). do 2 f_equal.
  - by replace (tail + 40 * (Z.of_nat (length es) + 1)) with (e + 40) by (subst e; lia).
  - intros x Hx1 Hx2. rewrite (pa_keep _ _ _ _ _ _ Hpa); [by apply (ca_mem _ _ _ _ Hat)|..].
    + intros Hb%pass_free%(ca_free _ _ _ _ Hat). done.
    + subst e. offsets.
  - intros x [Hx _]%pass_blocks. by apply (ca_free _ _ _ _ Hat).
  - intros y. rewrite <- (ca_byte _ _ _ _ Hat). apply file_byte_frame.
    + intros e0 q He0. apply (pass_fields e0 q). by left.
    + intros x Hx. apply pass_keeps. right. destruct Hx as (e0&q&[He0|[[]%not_elem_of_nil _]]&?).
      exists e0, q. split; [by left|done].
  - apply pass_data.
  - apply pass_new.
  - apply pass_pages.
  - destruct Hal as ((?&_)&_). pose proof (ca_count _ _ _ _ Hat). lia.
  - destruct Hal as (_&_&_&_&_&_&_&Hsame&_). destruct (Hsame eq_refl) as [En Eh].
    eapply tidy_trans; [apply Hat|]. eapply tidy_trans; [by apply tidy_same|].
    eapply tidy_mono; [|exact Htd]. intros x [Hx|Hx].
    + left. by apply (ca_free _ _ _ _ Hat), pass_free.
    + right. subst e. offsets.
  - intros _. rewrite <- Hsz. do 2 f_equal. subst e. lia.
Qed.
End push_pass.

Context (Hcopy : ∀ t n, uncopied t n = 0) (Hi : w_inodes w0 !! h = Some i).
Context (Hpos : 0 ≤ pos) (Hlen : 1 ≤ len) (Hmax : pos + len < 2 ^ 63).
Context (Hbytes : ∀ b, b ∈ buf → 0 ≤ b < 256) (Hdev : num_blocks (w_sbi w0) < 2 ^ 31).
Context (Hroom : log_room tail R).

Lemma room_small : R ≤ 101.
Proof.
  destruct Hroom as (_&_&Hr). pose proof (Z.mod_pos_bound tail 4096 ltac:(lia)).
  unfold LAST_ENTRY in Hr. lia.
Qed.

(** Stores to free blocks do not change the abstract file. *)
Lemma free_private w w1 es b a :
  file_inv (w_sbi w) (vis (w_nvmm w)) pi t es →
  (∀ x, b ≤ x < b + a → block_free (w_sbi w) x) → w_nvmm w1 = w_nvmm w →
  private w1 t (b * 4096) a.
Proof.
  intros Hinv Hfree Em m' Hm'. rewrite Em in *.
  assert (∀ x, meta (vis (w_nvmm w)) pi t es x ∨ data (vis (w_nvmm w)) t es x →
    ld8 m' x = ld8 (vis (w_nvmm w)) x) as Hk.
  { intros x Hx. apply Hm'. rewrite <- Z.mul_add_distr_r, in_blocks. intros Hb%Hfree.
    destruct (free_not_held _ _ _ _ _ Hinv x Hb). tauto. }
  assert (∀ e q x, slot (vis (w_nvmm w)) t es e q → e ≤ x < e + nova_file_write_entry.sizeof →
    ld8 m' x = ld8 (vis (w_nvmm w)) x) as Hke.
  { intros e q x Hs Hx. apply Hk. left. by eapply meta_entry. }
  split.
  - eapply inv_tree_ok, (inv_frame _ _ _ _ _ Hinv m' Hke); [|done|auto].
    apply ld_frame. intros x Hx. apply Hk. left. apply meta_inode. offsets.
  - intros y. apply file_byte_frame.
    + intros e q He. apply (frame_fields _ _ _ _ Hke e q). by left.
    + intros x (e&q&[He|[[]%not_elem_of_nil _]]&Hx). apply Hk. right.
      exists e, q. split; [by left|done].
Qed.

(** An entry goes to the next free place of the log page. *)
Lemma append_write_entry_run w data n :
  0 ≤ n < R →
  nova_append_file_write_entry pi h data (tail + 40 * n) w =
  Done (tail + 40 * n, set_nvmm (nvmm_write WrittenBack (WBytes (tail + 40 * n) data) (w_nvmm w)) w).
Proof.
  intros Hn. unfold nova_append_file_write_entry, nova_get_append_head.
  pose proof (room_fits _ _ _ Hroom Hn) as Hfit. destruct Hroom as (?&?&_).
  rewrite bind_assoc, (bind_run _ _ _ _ _ (append_head_fits w _ pi (tail + 40 * n) _
    ltac:(lia) Hfit)). run. cbn [fst].
  rewrite decide_False by lia. rewrite bind_block_ptr by lia. by run.
Qed.

Lemma local_facts c n g :
  cow_local c n g → c_written c < len →
  let P := pos + c_written c in let count := len - c_written c in
  0 ≤ c_written c ∧ c_pos c = P ∧ c_count c = count ∧ P / 4096 = g ∧
  c_num_blocks c = blocks_of P count ∧ 1 ≤ blocks_of P count ≤ N ∧ pos / 4096 ≤ g ∧
  g + blocks_of P count = pos / 4096 + N ∧ (c_written c = 0 ∨ P mod 4096 = 0).
Proof.
  intros (Hk0&Hp&Hbuf&Hc&Hnb&_&_&Hg) Hk P count.
  destruct Hg as [[? _]|(_&Hg&Hoff)]; [lia|]. fold P in Hg, Hoff.
  pose proof (blocks_of_end pos len) as HeN. pose proof (blocks_of_end P count).
  replace (P + count - 1) with (pos + len - 1) in * by lia.
  pose proof (Z.div_le_mono pos P 4096 ltac:(lia) ltac:(lia)).
  destruct (blocks_of_spec P count) as (?&_); [lia|lia|]. fold N in HeN. lia.
Qed.

Lemma local_page c n g : cow_local c n g → c_written c < len → 0 ≤ g < 2 ^ 51.
Proof.
  intros Hloc Hk. destruct (local_facts _ _ _ Hloc Hk) as (Hk0&_&_&<-&_).
  split; [apply Z.div_pos; lia|apply Z.div_lt_upper_bound; lia].
Qed.

(** What a pass has written is what the file shall contain. *)
Lemma pass_is_new w c es g a y :
  cow_at w c es g → c_written c < len → 1 ≤ a ≤ c_num_blocks c →
  let P := pos + c_written c in let n := pass_len P (len - c_written c) a in
  g * 4096 ≤ y < (g + a) * 4096 →
  pass_bytes t (vis (w_nvmm w)) P n (c_buf c) y = pass_bytes t m0 pos len buf y.
Proof.
  intros Hat Hk Ha P n Hy. pose proof room_small. pose proof (ca_local _ _ _ _ Hat) as Hloc.
  destruct (local_facts _ _ _ Hloc Hk) as (Hk0&_&_&Hg&Enb&Hb&_&_&Hoff). fold P in Hg, Enb, Hb, Hoff.
  destruct (pass_len_spec P (len - c_written c) a) as (Hn&_&Hend); [lia..|]. fold n in Hn, Hend.
  pose proof (Z.div_mod P 4096 ltac:(lia)). pose proof (Z.mod_pos_bound P 4096 ltac:(lia)).
  unfold pass_bytes. destruct (decide (P ≤ y < P + n)) as [Hin|Hin].
  - rewrite decide_True by lia. destruct Hloc as (_&_&->&_). rewrite lookup_total_drop. f_equal. lia.
  - rewrite decide_False by lia. apply (ca_byte _ _ _ _ Hat).
Qed.

Lemma local_next c n g a b :
  cow_local c n g → c_written c < len → 1 ≤ a ≤ c_num_blocks c → 0 ≤ n < N →
  let P := pos + c_written c in let l := pass_len P (len - c_written c) a in
  cow_local (Cow (c_pos c + l) (drop (Z.to_nat l) (c_buf c)) (c_count c - l)
    (u64 (c_num_blocks c - a)) (c_written c + l) (u64 (tail + 40 * n + nova_file_write_entry.sizeof))
    (if decide (c_begin_tail c = 0) then tail + 40 * n else c_begin_tail c) b a) (n + 1) (g + a).
Proof.
  intros Hloc Hk Ha Hn P l. pose proof room_small.
  destruct (local_facts _ _ _ Hloc Hk) as (Hk0&Ep&Ec&Hg&Enb&Hb&Hg0&Hge&Hoff).
  fold P in Ep, Hg, Enb, Hb, Hge, Hoff.
  destruct (pass_len_spec P (len - c_written c) a) as (Hl&_&Hend); [lia..|]. fold l in Hl, Hend.
  destruct Hloc as (_&_&Ebuf&_&_&_&Ebt&_). destruct Hroom as (Ht&Htop&_).
  unfold cow_local. cbn. rewrite Ep, Ec, Ebuf, Ebt, drop_drop, !wrap_small by (offsets || lia).
  split_and!; try lia.
  - f_equal. lia.
  - offsets.
  - rewrite (decide_False (P := n + 1 = 0)) by lia. destruct (decide (n = 0)) as [->|].
    + rewrite decide_True by done. lia.
    + by rewrite decide_False by lia.
  - destruct Hend as [[-> ->]|[? He]]; [left; lia|right]. split; [lia|].
    rewrite Z.add_assoc. fold P. rewrite He, Hg, Z.div_mul, Z.mod_mul by lia. auto.
Qed.

Lemma passed_intro w c es g a b m3 time pad size :
  cow_at w c es g → c_written c < len → 1 ≤ a ≤ c_num_blocks c → 0 ≤ b → b + a < 2 ^ 44 →
  (∀ x, b ≤ x < b + a → block_free (w_sbi w) x) →
  let P := pos + c_written c in let n := pass_len P (len - c_written c) a in
  let e := tail + 40 * Z.of_nat (length es) in
  (∀ x, ld8 m3 x = if decide (b * 4096 ≤ x < b * 4096 + a * 4096)
     then pass_bytes t (vis (w_nvmm w)) P n (c_buf c) (P / 4096 * 4096 + (x - b * 4096))
     else ld8 (vis (w_nvmm w)) x) →
  passed (vis (w_nvmm w)) (st_bytes m3 e (encode_write_entry (b * 4096) g a 0 time pad size))
    e b a g.
Proof.
  intros Hat Hk Ha Hb0 Hb Hfree P n e Hm3. pose proof room_small. pose proof (ca_local _ _ _ _ Hat) as Hloc.
  destruct (local_facts _ _ _ Hloc Hk) as (Hk0&_&_&Hg&Enb&Hnb&Hg0&Hge&_).
  fold P in Hg, Enb, Hnb, Hge. pose proof (ca_count _ _ _ _ Hat) as Hcnt.
  pose proof (local_page _ _ _ Hloc Hk).
  destruct (read_write_entry m3 e b g a 0 time pad size) as (?&?&?&?&?&_); [lia..|].
  split; try done.
  - intros x Hx He. rewrite ld8_st_bytes_out by (rewrite length_write_entry; offsets).
    rewrite Hm3, decide_False; [done|]. by rewrite <- Z.mul_add_distr_r, in_blocks.
  - intros y Hy. assert (b ≤ (b * 4096 + (y - g * 4096)) / 4096 < b + a) as Hin
      by (apply in_blocks; lia).
    rewrite ld8_st_bytes_out.
    + rewrite Hm3, decide_True by lia.
      replace (P / 4096 * 4096 + (b * 4096 + (y - g * 4096) - b * 4096)) with y by lia.
      by apply pass_is_new with (es := es) (g := g).
    + rewrite length_write_entry. pose proof (Hfree _ Hin) as Hf.
      destruct (decide (e ≤ b * 4096 + (y - g * 4096) < e + 40)) as [Hx|Hx]; [|lia].
      destruct (ca_spare _ _ _ _ Hat (b * 4096 + (y - g * 4096))) as (_&Hn&_); [|done].
      subst e. lia.
Qed.

Lemma cow_step_allocated w c es g time a b w1 :
  cow_at w c es g → c_written c < len →
  nova_new_blocks (c_num_blocks c) NOVA_BLOCK_TYPE_4K false DATA w = Done ((a, Some b), w1) →
  1 ≤ a ≤ c_num_blocks c → blocks_allocated w w1 b a false →
  ∃ c' w' e, cow_step pi h time c w = Done ((inr true, c'), w') ∧
    cow_at w' c' (es ++ [e]) (g + a).
Proof.
  intros Hat Hk Hrun Ha Hal. pose proof room_small. pose proof (ca_local _ _ _ _ Hat) as Hloc.
  destruct (local_facts _ _ _ Hloc Hk) as (Hk0&Ep&Ec&Hg&Enb&Hnb&Hg0&Hge&Hoff).
  pose proof Hloc as (_&_&Ebuf&_&_&Ett&_). pose proof (ca_inv _ _ _ _ Hat) as Hinv.
  pose proof (ca_count _ _ _ _ Hat) as Hcnt. destruct (ca_geo _ _ _ _ Hat) as (_&_&En&_).
  set (P := pos + c_written c) in *. set (count := len - c_written c) in *.
  destruct (pass_len_spec P count a) as (Hn&En'&_); [lia..|].
  pose proof Hal as ((Ha1&Hlo&Hhi)&Hok1&Hfree&_&_&_&(_&_&Hin)&Hnv&_).
  destruct (Hnv eq_refl) as [Env _].
  assert (0 < b) by (pose proof (geo_reserved _ (bo_geometry _ (ca_balloc _ _ _ _ Hat))); lia).
  assert (∀ x, b ≤ x < b + a → block_free (w_sbi w) x) as Hfree' by (intros; apply Hfree; lia).
  unfold cow_step. run. rewrite (fi_type _ _ _ _ _ Hinv).
  change (blk_type_to_size NOVA_BLOCK_TYPE_4K - 1) with 4095.
  rewrite Ep, land_page, shiftr_page, Hg, (wrap_small 32) by lia. unfold nova_new_data_blocks.
  rewrite (bind_run _ _ _ _ _ Hrun), decide_False by lia.
  cbn [default]. unfold id. rewrite Ec. fold (pass_len P count a). set (n := pass_len P count a) in *.
  rewrite block_off_small, bind_block_ptr by lia. change (PAGE_SIZE - 1) with 4095.
  destruct (pass_run w1 h i pi P n (b * 4096) (c_buf c)) as (w3&Hrun3&Hst&Htd&Hm3); try done; try lia.
  { by rewrite Hin, (ca_inodes _ _ _ _ Hat). }
  { rewrite En'. by apply (free_private w w1 es). }
  { by rewrite Env, (fi_type _ _ _ _ _ Hinv). }
  { rewrite Ebuf, length_drop. lia. }
  { intros x Hx. apply Hbytes. rewrite Ebuf in Hx. apply list_elem_of_lookup in Hx as [j Hj].
    rewrite lookup_drop in Hj. by eapply list_elem_of_lookup_2. }
  rewrite Hrun3. clear Hrun3. rewrite Z.sub_0_r.
  assert (w_inodes w3 !! h = Some i) as Hi3.
  { destruct Hst as (_&_&->). by rewrite Hin, (ca_inodes _ _ _ _ Hat). }
  rewrite (bind_get_vfs _ _ _ _ Hi3). unfold ask at 1. unfold mbind at 1, M_bind at 1.
  rewrite Ett, (bind_run _ _ _ _ _ (append_write_entry_run _ _ (Z.of_nat (length es)) ltac:(lia))).
  destruct Hroom as (?&?&_). rewrite decide_False, (decide_False (P := n ≠ n)), !(decide_True (P := 0 < n)) by lia.
  run. eexists _, _, (tail + 40 * Z.of_nat (length es)). split; [reflexivity|].
  eapply (pass_at w w1); try done; try lia.
  - apply (passed_intro w c es g a b (vis (w_nvmm w3))); try done; try lia.
    intros x. rewrite Hm3, Env. fold P count n. by rewrite En'.
  - rewrite En' in Htd. eapply tidy_trans.
    + eapply tidy_mono; [|exact Htd]. cbn. intros x Hx. left. apply in_blocks. lia.
    + apply (tidy_trans _ w3 (next_tick w3)); [by apply tidy_same|]. apply tidy_nt.
      intros x Hx. unfold write_touches in Hx. rewrite length_write_entry in Hx. right. offsets.
  - pose proof (blocks_of_end pos len) as HeN. fold N in HeN.
    assert ((pos + len - 1) / 4096 < 2 ^ 51); [|lia]. apply Z.div_lt_upper_bound; lia.
  - pose proof (local_next c (Z.of_nat (length es)) g a b Hloc Hk Ha ltac:(lia)) as Hl.
    rewrite Ep, Ec in Hl. exact Hl.
  - destruct Hst as (Es&El&_). by apply (balloc_ok_same w1).
  - pose proof (local_page _ _ _ Hloc Hk). apply appended_size; cbn [c_pos]; lia.
Qed.

Lemma cow_step_run w c es g time :
  cow_at w c es g → c_written c < len →
  (∃ c', cow_step pi h time c w = Done ((inl (- ENOSPC), c'), next_tick w)) ∨
  (∃ c' w' es' g', cow_step pi h time c w = Done ((inr true, c'), w') ∧
     g < g' ∧ cow_at w' c' es' g').
Proof.
  intros Hat Hk. pose proof room_small. pose proof (ca_local _ _ _ _ Hat) as Hloc.
  destruct (local_facts _ _ _ Hloc Hk) as (_&_&_&_&Enb&Hnb&_&_&_).
  destruct (ca_geo _ _ _ _ Hat) as (_&_&En&_).
  destruct (new_blocks_4K_run w (c_num_blocks c) false DATA (ca_balloc _ _ _ _ Hat))
    as [[Hrun _]|(a&b&w1&Hrun&Ha&Hal)]; [lia|lia| |].
  - left. unfold cow_step. run. rewrite (fi_type _ _ _ _ _ (ca_inv _ _ _ _ Hat)).
    rewrite (wrap_small 32) by lia. unfold nova_new_data_blocks.
    rewrite (bind_run _ _ _ _ _ Hrun), decide_True by (unfold ENOSPC; lia). by eexists.
  - right. destruct (cow_step_allocated w c es g time a b w1) as (c'&w'&e&Hstep&Hat'); try done.
    exists c', w', (es ++ [e]), (g + a). split; [done|]. split; [lia|done].
Qed.

Lemma cow_loop_run time fuel : ∀ w c es g,
  cow_at w c es g → pos / 4096 + N - g < Z.of_nat fuel →
  (∃ c1 c' w' es' g', cow_loop fuel pi h time c w = Done ((inl (- ENOSPC), c1), next_tick w') ∧
     cow_at w' c' es' g') ∨
  (∃ c' w' es', cow_loop fuel pi h time c w = Done ((inr (), c'), w') ∧
     c_written c' = len ∧ cow_at w' c' es' (pos / 4096 + N)).
Proof.
  induction fuel as [|fuel IH]; intros w c es g Hat Hfuel.
  { destruct (ca_local _ _ _ _ Hat) as (_&_&_&_&_&_&_&[[_ ->]|(?&Hg&_)]); [lia|].
    pose proof (blocks_of_end pos len) as HeN. fold N in HeN.
    assert (g ≤ (pos + len - 1) / 4096) by (rewrite <- Hg; apply Z.div_le_mono; lia). lia. }
  cbn [cow_loop]. destruct (decide (c_written c = len)) as [Hdone|Hk].
  - right. pose proof (ca_local _ _ _ _ Hat) as (_&_&_&_&Hnb&_&_&[[_ Hg]|(?&_)]); [|lia].
    rewrite decide_True by lia. exists c, w, es. split; [done|]. split; [done|]. by rewrite <- Hg.
  - assert (c_written c < len) as Hlt by (destruct (ca_local _ _ _ _ Hat) as (?&_); lia).
    destruct (local_facts _ _ _ (ca_local _ _ _ _ Hat) Hlt) as (_&_&_&_&Enb&Hnb&_).
    rewrite decide_False by lia.
    destruct (cow_step_run w c es g time Hat Hlt) as [[c' Hs]|(c'&w'&es'&g'&Hs&Hg&Hat')];
      rewrite (bind_run _ _ _ _ _ Hs).
    + left. exists c', c, w, es, g. done.
    + apply (IH w' c' es' g' Hat'). lia.
Qed.
End cow.

(** ** Pointing the pages to the new entries *)

(** Besides the counts of invalid pages and the block count of the inode
    nothing changes. *)
Definition counts (m : mem) (pi : Z) (t : gmap Z Z) (es : list Z) (x : Z) : Prop :=
  pi + nova_inode.i_blocks ≤ x < pi + nova_inode.i_blocks + 8 ∨
  ∃ e q, slot m t es e q ∧ e + nova_file_write_entry.invalid_pages ≤ x <
    e + nova_file_write_entry.invalid_pages + 4.
(** Stores to them; an entry that keeps a page in [t'] is never given a count
    of all its pages. *)
Definition counting (m : mem) (pi : Z) (t : gmap Z Z) (es : list Z) (t' : gmap Z Z)
    (x : write) : Prop :=
  within (λ a, pi + nova_inode.i_blocks ≤ a < pi + nova_inode.i_blocks + 8) x ∨
  ∃ e q v, slot m t es e q ∧ x = WBytes (e + nova_file_write_entry.invalid_pages) (le_split 4 v) ∧
    ∀ p, t' !! p = Some e → 0 ≤ v < we_num m e.
Definition kept (m : mem) (pi : Z) (t : gmap Z Z) (es : list Z) (m' : mem) : Prop :=
  ∀ x, ¬ counts m pi t es x → ld8 m' x = ld8 m x.

Section reassign.
Context `{RbTreeLaws} `{EnvLaws} (Hradix : ∀ t, radix_node_alloc t = true) (h pi : Z).

(** What pointing to the entries [es] leaves. *)
Record reassigned (w : world) (i : nova_inode_info) (es : list Z) (w' : world)
    (i' : nova_inode_info) : Prop := {
  ra_inodes : w_inodes w' = <[h := i']> (w_inodes w);
  ra_vfs : vfs i' = vfs i;
  ra_header : header i' =
    sih_set_tree (foldl (point (vis (w_nvmm w))) (tree (header i)) es) (header i);
  ra_balloc : balloc_ok w';
  ra_geo : same_geometry (w_sbi w) (w_sbi w');
  ra_inv : file_inv (w_sbi w') (vis (w_nvmm w')) pi (tree (header i')) [];
  ra_kept : kept (vis (w_nvmm w)) pi (tree (header i)) es (vis (w_nvmm w'));
  ra_spare lo hi : spare (w_sbi w) (vis (w_nvmm w)) pi (tree (header i)) es lo hi →
    spare (w_sbi w') (vis (w_nvmm w')) pi (tree (header i')) [] lo hi;
  ra_free b : block_free (w_sbi w') b →
    block_free (w_sbi w) b ∨ data (vis (w_nvmm w)) (tree (header i)) es (b * 4096);
  ra_traces : traces (counting (vis (w_nvmm w)) pi (tree (header i)) es (tree (header i'))) w w'
}.

Lemma entries_cons start e es :
  e :: es = (λ j, start + 40 * j) <$> seqZ 0 (Z.of_nat (length (e :: es))) →
  e = start ∧ es = (λ j, start + 40 + 40 * j) <$> seqZ 0 (Z.of_nat (length es)).
Proof.
  cbn [length]. rewrite seqZ_cons by lia. rewrite fmap_cons. intros [= -> Hes]. split; [lia|].
  rewrite Hes at 1. replace (Z.pred (Z.of_nat (S (length es)))) with (Z.of_nat (length es)) by lia.
  apply fmap_seqZ_ext. intros j Hj. lia.
Qed.

Lemma foldl_point_ext m m' es : ∀ t,
  (∀ e, e ∈ es → same_fields m m' e) → foldl (point m') t es = foldl (point m) t es.
Proof.
  induction es as [|e es IH]; intros t Hf; [done|]. cbn [foldl].
  rewrite IH by (intros; apply Hf; by right). f_equal. unfold point.
  by destruct (Hf e ltac:(left)) as (_&->&->).
Qed.

(** The fields of the entries, the fields of the inode other than the block
    count, and the data of the file are not counts. *)
Lemma counts_fields s m pi' t es e q x :
  file_inv s m pi' t es → slot m t es e q → e ≤ x < e + 20 → ¬ counts m pi' t es x.
Proof.
  intros Hinv Hs Hx [Hx1|(e1&q1&Hs1&Hx1)].
  - destruct (fi_inode _ _ _ _ _ Hinv e q Hs); offsets.
  - destruct (fi_apart _ _ _ _ _ Hinv e q e1 q1 Hs Hs1) as [->|[|]]; offsets.
Qed.

Lemma counts_inode s m pi' t es x :
  file_inv s m pi' t es → pi' ≤ x < pi' + nova_inode.sizeof →
  ¬ pi' + nova_inode.i_blocks ≤ x < pi' + nova_inode.i_blocks + 8 → ¬ counts m pi' t es x.
Proof.
  intros Hinv Hx Hb [Hx1|(e1&q1&Hs1&Hx1)]; [done|].
  destruct (fi_inode _ _ _ _ _ Hinv e1 q1 Hs1); offsets.
Qed.

Lemma counts_data s m pi' t es x :
  file_inv s m pi' t es → data m t es x → ¬ counts m pi' t es x.
Proof.
  intros Hinv Hd [Hx|(e&q&Hs&Hx)].
  - destruct (fi_meta _ _ _ _ _ Hinv x) as [_ ?]; [left; offsets|done].
  - destruct (fi_meta _ _ _ _ _ Hinv x) as [_ ?]; [|done]. eapply meta_entry; [done|offsets].
Qed.

Lemma kept_fields s m pi' t es m' e q :
  file_inv s m pi' t es → kept m pi' t es m' → slot m t es e q → same_fields m m' e.
Proof.
  intros Hinv Hk Hs. apply same_fields_frame. intros x Hx. by eapply Hk, counts_fields.
Qed.

Lemma kept_inode s m pi' t es m' off n :
  file_inv s m pi' t es → kept m pi' t es m' → 0 ≤ off → off + Z.of_nat n ≤ nova_inode.sizeof →
  off + Z.of_nat n ≤ nova_inode.i_blocks ∨ nova_inode.i_blocks + 8 ≤ off →
  ld n m' (pi' + off) = ld n m (pi' + off).
Proof.
  intros Hinv Hk Ho Hn Hd. apply ld_frame. intros x Hx. eapply Hk, counts_inode; [done|offsets..].
Qed.

Lemma counting_counts m pi' t es t' x a :
  counting m pi' t es t' x → write_touches x a → counts m pi' t es a.
Proof.
  intros [Hx|(e&q&v&Hs&->&_)] Ha; [left; by apply Hx|right]. exists e, q. split; [done|].
  cbn in Ha. by rewrite length_le_split in Ha.
Qed.

Lemma touched_counts m pi' t es x : touched pi' t x → counts m pi' t es x.
Proof.
  intros [?|(p&e'&He'&Hx)]; [by left|right]. exists e', p. split; [by left|done].
Qed.

Lemma assigned_kept e es w i w' i' :
  let m := vis (w_nvmm w) in let t := tree (header i) in
  assigned pi h e m t (seqZ (we_pgoff m e) (we_num m e)) w i w' i' →
  kept m pi t (e :: es) (vis (w_nvmm w')).
Proof.
  intros m t Has x Hx. apply (as_mem _ _ _ _ _ _ _ _ _ _ Has). by intros ?%(touched_counts m _ _ (e :: es)).
Qed.

Lemma reassigned_cons e es w i w1 i1 w2 i2 :
  let m := vis (w_nvmm w) in let t := tree (header i) in
  file_inv (w_sbi w) m pi t (e :: es) →
  assigned pi h e m t (seqZ (we_pgoff m e) (we_num m e)) w i w1 i1 →
  reassigned w1 i1 es w2 i2 → reassigned w i (e :: es) w2 i2.
Proof.
  intros m t Hinv Has [Ri Rv Rh Rb Rg Rn Rk Rs Rf Rt].
  pose proof (assigned_kept e es w i w1 i1 Has) as Hk.
  assert (∀ p, tree (header i1) !! p = if decide (p ∈ seqZ (we_pgoff m e) (we_num m e))
    then Some e else t !! p) as Ht1 by apply Has.
  assert (∀ e0 q, slot m t (e :: es) e0 q → same_fields m (vis (w_nvmm w1)) e0) as Hf.
  { intros e0 q. by apply (kept_fields _ _ _ _ _ _ e0 q Hinv). }
  assert (∀ e0 q, slot (vis (w_nvmm w1)) (tree (header i1)) es e0 q → slot m t (e :: es) e0 q) as Hsl.
  { apply (point_slot _ _ _ _ _ _ Hinv _ _ Ht1), Has. }
  assert (∀ x, counts (vis (w_nvmm w1)) pi (tree (header i1)) es x →
    counts m pi t (e :: es) x) as Hc.
  { intros x [?|(e0&q&Hs&Hx)]; [by left|right]. exists e0, q. split; [by apply Hsl|done]. }
  destruct Has as [Ai Av [t1 Ah] At [Ok1 Geo1 _ Rel1 _] Am Ainv Atr]. split; try done.
  - by rewrite Ri, Ai, insert_insert_eq.
  - by rewrite Rv, Av.
  - rewrite Rh, Ah. cbn [foldl]. unfold sih_set_tree at 1. cbn. fold m t. unfold sih_set_tree.
    f_equal. rewrite (foldl_point_ext m).
    + f_equal. rewrite Ah in Ht1. apply map_eq. intros p. by rewrite lookup_point, <- Ht1.
    + intros e0 He0. apply (Hf e0 (we_pgoff m e0)).
      apply (fresh_slot _ _ _ _ _ Hinv). by right.
  - destruct Geo1 as (?&?&?&?), Rg as (?&?&?&?). repeat split; congruence.
  - intros x Hx. rewrite Rk; [by apply Hk|]. by intros ?%Hc.
  - intros lo hi Hsp. apply Rs. by apply (spare_point _ _ _ _ _ _ Hinv _ _ _ Ht1 Am Rel1).
  - intros b [Hb|Hb]%Rf.
    + destruct (Rel1 b Hb) as [?|(p&e0&_&He0&->)%elem_old_blocks]; [by left|right].
      exists e0, p. split; [by left|]. by rewrite Z.div_mul.
    + right. by apply (point_data _ _ _ _ _ _ Hinv _ _ Ht1 Am).
  - eapply traces_trans; (eapply traces_mono; [|done]).
    + intros x [?|(p&e0&v&He0&->&j&Hj&->)]; [by left|right]. eexists e0, p, _. split; [by left|].
      split; [done|]. intros p2 Hp2. rewrite Rh in Hp2. cbn in Hp2.
      fold m t in Hj |- *. rewrite (fi_dead _ _ _ _ _ Hinv e0 p He0).
      destruct (lookup_points (vis (w_nvmm w1)) es (tree (header i1)) p2)
        as [(e1&He1&_&Hl)|[_ Hl]]; rewrite Hl in Hp2.
      { injection Hp2 as ->. by destruct (fresh_not_in _ _ _ _ _ Hinv e0 p ltac:(by right)). }
      pose proof (point_count_lt _ _ _ _ _ _ Hinv _ _ Ht1 Am e0 p p2 He0 Hp2).
      assert (0 ≤ dead m t e0) by (unfold dead; lia).
      pose proof (ld_range 4 m (e0 + nova_file_write_entry.num_pages)).
      fold (we_num m e0) in *. rewrite wrap_small by lia. lia.
    + intros x [?|(e0&q&v&Hs&->&Hv)]; [by left|right]. eexists e0, q, _. apply Hsl in Hs.
      split; [done|]. split; [done|].
      destruct (Hf e0 q Hs) as (_&_&En). intros p2 Hp2. fold m. rewrite <- En. by apply (Hv p2).
Qed.

Lemma reassigned_nil w i :
  w_inodes w !! h = Some i → balloc_ok w →
  file_inv (w_sbi w) (vis (w_nvmm w)) pi (tree (header i)) [] → reassigned w i [] w i.
Proof.
  intros Hi Hok Hinv. split; try done; [by rewrite insert_id| |by left|by apply traces_same].
  cbn. by destruct i as [[] ?].
Qed.

Lemma reassign_run es : ∀ fuel w i start,
  let n := Z.of_nat (length es) in
  w_inodes w !! h = Some i → balloc_ok w →
  file_inv (w_sbi w) (vis (w_nvmm w)) pi (tree (header i)) es →
  es = (λ j, start + 40 * j) <$> seqZ 0 n → log_room start n →
  ld 8 (vis (w_nvmm w)) (pi + nova_inode.log_tail) = start + 40 * n → (length es < fuel)%nat →
  ∃ w' i', reassign_loop fuel pi h start w = Done (0, w') ∧ reassigned w i es w' i'.
Proof.
  induction es as [|e es IH]; intros [|fuel] w i start n Hi Hok Hinv Hes Hroom Htl Hfuel; try lia.
  { exists w, i. split; [|by apply reassigned_nil]. cbn [reassign_loop]. run.
    rewrite Htl, decide_True; [done|subst n; cbn; lia]. }
  apply entries_cons in Hes as [-> Hes]. subst n. cbn [length] in *.
  pose proof (room_fits _ _ 0 Hroom ltac:(lia)) as Hfit. rewrite Z.mul_0_r, Z.add_0_r in Hfit.
  pose proof (room_next start 1 _ Hroom ltac:(lia)) as Hroom1. destruct Hroom as (Hs0&Hs1&_).
  pose proof (fresh_slot _ _ _ _ _ Hinv start ltac:(left)) as Hslot.
  destruct (fi_fresh _ _ _ _ _ Hinv start ltac:(left)) as (_&_&Hty&_).
  destruct (assign_entry_run w h i pi start) as (r&w1&i1&Hrun&_&Has); try done.
  { by eapply inv_tree_ok. }
  { by eapply inv_apart. }
  { by apply (fi_type _ _ _ _ _ Hinv). }
  { by apply (fi_small _ _ _ _ _ Hinv start _ Hslot). }
  { eapply old_blocks_nodup; [done|]. apply NoDup_seqZ. }
  { by eapply old_blocks_use. }
  pose proof (assigned_kept start es w i w1 i1 Has) as Hk.
  destruct (IH fuel w1 i1 (start + 40)) as (w'&i'&Hrun'&Hre).
  - by rewrite (as_inodes _ _ _ _ _ _ _ _ _ _ Has), lookup_insert_eq.
  - apply Has.
  - eapply (inv_point _ _ _ _ _ _ Hinv); apply Has.
  - done.
  - by replace (Z.of_nat (S (length es)) - 1) with (Z.of_nat (length es)) in Hroom1 by lia.
  - rewrite (kept_inode _ _ _ _ _ _ nova_inode.log_tail 8 Hinv Hk) by offsets. rewrite Htl. lia.
  - lia.
  - exists w', i'. split; [|by eapply reassigned_cons].
    cbn [reassign_loop]. run. rewrite Htl, decide_False by lia. rewrite Hfit. run.
    rewrite decide_False by lia. rewrite bind_block_ptr by lia. run. rewrite Hty, decide_False by auto.
    rewrite bind_assoc, (bind_run _ _ _ _ _ Hrun). run.
    rewrite wrap_small by offsets. exact Hrun'.
Qed.
End reassign.

Lemma kept_data s m pi t es m' x :
  file_inv s m pi t es → kept m pi t es m' → data m t es x → ld8 m' x = ld8 m x.
Proof. intros Hinv Hk Hd. by eapply Hk, counts_data. Qed.

(** Stores to the inode that keep its type. *)
Lemma inode_stores s m pi t es m' :
  file_inv s m pi t es →
  (∀ x, ¬ pi ≤ x < pi + nova_inode.sizeof → ld8 m' x = ld8 m x) →
  ld 1 m' (pi + nova_inode.i_blk_type) = ld 1 m (pi + nova_inode.i_blk_type) →
  file_inv s m' pi t es ∧ (∀ e q, slot m t es e q → same_fields m m' e) ∧
  (∀ x, data m t es x → ld8 m' x = ld8 m x) ∧
  (∀ lo hi, spare s m pi t es lo hi → spare s m' pi t es lo hi).
Proof.
  intros Hinv Hm Hty.
  assert (∀ e q x, slot m t es e q → e ≤ x < e + nova_file_write_entry.sizeof →
    ld8 m' x = ld8 m x) as Hke.
  { intros e q x Hs Hx. apply Hm. destruct (fi_inode _ _ _ _ _ Hinv e q Hs); offsets. }
  split_and!.
  - by apply (inv_frame _ _ _ _ _ Hinv m' Hke Hty s).
  - apply (frame_fields _ _ _ _ Hke).
  - intros x Hd. apply Hm. intros Hx. by destruct (fi_meta _ _ _ _ _ Hinv x (or_introl Hx)).
  - intros lo hi. apply (spare_frame _ _ _ _ _ Hinv m' Hke). auto.
Qed.

Section write.
Context `{RbTreeLaws} `{EnvLaws} `{Uaccess}.
Context (Hradix : ∀ t, radix_node_alloc t = true).
Context (w0 : world) (h pi pos tail : Z) (i : nova_inode_info) (buf : list Z).
Let m0 : mem := vis (w_nvmm w0).
Let t : gmap Z Z := tree (header i).
Let len : Z := Z.of_nat (length buf).
Let N : Z := blocks_of pos len.
Context (R : Z) (HR : N ≤ R) (Hi : w_inodes w0 !! h = Some i).
Context (Hpos : 0 ≤ pos) (Hlen : 1 ≤ len) (Hmax : pos + len < 2 ^ 63).
Context (Hroom : log_room tail R) (Hpi : 0 < pi < 2 ^ 56).

(** The stores of a commit: the block count and the tail of the inode. *)
Definition commit_world (n new : Z) (w : world) : world :=
  let w1 := set_nvmm (nvmm_write Cached (WBytes (pi + nova_inode.i_blocks) (le_split 8 n))
                        (w_nvmm w)) w in
  let w2 := set_nvmm (PERSISTENT_BARRIER (w_nvmm w1)) w1 in
  let w3 := set_nvmm (nvmm_write Cached (WBytes (pi + nova_inode.log_tail) (le_split 8 new))
                        (w_nvmm w2)) w2 in
  set_nvmm (nova_flush_buffer (pi + nova_inode.log_tail) CACHELINE_SIZE true (w_nvmm w3)) w3.

Lemma commit_stores w es n new :
  file_inv (w_sbi w) (vis (w_nvmm w)) pi t es → 0 ≤ new < 2 ^ 64 →
  let w' := commit_world n new w in
    (∀ B (k : M B),
      (store 8 (pi + nova_inode.i_blocks) n ;; nova_update_tail pi new ;; k) w = k w') ∧
    only_stores w w' ∧ ld 8 (vis (w_nvmm w')) (pi + nova_inode.log_tail) = new ∧
    (∀ x, ¬ pi ≤ x < pi + nova_inode.sizeof →
       ld8 (vis (w_nvmm w')) x = ld8 (vis (w_nvmm w)) x) ∧
    ld 1 (vis (w_nvmm w')) (pi + nova_inode.i_blk_type) =
    ld 1 (vis (w_nvmm w)) (pi + nova_inode.i_blk_type).
Proof.
  intros Hinv Hnew w'. split.
  { intros B k. unfold nova_update_tail. run. reflexivity. }
  split; [done|]. unfold w', commit_world. cbn [w_nvmm set_nvmm]. rewrite vis_flush. cbn.
  split; [rewrite ld_st; apply Z.mod_small; lia|].
  assert (∀ x, ¬ pi + 32 ≤ x < pi + 40 → ¬ pi + 80 ≤ x < pi + 88 →
    ld8 (st_bytes (st_bytes (vis (w_nvmm w)) (pi + nova_inode.i_blocks) (le_split 8 n))
           (pi + nova_inode.log_tail) (le_split 8 new)) x = ld8 (vis (w_nvmm w)) x) as Hx.
  { intros x Hx1 Hx2. rewrite !ld8_st_bytes_out; [done|..]; rewrite length_le_split; offsets. }
  split.
  - intros x Hn. apply Hx; offsets.
  - apply ld_frame. intros x Hn. apply Hx; offsets.
Qed.

(** What a write leaves, with [n] entries appended and size [size]. *)
Record written (w' : world) (i' : nova_inode_info) (n size : Z) : Prop := {
  wr_inodes : w_inodes w' = <[h := i']> (w_inodes w0);
  wr_pi : pi_addr (header i') = pi_addr (header i);
  wr_size : v_size (vfs i') = size;
  wr_balloc : balloc_ok w';
  wr_geo : same_geometry (w_sbi w0) (w_sbi w');
  wr_inv : file_inv (w_sbi w') (vis (w_nvmm w')) pi (tree (header i')) [];
  wr_tail : ld 8 (vis (w_nvmm w')) (pi + nova_inode.log_tail) = tail + 40 * n;
  wr_spare : spare (w_sbi w') (vis (w_nvmm w')) pi (tree (header i')) []
               (tail + 40 * n) (tail + 40 * R);
  wr_byte y : file_byte (vis (w_nvmm w')) (tree (header i')) y = pass_bytes t m0 pos len buf y
}.

(** The pages of the write lie between its first and its last page. *)
Lemma page_of_write y : ¬ pos / 4096 ≤ y / 4096 < pos / 4096 + N → ¬ pos ≤ y < pos + len.
Proof.
  intros Hq Hy. apply Hq. pose proof (blocks_of_end pos len) as HeN. fold N in HeN.
  split; [apply Z.div_le_mono; lia|].
  pose proof (Z.div_le_mono y (pos + len - 1) 4096 ltac:(lia) ltac:(lia)). lia.
Qed.

(** The abstract file after the pages were pointed to the entries. *)
Lemma final_bytes w c es m1 m2 y :
  cow_at w0 pi pos tail i buf R w c es (pos / 4096 + N) →
  (∀ x, data (vis (w_nvmm w)) t es x → ld8 m2 x = ld8 (vis (w_nvmm w)) x) →
  (∀ e q, slot (vis (w_nvmm w)) t es e q → same_fields (vis (w_nvmm w)) m1 e) →
  (∀ e q, slot (vis (w_nvmm w)) t es e q → same_fields (vis (w_nvmm w)) m2 e) →
  file_byte m2 (foldl (point m1) t es) y = pass_bytes t m0 pos len buf y.
Proof.
  intros Hat Hd Hf1 Hf2. pose proof (ca_inv _ _ _ _ _ _ _ _ _ _ _ Hat) as Hinv.
  set (m := vis (w_nvmm w)) in *.
  rewrite (foldl_point_ext m m1)
    by (intros e He; by eapply Hf1, (fresh_slot _ _ _ _ _ Hinv)).
  pose proof (Z.div_mod y 4096 ltac:(lia)) as Hy.
  pose proof (Z.mod_pos_bound y 4096 ltac:(lia)) as Hb.
  destruct (lookup_points m es t (y / 4096)) as [(e&He&Hq&Hl)|[Hno Hl]].
  - unfold file_byte. rewrite Hl. assert (slot m t es e (y / 4096)) as Hs by (by right).
    rewrite (page_block_fields _ _ _ _ (Hf2 _ _ Hs)), Hd.
    + etransitivity; [by apply (ca_data _ _ _ _ _ _ _ _ _ _ _ Hat e (y / 4096))|].
      f_equal. lia.
    + exists e, (y / 4096). split; [done|].
      rewrite Z.div_add_l, (Z.div_small (y mod 4096)) by lia. lia.
  - transitivity (file_byte m2 t y); [unfold file_byte; by rewrite Hl|].
    rewrite (file_byte_frame m m2); [rewrite (ca_byte _ _ _ _ _ _ _ _ _ _ _ Hat)|..].
    + unfold pass_bytes. rewrite decide_False; [done|]. apply page_of_write.
      intros (e&He&Hq)%(ca_pages _ _ _ _ _ _ _ _ _ _ _ Hat). by apply (Hno e).
    + intros e q He. apply (Hf2 e q). by left.
    + intros x (e&q&[He|[[]%not_elem_of_nil _]]&Hx). apply Hd. exists e, q. split; [by left|done].
Qed.

(** The file grows to [p] when it ended before. *)
Lemma grow_run w h' i1 p :
  w_inodes w !! h' = Some i1 →
  ∃ w' i', (∀ B (k : M B), (v ← get_vfs h';
      (if decide (p > v_size v) then
         update_vfs h' (vfs_set_size p) ;; update_sih h' (sih_set_size p)
       else mret ()) ;; k) w = k w') ∧
    w_inodes w' = <[h' := i']> (w_inodes w) ∧ w_nvmm w' = w_nvmm w ∧ w_hist w' = w_hist w ∧
    w_sbi w' = w_sbi w ∧ w_live w' = w_live w ∧ tree (header i') = tree (header i1) ∧
    pi_addr (header i') = pi_addr (header i1) ∧
    v_size (vfs i') = Z.max (v_size (vfs i1)) p.
Proof.
  intros Hi1. destruct (decide (p > v_size (vfs i1))) as [Hgt|Hle].
  - set (i2 := InodeInfo (header i1) (vfs_set_size p (vfs i1))).
    set (w2 := set_inodes (<[h' := i2]> (w_inodes w)) w).
    assert (w_inodes w2 !! h' = Some i2) as Hi2 by apply lookup_insert_eq.
    eexists _, _. split.
    { intros B k. rewrite (bind_get_vfs _ _ _ _ Hi1), decide_True by done.
      rewrite bind_assoc, (bind_run _ _ _ _ _ (update_vfs_run _ _ _ _ Hi1)). fold i2 w2.
      rewrite (bind_run _ _ _ _ _ (update_sih_run _ _ _ _ Hi2)). reflexivity. }
    split; [cbn; by rewrite insert_insert_eq|]. split_and!; try done. cbn. lia.
  - exists w, i1. split; [|by rewrite insert_id by done; split_and!; try done; lia].
    intros B k. by rewrite (bind_get_vfs _ _ _ _ Hi1), decide_False by done.
Qed.

Lemma commit_reassigned w c es w2 w3 i3 :
  let n := Z.of_nat (length es) in
  cow_at w0 pi pos tail i buf R w c es (pos / 4096 + N) → only_stores w w2 →
  ld 8 (vis (w_nvmm w2)) (pi + nova_inode.log_tail) = tail + 40 * n →
  (∀ x, ¬ pi ≤ x < pi + nova_inode.sizeof → ld8 (vis (w_nvmm w2)) x = ld8 (vis (w_nvmm w)) x) →
  ld 1 (vis (w_nvmm w2)) (pi + nova_inode.i_blk_type) =
  ld 1 (vis (w_nvmm w)) (pi + nova_inode.i_blk_type) →
  reassigned h pi w2 i es w3 i3 → written w3 i3 n (v_size (vfs i)).
Proof.
  intros n Hat (Es&El&Ei) Htl2 Hm2 Hty2 [Ri Rv Rh Rb Rg Rn Rk Rs].
  pose proof (ca_inv _ _ _ _ _ _ _ _ _ _ _ Hat) as Hinv.
  destruct (inode_stores _ _ _ _ _ _ Hinv Hm2 Hty2) as (Hinv2&Hf2&Hd2&Hsp2).
  split; try done.
  - by rewrite Ri, Ei, (ca_inodes _ _ _ _ _ _ _ _ _ _ _ Hat).
  - by rewrite Rh.
  - by rewrite Rv.
  - rewrite Es in Rg. destruct (ca_geo _ _ _ _ _ _ _ _ _ _ _ Hat) as (?&?&?&?), Rg as (?&?&?&?).
    repeat split; congruence.
  - rewrite <- Htl2. by apply (kept_inode _ _ _ _ _ _ _ _ Hinv2 Rk); offsets.
  - apply Rs. rewrite Es. apply Hsp2, Hat.
  - intros y. rewrite Rh. cbn.
    pose proof (frame_nums _ _ _ _ _ Hinv) as Hn.
    apply (final_bytes w c es); try done.
    + intros x Hx. rewrite (kept_data _ _ _ _ _ _ x Hinv2 Rk), Hd2; [done|done|].
      by apply (data_same _ _ _ _ Hf2 Hn).
    + intros e q Hs. pose proof (kept_fields _ _ _ _ _ _ e q Hinv2 Rk) as Hf3.
      destruct (Hf2 e q Hs) as (?&?&?), Hf3 as (?&?&?); [by apply (slot_same _ _ _ _ Hf2 Hn)|].
      split_and!; congruence.
Qed.

Lemma entries_count w c es :
  cow_at w0 pi pos tail i buf R w c es (pos / 4096 + N) → 1 ≤ Z.of_nat (length es) ≤ R.
Proof.
  intros Hat. pose proof (ca_count _ _ _ _ _ _ _ _ _ _ _ Hat) as Hcnt. fold len N in Hcnt.
  destruct (blocks_of_spec pos len Hlen Hpos) as (Hb&_). fold N in Hb.
  destruct (proj1 (ca_pages _ _ _ _ _ _ _ _ _ _ _ Hat (pos / 4096))) as (e&He&_); [lia|].
  destruct es; [by apply not_elem_of_nil in He|cbn in *; lia].
Qed.

Lemma cow_commit_run w c es total ppos :
  cow_at w0 pi pos tail i buf R w c es (pos / 4096 + N) → c_written c = len →
  ∃ w' i', cow_commit pi h total ppos c w = Done ((len, pos + len), w') ∧
    written w' i' (Z.of_nat (length es)) (Z.max (v_size (vfs i)) (pos + len)) ∧
    ∃ b w3 i3, reassigned h pi (commit_world b (tail + 40 * Z.of_nat (length es)) w) i es w3 i3 ∧
      w_nvmm w' = w_nvmm w3 ∧ w_hist w' = w_hist w3 ∧ w_sbi w' = w_sbi w3 ∧
      tree (header i') = tree (header i3).
Proof.
  intros Hat Hk. pose proof (ca_inv _ _ _ _ _ _ _ _ _ _ _ Hat) as Hinv.
  destruct (ca_local _ _ _ _ _ _ _ _ _ _ _ Hat) as (_&Ep&_&_&_&Ett&Ebt&_).
  pose proof (entries_count _ _ _ Hat) as Hes.
  set (n := Z.of_nat (length es)) in *. rewrite decide_False in Ebt by lia.
  pose proof Hroom as (Ht0&Ht1&Ht2).
  pose proof (commit_stores w es (u64 (ld 8 (vis (w_nvmm w)) (pi + nova_inode.i_blocks) +
    Z.shiftl total (blk_type_to_shift NOVA_BLOCK_TYPE_4K - PAGE_SHIFT))) (tail + 40 * n) Hinv
    ltac:(lia)) as Hcs.
  set (b := u64 _) in Hcs. remember (commit_world b (tail + 40 * n) w) as w2 eqn:Ew2.
  destruct Hcs as (Hrun2&Ho&Htl2&Hm2&Hty2). pose proof Ho as (Es&El&Ei).
  destruct (inode_stores _ _ _ _ _ _ Hinv Hm2 Hty2) as (Hinv2&_). rewrite <- Es in Hinv2.
  assert (balloc_ok w2) as Hok2 by (apply (balloc_ok_same w); [done..|apply Hat]).
  destruct (reassign_run Hradix h pi es (S (Z.to_nat (num_blocks (w_sbi w2) * 4096))) w2 i tail)
    as (w3&i3&Hrun3&Hre); try done.
  { by rewrite Ei, (ca_inodes _ _ _ _ _ _ _ _ _ _ _ Hat). }
  { apply Hat. }
  { fold n. unfold log_room. lia. }
  { destruct (geo_product _ (bo_geometry _ Hok2)) as [? [? _]].
    destruct (geo_cpus _ (bo_geometry _ Hok2)) as [? _]. assert (1 ≤ num_blocks (w_sbi w2)) by nia.
    unfold LAST_ENTRY in *. pose proof (Z.mod_pos_bound tail 4096 ltac:(lia)). lia. }
  pose proof (commit_reassigned w c es w2 w3 i3 Hat Ho Htl2 Hm2 Hty2 Hre) as [Wi Wp Wz Wb Wg Wn Wt Ws Wy].
  unfold cow_commit. rewrite bind_load, (fi_type _ _ _ _ _ Hinv), bind_load, Ett, Hrun2, Ebt.
  unfold nova_reassign_file_tree. run. rewrite (bind_run _ _ _ _ _ Hrun3), decide_False by auto.
  run. assert (w_inodes w3 !! h = Some i3) as Hi3 by (by rewrite Wi, lookup_insert_eq).
  rewrite (bind_run _ _ _ _ _ (update_vfs_run _ _ _ _ Hi3)).
  set (i4 := InodeInfo _ _). set (w4 := set_inodes _ _).
  assert (w_inodes w4 !! h = Some i4) as Hi4 by apply lookup_insert_eq.
  destruct (grow_run w4 h i4 (pos + len) Hi4) as (w'&i'&Hrun5&Gi&Gn&Gh&Gs&Gl&Gt&Gp&Gz).
  rewrite Ep, Hk. fold len. rewrite Hrun5, wrap_small by lia.
  exists w', i'. split; [reflexivity|].
  split; [|by exists b, w3, i3; rewrite <- Ew2, Gn, Gh, Gs, Gt].
  split; rewrite ?Gn, ?Gs, ?Gt, ?Gz; try done.
  - rewrite Gi. cbn. by rewrite insert_insert_eq, Wi, insert_insert_eq.
  - by rewrite Gp, <- Wp.
  - cbn. by rewrite Wz.
  - by apply (balloc_ok_same w3).
Qed.
End write.

(** ** Writing a file *)

Record file_ok (w : world) (h : Z) (i : nova_inode_info) : Prop := {
  fo_inode : w_inodes w !! h = Some i;
  fo_balloc : balloc_ok w;
  fo_dev : num_blocks (w_sbi w) < 2 ^ 31;
  fo_pi : 0 < pi_addr (header i) < 2 ^ 56;
  fo_inv : file_inv (w_sbi w) (vis (w_nvmm w)) (pi_addr (header i)) (tree (header i)) []
}.

(** [n] more entries fit the page at the tail of the log. *)
Definition room_for (w : world) (i : nova_inode_info) (n : Z) : Prop :=
  let tail := ld 8 (vis (w_nvmm w)) (pi_addr (header i) + nova_inode.log_tail) in
  log_room tail n ∧
  spare (w_sbi w) (vis (w_nvmm w)) (pi_addr (header i)) (tree (header i)) [] tail (tail + 40 * n).

(** The file is not mapped, and the buffer of the caller can be read. *)
Record caller_ok `{Uaccess} : Prop := {
  cl_unmapped t : mapping_mapped t = false;
  cl_access t : access_ok t = true;
  cl_copy t n : uncopied t n = 0;
  cl_privs t : file_remove_privs t = 0
}.

Lemma room_less w i n k : room_for w i n → 0 ≤ k ≤ n → room_for w i k.
Proof.
  intros [(Hs&Ht&Hr) Hsp] Hk. split; [unfold log_room; lia|].
  intros x Hx. apply Hsp. lia.
Qed.

Section theorems.
Context `{RbTreeLaws} `{EnvLaws} `{Uaccess}.

Lemma bind_ask {A B} (f : BinNums.N → A) (k : A → M B) w :
  (ask f ≫= k) w = k (f (w_tick w)) (next_tick w).
Proof. done. Qed.

Lemma cow_at_start w h pi pos i buf R :
  let tail := ld 8 (vis (w_nvmm w)) (pi + nova_inode.log_tail) in
  let len := Z.of_nat (length buf) in
  w_inodes w !! h = Some i → balloc_ok w →
  file_inv (w_sbi w) (vis (w_nvmm w)) pi (tree (header i)) [] →
  spare (w_sbi w) (vis (w_nvmm w)) pi (tree (header i)) [] tail (tail + 40 * R) → 1 ≤ len →
  cow_at w pi pos tail i buf R w (Cow pos buf len (blocks_of pos len) 0 tail 0 0 0) []
    (pos / 4096).
Proof.
  intros tail len Hi Hok Hinv Hsp Hlen. split; try done.
  - by rewrite Z.mul_0_r, Z.add_0_r.
  - intros e q o He. by apply not_elem_of_nil in He.
  - intros e q He. by apply not_elem_of_nil in He.
  - intros q. split; [lia|]. intros (e&He&_). by apply not_elem_of_nil in He.
  - cbn. lia.
  - by apply tidy_same.
  - unfold cow_local. cbn. fold len. rewrite Z.mul_0_r, !Z.add_0_r, Z.sub_0_r, decide_True by done.
    split_and!; try done; try lia.
Qed.

(** A failed write: the log has more entries behind its tail, nothing else. *)
Lemma cow_abort w0 h pi pos tail i buf R w c es g :
  w_inodes w0 !! h = Some i → num_blocks (w_sbi w0) < 2 ^ 31 →
  pi = pi_addr (header i) → 0 < pi < 2 ^ 56 →
  file_inv (w_sbi w0) (vis (w_nvmm w0)) pi (tree (header i)) [] →
  spare (w_sbi w0) (vis (w_nvmm w0)) pi (tree (header i)) [] tail (tail + 40 * R) →
  tail = ld 8 (vis (w_nvmm w0)) (pi + nova_inode.log_tail) → log_room tail R →
  cow_at w0 pi pos tail i buf R w c es g →
  file_ok (next_tick w) h i ∧ room_for (next_tick w) i R.
Proof.
  intros Hi Hdev -> Hpi Hinv0 Hsp0 Htail Hroom Hat.
  pose proof (ca_inv _ _ _ _ _ _ _ _ _ _ _ Hat) as Hinv.
  split.
  - split; try done.
    + cbn. by rewrite (ca_inodes _ _ _ _ _ _ _ _ _ _ _ Hat).
    + apply (balloc_ok_same w); [done..|]. apply Hat.
    + change (num_blocks (w_sbi w) < 2 ^ 31). by destruct (ca_geo _ _ _ _ _ _ _ _ _ _ _ Hat) as (_&_&->&_).
    + by eapply inv_drop.
  - assert (∀ x, meta (vis (w_nvmm w0)) (pi_addr (header i)) (tree (header i)) [] x →
      ld8 (vis (w_nvmm w)) x = ld8 (vis (w_nvmm w0)) x) as Hm.
    { intros x Hx. apply (ca_mem _ _ _ _ _ _ _ _ _ _ _ Hat).
      - by destruct (fi_meta _ _ _ _ _ Hinv0 x Hx).
      - intros Hr. by destruct (Hsp0 x Hr) as [? _]. }
    unfold room_for. cbn.
    assert (ld 8 (vis (w_nvmm w)) (pi_addr (header i) + nova_inode.log_tail) = tail) as ->.
    { rewrite Htail. apply ld_frame. intros x Hx. apply Hm. left. offsets. }
    split; [done|]. apply (spare_frame _ _ _ _ _ Hinv0); [| |done].
    + intros e q x Hs Hx. apply Hm. by eapply meta_entry.
    + intros x _. apply (ca_free _ _ _ _ _ _ _ _ _ _ _ Hat).
Qed.

(** Up to the loop. *)
Lemma cow_prefix w h i buf ppos (append : bool) :
  let pos := if append then v_size (vfs i) else ppos in
  let len := Z.of_nat (length buf) in
  let pi := pi_addr (header i) in
  let N := blocks_of pos len in
  caller_ok → w_inodes w !! h = Some i → 0 < pi → 0 ≤ pos → 1 ≤ len → pos + len < 2 ^ 63 →
  ∃ w0 time i0, nova_cow_file_write h buf ppos append w =
    (r ← cow_loop (S (Z.to_nat N)) pi h time
           (Cow pos buf len N 0 (ld 8 (vis (w_nvmm w0)) (pi + nova_inode.log_tail)) 0 0 0);
     match r with
     | (inl ret, c) =>
         (if decide (u64 ret < 0) then
            _ ← nova_cleanup_incomplete_write pi (c_blocknr c) (c_allocated c)
                  (c_begin_tail c) (c_temp_tail c); mret ()
          else mret ()) ;; mret (s64 (u64 ret), ppos)
     | (inr _, c) => r ← cow_commit pi h N ppos c; mret (s64 r.1, r.2)
     end) w0 ∧
    w_nvmm w0 = w_nvmm w ∧ w_hist w0 = w_hist w ∧ w_sbi w0 = w_sbi w ∧ w_live w0 = w_live w ∧
    w_inodes w0 = <[h := i0]> (w_inodes w) ∧ header i0 = header i ∧
    v_size (vfs i0) = v_size (vfs i).
Proof.
  intros pos len pi N [Hmap Hacc Hcopy Hpriv] Hi Hpi Hpos Hlen Hmax.
  unfold nova_cow_file_write. fold len. rewrite decide_False by lia.
  eexists _, _, _. split.
  { rewrite bind_ask, Hmap, bind_ask, Hacc. cbn [negb].
    set (w1 := next_tick (next_tick w)). assert (w_inodes w1 !! h = Some i) as Hi1 by done.
    rewrite (bind_get_vfs _ _ _ _ Hi1). fold pos. unfold nova_get_inode.
    rewrite bind_assoc, (bind_get_sih _ _ _ _ Hi1). fold pi.
    unfold nova_get_block. rewrite decide_False by lia. run. rewrite bind_ask, Hpriv.
    rewrite decide_False by auto. rewrite bind_get_time.
    set (w2 := next_tick (next_tick w1)). assert (w_inodes w2 !! h = Some i) as Hi2 by done.
    rewrite (bind_run _ _ _ _ _ (update_vfs_run _ _ _ _ Hi2)), bind_get_time, bind_load.
    change (PAGE_SIZE - 1) with 4095. rewrite land_page, shiftr_page.
    pose proof (Z.mod_pos_bound pos 4096 ltac:(lia)). rewrite wrap_small by lia.
    reflexivity. }
  done.
Qed.

(** The outcomes of a write of [buf] at [pos]: all of it, or nothing. *)
Definition write_outcome (w : world) (i : nova_inode_info) (ppos pos n : Z) (buf : list Z)
    (ret : Z * Z) (w' : world) (i' : nova_inode_info) : Prop :=
  let len := Z.of_nat (length buf) in
  ret = (len, pos + len) ∧ v_size (vfs i') = Z.max (v_size (vfs i)) (pos + len) ∧
  room_for w' i' (n - blocks_of pos len) ∧
  (∀ y, file_byte (vis (w_nvmm w')) (tree (header i')) y =
        if decide (pos ≤ y < pos + len) then buf !!! Z.to_nat (y - pos)
        else file_byte (vis (w_nvmm w)) (tree (header i)) y) ∨
  ret = (- ENOSPC, ppos) ∧ v_size (vfs i') = v_size (vfs i) ∧ header i' = header i ∧
  room_for w' i' n ∧
  ∀ y, file_byte (vis (w_nvmm w')) (tree (header i')) y =
       file_byte (vis (w_nvmm w)) (tree (header i)) y.

(** How it got there: from [w0], which is [w] with the times of the inode
    updated, through the loop and, when all was written, the commit. *)
Definition write_history (w : world) (h : Z) (i : nova_inode_info) (ppos pos n : Z)
    (buf : list Z) (ret : Z * Z) (w' : world) (i' : nova_inode_info) : Prop :=
  let pi := pi_addr (header i) in
  let tail := ld 8 (vis (w_nvmm w)) (pi + nova_inode.log_tail) in
  let len := Z.of_nat (length buf) in
  ∃ w0 i0 w1 c es, w_nvmm w0 = w_nvmm w ∧ w_hist w0 = w_hist w ∧ w_sbi w0 = w_sbi w ∧
    header i0 = header i ∧ v_size (vfs i0) = v_size (vfs i) ∧
    (ret = (- ENOSPC, ppos) ∧ (∃ g, cow_at w0 pi pos tail i0 buf n w1 c es g) ∧
     w' = next_tick w1 ∨
     ret = (len, pos + len) ∧
     cow_at w0 pi pos tail i0 buf n w1 c es (pos / 4096 + blocks_of pos len) ∧
     c_pos c = pos + len ∧
     ∃ b w3 i3, reassigned h pi (commit_world pi b (tail + 40 * Z.of_nat (length es)) w1) i0 es
         w3 i3 ∧
       w_nvmm w' = w_nvmm w3 ∧ w_hist w' = w_hist w3 ∧ w_sbi w' = w_sbi w3 ∧
       tree (header i') = tree (header i3) ∧ pi_addr (header i') = pi).

Lemma cow_write_run w h i buf ppos (append : bool) n :
  let pos := if append then v_size (vfs i) else ppos in
  let len := Z.of_nat (length buf) in
  (∀ t, radix_node_alloc t = true) → caller_ok →
  file_ok w h i → room_for w i n → blocks_of pos len ≤ n →
  0 ≤ pos → 1 ≤ len → pos + len < 2 ^ 63 → (∀ b, b ∈ buf → 0 ≤ b < 256) →
  ∃ ret w' i', nova_cow_file_write h buf ppos append w = Done (ret, w') ∧
    file_ok w' h i' ∧ (∀ h', h' ≠ h → w_inodes w' !! h' = w_inodes w !! h') ∧
    write_outcome w i ppos pos n buf ret w' i' ∧ write_history w h i ppos pos n buf ret w' i'.
Proof.
  intros pos len Hradix Hcl [Hi Hok Hdev Hpi Hinv] [Hroom Hsp] HN Hpos Hlen Hmax Hbytes.
  unfold write_outcome, write_history.
  destruct (cow_prefix w h i buf ppos append Hcl Hi ltac:(lia) Hpos Hlen Hmax)
    as (w0&time&i0&->&En&Ehi&Es&El&Ei&Eh&Ez). fold pos len.
  rewrite <- En, <- Es, <- Eh in *. set (pi := pi_addr (header i0)) in *.
  set (tail := ld 8 (vis (w_nvmm w0)) (pi + nova_inode.log_tail)) in *.
  assert (w_inodes w0 !! h = Some i0) as Hi0 by (by rewrite Ei, lookup_insert_eq).
  assert (balloc_ok w0) as Hok0 by (by apply (balloc_ok_same w)).
  assert (∀ h', h' ≠ h → w_inodes w0 !! h' = w_inodes w !! h') as Hoth
    by (intros h' Hh; by rewrite Ei, lookup_insert_ne).
  destruct (cow_loop_run w0 h pi pos tail i0 buf n HN (cl_copy Hcl) Hi0 Hpos Hlen Hmax Hbytes Hdev
    Hroom time (S (Z.to_nat (blocks_of pos len))) w0
    (Cow pos buf len (blocks_of pos len) 0 tail 0 0 0) [] (pos / 4096))
    as [(c1&c'&w'&es&g&Hrun&Hat)|(c'&w'&es&Hrun&Hk&Hat)].
  { by apply (cow_at_start w0 h). }
  { fold len. destruct (blocks_of_spec pos len Hlen Hpos) as (?&_). lia. }
  - rewrite (bind_run _ _ _ _ _ Hrun), decide_False by (pose proof (wrap_range 64 (- ENOSPC)); lia).
    exists (- ENOSPC, ppos), (next_tick w'), i0. split; [reflexivity|].
    destruct (cow_abort w0 h pi pos tail i0 buf n w' c' es g) as [Hfo Hrm]; try done.
    split; [done|]. split.
    { intros h' Hh. cbn. rewrite (ca_inodes _ _ _ _ _ _ _ _ _ _ _ Hat). by apply Hoth. }
    split.
    { right. split_and!; try done. intros y. apply (ca_byte _ _ _ _ _ _ _ _ _ _ _ Hat). }
    exists w0, i0, w', c', es. split_and!; try done. left. split_and!; try done. by exists g.
  - destruct (cow_commit_run Hradix w0 h pi pos tail i0 buf n HN Hi0 Hpos Hlen Hmax Hroom w' c' es
      (blocks_of pos len) ppos Hat Hk) as (w2&i2&Hrun2&[Wi Wp Wz Wb Wg Wn Wt Ws Wy]&Hcm).
    rewrite (bind_run _ _ _ _ _ Hrun), (bind_run _ _ _ _ _ Hrun2).
    exists (len, pos + len), w2, i2. cbn [fst snd]. rewrite s64_small by lia.
    split; [reflexivity|]. fold pi in Wp.
    split; [|split].
    { split; try done; [by rewrite Wi, lookup_insert_eq| |by rewrite Wp..].
      by destruct Wg as (_&_&->&_). }
    { intros h' Hh. rewrite Wi, lookup_insert_ne by done. by apply Hoth. }
    split; [left|].
    2: { exists w0, i0, w', c', es. split_and!; try done. right. split_and!; try done.
         { destruct (ca_local _ _ _ _ _ _ _ _ _ _ _ Hat) as (_&->&_). by rewrite Hk. }
         destruct Hcm as (b&w3&i3&?&?&?&?&?). exists b, w3, i3. done. }
    split_and!; [done|by rewrite Wz, Ez| |done].
    pose proof (ca_count _ _ _ _ _ _ _ _ _ _ _ Hat) as Hcnt. fold len in Hcnt.
    apply (room_less _ _ (n - Z.of_nat (length es))); [|lia].
    unfold room_for. rewrite Wp, Wt. split; [apply (room_next tail _ n Hroom); lia|].
    by replace (tail + 40 * Z.of_nat (length es) + 40 * (n - Z.of_nat (length es)))
      with (tail + 40 * n) by lia.
Qed.

(** C1. Writing refines updating the abstract file.  For a file in its
    invariant whose log page has room for an entry per block,
    [nova_cow_file_write] of [len] accessible bytes at [pos] (the end of the
    file with [O_APPEND]) terminates, keeps the invariant, and leaves every
    other inode in memory alone.  Either it returns [len], the position has
    moved behind the bytes, the size is the larger of the old one and that
    position, and the abstract file is the old one with the bytes at [pos]
    replaced, whatever partial blocks, holes or runs of blocks the write
    meets; or it returns [-ENOSPC] and position, size, tree, log tail and
    every byte of the file are what they were. *)
Theorem cow_write_refines w h i buf ppos (append : bool) n :
  let pos := if append then v_size (vfs i) else ppos in
  let len := Z.of_nat (length buf) in
  (∀ t, radix_node_alloc t = true) → caller_ok →
  file_ok w h i → room_for w i n → blocks_of pos len ≤ n →
  0 ≤ pos → 1 ≤ len → pos + len < 2 ^ 63 → (∀ b, b ∈ buf → 0 ≤ b < 256) →
  ∃ ret w' i', nova_cow_file_write h buf ppos append w = Done (ret, w') ∧
    file_ok w' h i' ∧ (∀ h', h' ≠ h → w_inodes w' !! h' = w_inodes w !! h') ∧
    (ret = (len, pos + len) ∧ v_size (vfs i') = Z.max (v_size (vfs i)) (pos + len) ∧
     room_for w' i' (n - blocks_of pos len) ∧
     (∀ y, file_byte (vis (w_nvmm w')) (tree (header i')) y =
           if decide (pos ≤ y < pos + len) then buf !!! Z.to_nat (y - pos)
           else file_byte (vis (w_nvmm w)) (tree (header i)) y) ∨
     ret = (- ENOSPC, ppos) ∧ v_size (vfs i') = v_size (vfs i) ∧ header i' = header i ∧
     room_for w' i' n ∧
     ∀ y, file_byte (vis (w_nvmm w')) (tree (header i')) y =
          file_byte (vis (w_nvmm w)) (tree (header i)) y).
Proof.
  intros pos len Hradix Hcl Hok Hroom HN Hpos Hlen Hmax Hbytes.
  destruct (cow_write_run w h i buf ppos append n) as (ret&w'&i'&Hrun&Hok'&Hoth&Hout&_); try done.
  exists ret, w', i'. split; [exact Hrun|]. split; [exact Hok'|]. split; [exact Hoth|exact Hout].
Qed.

(** C4. Reading after writing.  Under the same conditions, reading [len] bytes
    at [pos] behind a write that succeeded returns exactly the bytes written,
    whatever was in the file before. *)
Theorem read_after_write w h i buf ppos (append : bool) n :
  let pos := if append then v_size (vfs i) else ppos in
  let len := Z.of_nat (length buf) in
  (∀ t, radix_node_alloc t = true) → caller_ok →
  file_ok w h i → room_for w i n → blocks_of pos len ≤ n → 0 ≤ v_size (vfs i) < 2 ^ 63 →
  0 ≤ pos → 1 ≤ len → pos + len < 2 ^ 63 → (∀ b, b ∈ buf → 0 ≤ b < 256) →
  ∃ ret w1, nova_dax_file_write h buf ppos append w = Done (ret, w1) ∧
    (ret = (- ENOSPC, ppos) ∨
     ret = (len, pos + len) ∧
     ∃ w2, nova_dax_file_read h len pos w1 = Done ((len, pos + len, buf), w2)).
Proof.
  intros pos len Hradix Hcl Hok Hroom HN Hsz Hpos Hlen Hmax Hbytes.
  destruct (cow_write_run w h i buf ppos append n) as (ret&w1&i1&Hrun&Hok1&_&Hout&_); try done.
  exists ret, w1. split; [exact Hrun|]. destruct Hout as [(->&Hz&_&Hy)|(->&_)]; [right|by left].
  split; [done|]. fold pos len in Hz, Hy.
  destruct (read_run w1 h i1 len pos) as (r&k&w2&Hread&Hk&_&Hres);
    [apply Hok1|by eapply inv_tree_ok, Hok1|lia..|].
  replace (Z.max 0 (Z.min len (v_size (vfs i1) - pos))) with len in * by lia.
  destruct Hres as [[-> ->]|(_&[[tk Ht]|(tk&m&Hu)])].
  - exists w2. rewrite Hread. do 3 f_equal. apply list_eq_same_length with (n := length buf);
      [done|rewrite length_fmap, length_seqZ; lia|].
    intros j x y Hj Hx Hb. rewrite list_lookup_fmap, lookup_seqZ_lt in Hx by lia.
    injection Hx as <-. rewrite Hy, decide_True by lia. apply list_lookup_total_correct.
    by replace (Z.to_nat (pos + Z.of_nat j - pos)) with j by lia.
  - by rewrite (cl_access Hcl) in Ht.
  - by rewrite (cl_copy Hcl) in Hu.
Qed.
End theorems.

Section instances.
#[local] Existing Instances bst_rb bst_rb_laws env1 env1_laws uaccess1.

(** A file of one page, block 5, with the bytes 10, 11 and 12 at its start;
    the inode is at 1024, the log page at 8192. *)
Definition cow_mem : mem :=
  let m := st_bytes ∅ 8192 (encode_write_entry (5 * 4096) 0 1 0 0 0 4096) in
  let m := st_bytes m (1024 + nova_inode.log_tail) (le_split 8 8232) in
  st_bytes m (5 * 4096) [10; 11; 12].
Definition cow_inode : nova_inode_info :=
  InodeInfo (Sih {[0 := 8192]} ∅ 0 0 4096 20 1024 0 0 0 0 0 0)
    (VfsInode 20 0 1 4096 1 0 0 0 0 0 0 0 0 false).
Definition cow_world : world :=
  World (nvmm_boot cow_mem) small_sbi {[100; 101; 200]} 0 {[1 := cow_inode]} [].

Lemma small_reserved b : block_free small_sbi b → 3 ≤ b.
Proof. intros Hb. by apply (block_free_bounds small_world b small_world_ok). Qed.

Lemma cow_slot e q : slot cow_mem {[0 := 8192]} [] e q → e = 8192 ∧ q = 0.
Proof.
  intros [[<- <-]%lookup_singleton_Some|[[]%not_elem_of_nil _]]. done.
Qed.

(** The bytes of the inode and of the log page are in reserved blocks, which
    hold no data. *)
Lemma cow_reserved x :
  0 ≤ x < 12288 → ¬ block_free small_sbi (x / 4096) ∧ ¬ data cow_mem {[0 := 8192]} [] x.
Proof.
  intros Hx. assert (x / 4096 < 3) by (apply Z.div_lt_upper_bound; lia). split.
  - intros Hb%small_reserved. lia.
  - intros (e&q&[-> ->]%cow_slot&Hb). change (5 = x / 4096) in Hb. lia.
Qed.

Lemma cow_meta x :
  meta cow_mem 1024 {[0 := 8192]} [] x → 1024 ≤ x < 1116 ∨ 8192 ≤ x < 8232.
Proof. intros [Hx|(e&q&[-> _]%cow_slot&Hx)]; offsets. Qed.

Lemma cow_world_ok : file_ok cow_world 1 cow_inode.
Proof.
  split; [reflexivity| |cbn; lia|cbn; lia|].
  - apply (balloc_ok_same small_world); [reflexivity|reflexivity|apply small_world_ok].
  - split.
    + reflexivity.
    + intros e q [-> ->]%cow_slot. vm_compute. split; congruence.
    + intros e q [-> ->]%cow_slot. vm_compute. split_and!; congruence.
    + intros e q e' q' [-> _]%cow_slot [-> _]%cow_slot. by left.
    + intros e q [-> _]%cow_slot. left. vm_compute. discriminate.
    + intros e q e' q' [-> ->]%cow_slot [-> ->]%cow_slot _. split; reflexivity.
    + intros e q [-> ->]%cow_slot. change (in_use small_sbi [5]).
      intros b ->%list_elem_of_singleton. split; [cbn; lia|apply small_used].
    + intros x Hx%cow_meta. apply cow_reserved. lia.
    + intros e q He. change (({[0 := 8192]} : gmap Z Z) !! q = Some e) in He.
      apply lookup_singleton_Some in He as [<- <-]. reflexivity.
    + intros e []%not_elem_of_nil.
    + constructor.
Qed.

Lemma cow_world_room : room_for cow_world cow_inode 2.
Proof.
  split; [vm_compute; split_and!; congruence|]. intros x Hx.
  change (8232 ≤ x < 8232 + 80) in Hx. destruct (cow_reserved x) as [Hn Hd]; [lia|].
  split_and!; [|exact Hn|exact Hd]. intros Hm%cow_meta. lia.
Qed.

(** Four bytes over the end of the file. *)
Lemma cow_write_refines_witness :
  ∃ w' i', nova_cow_file_write 1 [1; 2; 3; 4] 4094 false cow_world = Done ((4, 4098), w') ∧
    file_ok w' 1 i' ∧ v_size (vfs i') = 4098 ∧
    file_byte (vis (w_nvmm w')) (tree (header i')) 1 = 11 ∧
    file_byte (vis (w_nvmm w')) (tree (header i')) 4097 = 4.
Proof.
  destruct (cow_write_refines cow_world 1 cow_inode [1; 2; 3; 4] 4094 false 2)
    as (ret&w'&i'&Hrun&Hok&_&[(->&Hz&_&Hy)|(->&_)]).
  - reflexivity.
  - split; reflexivity.
  - exact cow_world_ok.
  - exact cow_world_room.
  - vm_compute. discriminate.
  - lia.
  - cbn. lia.
  - cbn. lia.
  - intros b Hb. repeat (apply elem_of_cons in Hb as [->|Hb]; [lia|]).
    by apply not_elem_of_nil in Hb.
  - exists w', i'. split; [exact Hrun|]. split; [exact Hok|]. split; [exact Hz|].
    split; rewrite Hy; vm_compute; reflexivity.
  - exfalso. assert (match nova_cow_file_write 1 [1; 2; 3; 4] 4094 false cow_world with
      | Done (r, _) => r.1 | Halt _ => 0 end = 4) as H4 by (vm_compute; reflexivity).
    rewrite Hrun in H4. discriminate H4.
Defined.

Lemma read_after_write_witness :
  ∃ w1 w2, nova_dax_file_write 1 [1; 2; 3; 4] 4094 false cow_world = Done ((4, 4098), w1) ∧
    nova_dax_file_read 1 4 4094 w1 = Done ((4, 4098, [1; 2; 3; 4]), w2).
Proof.
  destruct (read_after_write cow_world 1 cow_inode [1; 2; 3; 4] 4094 false 2)
    as (ret&w1&Hrun&[->|(->&w2&Hread)]).
  - reflexivity.
  - split; reflexivity.
  - exact cow_world_ok.
  - exact cow_world_room.
  - vm_compute. discriminate.
  - cbn. lia.
  - lia.
  - cbn. lia.
  - cbn. lia.
  - intros b Hb. repeat (apply elem_of_cons in Hb as [->|Hb]; [lia|]).
    by apply not_elem_of_nil in Hb.
  - exfalso. assert (match nova_dax_file_write 1 [1; 2; 3; 4] 4094 false cow_world with
      | Done (r, _) => r.1 | Halt _ => 0 end = 4) as H4 by (vm_compute; reflexivity).
    rewrite Hrun in H4. discriminate H4.
  - exists w1, w2. split; [exact Hrun|exact Hread].
Defined.
End instances.
