(* ===== verification/CowCrash.v ===== *)
(** * A power failure while a file is written (dax.c, inode.c)

    [nova_cow_file_write] fills new blocks and appends entries behind the log
    tail, stores the tail, and only then changes counts.  Whenever the power
    fails, log tail and data on the medium are those before the write or those
    after it. *)
From S2P Require Import Prelude Nvmm RangeTree Layout World Trace Balloc BallocList BallocProofs.
From S2P Require Import Log LogPages LogProofs FileTree Inode Dax DaxProofs AssignProofs FileInv.
From S2P Require Import CowProofs.

(** ** What a file depends on *)

(** The fields of entries that say where their data is. *)
Definition fields (m : mem) (t : gmap Z Z) (es : list Z) (x : Z) : Prop :=
  ∃ e q, slot m t es e q ∧ e ≤ x < e + 20.

Definition tail_field (pi x : Z) : Prop :=
  pi + nova_inode.log_tail ≤ x < pi + nova_inode.log_tail + 8.

Definition vital (m : mem) (pi : Z) (t : gmap Z Z) (es : list Z) (x : Z) : Prop :=
  tail_field pi x ∨ fields m t es x ∨ data m t es x.

Lemma vital_held m pi t es x : vital m pi t es x → meta m pi t es x ∨ data m t es x.
Proof.
  intros [Hx|[(e&q&Hs&Hx)|Hx]]; [left; left|left|by right].
  - unfold tail_field in Hx. offsets.
  - eapply meta_entry; [done|offsets].
Qed.

(** The log of the inode at [pi] ends at [tl], and the page tree [t] gives the
    bytes [f]. *)
Definition denotes (m : mem) (pi tl : Z) (t : gmap Z Z) (f : Z → Z) : Prop :=
  ld 8 m (pi + nova_inode.log_tail) = tl ∧ ∀ y, file_byte m t y = f y.

(** What a failure leaves of bytes that stayed. *)
Lemma stays_crash (P : Z → Prop) q0 q m :
  stays P q0 q → crash_image q m → ∀ x, P x → ld8 m x = ld8 (vis q0) x.
Proof. intros [Hok Hs] Hm x Hx. destruct (Hs x Hx) as [? <-]. by eapply settled_crash. Qed.

Section image.
Context (m m' : mem) (pi : Z) (t : gmap Z Z) (es : list Z).
Context (Hm : ∀ x, fields m t es x ∨ data m t es x → ld8 m' x = ld8 m x).

Lemma image_fields e q : slot m t es e q → same_fields m m' e.
Proof. intros Hs. apply same_fields_frame. intros x Hx. apply Hm. left. by exists e, q. Qed.

Lemma image_byte y : file_byte m' t y = file_byte m t y.
Proof.
  apply file_byte_frame.
  - intros e q He. apply (image_fields e q). by left.
  - intros x (e&q&[He|[[]%not_elem_of_nil _]]&Hx). apply Hm. right. exists e, q.
    split; [by left|done].
Qed.
End image.

(** ** The stores of a write *)

(** What is on the medium is not waiting in the cache: the tail, the entries
    and the data of the file, and what is left in free blocks and behind the
    tail. *)
Record durable (w : world) (i : nova_inode_info) (n : Z) : Prop := {
  du_ok : nvmm_ok (w_nvmm w);
  du_align : (pi_addr (header i) + nova_inode.log_tail) mod 8 = 0;
  du_vital x : vital (vis (w_nvmm w)) (pi_addr (header i)) (tree (header i)) [] x →
    settled (w_nvmm w) x;
  du_free x : block_free (w_sbi w) (x / 4096) → written_back (w_nvmm w) x;
  du_room tail x : ld 8 (vis (w_nvmm w)) (pi_addr (header i) + nova_inode.log_tail) = tail →
    tail ≤ x < tail + 40 * n → written_back (w_nvmm w) x
}.

Section states.
Context (w0 : world) (pi pos tail : Z) (i : nova_inode_info) (buf : list Z) (R : Z).
Let m0 : mem := vis (w_nvmm w0).
Let t : gmap Z Z := tree (header i).
Let len : Z := Z.of_nat (length buf).
Let N : Z := blocks_of pos len.
Context (Hpi : pi = pi_addr (header i)).
Context (Htail : ld 8 (vis (w_nvmm w0)) (pi + nova_inode.log_tail) = tail).
Context (Hinv0 : file_inv (w_sbi w0) (vis (w_nvmm w0)) pi t []).
Context (Hsp0 : spare (w_sbi w0) (vis (w_nvmm w0)) pi t [] tail (tail + 40 * R)).
Context (Hdu : durable w0 i R).

Definition old (q : nvmm) : Prop := stays (vital m0 pi t []) (w_nvmm w0) q.

Lemma old_image q m : old q → crash_image q m → denotes m pi tail t (file_byte m0 t).
Proof.
  intros Ho Hm. pose proof (stays_crash _ _ _ _ Ho Hm) as Hx. split.
  - rewrite <- Htail. apply ld_frame. intros x Hr. apply Hx. left. unfold tail_field. lia.
  - intros y. apply (image_byte m0 m t []). intros x [?|?]; apply Hx; right; tauto.
Qed.

Lemma vital_apart x :
  vital m0 pi t [] x → ¬ (block_free (w_sbi w0) (x / 4096) ∨ tail ≤ x < tail + 40 * R).
Proof.
  intros Hv%vital_held [Hf|Hr].
  - destruct (free_not_held _ _ _ _ _ Hinv0 x Hf). tauto.
  - destruct (Hsp0 x Hr) as (?&_&?). tauto.
Qed.

(** Through the loop. *)
Lemma loop_states w c es g :
  cow_at w0 pi pos tail i buf R w c es g →
  ∃ l, w_hist w = w_hist w0 ++ l ∧ ∀ q, q ∈ l ++ [w_nvmm w] → old q.
Proof.
  intros Hat. destruct (td_traces _ _ _ (ca_tidy _ _ _ _ _ _ _ _ _ _ _ Hat)) as (l&Hl&Ht).
  exists l. split; [done|]. intros q Hq.
  eapply (trace_stays _ _ (λ a Ha, avoids_within _ _ (vital_apart a Ha)) _ _ _ Ht);
    [apply Hdu| |done].
  intros x Hx. apply Hdu. by rewrite <- Hpi.
Qed.

(** The commit. *)
Section commit.
Context (w : world) (c : cow_state) (es : list Z) (b : Z) (HR : N ≤ R) (Hroom : log_room tail R).
Context (Hat : cow_at w0 pi pos tail i buf R w c es (pos / 4096 + N)).
Let m : mem := vis (w_nvmm w).
Let new : Z := tail + 40 * Z.of_nat (length es).
Let q1 : nvmm :=
  nvmm_write Cached (WBytes (pi + nova_inode.i_blocks) (le_split 8 b)) (w_nvmm w).
Let q2 : nvmm := PERSISTENT_BARRIER q1.
Let q3 : nvmm := nvmm_write Cached (WBytes (pi + nova_inode.log_tail) (le_split 8 new)) q2.
Let q4 : nvmm := nova_flush_buffer (pi + nova_inode.log_tail) CACHELINE_SIZE true q3.

(** The entries and the data with those of the write, and the whole of the
    new entries. *)
Definition fresh (x : Z) : Prop := ∃ e, e ∈ es ∧ e ≤ x < e + nova_file_write_entry.sizeof.
Definition held (x : Z) : Prop := fields m t es x ∨ data m t es x ∨ fresh x.

Lemma entry_in_room e : e ∈ es → tail ≤ e ∧ e + 40 ≤ tail + 40 * R.
Proof.
  rewrite (ca_es _ _ _ _ _ _ _ _ _ _ _ Hat). intros (j&->&Hj%elem_of_seqZ)%list_elem_of_fmap.
  pose proof (ca_count _ _ _ _ _ _ _ _ _ _ _ Hat) as Hc. fold len N in Hc. lia.
Qed.

Lemma tree_fields e q : t !! q = Some e → same_fields m0 m e.
Proof.
  intros He. apply same_fields_frame. intros x Hx.
  assert (vital m0 pi t [] x) as Hv%vital_apart
    by (right; left; exists e, q; split; [by left|done]).
  apply (ca_mem _ _ _ _ _ _ _ _ _ _ _ Hat); tauto.
Qed.

Lemma held_clean x : held x → written_back (w_nvmm w) x.
Proof.
  intros Hx. apply (td_clean _ _ _ (ca_tidy _ _ _ _ _ _ _ _ _ _ _ Hat)).
  assert (∀ x, vital m0 pi t [] x → written_back (w_nvmm w0) x) as Hold.
  { intros y Hy. apply settled_written_back, Hdu. by rewrite <- Hpi. }
  assert (fresh x → written_back (w_nvmm w0) x) as Hfr.
  { intros (e&He&Hr). apply (du_room _ _ _ Hdu tail); [by rewrite <- Hpi|].
    pose proof (entry_in_room e He). offsets. }
  destruct Hx as [(e&q&[He|[He _]]&Hx)|[(e&q&[He|[He Hq]]&Hx)|Hx]]; [| | | |by apply Hfr].
  - apply Hold. right. left. exists e, q. split; [by left|done].
  - apply Hfr. exists e. split; [done|offsets].
  - apply Hold. right. right. exists e, q. split; [by left|].
    by rewrite <- (page_block_fields _ _ _ q (tree_fields e q He)).
  - apply (du_free _ _ _ Hdu). rewrite <- Hx. by apply (ca_new _ _ _ _ _ _ _ _ _ _ _ Hat).
Qed.

Lemma held_apart x : held x → ¬ pi ≤ x < pi + nova_inode.sizeof.
Proof.
  pose proof (ca_inv _ _ _ _ _ _ _ _ _ _ _ Hat) as Hinv.
  intros [(e&q&Hs&Hx)|[Hd|(e&He&Hx)]] Hn.
  - destruct (fi_inode _ _ _ _ _ Hinv e q Hs); offsets.
  - by destruct (fi_meta _ _ _ _ _ Hinv x (or_introl Hn)).
  - pose proof (fresh_slot _ _ _ _ _ Hinv e He) as Hs.
    destruct (fi_inode _ _ _ _ _ Hinv e _ Hs); offsets.
Qed.

(** Without the counts. *)
Definition steady (x : Z) : Prop := held x ∧ ¬ counts m pi t es x.

Lemma steady_file x : fields m t es x ∨ data m t es x → steady x.
Proof.
  pose proof (ca_inv _ _ _ _ _ _ _ _ _ _ _ Hat) as Hinv. intros [Hx|Hx]; split.
  - by left.
  - destruct Hx as (e&q&Hs&Hx). by eapply counts_fields.
  - by right; left.
  - by eapply counts_data.
Qed.

Lemma old_barrier : old (w_nvmm w) → old q1 ∧ old q2.
Proof.
  intros Ho. pose proof Ho as [Hok Hs].
  set (B := λ x, pi + nova_inode.i_blocks ≤ x < pi + nova_inode.i_blocks + 8).
  assert (∀ x, vital m0 pi t [] x → avoids (within B) x) as Hap.
  { unfold B. intros x Hv. apply avoids_within. revert Hv. intros [Hx|[(e&q&He&Hx)|Hx]] Hn.
    - unfold tail_field in Hx. offsets.
    - destruct (fi_inode _ _ _ _ _ Hinv0 e q He); offsets.
    - destruct (fi_meta _ _ _ _ _ Hinv0 x) as [_ ?]; [left; offsets|done]. }
  assert (old q1) as Ho1.
  { eapply stays_trans; [done|]. eapply (step_stays (within B)); [done| |done|intros; by apply Hs].
    constructor. intros x Hx. cbn in Hx. by rewrite length_le_split in Hx. }
  split; [done|]. pose proof Ho1 as [Hok1 Hs1]. eapply stays_trans; [done|].
  eapply (step_stays (within B)); [done|constructor|done|intros; by apply Hs1].
Qed.

Lemma held_commit x :
  held x → (settled q2 x ∧ ld8 (vis q2) x = ld8 m x) ∧
           (settled q3 x ∧ ld8 (vis q3) x = ld8 m x) ∧ settled q4 x ∧ ld8 (vis q4) x = ld8 m x.
Proof.
  intros Hx. pose proof (held_apart x Hx) as Hap. pose proof (held_clean x Hx) as Hcl.
  assert (settled q2 x ∧ ld8 (vis q2) x = ld8 m x) as [Hs2 Hv2].
  { split.
    - apply settled_barrier, written_back_write; [done|right]. cbn.
      rewrite length_le_split. offsets.
    - cbn. apply ld8_st_bytes_out. rewrite length_le_split. offsets. }
  assert (settled q3 x ∧ ld8 (vis q3) x = ld8 m x) as [Hs3 Hv3].
  { split.
    - apply settled_write; [done|]. cbn. rewrite length_le_split. offsets.
    - rewrite <- Hv2. apply (ld8_st_bytes_out (vis q2)). rewrite length_le_split. offsets. }
  split_and!; try done. by apply settled_flush.
Qed.

(** Between the store of the tail and its write-back. *)
Lemma mid_image mm :
  old (w_nvmm w) → crash_image q3 mm →
  (∀ x, held x → ld8 mm x = ld8 m x) ∧
  (ld 8 mm (pi + nova_inode.log_tail) = tail ∨ ld 8 mm (pi + nova_inode.log_tail) = new).
Proof.
  intros [_ [Hok2 Hs2]]%old_barrier Hmm. split.
  - intros x Hx. destruct (held_commit x Hx) as (_&[Hs3 <-]&_).
    eapply settled_crash; [by apply nvmm_ok_write|done|done].
  - destruct (crash_store_atomic q2 mm Cached (pi + nova_inode.log_tail) new) as [->| ->]; try done.
    + rewrite Hpi. apply Hdu.
    + intros x Hx. apply Hs2. left. unfold tail_field. lia.
    + left. rewrite <- Htail. apply ld_frame. intros x Hx. apply Hs2. left. unfold tail_field. lia.
    + right. unfold new. apply Z.mod_small. destruct Hroom as (?&?&_).
      pose proof (ca_count _ _ _ _ _ _ _ _ _ _ _ Hat) as Hc. fold len N in Hc. lia.
Qed.

(** From the write-back on. *)
Definition new_vital (x : Z) : Prop := tail_field pi x ∨ steady x.
Definition newer (q : nvmm) : Prop := stays new_vital q4 q.

Lemma newer_start : old (w_nvmm w) → newer q4.
Proof.
  intros [_ [Hok2 Hs2]]%old_barrier. apply stays_refl.
  - by apply nvmm_ok_flush, nvmm_ok_write.
  - intros x [Hx|[Hx _]]; [|by apply held_commit]. apply settled_flush_fence.
    apply written_back_store_flush.
    + apply settled_written_back, Hs2. by left.
    + cbn. rewrite length_le_split. unfold CACHELINE_SIZE. apply flush_covers_len; lia.
Qed.

(** Pointing the pages to the entries. *)
Context (h : Z) (w3 : world) (i3 : nova_inode_info).
Context (Hre : reassigned h pi (commit_world pi b new w) i es w3 i3).

Lemma commit_inv :
  file_inv (w_sbi w) (vis q4) pi t es ∧
  (∀ e q, slot m t es e q → same_fields m (vis q4) e) ∧
  ∀ x, data m t es x → ld8 (vis q4) x = ld8 m x.
Proof.
  pose proof (ca_inv _ _ _ _ _ _ _ _ _ _ _ Hat) as Hinv.
  destruct Hroom as (?&?&_). pose proof (ca_count _ _ _ _ _ _ _ _ _ _ _ Hat) as Hc. fold len N in Hc.
  destruct (commit_stores pi pos i buf w es b new Hinv) as (_&_&_&Hm&Hty); [unfold new; lia|].
  destruct (inode_stores _ _ _ _ _ _ Hinv Hm Hty) as (?&?&?&_). done.
Qed.

(** What is still in use of the file, free or spare before the commit is not
    touched behind it. *)
Lemma counts_apart x :
  counts (vis q4) pi t es x → ¬ new_vital x ∧ meta m pi t es x.
Proof.
  destruct commit_inv as (Hinv2&Hf2&Hd2).
  pose proof (ca_inv _ _ _ _ _ _ _ _ _ _ _ Hat) as Hinv.
  pose proof (frame_nums _ _ _ _ _ Hinv) as Hn. intros Hx.
  assert (counts m pi t es x) as Hm.
  { destruct Hx as [?|(e&q&Hs&Hx)]; [by left|right]. exists e, q. split; [|done].
    by apply (slot_same _ _ _ _ Hf2 Hn). }
  split.
  - intros [Ht|[_ ?]]; [|done]. unfold tail_field in Ht.
    by eapply (counts_inode _ _ _ _ _ x Hinv); [offsets..|].
  - destruct Hm as [Hm|(e&q&Hs&Hm)]; [left; offsets|]. eapply meta_entry; [done|offsets].
Qed.

Lemma reassign_states l :
  old (w_nvmm w) → nv_trace (counting (vis q4) pi t es (tree (header i3))) q4 l (w_nvmm w3) →
  ∀ q, q ∈ l ++ [w_nvmm w3] → newer q.
Proof.
  intros Ho Ht q Hq. pose proof (newer_start Ho) as Hnew. eapply stays_trans; [done|].
  eapply (trace_stays _ new_vital); [|exact Ht|apply Hnew|intros x Hx; by apply Hnew|done].
  intros a Ha x Hx Hc. by apply (counts_apart a (counting_counts _ _ _ _ _ _ _ Hx Hc)).
Qed.

Lemma commit_tail q :
  newer q → ld 8 (vis q4) (pi + nova_inode.log_tail) = new ∧
            ld 8 (vis q) (pi + nova_inode.log_tail) = new.
Proof.
  intros [_ Hn]. rewrite (ld_frame 8 (vis q4) (vis q))
    by (intros x Hx; apply Hn; left; unfold tail_field; lia).
  assert (ld 8 (vis q4) (pi + nova_inode.log_tail) = new); [|done].
  unfold q4. rewrite vis_flush. cbn. rewrite ld_st. unfold new. apply Z.mod_small.
  destruct Hroom as (?&?&_).
  pose proof (ca_count _ _ _ _ _ _ _ _ _ _ _ Hat) as Hc. fold len N in Hc. lia.
Qed.

Lemma newer_image q mm :
  newer q → crash_image q mm →
  ld 8 mm (pi + nova_inode.log_tail) = new ∧ ∀ x, steady x → ld8 mm x = ld8 m x.
Proof.
  intros Hn Hmm. pose proof (stays_crash _ _ _ _ Hn Hmm) as Hx. split.
  - rewrite (ld_frame 8 (vis q4)) by (intros x Hr; apply Hx; left; unfold tail_field; lia).
    by apply (commit_tail q).
  - intros x Hh. rewrite Hx by (by right). by apply held_commit, Hh.
Qed.

(** A medium with the entries and the data of the write. *)
Lemma steady_old mm y :
  (∀ x, steady x → ld8 mm x = ld8 m x) → file_byte mm t y = file_byte m0 t y.
Proof.
  intros Hh. rewrite (image_byte m mm t es) by (intros; by apply Hh, steady_file).
  apply (ca_byte _ _ _ _ _ _ _ _ _ _ _ Hat).
Qed.

Lemma steady_new mm :
  (∀ x, steady x → ld8 mm x = ld8 m x) → ld 8 mm (pi + nova_inode.log_tail) = new →
  denotes mm pi new (tree (header i3)) (pass_bytes t m0 pos len buf).
Proof.
  intros Hh Ht. split; [done|]. intros y. rewrite (ra_header _ _ _ _ _ _ _ Hre). cbn.
  apply (final_bytes w0 pi pos tail i buf R w c es (vis q4) mm y Hat).
  - intros x Hx. apply Hh, steady_file. by right.
  - apply commit_inv.
  - apply (image_fields m mm t es). intros; by apply Hh, steady_file.
Qed.

(** The stores up to the write-back of the tail. *)
Definition before_commit (x : Z) : Prop :=
  block_free (w_sbi w0) (x / 4096) ∨ tail ≤ x < tail + 40 * R ∨
  pi + nova_inode.i_blocks ≤ x < pi + nova_inode.i_blocks + 8 ∨ tail_field pi x.

Lemma commit_trace l :
  nv_trace (within (λ x, block_free (w_sbi w0) (x / 4096) ∨ tail ≤ x < tail + 40 * R))
    (w_nvmm w0) l (w_nvmm w) →
  nv_trace (within before_commit) (w_nvmm w0) (l ++ [w_nvmm w; q1; q2; q3]) q4.
Proof.
  intros Ht. eapply nv_trace_app.
  - eapply nv_trace_mono; [|exact Ht]. intros x Hx a [?|?]%Hx; [by left|by right; left].
  - assert (∀ a v, within before_commit (WBytes a (le_split 8 v)) ↔
      ∀ x, a ≤ x < a + 8 → before_commit x) as Hw
      by (intros a v; unfold within; cbn; by rewrite length_le_split).
    apply (trace_cons _ _ q1); [apply nv_write, Hw; intros x Hx; by right; right; left|].
    apply (trace_cons _ _ q2); [apply nv_barrier|].
    apply (trace_cons _ _ q3); [apply nv_write, Hw; intros x Hx; by right; right; right|].
    apply (trace_cons _ _ q4); [apply nv_flush|apply trace_nil].
Qed.

(** Every state, from the start of the write to its end: up to the write-back
    of the tail, and behind it. *)
Lemma write_phases :
  ∃ l1 l2, w_hist w3 = w_hist w0 ++ l1 ++ l2 ∧
    nv_trace (within before_commit) (w_nvmm w0) l1 q4 ∧
    nv_trace (counting (vis q4) pi t es (tree (header i3))) q4 l2 (w_nvmm w3) ∧
    (∀ q mm, q ∈ l1 → crash_image q mm →
       denotes mm pi tail t (file_byte m0 t) ∨
       ld 8 mm (pi + nova_inode.log_tail) = new ∧ ∀ x, held x → ld8 mm x = ld8 m x) ∧
    (∀ q, q ∈ l2 ++ [w_nvmm w3] → newer q).
Proof.
  destruct (loop_states w c es _ Hat) as (l1&Hl1&Hold).
  destruct (td_traces _ _ _ (ca_tidy _ _ _ _ _ _ _ _ _ _ _ Hat)) as (l&Hl&Ht1).
  assert (l = l1) as -> by (rewrite Hl1 in Hl; by simplify_list_eq).
  assert (old (w_nvmm w)) as Ho by (apply Hold; set_solver).
  destruct (old_barrier Ho) as [Ho1 Ho2].
  destruct (ra_traces _ _ _ _ _ _ _ Hre) as (l2&Hl2&Ht2).
  exists (l1 ++ [w_nvmm w; q1; q2; q3]), l2. split_and!; [| |done| |by apply reassign_states].
  - rewrite Hl2. unfold commit_world. cbn [w_hist set_nvmm]. rewrite Hl1. by rewrite <- !app_assoc.
  - by apply commit_trace.
  - intros q mm Hq Hmm. assert (old q ∨ q = q3) as [Hq'| ->].
    { apply elem_of_app in Hq as [Hq|Hq]; [left; apply Hold; set_solver|].
      rewrite !elem_of_cons in Hq. destruct Hq as [->|[->|[->|[->|Hq]]]]; auto.
      by apply not_elem_of_nil in Hq. }
    + left. by apply (old_image q).
    + destruct (mid_image mm Ho Hmm) as [Hh [Ht|Ht]]; [left|by right]. split; [done|].
      intros y. apply steady_old. intros x [Hx _]. by apply Hh.
Qed.

Lemma write_states :
  ∃ l, w_hist w3 = w_hist w0 ++ l ∧
    (∀ q mm, q ∈ l ++ [w_nvmm w3] → crash_image q mm →
       denotes mm pi tail t (file_byte m0 t) ∨
       denotes mm pi new (tree (header i3)) (pass_bytes t m0 pos len buf)) ∧
    newer (w_nvmm w3) ∧
    ∀ mm, crash_image (w_nvmm w3) mm →
      denotes mm pi new (tree (header i3)) (pass_bytes t m0 pos len buf).
Proof.
  assert (∀ q mm, newer q → crash_image q mm →
    denotes mm pi new (tree (header i3)) (pass_bytes t m0 pos len buf)) as Hden.
  { intros q mm Hq Hmm. destruct (newer_image q mm Hq Hmm). by apply steady_new. }
  destruct write_phases as (l1&l2&Hl&_&_&Hold&Hnew). exists (l1 ++ l2). split; [done|].
  assert (newer (w_nvmm w3)) as Hlast by (apply Hnew; set_solver).
  split; [|split; [done|intros mm; by apply Hden]]. intros q mm Hq Hmm.
  rewrite <- app_assoc in Hq. apply elem_of_app in Hq as [Hq|Hq]; [|right; by eauto].
  destruct (Hold q mm Hq Hmm) as [?|[Ht Hh]]; [by left|right]. apply steady_new; [|done].
  intros x [Hx _]. by apply Hh.
Qed.

(** What the next write finds. *)
Lemma new_slot e q : tree (header i3) !! q = Some e → slot m t es e q.
Proof.
  destruct commit_inv as (_&Hf2&_). pose proof (ca_inv _ _ _ _ _ _ _ _ _ _ _ Hat) as Hinv.
  rewrite (ra_header _ _ _ _ _ _ _ Hre). cbn. fold t. rewrite (foldl_point_ext m (vis q4))
    by (intros e0 He0; by eapply Hf2, (fresh_slot _ _ _ _ _ Hinv)).
  destruct (lookup_points m es t q) as [(e'&He'&Hq&->)|[_ ->]]; [|by left].
  intros [= ->]. by right.
Qed.

Lemma vital_new x :
  newer (w_nvmm w3) → vital (vis (w_nvmm w3)) pi (tree (header i3)) [] x → new_vital x.
Proof.
  intros [_ Hn] [Hx|Hx]; [by left|right]. apply steady_file.
  destruct Hx as [(e&q&[He|[[]%not_elem_of_nil _]]&Hx)|(e&q&[He|[[]%not_elem_of_nil _]]&Hx)];
    [left|right]; exists e, q; (split; [by apply new_slot|]); [done|].
  rewrite <- Hx. symmetry. apply page_block_fields, same_fields_frame. intros y Hy.
  assert (steady y) as Hs
    by (apply steady_file; left; exists e, q; split; [by apply new_slot|done]).
  destruct (Hn y (or_intror Hs)) as [_ ->]. by apply held_commit, Hs.
Qed.

Lemma clean_after x :
  ¬ meta m pi t es x → written_back (w_nvmm w) x → written_back (w_nvmm w3) x.
Proof.
  intros Hn Hw. assert (¬ pi ≤ x < pi + nova_inode.sizeof) by (intros ?; apply Hn; by left).
  destruct (ra_traces _ _ _ _ _ _ _ Hre) as (l&_&Ht). eapply trace_written_back; [exact Ht| |].
  - intros y Hy Hc. by apply Hn, counts_apart, (counting_counts _ _ _ _ _ _ _ Hy Hc).
  - apply settled_written_back, settled_flush_fence, written_back_flush, written_back_write.
    + apply settled_written_back, settled_barrier, written_back_write; [done|]. right.
      cbn. rewrite length_le_split. offsets.
    + right. cbn. rewrite length_le_split. offsets.
Qed.

Lemma durable_after k w' i' :
  newer (w_nvmm w3) → w_nvmm w' = w_nvmm w3 → w_sbi w' = w_sbi w3 →
  tree (header i') = tree (header i3) → pi_addr (header i') = pi →
  Z.of_nat (length es) + k ≤ R → durable w' i' k.
Proof.
  intros Hn En Es Et Ep Hk. destruct (commit_tail _ Hn) as [_ Htl]. pose proof (ca_inv _ _ _ _ _ _ _ _ _ _ _ Hat) as Hinv.
  assert (∀ x, block_free (w_sbi w0) (x / 4096) ∨ tail ≤ x < tail + 40 * R →
    written_back (w_nvmm w) x) as Hcl.
  { intros x Hx. apply (td_clean _ _ _ (ca_tidy _ _ _ _ _ _ _ _ _ _ _ Hat)).
    destruct Hx as [Hx|Hx]; [by apply (du_free _ _ _ Hdu)|]. apply (du_room _ _ _ Hdu tail); [|done].
    by rewrite <- Hpi. }
  split; rewrite ?En, ?Es, ?Et, ?Ep.
  - apply Hn.
  - rewrite Hpi. apply Hdu.
  - intros x Hx. by apply Hn, vital_new.
  - intros x [Hx|(e&q&Hs&Hx)]%(ra_free _ _ _ _ _ _ _ Hre).
    + apply clean_after; [by apply (free_not_held _ _ _ _ _ Hinv)|]. apply Hcl. left.
      by apply (ca_free _ _ _ _ _ _ _ _ _ _ _ Hat).
    + apply settled_written_back, Hn. right. apply steady_file. right. exists e, q. rewrite Z.div_mul in Hx by lia.
      destruct commit_inv as (_&Hf2&_). pose proof (frame_nums _ _ _ _ _ Hinv) as Hnum.
      apply (slot_same _ _ _ _ Hf2 Hnum) in Hs. split; [done|].
      transitivity (page_block (vis q4) e q); [|done].
      symmetry. by apply page_block_fields, (Hf2 e q).
  - intros tl x Htl' Hx. rewrite Htl in Htl'. subst tl.
    assert (new ≤ x < tail + 40 * R ∧ tail ≤ new) by (unfold new in *; lia).
    apply clean_after; [|apply Hcl; lia]. apply (ca_spare _ _ _ _ _ _ _ _ _ _ _ Hat). fold new. lia.
Qed.
End commit.
End states.

(** A write that found no space. *)
Lemma durable_abort w0 pi pos tail i buf R w c es g w' i' :
  pi = pi_addr (header i) → ld 8 (vis (w_nvmm w0)) (pi + nova_inode.log_tail) = tail →
  file_inv (w_sbi w0) (vis (w_nvmm w0)) pi (tree (header i)) [] →
  spare (w_sbi w0) (vis (w_nvmm w0)) pi (tree (header i)) [] tail (tail + 40 * R) →
  durable w0 i R → cow_at w0 pi pos tail i buf R w c es g →
  w_nvmm w' = w_nvmm w → w_sbi w' = w_sbi w → header i' = header i → durable w' i' R.
Proof.
  intros Hpi Htail Hinv0 Hsp0 Hdu Hat En Es Eh.
  destruct (loop_states w0 pi pos tail i buf R Hpi Hinv0 Hsp0 Hdu w c es g Hat) as (l&_&Hold).
  destruct (Hold (w_nvmm w) ltac:(set_solver)) as [Hok Hst].
  assert (∀ x, block_free (w_sbi w0) (x / 4096) ∨ tail ≤ x < tail + 40 * R →
    written_back (w_nvmm w) x) as Hcl.
  { intros x Hx. apply (td_clean _ _ _ (ca_tidy _ _ _ _ _ _ _ _ _ _ _ Hat)).
    destruct Hx as [Hx|Hx]; [by apply (du_free _ _ _ Hdu)|]. apply (du_room _ _ _ Hdu tail); [|done].
    by rewrite <- Hpi. }
  assert (∀ e q, slot (vis (w_nvmm w0)) (tree (header i)) [] e q →
    same_fields (vis (w_nvmm w0)) (vis (w_nvmm w)) e) as Hf.
  { intros e q Hs. apply same_fields_frame. intros x Hx. apply Hst. right. left. by exists e, q. }
  assert (∀ e : Z, e ∈ [] → 1 ≤ we_num (vis (w_nvmm w0)) e) as Hn by set_solver.
  split; rewrite ?En, ?Es, ?Eh; rewrite <- ?Hpi; try done.
  - rewrite Hpi. apply Hdu.
  - intros x Hx. apply Hst. destruct Hx as [Hx|[(e&q&Hs&Hx)|Hx]]; [by left|right; left|right; right].
    + exists e, q. split; [by apply (slot_same _ _ _ _ Hf Hn)|done].
    + by apply (data_same _ _ _ _ Hf Hn).
  - intros x Hx%(ca_free _ _ _ _ _ _ _ _ _ _ _ Hat). apply Hcl. by left.
  - intros tl x Htl Hx. apply Hcl. right. replace tail with tl; [done|].
    rewrite <- Htl, <- Htail. apply ld_frame. intros y Hy. apply Hst. left. unfold tail_field. lia.
Qed.

Lemma durable_same w i n w' i' :
  durable w i n → w_nvmm w' = w_nvmm w → w_sbi w' = w_sbi w → header i' = header i →
  durable w' i' n.
Proof. intros [] En Es Eh. by split; rewrite ?En, ?Es, ?Eh. Qed.

Section theorems.
Context `{RbTreeLaws} `{EnvLaws} `{Uaccess}.

End theorems.

Section instances.
#[local] Existing Instances bst_rb bst_rb_laws env1 env1_laws uaccess1.

Lemma boot_settled m x : settled (nvmm_boot m) x.
Proof. constructor. Qed.

Lemma cow_world_durable : durable cow_world cow_inode 2.
Proof.
  split; [reflexivity|reflexivity|..]; intros; try apply settled_written_back; apply boot_settled.
Qed.

End instances.
