(* ===== verification/File.v ===== *)
(** * File operations and symbolic links (file.c, symlink.c) *)
From S2P Require Import Prelude Nvmm RangeTree Layout World Balloc Log FileTree Inode.
From S2P Require Import Dax.

Definition CACHELINE_MASK : Z := Z.lnot (CACHELINE_SIZE - 1).
Definition CACHELINE_ALIGN (addr : Z) : Z :=
  Z.land (addr + CACHELINE_SIZE - 1) CACHELINE_MASK.

Section file.
Context `{RbTree} `{Env} `{Uaccess}.

(** ** Flushing a mapped file *)

(** The loop of [nova_fsync]: [None] goes to the label [persist]. *)
Fixpoint fsync_loop (fuel : nat) (h start end_ : Z) : M (option Z) :=
  match fuel with
  | O => stop HFuel
  | S fuel =>
    let pgoff := Z.shiftr start PAGE_SHIFT in
    let offset := Z.land start (PAGE_SIZE - 1) in
    entry ← nova_get_write_entry h pgoff;
    r ← match entry with
        | Some e => mret (Some (e, pgoff, start, offset))
        | None =>
          entry ← nova_find_next_entry h pgoff;
          match entry with
          | None => mret None
          | Some e =>
            pgoff ← load 8 (e + nova_file_write_entry.pgoff);
            let start := s64 (Z.shiftl pgoff PAGE_SHIFT) in
            if decide (end_ ≤ start) then mret None else mret (Some (e, pgoff, start, 0))
          end
        end;
    match r with
    | None => mret None
    | Some (e, pgoff, start, offset) =>
      entry_pgoff ← load 8 (e + nova_file_write_entry.pgoff);
      num ← load 4 (e + nova_file_write_entry.num_pages);
      if decide (pgoff < entry_pgoff ∨ num ≤ u64 (pgoff - entry_pgoff))
      then mret (Some (- EINVAL)) else
      invalid ← load 4 (e + nova_file_write_entry.invalid_pages);
      let avail_bytes :=
        if decide (invalid = 0)
        then u64 ((num - (pgoff - entry_pgoff)) * PAGE_SIZE - offset)
        else u64 (PAGE_SIZE - offset) in
      let nr_flush_bytes := u64 (end_ - start) in
      let nr_flush_bytes := if decide (nr_flush_bytes > avail_bytes) then avail_bytes
                            else nr_flush_bytes in
      nvmm ← get_nvmm e pgoff;
      (if decide (nr_flush_bytes ≠ 0) then
         dax_mem ← block_ptr (u64 (Z.shiftl nvmm PAGE_SHIFT));
         flush_buffer (dax_mem + offset) nr_flush_bytes false
       else mret ()) ;;
      let start := start + nr_flush_bytes in
      if decide (start < end_) then fsync_loop fuel h start end_ else mret None
    end
  end.

(** After the first pass each one but the last covers whole pages. *)
Definition nova_fsync (h start end_ : Z) : M Z :=
  mapped ← ask mapping_mapped;
  if negb mapped then barrier ;; mret 0 else
  v ← get_vfs h;
  let isize := v_size v in
  let end_ := end_ + 1 in
  let end_ := if decide (u64 end_ > u64 isize) then isize else end_ in
  if decide (isize = 0 ∨ end_ ≤ start) then mret (- ENODATA) else
  let start := Z.land start CACHELINE_MASK in
  let end_ := CACHELINE_ALIGN end_ in
  r ← fsync_loop (S (S (Z.to_nat ((end_ - start) / PAGE_SIZE)))) h start end_;
  match r with
  | Some e => mret e
  | None => barrier ;; mret 0
  end.

Definition nova_flush : M Z := barrier ;; mret 0.

(** ** Block size hints *)
Definition nova_can_set_blocksize_hint (h : Z) : M bool :=
  sih ← get_sih h; mret (bool_decide (sih_size sih ≤ 0)).

Definition nova_set_blocksize_hint (h pi new_size : Z) : M Z :=
  can ← nova_can_set_blocksize_hint h;
  if negb can then mret 0 else
  let block_type := if decide (0x40000000 ≤ new_size) then NOVA_BLOCK_TYPE_1G
                    else if decide (0x200000 ≤ new_size) then NOVA_BLOCK_TYPE_2M
                    else NOVA_BLOCK_TYPE_4K in
  store 1 (pi + nova_inode.i_blk_type) block_type ;;
  mret 0.

(** [SEEK_DATA] ([hole = false]) and [SEEK_HOLE]; the result of
    [nova_find_region] is stored in an [int].  Returns the result and
    [file->f_pos]. *)
Definition nova_llseek (h offset f_pos s_maxbytes : Z) (hole : bool) : M (Z * Z) :=
  r ← nova_find_region h offset hole;
  match r with
  | (ret, offset) =>
    let retval := s32 ret in
    if decide (retval ≠ 0) then mret (retval, f_pos) else
    if decide (offset < 0 ∨ offset > s_maxbytes) then mret (- EINVAL, f_pos)
    else mret (offset, offset)
  end.

(** ** Symbolic links: the target is the content of the first block *)
Definition nova_block_symlink (pi h log_block name_blocknr : Z) (symname : list Z) : M Z :=
  let len := Z.of_nat (length symname) in
  blockp ← block_ptr (nova_get_block_off name_blocknr);
  store_bytes_nt blockp symname ;;
  store 1 (blockp + len) 0 ;;
  let block := log_block in
  entry ← block_ptr block;
  store 8 (entry + nova_file_write_entry.pgoff) 0 ;;
  store 4 (entry + nova_file_write_entry.num_pages) 1 ;;
  store 4 (entry + nova_file_write_entry.invalid_pages) 0 ;;
  store 8 (entry + nova_file_write_entry.block) (nova_get_block_off name_blocknr) ;;
  time ← get_time;
  store 4 (entry + nova_file_write_entry.mtime) time ;;
  store 1 entry FILE_WRITE ;;
  store 8 (entry + nova_file_write_entry.size) (len + 1) ;;
  flush_buffer entry CACHELINE_SIZE false ;;
  update_sih h (sih_set_log_pages 1) ;;
  store 8 (pi + nova_inode.log_head) block ;;
  nova_update_tail pi (u64 (block + nova_file_write_entry.sizeof)) ;;
  mret 0.

(** Where the target starts; [nova_readlink] copies it to the user. *)
Definition nova_get_link (h : Z) : M Z :=
  p ← nova_get_inode h; pi ← deref p;
  log_head ← load 8 (pi + nova_inode.log_head);
  entry ← block_ptr log_head;
  block ← load 8 (entry + nova_file_write_entry.block);
  block_ptr (BLOCK_OFF block).
End file.
