(* ===== verification/Namei.v ===== *)
(** * Operations on names (namei.c)

    Each operation appends to the logs of the inodes concerned and then, in
    one journal transaction, moves their log tails and sets the [valid]
    flags. *)
From S2P Require Import Prelude Nvmm RangeTree Layout World Balloc Log FileTree Inode.
From S2P Require Import Journal InodeMap Dir Rebuild InodeCycle Dax File.

(** [addrs[i] | size << 56] *)
Definition journal_addr (addr size : Z) : Z := Z.lor addr (Z.shiftl size 56).
Definition zero_entry : lite_entry := LiteEntry [0; 0; 0; 0] [0; 0; 0; 0].
Definition set_field (i : nat) (addr size value : Z) (e : lite_entry) : lite_entry :=
  LiteEntry (<[i := journal_addr addr size]> (le_addrs e))
    (<[i := value]> (le_values e)).

(** Stores a new log tail and writes its line back. *)
Definition set_log_tail (pi tail : Z) : M () :=
  store 8 (pi + nova_inode.log_tail) tail ;;
  flush_buffer (pi + nova_inode.log_tail) CACHELINE_SIZE false.
Definition set_valid (pi v : Z) : M () :=
  store 1 (pi + nova_inode.valid) v ;;
  flush_buffer (pi + nova_inode.valid) CACHELINE_SIZE false.

Section namei.
Context `{RbTree} `{Env} `{Vfs} `{Uaccess}.

(** ** Looking up *)

(** The inode number, 0 if the name is not there, and the entry. *)
Definition nova_inode_by_name (dir : Z) (name : list Z) : M (Z * option Z) :=
  direntry ← nova_find_dentry dir name;
  match direntry with
  | None => mret (0, None)
  | Some e => ino ← load 8 (e + nova_dentry.ino); mret (ino, Some e)
  end.

(** [inl] is an error, [inr] what [d_splice_alias] gets. *)
Definition nova_lookup (dir : Z) (d : dentry) : M (Z + option Z) :=
  if decide (Z.of_nat (length (d_name d)) > NOVA_NAME_LEN)
  then mret (inl (- ENAMETOOLONG)) else
  r ← nova_inode_by_name dir (d_name d);
  if decide (r.1 = 0) then mret (inr None) else
  i ← nova_iget r.1;
  match i with
  | inl e => mret (inl (if decide (e ∈ [- ESTALE; - ENOMEM; - EACCES]) then - EIO else e))
  | inr h => mret (inr (Some h))
  end.

(** ** New inodes *)
Definition nova_lite_transaction_for_new_inode (pi pidir pidir_tail : Z) : M () :=
  dir_tail ← load 8 (pidir + nova_inode.log_tail);
  valid ← load 1 (pi + nova_inode.valid);
  let entry := set_field 1 (pi + nova_inode.valid) 1 valid
                 (set_field 0 (pidir + nova_inode.log_tail) 8 dir_tail zero_entry) in
  cpu ← get_cpu;
  journal_tail ← nova_create_lite_transaction entry zero_entry 1 cpu;
  set_log_tail pidir pidir_tail ;;
  set_valid pi 1 ;;
  barrier ;;
  nova_commit_lite_transaction journal_tail cpu.

(** [nova_create], and [nova_mknod], which differ in [type] and [rdev].  When
    the inode cannot be allocated, or the VFS has none, [err] is 0. *)
Definition create_inode (type : nova_new_inode_type) (dir : Z) (d : dentry)
    (mode rdev : Z) : M Z :=
  p ← nova_get_inode dir;
  match p with
  | None => mret 0
  | Some pidir =>
    r ← nova_new_nova_inode;
    match r with
    | (ino, pi_addr) =>
      if decide (ino = 0) then mret 0 else
      let pi_addr := default 0 pi_addr in
      r ← nova_add_dentry d ino 0 0;
      match r with
      | (err, tail) =>
        if decide (err ≠ 0) then mret err else
        i ← nova_new_vfs_inode type dir pi_addr ino mode 0 rdev;
        match i with
        | inl _ => mret err
        | inr _ =>
          pi ← block_ptr pi_addr;
          nova_lite_transaction_for_new_inode pi pidir (default 0 tail) ;;
          mret err
        end
      end
    end
  end.

Definition nova_create (dir : Z) (d : dentry) (mode : Z) : M Z :=
  create_inode TYPE_CREATE dir d mode 0.
Definition nova_mknod (dir : Z) (d : dentry) (mode rdev : Z) : M Z :=
  create_inode TYPE_MKNOD dir d mode rdev.

Definition S_IRWXUGO : Z := 0x1FF.

(** The part of [nova_symlink] behind the new VFS inode [h]. *)
Definition symlink_content (h pidir tail : Z) (symname : list Z) : M Z :=
  p ← nova_get_inode h; pi ← deref p;
  r ← nova_allocate_inode_log_pages pi 1;
  match r with
  | (allocated, log_block) =>
    let log_block := default 0 log_block in
    if decide (allocated ≠ 1 ∨ log_block = 0) then mret allocated else
    btype ← load 1 (pi + nova_inode.i_blk_type);
    r ← nova_new_data_blocks btype 1 true;
    match r with
    | (allocated, name_blocknr) =>
      let name_blocknr := default 0 name_blocknr in
      if decide (allocated ≠ 1 ∨ name_blocknr = 0) then
        _ ← nova_free_log_blocks btype (Z.shiftr log_block PAGE_SHIFT) 1;
        mret allocated
      else
        store 8 (pi + nova_inode.i_blocks) 2 ;;
        _ ← nova_block_symlink pi h log_block name_blocknr symname;
        nova_lite_transaction_for_new_inode pi pidir tail ;;
        mret 0
    end
  end.

Definition nova_symlink (dir : Z) (d : dentry) (symname : list Z) : M Z :=
  let err := - ENAMETOOLONG in
  let len := Z.of_nat (length symname) in
  if decide (len + 1 > PAGE_SIZE) then mret err else
  p ← nova_get_inode dir;
  match p with
  | None => mret err
  | Some pidir =>
    r ← nova_new_nova_inode;
    match r with
    | (ino, pi_addr) =>
      if decide (ino = 0) then mret err else
      r ← nova_add_dentry d ino 0 0;
      match r with
      | (err, tail) =>
        if decide (err ≠ 0) then mret err else
        i ← nova_new_vfs_inode TYPE_SYMLINK dir (default 0 pi_addr) ino
              (Z.lor S_IFLNK S_IRWXUGO) len 0;
        match i with
        | inl e => mret e
        | inr h => symlink_content h pidir (default 0 tail) symname
        end
      end
    end
  end.

Definition nova_mkdir (dir : Z) (d : dentry) (mode : Z) : M Z :=
  let err := - EMLINK in
  dv ← get_vfs dir;
  if decide (NOVA_LINK_MAX ≤ v_nlink dv) then mret err else
  r ← nova_new_nova_inode;
  match r with
  | (ino, pi_addr) =>
    if decide (ino = 0) then mret err else
    let pi_addr := default 0 pi_addr in
    r ← nova_add_dentry d ino 1 0;
    match r with
    | (err, tail) =>
      if decide (err ≠ 0) then mret err else
      i ← nova_new_vfs_inode TYPE_MKDIR dir pi_addr ino (Z.lor S_IFDIR mode) PAGE_SIZE 0;
      match i with
      | inl e => mret e
      | inr h =>
        p ← nova_get_inode h; pi ← deref p;
        v ← get_vfs h;
        _ ← nova_append_dir_init_entries pi (v_ino v) (v_ino dv);
        _ ← nova_rebuild_dir_inode_tree pi pi_addr h;
        p ← nova_get_inode dir; pidir ← deref p;
        i_blocks ← load 8 (pidir + nova_inode.i_blocks);
        update_vfs dir (λ v, vfs_set_nlink (u32 (v_nlink v + 1))
                               (vfs_set_blocks i_blocks v)) ;;
        nova_lite_transaction_for_new_inode pi pidir (default 0 tail) ;;
        mret err
      end
    end
  end.

(** ** Links *)
Definition nova_lite_transaction_for_time_and_link (pi pidir pi_tail pidir_tail : Z)
    (invalidate : bool) : M () :=
  old_tail ← load 8 (pi + nova_inode.log_tail);
  dir_tail ← load 8 (pidir + nova_inode.log_tail);
  valid ← load 1 (pi + nova_inode.valid);
  let entry := set_field 1 (pidir + nova_inode.log_tail) 8 dir_tail
                 (set_field 0 (pi + nova_inode.log_tail) 8 old_tail zero_entry) in
  let entry := if invalidate then set_field 2 (pi + nova_inode.valid) 1 valid entry
               else entry in
  cpu ← get_cpu;
  journal_tail ← nova_create_lite_transaction entry zero_entry 1 cpu;
  set_log_tail pi pi_tail ;;
  set_log_tail pidir pidir_tail ;;
  when invalidate (set_valid pi 0) ;;
  barrier ;;
  nova_commit_lite_transaction journal_tail cpu.

(** Returns the error and [*new_tail]. *)
Definition nova_append_link_change_entry (pi h tail : Z) : M (Z * option Z) :=
  let size := nova_link_change_entry.sizeof in
  curr_p ← nova_get_append_head pi h tail size;
  if decide (curr_p = 0) then mret (- ENOMEM, None) else
  entry ← block_ptr curr_p;
  v ← get_vfs h;
  store 1 (entry + nova_link_change_entry.entry_type) LINK_CHANGE ;;
  store 2 (entry + nova_link_change_entry.links) (v_nlink v) ;;
  store 4 (entry + nova_link_change_entry.ctime) (v_ctime v) ;;
  store 4 (entry + nova_link_change_entry.flags) (v_flags v) ;;
  store 4 (entry + nova_link_change_entry.generation) (v_generation v) ;;
  flush_buffer entry size false ;;
  update_sih h (sih_set_last_link_change curr_p) ;;
  mret (0, Some (u64 (curr_p + size))).

Definition set_ctime (h t : Z) : M () :=
  update_vfs h (λ v, vfs_set_times (v_atime v) (v_mtime v) t v).
Definition add_nlink (h d : Z) : M () :=
  update_vfs h (λ v, vfs_set_nlink (u32 (v_nlink v + d)) v).
(** [drop_nlink] unless the count is 0. *)
Definition drop_nlink_if (h : Z) : M () :=
  v ← get_vfs h; if decide (v_nlink v ≠ 0) then add_nlink h (-1) else mret ().

(** [dest] is the inode of [dest_dentry]. *)
Definition nova_link (dest dir : Z) (d : dentry) : M Z :=
  v ← get_vfs dest;
  p ← nova_get_inode dest;
  if decide (NOVA_LINK_MAX ≤ v_nlink v) then mret (- EMLINK) else
  pd ← nova_get_inode dir;
  match pd with
  | None => mret (- EINVAL)
  | Some pidir =>
    r ← nova_add_dentry d (v_ino v) 0 0;
    match r with
    | (err, pidir_tail) =>
      if decide (err ≠ 0) then mret err else
      t ← get_time;
      set_ctime dest t ;;
      add_nlink dest 1 ;;
      pi ← deref p;
      r ← nova_append_link_change_entry pi dest 0;
      match r with
      | (err, pi_tail) =>
        if decide (err ≠ 0) then mret err else
        nova_lite_transaction_for_time_and_link pi pidir (default 0 pi_tail)
          (default 0 pidir_tail) false ;;
        mret err
      end
    end
  end.

Definition nova_unlink (dir : Z) (d : dentry) : M Z :=
  inode ← deref (d_inode d);
  p ← nova_get_inode inode;
  pd ← nova_get_inode dir;
  match pd with
  | None => mret (- ENOMEM)
  | Some pidir =>
    r ← nova_remove_dentry d 0 0;
    match r with
    | (retval, pidir_tail) =>
      if decide (retval ≠ 0) then mret retval else
      dv ← get_vfs dir;
      set_ctime inode (v_ctime dv) ;;
      v ← get_vfs inode;
      let invalidate := bool_decide (v_nlink v = 1) in
      drop_nlink_if inode ;;
      pi ← deref p;
      r ← nova_append_link_change_entry pi inode 0;
      match r with
      | (retval, pi_tail) =>
        if decide (retval ≠ 0) then mret retval else
        nova_lite_transaction_for_time_and_link pi pidir (default 0 pi_tail)
          (default 0 pidir_tail) invalidate ;;
        mret 0
      end
    end
  end.

(** ** Removing directories *)
Fixpoint all_init_entries (entries : list (Z * Z)) : M bool :=
  match entries with
  | [] => mret true
  | (_, e) :: entries =>
      init ← is_dir_init_entry e;
      if (init : bool) then all_init_entries entries else mret false
  end.

Definition nova_empty_dir (h : Z) : M bool :=
  sih ← get_sih h;
  let entries := tree_gang 4 0 (tree sih) in
  if decide (2 < length entries)%nat then mret false else all_init_entries entries.

Definition nova_rmdir (dir : Z) (d : dentry) : M Z :=
  inode ← deref (d_inode d);
  p ← nova_get_inode inode;
  pd ← nova_get_inode dir;
  match pd with
  | None => mret (- EINVAL)
  | Some pidir =>
    r ← nova_inode_by_name dir (d_name d);
    if decide (r.1 = 0) then mret (- ENOENT) else
    empty ← nova_empty_dir inode;
    if negb empty then mret (- ENOTEMPTY) else
    r ← nova_remove_dentry d (-1) 0;
    match r with
    | (err, pidir_tail) =>
      if decide (err ≠ 0) then mret err else
      dv ← get_vfs dir;
      update_vfs inode (vfs_set_nlink 0) ;;
      set_ctime inode (v_ctime dv) ;;
      drop_nlink_if dir ;;
      nova_delete_dir_tree inode ;;
      pi ← deref p;
      r ← nova_append_link_change_entry pi inode 0;
      match r with
      | (err, pi_tail) =>
        if decide (err ≠ 0) then mret err else
        nova_lite_transaction_for_time_and_link pi pidir (default 0 pi_tail)
          (default 0 pidir_tail) true ;;
        mret err
      end
    end
  end.

(** ** Renaming *)

(** The inodes a rename commits: the journal records their old values. *)
Record rename_state := Rename {
  rn_old_pi : Z; rn_old_pidir : Z; rn_new_pidir : Z; rn_new_pi : option Z;
  rn_father : option Z;       (** the [..] entry, when the parent changes *)
  rn_drop : bool;             (** the replaced inode has no links left *)
  rn_same_dir : bool;
  rn_old_pi_tail : Z; rn_old_tail : Z; rn_new_tail : Z; rn_new_pi_tail : Z
}.

Definition rename_commit (r : rename_state) (new_dir_ino : Z) : M () :=
  t0 ← load 8 (rn_old_pi r + nova_inode.log_tail);
  t1 ← load 8 (rn_old_pidir r + nova_inode.log_tail);
  t2 ← load 8 (rn_new_pidir r + nova_inode.log_tail);
  let entry := set_field 1 (rn_old_pidir r + nova_inode.log_tail) 8 t1
                 (set_field 0 (rn_old_pi r + nova_inode.log_tail) 8 t0 zero_entry) in
  entry ← (if rn_same_dir r then mret entry else
             let entry := set_field 2 (rn_new_pidir r + nova_inode.log_tail) 8 t2 entry in
             match rn_father r with
             | None => mret entry
             | Some f =>
                 ino ← load 8 (f + nova_dentry.ino);
                 mret (set_field 3 (f + nova_dentry.ino) 8 ino entry)
             end);
  entry1 ← match rn_new_pi r with
           | None => mret zero_entry
           | Some np =>
               tail ← load 8 (np + nova_inode.log_tail);
               valid ← load 1 (np + nova_inode.valid);
               let e := set_field 0 (np + nova_inode.log_tail) 8 tail zero_entry in
               mret (if rn_drop r then set_field 1 (np + nova_inode.valid) 1 valid e else e)
           end;
  cpu ← get_cpu;
  journal_tail ← nova_create_lite_transaction entry entry1
                   (match rn_new_pi r with Some _ => 2 | None => 1 end) cpu;
  set_log_tail (rn_old_pi r) (rn_old_pi_tail r) ;;
  set_log_tail (rn_old_pidir r) (rn_old_tail r) ;;
  (if decide (rn_old_pidir r ≠ rn_new_pidir r)
   then set_log_tail (rn_new_pidir r) (rn_new_tail r) else mret ()) ;;
  (match rn_father r with
   | None => mret ()
   | Some f =>
       store 8 (f + nova_dentry.ino) new_dir_ino ;;
       flush_buffer f (NOVA_DIR_LOG_REC_LEN 2) false
   end) ;;
  (match rn_new_pi r with
   | None => mret ()
   | Some np =>
       set_log_tail np (rn_new_pi_tail r) ;;
       when (rn_drop r) (set_valid np 0)
   end) ;;
  barrier ;;
  nova_commit_lite_transaction journal_tail cpu.

(** The replaced inode loses a link, a directory two; [inl] is an error. *)
Definition rename_replaced (is_dir : bool) (new_inode : option Z)
  : M (Z + option Z * bool * Z) :=
  match new_inode with
  | None => mret (inr (None, false, 0))
  | Some ni =>
    p ← nova_get_inode ni; new_pi ← deref p;
    t ← get_time;
    set_ctime ni t ;;
    (if is_dir then drop_nlink_if ni else mret ()) ;;
    drop_nlink_if ni ;;
    r ← nova_append_link_change_entry new_pi ni 0;
    match r with
    | (err, new_pi_tail) =>
      if decide (err ≠ 0) then mret (inl err) else
      v ← get_vfs ni;
      mret (inr (Some new_pi, bool_decide (v_nlink v = 0), default 0 new_pi_tail))
    end
  end.

(** Moving the name: removes what it replaces, adds it, removes the old one;
    returns [old_tail] and [new_tail]. *)
Definition rename_dentries (old_dir new_dir ino : Z) (old_d new_d : dentry)
    (is_dir : bool) : M (Z + Z * Z) :=
  r ← (match d_inode new_d with
       | None => mret (0, Some 0)
       | Some _ => nova_remove_dentry new_d 0 0
       end);
  match r with
  | (err, new_tail) =>
    if decide (err ≠ 0) then mret (inl err) else
    let new_tail := default 0 new_tail in
    let inc_link := match d_inode new_d with
                    | None => if is_dir then 1 else 0
                    | Some _ => 0
                    end in
    r ← nova_add_dentry new_d ino inc_link new_tail;
    match r with
    | (err, tail) =>
      if decide (err ≠ 0) then mret (inl err) else
      let new_tail := default new_tail tail in
      (if decide (inc_link ≠ 0) then add_nlink new_dir 1 else mret ()) ;;
      let old_tail := if decide (old_dir = new_dir) then new_tail else 0 in
      r ← nova_remove_dentry old_d (if is_dir then -1 else 0) old_tail;
      match r with
      | (err, tail) =>
        if decide (err ≠ 0) then mret (inl err) else
        (if is_dir then add_nlink old_dir (-1) else mret ()) ;;
        mret (inr (default old_tail tail, new_tail))
      end
    end
  end.

Definition nova_rename (old_dir : Z) (old_d : dentry) (new_dir : Z) (new_d : dentry) : M Z :=
  old_inode ← deref (d_inode old_d);
  ov ← get_vfs old_inode;
  ndv ← get_vfs new_dir;
  let is_dir := S_ISDIR (v_mode ov) in
  err ← match d_inode new_d with
        | Some ni =>
            if is_dir then e ← nova_empty_dir ni; mret (if (e : bool) then 0 else - ENOTEMPTY)
            else mret 0
        | None =>
            mret (if is_dir && bool_decide (NOVA_LINK_MAX ≤ v_nlink ndv) then - EMLINK else 0)
        end;
  if decide (err ≠ 0) then mret err else
  new_p ← nova_get_inode new_dir;
  old_p ← nova_get_inode old_dir;
  p ← nova_get_inode old_inode;
  t ← get_time;
  set_ctime old_inode t ;;
  old_pi ← deref p;
  r ← nova_append_link_change_entry old_pi old_inode 0;
  match r with
  | (err, old_pi_tail) =>
    if decide (err ≠ 0) then mret err else
    father ← (if is_dir && bool_decide (old_dir ≠ new_dir) then
                head ← load 8 (old_pi + nova_inode.log_head);
                head_addr ← block_ptr head;
                mret (Some (head_addr + NOVA_DIR_LOG_REC_LEN 1))
              else mret None);
    r ← rename_dentries old_dir new_dir (v_ino ov) old_d new_d is_dir;
    match r with
    | inl err => mret err
    | inr (old_tail, new_tail) =>
      r ← rename_replaced is_dir (d_inode new_d);
      match r with
      | inl err => mret err
      | inr (new_pi, drop, new_pi_tail) =>
        old_pidir ← deref old_p;
        new_pidir ← deref new_p;
        ndv ← get_vfs new_dir;
        rename_commit
          (Rename old_pi old_pidir new_pidir new_pi father drop
             (bool_decide (old_dir = new_dir)) (default 0 old_pi_tail) old_tail new_tail
             new_pi_tail) (v_ino ndv) ;;
        mret 0
      end
    end
  end.

(** The parent of a directory: [inr] is the inode for [d_obtain_alias]. *)
Definition nova_get_parent (child : Z) : M (Z + Z) :=
  r ← nova_inode_by_name child [46; 46];
  match r.2 with
  | None => mret (inl (- ENOENT))
  | Some _ =>
      if decide (r.1 = 0) then mret (inl (- ENOENT)) else nova_iget r.1
  end.
End namei.
