(* ===== verification/DirProofs.v ===== *)
(** * Adding and looking up names (dir.c, namei.c)

    A name is added by appending a dentry to the log of the directory and
    putting the dentry into the tree under the hash of the name. *)
From S2P Require Import Prelude Nvmm RangeTree Layout World Balloc BallocList BallocProofs.
From S2P Require Import Log LogPages LogProofs FileTree Inode Journal InodeMap Dir Rebuild.
From S2P Require Import InodeCycle Dax DaxProofs AssignProofs File Namei.

Lemma strncmp_eq_refl l : strncmp_eq l l = true.
Proof.
  induction l as [|x l IH]; [done|]. cbn. rewrite bool_decide_true, IH by done.
  by rewrite orb_true_r.
Qed.

(** The record of a name holds its header, the name and a NUL. *)
Lemma REC_LEN_bounds n :
  0 ≤ n → n + 29 ≤ NOVA_DIR_LOG_REC_LEN n ≤ n + 36 ∧ NOVA_DIR_LOG_REC_LEN n mod 8 = 0.
Proof.
  intros Hn. rewrite REC_LEN_mod. pose proof (Z.mod_pos_bound (n + 36) 8 ltac:(lia)).
  split; [lia|]. pose proof (Z.div_mod (n + 36) 8 ltac:(lia)).
  replace (n + 36 - (n + 36) mod 8) with ((n + 36) / 8 * 8) by lia. by rewrite Z.mod_mul.
Qed.

Section dir.
Context `{RbTree} `{Env} `{Vfs} `{Uaccess}.

(** The memory with a dentry at [e]. *)
Record dentry_at (m : mem) (e ino len : Z) (name : list Z) : Prop := {
  de_type : ld 1 m (e + nova_dentry.entry_type) = DIR_LOG;
  de_valid : ld 1 m (e + nova_dentry.invalid) = 0;
  de_rec_len : ld 2 m (e + nova_dentry.de_len) = len;
  de_ino : ld 8 m (e + nova_dentry.ino) = ino;
  de_name_len : ld 1 m (e + nova_dentry.name_len) = Z.of_nat (length name);
  de_name : ld_bytes (length name) m (e + nova_dentry.name) = name
}.

(** [w1] is [w0] with other contents [m] of the medium. *)
Record remembers (w0 : world) (m : mem) (w1 : world) : Prop := {
  rm_vis : vis (w_nvmm w1) = m;
  rm_inodes : w_inodes w1 = w_inodes w0;
  rm_sbi : w_sbi w1 = w_sbi w0;
  rm_tick : w_tick w1 = w_tick w0
}.

Lemma remembers_write w0 m w1 s a bs :
  remembers w0 m w1 →
  remembers w0 (st_bytes m a bs) (set_nvmm (nvmm_write s (WBytes a bs) (w_nvmm w1)) w1).
Proof. intros [Ev Ei Es Et]. split; cbn; by rewrite ?Ev. Qed.

Lemma remembers_flush w0 m w1 a n fence :
  remembers w0 m w1 → remembers w0 m (set_nvmm (nova_flush_buffer a n fence (w_nvmm w1)) w1).
Proof. intros [Ev Ei Es Et]. split; cbn [w_nvmm set_nvmm]; by rewrite ?vis_flush. Qed.

Ltac write_step Hm :=
  first [rewrite bind_store | rewrite bind_store_bytes_nt];
  match goal with |- context [set_nvmm (nvmm_write ?s (WBytes ?a ?bs) (w_nvmm ?w1)) ?w1] =>
    apply (remembers_write _ _ _ s a bs) in Hm;
    let w2 := fresh "w'" in revert Hm;
    generalize (set_nvmm (nvmm_write s (WBytes a bs) (w_nvmm w1)) w1);
    try clear w1; intros w2 Hm end.

Definition dentry_mem (m : mem) (e ino len mtime size links : Z) (name : list Z) : mem :=
  let st n o v m := st_bytes m (e + o) (le_split n v) in
  let namelen := Z.of_nat (length name) in
  let m := st 1%nat nova_dentry.name_len namelen
             (st 8%nat nova_dentry.ino ino (st 1%nat nova_dentry.entry_type DIR_LOG m)) in
  let m := st_bytes m (e + nova_dentry.name) name in
  let m := st_bytes m (e + nova_dentry.name + namelen) (le_split 1 0) in
  let m := st 1%nat nova_dentry.invalid 0 (st 1%nat nova_dentry.file_type 0 m) in
  let m := st 8%nat nova_dentry.size size (st 4%nat nova_dentry.mtime mtime m) in
  st 2%nat nova_dentry.de_len len (st 2%nat nova_dentry.links_count links m).

Lemma ld_bytes_st_bytes_out n m a bs x :
  x + Z.of_nat n ≤ a ∨ a + Z.of_nat (length bs) ≤ x →
  ld_bytes n (st_bytes m a bs) x = ld_bytes n m x.
Proof. intros. apply ld_bytes_frame. intros. apply ld8_st_bytes_out. lia. Qed.

Lemma dentry_mem_at m e ino len mtime size links name :
  (length name ≤ 255)%nat → Forall (λ b, 0 ≤ b < 256) name → 0 ≤ ino < 2 ^ 64 →
  0 ≤ len < 2 ^ 16 → dentry_at (dentry_mem m e ino len mtime size links name) e ino len name.
Proof.
  intros Hlen Hbytes Hino Hrec. unfold dentry_mem. cbv zeta.
  split; unfold nova_dentry.entry_type, nova_dentry.name_len, nova_dentry.file_type,
    nova_dentry.invalid, nova_dentry.de_len, nova_dentry.links_count, nova_dentry.mtime,
    nova_dentry.ino, nova_dentry.size, nova_dentry.name.
  1-5: rewrite ?ld_st_bytes_out by (rewrite ?length_le_split; lia);
    rewrite ld_st; apply Z.mod_small; unfold DIR_LOG; lia.
  do 7 rewrite ld_bytes_st_bytes_out by (rewrite ?length_le_split; lia).
  by apply ld_bytes_st_bytes.
Qed.

Lemma dentry_mem_out m e ino len mtime size links name x :
  ¬ e ≤ x < e + 29 + Z.of_nat (length name) →
  ld8 (dentry_mem m e ino len mtime size links name) x = ld8 m x.
Proof.
  intros Hx. unfold dentry_mem. cbv zeta.
  unfold nova_dentry.entry_type, nova_dentry.name_len, nova_dentry.file_type,
    nova_dentry.invalid, nova_dentry.de_len, nova_dentry.links_count, nova_dentry.mtime,
    nova_dentry.ino, nova_dentry.size, nova_dentry.name.
  by rewrite !ld8_st_bytes_out by (rewrite ?length_le_split; lia).
Qed.

(** Where an entry is appended: an argument of 0 stands for the tail of the
    log. *)
Definition append_at (m : mem) (pi tail : Z) : Z :=
  if decide (tail = 0) then ld 8 m (pi + nova_inode.log_tail) else tail.

Lemma append_head_at w grow pi tail0 size tail :
  append_at (vis (w_nvmm w)) pi tail0 = tail → tail ≠ 0 → is_last_entry tail size = false →
  append_head grow pi tail0 size w = Done ((tail, false), w).
Proof.
  unfold append_at. case_decide as Ht0; intros Htail Ht Hl; [|subst; by apply append_head_fits].
  subst tail0. rewrite <- (append_head_fits w grow pi tail size Ht Hl). unfold append_head.
  rewrite decide_False, decide_True by (done || by intros []). by rewrite bind_load, bind_mret, Htail.
Qed.

Lemma append_dentry_run w pidir dir i ino name tail0 tail link_change :
  append_at (vis (w_nvmm w)) pidir tail0 = tail →
  let len := NOVA_DIR_LOG_REC_LEN (Z.of_nat (length name)) in
  w_inodes w !! dir = Some i → 0 < tail < 2 ^ 56 → is_last_entry tail len = false →
  ∃ w' v mtime size links,
    nova_append_dir_inode_entry pidir dir ino name len tail0 link_change w
      = Done ((tail, u64 (tail + len)), w') ∧
    w_inodes w' = <[dir := InodeInfo (header i) v]> (w_inodes w) ∧
    w_tick w' = w_tick w ∧
    vis (w_nvmm w') = dentry_mem (vis (w_nvmm w)) tail ino len mtime size links name.
Proof.
  intros Hat len Hi Ht Hlast. unfold nova_append_dir_inode_entry, nova_get_append_head.
  rewrite bind_assoc, (bind_run _ _ _ _ _ (append_head_at w _ pidir _ len tail Hat ltac:(lia) Hlast)).
  rewrite bind_mret. cbn [fst]. rewrite decide_False, bind_block_ptr by lia.
  rewrite (bind_get_vfs _ _ _ _ Hi).
  assert (remembers w (vis (w_nvmm w)) w) as Hm by done.
  cbv zeta. do 11 write_step Hm. rewrite bind_flush.
  apply (remembers_flush _ _ _ tail len false) in Hm. revert Hm.
  match goal with |- context [set_nvmm (nova_flush_buffer ?a ?n ?f ?p) ?w0] =>
    generalize (set_nvmm (nova_flush_buffer a n f p) w0) end.
  intros w1 [Ev Ei _ Et].
  rewrite bind_load. assert (w_inodes w1 !! dir = Some i) as Hi1 by by rewrite Ei.
  rewrite (bind_run _ _ _ _ _ (update_vfs_run _ _ _ _ Hi1)).
  eexists _, _, _, _, _. split; [reflexivity|]. cbn. rewrite Ei, Et. split_and!; [done..|].
  exact Ev.
Qed.

(** ** The directory as a map *)

(** What the tree of a directory says: the hash of a name has an inode number
    and the entry it was read from. *)
Definition dir_map (m : mem) (t : gmap Z Z) : gmap Z (Z * Z) :=
  (λ e, (ld 8 m (e + nova_dentry.ino), e)) <$> t.

Definition found (r : option (Z * Z)) : Z * option Z :=
  match r with Some (ino, e) => (ino, Some e) | None => (0, None) end.

Lemma inode_by_name_run w dir i name :
  w_inodes w !! dir = Some i →
  nova_inode_by_name dir name w =
  Done (found (dir_map (vis (w_nvmm w)) (tree (header i)) !! BKDRHash name), w).
Proof.
  intros Hi. unfold nova_inode_by_name, nova_find_dentry.
  rewrite bind_assoc, (bind_get_sih _ _ _ _ Hi), bind_mret. unfold dir_map.
  rewrite lookup_fmap. by destruct (tree (header i) !! BKDRHash name).
Qed.

Lemma radix_tree_insert_run w h i k v :
  w_inodes w !! h = Some i →
  let t := tree (header i) in
  let r := match t !! k with
           | Some _ => (- EEXIST, t)
           | None => if radix_node_alloc (w_tick w) then (0, <[k := v]> t) else (- ENOMEM, t)
           end in
  ∃ w' i', radix_tree_insert h k v w = Done (r.1, w') ∧
    w_inodes w' !! h = Some i' ∧ header i' = sih_set_tree r.2 (header i) ∧
    w_nvmm w' = w_nvmm w ∧ w_sbi w' = w_sbi w.
Proof.
  assert (sih_set_tree (tree (header i)) (header i) = header i) as Hid by by destruct (header i).
  intros Hi t r. fold t in Hid. unfold radix_tree_insert. rewrite (bind_get_sih _ _ _ _ Hi). subst r. fold t.
  destruct (t !! k) as [e|] eqn:Et; [rewrite decide_True by done; exists w, i; cbn [snd]; by rewrite Hid|].
  rewrite decide_False by (by intros []). run. destruct (radix_node_alloc (w_tick w)).
  - assert (w_inodes (next_tick w) !! h = Some i) as Hi1 by done.
    rewrite (bind_run _ _ _ _ _ (update_sih_run _ _ _ _ Hi1)).
    eexists _, _. split; [reflexivity|]. split; [apply lookup_insert_eq|]. by split.
  - exists (next_tick w), i. cbn [snd]. by rewrite Hid.
Qed.

Lemma dir_map_frame m m' t lo hi :
  (∀ x, ¬ lo ≤ x < hi → ld8 m' x = ld8 m x) →
  (∀ k e, t !! k = Some e → e + 20 ≤ lo ∨ hi ≤ e) → dir_map m' t = dir_map m t.
Proof.
  intros Hm Ht. apply map_fmap_ext. intros k e He. f_equal. apply ld_frame.
  intros x Hx. apply Hm. unfold nova_dentry.ino in Hx. destruct (Ht k e He); lia.
Qed.

(** Up to the insertion into the tree. *)
Lemma add_dentry_run w d i ino inc_link tail0 :
  let tail := append_at (vis (w_nvmm w)) (pi_addr (header i)) tail0 in
  let name := d_name d in
  let len := NOVA_DIR_LOG_REC_LEN (Z.of_nat (length name)) in
  w_inodes w !! d_parent d = Some i → pi_addr (header i) ≠ 0 →
  (1 ≤ length name ≤ 255)%nat → 0 < tail < 2 ^ 56 → is_last_entry tail len = false →
  ∃ w2 v mtime size links,
    nova_add_dentry d ino inc_link tail0 w =
      (nova_insert_dir_radix_tree (d_parent d) name tail
         ≫= λ ret, mret (ret, Some (tail + len))) w2 ∧
    w_inodes w2 !! d_parent d = Some (InodeInfo (header i) v) ∧
    w_tick w2 = w_tick (next_tick w) ∧
    vis (w_nvmm w2) = dentry_mem (vis (w_nvmm w)) tail ino len mtime size links name.
Proof.
  intros tail name len Hi Hpi Hlen Ht Hlast.
  destruct (REC_LEN_bounds (Z.of_nat (length name)) ltac:(lia)) as [Hrec _]. fold len in Hrec.
  unfold nova_add_dentry. fold name. cbv zeta. rewrite decide_False by lia.
  unfold nova_get_inode. rewrite bind_assoc, (bind_get_sih _ _ _ _ Hi), bind_mret.
  unfold nova_get_block. rewrite decide_False by done. rewrite bind_deref_Some, bind_get_time.
  assert (w_inodes (next_tick w) !! d_parent d = Some i) as Hi0 by done.
  rewrite (bind_run _ _ _ _ _ (update_vfs_run _ _ _ _ Hi0)). fold len.
  rewrite (Z.mod_small len (2 ^ 16) ltac:(lia) : u16 len = len).
  match goal with |- context [set_inodes (<[_ := ?i1]> _) _] =>
    set (i1' := i1); set (w1 := set_inodes _ (next_tick w)) end.
  assert (w_inodes w1 !! d_parent d = Some i1') as Hi1 by apply lookup_insert_eq.
  destruct (append_dentry_run w1 (pi_addr (header i)) _ _ ino name tail0 tail
    inc_link eq_refl Hi1 Ht Hlast)
    as (w2&v&mt&sz&lk&Hrun&Hi2&Ht2&Hv2).
  fold len in Hrun, Hv2. rewrite (bind_run _ _ _ _ _ Hrun), bind_block_ptr by lia.
  rewrite (Z.mod_small (tail + len) (2 ^ 64) ltac:(lia) : u64 (tail + len) = _).
  exists w2, v, mt, sz, lk. split_and!; [done| |done..]. rewrite Hi2. apply lookup_insert_eq.
Qed.

(** C9. Adding a name to a directory whose log page has room, at the given
    position or at the tail of the log, writes one dentry that holds the inode number and the name, changes no byte outside
    the record, and moves the tail behind it.  The directory, seen as a map,
    gains the name, unless its hash is there already (EEXIST) or the tree gets
    no memory (ENOMEM), when the map stays what it was.  A lookup of any name
    afterwards answers what that map says. *)
Theorem add_dentry_refines w d i ino inc_link tail0 :
  let tail := append_at (vis (w_nvmm w)) (pi_addr (header i)) tail0 in
  let name := d_name d in
  let len := NOVA_DIR_LOG_REC_LEN (Z.of_nat (length name)) in
  let dm := dir_map (vis (w_nvmm w)) (tree (header i)) in
  let r := match dm !! BKDRHash name with
           | Some _ => (- EEXIST, dm)
           | None => if radix_node_alloc (w_tick (next_tick w))
                     then (0, <[BKDRHash name := (ino, tail)]> dm) else (- ENOMEM, dm)
           end in
  w_inodes w !! d_parent d = Some i → pi_addr (header i) ≠ 0 →
  (1 ≤ length name ≤ 255)%nat → Forall (λ b, 0 ≤ b < 256) name → 0 ≤ ino < 2 ^ 64 →
  0 < tail < 2 ^ 56 → is_last_entry tail len = false →
  (∀ k e, tree (header i) !! k = Some e → e + 20 ≤ tail ∨ tail + len ≤ e) →
  ∃ w', nova_add_dentry d ino inc_link tail0 w = Done ((r.1, Some (tail + len)), w') ∧
    (∀ name', nova_inode_by_name (d_parent d) name' w'
              = Done (found (r.2 !! BKDRHash name'), w')) ∧
    nova_check_dentry_match tail name w' = Done (true, w') ∧
    ∀ x, ¬ tail ≤ x < tail + len → ld8 (vis (w_nvmm w')) x = ld8 (vis (w_nvmm w)) x.
Proof.
  intros tail name len dm r Hi Hpi Hlen Hbytes Hino Ht Hlast Hout.
  destruct (REC_LEN_bounds (Z.of_nat (length name)) ltac:(lia)) as [Hrec _]. fold len in Hrec.
  destruct (add_dentry_run w d i ino inc_link tail0 Hi Hpi Hlen Ht Hlast)
    as (w2&v&mt&sz&lk&->&Hi2&Ht2&Hv2). fold tail name len in Hv2 |- *.
  destruct (radix_tree_insert_run w2 _ _ (BKDRHash name) tail Hi2) as (w'&i'&Hrun&Hi'&Hhd&Hn&_).
  apply (f_equal tree) in Hhd as Htree.
  unfold nova_insert_dir_radix_tree. rewrite (bind_run _ _ _ _ _ Hrun).
  destruct (dentry_mem_at (vis (w_nvmm w)) tail ino len mt sz lk name) as [_ _ _ Eino Elen Ename];
    [lia|done..|lia|]. rewrite <- Hv2, <- Hn in Eino, Elen, Ename.
  assert (∀ x, ¬ tail ≤ x < tail + len → ld8 (vis (w_nvmm w')) x = ld8 (vis (w_nvmm w)) x)
    as Hframe by (intros x Hx; rewrite Hn, Hv2; apply dentry_mem_out; lia).
  pose proof (dir_map_frame _ _ _ _ _ Hframe Hout) as Hdm. fold dm in Hdm.
  assert (dm !! BKDRHash name = (λ e, (ld 8 (vis (w_nvmm w)) (e + nova_dentry.ino), e)) <$>
    tree (header i) !! BKDRHash name) as Hlook by apply lookup_fmap.
  unfold sih_set_tree in Htree. cbn [header tree] in Htree |- *. rewrite Ht2 in Htree |- *.
  exists w'. split; [|split; [|split; [|exact Hframe]]].
  - subst r. rewrite Hlook. destruct (tree (header i) !! _); [done|]. by case_match.
  - intros name'. rewrite (inode_by_name_run _ _ _ _ Hi').
    enough (dir_map (vis (w_nvmm w')) (tree (header i')) = r.2) as -> by done.
    subst r. rewrite Htree, Hlook. destruct (tree (header i) !! _); [exact Hdm|].
    cbn [fmap option_fmap option_map]. case_match; [|exact Hdm]. cbn [snd].
    unfold dir_map in Hdm |- *. by rewrite fmap_insert, Eino, Hdm.
  - unfold nova_check_dentry_match. run. rewrite Elen, Ename, bool_decide_true by done.
    by rewrite strncmp_eq_refl.
Qed.
End dir.

Section instances.
#[local] Existing Instances bst_rb env1.

(** A VFS that copies nothing and has no inodes cached. *)
Definition vfs1 : Vfs := {|
  inode_change_ok _ _ _ := 0; setattr_copy v _ := v; inode_has_no_xattr v := v;
  make_bad_inode _ v := v; inode_init_owner v _ _ := v; init_special_inode _ _ v := v;
  new_inode _ _ := None; insert_inode_locked _ _ := true; iget_locked _ _ _ := None
|}.
#[local] Existing Instance vfs1.

(** An empty directory with a log page at 8192. *)
Definition dir_inode : nova_inode_info :=
  InodeInfo (Sih ∅ ∅ 0 1 0 20 1024 0 0 0 0 0 0) (VfsInode 20 0 2 4096 1 0 0 0 0 0 0 0 0 false).
Definition dir_world : world :=
  World (nvmm_boot ∅) small_sbi ∅ 0 {[1 := dir_inode]} [].

Lemma add_dentry_refines_witness :
  ∃ w', nova_add_dentry (Dentry 1 [97; 111] None) 33 0 8192 dir_world
      = Done ((0, Some 8224), w') ∧
    nova_inode_by_name 1 [97; 111] w' = Done ((33, Some 8192), w') ∧
    nova_inode_by_name 1 [97; 112] w' = Done ((0, None), w').
Proof.
  destruct (add_dentry_refines dir_world (Dentry 1 [97; 111] None) dir_inode 33 0 8192)
    as (w'&Hrun&Hlook&_&_).
  - reflexivity.
  - done.
  - cbn; lia.
  - repeat constructor; done.
  - lia.
  - by vm_compute.
  - reflexivity.
  - intros k e He. cbn in He. by rewrite lookup_empty in He.
  - exists w'. split; [exact Hrun|]. split; rewrite Hlook; reflexivity.
Defined.

(** What a run that does not stop returns. *)
Definition answer {A} (o : outcome (A * world)) : option A :=
  match o with Done (a, _) => Some a | Halt _ => None end.

End instances.
