(* ===== verification/LogWalk.v ===== *)
(** * Walking through a log (nova.h, bbuild.c)

    What is common to replaying the logs of directories and of files: the
    entries a walk from the head to the tail passes, which bytes it reads, and
    the parts of the replay that do not depend on the kind of the log. *)
From S2P Require Import Prelude Nvmm RangeTree Layout World Balloc BallocList BallocProofs.
From S2P Require Import Log LogPages LogProofs FileTree Inode Journal InodeMap Dir Rebuild.
From S2P Require Import Dax DaxProofs AssignProofs Truncate.

(** ** Entries *)

(** What an entry of length [len] at [p] is made of: all its bytes but, for a
    write entry, the count of invalid pages, which changes behind the commit. *)
Definition count_field (m : mem) (p x : Z) : Prop :=
  ld 1 m p = FILE_WRITE ∧ p + nova_file_write_entry.invalid_pages ≤ x <
    p + nova_file_write_entry.invalid_pages + 4.
Definition entry_bytes (m : mem) (p len x : Z) : Prop :=
  p ≤ x < p + len ∧ ¬ count_field m p x.

(** A kind of log says which entries it may have and how long they are.  An
    entry lies in its page, and what it is depends on these bytes only. *)
Record log_kind := LogKind {
  ent_len : mem → Z → Z;
  ent_ok : mem → Z → Prop;
  ent_fits m p : ent_ok m p → 32 ≤ ent_len m p ∧ ENTRY_LOC p + ent_len m p ≤ LAST_ENTRY;
  ent_frame m m' p :
    ent_ok m p → (∀ x, entry_bytes m p (ent_len m p) x → ld8 m' x = ld8 m x) →
    ent_ok m' p ∧ ent_len m' p = ent_len m p
}.

(** [goto_next_page]: where the entry at the position [cur] is, and whether a
    page boundary is passed. *)
Definition crosses (m : mem) (cur : Z) : bool :=
  bool_decide (ENTRY_LOC cur + 32 > LAST_ENTRY ∨ ld 1 m cur = NEXT_PAGE).
Definition position (m : mem) (cur : Z) : Z :=
  if crosses m cur then ld 8 m (next_field (BLOCK_OFF cur)) else cur.

(** ** The walk *)

(** The walk from [cur] to [tail] passes the entries [ps] and [k] page
    boundaries.  It reads only bytes in [Q], below [lim]. *)
Inductive log_walk (K : log_kind) (Q : Z → Prop) (lim : Z) (m : mem) (tail : Z) : Z → list Z → Z → Prop :=
  | walk_done : log_walk K Q lim m tail tail [] 0
  | walk_entry cur ps k :
      let p := position m cur in
      cur ≠ tail → 0 < cur < lim → 0 < p < lim → ent_ok K m p → Q cur →
      (crosses m cur = true → ∀ x, 0 ≤ x < 8 → Q (next_field (BLOCK_OFF cur) + x)) →
      (∀ x, entry_bytes m p (ent_len K m p) x → Q x) →
      log_walk K Q lim m tail (p + ent_len K m p) ps k →
      log_walk K Q lim m tail cur (p :: ps) (k + Z.b2z (crosses m cur)).

Section walk.
Context (K : log_kind) (Q : Z → Prop) (lim : Z).

Lemma walk_det m tail cur ps k qs l :
  log_walk K Q lim m tail cur ps k → log_walk K Q lim m tail cur qs l → ps = qs ∧ k = l.
Proof.
  intros Hw. revert qs l. induction Hw as [|cur ps k p Hne _ _ _ _ _ _ _ IH]; intros qs l Hw';
    inversion Hw' as [|cur' qs' l' p' Hne' _ _ _ _ _ _ Hw2]; subst; try done.
  destruct (IH _ _ Hw2) as [-> ->]. done.
Qed.

(** What follows an entry of the walk. *)
Lemma walk_suffix m tail cur ps k qs p rs :
  log_walk K Q lim m tail cur ps k → ps = qs ++ p :: rs →
  ∃ l, log_walk K Q lim m tail (p + ent_len K m p) rs l.
Proof.
  intros Hw. revert qs. induction Hw as [|cur ps k p' Hne _ _ _ _ _ _ Hw IH]; intros qs Heq.
  { by destruct qs. }
  destruct qs as [|q qs]; cbn in Heq; simplify_eq; [by exists k|by apply (IH qs)].
Qed.

(** A walk that arrives does not visit an entry twice. *)
Lemma walk_NoDup m tail cur ps k : log_walk K Q lim m tail cur ps k → NoDup ps.
Proof.
  intros Hw. induction Hw as [|cur ps k p Hne _ _ _ _ _ _ Hw IH]; constructor; [|done].
  intros (qs&rs&->)%list_elem_of_split.
  destruct (walk_suffix _ _ _ _ _ qs p rs Hw eq_refl) as [l Hw'].
  destruct (walk_det _ _ _ _ _ _ _ Hw Hw') as [Heq _].
  apply (f_equal length) in Heq. rewrite length_app in Heq. cbn in Heq. lia.
Qed.

Lemma walk_entries m tail cur ps k :
  log_walk K Q lim m tail cur ps k →
  ∀ p, p ∈ ps → 0 < p < lim ∧ ent_ok K m p ∧ ∀ x, entry_bytes m p (ent_len K m p) x → Q x.
Proof.
  induction 1; intros q Hq; [by apply elem_of_nil in Hq|].
  apply elem_of_cons in Hq as [->|Hq]; auto.
Qed.

(** Each entry takes one of the addresses. *)
Lemma walk_length m tail cur ps k :
  log_walk K Q lim m tail cur ps k → Z.of_nat (length ps) ≤ Z.max 0 lim.
Proof.
  intros Hw. assert (length ps ≤ length (seqZ 0 lim))%nat as Hl.
  { apply submseteq_length, NoDup_submseteq; [by eapply walk_NoDup|].
    intros p Hp. apply elem_of_seqZ. destruct (walk_entries _ _ _ _ _ Hw p Hp). lia. }
  rewrite length_seqZ in Hl. lia.
Qed.

Lemma walk_crossings m tail cur ps k :
  log_walk K Q lim m tail cur ps k → 0 ≤ k ≤ Z.of_nat (length ps).
Proof. induction 1; cbn [length]; [lia|]. destruct (crosses m cur); cbn; lia. Qed.
End walk.

Lemma walk_mono K (Q Q' : Z → Prop) lim m tail cur ps k :
  (∀ x, Q x → Q' x) → log_walk K Q lim m tail cur ps k → log_walk K Q' lim m tail cur ps k.
Proof. intros HQ. induction 1; constructor; auto. Qed.

Lemma entry_bytes_type m p len : 0 < len → entry_bytes m p len p.
Proof.
  intros Hl. split; [lia|]. unfold count_field, nova_file_write_entry.invalid_pages. lia.
Qed.

Lemma entry_bytes_frame m m' p len x :
  0 < len → (∀ x, entry_bytes m p len x → ld8 m' x = ld8 m x) →
  entry_bytes m' p len x ↔ entry_bytes m p len x.
Proof.
  intros Hl Hm. unfold entry_bytes, count_field. rewrite (ld_frame 1 m m' p); [done|].
  intros y Hy. replace y with p by lia. by apply Hm, entry_bytes_type.
Qed.

(** ** Memories that agree where the walk reads *)
Section walk_frame.
Context (K : log_kind) (Q : Z → Prop) (lim : Z) (m m' : mem) (Hm : ∀ x, Q x → ld8 m' x = ld8 m x).

Lemma position_frame cur :
  Q cur → (crosses m cur = true → ∀ x, 0 ≤ x < 8 → Q (next_field (BLOCK_OFF cur) + x)) →
  crosses m' cur = crosses m cur ∧ position m' cur = position m cur.
Proof.
  intros Hcur Hnext.
  assert (crosses m' cur = crosses m cur) as Hc.
  { unfold crosses. rewrite (ld_frame 1 m m' cur); [done|]. intros x Hx.
    replace x with cur by lia. by apply Hm. }
  split; [done|]. unfold position. rewrite Hc. destruct (crosses m cur); [|done].
  apply ld_frame. intros x Hx. apply Hm.
  replace x with (next_field (BLOCK_OFF cur) + (x - next_field (BLOCK_OFF cur))) by lia.
  apply Hnext; [done|lia].
Qed.

(** A walk can be moved to another memory, and its tail to another place it
    does not read. *)
Lemma walk_frame tail cur ps k :
  log_walk K Q lim m tail cur ps k → log_walk K Q lim m' tail cur ps k.
Proof.
  induction 1 as [|cur ps k p Hne Hcur Hp Hok HQ Hx Hr Hw IH]; [constructor|].
  destruct (position_frame cur HQ Hx) as [Hc Hpos]. fold p in Hpos.
  destruct (ent_frame _ _ m' _ Hok ltac:(auto)) as [Hok' Hel].
  rewrite <- Hc. replace (p :: ps) with (position m' cur :: ps) by (by rewrite Hpos).
  destruct (ent_fits _ _ _ Hok). apply walk_entry; rewrite ?Hpos, ?Hc, ?Hel; try done.
  intros x Hy. apply Hr. apply (entry_bytes_frame m m'); [lia|auto|done].
Qed.

(** An entry written at the tail extends the walk. *)
Lemma walk_append (Q' : Z → Prop) tail cur ps k :
  let tail' := tail + ent_len K m' tail in
  log_walk K Q lim m tail cur ps k → (∀ x, Q x → Q' x) → ¬ Q tail' →
  0 < tail < lim → crosses m' tail = false → ent_ok K m' tail →
  (∀ x, entry_bytes m' tail (ent_len K m' tail) x → Q' x) →
  log_walk K Q' lim m' tail' cur (ps ++ [tail]) k.
Proof.
  intros tail' Hw HQQ Hn Ht Hc Hok HQt. apply walk_frame in Hw.
  pose proof (ent_fits _ _ _ Hok). induction Hw as [|cur ps k p Hne Hcur Hp Hok' HQ Hx Hr Hw IH].
  - assert (position m' tail = tail) as Hpos by (unfold position; by rewrite Hc).
    replace ([] ++ [tail]) with [position m' tail] by (by rewrite Hpos).
    replace 0 with (0 + Z.b2z (crosses m' tail)) by (by rewrite Hc).
    apply walk_entry; rewrite ?Hpos, ?Hc; try done; [lia| |constructor].
    apply HQt, entry_bytes_type. lia.
  - cbn [app]. apply walk_entry; auto. by intros ->.
Qed.
End walk_frame.

(** ** The replay *)

Section loop.
Context `{RbTree} `{Env} `{Vfs}.
Context (K : log_kind) (Q : Z → Prop) (lim pi h tail : Z) (m : mem) (s : nova_sb_info).
Context (HQ : ∀ x, Q x → ¬ pi ≤ x < pi + nova_inode.sizeof) (Hlim : lim ≤ 2 ^ 56).
Context (Htail : ld 8 m (pi + nova_inode.log_tail) = tail).

(** The medium is [m] up to attributes of the inode; [i] is in memory. *)
Record replaying (w : world) (i : nova_inode_info) : Prop := {
  rp_mem : ∀ x, ¬ pi + 4 ≤ x < pi + 60 → ld8 (vis (w_nvmm w)) x = ld8 m x;
  rp_inode : w_inodes w !! h = Some i;
  rp_sbi : w_sbi w = s;
  rp_pi : pi_addr (header i) = pi
}.

Lemma rp_store w i n o v :
  4 ≤ o → o + Z.of_nat n ≤ 60 → replaying w i →
  replaying (set_nvmm (nvmm_write Cached (WBytes (pi + o) (le_split n v)) (w_nvmm w)) w) i.
Proof.
  intros Ho Hn [Hm Hi Hs Ha]. split; [|done..]. intros x Hx. cbn.
  rewrite ld8_st_bytes_out by (rewrite length_le_split; lia). by apply Hm.
Qed.

Lemma rp_sih w i f :
  replaying w i → pi_addr (f (header i)) = pi_addr (header i) →
  replaying (set_inodes (<[h := InodeInfo (f (header i)) (vfs i)]> (w_inodes w)) w)
    (InodeInfo (f (header i)) (vfs i)).
Proof. intros [Hm Hi Hs Ha] Hf. split; [done|apply lookup_insert_eq|done|]. by rewrite <- Ha. Qed.

Lemma rp_flush w i a n fence :
  replaying w i → replaying (set_nvmm (nova_flush_buffer a n fence (w_nvmm w)) w) i.
Proof. intros [Hm Hi Hs Ha]. split; [|done..]. cbn [w_nvmm set_nvmm]. by rewrite vis_flush. Qed.

Lemma rp_Q w i x : replaying w i → Q x → ld8 (vis (w_nvmm w)) x = ld8 m x.
Proof. intros Hr HQx%HQ. apply (rp_mem _ _ Hr). unfold nova_inode.sizeof in HQx. lia. Qed.

Lemma bind_update_sih {B} w i f (k : () → M B) :
  replaying w i →
  (update_sih h f ≫= k) w =
  k () (set_inodes (<[h := InodeInfo (f (header i)) (vfs i)]> (w_inodes w)) w).
Proof. intros Hr. by rewrite (bind_run _ _ _ _ _ (update_sih_run _ _ _ f (rp_inode _ _ Hr))). Qed.

(** [i'] has the tree [t] and the number of log pages of [i]; no page of the
    cache tree comes or goes. *)
Definition has_tree (t : gmap Z Z) (i i' : nova_inode_info) : Prop :=
  tree (header i') = t ∧ log_pages (header i') = log_pages (header i) ∧
  mmap_pages (header i') = mmap_pages (header i).

(** The size in the inode. *)
Definition sized (w : world) (sz : Z) : Prop :=
  ld 8 (vis (w_nvmm w)) (pi + nova_inode.i_size) = sz.

Lemma sized_store w sz n o v :
  o + Z.of_nat n ≤ nova_inode.i_size ∨ nova_inode.i_size + 8 ≤ o → sized w sz →
  sized (set_nvmm (nvmm_write Cached (WBytes (pi + o) (le_split n v)) (w_nvmm w)) w) sz.
Proof.
  intros Ho <-. unfold sized. cbn. apply ld_st_bytes_out. rewrite length_le_split.
  unfold nova_inode.i_size in *. lia.
Qed.

Ltac loads := repeat first [rewrite bind_assoc | rewrite bind_load].
Ltac sized_store Hr Hz :=
  loads; rewrite bind_store;
  match goal with
  |- context [set_nvmm (nvmm_write Cached (WBytes (pi + ?o) (le_split ?n ?v)) (w_nvmm ?w1)) ?w1] =>
    let w2 := fresh "w'" in
    apply (rp_store w1 _ n o v ltac:(by vm_compute) ltac:(by vm_compute)) in Hr;
    apply (sized_store w1 _ n o v ltac:(vm_compute; intuition congruence)) in Hz; revert Hr Hz;
    generalize (set_nvmm (nvmm_write Cached (WBytes (pi + o) (le_split n v)) (w_nvmm w1)) w1);
    intros w2 Hr Hz end.

Section entry.
Context (p : Z) (Hp : 0 < p < lim) (Hok : ent_ok K m p).
Context (HQp : ∀ x, entry_bytes m p (ent_len K m p) x → Q x).

Lemma rp_entry w i x :
  replaying w i → entry_bytes m p (ent_len K m p) x → ld8 (vis (w_nvmm w)) x = ld8 m x.
Proof. intros Hr Hx. by apply (rp_Q _ _ _ Hr), HQp. Qed.

Lemma rp_ld w i n o :
  replaying w i → ld 1 m p ≠ FILE_WRITE → 0 ≤ o → o + Z.of_nat n ≤ 32 →
  ld n (vis (w_nvmm w)) (p + o) = ld n m (p + o).
Proof.
  intros Hr Hty Ho Hn. apply ld_frame. intros x Hx. apply (rp_entry w i x Hr).
  destruct (ent_fits _ _ _ Hok). split; [lia|]. by intros [? _].
Qed.

Lemma rp_type w i : replaying w i → ld 1 (vis (w_nvmm w)) p = ld 1 m p.
Proof.
  intros Hr. apply ld_frame. intros x Hx. replace x with p by lia.
  destruct (ent_fits _ _ _ Hok). apply (rp_entry w i p Hr), entry_bytes_type. lia.
Qed.

(** What replaying the attributes at [p] makes of the tree of an inode of
    size [sz]. *)
Definition truncated (sz : Z) (t : gmap Z Z) : gmap Z Z :=
  let size := ld 8 m (p + nova_setattr_logentry.size) in
  let first := u64 (size + 4095) / 4096 in
  let last := if decide (0 < s64 sz) then (s64 sz - 1) / 4096 else 0 in
  if decide (sz > size ∧ S_ISREG (ld 2 m (p + nova_setattr_logentry.mode)) = true ∧ first ≤ last)
  then without first last t else t.

Record truncatable (i : nova_inode_info) : Prop := {
  tb_pi : 0 < pi < 2 ^ 56;
  tb_type : ld 1 m (pi + nova_inode.i_blk_type) = NOVA_BLOCK_TYPE_4K;
  tb_mmap : mmap_pages (header i) = 0;
  tb_tree q e : tree (header i) !! q = Some e →
    we_pgoff m e ≤ q ∧ ∀ x, e ≤ x < e + 20 → Q x
}.

(** The branch that drops pages. *)
Lemma truncate_run {B} w i sz (k : () → M B) :
  let size := ld 8 m (p + nova_setattr_logentry.size) in
  let mode := ld 2 m (p + nova_setattr_logentry.mode) in
  let data_bits := blk_type_to_shift (ld 1 m (pi + nova_inode.i_blk_type)) in
  replaying w i → (S_ISREG mode = true → truncatable i) →
  ∃ w' i', ((if decide (sz > size ∧ S_ISREG mode = true) then
     let first_blocknr := Z.shiftr (u64 (size + 2 ^ data_bits - 1)) data_bits in
     let last_blocknr := if decide (0 < s64 sz) then Z.shiftr (s64 sz - 1) data_bits else 0 in
     if decide (first_blocknr > last_blocknr) then mret ()
     else _ ← nova_delete_file_tree h first_blocknr last_blocknr false false; mret ()
   else mret ()) ≫= k) w = k () w' ∧ replaying w' i' ∧ w_nvmm w' = w_nvmm w ∧
    has_tree (truncated sz (tree (header i))) i i'.
Proof.
  intros size mode data_bits Hr Htb. unfold truncated. fold size mode.
  destruct (decide (sz > size ∧ S_ISREG mode = true)) as [[Hgt Hreg]|Hno].
  2: { exists w, i. rewrite (decide_False (P := _ ∧ _ ∧ _)) by tauto. done. }
  destruct (Htb Hreg) as [Hpi Hty Hmm Htr]. unfold data_bits. rewrite Hty.
  change (blk_type_to_shift NOVA_BLOCK_TYPE_4K) with 12. rewrite !shiftr_page. replace (size + 2 ^ 12 - 1) with (size + 4095) by lia.
  set (first := u64 (size + 4095) / 4096). set (last := if decide (0 < s64 sz) then _ else 0).
  assert (0 ≤ first) by (apply Z.div_pos; [apply wrap_range|]; lia).
  assert (last < 2 ^ 63).
  { unfold last. case_decide; [|lia]. apply Z.div_lt_upper_bound; [lia|].
    unfold s64. pose proof (wrap_range 64 sz). case_decide; lia. }
  destruct (decide (first > last)) as [Hfl|Hfl].
  { exists w, i. rewrite (decide_False (P := _ ∧ _ ∧ _)) by lia. done. }
  rewrite decide_True by (split_and!; [done..|lia]).
  assert (∀ q e, tree (header i) !! q = Some e → we_pgoff (vis (w_nvmm w)) e ≤ q) as Hin.
  { intros q e He. destruct (Htr q e He) as [Hle HQe]. etransitivity; [|exact Hle].
    apply Z.eq_le_incl, ld_frame. intros x Hx. apply (rp_Q _ _ _ Hr), HQe.
    unfold nova_file_write_entry.pgoff in Hx. lia. }
  rewrite bind_assoc, (bind_run _ _ _ _ _ (delete_file_tree_run w h i first last
    (rp_inode _ _ Hr) ltac:(by rewrite (rp_pi _ _ Hr)) Hmm Hin ltac:(lia) ltac:(lia))), bind_mret.
  eexists _, (InodeInfo (sih_set_tree (without first last (tree (header i))) (header i)) (vfs i)).
  split; [done|]. split; [|done]. by apply (rp_sih w i (sih_set_tree (without first last (tree (header i))))).
Qed.

Lemma setattr_run {B} w i sz (k : () → M B) :
  replaying w i → sized w sz → ld 1 m p = SET_ATTR →
  (S_ISREG (ld 2 m (p + nova_setattr_logentry.mode)) = true → truncatable i) →
  ∃ w' i', (nova_apply_setattr_entry pi h p ≫= k) w = k () w' ∧ replaying w' i' ∧
    sized w' (ld 8 m (p + nova_setattr_logentry.size)) ∧
    has_tree (truncated sz (tree (header i))) i i'.
Proof.
  intros Hr Hz Ht Htb. unfold nova_apply_setattr_entry. loads.
  change (p + nova_setattr_logentry.entry_type) with (p + 0).
  rewrite (Z.add_0_r p), (rp_type _ _ Hr), decide_False by (rewrite Ht; by intros []).
  assert (ld 1 (vis (w_nvmm w)) (pi + nova_inode.i_blk_type) =
    ld 1 m (pi + nova_inode.i_blk_type)) as ->.
  { apply ld_frame. intros x Hx. apply (rp_mem _ _ Hr). unfold nova_inode.i_blk_type in Hx. lia. }
  loads.
  rewrite (rp_ld _ _ 2 nova_setattr_logentry.mode Hr)
    by first [by rewrite Ht|unfold nova_setattr_logentry.mode; lia].
  do 6 sized_store Hr Hz. loads. rewrite Hz.
  rewrite (rp_ld _ _ 8 nova_setattr_logentry.size Hr)
    by first [by rewrite Ht|unfold nova_setattr_logentry.size; lia].
  match goal with |- context [(_ ≫= ?kk) ?w1] =>
    destruct (truncate_run w1 i sz kk Hr Htb) as (w2&i2&Hrun&Hr2&_&Ht2&Hl2&Hm2) end.
  cbv zeta in Hrun. rewrite Hrun, bind_assoc, bind_store.
  match goal with |- context [set_nvmm (nvmm_write Cached (WBytes _ (le_split 8 ?v)) _) _] =>
    pose proof (rp_store w2 i2 8 nova_inode.i_size v ltac:(by vm_compute) ltac:(by vm_compute) Hr2)
      as Hr3 end.
  rewrite (bind_update_sih _ _ _ _ Hr3). eexists _, (InodeInfo _ _).
  split; [done|]. split; [by apply rp_sih|]. split; [|done].
  unfold sized. cbn. rewrite ld_st. apply Z.mod_small, (ld_range 8).
Qed.

Lemma link_change_run {B} w i sz (k : () → M B) :
  replaying w i → sized w sz → ld 1 m p = LINK_CHANGE →
  ∃ w', (nova_apply_link_change_entry pi p ≫= k) w = k () w' ∧ replaying w' i ∧ sized w' sz.
Proof.
  intros Hr Hz Ht. unfold nova_apply_link_change_entry. loads.
  change (p + nova_link_change_entry.entry_type) with (p + 0).
  rewrite Z.add_0_r, (rp_type _ _ Hr), decide_False by (rewrite Ht; by intros []).
  do 4 sized_store Hr Hz. by eexists.
Qed.
End entry.

Lemma entry_type_run {B} w p (k : Z → M B) :
  p ≠ 0 → (nova_get_entry_type (nova_get_block p) ≫= k) w = k (ld 1 (vis (w_nvmm w)) p) w.
Proof.
  intros Hp. unfold nova_get_entry_type, nova_get_block. by rewrite decide_False by done.
Qed.

Lemma goto_next_run {B} w cur (k : bool → M B) :
  cur ≠ 0 → (goto_next_page cur ≫= k) w = k (crosses (vis (w_nvmm w)) cur) w.
Proof.
  intros Hc. unfold goto_next_page, crosses. case_decide as Hd.
  { rewrite bind_mret, bool_decide_true by auto. done. }
  rewrite bind_assoc, entry_type_run by done. rewrite bind_mret. f_equal.
  apply bool_decide_ext. tauto.
Qed.

Lemma replay_position_run {B} w i cur (k : Z → M B) :
  replaying w i → 0 < cur < lim → 0 < position m cur < lim → Q cur →
  (crosses m cur = true → ∀ x, 0 ≤ x < 8 → Q (next_field (BLOCK_OFF cur) + x)) →
  0 ≤ log_pages (header i) → log_pages (header i) + Z.b2z (crosses m cur) < 2 ^ 64 →
  ∃ w' i', (replay_position h cur ≫= k) w = k (position m cur) w' ∧ replaying w' i' ∧
    w_nvmm w' = w_nvmm w ∧ tree (header i') = tree (header i) ∧
    mmap_pages (header i') = mmap_pages (header i) ∧
    log_pages (header i') = log_pages (header i) + Z.b2z (crosses m cur).
Proof.
  intros Hr Hcur Hpos HQc Hx Hl0 Hl1.
  destruct (position_frame Q m (vis (w_nvmm w)) ltac:(eauto using rp_Q) cur HQc Hx) as [Ec Ep].
  unfold replay_position. rewrite bind_assoc, goto_next_run, Ec by lia.
  unfold position in Ep, Hpos |- *. rewrite Ec in Ep. destruct (crosses m cur); cbn [Z.b2z] in Hl1 |- *.
  - unfold inc_log_pages. rewrite !bind_assoc, (bind_update_sih _ _ _ _ Hr).
    unfold next_log_page. rewrite bind_assoc, bind_block_ptr, bind_load by lia.
    cbn [w_nvmm set_inodes]. rewrite Ep, decide_False, bind_mret by lia.
    eexists _, _. split; [done|]. split; [by apply rp_sih|]. split_and!; [done..|].
    cbn. apply Z.mod_small. lia.
  - rewrite bind_assoc, bind_mret, decide_False, bind_mret by lia.
    exists w, i. split_and!; [done..|lia].
Qed.

(** Attributes and link counts. *)
Definition attr_size (p sz : Z) : Z :=
  if decide (ld 1 m p = SET_ATTR) then ld 8 m (p + nova_setattr_logentry.size) else sz.
Definition attr_tree (p sz : Z) (t : gmap Z Z) : gmap Z Z :=
  if decide (ld 1 m p = SET_ATTR) then truncated p sz t else t.

Lemma replay_attributes_run {B} w i sz p (k : option Z → M B) :
  replaying w i → sized w sz → 0 < p < lim → ent_ok K m p →
  (∀ x, entry_bytes m p (ent_len K m p) x → Q x) →
  ld 1 m p = LINK_CHANGE ∨ ld 1 m p = SET_ATTR ∧
    (S_ISREG (ld 2 m (p + nova_setattr_logentry.mode)) = true → truncatable i) →
  ∃ w' i', (replay_attributes pi h p (ld 1 m p) ≫= k) w = k (Some (p + 32)) w' ∧
    replaying w' i' ∧ sized w' (attr_size p sz) ∧
    has_tree (attr_tree p sz (tree (header i))) i i'.
Proof.
  intros Hr Hz Hp Hok HQp Hty. assert (u64 (p + 32) = p + 32) as Hu by (apply wrap_small; lia).
  unfold replay_attributes, attr_size, attr_tree. rewrite bind_assoc, bind_block_ptr by lia.
  destruct Hty as [Hl|[Hs Htb]].
  - rewrite Hl, !(decide_False (P := LINK_CHANGE = SET_ATTR)), decide_True by done.
    rewrite bind_assoc.
    match goal with |- context [(nova_apply_link_change_entry pi p ≫= ?kk) w] =>
      destruct (link_change_run p Hp Hok HQp w i sz kk Hr Hz Hl) as (w1&->&Hr1&Hz1) end.
    rewrite bind_assoc, (bind_update_sih _ _ _ _ Hr1), bind_mret.
    change nova_link_change_entry.sizeof with 32. rewrite Hu.
    eexists _, (InodeInfo _ _). split; [done|]. by split; [apply rp_sih|].
  - rewrite Hs, !(decide_True (P := SET_ATTR = SET_ATTR)) by done. rewrite bind_assoc.
    match goal with |- context [(nova_apply_setattr_entry pi h p ≫= ?kk) w] =>
      destruct (setattr_run p Hp Hok HQp w i sz kk Hr Hz Hs Htb) as (w1&i1&->&Hr1&Hz1&Ht1) end.
    rewrite bind_assoc, (bind_update_sih _ _ _ _ Hr1), bind_mret.
    change nova_setattr_logentry.sizeof with 32. rewrite Hu.
    eexists _, (InodeInfo _ _). split; [done|]. by split; [apply rp_sih|].
Qed.

Lemma count_log_pages_run bs : ∀ fuel b w i,
  (length bs < fuel)%nat → replaying w i → log_seg m (b * 4096) 0 (b :: bs) →
  (∀ c, c ∈ b :: bs → 0 < c ∧ ∀ x, 0 ≤ x < 8 → ¬ pi ≤ next_field (c * 4096) + x < pi + 92) →
  0 ≤ log_pages (header i) → log_pages (header i) + Z.of_nat (length bs) < 2 ^ 64 →
  ∃ w' i', count_log_pages fuel h (Some (b * 4096)) w = Done ((), w') ∧ replaying w' i' ∧
    w_nvmm w' = w_nvmm w ∧
    tree (header i') = tree (header i) ∧ sih_size (header i') = sih_size (header i) ∧
    log_pages (header i') = log_pages (header i) + Z.of_nat (length bs).
Proof.
  induction bs as [|c bs IH]; intros fuel b w i Hf Hr Hseg Hb Hl0 Hl1;
    (destruct fuel as [|fuel]; [cbn in Hf; lia|]); cbn [count_log_pages deref];
    destruct (Hb b ltac:(left)) as [Hb0 Hbx]; rewrite bind_mret, bind_load;
    (rewrite (ld_frame 8 m) by (intros x Hx; apply (rp_mem _ _ Hr);
       specialize (Hbx (x - next_field (b * 4096)) ltac:(lia)); lia));
    destruct Hseg as [_ Hseg]; cbn [length] in *.
  - cbn in Hseg. rewrite Hseg, decide_True by done. exists w, i.
    by split_and!; [..|lia].
  - pose proof Hseg as [Hnext Hseg']. destruct (Hb c ltac:(right; left)) as [Hc0 _].
    rewrite Hnext, decide_False by lia. unfold inc_log_pages.
    rewrite (bind_update_sih _ _ _ _ Hr). unfold nova_get_block. rewrite decide_False by lia.
    pose proof (rp_sih w i (λ s, sih_set_log_pages (u64 (log_pages s + 1)) s) Hr eq_refl) as Hr1.
    destruct (IH fuel c _ _ ltac:(lia) Hr1) as (w'&i'&Hrun&Hr'&En&Ht&Hz&Hl).
    + by rewrite <- Hnext at 1.
    + intros x Hx. apply Hb. by right.
    + cbn. unfold u64. apply Z.mod_pos_bound. lia.
    + cbn. unfold u64. rewrite Z.mod_small by lia. lia.
    + exists w', i'. split_and!; [done..|]. rewrite Hl. cbn. unfold u64.
      rewrite Z.mod_small by lia. lia.
Qed.

Lemma rebuild_finish_run w i b bs :
  replaying w i → BLOCK_OFF tail = b * 4096 → log_seg m (b * 4096) 0 (b :: bs) →
  (∀ c, c ∈ b :: bs → 0 < c ∧ ∀ x, 0 ≤ x < 8 → ¬ pi ≤ next_field (c * 4096) + x < pi + 92) →
  Z.of_nat (length bs) ≤ num_blocks s →
  0 ≤ log_pages (header i) → log_pages (header i) + Z.of_nat (length bs) < 2 ^ 64 →
  ∃ w' i', rebuild_finish pi h tail w = Done ((), w') ∧ replaying w' i' ∧
    vis (w_nvmm w') = vis (w_nvmm w) ∧ tree (header i') = tree (header i) ∧
    sih_size (header i') = ld 8 (vis (w_nvmm w)) (pi + nova_inode.i_size) ∧
    log_pages (header i') = log_pages (header i) + Z.of_nat (length bs).
Proof.
  intros Hr Ht Hseg Hb Hlen Hl0 Hl1. unfold rebuild_finish. loads.
  rewrite (bind_update_sih _ _ _ _ Hr). pose proof (rp_sih w i (sih_set_size (ld 8 (vis (w_nvmm w))
    (pi + nova_inode.i_size))) Hr eq_refl) as Hr1. loads.
  rewrite (bind_update_sih _ _ _ _ Hr1). 
  match goal with |- context [sih_set_mode ?md _] =>
    pose proof (rp_sih _ _ (sih_set_mode md) Hr1 eq_refl) as Hr2 end.
  rewrite bind_flush. apply (rp_flush _ _ pi nova_inode.sizeof false) in Hr2.
  rewrite bind_get_sbi, (rp_sbi _ _ Hr2), Ht. unfold nova_get_block.
  destruct (Hb b ltac:(left)) as [Hb0 _]. rewrite decide_False by lia.
  edestruct (count_log_pages_run bs) as (w'&i'&Hrun&Hr'&En&Htr&Hz&Hl); [|exact Hr2|exact Hseg|exact Hb|..];
    [| | |exists w', i'; rewrite En; by split_and!]; [lia|done..].
Qed.
End loop.

#[global] Arguments rp_mem {pi h m s w i}.
#[global] Arguments rp_inode {pi h m s w i}.
#[global] Arguments rp_sbi {pi h m s w i}.
#[global] Arguments rp_pi {pi h m s w i}.
#[global] Arguments rp_store {pi h m s} w {i}.
#[global] Arguments rp_sih {pi h m s w i}.
#[global] Arguments rp_flush {pi h m s w i}.
#[global] Arguments rp_Q {Q pi h m s} HQ {w i x}.
#[global] Arguments bind_update_sih {pi h m s B w i}.
#[global] Arguments rp_ld K {Q pi h m s} HQ {p} Hok HQp {w i}.
#[global] Arguments rp_type K {Q pi h m s} HQ {p} Hok HQp {w i}.
#[global] Arguments replay_position_run {Q lim pi h m s} HQ Hlim {B}.
#[global] Arguments replay_attributes_run {H H0} K {Q lim pi h m s} HQ Hlim {B}.
#[global] Arguments rebuild_finish_run {pi h tail m s w i}.

Ltac loads := repeat first [rewrite bind_assoc | rewrite bind_load].
(** A store to an attribute, for [Hr : replaying ..]. *)
Ltac attr_store Hr :=
  loads; rewrite bind_store;
  match goal with
  |- context [set_nvmm (nvmm_write Cached (WBytes (?pi + ?o) (le_split ?n ?v)) (w_nvmm ?w1)) ?w1] =>
    let w2 := fresh "w'" in
    apply (rp_store w1 n o v ltac:(by vm_compute) ltac:(by vm_compute)) in Hr; revert Hr;
    generalize (set_nvmm (nvmm_write Cached (WBytes (pi + o) (le_split n v)) (w_nvmm w1)) w1);
    intros w2 Hr end.

(** Where the walk may read: not in the inode, and not behind the tail. *)
Definition log_space (pi tail x : Z) : Prop :=
  ¬ pi ≤ x < pi + nova_inode.sizeof ∧ ¬ tail ≤ x ≤ BLOCK_OFF tail + LAST_ENTRY.

(** The page [b] of the tail and the pages [bs] behind it, apart from the inode. *)
Record tail_pages (m : mem) (n pi b : Z) (bs : list Z) : Prop := {
  tp_tail : BLOCK_OFF (ld 8 m (pi + nova_inode.log_tail)) = b * 4096;
  tp_pages : log_seg m (b * 4096) 0 (b :: bs);
  tp_nodup : NoDup (b :: bs);
  tp_apart c : c ∈ b :: bs →
    0 < c < n ∧ (pi + nova_inode.sizeof ≤ c * 4096 ∨ c * 4096 + 4096 ≤ pi)
}.
#[global] Arguments tp_tail {m n pi b bs}.
#[global] Arguments tp_pages {m n pi b bs}.
#[global] Arguments tp_nodup {m n pi b bs}.
#[global] Arguments tp_apart {m n pi b bs}.

Lemma tail_pages_length m n pi b bs : tail_pages m n pi b bs → Z.of_nat (length bs) < n.
Proof.
  intros Hp. assert (length (b :: bs) ≤ length (seqZ 0 n))%nat as Hl.
  { apply submseteq_length, NoDup_submseteq; [apply Hp|]. intros x Hx. apply elem_of_seqZ.
    destruct (tp_apart Hp x Hx). lia. }
  rewrite length_seqZ in Hl. cbn in Hl. destruct (tp_apart Hp b ltac:(left)). lia.
Qed.

Lemma tail_pages_links m n pi b bs c :
  tail_pages m n pi b bs → c ∈ b :: bs →
  0 < c ∧ ∀ x, 0 ≤ x < 8 → ¬ pi ≤ next_field (c * 4096) + x < pi + 92.
Proof.
  intros Hp Hc. destruct (tp_apart Hp c Hc) as [? Ha]. split; [lia|]. intros x Hx.
  rewrite next_field_eq. unfold nova_inode.sizeof in Ha. lia.
Qed.
