(* ===== verification/FileReplay.v ===== *)
(** * Replaying the log of a file (bbuild.c, inode.c)

    The page tree of a file is what its log says: write entries point their
    pages to themselves, an attribute entry with a smaller size drops pages.
    An entry all of whose pages are counted as invalid is passed over. *)
From S2P Require Import Prelude Nvmm RangeTree Layout World Balloc BallocList BallocProofs.
From S2P Require Import Log LogPages LogProofs FileTree Inode Journal InodeMap Dir Rebuild.
From S2P Require Import InodeCycle Dax DaxProofs AssignProofs Truncate FileInv File Namei DirProofs LogWalk.

(** ** What a log denotes *)
Definition write_len (m : mem) (p : Z) : Z :=
  if decide (ld 1 m p = FILE_WRITE) then nova_file_write_entry.sizeof else 32.

(** An entry of the log of a file. *)
Record write_ok (m : mem) (p : Z) : Prop := {
  wo_type : ld 1 m p = FILE_WRITE ∨ ld 1 m p = LINK_CHANGE ∨ ld 1 m p = SET_ATTR;
  wo_len : 32 ≤ write_len m p ∧ ENTRY_LOC p + write_len m p ≤ LAST_ENTRY;
  wo_pages : ld 1 m p = FILE_WRITE → we_pgoff m p + we_num m p ≤ 2 ^ 52
}.

Lemma write_fields m m' p :
  write_ok m p → (∀ x, entry_bytes m p (write_len m p) x → ld8 m' x = ld8 m x) →
  ld 1 m' p = ld 1 m p ∧
  (ld 1 m p = FILE_WRITE → same_fields m m' p ∧ ∀ n o, 24 ≤ o → o + Z.of_nat n ≤ 40 →
     ld n m' (p + o) = ld n m (p + o)) ∧
  (ld 1 m p ≠ FILE_WRITE → ∀ n o, 0 ≤ o → o + Z.of_nat n ≤ 32 → ld n m' (p + o) = ld n m (p + o)).
Proof.
  intros Hok Hm. pose proof (wo_len _ _ Hok) as [Hl _]. split_and!.
  - apply ld_frame. intros x Hx. apply Hm. replace x with p by lia. apply entry_bytes_type. lia.
  - intros Hw. assert (write_len m p = 40) as Hlen by (unfold write_len; by rewrite decide_True).
    rewrite Hlen in Hm. assert (∀ x, p ≤ x < p + 20 ∨ p + 24 ≤ x < p + 40 → ld8 m' x = ld8 m x) as Hx.
    { intros x Hx. apply Hm. split; [lia|]. intros [_ ?]. offsets. }
    split; [apply same_fields_frame; intros x Hr; apply Hx; offsets|].
    intros n o Ho Hn. apply ld_frame. intros x Hr. apply Hx. lia.
  - intros Hw n o Ho Hn. apply ld_frame. intros x Hx. apply Hm. split; [lia|]. by intros [? _].
Qed.

Lemma write_frame m m' p :
  write_ok m p → (∀ x, entry_bytes m p (write_len m p) x → ld8 m' x = ld8 m x) →
  write_ok m' p ∧ write_len m' p = write_len m p.
Proof.
  intros Hok Hm. destruct (write_fields m m' p Hok Hm) as (Ht&Hf&_).
  assert (write_len m' p = write_len m p) as Hlen by (unfold write_len; by rewrite Ht).
  split; [|done]. destruct Hok as [Hty Hfit Hpg]. split; rewrite ?Ht, ?Hlen; try done.
  intros Hw. destruct (Hf Hw) as [(_&->&->) _]. by apply Hpg.
Qed.

Definition file_kind : log_kind := LogKind write_len write_ok wo_len write_frame.

(** The tree and the size after one entry, and after a log. *)
Definition file_step (m : mem) (st : gmap Z Z * Z) (p : Z) : gmap Z Z * Z :=
  if decide (ld 1 m p = FILE_WRITE) then
    (if decide (we_num m p = we_invalid m p) then st.1 else point m st.1 p,
     ld 8 m (p + nova_file_write_entry.size))
  else (attr_tree m p st.2 st.1, attr_size m p st.2).

Definition file_replay (m : mem) (st : gmap Z Z * Z) (ps : list Z) : gmap Z Z * Z :=
  foldl (file_step m) st ps.

(** ** The replay *)
Section loop.
Context `{RbTree} `{Env} `{Vfs}.
Context (Q : Z → Prop) (lim pi h tail : Z) (m : mem) (s : nova_sb_info).
Context (HQ : ∀ x, Q x → ¬ pi ≤ x < pi + nova_inode.sizeof) (Hlim : lim ≤ 2 ^ 56).
Context (Hradix : ∀ t, radix_node_alloc t = true).
Context (Htail : ld 8 m (pi + nova_inode.log_tail) = tail).
#[local] Abbreviation replaying := (replaying pi h m s).
#[local] Abbreviation sized := (sized pi).
#[local] Abbreviation truncatable := (truncatable Q pi m).

(** Pointing pages to an entry without freeing what they had. *)
Lemma assign_replay_run e pages : ∀ w i ret,
  replaying w i →
  ∃ r w' i', assign_loop pi h e false pages ret w = Done (r, w') ∧ replaying w' i' ∧
    w_nvmm w' = w_nvmm w ∧ has_tree (foldl (λ t p, <[p := e]> t) (tree (header i)) pages) i i'.
Proof.
  induction pages as [|p pages IH]; intros w i ret Hr; cbn [assign_loop foldl].
  { by exists ret, w, i. }
  rewrite (bind_get_sih _ _ _ _ (rp_inode Hr)).
  destruct (tree (header i) !! p) as [e'|] eqn:He.
  - unfold get_nvmm. loads. rewrite !bind_mret, (bind_update_sih _ _ Hr).
    match goal with |- context [sih_set_tree _ _] =>
      pose proof (rp_sih (λ s, sih_set_tree (<[p := e]> (tree s)) s) Hr eq_refl) as Hr1 end.
    destruct (IH _ _ ret Hr1) as (r&w'&i'&Hrun&Hr'&En&Ht&Hl&Hm). by exists r, w', i'.
  - unfold radix_tree_insert. rewrite bind_assoc, (bind_get_sih _ _ _ _ (rp_inode Hr)), He.
    rewrite decide_False by (by intros []). run. rewrite Hradix. run.
    assert (replaying (next_tick w) i) as Hr0 by (by destruct Hr).
    rewrite (bind_update_sih _ _ Hr0). run. rewrite decide_False by lia.
    pose proof (rp_sih (λ s, sih_set_tree (<[p := e]> (tree s)) s) Hr0 eq_refl) as Hr1.
    destruct (IH _ _ (Some 0) Hr1) as (r&w'&i'&Hrun&Hr'&En&Ht&Hl&Hm). by exists r, w', i'.
Qed.

Lemma foldl_insert (t : gmap Z Z) e pages q :
  foldl (λ t p, <[p := e]> t) t pages !! q = if decide (q ∈ pages) then Some e else t !! q.
Proof.
  revert t. induction pages as [|p pages IH]; intros t; [done|]. cbn [foldl]. rewrite IH.
  destruct (decide (q ∈ pages)); [by rewrite decide_True by (by right)|].
  destruct (decide (q = p)) as [->|Hne].
  - by rewrite lookup_insert_eq, decide_True by left.
  - rewrite lookup_insert_ne by done. rewrite decide_False; [done|]. set_solver.
Qed.

Section entry.
Context (p : Z) (Hp : 0 < p < lim) (Hok : write_ok m p) (Hw : ld 1 m p = FILE_WRITE).
Context (HQp : ∀ x, entry_bytes m p (write_len m p) x → Q x).

(** The entry does not overlap the inode: the inode is longer than the field
    that the walk does not read. *)
Lemma write_field w i n o :
  replaying w i → 0 ≤ o → o + Z.of_nat n ≤ 40 → ld n (vis (w_nvmm w)) (p + o) = ld n m (p + o).
Proof.
  intros Hr Ho Hn. apply ld_frame. intros x Hx. apply (rp_mem Hr).
  assert (∀ y, p ≤ y < p + 20 ∨ p + 24 ≤ y < p + 40 → ¬ pi ≤ y < pi + nova_inode.sizeof) as Hy.
  { intros y Hy. apply HQ, HQp. unfold write_len. rewrite decide_True by done.
    split; [offsets|]. intros [_ ?]. offsets. }
  pose proof (Hy (p + 19)). pose proof (Hy (p + 24)). pose proof (Hy x). offsets.
Qed.

Lemma assign_entry_replay {B} w i (k : option Z → M B) :
  replaying w i →
  ∃ r w' i', (nova_assign_write_entry pi h p false ≫= k) w = k r w' ∧ replaying w' i' ∧
    w_nvmm w' = w_nvmm w ∧ has_tree (point m (tree (header i)) p) i i'.
Proof.
  intros Hr. unfold nova_assign_write_entry. loads.
  rewrite (write_field w i 8 _ Hr) by (by vm_compute).
  rewrite (write_field w i 4 nova_file_write_entry.num_pages Hr) by (by vm_compute).
  fold (we_pgoff m p) (we_num m p). pose proof (wo_pages _ _ Hok Hw) as Hpg.
  assert (0 ≤ we_pgoff m p) by apply (ld_range 8).
  replace ((λ i0, u64 (we_pgoff m p + i0)) <$> seqZ 0 (we_num m p))
    with (seqZ (we_pgoff m p) (we_num m p)).
  2: { rewrite <- (list_fmap_id (seqZ (we_pgoff m p) _)). apply fmap_seqZ_ext.
       intros j Hj. cbn. rewrite wrap_small by lia. lia. }
  destruct (assign_replay_run p (seqZ (we_pgoff m p) (we_num m p)) w i None Hr)
    as (r&w'&i'&Hrun&Hr'&En&Ht&Hl&Hm).
  rewrite (bind_run _ _ _ _ _ Hrun). exists r, w', i'. split_and!; try done.
  split; [|done]. rewrite Ht. apply map_eq. intros q. by rewrite foldl_insert, lookup_point.
Qed.
(** One write entry. *)
Lemma write_entry_run {B} w i (k : M B) :
  replaying w i →
  ∃ w' i', (num ← load 4 (p + nova_file_write_entry.num_pages);
      invalid ← load 4 (p + nova_file_write_entry.invalid_pages);
      (if decide (num ≠ invalid) then
         _ ← nova_assign_write_entry pi h p false; mret ()
       else mret ()) ;;
      nova_rebuild_file_time_and_size pi p ;;
      i_size ← load 8 (pi + nova_inode.i_size);
      update_sih h (sih_set_size i_size) ;; k) w = k w' ∧
    replaying w' i' ∧ sized w' (ld 8 m (p + nova_file_write_entry.size)) ∧
    has_tree (if decide (we_num m p = we_invalid m p) then tree (header i)
              else point m (tree (header i)) p) i i'.
Proof.
  intros Hr. loads.
  rewrite (write_field w i 4 nova_file_write_entry.num_pages Hr) by (by vm_compute).
  rewrite (write_field w i 4 nova_file_write_entry.invalid_pages Hr) by (by vm_compute).
  fold (we_num m p) (we_invalid m p).
  assert (∀ B (k : () → M B), ∃ w1 i1, ((if decide (we_num m p ≠ we_invalid m p) then
       _ ← nova_assign_write_entry pi h p false; mret () else mret ()) ≫= k) w = k () w1 ∧
     replaying w1 i1 ∧ has_tree (if decide (we_num m p = we_invalid m p) then tree (header i)
              else point m (tree (header i)) p) i i1) as Hassign.
  { intros B' k'. destruct (decide (we_num m p = we_invalid m p)) as [E|E].
    - rewrite decide_False by auto. by exists w, i.
    - rewrite decide_True by done. rewrite bind_assoc.
      destruct (assign_entry_replay w i (λ _, mret () ≫= k') Hr) as (r&w1&i1&->&Hr1&_&Ht).
      by exists w1, i1. }
  match goal with |- context [(_ ≫= ?kk) w] =>
    destruct (Hassign B kk) as (w1&i1&->&Hr1&Ht1) end.
  unfold nova_rebuild_file_time_and_size. do 2 attr_store Hr1. loads. rewrite bind_store, bind_load.
  rewrite (write_field _ i1 8 nova_file_write_entry.size Hr1) by (by vm_compute).
  match goal with |- context [set_nvmm (nvmm_write Cached (WBytes _ (le_split 8 ?v)) (w_nvmm ?w2)) _] =>
    pose proof (rp_store w2 8 nova_inode.i_size v ltac:(by vm_compute) ltac:(by vm_compute) Hr1)
      as Hr2 end.
  rewrite (bind_update_sih _ _ Hr2). eexists _, (InodeInfo _ _). split; [done|].
  split; [by apply rp_sih|]. split; [|done].
  unfold LogWalk.sized. cbn. rewrite ld_st. apply Z.mod_small, (ld_range 8).
Qed.
End entry.

(** Pages keep pointing to entries the walk has passed. *)
Lemma step_truncatable i i' p sz :
  truncatable i → (∀ x, entry_bytes m p (write_len m p) x → Q x) →
  has_tree (file_step m (tree (header i), sz) p).1 i i' → truncatable i'.
Proof.
  intros [Hpi Hty Hmm Htr] HQp (Ht&_&Hm). split; [done|done|by rewrite Hm|].
  rewrite Ht. unfold file_step. intros q e. cbn [fst snd].
  destruct (decide (ld 1 m p = FILE_WRITE)) as [Hw|Hw]; cbn [fst].
  - case_decide; [apply Htr|]. rewrite lookup_point. case_decide as Hq; [|apply Htr].
    intros [= <-]. apply elem_of_seqZ in Hq. split; [lia|]. intros x Hx. apply HQp.
    unfold write_len. rewrite decide_True by done. split; [offsets|]. intros [_ ?]. offsets.
  - unfold attr_tree. case_decide; [|apply Htr]. unfold truncated. cbv zeta.
    match goal with |- context [decide (_ > _ ∧ _)] => destruct (decide (_ > _ ∧ _)) end; [|apply Htr].
    rewrite lookup_without. match goal with |- context [decide ?P] => destruct (decide P) end;
      [done|apply Htr].
Qed.

(** One entry of the log. *)
Lemma file_entry_run fuel w i sz p :
  replaying w i → sized w sz → truncatable i → 0 < p < lim → write_ok m p →
  (∀ x, entry_bytes m p (write_len m p) x → Q x) →
  ∃ w' i', (type ← nova_get_entry_type (nova_get_block p);
      next ← replay_attributes pi h p type;
      match next with
      | Some next => rebuild_file_loop fuel pi h next
      | None =>
        if decide (type ≠ FILE_WRITE)
        then rebuild_file_loop fuel pi h (u64 (p + nova_file_write_entry.sizeof)) else
        entry ← block_ptr p;
        num ← load 4 (entry + nova_file_write_entry.num_pages);
        invalid ← load 4 (entry + nova_file_write_entry.invalid_pages);
        (if decide (num ≠ invalid) then
           _ ← nova_assign_write_entry pi h entry false; mret ()
         else mret ()) ;;
        nova_rebuild_file_time_and_size pi entry ;;
        i_size ← load 8 (pi + nova_inode.i_size);
        update_sih h (sih_set_size i_size) ;;
        rebuild_file_loop fuel pi h (u64 (p + nova_file_write_entry.sizeof))
      end) w = rebuild_file_loop fuel pi h (p + write_len m p) w' ∧ replaying w' i' ∧
    sized w' (file_step m (tree (header i), sz) p).2 ∧
    has_tree (file_step m (tree (header i), sz) p).1 i i'.
Proof.
  intros Hr Hz Htb Hp Hok HQp. rewrite entry_type_run by lia.
  rewrite (rp_type file_kind HQ Hok HQp Hr). unfold file_step, write_len. cbn [fst snd].
  destruct (decide (ld 1 m p = FILE_WRITE)) as [Hw|Hw].
  - unfold replay_attributes. rewrite bind_assoc, bind_block_ptr, Hw by lia.
    rewrite (decide_False (P := _ ≠ _)) by (by intros []).
    rewrite !(decide_False (P := FILE_WRITE = _)) by done. rewrite bind_mret, bind_block_ptr by lia.
    rewrite (wrap_small 64) by (unfold nova_file_write_entry.sizeof; lia).
    by apply (write_entry_run p Hok Hw HQp w i).
  - match goal with |- context [(replay_attributes pi h p _ ≫= ?kk) w] =>
      destruct (replay_attributes_run file_kind HQ Hlim w i sz p kk Hr Hz Hp Hok HQp)
        as (w'&i'&->&Hr'&Hz'&Ht') end.
    { destruct (wo_type _ _ Hok) as [?|[?|?]]; [done|by left|by right]. }
    by exists w', i'.
Qed.

Lemma rebuild_file_loop_run cur ps k :
  log_walk file_kind Q lim m tail cur ps k → ∀ fuel w i sz,
  (length ps < fuel)%nat → replaying w i → sized w sz → truncatable i →
  0 ≤ log_pages (header i) → log_pages (header i) + k < 2 ^ 64 →
  ∃ w' i', rebuild_file_loop fuel pi h cur w = Done (tail, w') ∧ replaying w' i' ∧
    tree (header i') = (file_replay m (tree (header i), sz) ps).1 ∧
    sized w' (file_replay m (tree (header i), sz) ps).2 ∧
    log_pages (header i') = log_pages (header i) + k.
Proof.
  induction 1 as [|cur ps k p Hne Hcur Hp Hok HQc Hx HQp Hw IH];
    intros fuel w i sz Hf Hr Hz Htb Hl0 Hl1; (destruct fuel as [|fuel]; [cbn in Hf; lia|]);
    cbn [rebuild_file_loop]; rewrite bind_load;
    (rewrite (ld_frame 8 m) by (intros x Hx'; apply (rp_mem Hr);
      unfold nova_inode.log_tail in Hx'; lia)); rewrite Htail.
  { rewrite decide_True by done. exists w, i. by rewrite Z.add_0_r. }
  rewrite decide_False by done. change (ent_len file_kind) with write_len in *.
  change (write_ok m p) in Hok. pose proof (walk_crossings _ _ _ _ _ _ _ _ Hw) as Hk.
  match goal with |- context [(replay_position h cur ≫= ?kk) w] =>
    destruct (replay_position_run HQ Hlim w i cur kk Hr) as (w1&i1&->&Hr1&En&Ht1&Hm1&Hlp);
      [done..|lia|] end.
  fold p. assert (sized w1 sz) as Hz1 by (unfold LogWalk.sized; by rewrite En).
  assert (truncatable i1) as Htb1 by (destruct Htb; by split; rewrite ?Hm1, ?Ht1).
  destruct (file_entry_run fuel w1 i1 sz p Hr1 Hz1 Htb1 Hp Hok HQp) as (w2&i2&->&Hr2&Hz2&Ht2).
  pose proof (step_truncatable _ _ _ _ Htb1 HQp Ht2) as Htb2. destruct Ht2 as (Ht2&Hl2&_).
  rewrite Ht1 in *. assert (0 ≤ Z.b2z (crosses m cur)) by (destruct (crosses m cur); cbn; lia).
  cbn [length] in Hf.
  destruct (IH fuel w2 i2 _ ltac:(lia) Hr2 Hz2 Htb2) as (w'&i'&Hrun&Hr'&Ht'&Hz'&Hl'); [lia..|].
  exists w', i'. rewrite Ht2, <- surjective_pairing in Ht', Hz'. split_and!; try done. lia.
Qed.
End loop.

(** ** A file and its log *)

(** The log of the inode at [pi] passes the entries [ps], [k] page boundaries,
    and goes on with the page [b] of its tail and the pages [bs]. *)
Record file_log (m : mem) (n pi : Z) (ps : list Z) (k b : Z) (bs : list Z) : Prop := {
  fl_head : ld 8 m (pi + nova_inode.log_head) ≠ 0;
  fl_walk : log_walk file_kind (log_space pi (ld 8 m (pi + nova_inode.log_tail))) (n * 4096) m
              (ld 8 m (pi + nova_inode.log_tail)) (ld 8 m (pi + nova_inode.log_head)) ps k;
  fl_rest : tail_pages m n pi b bs
}.

(** The tree and the size a log denotes. *)
Definition log_denotes (m : mem) (pi : Z) (ps : list Z) : gmap Z Z * Z :=
  file_replay m (∅, ld 8 m (pi + nova_inode.i_size)) ps.

Section theorems.
Context `{RbTree} `{Env} `{Vfs}.

Lemma rebuild_file_run w h i pi ps k b bs :
  let m := vis (w_nvmm w) in let n := num_blocks (w_sbi w) in
  w_inodes w !! h = Some i → tree (header i) = ∅ → mmap_pages (header i) = 0 →
  0 < pi < 2 ^ 56 → n < 2 ^ 44 → (∀ t, radix_node_alloc t = true) →
  ld 1 m (pi + nova_inode.i_blk_type) = NOVA_BLOCK_TYPE_4K →
  file_log m n pi ps k b bs →
  ∃ w' i', nova_rebuild_file_inode_tree pi pi h w = Done (0, w') ∧
    replaying pi h m (w_sbi w) w' i' ∧
    (tree (header i'), sih_size (header i')) = log_denotes m pi ps ∧
    log_pages (header i') = 1 + k + Z.of_nat (length bs).
Proof.
  intros m n Hi Ht Hmm Hpi Hn Hradix Hty [Hhead Hwalk Hrest].
  pose proof (tail_pages_length _ _ _ _ _ Hrest) as Hlen. pose proof Hrest as [Htail Hpages _ _].
  pose proof (walk_length _ _ _ _ _ _ _ _ Hwalk). pose proof (walk_crossings _ _ _ _ _ _ _ _ Hwalk).
  unfold nova_rebuild_file_inode_tree. rewrite bind_load.
  rewrite (bind_run _ _ _ _ _ (update_sih_run _ _ _ _ Hi)), !bind_load. cbn [w_nvmm set_inodes].
  rewrite decide_False by (by intros []). set (i1 := InodeInfo _ _). set (w1 := set_inodes _ w).
  assert (replaying pi h m (w_sbi w) w1 i1) as Hr1 by (split; [done|apply lookup_insert_eq|done..]).
  rewrite (bind_update_sih _ _ Hr1), bind_get_sbi.
  pose proof (rp_sih (sih_set_log_pages 1) Hr1 eq_refl) as Hr2. rewrite (rp_sbi Hr2). fold n.
  assert (∀ x, log_space pi (ld 8 m (pi + nova_inode.log_tail)) x →
    ¬ pi ≤ x < pi + nova_inode.sizeof) as HQ by (by intros x [? _]).
  match type of Hr2 with replaying _ _ _ _ ?w2 ?i2 =>
    destruct (rebuild_file_loop_run _ (n * 4096) pi h _ m (w_sbi w) HQ ltac:(lia) Hradix eq_refl
      _ _ _ Hwalk (S (Z.to_nat (n * 4096))) w2 i2 (ld 8 m (pi + nova_inode.i_size)))
      as (w3&i3&Hrun3&Hr3&Ht3&Hz3&Hl3); [lia|done|done| |cbn; lia|cbn; lia|] end.
  { split; [done|done|done|]. intros q e. cbn. by rewrite Ht. }
  cbn in Hl3, Ht3, Hz3. rewrite Ht in Ht3, Hz3. fold m. rewrite (bind_run _ _ _ _ _ Hrun3).
  destruct (rebuild_finish_run b bs Hr3 Htail Hpages) as (w4&i4&Hrun4&Hr4&Ev&Ht4&Hz4&Hl4);
    [intros c Hc; by eapply tail_pages_links|lia..|].
  rewrite (bind_run _ _ _ _ _ Hrun4), (bind_get_sih _ _ _ _ (rp_inode Hr4)), bind_store.
  eexists _, i4. split; [reflexivity|]. split; [by apply rp_store|]. split; [|lia].
  unfold log_denotes. rewrite Ht4, Ht3, Hz4, Hz3. by rewrite <- surjective_pairing.
Qed.

Lemma rebuild_inode_run w h i pi ps k b bs :
  let m := vis (w_nvmm w) in
  w_inodes w !! h = Some i → 0 < pi < 2 ^ 56 → num_blocks (w_sbi w) < 2 ^ 44 →
  (∀ t, radix_node_alloc t = true) →
  ld 1 m (pi + nova_inode.valid) ≠ 0 →
  ld 1 m (pi + nova_inode.i_blk_type) = NOVA_BLOCK_TYPE_4K →
  Z.land (ld 2 m (pi + nova_inode.i_mode)) S_IFMT = S_IFLNK ∨
  Z.land (ld 2 m (pi + nova_inode.i_mode)) S_IFMT = S_IFREG →
  file_log m (num_blocks (w_sbi w)) pi ps k b bs →
  ∃ w' i', nova_rebuild_inode h pi w = Done (0, w') ∧ replaying pi h m (w_sbi w) w' i' ∧
    (tree (header i'), sih_size (header i')) = log_denotes m pi ps ∧
    log_pages (header i') = 1 + k + Z.of_nat (length bs).
Proof.
  intros m Hi Hpi Hn Hradix Hvalid Hty Hmode Hd. unfold nova_rebuild_inode.
  rewrite bind_block_ptr by lia. rewrite bind_load. fold m. rewrite decide_False by done.
  rewrite bind_load, bind_load. fold m. unfold nova_init_header.
  rewrite (bind_run _ _ _ _ _ (update_sih_run _ _ _ _ Hi)).
  match goal with |- context [(update_sih h ?f ≫= _) ?w0] =>
    rewrite (bind_run _ _ _ _ _ (update_sih_run w0 h _ f ltac:(apply lookup_insert_eq))) end.
  rewrite decide_True by done. rewrite bind_assoc.
  match goal with |- context [(nova_rebuild_file_inode_tree pi pi h ≫= _) ?w0] =>
    destruct (rebuild_file_run w0 h _ pi ps k b bs ltac:(apply lookup_insert_eq)
      eq_refl eq_refl Hpi Hn Hradix Hty Hd) as (w'&i'&Hrun&Hr&Ht&Hl) end.
  rewrite (bind_run _ _ _ _ _ Hrun), bind_mret.
  by exists w', i'.
Qed.

(** C6. Rebuilding a file.  When the log of a regular file or a symbolic link
    is well formed, [nova_rebuild_inode] terminates with success and gives the
    inode in memory exactly the page tree and the size the log denotes (the
    write entries in order, with the truncations between them) and the number
    of pages of the log.  On the medium it changes nothing but attributes of
    the inode. *)
Theorem rebuild_file_replays w h i pi ps k b bs :
  let m := vis (w_nvmm w) in
  w_inodes w !! h = Some i → 0 < pi < 2 ^ 56 → num_blocks (w_sbi w) < 2 ^ 44 →
  (∀ t, radix_node_alloc t = true) →
  ld 1 m (pi + nova_inode.valid) ≠ 0 →
  ld 1 m (pi + nova_inode.i_blk_type) = NOVA_BLOCK_TYPE_4K →
  Z.land (ld 2 m (pi + nova_inode.i_mode)) S_IFMT = S_IFLNK ∨
  Z.land (ld 2 m (pi + nova_inode.i_mode)) S_IFMT = S_IFREG →
  file_log m (num_blocks (w_sbi w)) pi ps k b bs →
  ∃ w' i', nova_rebuild_inode h pi w = Done (0, w') ∧ w_inodes w' !! h = Some i' ∧
    (tree (header i'), sih_size (header i')) = log_denotes m pi ps ∧
    pi_addr (header i') = pi ∧ log_pages (header i') = 1 + k + Z.of_nat (length bs) ∧
    ∀ x, ¬ pi + 4 ≤ x < pi + 60 → ld8 (vis (w_nvmm w')) x = ld8 m x.
Proof.
  intros m Hi Hpi Hn Hradix Hvalid Hty Hmode Hd.
  destruct (rebuild_inode_run w h i pi ps k b bs) as (w'&i'&Hrun&Hr&Ht&Hl); [done..|].
  exists w', i'. split; [done|]. split_and!; [apply Hr|done|apply Hr|done|].
  intros x. apply (rp_mem Hr).
Qed.
End theorems.

Section instances.
#[local] Existing Instances bst_rb env1 vfs1.

(** A file whose inode is at 1024 and whose log has one page, block 2: three
    pages were written, the file was cut to 4097 bytes, and page 0 was
    written again. *)
Definition cut_mem : mem :=
  let m := st_bytes ∅ 8192 (encode_write_entry (5 * 4096) 0 3 0 0 0 12288) in
  let m := st_bytes m 8232 [SET_ATTR] in
  let m := st_bytes m (8232 + nova_setattr_logentry.mode) (le_split 2 S_IFREG) in
  let m := st_bytes m (8232 + nova_setattr_logentry.size) (le_split 8 4097) in
  let m := st_bytes m 8264 (encode_write_entry (8 * 4096) 0 1 0 0 0 4097) in
  let m := st_bytes m (1024 + nova_inode.valid) [1] in
  let m := st_bytes m (1024 + nova_inode.i_mode) (le_split 2 S_IFREG) in
  let m := st_bytes m (1024 + nova_inode.log_head) (le_split 8 8192) in
  st_bytes m (1024 + nova_inode.log_tail) (le_split 8 8304).
Definition cut_world : world :=
  World (nvmm_boot cut_mem) small_sbi ∅ 0
    {[1 := InodeInfo (Sih ∅ ∅ 0 0 0 0 0 0 0 0 0 0 0)
             (VfsInode 20 0 1 0 0 0 0 0 0 0 0 0 0 false)]} [].

Lemma cut_entry cur ps :
  cur = 8192 ∨ cur = 8232 ∨ cur = 8264 →
  log_walk file_kind (log_space 1024 8304) (21 * 4096) cut_mem 8304 (cur + write_len cut_mem cur) ps 0 →
  log_walk file_kind (log_space 1024 8304) (21 * 4096) cut_mem 8304 cur (cur :: ps) 0.
Proof.
  intros Hcur Hw.
  assert (position cut_mem cur = cur ∧ crosses cut_mem cur = false ∧ write_ok cut_mem cur ∧
    (write_len cut_mem cur = 40 ∨ cur = 8232 ∧ write_len cut_mem cur = 32)) as (Ep&Ec&Hok&Hlen).
  { destruct Hcur as [->|[->| ->]]; (split; [by vm_compute|]; split; [by vm_compute|]; split;
      [split; [vm_compute; tauto|vm_compute; split; discriminate|vm_compute; discriminate]|]);
      [left|right; split|left]; by vm_compute. }
  assert (BLOCK_OFF 8304 + LAST_ENTRY = 12256) as Hoff by by vm_compute.
  assert (log_walk file_kind (log_space 1024 8304) (21 * 4096) cut_mem 8304 cur
    (position cut_mem cur :: ps) (0 + Z.b2z (crosses cut_mem cur))) as Hw'.
  { apply walk_entry; change (ent_len file_kind) with write_len; rewrite ?Ep, ?Ec; try done;
      unfold log_space, nova_inode.sizeof; rewrite ?Hoff; try lia. intros x [Hx _]. lia. }
  by rewrite Ep, Ec in Hw'.
Qed.

Lemma cut_log : file_log cut_mem 21 1024 [8192; 8232; 8264] 0 2 [].
Proof.
  assert (ld 8 cut_mem (1024 + nova_inode.log_tail) = 8304) as Ht by by vm_compute.
  assert (ld 8 cut_mem (1024 + nova_inode.log_head) = 8192) as Hh by by vm_compute.
  split; [by rewrite Hh|rewrite Ht, Hh|split; rewrite ?Ht].
  - apply cut_entry; [lia|]. replace (8192 + _) with 8232 by (by vm_compute).
    apply cut_entry; [lia|]. replace (8232 + _) with 8264 by (by vm_compute).
    apply cut_entry; [lia|]. replace (8264 + _) with 8304 by (by vm_compute). constructor.
  - by vm_compute.
  - split; [lia|by vm_compute].
  - apply NoDup_singleton.
  - intros c ->%list_elem_of_singleton. unfold nova_inode.sizeof. lia.
Qed.

(** Page 0 is in block 8, page 1 in block 6, and page 2 is gone. *)
Lemma rebuild_file_replays_witness :
  ∃ w' i', nova_rebuild_inode 1 1024 cut_world = Done (0, w') ∧ w_inodes w' !! 1 = Some i' ∧
    tree (header i') = {[0 := 8264; 1 := 8192]} ∧ sih_size (header i') = 4097.
Proof.
  destruct (rebuild_file_replays cut_world 1 _ 1024 [8192; 8232; 8264] 0 2 [] eq_refl)
    as (w'&i'&Hrun&Hi'&Ht&_).
  - lia.
  - by vm_compute.
  - reflexivity.
  - by vm_compute.
  - by vm_compute.
  - right. by vm_compute.
  - exact cut_log.
  - exists w', i'. split; [exact Hrun|]. split; [exact Hi'|].
    assert (log_denotes cut_mem 1024 [8192; 8232; 8264] = ({[0 := 8264; 1 := 8192]}, 4097)) as Hd
      by (by vm_compute).
    change (vis (w_nvmm cut_world)) with cut_mem in Ht. rewrite Hd in Ht.
    injection Ht as Ht Hz. split; [exact Ht|exact Hz].
Defined.
End instances.
