(* ===== verification/CowRecover.v ===== *)
(** * A write, a power failure and the next mount (dax.c, inode.c, bbuild.c)

    The medium a power failure leaves during [nova_cow_file_write] is read by
    [nova_rebuild_inode] at the next mount.  The counts of invalid pages on it
    may be anything between old and new; the replay passes over entries by
    them, and still computes the tree of the old file or of the new one. *)
From S2P Require Import Prelude Nvmm RangeTree Layout World Trace Balloc BallocList BallocProofs.
From S2P Require Import Log LogPages LogProofs FileTree Inode Journal InodeMap Dir Rebuild.
From S2P Require Import InodeCycle Dax DaxProofs AssignProofs Truncate FileInv CowProofs CowCrash.
From S2P Require Import File Namei DirProofs LogWalk FileReplay.

(** ** Replaying all entries, whatever their counts *)
Definition full_step (m : mem) (st : gmap Z Z * Z) (p : Z) : gmap Z Z * Z :=
  if decide (ld 1 m p = FILE_WRITE)
  then (point m st.1 p, ld 8 m (p + nova_file_write_entry.size))
  else (attr_tree m p st.2 st.1, attr_size m p st.2).

Definition full_replay (m : mem) (st : gmap Z Z * Z) (ps : list Z) : gmap Z Z * Z :=
  foldl (full_step m) st ps.

Lemma truncated_lookup m p sz t q : truncated m p sz t !! q = t !! q ∨ truncated m p sz t !! q = None.
Proof.
  unfold truncated. cbv zeta. match goal with |- context [decide (_ > _ ∧ _)] =>
    destruct (decide (_ > _ ∧ _)) end; [|by left].
  rewrite lookup_without. match goal with |- context [decide ?P] => destruct (decide P) end;
    [by right|by left].
Qed.

Lemma truncated_empty m p sz : truncated m p sz ∅ = ∅.
Proof.
  apply map_eq. intros q. rewrite lookup_empty.
  destruct (truncated_lookup m p sz ∅ q) as [->| ->]; [apply lookup_empty|done].
Qed.

(** The same pages are dropped from every tree. *)
Lemma truncated_pages m p sz t t' q :
  truncated m p sz t !! q = None ∧ truncated m p sz t' !! q = None ∨
  truncated m p sz t !! q = t !! q ∧ truncated m p sz t' !! q = t' !! q.
Proof.
  unfold truncated. cbv zeta. match goal with |- context [decide (_ > _ ∧ _)] =>
    destruct (decide (_ > _ ∧ _)) end; [|by right].
  rewrite !lookup_without. match goal with |- context [decide ?P] => destruct (decide P) end;
    [by left|by right].
Qed.

(** Entries passed over are in the full tree only. *)
Lemma skip_replay m ps : ∀ st st',
  st.2 = st'.2 →
  (∀ q, st.1 !! q = st'.1 !! q ∨ ∃ e, st.1 !! q = Some e ∧ we_num m e = we_invalid m e) →
  let r := full_replay m st ps in let r' := file_replay m st' ps in
  r.2 = r'.2 ∧
  ∀ q, r.1 !! q = r'.1 !! q ∨ ∃ e, r.1 !! q = Some e ∧ we_num m e = we_invalid m e.
Proof.
  induction ps as [|p ps IH]; intros [t sz] [t' sz'] Hsz Hq; [done|]. cbn in Hsz, Hq. subst sz'.
  cbn [full_replay file_replay foldl]. apply IH; unfold full_step, file_step; cbn [fst snd].
  - by case_decide.
  - intros q. destruct (decide (ld 1 m p = FILE_WRITE)) as [Hw|Hw]; cbn [fst].
    + destruct (decide (we_num m p = we_invalid m p)) as [He|He].
      * rewrite lookup_point. case_decide; [right; by exists p|apply Hq].
      * rewrite !lookup_point. case_decide; [by left|apply Hq].
    + unfold attr_tree. case_decide; [|apply Hq].
      destruct (truncated_pages m p sz t t' q) as [[-> ->]|[-> ->]]; [by left|apply Hq].
Qed.

Lemma alive_replay m z ps :
  (∀ q e, (full_replay m (∅, z) ps).1 !! q = Some e → we_num m e ≠ we_invalid m e) →
  file_replay m (∅, z) ps = full_replay m (∅, z) ps.
Proof.
  intros Hal. destruct (skip_replay m ps (∅, z) (∅, z) eq_refl ltac:(by left)) as [Hz Hq].
  rewrite (surjective_pairing (file_replay _ _ _)), (surjective_pairing (full_replay _ _ _)).
  f_equal; [|done]. apply map_eq. intros q.
  destruct (Hq q) as [->|(e&He&Hs)]; [done|by destruct (Hal q e)].
Qed.

(** The size the inode had does not matter for the tree. *)
Lemma full_size m ps : ∀ t z z', t = ∅ ∨ z = z' →
  (full_replay m (t, z) ps).1 = (full_replay m (t, z') ps).1.
Proof.
  induction ps as [|p ps IH]; intros t z z' Hz; [done|]. cbn [full_replay foldl].
  change (foldl (full_step m)) with (full_replay m). unfold full_step. cbn [fst snd].
  destruct Hz as [->| ->]; [|done].
  destruct (decide (ld 1 m p = FILE_WRITE)); [done|]. unfold attr_tree, attr_size.
  destruct (decide (ld 1 m p = SET_ATTR)); [by rewrite !truncated_empty|]. apply IH. by left.
Qed.

Lemma full_replay_app m st ps qs : full_replay m st (ps ++ qs) = full_replay m (full_replay m st ps) qs.
Proof. apply foldl_app. Qed.

(** Write entries only. *)
Lemma full_writes m es : ∀ st,
  (∀ e, e ∈ es → ld 1 m e = FILE_WRITE) → (full_replay m st es).1 = foldl (point m) st.1 es.
Proof.
  induction es as [|e es IH]; intros st Hw; [done|]. cbn [full_replay foldl].
  change (foldl (full_step m)) with (full_replay m).
  rewrite IH by (intros; apply Hw; by right). unfold full_step.
  by rewrite decide_True by (apply Hw; left).
Qed.

Lemma full_step_frame m m' st p :
  write_ok m p → (∀ x, entry_bytes m p (write_len m p) x → ld8 m' x = ld8 m x) →
  full_step m' st p = full_step m st p.
Proof.
  intros Hok Hm. destruct (write_fields m m' p Hok Hm) as (Ht&Hf&Ha). unfold full_step. rewrite Ht.
  case_decide as Hw.
  - destruct (Hf Hw) as [(_&Eg&En) Hs]. unfold point. rewrite Eg, En.
    rewrite Hs by (by vm_compute). done.
  - specialize (Ha Hw). unfold attr_tree, attr_size, truncated. rewrite Ht.
    rewrite !Ha by (by vm_compute). done.
Qed.

Lemma full_frame Q lim m m' tail cur ps k st :
  (∀ x, Q x → ld8 m' x = ld8 m x) → log_walk file_kind Q lim m tail cur ps k →
  full_replay m' st ps = full_replay m st ps.
Proof.
  intros Hm Hw. revert st. induction Hw as [|cur ps k p Hne Hcur Hp Hok HQ Hx Hr Hw IH]; intros st;
    [done|]. cbn [full_replay foldl]. rewrite (full_step_frame m m') by auto. apply IH.
Qed.

(** ** The log of a file on a medium *)

(** The inode at [pi] of the medium [m] is that of a file whose log passes the
    entries [ps] and gives the tree [t]; only bytes in [L] matter. *)
Record log_at (L : Z → Prop) (m : mem) (n pi : Z) (t : gmap Z Z) (ps : list Z) (k b : Z)
    (bs : list Z) : Prop := {
  la_valid : ld 1 m (pi + nova_inode.valid) ≠ 0;
  la_type : ld 1 m (pi + nova_inode.i_blk_type) = NOVA_BLOCK_TYPE_4K;
  la_mode : Z.land (ld 2 m (pi + nova_inode.i_mode)) S_IFMT = S_IFLNK ∨
            Z.land (ld 2 m (pi + nova_inode.i_mode)) S_IFMT = S_IFREG;
  la_head : ld 8 m (pi + nova_inode.log_head) ≠ 0;
  la_walk : log_walk file_kind L (n * 4096) m (ld 8 m (pi + nova_inode.log_tail))
              (ld 8 m (pi + nova_inode.log_head)) ps k;
  la_rest : tail_pages m n pi b bs;
  la_space x : L x → log_space pi (ld 8 m (pi + nova_inode.log_tail)) x;
  la_links c x : c ∈ b :: bs → 0 ≤ x < 8 → L (next_field (c * 4096) + x);
  la_tree z : (full_replay m (∅, z) ps).1 = t
}.
#[global] Arguments la_walk {L m n pi t ps k b bs}.
#[global] Arguments la_rest {L m n pi t ps k b bs}.
#[global] Arguments la_space {L m n pi t ps k b bs}.
#[global] Arguments la_tree {L m n pi t ps k b bs}.

(** What of the inode tells that it is a file, and where its log begins. *)
Definition identity (pi x : Z) : Prop :=
  pi + nova_inode.valid ≤ x < pi + nova_inode.i_flags ∨
  pi + nova_inode.i_mode ≤ x < pi + nova_inode.i_links_count ∨
  pi + nova_inode.log_head ≤ x < pi + nova_inode.log_head + 8.

Ltac fields_of_inode :=
  unfold identity, nova_inode.valid, nova_inode.i_blk_type, nova_inode.i_flags, nova_inode.i_mode,
    nova_inode.i_links_count, nova_inode.log_head, nova_inode.i_size in *; offsets.

Lemma identity_frame m m' pi :
  (∀ x, identity pi x → ld8 m' x = ld8 m x) →
  ld 1 m' (pi + nova_inode.valid) = ld 1 m (pi + nova_inode.valid) ∧
  ld 1 m' (pi + nova_inode.i_blk_type) = ld 1 m (pi + nova_inode.i_blk_type) ∧
  ld 2 m' (pi + nova_inode.i_mode) = ld 2 m (pi + nova_inode.i_mode) ∧
  ld 8 m' (pi + nova_inode.log_head) = ld 8 m (pi + nova_inode.log_head).
Proof. intros Hm. split_and!; apply ld_frame; intros x Hx; apply Hm; fields_of_inode. Qed.

Lemma pages_frame m m' n pi b bs :
  tail_pages m n pi b bs →
  BLOCK_OFF (ld 8 m' (pi + nova_inode.log_tail)) = BLOCK_OFF (ld 8 m (pi + nova_inode.log_tail)) →
  (∀ c x, c ∈ b :: bs → 0 ≤ x < 8 →
     ld8 m' (next_field (c * 4096) + x) = ld8 m (next_field (c * 4096) + x)) →
  tail_pages m' n pi b bs.
Proof.
  intros [Ht Hp Hnd Ha] Eb Hm. split; try done; [by rewrite Eb|].
  eapply log_seg_frame; [|done]. intros c Hc. apply ld_frame. intros x Hx.
  replace x with (next_field (c * 4096) + (x - next_field (c * 4096))) by lia.
  apply Hm; [done|lia].
Qed.

Lemma log_at_frame L m m' n pi t ps k b bs :
  log_at L m n pi t ps k b bs →
  (∀ x, identity pi x ∨ L x → ld8 m' x = ld8 m x) →
  ld 8 m' (pi + nova_inode.log_tail) = ld 8 m (pi + nova_inode.log_tail) →
  log_at L m' n pi t ps k b bs.
Proof.
  intros [Hv Hty Hmd Hh Hw Hr Hs Hl Ht] Hm Etl.
  destruct (identity_frame m m' pi) as (Ev&Et&Em&Eh); [auto|].
  split; rewrite ?Ev, ?Et, ?Em, ?Eh, ?Etl; try done.
  - eapply walk_frame; [|done]. auto.
  - eapply pages_frame; [done|by rewrite Etl|]. auto.
  - intros z. rewrite (full_frame _ _ m m' _ _ _ _ _ (λ x Hx, Hm x (or_intror Hx)) Hw). apply Ht.
Qed.

Lemma log_at_file_log L m n pi t ps k b bs :
  log_at L m n pi t ps k b bs → file_log m n pi ps k b bs.
Proof. intros [_ _ _ Hh Hw Hr Hs _ _]. split; [done| |done]. by eapply walk_mono. Qed.

(** *** Appending *)
Section append.
Context (m : mem) (tail n : Z) (Hroom : log_room tail n).
Context (Hw : ∀ j, 0 ≤ j < n → ld 1 m (tail + 40 * j) = FILE_WRITE ∧
  we_pgoff m (tail + 40 * j) + we_num m (tail + 40 * j) ≤ 2 ^ 52).

(** The bytes of the first [j] entries. *)
Definition appended (j x : Z) : Prop :=
  ∃ i, 0 ≤ i < j ∧ let e := tail + 40 * i in e ≤ x < e + 40 ∧
    ¬ e + nova_file_write_entry.invalid_pages ≤ x < e + nova_file_write_entry.invalid_pages + 4.

Lemma room_loc j : 0 ≤ j ≤ n → (tail + 40 * j) mod 4096 = tail mod 4096 + 40 * j.
Proof.
  intros Hj. destruct Hroom as (_&_&Hr). unfold LAST_ENTRY in Hr.
  pose proof (Z.div_mod tail 4096 ltac:(lia)). pose proof (Z.mod_pos_bound tail 4096 ltac:(lia)).
  symmetry. apply Z.mod_unique with (tail / 4096); lia.
Qed.

Lemma appended_ok j :
  0 ≤ j < n → write_ok m (tail + 40 * j) ∧ write_len m (tail + 40 * j) = 40 ∧
  crosses m (tail + 40 * j) = false.
Proof.
  intros Hj. destruct (Hw j Hj) as [Hty Hpg]. destruct Hroom as (_&_&Hr).
  assert (write_len m (tail + 40 * j) = 40) as Hlen by (unfold write_len; by rewrite decide_True).
  pose proof (room_loc j ltac:(lia)) as Hloc. split_and!; [split|done|].
  - by left.
  - rewrite Hlen, ENTRY_LOC_mod. lia.
  - done.
  - unfold crosses. apply bool_decide_false. rewrite ENTRY_LOC_mod, Hty.
    intros [?|?]; [lia|done].
Qed.

Lemma walk_writes (L : Z → Prop) lim cur ps k j :
  0 ≤ j ≤ n → tail + 40 * n < lim →
  (∀ x, L x → ¬ tail ≤ x ≤ BLOCK_OFF tail + LAST_ENTRY) →
  log_walk file_kind L lim m tail cur ps k →
  log_walk file_kind (λ x, L x ∨ appended j x) lim m (tail + 40 * j) cur
    (ps ++ ((λ j, tail + 40 * j) <$> seqZ 0 j)) k.
Proof.
  intros Hj Hlim HL Hwalk. destruct Hj as [Hj0 Hj]. revert Hj.
  pattern j. apply natlike_ind; [| |done].
  - intros _. cbn. rewrite app_nil_r, Z.add_0_r. eapply walk_mono; [|done]. auto.
  - clear j Hj0. intros j Hj0 IH Hj. specialize (IH ltac:(lia)).
    destruct (appended_ok j ltac:(lia)) as (Hok&Hlen&Hc). destruct Hroom as (?&?&Hr).
    replace (Z.succ j) with (j + 1) by lia. rewrite seqZ_app, fmap_app, app_assoc by lia.
    replace (tail + 40 * (j + 1)) with (tail + 40 * j + ent_len file_kind m (tail + 40 * j))
      by (cbn; rewrite Hlen; lia).
    eapply (walk_append file_kind (λ x, L x ∨ appended j x)); try done.
    + intros x [?|(i&Hi&Hx)]; [by left|right]. exists i. split; [lia|done].
    + cbn. rewrite Hlen. pose proof (room_loc (j + 1) ltac:(lia)) as Hloc.
      intros [Hx|(i&Hi&[Hx _])]; [|lia]. apply (HL _ Hx). rewrite BLOCK_OFF_mod. lia.
    + lia.
    + change (ent_len file_kind) with write_len. rewrite Hlen. intros x Hx. right. exists j.
      split; [lia|]. destruct Hx as [Hx Hnc]. split; [done|]. intros Hc'. apply Hnc.
      split; [|done]. apply Hw. lia.
Qed.
End append.

Lemma log_at_append L m m' n pi t ps k b bs c :
  let tail := ld 8 m (pi + nova_inode.log_tail) in
  let es := (λ j, tail + 40 * j) <$> seqZ 0 c in
  log_at L m n pi t ps k b bs → log_room tail c → 0 ≤ c →
  (∀ x, identity pi x ∨ L x → ld8 m' x = ld8 m x) →
  ld 8 m' (pi + nova_inode.log_tail) = tail + 40 * c →
  (∀ e, e ∈ es → ld 1 m' e = FILE_WRITE ∧ we_pgoff m' e + we_num m' e ≤ 2 ^ 52) →
  log_at (λ x, L x ∨ appended tail c x) m' n pi (foldl (point m') t es) (ps ++ es) k b bs.
Proof.
  intros tail es [Hv Hty Hmd Hh Hw Hr Hs Hl Ht] Hroom Hc Hm Etl Hes. fold tail in Hw, Hs.
  destruct (identity_frame m m' pi) as (Ev&Et&Em&Eh); [auto|].
  pose proof (tp_tail Hr) as Hb. fold tail in Hb. rewrite BLOCK_OFF_mod in Hb.
  destruct (tp_apart Hr b ltac:(left)) as [Hbn Hba].
  pose proof (Z.mod_pos_bound tail 4096 ltac:(lia)) as Hmod.
  pose proof (room_loc tail c Hroom c ltac:(lia)) as Hloc. pose proof Hroom as (_&_&Hfit).
  unfold LAST_ENTRY in Hfit.
  assert (∀ j, 0 ≤ j < c → ld 1 m' (tail + 40 * j) = FILE_WRITE ∧
    we_pgoff m' (tail + 40 * j) + we_num m' (tail + 40 * j) ≤ 2 ^ 52) as Hj.
  { intros j Hj. apply Hes, list_elem_of_fmap. exists j. split; [done|]. apply elem_of_seqZ. lia. }
  assert (BLOCK_OFF (tail + 40 * c) = BLOCK_OFF tail) as Eoff by (rewrite !BLOCK_OFF_mod; lia).
  split; rewrite ?Ev, ?Et, ?Em, ?Eh, ?Etl; try done.
  - apply (walk_writes m' tail c Hroom Hj); try done; try lia.
    + by intros x [_ ?]%Hs.
    + eapply walk_frame; [|done]. auto.
  - eapply pages_frame; [done|by rewrite Etl|]. auto.
  - intros x [[Hx1 Hx2]%Hs|(j&Hj'&[Hx _])]; split; rewrite ?Eoff; try done; try lia.
  - intros. left. auto.
  - intros z. rewrite full_replay_app, full_writes by (intros; by apply Hes).
    rewrite (full_frame _ _ m m' _ _ _ _ _ (λ x Hx, Hm x (or_intror Hx)) Hw). by rewrite Ht.
Qed.

(** ** What a mount finds *)

(** On the medium [m] the log gives the tree [t] and the size [sz], and no
    entry of the tree counts all its pages as invalid. *)
Record mounts (L : Z → Prop) (m : mem) (n pi : Z) (t : gmap Z Z) (ps : list Z) (k b : Z)
    (bs : list Z) (sz : Z) : Prop := {
  mt_log : log_at L m n pi t ps k b bs;
  mt_alive q e : t !! q = Some e → we_num m e ≠ we_invalid m e;
  mt_size : (full_replay m (∅, ld 8 m (pi + nova_inode.i_size)) ps).2 = sz
}.

Definition size_field (pi x : Z) : Prop :=
  pi + nova_inode.i_size ≤ x < pi + nova_inode.i_size + 8.
Definition entry_of (t : gmap Z Z) (x : Z) : Prop :=
  ∃ q e, t !! q = Some e ∧ e ≤ x < e + nova_file_write_entry.sizeof.

Lemma mounts_frame L m m' n pi t ps k b bs sz :
  mounts L m n pi t ps k b bs sz →
  (∀ x, identity pi x ∨ L x ∨ size_field pi x ∨ entry_of t x → ld8 m' x = ld8 m x) →
  ld 8 m' (pi + nova_inode.log_tail) = ld 8 m (pi + nova_inode.log_tail) →
  mounts L m' n pi t ps k b bs sz.
Proof.
  intros [Hl Ha Hz] Hm Et. split.
  - eapply log_at_frame; [done| |done]. intros x [?|?]; apply Hm; tauto.
  - intros q e He. unfold we_num, we_invalid. rewrite !(ld_frame 4 m m'); [by apply (Ha q)|..];
      intros x Hx; apply Hm; do 3 right; exists q, e; (split; [done|offsets]).
  - rewrite (full_frame _ _ m m' _ _ _ _ _ (λ x Hx, Hm x (or_intror (or_introl Hx))) (la_walk Hl)).
    rewrite (ld_frame 8 m m') by (intros x Hx; apply Hm; right; right; left; unfold size_field; lia).
    done.
Qed.

Section recover.
Context `{RbTree} `{Env} `{Vfs}.

(** Whatever else is in memory, rebuilding the inode at [pi] from the medium
    [m] of [n] blocks gives the tree [t], the size [sz] and the bytes [f]. *)
Definition recovers (m : mem) (n pi : Z) (t : gmap Z Z) (sz : Z) (f : Z → Z) : Prop :=
  ∀ w h i, vis (w_nvmm w) = m → num_blocks (w_sbi w) = n → w_inodes w !! h = Some i →
    ∃ w' i', nova_rebuild_inode h pi w = Done (0, w') ∧ w_inodes w' !! h = Some i' ∧
      tree (header i') = t ∧ sih_size (header i') = sz ∧ pi_addr (header i') = pi ∧
      ∀ y, file_byte (vis (w_nvmm w')) t y = f y.

Lemma mounts_recovers L m n pi t ps k b bs sz tl f :
  (∀ t, radix_node_alloc t = true) → 0 < pi < 2 ^ 56 → n < 2 ^ 44 →
  mounts L m n pi t ps k b bs sz → denotes m pi tl t f →
  (∀ x, fields m t [] x ∨ data m t [] x → ¬ pi ≤ x < pi + nova_inode.sizeof) →
  recovers m n pi t sz f.
Proof.
  intros Hradix Hpi Hn [Hlog Hal Hsz] [_ Hf] Hap w h i <- <- Hi.
  destruct (rebuild_inode_run w h i pi ps k b bs Hi Hpi Hn Hradix) as (w'&i'&Hrun&Hr&Ht&_);
    [apply Hlog..|by eapply log_at_file_log|].
  unfold log_denotes in Ht. rewrite alive_replay in Ht
    by (intros q e; rewrite (la_tree Hlog); apply Hal).
  rewrite (surjective_pairing (full_replay _ _ _)), (la_tree Hlog), Hsz in Ht. injection Ht as Ht Hz.
  exists w', i'. split_and!; try done; [apply Hr|apply Hr|]. intros y. rewrite <- Hf.
  apply (image_byte _ _ t []). intros x Hx. apply (rp_mem Hr). apply Hap in Hx. offsets.
Qed.
End recover.

(** ** A file and its log in memory *)

(** Whatever survives of the cache, the medium gives the tree and the size in
    memory; the log is durable, and apart from what a write changes. *)
Record logged (w : world) (i : nova_inode_info) (L : Z → Prop) (ps : list Z) (k b : Z)
    (bs : list Z) : Prop := {
  lg_image m : crash_image (w_nvmm w) m →
    mounts L m (num_blocks (w_sbi w)) (pi_addr (header i)) (tree (header i)) ps k b bs
      (v_size (vfs i));
  lg_settled x : identity (pi_addr (header i)) x ∨ L x → settled (w_nvmm w) x;
  lg_apart x : L x → ¬ block_free (w_sbi w) (x / 4096) ∧
    ¬ data (vis (w_nvmm w)) (tree (header i)) [] x ∧
    ∀ q e, tree (header i) !! q = Some e → ¬ e + nova_file_write_entry.invalid_pages ≤ x <
      e + nova_file_write_entry.invalid_pages + 4;
  lg_tail : ld 8 (vis (w_nvmm w)) (pi_addr (header i) + nova_inode.log_tail) mod 8 = 0;
  lg_align q e : tree (header i) !! q = Some e → e mod 8 = 0
}.

Section mount.
Context (w0 : world) (pi pos tail : Z) (i : nova_inode_info) (buf : list Z) (R : Z).
Context (L : Z → Prop) (ps : list Z) (k b : Z) (bs : list Z).
Let m0 : mem := vis (w_nvmm w0).
Let t : gmap Z Z := tree (header i).
Let len : Z := Z.of_nat (length buf).
Let N : Z := blocks_of pos len.
Let nb : Z := num_blocks (w_sbi w0).
Context (Hpi : pi = pi_addr (header i)).
Context (Htail : ld 8 (vis (w_nvmm w0)) (pi + nova_inode.log_tail) = tail).
Context (Hinv0 : file_inv (w_sbi w0) (vis (w_nvmm w0)) pi t []).
Context (Hsp0 : spare (w_sbi w0) (vis (w_nvmm w0)) pi t [] tail (tail + 40 * R)).
Context (Hdu : durable w0 i R) (Hlg : logged w0 i L ps k b bs) (Hroom : log_room tail R).

(** The media a failure before the write leaves. *)
Lemma first_image mm :
  crash_image (w_nvmm w0) mm →
  mounts L mm nb pi t ps k b bs (v_size (vfs i)) ∧ denotes mm pi tail t (file_byte m0 t).
Proof.
  intros Hmm. split; [rewrite Hpi; by apply (lg_image _ _ _ _ _ _ _ Hlg)|].
  apply (old_image w0 pi pos tail i buf Htail (w_nvmm w0) mm); [|done].
  apply stays_refl; [apply Hdu|]. intros x Hx. apply Hdu. by rewrite <- Hpi.
Qed.

Lemma log_apart x : L x → ¬ pi ≤ x < pi + nova_inode.sizeof ∧ ¬ tail ≤ x < tail + 40 * R.
Proof.
  intros Hx. destruct (first_image m0) as [[Hl _ _] _].
  { unfold m0. rewrite (du_ok _ _ _ Hdu). apply crashes_all. }
  destruct (la_space Hl x Hx) as [Hi Hr]. split; [done|]. intros Hx'. apply Hr.
  unfold m0. rewrite Htail. destruct Hroom as (_&_&Hfit). rewrite BLOCK_OFF_mod.
  pose proof (Z.mod_pos_bound tail 4096 ltac:(lia)). lia.
Qed.

(** What a mount reads of the old file is not written before the commit. *)
Lemma read_apart x :
  identity pi x ∨ L x ∨ size_field pi x ∨ entry_of t x → avoids (within (before_commit w0 pi tail R)) x.
Proof.
  intros Hx. apply avoids_within.
  assert (meta m0 pi t [] x → ¬ block_free (w_sbi w0) (x / 4096) ∧ ¬ tail ≤ x < tail + 40 * R) as Hm.
  { intros Hm. split; [by apply (fi_meta _ _ _ _ _ Hinv0)|]. intros Hr. by destruct (Hsp0 x Hr). }
  unfold before_commit, tail_field.
  assert (identity pi x ∨ size_field pi x → meta m0 pi t [] x ∧
    ¬ (pi + nova_inode.i_blocks ≤ x < pi + nova_inode.i_blocks + 8 ∨
       pi + nova_inode.log_tail ≤ x < pi + nova_inode.log_tail + 8)) as Hid.
  { unfold size_field. intros Hid. split; [left|]; fields_of_inode. }
  destruct Hx as [Hx|[Hx|[Hx|(q&e&He&Hx)]]].
  - destruct Hid as [?%Hm ?]; [by left|]. tauto.
  - destruct (lg_apart _ _ _ _ _ _ _ Hlg x Hx) as [? _], (log_apart x Hx).
    intros [?|[?|[?|?]]]; [done|offsets..].
  - destruct Hid as [?%Hm ?]; [by right|]. tauto.
  - assert (slot m0 t [] e q) as Hs by by left.
    destruct Hm; [by eapply meta_entry|].
    intros [?|[?|[?|?]]]; [done|done|destruct (fi_inode _ _ _ _ _ Hinv0 e q Hs); offsets..].
Qed.

Lemma old_mounts l q' q mm :
  nv_trace (within (before_commit w0 pi tail R)) (w_nvmm w0) l q' → q ∈ l ++ [q'] →
  crash_image q mm → ld 8 mm (pi + nova_inode.log_tail) = tail →
  mounts L mm nb pi t ps k b bs (v_size (vfs i)).
Proof.
  intros Ht Hq Hmm Etl. destruct (trace_image _ _ _ _ Ht q mm Hq Hmm) as (mm0&Hmm0&Ha).
  destruct (first_image mm0 Hmm0) as [Hmt [Etl0 _]].
  eapply mounts_frame; [done| |congruence]. intros x Hx. by apply Ha, read_apart.
Qed.
End mount.
