(* ===== verification/RebuildProofs.v ===== *)
(** * Replaying the log of a directory (dir.c, bbuild.c)

    The tree of a directory is what its log says: a walk through the log, the
    map the walk denotes, the replay that computes it, and the operations that
    keep the log in step with the tree. *)
From S2P Require Import Prelude Nvmm RangeTree Layout World Balloc BallocList BallocProofs.
From S2P Require Import Log LogPages LogProofs FileTree Inode Journal InodeMap Dir Rebuild.
From S2P Require Import InodeCycle Dax DaxProofs AssignProofs Truncate File Namei DirProofs LogWalk.

(** ** What a log denotes *)
Definition name_at (m : mem) (e : Z) : list Z :=
  ld_bytes (Z.to_nat (ld 1 m (e + nova_dentry.name_len))) m (e + nova_dentry.name).

(** The effect of one entry; [None] when the replay stops there. *)
Definition replay_step (m : mem) (t : gmap Z Z) (e : Z) : option (gmap Z Z) :=
  if decide (ld 1 m e ≠ DIR_LOG) then Some t
  else if decide (ld 8 m (e + nova_dentry.ino) = 0)
  then Some (delete (BKDRHash (name_at m e)) t)
  else if decide (ld 1 m (e + nova_dentry.invalid) ≠ 0) then Some t
  else if decide (name_at m e = [] ∨ is_Some (t !! BKDRHash (name_at m e))) then None
  else Some (<[BKDRHash (name_at m e) := e]> t).

Fixpoint replay (m : mem) (t : gmap Z Z) (ps : list Z) : option (gmap Z Z) :=
  match ps with
  | [] => Some t
  | p :: ps => t ← replay_step m t p; replay m t ps
  end.

Lemma replay_app m t ps qs : replay m t (ps ++ qs) = t ← replay m t ps; replay m t qs.
Proof.
  revert t. induction ps as [|p ps IH]; intros t; cbn; [done|].
  by destruct (replay_step m t p) as [t'|]; cbn.
Qed.

Definition entry_len (m : mem) (p : Z) : Z :=
  if decide (ld 1 m p = DIR_LOG) then ld 2 m (p + nova_dentry.de_len) else 32.

(** An entry of a directory log at [p]: one of the three types, inside its
    page; an attribute entry is not that of a regular file. *)
Record entry_ok (m : mem) (p : Z) : Prop := {
  eo_type : ld 1 m p = DIR_LOG ∨ ld 1 m p = LINK_CHANGE ∨
            ld 1 m p = SET_ATTR ∧
            S_ISREG (ld 2 m (p + nova_setattr_logentry.mode)) = false;
  eo_len : 32 ≤ entry_len m p ∧ ENTRY_LOC p + entry_len m p ≤ LAST_ENTRY;
  eo_name : ld 1 m p = DIR_LOG → 29 + ld 1 m (p + nova_dentry.name_len) ≤ entry_len m p
}.

(** ** Memories that agree where the walk reads *)
Section frame.
Context (m m' : mem) (p : Z).
Context (Hok : entry_ok m p) (Hm : ∀ x, p ≤ x < p + entry_len m p → ld8 m' x = ld8 m x).

Lemma entry_ld n o : 0 ≤ o → o + Z.of_nat n ≤ 32 → ld n m' (p + o) = ld n m (p + o).
Proof. intros. apply ld_frame. intros x Hx. apply Hm. destruct (eo_len _ _ Hok). lia. Qed.

Lemma entry_type_frame : ld 1 m' p = ld 1 m p.
Proof. pose proof (entry_ld 1 0). rewrite Z.add_0_r in *. auto with lia. Qed.

Lemma entry_len_frame : entry_len m' p = entry_len m p.
Proof.
  unfold entry_len. rewrite entry_type_frame. case_decide; [|done].
  apply entry_ld; unfold nova_dentry.de_len; lia.
Qed.

Lemma name_at_frame : ld 1 m p = DIR_LOG → name_at m' p = name_at m p.
Proof.
  intros Ht. pose proof (eo_name _ _ Hok Ht) as Hn. unfold name_at.
  rewrite entry_ld by (unfold nova_dentry.name_len; lia).
  apply ld_bytes_frame. intros x Hx. apply Hm.
  pose proof (ld_range 1 m (p + nova_dentry.name_len)). unfold nova_dentry.name in Hx. lia.
Qed.

Lemma entry_ok_frame : entry_ok m' p.
Proof.
  destruct Hok as [Ht Hl Hn]. split; rewrite ?entry_type_frame, ?entry_len_frame.
  - by rewrite entry_ld by (unfold nova_setattr_logentry.mode; lia).
  - done.
  - rewrite entry_ld by (unfold nova_dentry.name_len; lia). done.
Qed.

Lemma replay_step_frame t : replay_step m' t p = replay_step m t p.
Proof.
  unfold replay_step. rewrite entry_type_frame. case_decide as Ht; [done|].
  rewrite !entry_ld by (unfold nova_dentry.ino, nova_dentry.invalid; lia).
  by rewrite (name_at_frame Ht).
Qed.
End frame.

(** A replay may start: the first dentry sets the result of the loop. *)
Fixpoint starts_valid (m : mem) (ps : list Z) : Prop :=
  match ps with
  | [] => True
  | p :: ps => if decide (ld 1 m p = DIR_LOG)
               then ld 8 m (p + nova_dentry.ino) = 0 ∨ ld 1 m (p + nova_dentry.invalid) = 0
               else starts_valid m ps
  end.

(** There are no write entries in a directory. *)
Lemma dir_bytes m p x :
  entry_ok m p → entry_bytes m p (entry_len m p) x ↔ p ≤ x < p + entry_len m p.
Proof.
  intros Hok. split; [by intros [? _]|]. intros Hx. split; [done|]. intros [Ht _].
  destruct (eo_type _ _ Hok) as [Hd|[Hd|[Hd _]]]; by rewrite Hd in Ht.
Qed.

Lemma entry_frame m m' p :
  entry_ok m p → (∀ x, entry_bytes m p (entry_len m p) x → ld8 m' x = ld8 m x) →
  entry_ok m' p ∧ entry_len m' p = entry_len m p.
Proof.
  intros Hok Hb. assert (∀ x, p ≤ x < p + entry_len m p → ld8 m' x = ld8 m x) as Hm
    by (intros x Hx; by apply Hb, dir_bytes). split; [by eapply entry_ok_frame|by apply entry_len_frame].
Qed.

(** The log of a directory. *)
Definition dir_kind : log_kind := LogKind entry_len entry_ok eo_len entry_frame.

Section walk_frame.
Context (Q : Z → Prop) (lim : Z) (m m' : mem) (Hm : ∀ x, Q x → ld8 m' x = ld8 m x).

Lemma replay_frame tail cur ps k t :
  log_walk dir_kind Q lim m tail cur ps k → replay m' t ps = replay m t ps.
Proof.
  intros Hw. revert t. induction Hw as [|cur ps k p Hne Hcur Hp Hok HQ Hx Hr Hw IH]; intros t;
    [done|]. cbn. rewrite (replay_step_frame m m' p Hok) by (intros; by apply Hm, Hr, dir_bytes).
  by destruct (replay_step m t p) as [t'|]; cbn.
Qed.

Lemma starts_valid_frame tail cur ps k :
  log_walk dir_kind Q lim m tail cur ps k → starts_valid m ps → starts_valid m' ps.
Proof.
  induction 1 as [|cur ps k p Hne Hcur Hp Hok HQ Hx Hr Hw IH]; [done|].
  assert (∀ x, p ≤ x < p + entry_len m p → ld8 m' x = ld8 m x) as Hm'
    by (intros; by apply Hm, Hr, dir_bytes).
  cbn. rewrite (entry_type_frame m m' p Hok Hm').
  by rewrite !(entry_ld m m' p Hok Hm') by (unfold nova_dentry.ino, nova_dentry.invalid; lia);
    case_decide; [|apply IH].
Qed.
End walk_frame.

(** ** The replay *)

Section loop.
Context `{RbTree} `{Env} `{Vfs}.
Context (Q : Z → Prop) (lim pi h tail : Z) (m : mem) (s : nova_sb_info).
Context (HQ : ∀ x, Q x → ¬ pi ≤ x < pi + nova_inode.sizeof) (Hlim : lim ≤ 2 ^ 56).
Context (Hradix : ∀ t, radix_node_alloc t = true).
Context (Htail : ld 8 m (pi + nova_inode.log_tail) = tail).
#[local] Abbreviation replaying := (replaying pi h m s).

(** Fields of an entry. *)
Lemma dir_ld p w i n o :
  entry_ok m p → (∀ x, p ≤ x < p + entry_len m p → Q x) → replaying w i →
  0 ≤ o → o + Z.of_nat n ≤ 32 → ld n (vis (w_nvmm w)) (p + o) = ld n m (p + o).
Proof. intros Hok HQp Hr. apply (entry_ld m); [done|]. intros x Hx. by apply (rp_Q HQ Hr), HQp. Qed.

Lemma time_and_size_run {B} w i p (k : () → M B) :
  replaying w i →
  ∃ w', (nova_rebuild_dir_time_and_size pi p ≫= k) w = k () w' ∧ replaying w' i.
Proof.
  intros Hr. unfold nova_rebuild_dir_time_and_size. do 4 attr_store Hr. by eexists.
Qed.

(** One dentry. *)
Lemma replay_dentry_run {B} w i p ret t (k : option Z → M B) :
  replaying w i → 0 < p < lim → entry_ok m p → (∀ x, p ≤ x < p + entry_len m p → Q x) →
  ld 1 m p = DIR_LOG → replay_step m (tree (header i)) p = Some t →
  ret = Some 0 ∨ ld 8 m (p + nova_dentry.ino) = 0 ∨ ld 1 m (p + nova_dentry.invalid) = 0 →
  ∃ w' i', (replay_dentry h p ret ≫= k) w = k (Some 0) w' ∧ replaying w' i' ∧
    tree (header i') = t ∧ log_pages (header i') = log_pages (header i).
Proof.
  intros Hr Hp Hok HQp Ht Hstep Hret. unfold replay_step in Hstep.
  rewrite decide_False in Hstep by (by intros []). unfold replay_dentry. loads.
  rewrite (dir_ld _ _ _ 8 _ Hok HQp Hr) by (unfold nova_dentry.ino; lia).
  pose proof (ld_range 8 m (p + nova_dentry.ino)) as Hino.
  pose proof (name_at_frame m (vis (w_nvmm w)) p Hok
    ltac:(intros; by apply (rp_Q HQ Hr), HQp) Ht) as Hname.
  destruct (decide (ld 8 m (p + nova_dentry.ino) = 0)) as [E0|E0].
  { injection Hstep as <-. rewrite decide_False by lia. loads.
    unfold nova_replay_remove_dentry, dentry_name, nova_remove_dir_radix_tree. loads.
    rewrite bind_load_bytes. fold (name_at (vis (w_nvmm w)) p). rewrite Hname. loads.
    rewrite (bind_get_sih _ _ _ _ (rp_inode Hr)). loads.
    rewrite (bind_update_sih _ _ Hr), !bind_mret.
    eexists _, _. split; [done|]. split; [by apply rp_sih|done]. }
  rewrite decide_True by lia. loads.
  rewrite (dir_ld _ _ _ 1 _ Hok HQp Hr) by (unfold nova_dentry.invalid; lia).
  case_decide as Einv.
  { injection Hstep as <-. rewrite decide_False, bind_mret by done.
    destruct Hret as [->|[?|?]]; [by exists w, i|done..]. }
  rewrite decide_True by done. loads.
  unfold nova_replay_add_dentry, dentry_name. loads.
  rewrite bind_load_bytes. fold (name_at (vis (w_nvmm w)) p). rewrite Hname.
  case_decide as Hno; [done|]. injection Hstep as <-. rewrite decide_False by tauto.
  unfold nova_insert_dir_radix_tree. loads.
  destruct (radix_tree_insert_run w h i (BKDRHash (name_at m p)) p (rp_inode Hr))
    as (w'&i'&Hrun&Hi'&Hhd&Hn&Hs').
  destruct (tree (header i) !! BKDRHash (name_at m p)) eqn:El; [naive_solver|].
  rewrite Hradix in Hrun, Hhd. rewrite (bind_run _ _ _ _ _ Hrun), bind_mret.
  exists w', i'. split; [done|]. split; [|by rewrite Hhd].
  split; [rewrite Hn; apply Hr|done|rewrite Hs'; apply Hr|rewrite Hhd; apply Hr].
Qed.

(** One entry of another type: the tree of a directory is not truncated. *)
Lemma replay_other_run {B} w i p (k : option Z → M B) :
  replaying w i → 0 < p < lim → entry_ok m p → (∀ x, p ≤ x < p + entry_len m p → Q x) →
  ld 1 m p ≠ DIR_LOG →
  ∃ w' i', (replay_attributes pi h p (ld 1 m p) ≫= k) w = k (Some (p + entry_len m p)) w' ∧
    replaying w' i' ∧ tree (header i') = tree (header i) ∧
    log_pages (header i') = log_pages (header i).
Proof.
  intros Hr Hp Hok HQp Ht.
  destruct (replay_attributes_run dir_kind HQ Hlim w i _ p k Hr eq_refl Hp Hok)
    as (w'&i'&Hrun&Hr'&_&Htr&Hl&_).
  { intros x [Hx _]. by apply HQp. }
  { destruct (eo_type _ _ Hok) as [?|[?|[? Hreg]]]; [done|by left|right].
    split; [done|]. by rewrite Hreg. }
  exists w', i'. unfold entry_len. rewrite decide_False by done. split_and!; try done.
  rewrite Htr. unfold attr_tree, truncated. case_decide as Hs; [|done].
  destruct (eo_type _ _ Hok) as [?|[Hl'|[_ Hreg]]]; [done|by rewrite Hl' in Hs|].
  rewrite decide_False; [done|]. rewrite Hreg. by intros (_&?&_).
Qed.

Lemma replay_attributes_dentry {B} w p (k : option Z → M B) :
  0 < p < lim → (replay_attributes pi h p DIR_LOG ≫= k) w = k None w.
Proof. intros Hp. unfold replay_attributes. by rewrite bind_assoc, bind_block_ptr by lia. Qed.

Lemma entry_len_bound p : entry_ok m p → 32 ≤ entry_len m p ≤ 4064.
Proof.
  intros [_ [Hl1 Hl2] _]. rewrite ENTRY_LOC_mod in Hl2. unfold LAST_ENTRY in Hl2.
  pose proof (Z.mod_pos_bound p 4096). lia.
Qed.

Lemma rebuild_loop_run cur ps k :
  log_walk dir_kind Q lim m tail cur ps k → ∀ fuel w i ret t,
  (length ps < fuel)%nat → replaying w i → replay m (tree (header i)) ps = Some t →
  ret = Some 0 ∨ starts_valid m ps →
  0 ≤ log_pages (header i) → log_pages (header i) + k < 2 ^ 64 →
  ∃ w' i', rebuild_dir_loop fuel pi h cur ret w = Done (tail, w') ∧ replaying w' i' ∧
    tree (header i') = t ∧ log_pages (header i') = log_pages (header i) + k.
Proof.
  induction 1 as [|cur ps k p Hne Hcur Hp Hok HQc Hx HQp Hw IH];
    intros fuel w i ret t Hf Hr Hrep Hret Hl0 Hl1; (destruct fuel as [|fuel]; [cbn in Hf; lia|]);
    cbn [rebuild_dir_loop]; rewrite bind_load;
    (rewrite (ld_frame 8 m) by (intros x Hx'; apply (rp_mem Hr);
      unfold nova_inode.log_tail in Hx'; lia)); rewrite Htail.
  { rewrite decide_True by done. injection Hrep as <-. exists w, i. by rewrite Z.add_0_r. }
  rewrite decide_False by done.
  change (ent_len dir_kind m p) with (entry_len m p) in *. change (entry_ok m p) in Hok.
  assert (∀ x, p ≤ x < p + entry_len m p → Q x) as HQr by (intros; by apply HQp, dir_bytes).
  pose proof (walk_crossings _ _ _ _ _ _ _ _ Hw) as Hk.
  match goal with |- context [(replay_position h cur ≫= ?kk) w] =>
    destruct (replay_position_run HQ Hlim w i cur kk Hr) as (w1&i1&->&Hr1&_&Ht1&_&Hlp); [done..|lia|] end.
  fold p. rewrite entry_type_run, (rp_type dir_kind HQ Hok HQp Hr1) by lia.
  cbn in Hrep. apply bind_Some in Hrep as (t1&Hstep&Hrep). rewrite <- Ht1 in Hstep.
  replace (log_pages (header i) + (k + Z.b2z (crosses m cur)))
    with (log_pages (header i1) + k) in Hl1 |- * by lia.
  assert (0 ≤ log_pages (header i1)) as Hl2 by (rewrite Hlp; destruct (crosses m cur); cbn; lia).
  cbn [starts_valid] in Hret. cbn [length] in Hf.
  destruct (decide (ld 1 m p = DIR_LOG)) as [Hd|Hd].
  - rewrite Hd, replay_attributes_dentry, bind_block_ptr by (done || lia).
    match goal with |- context [(replay_dentry h p ret ≫= ?kk) w1] =>
      destruct (replay_dentry_run w1 i1 p ret t1 kk) as (w2&i2&->&Hr2&<-&Hl3); [done..|] end.
    cbn [deref]. rewrite bind_mret, decide_False by (by intros []).
    match goal with |- context [(nova_rebuild_dir_time_and_size pi p ≫= ?kk) w2] =>
      destruct (time_and_size_run w2 i2 p kk Hr2) as (w3&->&Hr3) end.
    rewrite bind_load, (dir_ld _ _ _ 2 _ Hok HQr Hr3) by (unfold nova_dentry.de_len; lia).
    assert (ld 2 m (p + nova_dentry.de_len) = entry_len m p) as ->
      by (unfold entry_len; by rewrite decide_True).
    pose proof (entry_len_bound p Hok) as Hlen.
    rewrite (Z.mod_small _ (2 ^ 64) : 0 ≤ p + entry_len m p < 2 ^ 64 → u64 _ = _) by lia.
    rewrite <- Hl3. apply IH; [lia|done|done|by left|lia|lia].
  - match goal with |- context [(replay_attributes pi h p _ ≫= ?kk) w1] =>
      destruct (replay_other_run w1 i1 p kk Hr1 Hp Hok HQr Hd)
        as (w2&i2&->&Hr2&Ht2&Hl3) end.
    unfold replay_step in Hstep. rewrite decide_True in Hstep by done. injection Hstep as <-.
    rewrite <- Hl3. apply IH; [lia|done|by rewrite Ht2|done|lia|lia].
Qed.
End loop.

(** ** A directory and its log *)

(** The log of the inode at [pi] passes the entries [ps], goes on with the page
    [b] of its tail and the pages [bs], and denotes the tree [t]. *)
Record dir_log (m : mem) (n pi : Z) (t : gmap Z Z) (ps : list Z) (k b : Z) (bs : list Z) : Prop := {
  dl_head : ld 8 m (pi + nova_inode.log_head) ≠ 0;
  dl_walk : log_walk dir_kind (log_space pi (ld 8 m (pi + nova_inode.log_tail))) (n * 4096) m
              (ld 8 m (pi + nova_inode.log_tail)) (ld 8 m (pi + nova_inode.log_head)) ps k;
  dl_replay : replay m ∅ ps = Some t;
  dl_start : starts_valid m ps;
  dl_rest : tail_pages m n pi b bs
}.
#[local] Arguments dl_rest {m n pi t ps k b bs}.

Lemma starts_valid_app m ps p :
  starts_valid m ps →
  ld 8 m (p + nova_dentry.ino) = 0 ∨ ld 1 m (p + nova_dentry.invalid) = 0 →
  starts_valid m (ps ++ [p]).
Proof.
  intros Hs Hp. induction ps as [|q ps IH]; cbn in *; [by case_decide|].
  case_decide; [done|]. by apply IH.
Qed.

(** A dentry written at the tail, and the tail moved behind it. *)
Lemma dir_log_append m m' n pi t t' ps k b bs :
  let tail := ld 8 m (pi + nova_inode.log_tail) in
  let tail' := tail + entry_len m' tail in
  dir_log m n pi t ps k b bs → entry_ok m' tail → ld 1 m' tail = DIR_LOG →
  ld 8 m' (tail + nova_dentry.ino) = 0 ∨ ld 1 m' (tail + nova_dentry.invalid) = 0 →
  replay_step m' t tail = Some t' → ld 8 m' (pi + nova_inode.log_tail) = tail' →
  (∀ x, ¬ tail ≤ x < tail' →
        ¬ pi + nova_inode.log_tail ≤ x < pi + nova_inode.log_tail + 8 → ld8 m' x = ld8 m x) →
  dir_log m' n pi t' (ps ++ [tail]) k b bs.
Proof.
  intros tail tail' Hd Hok Hty Hvalid Hstep Htail' Hm.
  destruct Hd as [Hhead Hwalk Hrep Hstart [Htail Hpages Hnd Hapart]]. fold tail in Hwalk, Htail.
  destruct (Hapart b ltac:(left)) as [Hb Hba]. pose proof (eo_len _ _ Hok) as [Hl1 Hl2].
  rewrite ENTRY_LOC_mod in Hl2. rewrite BLOCK_OFF_mod in Htail. unfold LAST_ENTRY in Hl2.
  pose proof (Z.mod_pos_bound tail 4096 ltac:(lia)) as Hmod.
  assert (tail' mod 4096 = tail mod 4096 + entry_len m' tail) as Hmod'.
  { subst tail'. replace (tail + entry_len m' tail)
      with (tail mod 4096 + entry_len m' tail + b * 4096) by lia.
    rewrite Z_mod_plus_full. apply Z.mod_small. lia. }
  assert (∀ x, log_space pi tail x → ld8 m' x = ld8 m x) as HmQ.
  { intros x [Hx1 Hx2]. rewrite BLOCK_OFF_mod in Hx2. unfold LAST_ENTRY in Hx2.
    unfold nova_inode.sizeof in Hx1. apply Hm; unfold nova_inode.log_tail; lia. }
  assert (ld 8 m' (pi + nova_inode.log_head) = ld 8 m (pi + nova_inode.log_head)) as Hhead'.
  { apply ld_frame. intros x Hx. unfold nova_inode.log_head, nova_inode.log_tail,
      nova_inode.sizeof in *. apply Hm; lia. }
  split; [rewrite ?Hhead', ?Htail'..|split; rewrite ?Htail']; try done.
  - eapply (walk_append dir_kind); [exact HmQ|exact Hwalk|..]; try done;
      change (ent_len dir_kind) with entry_len in *.
    + intros x [Hx1 Hx2]. split; [done|]. rewrite BLOCK_OFF_mod in Hx2 |- *. lia.
    + intros [_ Hx]. rewrite BLOCK_OFF_mod in Hx. unfold LAST_ENTRY in Hx. lia.
    + lia.
    + unfold crosses. rewrite Hty, ENTRY_LOC_mod. unfold LAST_ENTRY.
      apply bool_decide_false. intros [?|?]; [lia|done].
    + intros x [Hx _]. split; [unfold nova_inode.sizeof in *; lia|lia].
  - rewrite replay_app, (replay_frame _ _ _ _ HmQ _ _ _ _ _ Hwalk), Hrep. cbn. by rewrite Hstep.
  - apply starts_valid_app; [|done]. by eapply starts_valid_frame.
  - rewrite BLOCK_OFF_mod. lia.
  - eapply log_seg_frame; [|done]. intros c Hc. apply ld_frame. intros x Hx.
    rewrite next_field_eq in Hx. destruct (Hapart c Hc) as [Hc0 Hca]. 
    unfold nova_inode.sizeof in *. apply Hm; unfold nova_inode.log_tail; [|lia].
    assert (c = b ∨ c < b ∨ b < c) as [->|Hcb] by lia; lia.
Qed.

Section theorems.
Context `{RbTree} `{Env} `{Vfs}.

Lemma rebuild_dir_run w h i pi t ps k b bs :
  let m := vis (w_nvmm w) in let n := num_blocks (w_sbi w) in
  w_inodes w !! h = Some i → tree (header i) = ∅ → n < 2 ^ 44 →
  (∀ t, radix_node_alloc t = true) → dir_log m n pi t ps k b bs →
  ∃ w' i', nova_rebuild_dir_inode_tree pi pi h w = Done (0, w') ∧
    replaying pi h m (w_sbi w) w' i' ∧
    tree (header i') = t ∧ log_pages (header i') = 1 + k + Z.of_nat (length bs).
Proof.
  intros m n Hi Ht Hn Hradix Hd. pose proof (tail_pages_length _ _ _ _ _ (dl_rest Hd)) as Hlen.
  destruct Hd as [Hhead Hwalk Hrep Hstart Hrest]. pose proof Hrest as [Htail Hpages _ _].
  pose proof (walk_length _ _ _ _ _ _ _ _ Hwalk). pose proof (walk_crossings _ _ _ _ _ _ _ _ Hwalk).
  unfold nova_rebuild_dir_inode_tree.
  rewrite (bind_run _ _ _ _ _ (update_sih_run _ _ _ _ Hi)), bind_load. cbn [w_nvmm set_inodes].
  rewrite decide_False by done. set (i1 := InodeInfo _ _). set (w1 := set_inodes _ w).
  assert (replaying pi h m (w_sbi w) w1 i1) as Hr1 by (split; [done|apply lookup_insert_eq|done..]).
  rewrite (bind_update_sih _ _ Hr1), bind_get_sbi.
  pose proof (rp_sih (sih_set_log_pages 1) Hr1 eq_refl) as Hr2.
  rewrite (rp_sbi Hr2). fold n.
  assert (∀ x, log_space pi (ld 8 m (pi + nova_inode.log_tail)) x →
    ¬ pi ≤ x < pi + nova_inode.sizeof) as HQ by (by intros x [? _]).
  match type of Hr2 with replaying _ _ _ _ ?w2 ?i2 =>
    destruct (rebuild_loop_run _ (n * 4096) pi h _ m (w_sbi w) HQ ltac:(lia) Hradix eq_refl
      _ _ _ Hwalk (S (Z.to_nat (n * 4096))) w2 i2 None t) as (w3&i3&Hrun3&Hr3&Ht3&Hl3);
      [lia|done|by cbn; rewrite Ht|by right|cbn; lia|cbn; lia|] end.
  cbn in Hl3. fold m. rewrite (bind_run _ _ _ _ _ Hrun3).
  destruct (rebuild_finish_run b bs Hr3 Htail Hpages) as (w4&i4&Hrun4&Hr4&_&Ht4&_&Hl4);
    [|lia..|].
  { intros c Hc. by eapply tail_pages_links. }
  rewrite (bind_run _ _ _ _ _ Hrun4), (bind_get_sih _ _ _ _ (rp_inode Hr4)).
  rewrite bind_store. eexists _, i4. split; [reflexivity|]. split; [by apply rp_store|].
  split; [by rewrite Ht4|lia].
Qed.

(** C7. Rebuilding a directory.  When the log of a directory is well formed
    and denotes the tree [t], [nova_rebuild_inode] terminates with success and
    gives the inode in memory exactly the tree [t] and the number of pages of
    the log, the pages behind the tail included.  On the medium it changes
    nothing but attributes of the inode. *)
Theorem rebuild_dir_replays w h i pi t ps k b bs :
  let m := vis (w_nvmm w) in
  w_inodes w !! h = Some i → 0 < pi < 2 ^ 56 → num_blocks (w_sbi w) < 2 ^ 44 →
  (∀ t, radix_node_alloc t = true) →
  ld 1 m (pi + nova_inode.valid) ≠ 0 → 
  Z.land (ld 2 m (pi + nova_inode.i_mode)) S_IFMT = S_IFDIR →
  dir_log m (num_blocks (w_sbi w)) pi t ps k b bs →
  ∃ w' i', nova_rebuild_inode h pi w = Done (0, w') ∧ w_inodes w' !! h = Some i' ∧
    tree (header i') = t ∧ pi_addr (header i') = pi ∧
    log_pages (header i') = 1 + k + Z.of_nat (length bs) ∧
    ∀ x, ¬ pi + 4 ≤ x < pi + 60 → ld8 (vis (w_nvmm w')) x = ld8 m x.
Proof.
  intros m Hi Hpi Hn Hradix Hvalid Hmode Hd. unfold nova_rebuild_inode.
  rewrite bind_block_ptr by lia. rewrite bind_load. fold m. rewrite decide_False by done.
  rewrite bind_load, bind_load. fold m. unfold nova_init_header.
  rewrite (bind_run _ _ _ _ _ (update_sih_run _ _ _ _ Hi)).
  match goal with |- context [(update_sih h ?f ≫= _) ?w0] =>
    rewrite (bind_run _ _ _ _ _ (update_sih_run w0 h _ f ltac:(apply lookup_insert_eq))) end.
  rewrite decide_False by (rewrite Hmode; by intros [?|?]).
  rewrite decide_True by done. rewrite bind_assoc.
  match goal with |- context [(nova_rebuild_dir_inode_tree pi pi h ≫= _) ?w0] =>
    destruct (rebuild_dir_run w0 h _ pi t ps k b bs ltac:(apply lookup_insert_eq)
      eq_refl Hn Hradix Hd) as (w'&i'&Hrun&Hr&Ht&Hl) end.
  rewrite (bind_run _ _ _ _ _ Hrun), bind_mret.
  exists w', i'. split; [done|]. split_and!; [apply Hr|done|apply Hr|done|].
  intros x. apply (rp_mem Hr).
Qed.

Lemma update_tail_vis w pi t :
  ∃ w', nova_update_tail pi t w = Done ((), w') ∧ w_inodes w' = w_inodes w ∧
    w_sbi w' = w_sbi w ∧
    vis (w_nvmm w') = st_bytes (vis (w_nvmm w)) (pi + nova_inode.log_tail) (le_split 8 t).
Proof. unfold nova_update_tail. rewrite bind_barrier, bind_store. by eexists. Qed.

Lemma dentry_entry_ok m e ino len name :
  dentry_at m e ino len name → 29 + Z.of_nat (length name) ≤ len → 32 ≤ len →
  e mod 4096 + len ≤ LAST_ENTRY →
  entry_ok m e ∧ ld 1 m e = DIR_LOG ∧ entry_len m e = len ∧ name_at m e = name.
Proof.
  intros [Ht Hv Hl Hi Hnl Hn] Hlen H32 Hpage. change (e + nova_dentry.entry_type) with (e + 0) in Ht.
  rewrite Z.add_0_r in Ht. assert (entry_len m e = len) as Hel
    by (unfold entry_len; by rewrite decide_True).
  split_and!; [|done..|].
  - split; [by left|rewrite ENTRY_LOC_mod; lia|intros _; lia].
  - unfold name_at. by rewrite Hnl, Nat2Z.id.
Qed.

Lemma dentry_at_frame m m' e ino len name :
  (∀ x, e ≤ x < e + 29 + Z.of_nat (length name) → ld8 m' x = ld8 m x) →
  dentry_at m e ino len name → dentry_at m' e ino len name.
Proof.
  intros Hm [Ht Hv Hl Hi Hnl Hn].
  split; [rewrite (ld_frame _ m)..|rewrite (ld_bytes_frame _ m)]; try done; intros x Hx; apply Hm;
    unfold nova_dentry.entry_type, nova_dentry.name_len, nova_dentry.invalid, nova_dentry.de_len,
      nova_dentry.ino, nova_dentry.name in Hx; lia.
Qed.

(** The memory after a dentry has been appended and the tail been moved. *)
Lemma dentry_logged m n pi t t' ps k b bs ino len mt sz lk name :
  let tail := ld 8 m (pi + nova_inode.log_tail) in
  let m' := st_bytes (dentry_mem m tail ino len mt sz lk name) (pi + nova_inode.log_tail)
              (le_split 8 (tail + len)) in
  dir_log m n pi t ps k b bs → n < 2 ^ 44 → (length name ≤ 255)%nat → name ≠ [] →
  Forall (λ b, 0 ≤ b < 256) name → 0 ≤ ino < 2 ^ 64 →
  Z.of_nat (length name) + 29 ≤ len → 32 ≤ len < 2 ^ 16 → tail mod 4096 + len ≤ LAST_ENTRY →
  (if decide (ino = 0) then t' = delete (BKDRHash name) t
   else t !! BKDRHash name = None ∧ t' = <[BKDRHash name := tail]> t) →
  dir_log m' n pi t' (ps ++ [tail]) k b bs.
Proof.
  intros tail m' Hd Hn Hlen Hne Hbytes Hino Hrec H32 Hpage Ht'.
  destruct (tp_apart (dl_rest Hd) b ltac:(left)) as [Hb Hba].
  pose proof (tp_tail (dl_rest Hd)) as Htail. fold tail in Htail.
  rewrite BLOCK_OFF_mod in Htail. pose proof (Z.mod_pos_bound tail 4096 ltac:(lia)) as Hmod.
  unfold LAST_ENTRY, nova_inode.sizeof in *.
  assert (dentry_at m' tail ino len name) as Hat.
  { eapply dentry_at_frame; [|apply (dentry_mem_at m tail ino len mt sz lk name); done || lia].
    intros x Hx. apply ld8_st_bytes_out. rewrite length_le_split. unfold nova_inode.log_tail. lia. }
  destruct (dentry_entry_ok _ _ _ _ _ Hat) as (Hok&Hty&Hel&Hname); [lia..|done|].
  eapply dir_log_append; fold tail; rewrite ?Hel; try done.
  - right. apply Hat.
  - unfold replay_step. rewrite decide_False by (by intros []). rewrite (de_ino _ _ _ _ _ Hat), Hname.
    case_decide; [by rewrite Ht'|]. destruct Ht' as [Hf ->].
    rewrite decide_False by (by rewrite (de_valid _ _ _ _ _ Hat); intros []).
    rewrite decide_False; [done|]. intros [?|[? ?]]; [done|by rewrite Hf in *].
  - unfold m'. rewrite ld_st. apply Z.mod_small. lia.
  - intros x Hx1 Hx2. unfold m'. rewrite ld8_st_bytes_out by (rewrite length_le_split; lia).
    apply dentry_mem_out. lia.
Qed.

(** C8. A name that was added is in the log.  Adding a name to a directory
    whose tree is what its log denotes, when the page of the tail has room, and
    moving the tail, as the name space operations do in a transaction, gives
    again a log that denotes the tree in memory: a replay after a restart finds
    the name. *)
Theorem add_dentry_logged w d i ino inc_link ps k b bs :
  let m := vis (w_nvmm w) in
  let name := d_name d in
  let pi := pi_addr (header i) in
  let tail := ld 8 m (pi + nova_inode.log_tail) in
  let len := NOVA_DIR_LOG_REC_LEN (Z.of_nat (length name)) in
  let n := num_blocks (w_sbi w) in
  w_inodes w !! d_parent d = Some i → pi ≠ 0 → n < 2 ^ 44 →
  (∀ t, radix_node_alloc t = true) →
  (1 ≤ length name ≤ 255)%nat → Forall (λ b, 0 ≤ b < 256) name → 0 < ino < 2 ^ 64 →
  is_last_entry tail len = false → tree (header i) !! BKDRHash name = None →
  dir_log m n pi (tree (header i)) ps k b bs →
  ∃ w1 w2 i2, nova_add_dentry d ino inc_link 0 w = Done ((0, Some (tail + len)), w1) ∧
    nova_update_tail pi (tail + len) w1 = Done ((), w2) ∧
    w_inodes w2 !! d_parent d = Some i2 ∧
    tree (header i2) = <[BKDRHash name := tail]> (tree (header i)) ∧
    dir_log (vis (w_nvmm w2)) n pi (tree (header i2)) (ps ++ [tail]) k b bs.
Proof.
  intros m name pi tail len n Hi Hpi Hn Hradix Hlen Hbytes Hino Hlast Hfree Hd.
  destruct (REC_LEN_bounds (Z.of_nat (length name)) ltac:(lia)) as [Hrec Hrec8].
  fold len in Hrec, Hrec8. assert (32 ≤ len) as H32 by (pose proof (Z.div_mod len 8); lia).
  destruct (tp_apart (dl_rest Hd) b ltac:(left)) as [Hb Hba].
  pose proof (tp_tail (dl_rest Hd)) as Htail. fold tail in Htail.
  rewrite BLOCK_OFF_mod in Htail. pose proof (Z.mod_pos_bound tail 4096 ltac:(lia)) as Hmod.
  destruct (add_dentry_run w d i ino inc_link 0 Hi Hpi Hlen) as (w1&v&mt&sz&lk&->&Hi1&_&Hv1);
    [change (0 < tail < 2 ^ 56); lia|done|]. fold m pi in Hv1 |- *.
  change (append_at m pi 0) with tail in *. fold name in Hv1 |- *. fold len in Hv1 |- *.
  destruct (radix_tree_insert_run w1 _ _ (BKDRHash name) tail Hi1) as (w2&i2&Hrun&Hi2&Hhd&Hnv&_).
  cbn [header] in Hrun, Hhd. rewrite Hfree, Hradix in Hrun, Hhd.
  unfold nova_insert_dir_radix_tree. rewrite (bind_run _ _ _ _ _ Hrun).
  destruct (update_tail_vis w2 pi (tail + len)) as (w3&Hrun3&Hi3&_&Hv3).
  exists w2, w3, i2. rewrite Hi3, Hhd. split_and!; [done..|]. cbn.
  rewrite Hv3, Hnv, Hv1. eapply dentry_logged; try done; try lia.
  - by destruct name; [cbn in Hlen; lia|].
  - unfold is_last_entry in Hlast. apply bool_decide_eq_false in Hlast.
    rewrite ENTRY_LOC_mod in Hlast. unfold u32 in Hlast.
    rewrite (Z.mod_small (_ + len)) in Hlast by lia. fold tail. lia.
  - by rewrite decide_False by lia.
Qed.
End theorems.

Section instances.
#[local] Existing Instances bst_rb env1 vfs1.

(** A directory whose inode is at 1024 and whose log has one page, block 2,
    with the entry ["."]. *)
Definition dot_mem : mem :=
  let m := dentry_mem ∅ 8192 20 32 0 4096 1 [46] in
  let m := st_bytes m (1024 + nova_inode.valid) [1] in
  let m := st_bytes m (1024 + nova_inode.i_mode) (le_split 2 (S_IFDIR + 0x1ED)) in
  let m := st_bytes m (1024 + nova_inode.log_head) (le_split 8 8192) in
  st_bytes m (1024 + nova_inode.log_tail) (le_split 8 8224).
Definition dot_tree : gmap Z Z := {[46 := 8192]}.
Definition dot_world (t : gmap Z Z) : world :=
  World (nvmm_boot dot_mem) small_sbi ∅ 0
    {[1 := InodeInfo (Sih t ∅ 0 1 0 20 1024 0 0 0 0 0 0)
             (VfsInode 20 0 2 4096 1 0 0 0 0 0 0 0 0 false)]} [].

Lemma dot_log : dir_log dot_mem (num_blocks small_sbi) 1024 dot_tree [8192] 0 2 [].
Proof.
  assert (entry_len dot_mem 8192 = 32) as Hlen by by vm_compute.
  assert (position dot_mem 8192 = 8192) as Hpos by by vm_compute.
  assert (crosses dot_mem 8192 = false) as Hc by by vm_compute.
  assert (ld 8 dot_mem (1024 + nova_inode.log_tail) = 8224) as Ht by by vm_compute.
  assert (ld 8 dot_mem (1024 + nova_inode.log_head) = 8192) as Hh by by vm_compute.
  assert (BLOCK_OFF 8224 = 8192) as Hoff by by vm_compute.
  split; [rewrite ?Ht, ?Hh..|split; rewrite ?Ht].
  - lia.
  - replace (log_walk _ _ _ _ _ _ [8192] 0) with (log_walk dir_kind (log_space 1024 8224)
      (num_blocks small_sbi * 4096) dot_mem 8224 8192 [position dot_mem 8192]
      (0 + Z.b2z (crosses dot_mem 8192))) by (by rewrite Hpos, Hc).
    unfold log_space, nova_inode.sizeof, LAST_ENTRY. rewrite Hoff.
    assert (num_blocks small_sbi = 21) as Hn by by vm_compute.
    apply walk_entry; change (ent_len dir_kind) with entry_len; rewrite ?Hpos, ?Hlen, ?Hc, ?Hn;
      [lia|lia|lia| |lia|by intros|intros x [Hx _]; lia|constructor].
    change (entry_ok dot_mem 8192). split; [left; by vm_compute|by vm_compute|by vm_compute].
  - by vm_compute.
  - cbn [starts_valid]. rewrite decide_True by by vm_compute. right. by vm_compute.
  - by vm_compute.
  - split; [lia|by vm_compute].
  - apply NoDup_singleton.
  - intros c ->%list_elem_of_singleton. split; [by vm_compute|]. unfold nova_inode.sizeof. lia.
Qed.

Lemma rebuild_dir_replays_witness :
  ∃ w' i', nova_rebuild_inode 1 1024 (dot_world ∅) = Done (0, w') ∧
    w_inodes w' !! 1 = Some i' ∧ tree (header i') = {[46 := 8192]} ∧ log_pages (header i') = 1.
Proof.
  destruct (rebuild_dir_replays (dot_world ∅) 1 _ 1024 dot_tree [8192] 0 2 [] eq_refl)
    as (w'&i'&Hrun&Hi'&Ht&_&Hl&_).
  - lia.
  - by vm_compute.
  - reflexivity.
  - by vm_compute.
  - by vm_compute.
  - exact dot_log.
  - exists w', i'. split; [exact Hrun|]. split; [exact Hi'|]. split; [exact Ht|exact Hl].
Defined.

Lemma add_dentry_logged_witness :
  ∃ w1 w2 i2, nova_add_dentry (Dentry 1 [97] None) 33 0 0 (dot_world dot_tree)
      = Done ((0, Some 8256), w1) ∧
    nova_update_tail 1024 8256 w1 = Done ((), w2) ∧ w_inodes w2 !! 1 = Some i2 ∧
    dir_log (vis (w_nvmm w2)) (num_blocks small_sbi) 1024 (<[97 := 8224]> dot_tree)
      [8192; 8224] 0 2 [].
Proof.
  destruct (add_dentry_logged (dot_world dot_tree) (Dentry 1 [97] None) _ 33 0 [8192] 0 2 []
    eq_refl) as (w1&w2&i2&Hrun1&Hrun2&Hi2&Ht&Hd).
  - done.
  - by vm_compute.
  - reflexivity.
  - cbn; lia.
  - repeat constructor; done.
  - lia.
  - by vm_compute.
  - by vm_compute.
  - exact dot_log.
  - change (pi_addr _) with 1024 in *. cbn [d_name d_parent w_nvmm dot_world] in *.
    change (vis (nvmm_boot dot_mem)) with dot_mem in *.
    assert (ld 8 dot_mem (1024 + nova_inode.log_tail) = 8224) as Et by by vm_compute.
    assert (NOVA_DIR_LOG_REC_LEN (Z.of_nat (length [97])) = 32) as El by by vm_compute.
    assert (BKDRHash [97] = 97) as Eh by by vm_compute.
    rewrite Et, El, ?Eh in *. rewrite Ht in Hd. exists w1, w2, i2.
    split; [exact Hrun1|]. split; [exact Hrun2|]. split; [exact Hi2|].
    exact Hd.
Defined.
End instances.
