(* ===== verification/CrashProofs.v ===== *)
(** * Files after a power failure (dax.c, inode.c, bbuild.c)

    What of a write survives, and what is read once the inode has been
    rebuilt from its log. *)
From S2P Require Import Prelude Nvmm RangeTree Layout World Balloc BallocList BallocProofs.
From S2P Require Import Log LogPages LogProofs FileTree Inode Journal InodeMap Dir Rebuild.
From S2P Require Import InodeCycle Dax DaxProofs AssignProofs FileInv CowProofs File Namei DirProofs.

(** ** One possible power failure: nothing survives that need not *)
Definition durable_mem (q : nvmm) : mem :=
  apply_writes (base q) (filter (λ e, e.2 = Durable) (plog q)).*1.

Lemma durable_image q : crash_image q (durable_mem q).
Proof.
  unfold crash_image, durable_mem. generalize (base q).
  induction (plog q) as [|[x s] l IH]; intros m; [constructor|].
  rewrite filter_cons. cbn [snd]. case_decide as Hs.
  - constructor. apply IH.
  - by apply crashes_drop.
Qed.

Section instances.
#[local] Existing Instances bst_rb env1 uaccess1 vfs1.

(** A file of two pages, the blocks 5 and 6 of one write entry: byte 4095 is
    65, byte 4096 is 66. *)
Definition two_mem : mem :=
  let m := st_bytes ∅ 8192 (encode_write_entry (5 * 4096) 0 2 0 0 0 8192) in
  let m := st_bytes m (1024 + nova_inode.log_head) (le_split 8 8192) in
  let m := st_bytes m (1024 + nova_inode.log_tail) (le_split 8 8232) in
  let m := st_bytes m (1024 + nova_inode.valid) [1] in
  let m := st_bytes m (1024 + nova_inode.i_mode) (le_split 2 S_IFREG) in
  st_bytes (st_bytes m (5 * 4096 + 4095) [65]) (6 * 4096) [66].
Definition two_inode : nova_inode_info :=
  InodeInfo (Sih {[0 := 8192; 1 := 8192]} ∅ S_IFREG 1 8192 20 1024 0 0 0 0 0 0)
    (VfsInode 20 S_IFREG 1 8192 2 0 0 0 0 0 0 0 0 false).
Definition two_world : world :=
  World (nvmm_boot two_mem) small_sbi {[100; 101; 200]} 0 {[1 := two_inode]} [].

(** The next mount on the medium [m], with a new inode in memory. *)
Definition restart (m : mem) : world :=
  World (nvmm_boot m) small_sbi {[100; 101; 200]} 0
    {[1 := InodeInfo (Sih ∅ ∅ 0 0 0 0 0 0 0 0 0 0 0)
             (VfsInode 0 0 0 0 0 0 0 0 0 0 0 0 0 false)]} [].

(** Byte 4096 read together with the byte before it, and alone. *)
Definition reopen_and_read : M (Z * Z * (Z * Z * list Z) * (Z * Z * list Z)) :=
  rebuilt ← nova_rebuild_inode 1 1024;
  read ← nova_read_inode 1 1024;
  both ← nova_dax_file_read 1 2 4095;
  one ← nova_dax_file_read 1 1 4096;
  mret (rebuilt, read, both, one).

(** C15. Old data after a power failure.  The count of invalid pages of an
    overwritten entry is stored but never written back, and a replay of the
    log does not count again; a read takes a count of 0 for a contiguous
    entry.  So after a write of byte 4096 has returned there is a power
    failure after which the inode is rebuilt without an error, a read of the
    byte alone gives the new one, and a read that starts at the byte before
    it gives the old one. *)
Theorem read_stale_after_failure :
  ∃ w m, nova_cow_file_write 1 [99] 4096 false two_world = Done ((1, 4097), w) ∧
    crash_image (w_nvmm w) m ∧
    answer (reopen_and_read (restart m)) =
      Some (0, 0, (2, 4097, [65; 66]), (1, 4097, [99])).
Proof.
  assert (match nova_cow_file_write 1 [99] 4096 false two_world with
    | Done (r, w) => Some (r, answer (reopen_and_read (restart (durable_mem (w_nvmm w)))))
    | Halt _ => None
    end = Some ((1, 4097), Some (0, 0, (2, 4097, [65; 66]), (1, 4097, [99])))) as Hrun
    by (vm_compute; reflexivity).
  destruct (nova_cow_file_write 1 [99] 4096 false two_world) as [[r w]|]; [|discriminate Hrun].
  injection Hrun as -> Hread. exists w, (durable_mem (w_nvmm w)).
  split; [reflexivity|]. split; [apply durable_image|exact Hread].
Qed.
End instances.
