(* ===== verification/Stats.v ===== *)
(** * Statistics and log printing (stats.h, stats.c, sysfs.c)

    The counters, one copy per CPU and one for the sums, and the functions that
    print the log of an inode and the free lists.  What a function prints is
    its result: a [line] for each call of [printk], with the arguments. *)
From stdpp Require Import strings.
From S2P Require Import Prelude Nvmm RangeTree Layout World Balloc Log FileTree Inode.

#[local] Open Scope Z_scope.

(** ** The categories *)
Inductive timing_category :=
  | init_t | mount_t | ioremap_t | new_init_t | recovery_t
  | create_t | lookup_t | link_t | unlink_t | symlink_t | mkdir_t | rmdir_t | mknod_t
  | rename_t | readdir_t | add_dentry_t | remove_dentry_t | setattr_t
  | dax_read_t | cow_write_t | copy_to_nvmm_t | dax_get_block_t
  | memcpy_r_nvmm_t | memcpy_w_nvmm_t | memcpy_w_wb_t | partial_block_t
  | new_data_blocks_t | new_log_blocks_t | free_data_t | free_log_t
  | create_trans_t | link_trans_t | update_tail_t
  | append_dir_entry_t | append_file_entry_t | append_link_change_t | append_setattr_t
  | fast_gc_t | thorough_gc_t | check_invalid_t
  | find_cache_t | assign_t | fsync_t | direct_IO_t | delete_file_tree_t
  | delete_dir_tree_t | new_vfs_inode_t | new_nova_inode_t | free_inode_t
  | free_inode_log_t | evict_inode_t | mmap_fault_t
  | rebuild_dir_t | rebuild_file_t.
#[global] Instance timing_category_eq : EqDecision timing_category.
Proof. solve_decision. Defined.

Inductive stats_category :=
  | alloc_steps | write_breaks | read_bytes | cow_write_bytes
  | fast_checked_pages | thorough_checked_pages | fast_gc_pages | thorough_gc_pages.
#[global] Instance stats_category_eq : EqDecision stats_category.
Proof. solve_decision. Defined.

(** The enumerators in the order of their values, and [Timingstring]. *)
Definition Timingstring : list (timing_category * string) :=
  [(init_t, "init"); (mount_t, "mount"); (ioremap_t, "ioremap"); (new_init_t, "new_init");
   (recovery_t, "recovery"); (create_t, "create"); (lookup_t, "lookup"); (link_t, "link");
   (unlink_t, "unlink"); (symlink_t, "symlink"); (mkdir_t, "mkdir"); (rmdir_t, "rmdir");
   (mknod_t, "mknod"); (rename_t, "rename"); (readdir_t, "readdir");
   (add_dentry_t, "add_dentry"); (remove_dentry_t, "remove_dentry"); (setattr_t, "setattr");
   (dax_read_t, "dax_read"); (cow_write_t, "cow_write"); (copy_to_nvmm_t, "copy_to_nvmm");
   (dax_get_block_t, "dax_get_block"); (memcpy_r_nvmm_t, "memcpy_read_nvmm");
   (memcpy_w_nvmm_t, "memcpy_write_nvmm"); (memcpy_w_wb_t, "memcpy_write_back_to_nvmm");
   (partial_block_t, "handle_partial_block"); (new_data_blocks_t, "new_data_blocks");
   (new_log_blocks_t, "new_log_blocks"); (free_data_t, "free_data_blocks");
   (free_log_t, "free_log_blocks"); (create_trans_t, "transaction_new_inode");
   (link_trans_t, "transaction_link_change"); (update_tail_t, "update_tail");
   (append_dir_entry_t, "append_dir_entry"); (append_file_entry_t, "append_file_entry");
   (append_link_change_t, "append_link_change"); (append_setattr_t, "append_setattr");
   (fast_gc_t, "log_fast_gc"); (thorough_gc_t, "log_thorough_gc");
   (check_invalid_t, "check_invalid_log"); (find_cache_t, "find_cache_page");
   (assign_t, "assign_blocks"); (fsync_t, "fsync"); (direct_IO_t, "direct_IO");
   (delete_file_tree_t, "delete_file_tree"); (delete_dir_tree_t, "delete_dir_tree");
   (new_vfs_inode_t, "new_vfs_inode"); (new_nova_inode_t, "new_nova_inode");
   (free_inode_t, "free_inode"); (free_inode_log_t, "free_inode_log");
   (evict_inode_t, "evict_inode"); (mmap_fault_t, "mmap_page_fault");
   (rebuild_dir_t, "rebuild_dir"); (rebuild_file_t, "rebuild_file")].
Definition timing_categories : list timing_category := Timingstring.*1.
Definition stats_categories : list stats_category :=
  [alloc_steps; write_breaks; read_bytes; cow_write_bytes; fast_checked_pages;
   thorough_checked_pages; fast_gc_pages; thorough_gc_pages].

(** ** The counters *)

(** An array of [u64] indexed by an enumeration. *)
Definition counts (A : Type) : Type := A → Z.
Definition set_count {A} `{EqDecision A} (i : A) (v : Z) (c : counts A) : counts A :=
  λ j, if decide (j = i) then v else c j.

(** [Timingstats], [Countstats], [IOstats] and their copies per possible CPU. *)
Record counters := Counters {
  Timingstats : counts timing_category;
  Timingstats_percpu : list (counts timing_category);
  Countstats : counts timing_category;
  Countstats_percpu : list (counts timing_category);
  IOstats : counts stats_category;
  IOstats_percpu : list (counts stats_category)
}.

Definition this_cpu_add {A} `{EqDecision A} (cpu : nat) (i : A) (v : Z)
    (l : list (counts A)) : list (counts A) :=
  alter (λ c, set_count i (u64 (c i + v)) c) cpu l.

(** [NOVA_END_TIMING]; [elapsed] nanoseconds since [NOVA_START_TIMING]. *)
Definition NOVA_END_TIMING (measure_timing : bool) (cpu : nat) (name : timing_category)
    (elapsed : Z) (c : counters) : counters :=
  Counters (Timingstats c)
    (if measure_timing then this_cpu_add cpu name elapsed (Timingstats_percpu c)
     else Timingstats_percpu c)
    (Countstats c) (this_cpu_add cpu name 1 (Countstats_percpu c))
    (IOstats c) (IOstats_percpu c).

Definition NOVA_STATS_ADD (cpu : nat) (name : stats_category) (value : Z)
    (c : counters) : counters :=
  Counters (Timingstats c) (Timingstats_percpu c) (Countstats c) (Countstats_percpu c)
    (IOstats c) (this_cpu_add cpu name value (IOstats_percpu c)).

(** [x[i] = 0; for_each_possible_cpu(cpu) x[i] += per_cpu(y[i], cpu);] *)
Definition sum_cpus {A} (i : A) (percpu : list (counts A)) : Z :=
  foldl (λ acc c, u64 (acc + c i)) 0 percpu.
Definition get_stats {A} `{EqDecision A} (ix : list A) (percpu : list (counts A))
    (c : counts A) : counts A :=
  foldl (λ c i, set_count i (sum_cpus i percpu) c) c ix.

Definition nova_get_timing_stats (c : counters) : counters :=
  Counters (get_stats timing_categories (Timingstats_percpu c) (Timingstats c))
    (Timingstats_percpu c)
    (get_stats timing_categories (Countstats_percpu c) (Countstats c))
    (Countstats_percpu c) (IOstats c) (IOstats_percpu c).

Definition nova_get_IO_stats (c : counters) : counters :=
  Counters (Timingstats c) (Timingstats_percpu c) (Countstats c) (Countstats_percpu c)
    (get_stats stats_categories (IOstats_percpu c) (IOstats c)) (IOstats_percpu c).

Definition clear {A} `{EqDecision A} (ix : list A) (c : counts A) : counts A :=
  foldl (λ c i, set_count i 0 c) c ix.

Definition nova_clear_timing_stats (c : counters) : counters :=
  Counters (clear timing_categories (Timingstats c))
    (clear timing_categories <$> Timingstats_percpu c)
    (clear timing_categories (Countstats c))
    (clear timing_categories <$> Countstats_percpu c) (IOstats c) (IOstats_percpu c).

Definition nova_clear_IO_stats (c : counters) : counters :=
  Counters (Timingstats c) (Timingstats_percpu c) (Countstats c) (Countstats_percpu c)
    (clear stats_categories (IOstats c)) (clear stats_categories <$> IOstats_percpu c).

Definition nova_clear_stats (c : counters) : counters :=
  nova_clear_IO_stats (nova_clear_timing_stats c).

(** ** Printing the counters *)
Inductive line :=
  | LHeading (title : string)
  | LTiming (name : string) (count timing average : Z)
  | LCount (name : string) (count : Z)
  | LAlloc (allocs steps average : Z)
  | LFree (frees : Z)
  | LGC (fast : bool) (gcs checked freed average : Z)
  | LFreeLists (total : fl_stats)
  | LRead (reads bytes average : Z)
  | LCowWrite (writes bytes average breaks average_breaks : Z)
  | LFreeList (cpu start last blocks free nodes : Z)
  | LFreeListStats (cpu : Z) (s : fl_stats)
  | LWriteEntry (curr pgoff pages blocknr invalid size : Z)
  | LSetAttr (curr mode size : Z)
  | LLinkChange (curr links flags : Z)
  | LDentry (curr ino namelen rec_len : Z)
  | LDentryEmpty (curr : Z)
  | LNextPage (curr : Z)
  | LUnknown (type curr : Z)
  | LPageTail (curr next : Z)
  | LLog (ino head tail : Z)
  | LLogTail (curr next : Z)
  | LNoLog (ino : Z)
  | LPage (page next : Z)
  | LLogPages (ino used count reported : Z).

(** [n ? x / n : 0] *)
Definition average (x n : Z) : Z := if decide (n = 0) then 0 else x / n.

Definition add_stats (a b : fl_stats) : fl_stats :=
  FlStats (u64 (alloc_log_count a + alloc_log_count b))
    (u64 (alloc_data_count a + alloc_data_count b))
    (u64 (free_log_count a + free_log_count b)) (u64 (free_data_count a + free_data_count b))
    (u64 (alloc_log_pages a + alloc_log_pages b))
    (u64 (alloc_data_pages a + alloc_data_pages b))
    (u64 (freed_log_pages a + freed_log_pages b))
    (u64 (freed_data_pages a + freed_data_pages b)).

Definition nova_print_alloc_stats (c : counters) (s : nova_sb_info) : list line :=
  let n := Countstats c in let io := IOstats c in
  [LHeading "=========== NOVA allocation stats ===========";
   LAlloc (n new_data_blocks_t) (io alloc_steps) (average (io alloc_steps) (n new_data_blocks_t));
   LFree (n free_data_t);
   LGC true (n fast_gc_t) (io fast_checked_pages) (io fast_gc_pages)
     (average (io fast_gc_pages) (n fast_gc_t));
   LGC false (n thorough_gc_t) (io thorough_checked_pages) (io thorough_gc_pages)
     (average (io thorough_gc_pages) (n thorough_gc_t));
   LFreeLists (foldl (λ acc i, add_stats acc (stats (nova_get_free_list s i))) zero_stats
                 (seqZ 0 (cpus s)))].

Definition nova_print_IO_stats (c : counters) : list line :=
  let n := Countstats c in let io := IOstats c in
  [LHeading "=========== NOVA I/O stats ===========";
   LRead (n dax_read_t) (io read_bytes) (average (io read_bytes) (n dax_read_t));
   LCowWrite (n cow_write_t) (io cow_write_bytes) (average (io cow_write_bytes) (n cow_write_t))
     (io write_breaks) (average (io write_breaks) (n cow_write_t))].

(** The loop over the categories, also that of [nova_seq_timing_show]. *)
Definition timing_lines (measure_timing : bool) (c : counters) : list line :=
  LHeading "======== NOVA kernel timing stats ========" ::
  ((λ '(i, name), let n := Countstats c i in let t := Timingstats c i in
     if decide (measure_timing = true ∨ t ≠ 0) then LTiming name n t (average t n)
     else LCount name n) <$> Timingstring).

Definition nova_print_timing_stats (measure_timing : bool) (c : counters)
    (s : nova_sb_info) : list line * counters :=
  let c := nova_get_IO_stats (nova_get_timing_stats c) in
  (timing_lines measure_timing c ++ nova_print_alloc_stats c s ++ nova_print_IO_stats c, c).

(** sysfs.c: reading and writing the file [timing_stats] in [/proc]. *)
Definition nova_seq_timing_show (measure_timing : bool) (c : counters)
  : list line * counters :=
  let c := nova_get_timing_stats c in (timing_lines measure_timing c, c).
Definition nova_seq_clear_stats (len : Z) (c : counters) : Z * counters :=
  (len, nova_clear_stats c).

Definition free_list_lines (i : Z) (f : free_list) : list line :=
  [LFreeList i (block_start f) (block_end f) (u64 (block_end f - block_start f + 1))
     (num_free_blocks f) (num_blocknode f);
   LFreeListStats i (stats f)].
Definition nova_print_free_lists (s : nova_sb_info) : list line :=
  LHeading "======== NOVA per-CPU free list allocation stats ========" ::
  (seqZ 0 (cpus s) ≫= λ i, free_list_lines i (nova_get_free_list s i)) ++
  free_list_lines SHARED_CPU (nova_get_free_list s SHARED_CPU).

(** ** Printing a log *)
Definition nova_print_file_write_entry (curr entry : Z) : M line :=
  pgoff ← load 8 (entry + nova_file_write_entry.pgoff);
  pages ← load 4 (entry + nova_file_write_entry.num_pages);
  block ← load 8 (entry + nova_file_write_entry.block);
  invalid ← load 4 (entry + nova_file_write_entry.invalid_pages);
  size ← load 8 (entry + nova_file_write_entry.size);
  mret (LWriteEntry curr pgoff pages (Z.shiftr block PAGE_SHIFT) invalid size).

Definition nova_print_set_attr_entry (curr entry : Z) : M line :=
  mode ← load 2 (entry + nova_setattr_logentry.mode);
  size ← load 8 (entry + nova_setattr_logentry.size);
  mret (LSetAttr curr mode size).

Definition nova_print_link_change_entry (curr entry : Z) : M line :=
  links ← load 2 (entry + nova_link_change_entry.links);
  flags ← load 4 (entry + nova_link_change_entry.flags);
  mret (LLinkChange curr links flags).

(** The line and the length of the record. *)
Definition nova_print_dentry (curr entry : Z) : M (line * Z) :=
  ino ← load 8 (entry + nova_dentry.ino);
  namelen ← load 1 (entry + nova_dentry.name_len);
  de_len ← load 2 (entry + nova_dentry.de_len);
  mret (LDentry curr ino namelen de_len, de_len).

(** What is printed and the position behind the entry. *)
Definition nova_print_log_entry (curr : Z) : M (list line * Z) :=
  addr ← block_ptr curr;
  type ← load 1 addr;
  if decide (type = SET_ATTR) then
    l ← nova_print_set_attr_entry curr addr;
    mret ([l], u64 (curr + nova_setattr_logentry.sizeof))
  else if decide (type = LINK_CHANGE) then
    l ← nova_print_link_change_entry curr addr;
    mret ([l], u64 (curr + nova_link_change_entry.sizeof))
  else if decide (type = FILE_WRITE) then
    l ← nova_print_file_write_entry curr addr;
    mret ([l], u64 (curr + nova_file_write_entry.sizeof))
  else if decide (type = DIR_LOG) then
    r ← nova_print_dentry curr addr;
    let curr := u64 (curr + r.2) in
    if decide (r.2 = 0)
    then mret ([r.1; LDentryEmpty curr], u64 (curr + nova_file_write_entry.sizeof))
    else mret ([r.1], curr)
  else if decide (type = NEXT_PAGE) then mret ([LNextPage curr], PAGE_TAIL curr)
  else mret ([LUnknown type curr], u64 (curr + nova_file_write_entry.sizeof)).

(** Each step moves on by at least a byte, so a page needs no more than 4096
    of them. *)
Fixpoint print_page_loop (fuel : nat) (start last : Z) : M (list line * Z) :=
  match fuel with
  | O => stop HFuel
  | S fuel =>
    if decide (start < last) then
      r ← nova_print_log_entry start;
      r' ← print_page_loop fuel r.2 last;
      mret (r.1 ++ r'.1, r'.2)
    else mret ([], start)
  end.
Definition nova_print_curr_log_page (curr : Z) : M (list line) :=
  r ← print_page_loop 4096 (Z.land curr (Z.lnot INVALID_MASK)) (PAGE_TAIL curr);
  tail ← block_ptr (PAGE_TAIL curr);
  next ← load 8 (tail + nova_inode_page_tail.next_page);
  mret (r.1 ++ [LPageTail r.2 next]).

Fixpoint print_log_loop (fuel : nat) (pi curr : Z) : M (list line) :=
  match fuel with
  | O => stop HFuel
  | S fuel =>
    log_tail ← load 8 (pi + nova_inode.log_tail);
    if decide (curr = log_tail) then mret [] else
    if decide (Z.land curr (PAGE_SIZE - 1) = LAST_ENTRY) then
      tail ← block_ptr curr;
      next ← load 8 (tail + nova_inode_page_tail.next_page);
      ls ← print_log_loop fuel pi next;
      mret (LLogTail curr next :: ls)
    else
      r ← nova_print_log_entry curr;
      ls ← print_log_loop fuel pi r.2;
      mret (r.1 ++ ls)
  end.

(** One step per entry and one per page: a log without a cycle is printed in
    at most two steps per byte of the device. *)
Definition nova_print_nova_log (h pi : Z) : M (list line) :=
  log_tail ← load 8 (pi + nova_inode.log_tail);
  if decide (log_tail = 0) then mret [] else
  curr ← load 8 (pi + nova_inode.log_head);
  sih ← get_sih h;
  s ← get_sbi;
  ls ← print_log_loop (S (Z.to_nat (2 * (num_blocks s * 4096)))) pi curr;
  mret (LLog (sih_ino sih) curr log_tail :: ls).

(** The loop [while ((next = curr_page->page_tail.next_page) != 0)]; [count] is
    an [int]. *)
Fixpoint count_pages_loop (fuel : nat) (curr_page : option Z) (count : Z) : M Z :=
  match fuel with
  | O => stop HFuel
  | S fuel =>
    p ← deref curr_page;
    next ← load 8 (next_field p);
    if decide (next = 0) then mret count
    else count_pages_loop fuel (nova_get_block next) (s32 (count + 1))
  end.

Definition nova_get_nova_log_pages (pi : Z) : M Z :=
  head ← load 8 (pi + nova_inode.log_head);
  log_tail ← load 8 (pi + nova_inode.log_tail);
  if decide (head = 0 ∨ log_tail = 0) then mret 0 else
  s ← get_sbi;
  count_pages_loop (S (Z.to_nat (num_blocks s))) (nova_get_block head) 1.

(** The same loop with [used]: the number of the page of the tail. *)
Fixpoint print_pages_loop (fuel : nat) (pi curr count used : Z) : M (list line * Z * Z) :=
  match fuel with
  | O => stop HFuel
  | S fuel =>
    p ← deref (nova_get_block curr);
    next ← load 8 (next_field p);
    log_tail ← load 8 (pi + nova_inode.log_tail);
    let used := if decide (Z.shiftr log_tail PAGE_SHIFT = Z.shiftr curr PAGE_SHIFT)
                then count else used in
    if decide (next = 0) then mret ([], used, count) else
    r ← print_pages_loop fuel pi next (s32 (count + 1)) used;
    match r with
    | (ls, used, count) =>
      mret (LPage (Z.shiftr curr PAGE_SHIFT) (Z.shiftr next PAGE_SHIFT) :: ls, used, count)
    end
  end.

Definition nova_print_nova_log_pages (h pi : Z) : M (list line) :=
  head ← load 8 (pi + nova_inode.log_head);
  log_tail ← load 8 (pi + nova_inode.log_tail);
  sih ← get_sih h;
  if decide (head = 0 ∨ log_tail = 0) then mret [LNoLog (sih_ino sih)] else
  s ← get_sbi;
  r ← print_pages_loop (S (Z.to_nat (num_blocks s))) pi head 1 1;
  match r with
  | (ls, used, count) =>
    mret (LLog (sih_ino sih) head log_tail :: ls ++
          [LLogPages (sih_ino sih) used count (log_pages sih)])
  end.

Definition nova_print_inode_log (h : Z) : M (list line) :=
  p ← nova_get_inode h; pi ← deref p; nova_print_nova_log h pi.
Definition nova_print_inode_log_pages (h : Z) : M (list line) :=
  p ← nova_get_inode h; pi ← deref p; nova_print_nova_log_pages h pi.

(** ** The counters count *)

(** The end of one timed operation: the CPU, the category, the time. *)
Record event := Event { ev_cpu : nat; ev_name : timing_category; ev_elapsed : Z }.
Fixpoint run_events (measure_timing : bool) (es : list event) (c : counters) : counters :=
  match es with
  | [] => c
  | e :: es => run_events measure_timing es
      (NOVA_END_TIMING measure_timing (ev_cpu e) (ev_name e) (ev_elapsed e) c)
  end.

(** What a trace adds to the category [i]. *)
Definition events_of (i : timing_category) (es : list event) : list event :=
  filter (λ e, ev_name e = i) es.
Definition sum_elapsed (es : list event) : Z := foldr (λ e t, ev_elapsed e + t) 0 es.

Section sums.
Context {A : Type} `{EqDecision A}.
Implicit Types (l : list (counts A)) (c : counts A) (i j : A).

Fixpoint total i l : Z := match l with [] => 0 | c :: l => c i + total i l end.

Lemma sum_cpus_total i l : sum_cpus i l = u64 (total i l).
Proof.
  unfold sum_cpus. enough (∀ a, 0 ≤ a < 2 ^ 64 →
    foldl (λ acc c, u64 (acc + c i)) a l = u64 (a + total i l)) as Hen by (by apply Hen).
  induction l as [|c l IH]; intros a Ha; cbn.
  - by rewrite Z.add_0_r, wrap_small.
  - rewrite IH by (by apply wrap_range). unfold wrap. rewrite Zplus_mod_idemp_l. by rewrite Z.add_assoc.
Qed.

Lemma total_add i j cpu v l :
  (cpu < length l)%nat →
  u64 (total i (this_cpu_add cpu j v l)) = u64 (total i l + if decide (i = j) then v else 0).
Proof.
  revert cpu. induction l as [|c l IH]; intros [|cpu] Hc; cbn in Hc |- *; [lia..| |].
  - unfold set_count. case_decide as Hij; [subst|f_equal; lia].
    unfold wrap. rewrite Zplus_mod_idemp_l. f_equal. lia.
  - specialize (IH cpu ltac:(lia)). unfold wrap in *.
    change (alter _ cpu l) with (this_cpu_add cpu j v l).
    rewrite <- Zplus_mod_idemp_r, IH, Zplus_mod_idemp_r.
    f_equal. case_decide; lia.
Qed.

Lemma get_stats_lookup ix percpu c i :
  i ∈ ix → get_stats ix percpu c i = sum_cpus i percpu.
Proof.
  induction ix as [|j ix IH] using rev_ind; [by intros ?%elem_of_nil|].
  unfold get_stats in *. rewrite foldl_app. cbn. unfold set_count at 1.
  intros Hi. case_decide as Hij; [by subst|]. apply IH. set_solver.
Qed.

Lemma clear_lookup ix c i : i ∈ ix → clear ix c i = 0.
Proof.
  induction ix as [|j ix IH] using rev_ind; [by intros ?%elem_of_nil|].
  unfold clear in *. rewrite foldl_app. cbn. unfold set_count at 1.
  intros Hi. case_decide as Hij; [done|]. apply IH. set_solver.
Qed.

Lemma total_clear ix l i : i ∈ ix → total i (clear ix <$> l) = 0.
Proof. intros Hi. induction l as [|c l IH]; cbn; [done|]. by rewrite clear_lookup, IH. Qed.
End sums.

Lemma timing_categories_all i : i ∈ timing_categories.
Proof. unfold timing_categories, Timingstring. cbn. destruct i; repeat constructor. Qed.

Lemma run_events_totals mt es c i :
  let n := length (Countstats_percpu c) in
  length (Timingstats_percpu c) = n → Forall (λ e, (ev_cpu e < n)%nat) es →
  let c' := run_events mt es c in
  u64 (total i (Countstats_percpu c')) =
    u64 (total i (Countstats_percpu c) + Z.of_nat (length (events_of i es))) ∧
  u64 (total i (Timingstats_percpu c')) =
    u64 (total i (Timingstats_percpu c) + if mt then sum_elapsed (events_of i es) else 0).
Proof.
  revert c. induction es as [|e es IH]; intros c n Hn He c'.
  { cbn. rewrite !Z.add_0_r. split; [done|]. by destruct mt; rewrite Z.add_0_r. }
  apply Forall_cons in He as [He Hes]. subst c'. cbn [run_events].
  set (c1 := NOVA_END_TIMING _ _ _ _ c).
  assert (length (Countstats_percpu c1) = n) as Hn1 by (cbn; apply length_alter).
  assert (length (Timingstats_percpu c1) = n) as Ht1.
  { cbn. destruct mt; [|done]. unfold this_cpu_add. by rewrite length_alter. }
  destruct (IH c1) as [-> ->]; [by rewrite Hn1|by rewrite Hn1|].
  pose proof (total_add i (ev_name e) (ev_cpu e) 1 (Countstats_percpu c) He) as H1.
  pose proof (total_add i (ev_name e) (ev_cpu e) (ev_elapsed e) (Timingstats_percpu c)) as H2.
  rewrite Hn in H2. specialize (H2 He). unfold wrap in *.
  assert (events_of i (e :: es) =
    (if decide (i = ev_name e) then [e] else []) ++ events_of i es) as ->.
  { unfold events_of. rewrite filter_cons. by repeat case_decide; subst. }
  split.
  - rewrite <- Zplus_mod_idemp_l. cbn [Countstats_percpu c1 NOVA_END_TIMING]. rewrite H1.
    rewrite Zplus_mod_idemp_l. f_equal. rewrite length_app. case_decide; cbn; lia.
  - cbn [Timingstats_percpu c1 NOVA_END_TIMING]. destruct mt; [|done].
    rewrite <- Zplus_mod_idemp_l, H2, Zplus_mod_idemp_l. f_equal.
    case_decide; cbn [app sum_elapsed foldr]; fold (sum_elapsed (events_of i es)); lia.
Qed.

(** The counters count.  After they have been cleared, whatever operations
    end on whatever CPUs, the sums [nova_get_timing_stats] computes are, for
    every category, the number of operations of that category and, when timing
    is measured, the time they took, modulo 2^64. *)
Theorem timing_stats_count mt es c i :
  let n := length (Countstats_percpu c) in
  length (Timingstats_percpu c) = n → Forall (λ e, (ev_cpu e < n)%nat) es →
  let c' := nova_get_timing_stats (run_events mt es (nova_clear_stats c)) in
  Countstats c' i = u64 (Z.of_nat (length (events_of i es))) ∧
  Timingstats c' i = u64 (if mt then sum_elapsed (events_of i es) else 0).
Proof.
  intros n Hn He c'. cbn [c' Countstats Timingstats nova_get_timing_stats].
  rewrite !get_stats_lookup, !sum_cpus_total by apply timing_categories_all.
  destruct (run_events_totals mt es (nova_clear_stats c) i) as [-> ->].
  - cbn. by rewrite !length_fmap.
  - cbn. by rewrite length_fmap.
  - cbn. by rewrite !total_clear by apply timing_categories_all.
Qed.

Definition two_cpus : counters :=
  let z := λ _, 0 in Counters (λ _, 5) [z; z] (λ _, 5) [λ _, 7; z] (λ _, 0) [λ _, 0; λ _, 0].

Lemma timing_stats_count_witness :
  let es := [Event 0 lookup_t 3; Event 1 create_t 4; Event 1 lookup_t 5] in
  let c := nova_get_timing_stats (run_events true es (nova_clear_stats two_cpus)) in
  Countstats c lookup_t = 2 ∧ Timingstats c lookup_t = 8.
Proof.
  intros es c.
  destruct (timing_stats_count true es two_cpus lookup_t) as [H1 H2].
  - reflexivity.
  - repeat constructor.
  - split; [exact H1|exact H2].
Defined.
