(* ===== verification/Readdir.v ===== *)
(** * Reading a directory (dir.c)

    [nova_readdir] walks the log of a directory and hands its live entries to
    the kernel's [dir_emit], one entry late: an entry is emitted when the next
    live one has been found, or at the end of the log. *)
From S2P Require Import Prelude Nvmm RangeTree Layout World Balloc Log FileTree Inode.
From S2P Require Import Journal InodeMap Dir.

(** One call of [dir_emit]: name, inode number and type. *)
Record emitted := Emitted { em_name : list Z; em_ino : Z; em_type : Z }.

(** The kernel's [dir_emit]: whether the entry still fits behind those already
    in the user's buffer. *)
Class DirEmit := { dir_emit_ok : list emitted → emitted → bool }.

(** [struct dir_context], with what has been emitted. *)
Record dir_context := DirContext { ctx_pos : Z; ctx_out : list emitted }.

Definition IF2DT (sif : Z) : Z := Z.shiftr (Z.land sif S_IFMT) 12.

(** The offset of the first entry whose hash is at least [pos], 0 if none. *)
Definition nova_find_next_dentry_addr (h pos : Z) : M Z :=
  sih ← get_sih h;
  mret (match tree_gang 1 pos (tree sih) with
        | [(_, entry)] => entry
        | _ => 0
        end).

(** The variables of the loop; [rd_prev] is [prev_entry] with
    [prev_child_pi]. *)
Record readdir_state := ReaddirState {
  rd_ctx : dir_context;
  rd_pos : Z;
  rd_prev : option (Z * Z);
  rd_ino : Z
}.

(** What a pass of the loop ends in: the next position, or a return. *)
Inductive readdir_step := RdNext (curr_p : Z) (s : readdir_state)
                        | RdReturn (ret : Z) (ctx : dir_context).

Section readdir.
Context `{RbTree} `{Env} `{DirEmit}.

(** [dir_emit] of the previous entry with inode number [ino]; [None] when it
    did not fit. *)
Definition emit_prev (prev : option (Z * Z)) (ino : Z) (ctx : dir_context)
  : M (option dir_context) :=
  match prev with
  | None => mret (Some ctx)
  | Some (prev_entry, prev_child_pi) =>
      name ← dentry_name prev_entry;
      mode ← load 2 (prev_child_pi + nova_inode.i_mode);
      let e := Emitted name ino (IF2DT mode) in
      mret (if dir_emit_ok (ctx_out ctx) e
            then Some (DirContext (ctx_pos ctx) (ctx_out ctx ++ [e]))
            else None)
  end.

(** The case [DIR_LOG] of the loop. *)
Definition readdir_entry (entry curr_p : Z) (s : readdir_state) : M readdir_step :=
  de_len ← load 2 (entry + nova_dentry.de_len);
  e_ino ← load 8 (entry + nova_dentry.ino);
  invalid ← load 1 (entry + nova_dentry.invalid);
  let next := u64 (curr_p + de_len) in
  if decide (e_ino > 0 ∧ invalid = 0) then
    name ← dentry_name entry;
    let pos := BKDRHash name in
    a ← nova_get_inode_address e_ino false;
    match a with
    | inl ret => mret (RdReturn ret (DirContext READDIR_END (ctx_out (rd_ctx s))))
    | inr pi_addr =>
      child_pi ← block_ptr pi_addr;
      r ← emit_prev (rd_prev s) e_ino (rd_ctx s);
      match r with
      | None => mret (RdReturn 0 (rd_ctx s))
      | Some ctx =>
          mret (RdNext next (ReaddirState (DirContext pos (ctx_out ctx)) pos
                               (Some (entry, child_pi)) e_ino))
      end
    end
  else
    mret (RdNext next (ReaddirState (DirContext (rd_pos s) (ctx_out (rd_ctx s)))
                         (rd_pos s) (rd_prev s) (rd_ino s))).

(** The loop and what follows it. *)
Fixpoint readdir_loop (fuel : nat) (pidir curr_p : Z) (s : readdir_state)
  : M (Z * dir_context) :=
  match fuel with
  | O => stop HFuel
  | S fuel =>
    log_tail ← load 8 (pidir + nova_inode.log_tail);
    if decide (curr_p = log_tail) then
      r ← emit_prev (rd_prev s) (rd_ino s) (rd_ctx s);
      mret (match r with
            | None => (0, rd_ctx s)
            | Some ctx => (0, DirContext READDIR_END (ctx_out ctx))
            end)
    else
      go ← goto_next_page curr_p;
      curr_p ← (if (go : bool) then next_log_page curr_p else mret curr_p);
      if decide (curr_p = 0) then stop HBug else
      type ← nova_get_entry_type (nova_get_block curr_p);
      if decide (type = SET_ATTR) then
        readdir_loop fuel pidir (u64 (curr_p + nova_setattr_logentry.sizeof)) s
      else if decide (type = LINK_CHANGE) then
        readdir_loop fuel pidir (u64 (curr_p + nova_link_change_entry.sizeof)) s
      else if decide (type = DIR_LOG) then
        entry ← block_ptr curr_p;
        st ← readdir_entry entry curr_p s;
        match st with
        | RdReturn ret ctx => mret (ret, ctx)
        | RdNext next s => readdir_loop fuel pidir next s
        end
      else stop HBug
  end.

(** Every entry has at least one byte, so a log without a cycle is read in
    one pass per byte at most. *)
Definition nova_readdir (h : Z) (ctx : dir_context) : M (Z * dir_context) :=
  p ← nova_get_inode h; pidir ← deref p;
  log_head ← load 8 (pidir + nova_inode.log_head);
  if decide (log_head = 0) then stop HBug else
  s ← get_sbi;
  let fuel := S (Z.to_nat (num_blocks s * 4096)) in
  let pos := ctx_pos ctx in
  if decide (pos = 0) then
    readdir_loop fuel pidir log_head (ReaddirState ctx pos None 0)
  else if decide (pos = READDIR_END) then mret (0, ctx)
  else
    curr_p ← nova_find_next_dentry_addr h pos;
    if decide (curr_p = 0) then mret (0, ctx)
    else readdir_loop fuel pidir curr_p (ReaddirState ctx pos None 0).
End readdir.
