(* ===== verification/Ioctl.v ===== *)
(** * ioctl and small file operations (ioctl.c, dax.c, inode.c)

    Reading and setting the flags and the version of an inode; the size check
    of a write fault; the block count of [stat]. *)
From S2P Require Import Prelude Nvmm RangeTree Layout World Balloc Log FileTree Inode.
From S2P Require Import Journal InodeMap Dir Rebuild InodeCycle Dax File Namei Stats.

(** The commands; [FS_IOC_*] and [FS_IOC32_*] are the kernel's. *)
Definition FS_IOC_GETFLAGS : Z := 0x80086601.
Definition FS_IOC_SETFLAGS : Z := 0x40086602.
Definition FS_IOC_GETVERSION : Z := 0x80087601.
Definition FS_IOC_SETVERSION : Z := 0x40087602.
Definition FS_IOC32_GETFLAGS : Z := 0x80046601.
Definition FS_IOC32_SETFLAGS : Z := 0x40046602.
Definition FS_IOC32_GETVERSION : Z := 0x80047601.
Definition FS_IOC32_SETVERSION : Z := 0x40047602.
Definition NOVA_PRINT_TIMING : Z := 0xBCD00010.
Definition NOVA_CLEAR_STATS : Z := 0xBCD00011.
Definition NOVA_PRINT_LOG : Z := 0xBCD00013.
Definition NOVA_PRINT_LOG_PAGES : Z := 0xBCD00015.
Definition NOVA_PRINT_FREE_LISTS : Z := 0xBCD00018.
Definition ENOIOCTLCMD : Z := 515.

Definition FS_FL_USER_VISIBLE : Z := 0x3DFFF.
Definition FS_FL_USER_MODIFIABLE : Z := 0x380FF.
Definition NOVA_FL_USER_VISIBLE : Z := Z.lor FS_FL_USER_VISIBLE NOVA_EOFBLOCKS_FL.

(** What the kernel says of the caller: write access to the mount, ownership,
    the capability for the immutable flag, and the transfer of one integer
    from ([get_user]) or to ([put_user]) the user. *)
Class Caller := {
  mnt_want_write_file : N → Z;
  inode_owner_or_capable : N → vfs_inode → bool;
  capable_linux_immutable : N → bool;
  get_user : N → option Z;
  put_user : N → bool
}.

Section ioctl.
Context `{RbTree} `{Env} `{Vfs} `{Uaccess} `{Caller}.

(** [put_user]: the result and what arrives in user space. *)
Definition put_to_user (v : Z) : M (Z * option Z) :=
  ok ← ask put_user;
  mret (if (ok : bool) then (0, Some v) else (- EFAULT, None)).

(** The end of both setters: the change goes into the log. *)
Definition commit_link_change (pi h : Z) : M Z :=
  r ← nova_append_link_change_entry pi h 0;
  match r with
  | (ret, new_tail) =>
    (if decide (ret = 0) then nova_update_tail pi (default 0 new_tail) else mret ()) ;;
    mret ret
  end.

Definition ioctl_setflags (pi h : Z) : M Z :=
  ret ← ask mnt_want_write_file;
  if decide (ret ≠ 0) then mret ret else
  v ← get_vfs h;
  owner ← ask (λ t, inode_owner_or_capable t v);
  if negb owner then mret (- EPERM) else
  flags ← ask get_user;
  match flags with
  | None => mret (- EFAULT)
  | Some flags =>
    oldflags ← load 4 (pi + nova_inode.i_flags);
    capable ← (if decide (Z.land (Z.lxor flags oldflags)
                            (bits [FS_APPEND_FL; FS_IMMUTABLE_FL]) ≠ 0)
               then ask capable_linux_immutable else mret true);
    if negb capable then mret (- EPERM) else
    let flags := if S_ISDIR (v_mode v) then flags
                 else Z.land flags (Z.lnot FS_DIRSYNC_FL) in
    let flags := Z.lor (Z.land flags FS_FL_USER_MODIFIABLE)
                   (Z.land oldflags (Z.lnot FS_FL_USER_MODIFIABLE)) in
    t ← get_time;
    set_ctime h t ;;
    nova_set_inode_flags h pi flags ;;
    commit_link_change pi h
  end.

Definition ioctl_setversion (pi h : Z) : M Z :=
  v ← get_vfs h;
  owner ← ask (λ t, inode_owner_or_capable t v);
  if negb owner then mret (- EPERM) else
  ret ← ask mnt_want_write_file;
  if decide (ret ≠ 0) then mret ret else
  generation ← ask get_user;
  match generation with
  | None => mret (- EFAULT)
  | Some generation =>
    t ← get_time;
    set_ctime h t ;;
    update_vfs h (λ v, vfs_set_ids (v_mode v) (v_uid v) (v_gid v) generation v) ;;
    commit_link_change pi h
  end.

(** What is printed is dropped; [nova_print_timing_stats] and
    [nova_clear_stats] work on the counters, which are not part of the state of
    the file system. *)
Definition nova_ioctl (h cmd : Z) : M (Z * option Z) :=
  p ← nova_get_inode h;
  match p with
  | None => mret (- EACCES, None)
  | Some pi =>
    if decide (cmd = FS_IOC_GETFLAGS) then
      flags ← load 4 (pi + nova_inode.i_flags);
      put_to_user (Z.land flags NOVA_FL_USER_VISIBLE)
    else if decide (cmd = FS_IOC_SETFLAGS) then
      ret ← ioctl_setflags pi h; mret (ret, None)
    else if decide (cmd = FS_IOC_GETVERSION) then
      v ← get_vfs h; put_to_user (v_generation v)
    else if decide (cmd = FS_IOC_SETVERSION) then
      ret ← ioctl_setversion pi h; mret (ret, None)
    else if decide (cmd = NOVA_PRINT_LOG) then
      _ ← nova_print_inode_log h; mret (0, None)
    else if decide (cmd = NOVA_PRINT_LOG_PAGES) then
      _ ← nova_print_inode_log_pages h; mret (0, None)
    else if decide (cmd ∈ [NOVA_PRINT_TIMING; NOVA_CLEAR_STATS; NOVA_PRINT_FREE_LISTS])
    then mret (0, None)
    else mret (- ENOTTY, None)
  end.

Definition nova_compat_ioctl (h cmd : Z) : M (Z * option Z) :=
  if decide (cmd = FS_IOC32_GETFLAGS) then nova_ioctl h FS_IOC_GETFLAGS
  else if decide (cmd = FS_IOC32_SETFLAGS) then nova_ioctl h FS_IOC_SETFLAGS
  else if decide (cmd = FS_IOC32_GETVERSION) then nova_ioctl h FS_IOC_GETVERSION
  else if decide (cmd = FS_IOC32_SETVERSION) then nova_ioctl h FS_IOC_SETVERSION
  else mret (- ENOIOCTLCMD, None).
End ioctl.

(** [nova_getattr]: [stat->blocks] in units of 512 bytes. *)
Definition nova_getattr (h : Z) : M Z :=
  v ← get_vfs h; mret (Z.shiftr (u64 (Z.shiftl (v_blocks v) PAGE_SHIFT)) 9).

(** dax.c: a write to a mapped page behind the end of the file; [mkwrite] is
    the kernel's [dax_pfn_mkwrite]. *)
Definition VM_FAULT_SIGBUS : Z := 2.
Definition nova_dax_pfn_mkwrite (mkwrite : M Z) (h pgoff : Z) : M Z :=
  v ← get_vfs h;
  let size := Z.shiftr (v_size v + PAGE_SIZE - 1) PAGE_SHIFT in
  if decide (size ≤ pgoff) then mret VM_FAULT_SIGBUS else mkwrite.

(** dax.c, inode.c, symlink.c: the operations that hand a function of this
    file system to the kernel.  [dax_fault], [dax_pmd_fault] and [dax_do_io]
    map blocks with the function they get; [readlink_copy] copies the string
    at an address to the user. *)
Section handed_over.
Context `{RbTree} `{Env} `{Uaccess}.
Definition get_block_t : Type := Z → buffer_head → bool → M (Z * buffer_head).

Definition nova_dax_fault (dax_fault : get_block_t → M Z) (h : Z) : M Z :=
  dax_fault (nova_dax_get_block h).
Definition nova_dax_pmd_fault (dax_pmd_fault : get_block_t → M Z) (h : Z) : M Z :=
  dax_pmd_fault (nova_dax_get_block h).
Definition nova_direct_IO (dax_do_io : get_block_t → M Z) (h : Z) : M Z :=
  dax_do_io (nova_dax_get_block h).
Definition nova_readlink (readlink_copy : Z → M Z) (h : Z) : M Z :=
  link ← nova_get_link h;
  readlink_copy link.
End handed_over.
