(* ===== verification/Wprotect.v ===== *)
(** * Write protection of the mapped device (wprotect.c, wprotect.h)

    With the mount option [wprotect] the device is mapped read-only, and the
    code clears the WP bit of CR0, with interrupts off, around its stores.
    The saved interrupt flag is one static variable. *)
From S2P Require Import Prelude Nvmm RangeTree Layout World.

(** The registers of the processor that matter, and the static variable
    [flags] of [nova_writeable]. *)
Record cpu_state := CpuState {
  cr0_wp : bool;
  irqs_on : bool;
  saved_flags : bool
}.

Definition wprotect_disable (c : cpu_state) : cpu_state :=
  CpuState false (irqs_on c) (saved_flags c).
Definition wprotect_enable (c : cpu_state) : cpu_state :=
  CpuState true (irqs_on c) (saved_flags c).
Definition local_irq_save (c : cpu_state) : cpu_state :=
  CpuState (cr0_wp c) false (irqs_on c).
Definition local_irq_restore (c : cpu_state) : cpu_state :=
  CpuState (cr0_wp c) (saved_flags c) (saved_flags c).

Definition nova_writeable (rw : bool) (c : cpu_state) : cpu_state :=
  if rw then wprotect_disable (local_irq_save c)
  else local_irq_restore (wprotect_enable c).

Definition nova_is_protected (s : nova_sb_info) : bool :=
  bool_decide (Z.land (s_mount_opt (mnt s)) NOVA_MOUNT_PROTECT ≠ 0).

Definition nova_dax_mem_protect (s : nova_sb_info) (rw : bool) (c : cpu_state)
  : cpu_state :=
  if nova_is_protected s then nova_writeable rw c else c.

(** [nova_memunlock_range], [nova_memunlock_inode] and [nova_memunlock_block]
    differ in the length they pass, which is not used; so do the
    [nova_memlock_*] functions. *)
Definition nova_memunlock_range (s : nova_sb_info) (c : cpu_state) : cpu_state :=
  if nova_is_protected s then nova_writeable true c else c.
Definition nova_memlock_range (s : nova_sb_info) (c : cpu_state) : cpu_state :=
  if nova_is_protected s then nova_writeable false c else c.

(** Write protection around stores.  On a protected mount an unlock and
    its lock leave a processor that was protected, with interrupts as they
    were before, and stores in between are allowed; without the mount option
    nothing happens.  An unlock nested in another one loses the interrupt
    flag: after the two locks the interrupts stay off. *)
Theorem memlock_cycle s c :
  cr0_wp c = true →
  (let u := nova_memunlock_range s c in
   nova_is_protected s = true → cr0_wp u = false ∧ irqs_on u = false) ∧
  (let l := nova_memlock_range s (nova_memunlock_range s c) in
   cr0_wp l = true ∧ irqs_on l = irqs_on c) ∧
  (nova_is_protected s = true →
   irqs_on (nova_memlock_range s (nova_memlock_range s
     (nova_memunlock_range s (nova_memunlock_range s c)))) = false).
Proof.
  intros Hc. unfold nova_memunlock_range, nova_memlock_range.
  destruct (nova_is_protected s), c; cbn in *; naive_solver.
Qed.

Lemma memlock_cycle_witness :
  let s := SbInfo 100 409600 0 3 1 0 100 [] [] zero_free_list
             (MountInfo NOVA_MOUNT_PROTECT 0 0 0 0 0) in
  let c := CpuState true true true in
  irqs_on (nova_memlock_range s (nova_memunlock_range s c)) = true ∧
  irqs_on (nova_memlock_range s (nova_memlock_range s
     (nova_memunlock_range s (nova_memunlock_range s c)))) = false.
Proof.
  intros s c. destruct (memlock_cycle s c) as (_&[_ H2]&H3); [done|].
  split; [exact H2|by apply H3].
Defined.
