(* ===== verification/Bbuild.v ===== *)
(** * Saving and restoring the allocator, scanning after a failure (bbuild.c)

    At a clean unmount the in-use inode numbers and the free ranges of blocks
    are written to the logs of two reserved inodes, and read back at the next
    mount.  Without them the mount scans all inodes: it marks the blocks in
    use in bitmaps, and rebuilds the free lists from their complement. *)
From S2P Require Import Prelude Nvmm RangeTree Layout World Balloc Log FileTree Inode.
From S2P Require Import Journal InodeMap.

Definition set_num_blocks (n : Z) (s : nova_sb_info) : nova_sb_info :=
  SbInfo n (initsize s) (s_inodes_used_count s) (reserved_blocks s) (cpus s) (map_id s)
    (per_list_blocks s) (inode_maps s) (free_lists s) (shared_free_list s) (mnt s).

(** The list of a block; [None] for a division by zero. *)
Definition get_cpuid (s : nova_sb_info) (blocknr : Z) : option Z :=
  if decide (per_list_blocks s = 0) then None else
  let cpuid := s32 (blocknr / per_list_blocks s) in
  Some (if decide (cpus s ≤ cpuid) then SHARED_CPU else cpuid).

(** [struct nova_range_node_lowhigh] *)
Module lowhigh.
Definition range_low : Z := 0.
Definition range_high : Z := 8.
End lowhigh.
Definition CPUID_MASK : Z := 0xff00000000000000.

Section bbuild.
Context `{RbTree} `{Env}.

(** ** Emptying trees *)
Fixpoint destroy_loop (fuel : nat) (tree : rb_tree) (temp : option nova_range_node)
  : M rb_tree :=
  match temp with
  | None => mret tree
  | Some curr =>
    match fuel with
    | O => stop HFuel
    | S fuel =>
        let temp := rb_next tree (node_addr curr) in
        let tree := rb_erase (node_addr curr) tree in
        nova_free_range_node (node_addr curr) ;;
        destroy_loop fuel tree temp
    end
  end.

(** Each pass erases a node. *)
Definition nova_destroy_range_node_tree (tree : rb_tree) : M rb_tree :=
  destroy_loop (length (inorder tree)) tree (rb_first tree).

Definition nova_destroy_blocknode_tree (cpu : Z) : M () :=
  s ← get_sbi;
  let f := nova_get_free_list s cpu in
  t ← nova_destroy_range_node_tree (block_free_tree f);
  update_free_list cpu (set_tree t f).

Definition nova_destroy_blocknode_trees : M () :=
  s ← get_sbi;
  forM (seqZ 0 (cpus s)) nova_destroy_blocknode_tree ;;
  nova_destroy_blocknode_tree SHARED_CPU.

Definition nova_destroy_inode_trees : M () :=
  s ← get_sbi;
  forM (seqZ 0 (cpus s)) (λ i,
    m ← get_imap i;
    t ← nova_destroy_range_node_tree (inode_inuse_tree m);
    update_imap i (imap_set_tree t m)).

(** ** Saving at unmount *)

(** The position of the entry; nothing is written when the log ends. *)
Definition nova_append_range_node_entry (curr : nova_range_node) (tail cpuid : Z) : M Z :=
  let size := sizeof_range_node_lowhigh in
  full ← (if decide (tail = 0) then mret true
          else if is_last_entry tail size then
            next ← next_log_page tail; mret (bool_decide (next = 0))
          else mret false);
  if (full : bool) then mret tail else
  curr_p ← (if is_last_entry tail size then next_log_page tail else mret tail);
  entry ← block_ptr curr_p;
  store 8 (entry + lowhigh.range_low) (range_low curr) ;;
  (if decide (cpuid ≠ 0) then
     low ← load 8 (entry + lowhigh.range_low);
     store 8 (entry + lowhigh.range_low) (Z.lor low (u64 (Z.shiftl cpuid 56)))
   else mret ()) ;;
  store 8 (entry + lowhigh.range_high) (range_high curr) ;;
  flush_buffer entry size false ;;
  mret curr_p.

(** Returns the emptied tree and the tail. *)
Fixpoint save_loop (fuel : nat) (tree : rb_tree) (temp : option nova_range_node)
    (temp_tail cpuid : Z) : M (rb_tree * Z) :=
  match temp with
  | None => mret (tree, temp_tail)
  | Some curr =>
    match fuel with
    | O => stop HFuel
    | S fuel =>
        curr_entry ← nova_append_range_node_entry curr temp_tail cpuid;
        let temp := rb_next tree (node_addr curr) in
        let tree := rb_erase (node_addr curr) tree in
        nova_free_range_node (node_addr curr) ;;
        save_loop fuel tree temp (u64 (curr_entry + sizeof_range_node_lowhigh)) cpuid
    end
  end.

Definition nova_save_range_nodes_to_log (tree : rb_tree) (temp_tail cpuid : Z)
  : M (rb_tree * Z) :=
  save_loop (length (inorder tree)) tree (rb_first tree) temp_tail cpuid.

Definition nova_save_free_list_blocknodes (cpu temp_tail : Z) : M Z :=
  s ← get_sbi;
  let f := nova_get_free_list s cpu in
  r ← nova_save_range_nodes_to_log (block_free_tree f) temp_tail 0;
  update_free_list cpu (set_tree r.1 f) ;;
  mret r.2.

(** A loop over [l] that carries the tail. *)
Fixpoint fold_tail (body : Z → Z → M Z) (l : list Z) (temp_tail : Z) : M Z :=
  match l with
  | [] => mret temp_tail
  | i :: l => temp_tail ← body i temp_tail; fold_tail body l temp_tail
  end.

(** The pages [num_nodes] entries need. *)
Definition range_pages (num_nodes : Z) : Z :=
  let n := num_nodes / RANGENODE_PER_PAGE in
  if decide (num_nodes mod RANGENODE_PER_PAGE ≠ 0) then n + 1 else n.

Definition nova_save_inode_list_to_log : M () :=
  pi ← deref (nova_get_inode_by_ino NOVA_INODELIST1_INO);
  s ← get_sbi;
  let num_nodes := foldl (λ n m, u64 (n + num_range_node_inode m)) 0 (inode_maps s) in
  let num_pages := range_pages num_nodes in
  r ← nova_allocate_inode_log_pages pi num_pages;
  match r with
  | (allocated, new_block) =>
    if decide (u64 allocated ≠ num_pages) then mret () else
    let new_block := default 0 new_block in
    store 8 (pi + nova_inode.log_head) new_block ;;
    flush_buffer (pi + nova_inode.log_head) CACHELINE_SIZE false ;;
    temp_tail ← fold_tail (λ i temp_tail,
        m ← get_imap i;
        r ← nova_save_range_nodes_to_log (inode_inuse_tree m) temp_tail i;
        update_imap i (imap_set_tree r.1 m) ;;
        mret r.2) (seqZ 0 (cpus s)) new_block;
    nova_update_tail pi temp_tail
  end.

(** The super block is at offset 0. *)
Definition nova_save_blocknode_mappings_to_log : M () :=
  pi ← deref (nova_get_inode_by_ino NOVA_BLOCKNODE_INO);
  s ← get_sbi;
  let num_blocknode := u64 (foldl (λ n i, u64 (n + num_blocknode (nova_get_free_list s i)))
                              0 (seqZ 0 (cpus s)) +
                            num_blocknode (nova_get_free_list s SHARED_CPU)) in
  let num_pages := range_pages num_blocknode in
  r ← nova_allocate_inode_log_pages pi num_pages;
  match r with
  | (allocated, new_block) =>
    if decide (u64 allocated ≠ num_pages) then mret () else
    t ← get_time;
    store 4 nova_super_block.s_wtime t ;;
    flush_buffer 0 NOVA_SB_SIZE false ;;
    let new_block := default 0 new_block in
    store 8 (pi + nova_inode.log_head) new_block ;;
    flush_buffer (pi + nova_inode.log_head) CACHELINE_SIZE false ;;
    temp_tail ← fold_tail nova_save_free_list_blocknodes (seqZ 0 (cpus s)) new_block;
    temp_tail ← nova_save_free_list_blocknodes SHARED_CPU temp_tail;
    nova_update_tail pi temp_tail
  end.

(** ** Restoring at mount *)

(** The start of a pass of both loops: where the next entry is. *)
Definition range_position (curr_p : Z) : M Z :=
  if is_last_entry curr_p sizeof_range_node_lowhigh then next_log_page curr_p
  else mret curr_p.

Fixpoint load_blocks_loop (fuel : nat) (pi curr_p : Z) : M Z :=
  match fuel with
  | O => stop HFuel
  | S fuel =>
    log_tail ← load 8 (pi + nova_inode.log_tail);
    if decide (curr_p = log_tail) then mret 0 else
    curr_p ← range_position curr_p;
    if decide (curr_p = 0) then mret (- EINVAL) else
    entry ← block_ptr curr_p;
    p ← nova_alloc_range_node;
    p ← deref p;
    low ← load 8 (entry + lowhigh.range_low);
    high ← load 8 (entry + lowhigh.range_high);
    s ← get_sbi;
    cpuid ← deref (get_cpuid s low);
    if decide (cpuid < 0) then stop HFault else
    let f := nova_get_free_list s cpuid in
    match nova_insert_range_node (block_free_tree f) (RangeNode p low high) with
    | (ret, t) =>
      if decide (ret ≠ 0) then
        nova_free_range_node p ;; nova_destroy_blocknode_trees ;; mret ret
      else
        let f := set_num_node (u64 (num_blocknode f + 1)) (set_tree t f) in
        let f := if decide (num_blocknode f = 1) then set_first (Some p) f else f in
        update_free_list cpuid
          (set_num_free (u64 (num_free_blocks f + (high - low + 1))) f) ;;
        load_blocks_loop fuel pi (u64 (curr_p + sizeof_range_node_lowhigh))
    end
  end.

(** Every entry has 16 bytes, so a log without a cycle is read in one pass
    per byte at most. *)
Definition nova_init_blockmap_from_inode : M Z :=
  pi ← deref (nova_get_inode_by_ino NOVA_BLOCKNODE_INO);
  curr_p ← load 8 (pi + nova_inode.log_head);
  if decide (curr_p = 0) then mret (- EINVAL) else
  s ← get_sbi;
  ret ← load_blocks_loop (S (Z.to_nat (num_blocks s * 4096))) pi curr_p;
  nova_free_inode_log pi ;;
  mret ret.

(** [ret] is uninitialised ([None]) before the first insertion; an entry with
    an invalid CPU ends the loop with the old value of [ret]. *)
Fixpoint load_inodes_loop (fuel : nat) (pi curr_p : Z) (ret : option Z) : M (option Z) :=
  match fuel with
  | O => stop HFuel
  | S fuel =>
    log_tail ← load 8 (pi + nova_inode.log_tail);
    if decide (curr_p = log_tail) then mret ret else
    curr_p ← range_position curr_p;
    entry ← block_ptr curr_p;
    p ← nova_alloc_range_node;
    p ← deref p;
    low ← load 8 (entry + lowhigh.range_low);
    high ← load 8 (entry + lowhigh.range_high);
    s ← get_sbi;
    let cpuid := Z.shiftr (Z.land low CPUID_MASK) 56 in
    if decide (cpus s ≤ cpuid) then
      nova_free_range_node p ;; nova_destroy_inode_trees ;; mret ret
    else
      let low := Z.land low (Z.lnot CPUID_MASK) in
      ret ← nova_insert_inodetree (RangeNode p low high) cpuid;
      if decide (ret ≠ 0) then
        nova_free_range_node p ;; nova_destroy_inode_trees ;; mret (Some ret)
      else
        add_used_count (high - low + 1) ;;
        m ← get_imap cpuid;
        let m := imap_set_num (u64 (num_range_node_inode m + 1)) m in
        update_imap cpuid (match first_inode_range m with
                           | None => imap_set_first (Some p) m
                           | Some _ => m
                           end) ;;
        load_inodes_loop fuel pi (u64 (curr_p + sizeof_range_node_lowhigh)) (Some ret)
  end.

Definition nova_init_inode_list_from_inode : M Z :=
  pi ← deref (nova_get_inode_by_ino NOVA_INODELIST1_INO);
  modify (λ w, set_sbi (set_used_count 0 (w_sbi w)) w) ;;
  curr_p ← load 8 (pi + nova_inode.log_head);
  if decide (curr_p = 0) then mret (- EINVAL) else
  s ← get_sbi;
  ret ← load_inodes_loop (S (Z.to_nat (num_blocks s * 4096))) pi curr_p None;
  nova_free_inode_log pi ;;
  deref ret.

Definition nova_can_skip_full_scan : M bool :=
  pi ← deref (nova_get_inode_by_ino NOVA_BLOCKNODE_INO);
  log_head ← load 8 (pi + nova_inode.log_head);
  log_tail ← load 8 (pi + nova_inode.log_tail);
  if decide (log_head = 0 ∨ log_tail = 0) then mret false else
  ret ← nova_init_blockmap_from_inode;
  if decide (ret ≠ 0) then mret false else
  ret ← nova_init_inode_list_from_inode;
  if decide (ret ≠ 0) then nova_destroy_blocknode_trees ;; mret false
  else mret true.
End bbuild.
