(* ===== verification/RangeLog.v ===== *)
(** * Logs of ranges (bbuild.c)

    At unmount the free ranges are written one behind the other into a chain
    of log pages, 254 entries of 16 bytes a page.  This file has the positions
    of the entries, the step from one to the next, and what writing the ranges
    of the free lists leaves in memory. *)
From S2P Require Import Prelude Nvmm RangeTree Layout World Balloc BallocList BallocProofs.
From S2P Require Import Log LogPages Journal InodeMap Bbuild.

(** ** Positions *)

(** Entry [i] of the log with pages [bs]; the tail when [i] entries are in. *)
Definition slot (bs : list Z) (i : nat) : Z :=
  default 0 (bs !! (i / 254)%nat) * 4096 + 16 * Z.of_nat (i mod 254).
Definition after (bs : list Z) (i : nat) : Z :=
  match i with O => slot bs 0 | S j => slot bs j + 16 end.

Lemma slot_0 b bs : slot (b :: bs) 0 = b * 4096.
Proof. change (slot (b :: bs) 0) with (b * 4096 + 0). lia. Qed.

(** Pages of the device. *)
Definition pages_ok (bs : list Z) : Prop :=
  NoDup bs ∧ ∀ b, b ∈ bs → 0 < b < 2 ^ 44.

Lemma slot_page bs i :
  pages_ok bs → (i < 254 * length bs)%nat →
  ∃ b, bs !! (i / 254)%nat = Some b ∧ 0 < b < 2 ^ 44 ∧
       slot bs i = b * 4096 + 16 * Z.of_nat (i mod 254) ∧ (i mod 254 < 254)%nat.
Proof.
  intros [_ Hbs] Hi. destruct (lookup_lt_is_Some_2 bs (i / 254)) as [b Hb].
  { apply Nat.Div0.div_lt_upper_bound; lia. }
  exists b. split; [done|]. split; [eapply Hbs, list_elem_of_lookup_2, Hb|].
  unfold slot. rewrite Hb. split; [done|]. apply Nat.mod_upper_bound. lia.
Qed.

Lemma slot_apart bs i j :
  pages_ok bs → (i < 254 * length bs)%nat → (j < 254 * length bs)%nat → i ≠ j →
  slot bs i + 16 ≤ slot bs j ∨ slot bs j + 16 ≤ slot bs i.
Proof.
  intros Hbs Hi Hj Hne.
  destruct (slot_page bs i Hbs Hi) as (b&Hb&_&->&?).
  destruct (slot_page bs j Hbs Hj) as (c&Hc&_&->&?).
  destruct (decide (b = c)) as [->|]; [|lia].
  assert (i / 254 = j / 254)%nat by (by eapply NoDup_lookup; [apply Hbs| |]).
  pose proof (Nat.div_mod_eq i 254). pose proof (Nat.div_mod_eq j 254).
  assert (i mod 254 ≠ j mod 254)%nat by lia. lia.
Qed.

Lemma page_offset b o : 0 ≤ o < 4096 → (b * 4096 + o) mod 4096 = o.
Proof. intros Ho. by rewrite (Z.add_comm (b * 4096)), Z.mod_add, Z.mod_small by lia. Qed.

Lemma is_last_entry_at b o :
  0 ≤ o ≤ 4064 → is_last_entry (b * 4096 + o) 16 = bool_decide (4048 < o).
Proof.
  intros Ho. unfold is_last_entry, LAST_ENTRY. rewrite ENTRY_LOC_mod.
  rewrite page_offset, wrap_small by lia.
  apply bool_decide_ext. lia.
Qed.

Lemma succ_div_mod i :
  (i mod 254 = 253 ∧ S i mod 254 = 0 ∧ S i / 254 = S (i / 254) ∨
   i mod 254 < 253 ∧ S i mod 254 = S (i mod 254) ∧ S i / 254 = i / 254)%nat.
Proof.
  pose proof (Nat.div_mod_eq i 254) as Hi.
  pose proof (Nat.mod_upper_bound i 254 ltac:(lia)) as Hm.
  destruct (decide (i mod 254 = 253)%nat).
  - left. split; [done|].
    destruct (Nat.div_mod_unique 254 (S (i / 254)) (S i / 254) 0 (S i mod 254)) as [Hq Hr];
      [lia|apply Nat.mod_upper_bound; lia| |done].
    pose proof (Nat.div_mod_eq (S i) 254). lia.
  - right. split; [lia|].
    destruct (Nat.div_mod_unique 254 (i / 254) (S i / 254) (S (i mod 254)) (S i mod 254))
      as [Hq Hr]; [lia|apply Nat.mod_upper_bound; lia| |done].
    pose proof (Nat.div_mod_eq (S i) 254). lia.
Qed.

(** The link of a page leads to the next one. *)
Lemma log_seg_link m p bs k b b' :
  log_seg m p 0 bs → bs !! k = Some b → bs !! S k = Some b' →
  ld 8 m (next_field (b * 4096)) = b' * 4096.
Proof.
  revert p k. induction bs as [|c bs IH]; intros p k; [done|].
  intros [-> Hs]. destruct k as [|k]; cbn [lookup list_lookup].
  - intros [= ->]. destruct bs as [|c' bs]; [done|]. intros [= ->]. apply Hs.
  - by eapply IH.
Qed.

(** Where entry [i] goes or comes from, given the tail before it. *)
Lemma after_step m p bs i :
  log_seg m p 0 bs → pages_ok bs → (i < 254 * length bs)%nat →
  0 < after bs i < 2 ^ 56 ∧ 0 < slot bs i < 2 ^ 56 ∧
  (is_last_entry (after bs i) 16 = false ∧ after bs i = slot bs i ∨
   is_last_entry (after bs i) 16 = true ∧
   ld 8 m (next_field (BLOCK_OFF (after bs i))) = slot bs i).
Proof.
  intros Hseg Hbs Hi. destruct (slot_page bs i Hbs Hi) as (b&Hb&Hb'&Hs&?).
  destruct i as [|i]; cbn [after].
  { rewrite Hs. cbn [Nat.modulo Nat.divmod Nat.sub Z.of_nat].
    split; [lia|]. split; [lia|]. left. split; [|done]. rewrite is_last_entry_at by lia. done. }
  destruct (slot_page bs i Hbs ltac:(lia)) as (c&Hc&Hc'&Hsi&?).
  split; [lia|]. split; [lia|]. rewrite Hsi.
  replace (c * 4096 + 16 * Z.of_nat (i mod 254) + 16)
    with (c * 4096 + (16 * Z.of_nat (i mod 254) + 16)) by lia.
  rewrite is_last_entry_at by lia.
  destruct (succ_div_mod i) as [(?&?&E)|(?&?&E)].
  - right. split; [apply bool_decide_eq_true; lia|]. rewrite E in Hb.
    rewrite BLOCK_OFF_mod, page_offset by lia.
    replace (c * 4096 + _ - _) with (c * 4096) by lia.
    rewrite (log_seg_link _ _ _ _ _ _ Hseg Hc Hb). lia.
  - left. rewrite E, Hc in Hb. injection Hb as ->.
    split; [apply bool_decide_eq_false; lia|]. lia.
Qed.

(** ** Contents *)
Definition rng (n : nova_range_node) : Z * Z := (range_low n, range_high n).

(** The entries from [i] on are the ranges [rs]. *)
Definition saved (m : mem) (bs : list Z) (i : nat) (rs : list (Z * Z)) : Prop :=
  ∀ k r, rs !! k = Some r →
    ld 8 m (slot bs (i + k)) = r.1 ∧ ld 8 m (slot bs (i + k) + 8) = r.2.
Definition in_slots (bs : list Z) (i n : nat) (x : Z) : Prop :=
  ∃ k, (i ≤ k < i + n)%nat ∧ slot bs k ≤ x < slot bs k + 16.

(** Writing the ranges [rs] to the entries from [i] on. *)
Record wrote (bs : list Z) (i : nat) (rs : list (Z * Z)) (m m' : mem) : Prop := {
  wr_saved : saved m' bs i rs;
  wr_same x : ¬ in_slots bs i (length rs) x → ld8 m' x = ld8 m x
}.

Lemma wrote_nil bs i m : wrote bs i [] m m.
Proof. split; [by intros k r ?|done]. Qed.

Lemma wrote_app bs i rs1 rs2 m m1 m2 :
  pages_ok bs → (i + length rs1 + length rs2 ≤ 254 * length bs)%nat →
  wrote bs i rs1 m m1 → wrote bs (i + length rs1) rs2 m1 m2 → wrote bs i (rs1 ++ rs2) m m2.
Proof.
  intros Hbs Hlen [Hs1 Hf1] [Hs2 Hf2]. split.
  - intros k r [Hk|[Hle Hk]]%lookup_app_Some.
    + pose proof (lookup_lt_Some _ _ _ Hk). rewrite <- (proj1 (Hs1 k r Hk)), <- (proj2 (Hs1 k r Hk)).
      split; apply ld_frame; intros x Hx; apply Hf2; intros (j&Hj&Hjx);
        destruct (slot_apart bs j (i + k) Hbs); lia.
    + replace (i + k)%nat with (i + length rs1 + (k - length rs1))%nat by lia. by apply Hs2.
  - intros x Hx. rewrite Hf2, Hf1; [done|..]; intros (j&Hj&Hjx); apply Hx; exists j;
      rewrite length_app; split; [lia|done|lia|done].
Qed.

Lemma slot_below_link bs k b x :
  pages_ok bs → (k < 254 * length bs)%nat → slot bs k ≤ x < slot bs k + 16 →
  ¬ next_field (b * 4096) ≤ x < next_field (b * 4096) + 8.
Proof.
  intros Hbs Hk. destruct (slot_page bs k Hbs Hk) as (c&_&_&->&?). rewrite next_field_eq. lia.
Qed.

Lemma wrote_log_seg bs i rs m m' p q cs :
  pages_ok bs → (i + length rs ≤ 254 * length bs)%nat → wrote bs i rs m m' →
  log_seg m p q cs → log_seg m' p q cs.
Proof.
  intros Hbs Hlen Hw. apply log_seg_frame. intros b Hb. apply ld_frame. intros x Hx.
  apply (wr_same _ _ _ _ _ Hw). intros (k&Hk&Hkx).
  eapply (slot_below_link bs k b x); [done|lia|done|lia].
Qed.

(** One entry at its slot. *)
Lemma wrote_entry bs i r m :
  pages_ok bs → (i < 254 * length bs)%nat → 0 ≤ r.1 < 2 ^ 64 → 0 ≤ r.2 < 2 ^ 64 →
  wrote bs i [r] m
    (st_bytes (st_bytes m (slot bs i) (le_split 8 r.1)) (slot bs i + 8) (le_split 8 r.2)).
Proof.
  intros Hbs Hi Hlo Hhi. split.
  - intros [|k] r' Hr; [|done]. injection Hr as <-. rewrite Nat.add_0_r. split.
    + rewrite ld_st_bytes_out, ld_st by (rewrite ?length_le_split; lia). by apply Z.mod_small.
    + rewrite ld_st. by apply Z.mod_small.
  - intros x Hx. assert (¬ slot bs i ≤ x < slot bs i + 16) as Hn.
    { intros ?. apply Hx. exists i. cbn. split; [lia|done]. }
    rewrite !ld8_st_bytes_out; [done|rewrite length_le_split; lia..].
Qed.

Section save.
Context `{RbTreeLaws} `{EnvLaws}.

Definition range_fits (n : nova_range_node) : Prop :=
  0 ≤ range_low n < 2 ^ 64 ∧ 0 ≤ range_high n < 2 ^ 64.

Lemma position_run w p bs i :
  log_seg (vis (w_nvmm w)) p 0 bs → pages_ok bs → (i < 254 * length bs)%nat →
  range_position (after bs i) w = Done (slot bs i, w).
Proof.
  intros Hseg Hbs Hi. destruct (after_step _ _ _ _ Hseg Hbs Hi) as (Ha&Hs&Hc).
  unfold range_position, sizeof_range_node_lowhigh.
  destruct Hc as [[-> ->]|[-> Hn]]; [done|]. unfold next_log_page.
  rewrite bind_block_ptr by done. unfold load, gets. by rewrite Hn.
Qed.

Lemma append_entry_run w p bs i n :
  log_seg (vis (w_nvmm w)) p 0 bs → pages_ok bs → (i < 254 * length bs)%nat →
  range_fits n →
  ∃ w', nova_append_range_node_entry n (after bs i) 0 w = Done (slot bs i, w') ∧
    only_nvmm w w' ∧ wrote bs i [rng n] (vis (w_nvmm w)) (vis (w_nvmm w')).
Proof.
  intros Hseg Hbs Hi [Hlo Hhi]. destruct (after_step _ _ _ _ Hseg Hbs Hi) as (Ha&Hs&Hc).
  unfold nova_append_range_node_entry. cbv zeta. rewrite decide_False by lia.
  change sizeof_range_node_lowhigh with 16.
  assert (∃ full, (if is_last_entry (after bs i) 16 then
      next ← next_log_page (after bs i); mret (bool_decide (next = 0))
      else mret false) w = Done (full, w) ∧ full = false) as (full&Hfull&->).
  { destruct Hc as [[-> _]|[-> Hn]]; [by exists false|]. eexists. split; [|done].
    unfold next_log_page. rewrite bind_assoc, bind_block_ptr by done. run. rewrite Hn.
    unfold mret, M_ret. do 2 f_equal. apply bool_decide_eq_false. lia. }
  rewrite (bind_run _ _ _ _ _ Hfull).
  pose proof (position_run w p bs i Hseg Hbs Hi) as Hpos. unfold range_position in Hpos.
  change sizeof_range_node_lowhigh with 16 in Hpos.
  rewrite (bind_run _ _ _ _ _ Hpos), bind_block_ptr by done. run.
  rewrite decide_False by tauto. run.
  eexists. split; [reflexivity|]. split; [done|]. cbn [w_nvmm set_nvmm]. rewrite vis_flush.
  unfold lowhigh.range_low, lowhigh.range_high. rewrite Z.add_0_r.
  by apply (wrote_entry bs i (rng n)).
Qed.

Lemma save_loop_run l : ∀ fuel tree w p bs i,
  inorder tree = l → NoDup (addrs l) → (length l ≤ fuel)%nat → Forall range_fits l →
  log_seg (vis (w_nvmm w)) p 0 bs → pages_ok bs → (i + length l ≤ 254 * length bs)%nat →
  ∃ t w', save_loop fuel tree (head l) (after bs i) 0 w
      = Done ((t, after bs (i + length l)), w') ∧
    inorder t = [] ∧ w_sbi w' = w_sbi w ∧ w_inodes w' = w_inodes w ∧
    wrote bs i (rng <$> l) (vis (w_nvmm w)) (vis (w_nvmm w')).
Proof.
  induction l as [|n l IH]; intros fuel tree w p bs i Ht Hnd Hfuel Hfit Hseg Hbs Hlen.
  { exists tree, w. rewrite Nat.add_0_r. split_and!; try done. by destruct fuel. }
  destruct fuel as [|fuel]; [cbn in Hfuel; lia|]. cbn [length] in *.
  apply Forall_cons in Hfit as [Hn Hfit]. cbn [head save_loop].
  destruct (append_entry_run w p bs i n Hseg Hbs ltac:(lia) Hn) as (w1&Hrun&(Hs&_&_&Hin)&Hw1).
  rewrite (bind_run _ _ _ _ _ Hrun). run.
  pose proof Hnd as Hnd'. rewrite <- Ht in Hnd'.
  rewrite (rb_next_spec tree [] n l Ht Hnd').
  pose proof (rb_erase_spec tree [] n l Ht Hnd') as Her. cbn in Her.
  change sizeof_range_node_lowhigh with 16.
  destruct (slot_page bs i Hbs ltac:(lia)) as (b&_&Hb&Hsl&?).
  rewrite (wrap_small 64) by lia. fold (after bs (S i)).
  set (w2 := set_live _ _). apply NoDup_cons in Hnd as [_ Hnd].
  destruct (IH fuel (rb_erase (node_addr n) tree) w2 p bs (S i) Her)
    as (t&w'&Hrun'&Hnil&Hs'&Hin'&Hw'); try done; try lia.
  { eapply (wrote_log_seg bs i [rng n]); try done. cbn. lia. }
  exists t, w'. replace (i + S (length l))%nat with (S i + length l)%nat by lia.
  split; [exact Hrun'|]. split; [done|].
  split; [by rewrite Hs'|]. split; [by rewrite Hin'|].
  replace (S i) with (i + length [rng n])%nat in Hw' by (cbn; lia).
  change (rng <$> n :: l) with ([rng n] ++ (rng <$> l)).
  eapply wrote_app; try done. rewrite length_fmap. cbn. lia.
Qed.

(** The ranges of a list, in order. *)
Definition list_ranges (s : nova_sb_info) (c : Z) : list (Z * Z) :=
  rng <$> nodes_of (nova_get_free_list s c).

(** What the loops over the lists need of a list. *)
Definition list_saveable (f : free_list) : Prop :=
  NoDup (addrs (nodes_of f)) ∧ Forall range_fits (nodes_of f).

Lemma save_list_run w p bs i c :
  list_saveable (nova_get_free_list (w_sbi w) c) →
  log_seg (vis (w_nvmm w)) p 0 bs → pages_ok bs →
  (i + length (list_ranges (w_sbi w) c) ≤ 254 * length bs)%nat →
  ∃ w' f, nova_save_free_list_blocknodes c (after bs i) w
      = Done (after bs (i + length (list_ranges (w_sbi w) c)), w') ∧
    w_sbi w' = put_free_list c f (w_sbi w) ∧ w_inodes w' = w_inodes w ∧
    wrote bs i (list_ranges (w_sbi w) c) (vis (w_nvmm w)) (vis (w_nvmm w')).
Proof.
  intros [Hnd Hfit] Hseg Hbs Hlen. unfold list_ranges in *. rewrite length_fmap in *.
  unfold nova_save_free_list_blocknodes, nova_save_range_nodes_to_log. run.
  rewrite rb_first_spec.
  destruct (save_loop_run _ (length (nodes_of (nova_get_free_list (w_sbi w) c)))
    (block_free_tree (nova_get_free_list (w_sbi w) c)) w p bs i eq_refl Hnd)
    as (t&w1&Hrun&_&Hs&Hin&Hw); try done.
  rewrite (bind_run _ _ _ _ _ Hrun). unfold update_free_list. run.
  eexists _, _. split; [reflexivity|]. cbn [w_sbi w_inodes set_sbi w_nvmm fst snd].
  rewrite Hs. split_and!; [done..|by apply Hw].
Qed.

Lemma save_lists_run cs : ∀ w p bs i,
  geometry_ok (w_sbi w) → (∀ c, c ∈ cs → 0 ≤ c) →
  (∀ c, c ∈ cs → list_saveable (nova_get_free_list (w_sbi w) c)) →
  NoDup cs → (∀ c, c ∈ cs → c < cpus (w_sbi w)) →
  log_seg (vis (w_nvmm w)) p 0 bs → pages_ok bs →
  (i + length (cs ≫= list_ranges (w_sbi w)) ≤ 254 * length bs)%nat →
  ∃ w', fold_tail nova_save_free_list_blocknodes cs (after bs i) w
      = Done (after bs (i + length (cs ≫= list_ranges (w_sbi w))), w') ∧
    (∀ c, 0 ≤ c → c ∉ cs → nova_get_free_list (w_sbi w') c = nova_get_free_list (w_sbi w) c) ∧
    same_geometry (w_sbi w) (w_sbi w') ∧ w_inodes w' = w_inodes w ∧
    wrote bs i (cs ≫= list_ranges (w_sbi w)) (vis (w_nvmm w)) (vis (w_nvmm w')).
Proof.
  induction cs as [|c cs IH]; intros w p bs i Hgeo Hcs Hok Hnd Hlt Hseg Hbs Hlen.
  { exists w. rewrite Nat.add_0_r. by split_and!. }
  apply NoDup_cons in Hnd as [Hc Hnd]. cbn [fold_tail]. rewrite bind_cons in *.
  rewrite length_app in *.
  destruct (save_list_run w p bs i c) as (w1&f&Hrun&Hs&Hin&Hw1); try done.
  { apply Hok. set_solver. }
  { lia. }
  rewrite (bind_run _ _ _ _ _ Hrun).
  assert (∀ c', 0 ≤ c' → c ≠ c' →
    nova_get_free_list (w_sbi w1) c' = nova_get_free_list (w_sbi w) c') as Hget.
  { intros c' Hc' Hne. rewrite Hs. pose proof (Hlt c ltac:(set_solver)).
    destruct (get_put _ Hgeo c f c') as [[[?|[??]] _]|[_ ->]]; try done; try lia.
    apply Hcs. set_solver. }
  assert (cs ≫= list_ranges (w_sbi w1) = cs ≫= list_ranges (w_sbi w)) as Hcsr.
  { apply list_bind_ext_in. intros c' Hc'. unfold list_ranges. rewrite Hget; [done| |].
    - apply Hcs. set_solver.
    - by intros ->. }
  destruct (put_geometry (w_sbi w) c f) as (Ec&Ep&En&Er). rewrite <- Hs in Ec, Ep, En, Er.
  destruct (IH w1 p bs (i + length (list_ranges (w_sbi w) c))%nat)
    as (w'&Hrun'&Hget'&(?&?&?&?)&Hin'&Hw'); try done.
  - rewrite Hs. by apply put_same_geometry.
  - intros c' Hc'. apply Hcs. set_solver.
  - intros c' Hc'. rewrite Hget; [apply Hok|apply Hcs|by intros ->]; set_solver.
  - intros c' Hc'. rewrite Ec. apply Hlt. set_solver.
  - eapply wrote_log_seg; try done. lia.
  - rewrite Hcsr. lia.
  - rewrite Hcsr in Hrun', Hw'. exists w'. rewrite Nat.add_assoc. split; [done|]. split_and!.
    + intros c' Hc' Hn. rewrite Hget', Hget; [done|done| |done|]; set_solver.
    + repeat split; congruence.
    + congruence.
    + eapply wrote_app; try done. lia.
Qed.
End save.
