(* ===== verification/Scan.v ===== *)
(** * Recovery after a failure (bbuild.c)

    Bitmaps of the blocks in use, one per CPU; the scan of the inode tables
    that fills them, with the in-use inode numbers; the free lists built from
    the complement of their union. *)
From S2P Require Import Prelude Nvmm RangeTree Layout World Balloc Log FileTree Inode.
From S2P Require Import Journal InodeMap Bbuild.

Definition PAGE_SHIFT_2M : Z := 21.
Definition PAGE_SHIFT_1G : Z := 30.
Definition MAX_PGOFF : Z := 262144.

(** ** Bitmaps

    [bitmap_size] is in bytes.  A bit outside the memory of the bitmap is an
    access outside an allocation. *)
Record single_scan_bm := ScanBm { bitmap_size : Z; bitmap : gset Z }.
Record scan_bitmap := ScanBitmap {
  scan_bm_4K : single_scan_bm;
  scan_bm_2M : single_scan_bm;
  scan_bm_1G : single_scan_bm
}.
Inductive bm_type := BM_4K | BM_2M | BM_1G.

Definition set_scan_bm (bit : Z) (b : single_scan_bm) : outcome single_scan_bm :=
  if decide (0 ≤ bit < bitmap_size b * 8)
  then Done (ScanBm (bitmap_size b) ({[bit]} ∪ bitmap b)) else Halt HFault.

Definition set_bm (bit : Z) (b : scan_bitmap) (type : bm_type) : outcome scan_bitmap :=
  match type with
  | BM_4K => x ← set_scan_bm bit (scan_bm_4K b);
             Done (ScanBitmap x (scan_bm_2M b) (scan_bm_1G b))
  | BM_2M => x ← set_scan_bm bit (scan_bm_2M b);
             Done (ScanBitmap (scan_bm_4K b) x (scan_bm_1G b))
  | BM_1G => x ← set_scan_bm bit (scan_bm_1G b);
             Done (ScanBitmap (scan_bm_4K b) (scan_bm_2M b) x)
  end.

Fixpoint set_bms (l : list Z) (b : scan_bitmap) : outcome scan_bitmap :=
  match l with
  | [] => Done b
  | bit :: l => b ← set_bm bit b BM_4K; set_bms l b
  end.

(** The kernel's [find_next_bit] ([want] true) and [find_next_zero_bit]: the
    first such bit in [offset, size), else [size]. *)
Fixpoint find_bit (n : nat) (want : bool) (b : gset Z) (offset : Z) : Z :=
  match n with
  | O => offset
  | S n => if decide (bool_decide (offset ∈ b) = want) then offset
           else find_bit n want b (offset + 1)
  end.

Definition find_next (want : bool) (b : single_scan_bm) (size offset : Z) : outcome Z :=
  if decide (size ≤ offset) then Done size
  else if decide (bitmap_size b * 8 < size) then Halt HFault
  else Done (find_bit (Z.to_nat (size - offset)) want (bitmap b) offset).

(** ** Free lists from a bitmap *)
Section build.
Context `{RbTree} `{Env}.

Definition nova_insert_blocknode_map (cpuid low high : Z) : M Z :=
  let num_blocks := u64 (high - low + 1) in
  p ← nova_alloc_range_node;
  match p with
  | None => mret (- ENOMEM)
  | Some p =>
    s ← get_sbi;
    let f := nova_get_free_list s cpuid in
    match nova_insert_range_node (block_free_tree f) (RangeNode p low high) with
    | (ret, t) =>
      if decide (ret ≠ 0) then nova_free_range_node p ;; mret ret
      else
        let f := set_tree t f in
        let f := match first_node f with None => set_first (Some p) f | Some _ => f end in
        let f := set_num_node (u64 (num_blocknode f + 1)) f in
        update_free_list cpuid (set_num_free (u64 (num_free_blocks f + num_blocks)) f) ;;
        mret ret
    end
  end.

(** The list after that of [cpuid]. *)
Definition next_list (s : nova_sb_info) (cpuid : Z) : Z :=
  if decide (cpuid = cpus s - 1) then SHARED_CPU else s32 (cpuid + 1).

(** The window of a list, as [start] and [end]. *)
Definition list_window (s : nova_sb_info) (cpuid : Z) : Z * Z :=
  let f := nova_get_free_list s cpuid in (block_start f, u64 (block_end f + 1)).

Fixpoint build_loop (fuel : nat) (b : single_scan_bm) (bsize scale cpuid start end_ : Z)
  : M () :=
  match fuel with
  | O => stop HFuel
  | S fuel =>
    next ← lift (find_next false b end_ start);
    if decide (next = bsize) then mret () else
    s ← get_sbi;
    let cpuid' := next_list s cpuid in
    let w' := list_window s cpuid' in
    if decide (next = end_) then build_loop fuel b bsize scale cpuid' w'.1 w'.2 else
    let low := next in
    next ← lift (find_next true b end_ next);
    _ ← nova_insert_blocknode_map cpuid (u64 (Z.shiftl low scale))
          (u64 (Z.shiftl next scale - 1));
    if decide (next = bsize) then mret () else
    if decide (next = end_) then build_loop fuel b bsize scale cpuid' w'.1 w'.2
    else build_loop fuel b bsize scale cpuid next end_
  end.

(** Every pass finds a range of free blocks or goes to the next list. *)
Definition __nova_build_blocknode_map (b : single_scan_bm) (bsize scale : Z) : M Z :=
  s ← get_sbi;
  let w := list_window s 0 in
  build_loop (S (Z.to_nat (bsize + cpus s + 1))) b bsize scale 0 w.1 w.2 ;;
  mret 0.

(** The 4K blocks of the set bits of a bitmap of larger blocks.  The loop
    variable is an [int]: it does not reach [2 ^ 31]. *)
Fixpoint update_4K_loop (fuel : nat) (b : single_scan_bm) (bm : scan_bitmap)
    (bsize scale next : Z) : outcome scan_bitmap :=
  match fuel with
  | O => Halt HFuel
  | S fuel =>
    next ← find_next true b bsize next;
    if decide (next = bsize) then Done bm else
    let low := next in
    next ← find_next false b bsize next;
    if decide (2 ^ 31 ≤ Z.shiftl next scale) then Halt HFault else
    bm ← set_bms (seqZ (Z.shiftl low scale) (Z.shiftl next scale - Z.shiftl low scale)) bm;
    if decide (next = bsize) then Done bm else update_4K_loop fuel b bm bsize scale next
  end.

Definition nova_update_4K_map (bm : scan_bitmap) (b : single_scan_bm) (bsize scale : Z)
  : outcome scan_bitmap :=
  update_4K_loop (S (Z.to_nat bsize)) b bm bsize scale 0.

(** One bitmap per CPU: 2M and 1G blocks as 4K blocks. *)
Fixpoint expand_bms (bms : list scan_bitmap) : outcome (list scan_bitmap) :=
  match bms with
  | [] => Done []
  | bm :: bms =>
      bm ← nova_update_4K_map bm (scan_bm_2M bm) (bitmap_size (scan_bm_2M bm) * 8)
             (PAGE_SHIFT_2M - 12);
      bm ← nova_update_4K_map bm (scan_bm_1G bm) (bitmap_size (scan_bm_1G bm) * 8)
             (PAGE_SHIFT_1G - 12);
      bms ← expand_bms bms;
      Done (bm :: bms)
  end.

(** [bms] are the bitmaps of the CPUs. *)
Definition nova_build_blocknode_map (bms : list scan_bitmap) (initsize : Z) : M Z :=
  ok ← try_kzalloc;
  if negb ok then mret (- ENOMEM) else
  let size := Z.shiftr initsize (PAGE_SHIFT + 3) in
  ok ← try_kzalloc;
  if negb ok then mret (- ENOMEM) else
  bms ← lift (expand_bms bms);
  let merged := ⋃ ((λ bm, bitmap (scan_bm_4K bm)) <$> bms) in
  let none := ScanBm 0 ∅ in
  s ← get_sbi;
  final_bm ← lift (set_bms (seqZ 0 (reserved_blocks s))
                     (ScanBitmap (ScanBm size merged) none none));
  __nova_build_blocknode_map (scan_bm_4K final_bm)
    (bitmap_size (scan_bm_4K final_bm) * 8) (PAGE_SHIFT - 12).
End build.

(** ** Logs *)

(** [struct task_ring]: [ring_addr] holds the [num] addresses of superpages of
    inodes, [array] the blocks of the file being scanned (absent: 0). *)
Record task_ring := TaskRing {
  ring_addr : list Z;
  ring_used : Z;
  ring_array : gmap Z Z
}.
Definition zero_ring : task_ring := TaskRing [] 0 ∅.

Definition mark_page (curr_p : Z) (bm : scan_bitmap) : M scan_bitmap :=
  if decide (Z.land curr_p (PAGE_SIZE - 1) ≠ 0) then stop HBug
  else lift (set_bm (Z.shiftr curr_p PAGE_SHIFT) bm BM_4K).

(** The pages behind the one at [curr_p]. *)
Fixpoint mark_pages (fuel : nat) (curr_p : Z) (bm : scan_bitmap) : M scan_bitmap :=
  match fuel with
  | O => stop HFuel
  | S fuel =>
    curr_page ← block_ptr curr_p;
    next ← load 8 (next_field curr_page);
    if decide (next = 0) then mret bm else
    bm ← mark_page next bm;
    mark_pages fuel next bm
  end.

Definition page_fuel (s : nova_sb_info) : nat := S (Z.to_nat (num_blocks s)).

Definition nova_traverse_dir_inode_log (pi : Z) (bm : scan_bitmap) : M scan_bitmap :=
  curr_p ← load 8 (pi + nova_inode.log_head);
  if decide (curr_p = 0) then stop HBug else
  bm ← mark_page curr_p bm;
  s ← get_sbi;
  mark_pages (page_fuel s) curr_p bm.

(** [ring->array[i] = v] *)
Definition ring_store (i v : Z) (array : gmap Z Z) : outcome (gmap Z Z) :=
  if decide (0 ≤ i < MAX_PGOFF)
  then Done (if decide (v = 0) then delete i array else <[i := v]> array)
  else Halt HFault.

Fixpoint ring_stores (l : list (Z * Z)) (array : gmap Z Z) : outcome (gmap Z Z) :=
  match l with
  | [] => Done array
  | (i, v) :: l => array ← ring_store i v array; ring_stores l array
  end.

(** The fields of a write entry: [block], [pgoff], [num_pages]. *)
Definition nova_set_ring_array (block pgoff num_pages base : Z) (array : gmap Z Z)
  : outcome (gmap Z Z) :=
  let start := if decide (pgoff < base) then base else pgoff in
  let end_ := u64 (pgoff + num_pages) in
  let end_ := if decide (end_ > base + MAX_PGOFF) then base + MAX_PGOFF else end_ in
  ring_stores ((λ p, (p - base, u64 (Z.shiftr block PAGE_SHIFT + p - pgoff))) <$>
                 seqZ start (end_ - start)) array.

Fixpoint file_bm_loop (n : nat) (pgoff : Z) (array : gmap Z Z) (bm : scan_bitmap)
  : outcome (gmap Z Z * scan_bitmap) :=
  match n with
  | O => Done (array, bm)
  | S n =>
    match array !! pgoff with
    | None => file_bm_loop n (pgoff + 1) array bm
    | Some nvmm => bm ← set_bm nvmm bm BM_4K;
                   file_bm_loop n (pgoff + 1) (delete pgoff array) bm
    end
  end.

Definition nova_set_file_bm (base last_blocknr : Z) (array : gmap Z Z) (bm : scan_bitmap)
  : outcome (gmap Z Z * scan_bitmap) :=
  let last := if decide (base + MAX_PGOFF ≤ last_blocknr) then MAX_PGOFF - 1
              else u64 (last_blocknr - base) in
  if decide (MAX_PGOFF ≤ last) then Halt HFault
  else file_bm_loop (Z.to_nat (last + 1)) 0 array bm.

(** [i_size] is [sih->i_size]; [entry_size] the size in the entry, which is
    the new [sih->i_size]. *)
Definition nova_ring_setattr_entry (i_size entry_size base data_bits : Z)
    (array : gmap Z Z) : outcome (gmap Z Z) :=
  if decide (i_size > entry_size) then
    let first_blocknr := Z.shiftr (u64 (entry_size + 2 ^ data_bits - 1)) data_bits in
    let last_blocknr := if decide (0 < s64 i_size)
                        then Z.shiftr (s64 i_size - 1) data_bits else 0 in
    if decide (first_blocknr > last_blocknr) then Done array else
    let first := if decide (first_blocknr < base) then base else first_blocknr in
    let last := if decide (last_blocknr > base + MAX_PGOFF - 1)
                then base + MAX_PGOFF - 1 else last_blocknr in
    ring_stores ((λ p, (p - base, 0)) <$> seqZ first (last - first + 1)) array
  else Done array.

(** The state of the scan of a file: [sih->i_size], the array, the bitmap. *)
Record file_scan := FileScan { fs_size : Z; fs_array : gmap Z Z; fs_bm : scan_bitmap }.

(** The loop over the entries, with [base]; an entry of unknown type is taken
    for a write entry. *)
Fixpoint traverse_loop (fuel : nat) (pi curr_p base data_bits : Z) (st : file_scan)
  : M (Z * file_scan) :=
  match fuel with
  | O => stop HFuel
  | S fuel =>
    log_tail ← load 8 (pi + nova_inode.log_tail);
    if decide (curr_p = log_tail) then mret (curr_p, st) else
    go ← goto_next_page curr_p;
    r ← (if (go : bool) then
           curr_p ← next_log_page curr_p;
           bm ← (if decide (base = 0) then mark_page curr_p (fs_bm st)
                 else mret (fs_bm st));
           mret (curr_p, bm)
         else mret (curr_p, fs_bm st));
    match r with
    | (curr_p, bm) =>
      if decide (curr_p = 0) then stop HBug else
      addr ← block_ptr curr_p;
      type ← load 1 addr;
      if decide (type = SET_ATTR) then
        size ← load 8 (addr + nova_setattr_logentry.size);
        array ← lift (nova_ring_setattr_entry (fs_size st) size base data_bits
                        (fs_array st));
        traverse_loop fuel pi (u64 (curr_p + nova_setattr_logentry.sizeof)) base data_bits
          (FileScan size array bm)
      else if decide (type = LINK_CHANGE) then
        traverse_loop fuel pi (u64 (curr_p + nova_link_change_entry.sizeof)) base
          data_bits (FileScan (fs_size st) (fs_array st) bm)
      else
        size ← load 8 (addr + nova_file_write_entry.size);
        num ← load 4 (addr + nova_file_write_entry.num_pages);
        invalid ← load 4 (addr + nova_file_write_entry.invalid_pages);
        pgoff ← load 8 (addr + nova_file_write_entry.pgoff);
        block ← load 8 (addr + nova_file_write_entry.block);
        array ← (if decide (num ≠ invalid ∧ pgoff < base + MAX_PGOFF ∧
                            u64 (pgoff + num) > base)
                 then lift (nova_set_ring_array block pgoff num base (fs_array st))
                 else mret (fs_array st));
        traverse_loop fuel pi (u64 (curr_p + nova_file_write_entry.sizeof)) base data_bits
          (FileScan size array bm)
    end
  end.

(** One pass from the label [again], for the pages of the file from [base]:
    whether to go on, with what it found. *)
Definition traverse_window (pi base data_bits : Z) (st : file_scan)
  : M (bool * file_scan) :=
  curr_p ← load 8 (pi + nova_inode.log_head);
  log_tail ← load 8 (pi + nova_inode.log_tail);
  if decide (curr_p = 0 ∧ log_tail = 0)
  then mret (false, FileScan 0 (fs_array st) (fs_bm st)) else
  bm ← (if decide (base = 0) then mark_page curr_p (fs_bm st) else mret (fs_bm st));
  s ← get_sbi;
  r ← traverse_loop (S (Z.to_nat (num_blocks s * 4096))) pi curr_p base data_bits
        (FileScan 0 (fs_array st) bm);
  match r with
  | (curr_p, st) =>
    bm ← (if decide (base = 0)
          then mark_pages (page_fuel s) (BLOCK_OFF curr_p) (fs_bm st)
          else mret (fs_bm st));
    if decide (fs_size st = 0) then mret (false, FileScan 0 (fs_array st) bm) else
    let last_blocknr := Z.shiftr (u64 (fs_size st - 1)) data_bits in
    r ← lift (nova_set_file_bm base last_blocknr (fs_array st) bm);
    mret (bool_decide (base + MAX_PGOFF ≤ last_blocknr), FileScan (fs_size st) r.1 r.2)
  end.

Fixpoint traverse_again (windows : nat) (pi base data_bits : Z) (st : file_scan)
  : M file_scan :=
  match windows with
  | O => stop HFuel
  | S windows =>
    r ← traverse_window pi base data_bits st;
    if (r.1 : bool) then traverse_again windows pi (base + MAX_PGOFF) data_bits r.2
    else mret r.2
  end.

(** After the first pass the size of the file bounds the number of the
    others: the log does not change. *)
Definition nova_traverse_file_inode_log (pi : Z) (array : gmap Z Z) (bm : scan_bitmap)
  : M file_scan :=
  btype ← load 1 (pi + nova_inode.i_blk_type);
  let data_bits := blk_type_to_shift btype in
  r ← traverse_window pi 0 data_bits (FileScan 0 array bm);
  if (r.1 : bool) then
    traverse_again (S (Z.to_nat (Z.shiftr (fs_size r.2) data_bits / MAX_PGOFF))) pi
      MAX_PGOFF data_bits r.2
  else mret r.2.

(** ** Inodes *)

(** [i_size] is that of the header the thread uses for all its inodes; its
    mode and number are not read.  Returns it with ring and bitmap. *)
Definition nova_recover_inode_pages (i_size : Z) (ring : task_ring) (pi_addr : Z)
    (bm : scan_bitmap) : M (Z * task_ring * scan_bitmap) :=
  pi ← block_ptr pi_addr;
  valid ← load 1 (pi + nova_inode.valid);
  if decide (valid = 0) then mret (i_size, ring, bm) else
  i_mode ← load 2 (pi + nova_inode.i_mode);
  let used := s32 (ring_used ring + 1) in
  if decide (Z.land i_mode S_IFMT = S_IFDIR) then
    bm ← nova_traverse_dir_inode_log pi bm;
    mret (i_size, TaskRing (ring_addr ring) used (ring_array ring), bm)
  else
    st ← nova_traverse_file_inode_log pi (ring_array ring) bm;
    mret (fs_size st, TaskRing (ring_addr ring) used (fs_array st), fs_bm st).

Section scan.
Context `{RbTree} `{Env}.

Definition nova_failure_insert_inodetree (ino_low ino_high : Z) : M Z :=
  if decide (ino_low > ino_high) then stop HBug else
  s ← get_sbi;
  if decide (cpus s = 0) then stop HFault else
  let cpu := s32 (ino_low mod cpus s) in
  if decide (ino_high mod cpus s ≠ cpu) then stop HBug else
  let internal_low := ino_low / cpus s in
  let internal_high := ino_high / cpus s in
  m ← get_imap cpu;
  let tree := inode_inuse_tree m in
  match nova_find_free_slot tree internal_low internal_high with
  | (ret, prev, next) =>
    if decide (ret ≠ 0) then mret ret else
    match aligns_left internal_low prev, aligns_right internal_high next with
    | Some p, Some n =>
        let t := rb_update (node_addr p) (set_high (range_high n))
                   (rb_erase (node_addr n) tree) in
        update_imap cpu (imap_set_num (u64 (num_range_node_inode m - 1))
                           (imap_set_tree t m)) ;;
        nova_free_range_node (node_addr n) ;;
        mret ret
    | Some p, None =>
        update_imap cpu (imap_set_tree (rb_update (node_addr p)
          (set_high (u64 (range_high p + (internal_high - internal_low + 1)))) tree) m) ;;
        mret ret
    | None, Some n =>
        update_imap cpu (imap_set_tree (rb_update (node_addr n)
          (set_low (u64 (range_low n - (internal_high - internal_low + 1)))) tree) m) ;;
        mret ret
    | None, None =>
        p ← nova_alloc_range_node;
        p ← deref p;
        ret ← nova_insert_inodetree (RangeNode p internal_low internal_high) cpu;
        if decide (ret ≠ 0) then nova_free_range_node p ;; mret ret
        else
          m ← get_imap cpu;
          update_imap cpu (imap_set_num (u64 (num_range_node_inode m + 1)) m) ;;
          mret ret
    end
  end.

(** [range] is the pair of the bounds [ino_low] and [ino_high] point to. *)
Definition nova_failure_update_inodetree (pi : Z) (range : Z * Z) : M (Z * Z) :=
  ino ← load 8 (pi + nova_inode.nova_ino);
  if decide (range.1 = 0) then mret (ino, ino) else
  s ← get_sbi;
  if decide (ino = u64 (range.2 + cpus s)) then mret (range.1, ino) else
  _ ← nova_failure_insert_inodetree range.1 range.2;
  mret (ino, ino).

(** The state of a recovery thread: [sih.i_size], its ring, its bitmap. *)
Record thread_state := ThreadState { ts_size : Z; ts_ring : task_ring; ts_bm : scan_bitmap }.

(** The loop over the inodes of one superpage. *)
Fixpoint scan_inodes (l : list Z) (curr : Z) (range : Z * Z) (st : thread_state)
  : M (Z * Z * thread_state) :=
  match l with
  | [] => mret (range, st)
  | i :: l =>
    let addr := u64 (curr + i * NOVA_INODE_SIZE) in
    pi ← block_ptr addr;
    valid ← load 1 (pi + nova_inode.valid);
    if decide (valid = 0) then scan_inodes l curr range st else
    r ← nova_recover_inode_pages (ts_size st) (ts_ring st) addr (ts_bm st);
    match r with
    | (i_size, ring, bm) =>
      range ← nova_failure_update_inodetree pi range;
      scan_inodes l curr range (ThreadState i_size ring bm)
    end
  end.

Fixpoint scan_superpages (addrs : list Z) (num_inodes_per_page : Z) (st : thread_state)
  : M thread_state :=
  match addrs with
  | [] => mret st
  | curr :: addrs =>
    bm ← lift (set_bms (seqZ (Z.shiftr curr PAGE_SHIFT) 512) (ts_bm st));
    r ← scan_inodes (seqZ 0 num_inodes_per_page) curr (0, 0)
          (ThreadState (ts_size st) (ts_ring st) bm);
    match r with
    | (range, st) =>
      (if decide (range.1 ≠ 0 ∧ range.2 ≠ 0) then
         _ ← nova_failure_insert_inodetree range.1 range.2; mret ()
       else mret ()) ;;
      scan_superpages addrs num_inodes_per_page st
    end
  end.

(** The radix tree of the thread's header stays empty, so the final
    [nova_delete_file_tree] finds nothing to delete. *)
Definition failure_thread_func (ring : task_ring) (bm : scan_bitmap)
  : M (task_ring * scan_bitmap) :=
  pi ← deref (nova_get_inode_by_ino NOVA_INODETABLE_INO);
  btype ← load 1 (pi + nova_inode.i_blk_type);
  let num_inodes_per_page := Z.shiftl 1 (blk_type_to_shift btype - NOVA_INODE_BITS) in
  st ← scan_superpages (ring_addr ring) num_inodes_per_page (ThreadState 0 ring bm);
  mret (ts_ring st, ts_bm st).

(** ** The recovery

    [global_bm] is the global array of pointers to bitmaps, [None] a null or
    dangling one. *)
Fixpoint alloc_bms (l : list Z) (initsize : Z) (global_bm : gmap Z scan_bitmap)
  : M (Z * gmap Z scan_bitmap) :=
  match l with
  | [] => mret (0, global_bm)
  | i :: l =>
    ok ← try_kzalloc;
    if negb ok then mret (- ENOMEM, global_bm) else
    if decide (64 ≤ i) then stop HFault else
    let zero shift := ScanBm (Z.shiftr initsize (shift + 3)) ∅ in
    ok_4K ← try_kzalloc;
    ok_2M ← try_kzalloc;
    ok_1G ← try_kzalloc;
    if negb (ok_4K && ok_2M && ok_1G) then mret (- ENOMEM, global_bm) else
    alloc_bms l initsize
      (<[i := ScanBitmap (zero PAGE_SHIFT) (zero PAGE_SHIFT_2M) (zero PAGE_SHIFT_1G)]>
         global_bm)
  end.

Definition alloc_bm (initsize : Z) : M (Z * gmap Z scan_bitmap) :=
  s ← get_sbi;
  alloc_bms (seqZ 0 (cpus s)) initsize ∅.

(** All of [n] allocations in a row, up to the first that fails. *)
Fixpoint try_allocs (n : nat) : M bool :=
  match n with
  | O => mret true
  | S n => ok ← try_kzalloc; if (ok : bool) then try_allocs n else mret false
  end.

(** The rings, an array for each, [threads] and [finished]; then a thread per
    CPU, whose pointer is used without a check. *)
Definition allocate_resources (cpus : Z) : M (Z * list task_ring) :=
  ok ← try_allocs (Z.to_nat cpus + 3);
  if negb ok then mret (- ENOMEM, []) else
  ok ← try_allocs (Z.to_nat cpus);
  if negb ok then stop HFault else
  mret (0, replicate (Z.to_nat cpus) zero_ring).

(** The superpages of one inode table, handed round the rings; [None] when a
    ring is full. *)
Fixpoint crawl_table (fuel : nat) (curr ring_id : Z) (rings : list task_ring)
  : M (option (Z * list task_ring)) :=
  match fuel with
  | O => stop HFuel
  | S fuel =>
    if decide (curr = 0) then mret (Some (ring_id, rings)) else
    ring ← deref (rings !! Z.to_nat ring_id);
    if decide (512 ≤ length (ring_addr ring))%nat then mret None else
    let ring := TaskRing (ring_addr ring ++ [curr]) (ring_used ring) (ring_array ring) in
    s ← get_sbi;
    curr_addr ← block_ptr curr;
    curr ← load 8 (curr_addr + 2097152 - 8);
    crawl_table fuel curr ((ring_id + 1) mod cpus s) (<[Z.to_nat ring_id := ring]> rings)
  end.

(** The rings hold [512] superpages each: the fuel is enough. *)
Fixpoint crawl_tables (l : list Z) (ring_id : Z) (rings : list task_ring)
  : M (option (list task_ring)) :=
  match l with
  | [] => mret (Some rings)
  | cpuid :: l =>
    s ← get_sbi;
    match nova_get_inode_table s cpuid with
    | None => mret None
    | Some inode_table =>
      curr ← load 8 inode_table;
      r ← crawl_table (S (512 * length rings)) curr ring_id rings;
      match r with
      | None => mret None
      | Some (ring_id, rings) => crawl_tables l ring_id rings
      end
    end
  end.

(** Returns the result, whether the threads were woken, rings and bitmaps. *)
Definition nova_failure_recovery_crawl (rings : list task_ring)
    (global_bm : gmap Z scan_bitmap)
  : M (Z * bool * list task_ring * gmap Z scan_bitmap) :=
  s ← get_sbi;
  r ← crawl_tables (seqZ 0 (cpus s)) 0 rings;
  match r with
  | None => mret (- EINVAL, false, rings, global_bm)
  | Some rings =>
    ring ← deref (rings !! 0%nat);
    bm ← deref (global_bm !! 1);
    r ← nova_recover_inode_pages 0 ring NOVA_ROOT_INO_START bm;
    match r with
    | (_, ring, bm) => mret (0, true, <[0%nat := ring]> rings, <[1 := bm]> global_bm)
    end
  end.

(** The threads, one after the other in the order [order]. *)
Fixpoint run_threads (order : list Z) (rings : list task_ring)
    (global_bm : gmap Z scan_bitmap) : M (list task_ring * gmap Z scan_bitmap) :=
  match order with
  | [] => mret (rings, global_bm)
  | cpuid :: order =>
    ring ← deref (rings !! Z.to_nat cpuid);
    bm ← deref (global_bm !! cpuid);
    r ← failure_thread_func ring bm;
    run_threads order (<[Z.to_nat cpuid := r.1]> rings) (<[cpuid := r.2]> global_bm)
  end.

(** A thread never woken never sets its element of [finished]. *)
Definition wait_to_finish (cpus : Z) (woken : bool) (order : list Z)
    (rings : list task_ring) (global_bm : gmap Z scan_bitmap)
  : M (list task_ring * gmap Z scan_bitmap) :=
  if woken then run_threads order rings global_bm
  else if decide (0 < cpus) then stop HHang else mret (rings, global_bm).

Fixpoint mark_journals (l : list Z) (global_bm : gmap Z scan_bitmap)
  : M (option (gmap Z scan_bitmap)) :=
  match l with
  | [] => mret (Some global_bm)
  | i :: l =>
    s ← get_sbi;
    match nova_get_journal_pointers s i with
    | None => mret None
    | Some jp =>
      journal_head ← load 8 (jp + ptr_pair.journal_head);
      bm ← deref (global_bm !! i);
      bm ← lift (set_bm (Z.shiftr journal_head PAGE_SHIFT) bm BM_4K);
      mark_journals l (<[i := bm]> global_bm)
    end
  end.

Definition nova_failure_recovery (order : list Z) (global_bm : gmap Z scan_bitmap)
  : M (Z * gmap Z scan_bitmap) :=
  modify (λ w, set_sbi (set_used_count 0 (w_sbi w)) w) ;;
  ret ← nova_init_inode_inuse_list;
  if decide (ret < 0) then mret (- EINVAL, global_bm) else
  pi ← deref (nova_get_inode_by_ino NOVA_BLOCKNODE_INO);
  store 8 (pi + nova_inode.log_tail) 0 ;;
  store 8 (pi + nova_inode.log_head) 0 ;;
  flush_buffer (pi + nova_inode.log_head) CACHELINE_SIZE false ;;
  s ← get_sbi;
  marked ← mark_journals (seqZ 0 (cpus s)) global_bm;
  match marked with
  | None => mret (- EINVAL, global_bm)
  | Some global_bm =>
    barrier ;;
    r ← allocate_resources (cpus s);
    match r with
    | (ret, rings) =>
      if decide (ret ≠ 0) then mret (ret, global_bm) else
      r ← nova_failure_recovery_crawl rings global_bm;
      match r with
      | (ret, woken, rings, global_bm) =>
        r ← wait_to_finish (cpus s) woken order rings global_bm;
        forM r.1 (λ ring, add_used_count (ring_used ring)) ;;
        mret (ret, r.2)
      end
    end
  end.

(** The branch of [nova_recovery] after a failure; [order] is the order in
    which the threads run. *)
Definition full_scan (order : list Z) (initsize : Z) : M Z :=
  r ← alloc_bm initsize;
  if decide (r.1 ≠ 0) then mret r.1 else
  modify (λ w, set_sbi (set_used_count 0 (w_sbi w)) w) ;;
  r ← nova_failure_recovery order r.2;
  if decide (r.1 ≠ 0) then mret r.1 else
  s ← get_sbi;
  bms ← deref (mapM (λ i, r.2 !! i) (seqZ 0 (cpus s)));
  nova_build_blocknode_map bms initsize.

Definition nova_recovery (order : list Z) : M Z :=
  initsize ← load 8 nova_super_block.s_size;
  modify (λ w, set_sbi (set_num_blocks (Z.shiftr initsize PAGE_SHIFT) (w_sbi w)) w) ;;
  nova_init_blockmap true ;;
  value ← nova_can_skip_full_scan;
  if (value : bool) then mret 0 else full_scan order initsize.
End scan.
