(* ===== verification/ScanProofs.v ===== *)
(** * Free lists after a failure (bbuild.c)

    [nova_build_blocknode_map] gives every list the blocks of its window whose
    bits are clear: the free blocks are exactly those no scan has marked. *)
From S2P Require Import Prelude Nvmm RangeTree Layout World Balloc BallocList.
From S2P Require Import BallocProofs BallocInit Log FileTree Inode Journal InodeMap Bbuild Scan.

(** ** Bits *)
Lemma find_bit_spec n want b o :
  let r := find_bit n want b o in
  o ≤ r ≤ o + Z.of_nat n ∧
  (∀ x, o ≤ x < r → bool_decide (x ∈ b) ≠ want) ∧
  (r < o + Z.of_nat n → bool_decide (r ∈ b) = want).
Proof.
  revert o. induction n as [|n IH]; intros o; cbn [find_bit]; [split_and!; lia|].
  case_decide as Hb; [split_and!; try lia; done|].
  destruct (IH (o + 1)) as (?&Hx&Hr). cbv zeta in *.
  split_and!; try lia; [|intros; apply Hr; lia].
  intros x Hx'. destruct (decide (x = o)) as [->|]; [done|]. apply Hx. lia.
Qed.

Lemma find_next_spec want b size o :
  o ≤ size → size ≤ bitmap_size b * 8 →
  ∃ r, find_next want b size o = Done r ∧ o ≤ r ≤ size ∧
    (∀ x, o ≤ x < r → bool_decide (x ∈ bitmap b) ≠ want) ∧
    (r < size → bool_decide (r ∈ bitmap b) = want).
Proof.
  intros Ho Hs. unfold find_next. case_decide.
  { exists size. split_and!; try done; lia. }
  rewrite decide_False by lia. eexists. split; [done|].
  destruct (find_bit_spec (Z.to_nat (size - o)) want (bitmap b) o) as (?&?&Hr).
  cbv zeta in *. split_and!; try lia; [done|]. intros. apply Hr. lia.
Qed.

Lemma set_bms_spec l bm :
  (∀ x, x ∈ l → 0 ≤ x < bitmap_size (scan_bm_4K bm) * 8) →
  set_bms l bm = Done (ScanBitmap
    (ScanBm (bitmap_size (scan_bm_4K bm)) (list_to_set l ∪ bitmap (scan_bm_4K bm)))
    (scan_bm_2M bm) (scan_bm_1G bm)).
Proof.
  revert bm. induction l as [|x l IH]; intros [[n b] b2 b3] Hl; cbn [set_bms].
  { f_equal. f_equal. f_equal. set_solver. }
  unfold set_bm, set_scan_bm. cbn in *. rewrite decide_True by (apply Hl; set_solver).
  unfold mbind, outcome_bind. cbn. rewrite IH; cbn.
  - f_equal. f_equal. f_equal. set_solver.
  - intros y Hy. apply Hl. set_solver.
Qed.

(** ** One range *)
Section build.
Context `{RbTreeLaws} `{EnvLaws}.
Context (Hslab : ∀ t live, is_Some (kmem_cache_alloc t live)).

(** A list with one more range, the node at [p], in its tree [t]. *)
Definition appended (f : free_list) (p : Z) (t : rb_tree) (low high : Z) : free_list :=
  let f := set_tree t f in
  let f := match first_node f with None => set_first (Some p) f | Some _ => f end in
  let f := set_num_node (u64 (num_blocknode f + 1)) f in
  set_num_free (u64 (num_free_blocks f + u64 (high - low + 1))) f.

(** A range behind all those of a list. *)
Lemma append_range lb ub f p t low high :
  fl_ok lb ub f → lb ≤ low ≤ high → high ≤ ub → p ∉ addrs (nodes_of f) →
  (∀ n, n ∈ nodes_of f → range_high n + 1 < low) →
  inorder t = nodes_of f ++ [RangeNode p low high] →
  let f1 := appended f p t low high in
  fl_ok lb ub f1 ∧ nodes_of f1 = nodes_of f ++ [RangeNode p low high] ∧
  block_start f1 = block_start f ∧ block_end f1 = block_end f.
Proof.
  intros Hf Hlow Hhigh Hp Hbelow Ht. pose proof Hf as [[??] Hr Hnd Hfirst Hfree Hnode].
  assert (ranges_from 2 lb ub (nodes_of f ++ [RangeNode p low high])) as Hr'.
  { apply ranges_from_mid; [lia|]. cbn. split_and!; try lia; try done.
    destruct (decide (nodes_of f = [])) as [->|]; [done|].
    replace (low - 2) with (low - 1 - 1) by lia.
    eapply ranges_from_below; [|done|]; [lia|]. apply Forall_forall. intros x Hx.
    specialize (Hbelow x Hx). lia. }
  assert (total_size (nodes_of f ++ [RangeNode p low high]) =
          total_size (nodes_of f) + (high - low + 1)) as Hsize.
  { rewrite total_size_app, total_size_cons, total_size_nil. unfold range_size; cbn; lia. }
  pose proof (total_size_upper 2 lb ub _ ltac:(lia) ltac:(lia) ltac:(lia) Hr').
  pose proof (total_size_nonneg 2 lb ub _ ltac:(lia) Hr).
  pose proof (length_le_total 2 lb ub _ ltac:(lia) Hr).
  assert (nodes_of f ++ [RangeNode p low high] ≠ []) by (by destruct (nodes_of f)).
  unfold appended. cbv zeta. assert (first_node (set_tree t f) = first_node f) as -> by done.
  assert (NoDup (addrs (nodes_of f ++ [RangeNode p low high]))) as Hnd'.
  { rewrite fmap_app. apply NoDup_app. split_and!; [done| |apply NoDup_singleton].
    intros x Hx ->%list_elem_of_singleton. done. }
  assert (u64 (num_free_blocks f + u64 (high - low + 1)) =
          total_size (nodes_of f) + (high - low + 1)) as Hw1.
  { rewrite (wrap_small 64 (high - low + 1)), wrap_small by lia. lia. }
  assert (u64 (num_blocknode f + 1) =
          Z.of_nat (length (nodes_of f ++ [RangeNode p low high]))) as Hw2.
  { rewrite length_app. cbn. unwrap; lia. }
  rewrite Hfirst. destruct (nodes_of f) as [|n0 l] eqn:Hl; cbn [head fmap option_fmap option_map];
    (split; [|by cbn; rewrite Ht]); split; cbn [set_num_free set_num_node set_first set_tree
      block_free_tree first_node num_free_blocks num_blocknode]; rewrite ?Ht; try done; congruence.
Qed.

(** The blocks [low] to [high], free nowhere, behind the ranges of list [c],
    with a new node at [p]. *)
Lemma append_list w c p low high :
  balloc_ok w → 0 ≤ c → reserved_blocks (w_sbi w) ≤ low ≤ high →
  high < num_blocks (w_sbi w) → p ∉ w_live w →
  (∀ n, n ∈ nodes_of (nova_get_free_list (w_sbi w) c) → range_high n + 1 < low) →
  (∀ x, low ≤ x ≤ high → ¬ block_free (w_sbi w) x) →
  let f := nova_get_free_list (w_sbi w) c in
  ∃ t, nova_insert_range_node (block_free_tree f) (RangeNode p low high) = (0, t) ∧
    let f' := appended f p t low high in
    let w' := set_sbi (put_free_list c f' (w_sbi w))
                (set_live ({[p]} ∪ w_live w) (next_tick w)) in
    balloc_ok w' ∧ nodes_of f' = nodes_of f ++ [RangeNode p low high] ∧
    block_start f' = block_start f ∧ block_end f' = block_end f ∧
    (∀ x, block_free (w_sbi w') x ↔ block_free (w_sbi w) x ∨ low ≤ x ≤ high).
Proof.
  intros Hok Hc Hlow Hhigh Hfresh Hbelow Hfree f.
  pose proof (bo_lists w Hok c Hc) as Hf. fold f in Hf, Hbelow.
  destruct (insert_range_node_spec 2 _ _ (block_free_tree f) (RangeNode p low high)
    ltac:(lia) (fl_ranges _ _ _ Hf)) as [[_ Hin]|(A&B&t&Ht&HAB&[HA HB]&Ht')].
  { destruct (Hfree low ltac:(lia)). by exists c. }
  exists t. split; [done|].
  assert (B = []) as ->.
  { destruct B as [|n B]; [done|]. apply Forall_cons in HB as [Hn _]. cbn in Hn.
    pose proof (ranges_from_in 2 _ _ _ n ltac:(lia) (fl_ranges _ _ _ Hf)) as Hr.
    assert (n ∈ inorder (block_free_tree f)) as Hin by (rewrite HAB; set_solver).
    specialize (Hr Hin). specialize (Hbelow n Hin). lia. }
  rewrite app_nil_r in HAB. rewrite <- HAB in Ht'.
  assert (p ∉ addrs (nodes_of f)) as Hpf.
  { intros Hpf. apply Hfresh, (bo_live w Hok). by eapply all_nodes_get, Hpf; [apply Hok|]. }
  destruct (append_range _ _ f p t low high Hf Hlow ltac:(lia) Hpf Hbelow Ht')
    as (Hf'&Hn'&Hs'&He'). cbv zeta in Hf', Hn', Hs', He'.
  set (f' := appended f p t low high) in *. intros w'.
  split; [|split_and!; try done].
  - eapply (balloc_ok_put w _ c f' [p] []); try done.
    + intros c' x Hc' Hx Hx'. unfold free_block in Hx. rewrite Hn', in_ranges_app in Hx.
      destruct Hx as [Hx|Hx]; [by apply (bo_disjoint w Hok c c' x)|].
      rewrite in_ranges_cons, in_ranges_nil in Hx. unfold in_range in Hx; cbn in Hx.
      destruct (Hfree x ltac:(lia)). by exists c'.
    + apply NoDup_singleton.
    + set_solver.
    + unfold list_nodes. rewrite Hn', fmap_app. fold f. cbn. solve_Permutation.
    + cbn. set_solver.
  - intros x. etrans; [apply (block_free_put w c f' x Hok Hc)|]. unfold free_block. rewrite Hn'.
    rewrite in_ranges_app, in_ranges_cons, in_ranges_nil. unfold in_range; cbn. fold f.
    split; [intros [[Hx|[Hx|[]]]|[Hx _]]; [left; by exists c|by right|by left]|]. intros [Hx|Hx]; [|tauto].
    destruct (decide (free_block f x)); [left; by left|by right].
Qed.

Lemma insert_map_run w c low high :
  balloc_ok w → 0 ≤ c → reserved_blocks (w_sbi w) ≤ low ≤ high →
  high < num_blocks (w_sbi w) →
  (∀ n, n ∈ nodes_of (nova_get_free_list (w_sbi w) c) → range_high n + 1 < low) →
  (∀ x, low ≤ x ≤ high → ¬ block_free (w_sbi w) x) →
  ∃ w' f', nova_insert_blocknode_map c low high w = Done (0, w') ∧ balloc_ok w' ∧
    w_sbi w' = put_free_list c f' (w_sbi w) ∧
    block_start f' = block_start (nova_get_free_list (w_sbi w) c) ∧
    block_end f' = block_end (nova_get_free_list (w_sbi w) c) ∧
    (∀ x, block_free (w_sbi w') x ↔ block_free (w_sbi w) x ∨ low ≤ x ≤ high) ∧
    w_nvmm w' = w_nvmm w.
Proof.
  intros Hok Hc Hlow Hhigh Hbelow Hfree. unfold nova_insert_blocknode_map.
  cbv zeta. run.
  destruct (Hslab (w_tick w) (w_live w)) as [p Hp]. rewrite Hp. run.
  apply kmem_cache_alloc_fresh in Hp as [Hfresh _]. cbn [set_live next_tick set_tick w_sbi].
  destruct (append_list w c p low high) as (t&Ht&Hok'&_&Hs'&He'&Hset); try done.
  rewrite Ht, decide_False by lia. unfold update_free_list. run.
  do 2 eexists. split; [reflexivity|]. by split_and!.
Qed.

(** ** The loop over windows *)

(** The windows [nova_init_blockmap] sets at mount: the shares of the CPUs,
    and for the shared list what the division leaves over, if anything. *)
Definition share_end (s : nova_sb_info) (c : Z) : Z :=
  if decide (c < cpus s) then per_list_blocks s * c + per_list_blocks s else num_blocks s.
Record windows_set (s : nova_sb_info) : Prop := {
  win_cpu c : 0 ≤ c < cpus s →
    block_start (nova_get_free_list s c) = per_list_blocks s * c ∧
    block_end (nova_get_free_list s c) = share_end s c - 1;
  win_shared : per_list_blocks s * cpus s ≠ num_blocks s →
    block_start (shared_free_list s) = per_list_blocks s * cpus s ∧
    block_end (shared_free_list s) = num_blocks s - 1
}.

(** Before a pass with list [c] at block [start]: the blocks below are done. *)
Record build_inv (B : gset Z) (c start : Z) (w : world) : Prop := {
  bi_ok : balloc_ok w;
  bi_win : windows_set (w_sbi w);
  bi_list : 0 ≤ c < cpus (w_sbi w) ∨
    c = SHARED_CPU ∧ per_list_blocks (w_sbi w) * cpus (w_sbi w) ≠ num_blocks (w_sbi w);
  bi_start : 0 ≤ start ≤ share_end (w_sbi w) c;
  bi_set x : block_free (w_sbi w) x ↔ 0 ≤ x < start ∧ x ∉ B;
  bi_later c' : c < cpus (w_sbi w) → c < c' →
    nodes_of (nova_get_free_list (w_sbi w) c') = [];
  bi_cur : nodes_of (nova_get_free_list (w_sbi w) c) = [] ∨ start ∈ B ∨
    start = share_end (w_sbi w) c
}.

Lemma share_end_bound s c :
  geometry_ok s → 0 ≤ c → 0 < share_end s c ≤ num_blocks s.
Proof.
  intros Hgeo Hc. destruct (geo_product s Hgeo). pose proof (geo_cpus s Hgeo).
  unfold share_end. case_decide; nia.
Qed.

Lemma next_share s c :
  geometry_ok s → windows_set s → 0 ≤ c < cpus s → share_end s c ≠ num_blocks s →
  let c' := next_list s c in
  list_window s c' = (share_end s c, share_end s c') ∧ c < c' ∧
  share_end s c ≤ share_end s c' ∧
  (0 ≤ c' < cpus s ∨ c' = SHARED_CPU ∧ per_list_blocks s * cpus s ≠ num_blocks s).
Proof.
  intros Hgeo Hwin Hc Hend. destruct (geo_product s Hgeo) as [Hper Hprod].
  pose proof (geo_cpus s Hgeo) as Hcpus. pose proof (geo_blocks s Hgeo).
  assert (SHARED_CPU = 65536) as Hsh by done.
  unfold share_end in Hend. rewrite decide_True in Hend by lia.
  cbv zeta. unfold next_list, list_window. case_decide as Hlast.
  - assert (per_list_blocks s * cpus s ≠ num_blocks s) as Hrest by (subst; nia).
    destruct (win_shared s Hwin Hrest) as [Hs1 Hs2]. unfold nova_get_free_list, share_end.
    rewrite !(decide_False (P := SHARED_CPU < cpus s)), (decide_True (P := c < cpus s)) by lia.
    rewrite Hs1, Hs2, wrap_small by lia. split_and!; [f_equal; nia|lia|nia|by right].
  - rewrite s32_small by lia.
    destruct (win_cpu s Hwin (c + 1) ltac:(lia)) as [-> ->].
    unfold share_end. rewrite !decide_True by lia.
    rewrite wrap_small by nia. split_and!; [f_equal; lia|lia|lia|left; lia].
Qed.

Lemma build_inv_skip B w c start :
  build_inv B c start w → c < cpus (w_sbi w) →
  share_end (w_sbi w) c ≠ num_blocks (w_sbi w) →
  (∀ x, start ≤ x < share_end (w_sbi w) c → x ∈ B) →
  build_inv B (next_list (w_sbi w) c) (share_end (w_sbi w) c) w.
Proof.
  intros [Hok Hwin Hlist Hst Hset Hlater Hcur] Hc Hend HB.
  assert (0 ≤ c) by (destruct Hlist as [|[-> _]]; [lia|done]).
  destruct (next_share _ c (bo_geometry w Hok) Hwin ltac:(lia) Hend) as (_&Hlt&Hle&Hlist').
  cbv zeta in *. split; try done.
  - pose proof (share_end_bound _ c (bo_geometry w Hok)). lia.
  - intros x. rewrite Hset. split; [naive_solver lia|]. intros [Hx Hn]. split; [|done].
    destruct (decide (x < start)); [lia|]. destruct Hn. apply HB. lia.
  - intros c' ??. apply Hlater; lia.
  - left. by apply Hlater.
Qed.

Lemma build_inv_add B w c start low nx w' f' :
  build_inv B c start w → start ≤ low < nx → nx ≤ share_end (w_sbi w) c →
  (∀ x, start ≤ x < low → x ∈ B) → (∀ x, low ≤ x < nx → x ∉ B) →
  (nx < share_end (w_sbi w) c → nx ∈ B) →
  balloc_ok w' → w_sbi w' = put_free_list c f' (w_sbi w) →
  block_start f' = block_start (nova_get_free_list (w_sbi w) c) →
  block_end f' = block_end (nova_get_free_list (w_sbi w) c) →
  (∀ x, block_free (w_sbi w') x ↔ block_free (w_sbi w) x ∨ low ≤ x ≤ nx - 1) →
  build_inv B c nx w'.
Proof.
  intros [Hok Hwin Hlist Hst Hset Hlater Hcur] Hlow Hnx HB1 HB2 HB3 Hok' Hs Hf1 Hf2 Hset'.
  assert (0 ≤ c) as Hc by (destruct Hlist as [|[-> _]]; [lia|done]).
  destruct (put_geometry (w_sbi w) c f') as (Ec&Ep&En&Er). rewrite <- Hs in *.
  pose proof (bo_geometry w Hok) as Hgeo.
  assert (∀ x, share_end (w_sbi w') x = share_end (w_sbi w) x) as Eend.
  { intros x. unfold share_end. by rewrite Ec, Ep, En. }
  split; rewrite ?Ec, ?Ep, ?En, ?Eend; try done.
  - split.
    + intros x Hx. rewrite Ec, Ep, Eend in *.
      destruct (win_cpu _ Hwin x Hx) as [H1' H2']. rewrite Hs.
      destruct (get_put _ Hgeo c f' x Hc ltac:(lia)) as [[Hsame ->]|[_ ->]]; [|done].
      rewrite Hf1, Hf2, (get_same _ c x Hsame). done.
    + rewrite Ec, Ep, En. intros Hne. destruct (win_shared _ Hwin Hne) as [H1' H2'].
      rewrite Hs. unfold put_free_list. case_decide as Hcc; [done|]. cbn.
      unfold nova_get_free_list in Hf1, Hf2. rewrite decide_False in Hf1, Hf2 by lia.
      by rewrite Hf1, Hf2.
  - lia.
  - intros x. rewrite Hset', Hset. split.
    + intros [[??]|?]; [naive_solver lia|]. split; [lia|]. apply HB2. lia.
    + intros [Hx Hn]. destruct (decide (x < start)); [left; split; [lia|done]|right].
      destruct (decide (x < low)); [|lia]. destruct Hn. apply HB1. lia.
  - intros x ??. rewrite Hs.
    destruct (get_put _ Hgeo c f' x Hc ltac:(lia)) as [[[->|[??]] ->]|[_ ->]]; [lia..|].
    by apply Hlater.
  - destruct (decide (nx = share_end (w_sbi w) c)); [auto|]. right; left. apply HB3. lia.
Qed.

Definition all_built (B : gset Z) (w w' : world) : Prop :=
  balloc_ok w' ∧ same_geometry (w_sbi w) (w_sbi w') ∧ w_nvmm w' = w_nvmm w ∧
  ∀ x, block_free (w_sbi w') x ↔ 0 ≤ x < num_blocks (w_sbi w) ∧ x ∉ B.

(** Nothing is free from [start] on: the loop is done. *)
Lemma build_inv_done B w c start :
  build_inv B c start w → share_end (w_sbi w) c = num_blocks (w_sbi w) →
  (∀ x, start ≤ x < num_blocks (w_sbi w) → x ∈ B) → all_built B w w.
Proof.
  intros Hinv Hend HB. split_and!; [apply Hinv|done..|]. intros x.
  pose proof (bi_start _ _ _ _ Hinv). rewrite (bi_set _ _ _ _ Hinv x).
  split; [intros [??]; split; [lia|done]|]. intros [Hx Hn]. split; [|done].
  destruct (decide (x < start)); [lia|]. destruct Hn. apply HB. lia.
Qed.

(** A pass that finds a free range, up to the end of the range. *)
Lemma build_pass B w c start low nx :
  build_inv B c start w → (∀ x, 0 ≤ x < reserved_blocks (w_sbi w) → x ∈ B) →
  start ≤ low < nx → nx ≤ share_end (w_sbi w) c →
  (∀ x, start ≤ x < low → x ∈ B) → (∀ x, low ≤ x < nx → x ∉ B) →
  (nx < share_end (w_sbi w) c → nx ∈ B) →
  ∃ w', nova_insert_blocknode_map c low (nx - 1) w = Done (0, w') ∧
    build_inv B c nx w' ∧ same_geometry (w_sbi w) (w_sbi w') ∧ w_nvmm w' = w_nvmm w.
Proof.
  intros Hinv Hres Hlow Hnx HB1 HB2 HB3.
  pose proof (bi_ok _ _ _ _ Hinv) as Hok. pose proof (bo_geometry w Hok) as Hgeo.
  assert (0 ≤ c) as Hc by (destruct (bi_list _ _ _ _ Hinv) as [|[-> _]]; [lia|done]).
  pose proof (bi_start _ _ _ _ Hinv). pose proof (share_end_bound _ c Hgeo Hc).
  assert (reserved_blocks (w_sbi w) ≤ low).
  { destruct (decide (low < reserved_blocks (w_sbi w))) as [Hl|]; [|lia].
    destruct (HB2 low ltac:(lia)). apply Hres. lia. }
  destruct (insert_map_run w c low (nx - 1)) as (w'&f'&Hrun&Hok'&Hs&Hf1&Hf2&Hset&Hm);
    try done; try lia.
  - intros n Hn. pose proof (bo_lists w Hok c Hc) as Hf.
    pose proof (ranges_from_in 2 _ _ _ n ltac:(lia) (fl_ranges _ _ _ Hf) Hn).
    assert (block_free (w_sbi w) (range_high n)) as [??]%(bi_set _ _ _ _ Hinv).
    { exists c. split; [done|]. apply Exists_exists. exists n. unfold in_range. split; [done|lia]. }
    destruct (bi_cur _ _ _ _ Hinv) as [Hnil|[HB|Hend]]; [rewrite Hnil in Hn; set_solver| |lia].
    assert (low ≠ start) by (intros ->; by apply (HB2 start); [lia|]). lia.
  - intros x Hx [??]%(bi_set _ _ _ _ Hinv). lia.
  - exists w'. split_and!; try done; [|rewrite Hs; apply put_geometry].
    by eapply build_inv_add.
Qed.

Lemma same_geometry_share s s' c :
  same_geometry s s' → share_end s' c = share_end s c.
Proof. intros (Ec&Ep&En&_). unfold share_end. by rewrite Ec, Ep, En. Qed.

(** One pass ends the loop or goes on, closer to its end. *)
Definition measure (w : world) (c start : Z) : Z :=
  num_blocks (w_sbi w) - start + (cpus (w_sbi w) - c) `max` 0.
Definition pass_result (b : single_scan_bm) (w : world) (c start : Z) : Prop :=
  let loop fuel c start w :=
    build_loop fuel b (num_blocks (w_sbi w)) 0 c start (share_end (w_sbi w) c) w in
  (∃ w', (∀ fuel, loop (S fuel) c start w = Done ((), w')) ∧ all_built (bitmap b) w w') ∨
  (∃ w1 c1 start1, (∀ fuel, loop (S fuel) c start w = loop fuel c1 start1 w1) ∧
     build_inv (bitmap b) c1 start1 w1 ∧ same_geometry (w_sbi w) (w_sbi w1) ∧
     w_nvmm w1 = w_nvmm w ∧ measure w1 c1 start1 < measure w c start).

(** Going to the next list, in the middle of a pass or at its end. *)
Lemma pass_next b w w1 c start start1 :
  build_inv (bitmap b) c start1 w1 → start ≤ start1 →
  same_geometry (w_sbi w) (w_sbi w1) → w_nvmm w1 = w_nvmm w →
  share_end (w_sbi w) c ≠ num_blocks (w_sbi w) →
  (∀ x, start1 ≤ x < share_end (w_sbi w) c → x ∈ bitmap b) →
  (∀ fuel, build_loop (S fuel) b (num_blocks (w_sbi w)) 0 c start (share_end (w_sbi w) c) w =
    let c' := next_list (w_sbi w) c in let win := list_window (w_sbi w) c' in
    build_loop fuel b (num_blocks (w_sbi w)) 0 c' win.1 win.2 w1) →
  windows_set (w_sbi w) → geometry_ok (w_sbi w) →
  pass_result b w c start.
Proof.
  intros Hinv Hst Hg Hm Hne HB Hloop Hwin Hgeo.
  assert (0 ≤ c < cpus (w_sbi w)) as Hc.
  { destruct Hg as (Ec&Ep&En&_).
    destruct (bi_list _ _ _ _ Hinv) as [|[-> _]]; [lia|]. unfold share_end in Hne.
    case_decide; [|done]. split; [done|lia]. }
  destruct (next_share _ c Hgeo Hwin Hc Hne) as (Hw&Hlt&Hle&_). cbv zeta in Hw, Hlt, Hle.
  pose proof Hg as (Ec&Ep&En&Er). pose proof (bi_start _ _ _ _ Hinv) as Hb.
  rewrite (same_geometry_share _ _ _ Hg) in Hb.
  right. exists w1, (next_list (w_sbi w) c), (share_end (w_sbi w) c).
  split_and!; try done.
  - intros fuel. rewrite Hloop. cbv zeta. rewrite Hw, En, (same_geometry_share _ _ _ Hg). done.
  - assert (next_list (w_sbi w1) c = next_list (w_sbi w) c) as <-
      by (unfold next_list; by rewrite Ec).
    rewrite <- (same_geometry_share _ _ _ Hg).
    eapply build_inv_skip; rewrite ?(same_geometry_share _ _ _ Hg), ?En, ?Ec; try done. lia.
  - unfold measure. rewrite En, Ec. lia.
Qed.

(** The rest of a pass, when the first clear bit is [low]. *)
Lemma pass_found b w c start low :
  build_inv (bitmap b) c start w → bitmap_size b * 8 = num_blocks (w_sbi w) →
  (∀ x, 0 ≤ x < reserved_blocks (w_sbi w) → x ∈ bitmap b) →
  find_next false b (share_end (w_sbi w) c) start = Done low →
  start ≤ low < share_end (w_sbi w) c → low ∉ bitmap b →
  (∀ x, start ≤ x < low → x ∈ bitmap b) → pass_result b w c start.
Proof.
  intros Hinv Hsize Hres Hfind Hlow HlowB HB1.
  pose proof (bi_ok _ _ _ _ Hinv) as Hok. pose proof (bo_geometry w Hok) as Hgeo.
  assert (0 ≤ c) as Hc by (destruct (bi_list _ _ _ _ Hinv) as [|[-> _]]; [lia|done]).
  pose proof (bi_start _ _ _ _ Hinv). pose proof (share_end_bound _ c Hgeo Hc).
  pose proof (geo_blocks _ Hgeo).
  destruct (find_next_spec true b (share_end (w_sbi w) c) low) as (nx&Hnx&Hn1&Hn2&Hn3);
    [lia|lia|].
  assert (nx < share_end (w_sbi w) c → nx ∈ bitmap b) as Hn3'
    by (intros ?%Hn3; by eapply bool_decide_eq_true_1).
  assert (low ≠ nx) by (intros <-; apply HlowB, Hn3'; lia).
  destruct (build_pass (bitmap b) w c start low nx) as (w1&Hrun&Hinv1&Hg&Hm);
    try done; try lia.
  { intros x Hx. specialize (Hn2 x Hx). by destruct (bool_decide_reflect (x ∈ bitmap b)). }
  assert (∀ fuel, build_loop (S fuel) b (num_blocks (w_sbi w)) 0 c start
      (share_end (w_sbi w) c) w =
    if decide (nx = num_blocks (w_sbi w)) then Done ((), w1) else
    let c' := next_list (w_sbi w) c in let win := list_window (w_sbi w) c' in
    if decide (nx = share_end (w_sbi w) c)
    then build_loop fuel b (num_blocks (w_sbi w)) 0 c' win.1 win.2 w1
    else build_loop fuel b (num_blocks (w_sbi w)) 0 c nx (share_end (w_sbi w) c) w1) as Hloop.
  { intros fuel. cbn [build_loop]. rewrite Hfind. run. rewrite decide_False by lia. run.
    rewrite decide_False by lia. rewrite Hnx. run. rewrite !Z.shiftl_0_r, !wrap_small by lia.
    rewrite (bind_run _ _ _ _ _ Hrun). by repeat case_decide. }
  pose proof Hg as (Ec&Ep&En&Er).
  destruct (decide (nx = num_blocks (w_sbi w))) as [Heq|Hne].
  { left. exists w1. split; [done|].
    destruct (build_inv_done (bitmap b) w1 c nx) as (?&?&?&Hx); try done.
    { rewrite (same_geometry_share _ _ _ Hg), En. lia. } { rewrite En. lia. }
    rewrite En in Hx. done. }
  destruct (decide (nx = share_end (w_sbi w) c)) as [Heq|Hne'].
  { eapply (pass_next b w w1 c start nx); try done; try lia. apply Hinv. }
  right. exists w1, c, nx. split_and!; try done.
  - intros fuel. rewrite Hloop, En, (same_geometry_share _ _ _ Hg). done.
  - unfold measure. rewrite En, Ec. lia.
Qed.

Lemma pass_cases b w c start :
  build_inv (bitmap b) c start w → bitmap_size b * 8 = num_blocks (w_sbi w) →
  (∀ x, 0 ≤ x < reserved_blocks (w_sbi w) → x ∈ bitmap b) → pass_result b w c start.
Proof.
  intros Hinv Hsize Hres.
  pose proof (bi_ok _ _ _ _ Hinv) as Hok. pose proof (bo_geometry w Hok) as Hgeo.
  assert (0 ≤ c) as Hc by (destruct (bi_list _ _ _ _ Hinv) as [|[-> _]]; [lia|done]).
  pose proof (bi_start _ _ _ _ Hinv). pose proof (share_end_bound _ c Hgeo Hc).
  destruct (find_next_spec false b (share_end (w_sbi w) c) start) as (low&Hlow&Hl1&Hl2&Hl3);
    [lia|lia|].
  assert (∀ x, start ≤ x < low → x ∈ bitmap b) as HB1.
  { intros x Hx. specialize (Hl2 x Hx). by destruct (bool_decide_reflect (x ∈ bitmap b)). }
  destruct (decide (low = num_blocks (w_sbi w))) as [->|Hne].
  { left. exists w. split; [|eapply build_inv_done; [done|lia|done]].
    intros fuel. cbn [build_loop]. rewrite Hlow. run. by rewrite decide_True by done. }
  destruct (decide (low = share_end (w_sbi w) c)) as [->|Hne'].
  - eapply (pass_next b w w c start start); try done; [|apply Hinv]. intros fuel.
    cbn [build_loop]. rewrite Hlow. run. rewrite decide_False by done. run.
    rewrite decide_True by done. done.
  - eapply pass_found; try done; [lia|].
    eapply bool_decide_eq_false_1, Hl3. lia.
Qed.

Lemma build_loop_run fuel b w c start :
  build_inv (bitmap b) c start w → bitmap_size b * 8 = num_blocks (w_sbi w) →
  (∀ x, 0 ≤ x < reserved_blocks (w_sbi w) → x ∈ bitmap b) →
  measure w c start < Z.of_nat fuel →
  ∃ w', build_loop fuel b (num_blocks (w_sbi w)) 0 c start (share_end (w_sbi w) c) w =
    Done ((), w') ∧ all_built (bitmap b) w w'.
Proof.
  revert w c start. induction fuel as [|fuel IH]; intros w c start Hinv Hsize Hres Hfuel.
  { pose proof (bi_start _ _ _ _ Hinv). pose proof (bi_ok _ _ _ _ Hinv) as Hok.
    pose proof (share_end_bound _ c (bo_geometry w Hok)). unfold measure in Hfuel.
    destruct (bi_list _ _ _ _ Hinv) as [|[-> _]]; unfold SHARED_CPU in *; lia. }
  destruct (pass_cases b w c start Hinv Hsize Hres)
    as [(w'&Hw'&?)|(w1&c1&start1&Hw1&Hinv1&(Ec&Ep&En&Er)&Hm&?)]; [by exists w'|].
  destruct (IH w1 c1 start1 Hinv1) as (w'&Hw'&(?&(?&?&?&?)&?&Hx));
    rewrite ?En, ?Er; try done; [lia|].
  exists w'. rewrite Hw1. split; [done|]. rewrite En in Hx.
  split_and!; try done; [|congruence]. repeat split; congruence.
Qed.

(** ** Windows at mount *)

(** Window fields carry no blocks. *)
Lemma put_window w c lo hi :
  balloc_ok w → 0 ≤ c →
  let f := set_window lo hi (nova_get_free_list (w_sbi w) c) in
  balloc_ok (set_sbi (put_free_list c f (w_sbi w)) w).
Proof.
  intros Hok Hc f. pose proof (bo_lists w Hok c Hc) as Hf.
  eapply (balloc_ok_put w _ c f [] []); try done.
  - by destruct Hf.
  - intros c' x Hc' Hx Hx'. by apply (bo_disjoint w Hok c c' x).
  - constructor.
  - set_solver.
  - by rewrite app_nil_r.
  - set_solver.
Qed.

Definition no_nodes (s : nova_sb_info) : Prop :=
  ∀ c, 0 ≤ c → nodes_of (nova_get_free_list s c) = [].
Definition window_at (s : nova_sb_info) (c : Z) : Prop :=
  block_start (nova_get_free_list s c) = per_list_blocks s * c ∧
  block_end (nova_get_free_list s c) = share_end s c - 1.

Lemma init_windows_loop w k n :
  balloc_ok w → no_nodes (w_sbi w) → (∀ c, 0 ≤ c < k → window_at (w_sbi w) c) →
  0 ≤ k → k + Z.of_nat n = cpus (w_sbi w) →
  ∃ w', init_blockmap_lists true (seqZ k (Z.of_nat n)) w = Done (true, w') ∧
    balloc_ok w' ∧ no_nodes (w_sbi w') ∧ same_geometry (w_sbi w) (w_sbi w') ∧
    w_nvmm w' = w_nvmm w ∧ w_live w' = w_live w ∧
    (∀ c, 0 ≤ c < cpus (w_sbi w) → window_at (w_sbi w') c).
Proof.
  revert w k. induction n as [|n IH]; intros w k Hok Hnil Hwin Hk Hn.
  { exists w. split_and!; try done. intros c Hc. apply Hwin. lia. }
  rewrite seqZ_cons by lia. cbn [init_blockmap_lists].
  pose proof (bo_geometry w Hok) as Hgeo. destruct (geo_product _ Hgeo) as [Hper Hprod].
  pose proof (geo_blocks _ Hgeo).
  unfold init_blockmap_list, update_free_list. run. cbv zeta. run.
  rewrite (wrap_small 64 (_ * k)), (wrap_small 64 (_ - 1)) by nia.
  set (f := set_window _ _ _). set (w1 := set_sbi _ w).
  assert (balloc_ok w1) as Hok1 by (by apply put_window).
  destruct (put_geometry (w_sbi w) k f) as (Ec&Ep&En&Er).
  assert (w_sbi w1 = put_free_list k f (w_sbi w)) as Hs1 by done.
  rewrite <- Hs1 in Ec, Ep, En, Er.
  replace (Z.succ k) with (k + 1) by lia.
  replace (Z.pred (Z.of_nat (S n))) with (Z.of_nat n) by lia.
  destruct (IH w1 (k + 1)) as (w2&Hw2&Hok2&Hnil2&(?&?&?&?)&?&?&Hwin2); try done; try lia.
  - intros c Hc. cbn [w1 w_sbi set_sbi].
    destruct (get_put _ Hgeo k f c ltac:(lia) Hc) as [[_ ->]|[_ ->]]; [|by apply Hnil].
    subst f. cbn. by apply Hnil.
  - intros c Hc. unfold window_at. rewrite Ep.
    rewrite (same_geometry_share (w_sbi w) (w_sbi w1)) by done. cbn [w1 w_sbi set_sbi].
    destruct (get_put _ Hgeo k f c ltac:(lia) ltac:(lia)) as [[Hs ->]|[Hns ->]].
    + assert (c = k) as -> by (destruct Hs as [?|[? ?]]; lia).
      subst f. cbn. unfold share_end. rewrite decide_True by lia. lia.
    + apply Hwin. assert (c ≠ k) by (intros ->; apply Hns; by left). lia.
  - exists w2. split_and!; try done; [repeat split; congruence|].
    intros c Hc. apply Hwin2. lia.
Qed.

(** The lists at mount: empty, with their windows. *)
Lemma init_recovery w :
  fresh_lists w →
  ∃ w', nova_init_blockmap true w = Done ((), w') ∧ balloc_ok w' ∧
    no_nodes (w_sbi w') ∧ windows_set (w_sbi w') ∧
    num_blocks (w_sbi w') = num_blocks (w_sbi w) ∧ cpus (w_sbi w') = cpus (w_sbi w) ∧
    reserved_blocks (w_sbi w') = reserved_blocks (w_sbi w) ∧ w_nvmm w' = w_nvmm w.
Proof.
  intros Hfresh. destruct (fresh_init_inv w Hfresh) as (Hok&_&Hnil&_).
  destruct Hfresh as [Hcpus Hres Hblk _ _ _ _]. unfold nova_init_blockmap. run.
  rewrite decide_False by lia. run. set (w1 := set_sbi _ w) in *.
  assert (no_nodes (w_sbi w1)) as Hnil1 by (intros c Hc; by rewrite Hnil by lia).
  destruct (init_windows_loop w1 0 (Z.to_nat (cpus (w_sbi w))) Hok Hnil1)
    as (w2&Hw2&Hok2&Hnil2&Hg2&Hm2&_&Hwin2); [lia|lia|cbn; lia|].
  rewrite Z2Nat.id in Hw2 by lia. rewrite (bind_run _ _ _ _ _ Hw2). cbn [when]. run.
  pose proof Hg2 as (Ec&Ep&En&Er). pose proof (bo_geometry w2 Hok2) as Hgeo2.
  destruct (geo_product _ Hgeo2) as [Hper Hprod].
  destruct (Hwin2 (cpus (w_sbi w) - 1)) as [_ Hend]; [cbn; lia|].
  rewrite Ec. change (cpus (w_sbi w1)) with (cpus (w_sbi w)) in *.
  rewrite Hend. unfold share_end. rewrite decide_True by lia.
  rewrite Ec in Hprod. pose proof (geo_blocks _ Hgeo2).
  replace (per_list_blocks (w_sbi w2) * (cpus (w_sbi w) - 1) + per_list_blocks (w_sbi w2)
    - 1 + 1) with (per_list_blocks (w_sbi w2) * cpus (w_sbi w)) by lia.
  rewrite (wrap_small 64 (_ * _)), (wrap_small 64 (_ - 1)) by lia.
  case_bool_decide as Hleft; cbn [when].
  - destruct (set_shared_window w2 (per_list_blocks (w_sbi w2) * cpus (w_sbi w))
      (num_blocks (w_sbi w2) - 1) Hok2) as [Hok3 _].
    eexists. split; [reflexivity|].
    split_and!; try done.
    + intros c Hc. unfold nova_get_free_list. cbn. specialize (Hnil2 c Hc).
      unfold nova_get_free_list in Hnil2. by case_decide.
    + split; [|cbn; by rewrite Ec]. intros c Hc. specialize (Hwin2 c). unfold window_at in Hwin2.
      unfold nova_get_free_list, share_end in *. cbn in *. rewrite !decide_True in * by lia.
      apply Hwin2. lia.
  - exists w2. split_and!; try done. split; [|lia]. intros c Hc. apply Hwin2. cbn. lia.
Qed.

(** ** All bitmaps together *)

(** Bitmaps of a device of [n] blocks in which only 4K blocks are marked. *)
Definition bitmap_ok (n : Z) (bm : scan_bitmap) : Prop :=
  bitmap_size (scan_bm_4K bm) * 8 = n ∧
  bitmap (scan_bm_2M bm) = ∅ ∧ bitmap (scan_bm_1G bm) = ∅.
Definition marked (bms : list scan_bitmap) : gset Z :=
  ⋃ ((λ bm, bitmap (scan_bm_4K bm)) <$> bms).

Lemma update_4K_empty bm b scale :
  bitmap b = ∅ → nova_update_4K_map bm b (bitmap_size b * 8) scale = Done bm.
Proof.
  intros Hb. unfold nova_update_4K_map. cbn [update_4K_loop].
  destruct (decide (0 ≤ bitmap_size b * 8)) as [Hn|Hn].
  - destruct (find_next_spec true b (bitmap_size b * 8) 0 Hn ltac:(lia)) as (r&->&?&_&Hr).
    assert (¬ r < bitmap_size b * 8) as Hge.
    { intros Hlt. specialize (Hr Hlt). rewrite Hb, bool_decide_eq_true in Hr. set_solver. }
    unfold mbind, outcome_bind. by rewrite decide_True by lia.
  - unfold find_next. rewrite decide_True by lia. unfold mbind, outcome_bind.
    by rewrite decide_True by lia.
Qed.

Lemma expand_small n bms : Forall (bitmap_ok n) bms → expand_bms bms = Done bms.
Proof.
  induction 1 as [|bm bms (_&H2M&H1G) _ IH]; [done|]. cbn [expand_bms].
  rewrite update_4K_empty by done. unfold mbind, outcome_bind.
  rewrite update_4K_empty by done. by rewrite IH.
Qed.

Lemma elem_of_marked bms x :
  x ∈ marked bms ↔ ∃ bm, bm ∈ bms ∧ x ∈ bitmap (scan_bm_4K bm).
Proof. unfold marked. rewrite elem_of_union_list. set_solver. Qed.

Lemma build_map_run w b :
  balloc_ok w → no_nodes (w_sbi w) → windows_set (w_sbi w) →
  bitmap_size b * 8 = num_blocks (w_sbi w) →
  (∀ x, 0 ≤ x < reserved_blocks (w_sbi w) → x ∈ bitmap b) →
  ∃ w', __nova_build_blocknode_map b (num_blocks (w_sbi w)) 0 w = Done (0, w') ∧
    all_built (bitmap b) w w'.
Proof.
  intros Hok Hnil Hwin Hsize Hres. pose proof (bo_geometry w Hok) as Hgeo.
  pose proof (geo_cpus _ Hgeo). pose proof (geo_blocks _ Hgeo).
  pose proof (share_end_bound _ 0 Hgeo ltac:(lia)).
  unfold __nova_build_blocknode_map. run.
  assert (list_window (w_sbi w) 0 = (0, share_end (w_sbi w) 0)) as ->.
  { destruct (win_cpu _ Hwin 0 ltac:(lia)) as [Hs He]. unfold list_window.
    rewrite Hs, He, wrap_small by lia. f_equal; lia. }
  cbn [fst snd].
  destruct (build_loop_run (S (Z.to_nat (num_blocks (w_sbi w) + cpus (w_sbi w) + 1))) b
    w 0 0) as (w'&Hw'&Hbuilt); try done.
  - split; try done; [left; lia|lia| | |left; by apply Hnil].
    + intros x. split; [|lia]. intros (c&Hc&Hx). unfold free_block in Hx.
      rewrite Hnil in Hx by done. by apply in_ranges_nil in Hx.
    + intros c' _ ?. apply Hnil. lia.
  - unfold measure. lia.
  - rewrite (bind_run _ _ _ _ _ Hw'). by exists w'.
Qed.

(** C11. Rebuilding the allocator after a failure.  With empty free lists,
    [nova_init_blockmap] for recovery followed by [nova_build_blocknode_map]
    on the bitmaps of the recovery threads terminates with the allocator in
    its invariant, and the free blocks are exactly the blocks behind the
    reserved ones that no thread has marked, the remainder of the division
    among CPUs included.  The number of blocks is a multiple of 8: otherwise
    the bitmaps, rounded down to bytes, end before the device does. *)
Theorem rebuilt_free_blocks w bms :
  (∀ t, kzalloc t = true) → fresh_lists w → num_blocks (w_sbi w) mod 8 = 0 →
  Forall (bitmap_ok (num_blocks (w_sbi w))) bms →
  ∃ w', (nova_init_blockmap true ;;
         nova_build_blocknode_map bms (num_blocks (w_sbi w) * 4096)) w = Done (0, w') ∧
    balloc_ok w' ∧ w_nvmm w' = w_nvmm w ∧
    ∀ x, block_free (w_sbi w') x ↔
         reserved_blocks (w_sbi w) ≤ x < num_blocks (w_sbi w) ∧
         ∀ bm, bm ∈ bms → x ∉ bitmap (scan_bm_4K bm).
Proof.
  intros Hkz Hfresh Hmod Hbms.
  destruct (init_recovery w Hfresh) as (w1&Hw1&Hok&Hnil&Hwin&En&Ec&Er&Hm).
  rewrite (bind_run _ _ _ _ _ Hw1). pose proof (bo_geometry w1 Hok) as Hgeo.
  assert (0 < reserved_blocks (w_sbi w) < num_blocks (w_sbi w)) as Hresb.
  { destruct (geo_product _ Hgeo) as [??]. pose proof (geo_reserved _ Hgeo).
    pose proof (geo_cpus _ Hgeo). nia. }
  assert (Z.shiftr (num_blocks (w_sbi w) * 4096) (PAGE_SHIFT + 3) * 8 = num_blocks (w_sbi w))
    as Hsz.
  { rewrite Z.shiftr_div_pow2 by done. change (2 ^ (PAGE_SHIFT + 3)) with (8 * 4096).
    rewrite Z.div_mul_cancel_r by lia. rewrite (Z.div_mod (num_blocks (w_sbi w)) 8) at 2; lia. }
  unfold nova_build_blocknode_map.
  unfold try_kzalloc. unfold mbind at 1, M_bind at 1. rewrite Hkz. cbn [negb].
  unfold mbind at 1, M_bind at 1. rewrite Hkz. cbn [negb].
  rewrite (expand_small _ _ Hbms). run. set (w2 := next_tick (next_tick w1)).
  rewrite set_bms_spec; cbn [scan_bm_4K bitmap_size].
  2: { intros x Hx%elem_of_seqZ. change (w_sbi w2) with (w_sbi w1) in Hx.
       rewrite Er in Hx. lia. }
  run. cbn [scan_bm_4K]. change (PAGE_SHIFT - 12) with 0. set (b := ScanBm _ _).
  assert (bitmap_size b * 8 = num_blocks (w_sbi w2)) as Hb
    by (change (w_sbi w2) with (w_sbi w1); rewrite En; exact Hsz).
  assert (∀ x, x ∈ bitmap b ↔ 0 ≤ x < reserved_blocks (w_sbi w) ∨ x ∈ marked bms) as HbB.
  { intros x. subst b. cbn [bitmap]. rewrite elem_of_union, elem_of_list_to_set, elem_of_seqZ.
    change (w_sbi w2) with (w_sbi w1). rewrite Er. done. }
  rewrite Hb. clearbody b.
  destruct (build_map_run w2 b) as (w'&Hw'&Hok'&_&Hm'&Hset); try done.
  { by apply (balloc_ok_same w1). }
  { intros x Hx. apply HbB. left. change (w_sbi w2) with (w_sbi w1) in Hx. lia. }
  exists w'. split_and!; try done; [by rewrite Hm', <- Hm|]. intros x.
  rewrite Hset, HbB, elem_of_marked. change (w_sbi w2) with (w_sbi w1). rewrite En.
  split; [|naive_solver lia]. intros [Hx Hn].
  split; [|naive_solver]. destruct (decide (reserved_blocks (w_sbi w) ≤ x)); [lia|].
  destruct Hn. left. lia.
Qed.
End build.

Section instances.
#[local] Existing Instances bst_rb bst_rb_laws env1 env1_laws.

(** A device of 24 blocks on two CPUs, marked by both threads. *)
Definition scanned_world : world :=
  World (nvmm_boot ∅)
    (SbInfo 24 (24 * 4096) 0 3 2 0 0 [] [zero_free_list; zero_free_list] zero_free_list
       zero_mount_info)
    ∅ 0 ∅ [].
Definition scanned_bms : list scan_bitmap :=
  [ScanBitmap (ScanBm 3 {[4; 5]}) (ScanBm 0 ∅) (ScanBm 0 ∅);
   ScanBitmap (ScanBm 3 {[11; 12; 23]}) (ScanBm 0 ∅) (ScanBm 0 ∅)].

Lemma rebuilt_free_blocks_witness :
  ∃ w', (nova_init_blockmap true ;; nova_build_blocknode_map scanned_bms (24 * 4096))
          scanned_world = Done (0, w') ∧ balloc_ok w' ∧
    (block_free (w_sbi w') 3) ∧ ¬ block_free (w_sbi w') 12.
Proof.
  destruct (rebuilt_free_blocks (λ t live, ltac:(by eexists)) scanned_world scanned_bms)
    as (w'&Hw&Hok&_&Hset).
  - done.
  - split; cbn; try done; try lia; try apply NoDup_nil_2. intros p Hp. set_solver.
  - done.
  - by repeat constructor.
  - exists w'. split; [exact Hw|]. split; [exact Hok|]. clear Hw Hok. rewrite !Hset. split.
    + split; [done|]. intros bm [->|[->|Hn]%elem_of_cons]%elem_of_cons;
        cbn [bitmap scan_bm_4K]; [set_solver..|by apply elem_of_nil in Hn].
    + intros [_ Hx]. eapply Hx; [by apply list_elem_of_lookup_2 with (i := 1%nat)|].
      cbn [bitmap scan_bm_4K]. set_solver.
Defined.
End instances.
