(* ===== verification/RecoveryProofs.v ===== *)
(** * The scan after a failure (bbuild.c)

    What the recovery threads change, which pages of a directory log they
    mark, and what happens on a machine with a single CPU. *)
From S2P Require Import Prelude Nvmm RangeTree Layout World Balloc BallocList.
From S2P Require Import BallocProofs Log LogPages FileTree Inode Journal InodeMap Bbuild.
From S2P Require Import Scan Frame.

(** ** Reading logs changes nothing *)
Section reading.
Context {B : Type} (f : world → B).

Lemma keeps_entry_type p : keeps f (nova_get_entry_type p).
Proof. unfold nova_get_entry_type. keeps. Qed.
#[local] Hint Resolve keeps_entry_type : keeps.

Lemma keeps_goto_next_page p : keeps f (goto_next_page p).
Proof. unfold goto_next_page. keeps. Qed.
Lemma keeps_next_log_page p : keeps f (next_log_page p).
Proof. unfold next_log_page. keeps. Qed.
#[local] Hint Resolve keeps_goto_next_page keeps_next_log_page : keeps.

Lemma keeps_mark_page p bm : keeps f (mark_page p bm).
Proof. unfold mark_page. keeps. Qed.
#[local] Hint Resolve keeps_mark_page : keeps.

Lemma keeps_mark_pages fuel p bm : keeps f (mark_pages fuel p bm).
Proof. revert p bm. induction fuel as [|fuel IH]; intros p bm; cbn [mark_pages]; keeps. Qed.
#[local] Hint Resolve keeps_mark_pages : keeps.

Lemma keeps_traverse_dir pi bm : keeps f (nova_traverse_dir_inode_log pi bm).
Proof. unfold nova_traverse_dir_inode_log. keeps. Qed.

Lemma keeps_traverse_loop fuel pi p base bits st :
  keeps f (traverse_loop fuel pi p base bits st).
Proof.
  revert p st. induction fuel as [|fuel IH]; intros p st; cbn [traverse_loop]; keeps.
Qed.
#[local] Hint Resolve keeps_traverse_loop : keeps.

Lemma keeps_traverse_window pi base bits st : keeps f (traverse_window pi base bits st).
Proof. unfold traverse_window. keeps. Qed.
#[local] Hint Resolve keeps_traverse_window : keeps.

Lemma keeps_traverse_again n pi base bits st : keeps f (traverse_again n pi base bits st).
Proof.
  revert base st. induction n as [|n IH]; intros base st; cbn [traverse_again]; keeps.
Qed.
#[local] Hint Resolve keeps_traverse_again keeps_traverse_dir : keeps.

Lemma keeps_traverse_file pi array bm : keeps f (nova_traverse_file_inode_log pi array bm).
Proof. unfold nova_traverse_file_inode_log. keeps. Qed.
#[local] Hint Resolve keeps_traverse_file : keeps.

Lemma keeps_recover_inode_pages n ring p bm : keeps f (nova_recover_inode_pages n ring p bm).
Proof. unfold nova_recover_inode_pages. keeps. Qed.
End reading.
#[export] Hint Resolve keeps_recover_inode_pages : keeps.

(** ** The pages of a directory log *)
Definition mark (b : Z) (bm : scan_bitmap) : scan_bitmap :=
  ScanBitmap (ScanBm (bitmap_size (scan_bm_4K bm)) ({[b]} ∪ bitmap (scan_bm_4K bm)))
    (scan_bm_2M bm) (scan_bm_1G bm).
Definition mark_all (bs : list Z) (bm : scan_bitmap) : scan_bitmap :=
  ScanBitmap (ScanBm (bitmap_size (scan_bm_4K bm))
                (list_to_set bs ∪ bitmap (scan_bm_4K bm)))
    (scan_bm_2M bm) (scan_bm_1G bm).

Lemma mark_all_cons b bs bm : mark_all bs (mark b bm) = mark_all (b :: bs) bm.
Proof. unfold mark_all, mark. cbn. do 2 f_equal. set_solver. Qed.

Lemma mark_page_run w b bm :
  0 ≤ b < bitmap_size (scan_bm_4K bm) * 8 →
  mark_page (b * 4096) bm w = Done (mark b bm, w).
Proof.
  intros Hb. unfold mark_page. change (PAGE_SIZE - 1) with (2 ^ 12 - 1).
  rewrite land_low_mask, Z.mod_mul, decide_False by lia.
  unfold PAGE_SHIFT. rewrite Z.shiftr_div_pow2, Z.div_mul by lia.
  unfold set_bm, set_scan_bm. by rewrite decide_True by lia.
Qed.

Lemma mark_pages_run w bs : ∀ fuel b bm,
  (length bs < fuel)%nat → log_seg (vis (w_nvmm w)) (b * 4096) 0 (b :: bs) →
  (∀ c, c ∈ b :: bs → 0 < c < 2 ^ 44 ∧ c < bitmap_size (scan_bm_4K bm) * 8) →
  mark_pages fuel (b * 4096) bm w = Done (mark_all bs bm, w).
Proof.
  induction bs as [|c bs IH]; intros fuel b bm Hf Hseg Hb;
    (destruct fuel as [|fuel]; [cbn in Hf; lia|]); cbn [mark_pages];
    destruct (Hb b ltac:(left)) as [Hb1 Hb2];
    rewrite bind_block_ptr by lia; run; destruct Hseg as [_ Hseg].
  - cbn in Hseg. rewrite Hseg, decide_True by done. unfold mark_all, mret, M_ret.
    cbn. rewrite (left_id_L ∅ (∪)). by destruct bm as [[] ? ?].
  - pose proof Hseg as [Hnext Hseg']. destruct (Hb c ltac:(right; left)) as [Hc1 Hc2].
    rewrite Hnext, decide_False by lia.
    rewrite (bind_run _ _ _ _ _ (mark_page_run w c bm ltac:(lia))).
    rewrite IH, mark_all_cons; [done|cbn in Hf; lia|by rewrite <- Hnext at 1|].
    intros x Hx. apply Hb. by right.
Qed.

(** C20. Scanning a directory.  When the log of a directory is the chain of
    distinct pages [bs] of the device, [nova_traverse_dir_inode_log]
    terminates, changes nothing, and marks exactly these pages in use. *)
Theorem traverse_dir_marks w pi bm bs :
  bs ≠ [] → NoDup bs → num_blocks (w_sbi w) < 2 ^ 44 →
  (∀ b, b ∈ bs → 0 < b < num_blocks (w_sbi w)) →
  num_blocks (w_sbi w) ≤ bitmap_size (scan_bm_4K bm) * 8 →
  log_seg (vis (w_nvmm w)) (ld 8 (vis (w_nvmm w)) (pi + nova_inode.log_head)) 0 bs →
  nova_traverse_dir_inode_log pi bm w = Done (mark_all bs bm, w).
Proof.
  intros Hne Hnd Hnb Hbs Hsz Hseg. destruct bs as [|b bs]; [done|].
  pose proof Hseg as [Hhead _]. destruct (Hbs b ltac:(left)) as [Hb1 Hb2].
  unfold nova_traverse_dir_inode_log. run. rewrite Hhead in *.
  rewrite decide_False by lia.
  rewrite (bind_run _ _ _ _ _ (mark_page_run w b bm ltac:(lia))). run.
  rewrite (mark_pages_run w bs), mark_all_cons; [done| |done|].
  - assert (length (b :: bs) ≤ length (seqZ 0 (num_blocks (w_sbi w))))%nat as Hl.
    { apply submseteq_length, NoDup_submseteq; [done|]. intros x Hx. apply elem_of_seqZ.
      specialize (Hbs x Hx). lia. }
    rewrite length_seqZ in Hl. unfold page_fuel. cbn in Hl. lia.
  - intros c Hc. specialize (Hbs c Hc). cbn. lia.
Qed.

(** ** The threads change the in-use trees only *)
Section trees.
Context `{RbTree} `{Env} {B : Type} (f : world → B).
Context (Htick : ∀ w, f (next_tick w) = f w) (Hlive : ∀ l w, f (set_live l w) = f w).
Context (Hmaps : ∀ l w, f (set_sbi (set_inode_maps l (w_sbi w)) w) = f w).

Lemma keeps_alloc_free p : keeps f (nova_free_range_node p).
Proof. apply keeps_modify. auto. Qed.
Lemma keeps_alloc : keeps f nova_alloc_range_node.
Proof. by apply keeps_alloc_node. Qed.
Lemma keeps_update_imap c m : keeps f (update_imap c m).
Proof. apply keeps_modify. auto. Qed.
Lemma keeps_get_imap c : keeps f (get_imap c).
Proof. unfold get_imap. keeps. Qed.
#[local] Hint Resolve keeps_alloc_free keeps_update_imap keeps_get_imap keeps_alloc : keeps.

Lemma keeps_insert_inodetree n c : keeps f (nova_insert_inodetree n c).
Proof. unfold nova_insert_inodetree. keeps. Qed.
#[local] Hint Resolve keeps_insert_inodetree : keeps.

Lemma keeps_failure_insert lo hi : keeps f (nova_failure_insert_inodetree lo hi).
Proof.
  unfold nova_failure_insert_inodetree. 
  repeat (keeps_step || (apply keeps_alloc; done)).
Qed.
#[local] Hint Resolve keeps_failure_insert : keeps.

Lemma keeps_failure_update pi r : keeps f (nova_failure_update_inodetree pi r).
Proof. unfold nova_failure_update_inodetree. keeps. Qed.
#[local] Hint Resolve keeps_failure_update : keeps.

Lemma keeps_scan_inodes l curr r st : keeps f (scan_inodes l curr r st).
Proof. revert r st. induction l as [|i l IH]; intros r st; cbn [scan_inodes]; keeps. Qed.
#[local] Hint Resolve keeps_scan_inodes : keeps.

Lemma keeps_scan_superpages l n st : keeps f (scan_superpages l n st).
Proof. revert st. induction l as [|i l IH]; intros st; cbn [scan_superpages]; keeps. Qed.
#[local] Hint Resolve keeps_scan_superpages : keeps.

Lemma keeps_thread ring bm : keeps f (failure_thread_func ring bm).
Proof. unfold failure_thread_func. keeps. Qed.
#[local] Hint Resolve keeps_thread : keeps.

Lemma keeps_run_threads order rings g : keeps f (run_threads order rings g).
Proof.
  revert rings g. induction order as [|c order IH]; intros rings g; cbn [run_threads]; keeps.
Qed.

Lemma keeps_crawl_table fuel curr id rings : keeps f (crawl_table fuel curr id rings).
Proof.
  revert curr id rings. induction fuel as [|fuel IH]; intros; cbn [crawl_table]; keeps.
Qed.
#[local] Hint Resolve keeps_crawl_table keeps_run_threads : keeps.

Lemma keeps_crawl_tables l id rings : keeps f (crawl_tables l id rings).
Proof. revert id rings. induction l as [|c l IH]; intros; cbn [crawl_tables]; keeps. Qed.
#[local] Hint Resolve keeps_crawl_tables : keeps.

Lemma keeps_crawl rings g : keeps f (nova_failure_recovery_crawl rings g).
Proof. unfold nova_failure_recovery_crawl. keeps. Qed.

Lemma keeps_wait n woken order rings g : keeps f (wait_to_finish n woken order rings g).
Proof. unfold wait_to_finish. keeps. Qed.

Lemma keeps_mark_journals l g : keeps f (mark_journals l g).
Proof. revert g. induction l as [|i l IH]; intros; cbn [mark_journals]; keeps. Qed.

Lemma keeps_try_allocs n : keeps f (try_allocs n).
Proof.
  induction n as [|n IH]; cbn [try_allocs]; [auto with keeps nocore|].
  apply keeps_bind; [by apply keeps_tick|intros ?]. keeps.
Qed.
#[local] Hint Resolve keeps_try_allocs : keeps.

Lemma keeps_allocate_resources n : keeps f (allocate_resources n).
Proof. unfold allocate_resources. keeps. Qed.
#[local] Hint Resolve keeps_crawl keeps_wait keeps_mark_journals keeps_allocate_resources : keeps.

Lemma keeps_alloc_bms l n g : keeps f (alloc_bms l n g).
Proof.
  revert g. induction l as [|i l IH]; intros g; cbn [alloc_bms]; [keeps|].
  apply keeps_bind; [by apply keeps_tick|intros ok]. destruct ok; cbn [negb]; [|keeps].
  case_decide; [keeps|]. do 3 (apply keeps_bind; [by apply keeps_tick|intros ?]). keeps.
Qed.

Lemma keeps_inuse_list :
  (∀ n w, f (set_sbi (set_used_count n (w_sbi w)) w) = f w) →
  keeps f nova_init_inode_inuse_list.
Proof.
  intros Hu. unfold nova_init_inode_inuse_list, init_inuse_cpu.
  repeat (keeps_step || (apply keeps_alloc; done)).
Qed.
End trees.

(** ** The whole recovery *)
Section recovery.
Context `{RbTree} `{Env}.

Definition rest_of (w : world) :=
  (vis (w_nvmm w), free_lists (w_sbi w), shared_free_list (w_sbi w), cpus (w_sbi w),
   w_inodes w).

Lemma mark_journals_other l g g' w w' i :
  mark_journals l g w = Done (Some g', w') → i ∉ l → g' !! i = g !! i.
Proof.
  revert g w. induction l as [|j l IH]; intros g w; cbn [mark_journals].
  { by intros [= -> ->]. }
  intros (s&w1&[= <- <-]&Hr)%bind_Done [Hj Hl]%not_elem_of_cons.
  destruct (nova_get_journal_pointers _ _); [|done].
  apply bind_Done in Hr as (h&w2&[= <- <-]&(bm&w3&_&(bm'&w4&_&Hr)%bind_Done)%bind_Done).
  rewrite (IH _ _ Hr Hl). by rewrite lookup_insert_ne.
Qed.

Lemma alloc_bms_other l n g g' w w' ret i :
  alloc_bms l n g w = Done (ret, g', w') → i ∉ l → g' !! i = g !! i.
Proof.
  revert g w. induction l as [|j l IH]; intros g w; cbn [alloc_bms].
  { by intros [= _ -> ->]. }
  intros (ok&w1&_&Hr)%bind_Done [Hj Hl]%not_elem_of_cons.
  destruct ok; cbn [negb] in Hr; [|by apply ret_Done in Hr as [[= _ <-] _]]. case_decide; [done|].
  apply bind_Done in Hr as (o1&w2&_&(o2&w3&_&(o3&w4&_&Hr)%bind_Done)%bind_Done).
  destruct (o1 && o2 && o3); cbn [negb] in Hr; [|by apply ret_Done in Hr as [[= _ <-] _]].
  rewrite (IH _ _ Hr Hl). by rewrite lookup_insert_ne.
Qed.

(** No crawl succeeds without a second bitmap. *)
Lemma crawl_needs_second rings g w r woken rings' g' w' :
  g !! 1 = None → nova_failure_recovery_crawl rings g w = Done (r, woken, rings', g', w') →
  woken = false.
Proof.
  intros Hg. unfold nova_failure_recovery_crawl.
  intros (s&w1&_&(t&w2&_&Hr)%bind_Done)%bind_Done.
  destruct t as [t|]; [|by apply ret_Done in Hr as [[= _ <- _ _] _]].
  apply bind_Done in Hr as (ring&w3&_&(bm&w4&Hbm&_)%bind_Done). by rewrite Hg in Hbm.
Qed.

Lemma failure_recovery_needs_second order g w ret g' w' :
  cpus (w_sbi w) = 1 → g !! 1 = None →
  nova_failure_recovery order g w = Done (ret, g', w') → ret ≠ 0.
Proof.
  intros Hc Hg. unfold nova_failure_recovery. run.
  intros (r&w1&Hl&Hr)%bind_Done.
  apply (keeps_inuse_list (λ w, cpus (w_sbi w))) in Hl; [|done..]. cbn in Hl.
  case_decide; [by apply ret_Done in Hr as [[= <- _] _]|].
  change (nova_get_inode_by_ino NOVA_BLOCKNODE_INO) with
    (Some (nova_get_basic_inode NOVA_BLOCKNODE_INO)) in Hr.
  autorewrite with run in Hr. cbn [w_sbi set_nvmm] in Hr. rewrite Hl, Hc in Hr.
  apply bind_Done in Hr as (gm&w2&Hm&Hr).
  destruct gm as [gm|]; [|by apply ret_Done in Hr as [[= <- _] _]].
  apply mark_journals_other with (i := 1) in Hm as Hgm; [|set_solver by lia].
  autorewrite with run in Hr. apply bind_Done in Hr as ([ret1 rings]&w3&_&Hr).
  case_decide; [by apply ret_Done in Hr as [[= <- _] _]|].
  apply bind_Done in Hr as ([[[ret2 woken] rings2] g2]&w4&Hcr&Hr).
  apply crawl_needs_second in Hcr as ->; [|by rewrite Hgm].
  apply bind_Done in Hr as (r5&w5&Hw&_). by cbn in Hw.
Qed.


(** C30. What recovery writes.  Whenever the scan of [nova_failure_recovery]
    returns, with an error or not, the bytes of NVMM are those from before
    except for the log head and tail of the block-node inode, and the free
    lists and the inodes in memory are untouched: after a power failure during
    the scan the next mount finds the same logs. *)
Theorem recovery_writes order g w r w' :
  nova_failure_recovery order g w = Done (r, w') →
  let lo := nova_get_basic_inode NOVA_BLOCKNODE_INO + nova_inode.log_head in
  (∀ x, ¬ lo ≤ x < lo + 16 → ld8 (vis (w_nvmm w')) x = ld8 (vis (w_nvmm w)) x) ∧
  free_lists (w_sbi w') = free_lists (w_sbi w) ∧
  shared_free_list (w_sbi w') = shared_free_list (w_sbi w) ∧ w_inodes w' = w_inodes w.
Proof.
  intros Hrun lo. revert Hrun. unfold nova_failure_recovery. run.
  intros (r1&w1&Hl&Hr)%bind_Done.
  apply (keeps_inuse_list rest_of) in Hl; [|done..]. injection Hl as Hv Hfl Hsh _ Hin.
  cbn in Hv, Hfl, Hsh, Hin.
  case_decide; [apply ret_Done in Hr as [_ <-]; by rewrite Hv|].
  change (nova_get_inode_by_ino NOVA_BLOCKNODE_INO) with
    (Some (nova_get_basic_inode NOVA_BLOCKNODE_INO)) in Hr.
  autorewrite with run in Hr.
  match type of Hr with ?m ?w2 = _ =>
    assert (keeps rest_of m) as Hk; [|set (w2' := w2) in Hr] end.
  { repeat (keeps_step || apply keeps_mark_journals || apply keeps_crawl ||
            by (apply keeps_modify || apply keeps_allocate_resources || apply keeps_wait)). }
  apply Hk in Hr. injection Hr as Hv' Hfl' Hsh' _ Hin'.
  rewrite Hfl', Hsh', Hin'. split; [|done]. intros x Hx. rewrite Hv'. subst w2'. cbn.
  rewrite !ld8_st_bytes_out, Hv; [done|..];
    rewrite length_le_split; subst lo; unfold nova_inode.log_head, nova_inode.log_tail in *; lia.
Qed.
End recovery.

Section instances.
#[local] Existing Instances bst_rb env1.

(** A device of 16 blocks whose root directory has one log page. *)
Definition root_page : Z := 5 * 4096.
Definition failed_mem : mem :=
  let root := NOVA_ROOT_INO_START in
  let m := st_bytes ∅ (root + nova_inode.valid) [1] in
  let m := st_bytes m (root + nova_inode.i_mode) (le_split 2 S_IFDIR) in
  st_bytes m (root + nova_inode.log_head) (le_split 8 root_page).
Definition failed_world (n : Z) : world :=
  World (nvmm_boot failed_mem)
    (SbInfo 16 (16 * 4096) 0 3 n 0 0 (replicate (Z.to_nat n) zero_inode_map)
       (replicate (Z.to_nat n) zero_free_list) zero_free_list zero_mount_info)
    ∅ 0 ∅ [].
Definition two_bitmaps : gmap Z scan_bitmap :=
  let bm := ScanBitmap (ScanBm 2 ∅) (ScanBm 0 ∅) (ScanBm 0 ∅) in {[0 := bm; 1 := bm]}.

Lemma recovery_writes_witness :
  ∃ r w', nova_failure_recovery [0; 1] two_bitmaps (failed_world 2) = Done (r, w') ∧
    r.1 = 0 ∧ (option_map (λ bm, elements (bitmap (scan_bm_4K bm))) (r.2 !! 1) = Some [5; 0]) ∧
    ld8 (vis (w_nvmm w')) root_page = ld8 (vis (w_nvmm (failed_world 2))) root_page.
Proof.
  assert (match nova_failure_recovery [0; 1] two_bitmaps (failed_world 2) with
          | Done (r, _) => r.1 = 0 ∧ option_map (λ bm, elements (bitmap (scan_bm_4K bm)))
                                       (r.2 !! 1) = Some [5; 0]
          | Halt _ => False
          end) as Hz by (vm_compute; auto).
  destruct (nova_failure_recovery [0; 1] two_bitmaps (failed_world 2)) as [[r w']|] eqn:E;
    [|destruct Hz].
  exists r, w'. split; [exact eq_refl|]. destruct Hz as [Hz1 Hz2]. split; [exact Hz1|].
  split; [exact Hz2|]. apply (recovery_writes _ _ _ _ _ E). vm_compute. intuition discriminate.
Defined.

Lemma traverse_dir_marks_witness :
  let bm := ScanBitmap (ScanBm 2 ∅) (ScanBm 0 ∅) (ScanBm 0 ∅) in
  nova_traverse_dir_inode_log NOVA_ROOT_INO_START bm (failed_world 2) =
    Done (mark_all [5] bm, failed_world 2).
Proof.
  intros bm. apply traverse_dir_marks; try done.
  - apply NoDup_singleton.
  - intros b ->%list_elem_of_singleton. done.
Defined.

End instances.
