(* ===== verification/RestoreProofs.v ===== *)
(** * Unmounting and mounting again (bbuild.c)

    The free lists written to the log of the block-node inode at unmount are
    the free lists after the next mount. *)
From stdpp Require Import sorting.
From S2P Require Import Prelude Nvmm RangeTree Layout World Balloc BallocList BallocProofs.
From S2P Require Import BallocShares BallocCount BallocInit Log LogPages LogProofs FileTree Inode Journal.
From S2P Require Import InodeMap Bbuild Scan ScanProofs RangeLog.

(** ** Lists and their ranges *)
Lemma get_cpuid_run s b :
  geometry_ok s → 0 ≤ b < num_blocks s → get_cpuid s b = Some (cpu_of s b) ∧ 0 ≤ cpu_of s b.
Proof.
  intros Hgeo Hb. destruct (home_list_cpu_of s b Hgeo Hb) as [<- ?].
  destruct (geo_product s Hgeo). unfold get_cpuid. by rewrite decide_False by lia.
Qed.

(** The lists in the order they are written, and all their ranges. *)
Definition all_lists (s : nova_sb_info) : list Z := seqZ 0 (cpus s) ++ [SHARED_CPU].
Definition all_ranges (s : nova_sb_info) : list (Z * Z) := all_lists s ≫= list_ranges s.
Definition covered (rs : list (Z * Z)) (x : Z) : Prop := ∃ r, r ∈ rs ∧ r.1 ≤ x ≤ r.2.

Lemma covered_app rs1 rs2 x : covered (rs1 ++ rs2) x ↔ covered rs1 x ∨ covered rs2 x.
Proof. unfold covered. set_solver. Qed.
Lemma covered_singleton r x : covered [r] x ↔ r.1 ≤ x ≤ r.2.
Proof. unfold covered. set_solver. Qed.

Lemma covered_list s c x : covered (list_ranges s c) x ↔ free_block (nova_get_free_list s c) x.
Proof.
  unfold covered, list_ranges, free_block, in_ranges. rewrite Exists_exists. split.
  - intros (r&(n&->&Hn)%list_elem_of_fmap&Hx). by exists n.
  - intros (n&Hn&Hx). exists (rng n). split; [|done]. apply list_elem_of_fmap. by exists n.
Qed.

Lemma elem_of_all_ranges s r :
  r ∈ all_ranges s ↔ ∃ c, c ∈ all_lists s ∧ r ∈ list_ranges s c.
Proof. unfold all_ranges. rewrite list_elem_of_bind. naive_solver. Qed.

Lemma elem_of_all_lists s c :
  geometry_ok s → c ∈ all_lists s ↔ 0 ≤ c < cpus s ∨ c = SHARED_CPU.
Proof.
  intros Hgeo. unfold all_lists. rewrite elem_of_app, elem_of_seqZ, list_elem_of_singleton.
  intuition lia.
Qed.

Lemma covered_all s x : geometry_ok s → covered (all_ranges s) x ↔ block_free s x.
Proof.
  intros Hgeo. pose proof (geo_cpus s Hgeo). split.
  - intros (r&(c&Hc&Hr)%elem_of_all_ranges&Hx). exists c.
    apply elem_of_all_lists in Hc; [|done]. split; [unfold SHARED_CPU in *; lia|].
    apply covered_list. by exists r.
  - intros (c&Hc&(r&Hr&Hx)%covered_list). exists r. split; [|done].
    apply elem_of_all_ranges.
    exists (if decide (c < cpus s) then c else SHARED_CPU). rewrite elem_of_all_lists by done.
    case_decide; [split; [lia|done]|]. split; [by right|].
    unfold list_ranges, nova_get_free_list in *.
    rewrite decide_False in Hr by lia.
    by rewrite decide_False by (unfold SHARED_CPU in *; lia).
Qed.

(** ** The order of the ranges *)
Definition behind (s : nova_sb_info) (r r' : Z * Z) : Prop :=
  r.2 < r'.1 ∧ (cpu_of s r.1 = cpu_of s r'.1 → r.2 + 1 < r'.1).

Lemma list_sorted s g lb ub l :
  2 ≤ g → ranges_from g lb ub l → StronglySorted (behind s) (rng <$> l).
Proof.
  intros Hg. revert lb. induction l as [|n l IH]; intros lb; [constructor|].
  cbn [ranges_from]. intros (?&?&?&Hl). rewrite fmap_cons. constructor; [by eapply IH|].
  apply Forall_fmap, Forall_forall. intros n' Hn'.
  pose proof (ranges_from_in g _ _ _ n' ltac:(lia) Hl Hn'). unfold behind. cbn. lia.
Qed.

Lemma sorted_mono {A} (P Q : A → A → Prop) l :
  (∀ x y, P x y → Q x y) → StronglySorted P l → StronglySorted Q l.
Proof.
  intros HPQ. induction 1 as [|x l _ IH Hx]; constructor; [done|].
  by eapply Forall_impl; [|apply HPQ].
Qed.

Lemma seqZ_sorted a n : StronglySorted Z.lt (seqZ a (Z.of_nat n)).
Proof.
  revert a. induction n as [|n IH]; intros a; [constructor|].
  rewrite seqZ_cons by lia. replace (Z.pred (Z.of_nat (S n))) with (Z.of_nat n) by lia.
  constructor; [apply IH|]. apply Forall_forall. intros x Hx%elem_of_seqZ. lia.
Qed.

(** A range of list [c] lies in the share of [c]. *)
Lemma range_in_share w c r :
  balloc_ok w → shares_ok (w_sbi w) → c ∈ all_lists (w_sbi w) → r ∈ list_ranges (w_sbi w) c →
  reserved_blocks (w_sbi w) ≤ r.1 ≤ r.2 ∧ r.2 < num_blocks (w_sbi w) ∧
  cpu_of (w_sbi w) r.1 = c ∧ cpu_of (w_sbi w) r.2 = c.
Proof.
  intros Hok Hsh Hc Hr. pose proof (bo_geometry w Hok) as Hgeo.
  apply (elem_of_all_lists _ _ Hgeo) in Hc. pose proof (geo_cpus _ Hgeo) as Hcpus.
  change SHARED_CPU with 65536 in *.
  assert (0 ≤ c) as Hc0 by lia. apply list_elem_of_fmap in Hr as (n&->&Hn). cbn.
  pose proof (bo_lists w Hok c Hc0) as Hf.
  pose proof (ranges_from_in 2 _ _ _ n ltac:(lia) (fl_ranges _ _ _ Hf) Hn).
  assert (∀ x, range_low n ≤ x ≤ range_high n → cpu_of (w_sbi w) x = c) as Hx.
  { intros x Hx. assert (free_block (nova_get_free_list (w_sbi w) c) x) as Hfx.
    { apply Exists_exists. by exists n. }
    specialize (Hsh c x Hc0 Hfx). unfold same_list in Hsh.
    pose proof (get_cpuid_run _ x Hgeo ltac:(pose proof (geo_reserved _ Hgeo); lia)) as [_ ?].
    destruct Hsh as [<-|[??]]; [done|].
    assert (c = 65536) as -> by lia. unfold cpu_of in *. case_decide; [done|lia]. }
  split_and!; try lia; apply Hx; lia.
Qed.

Lemma all_ranges_sorted w :
  balloc_ok w → shares_ok (w_sbi w) → StronglySorted (behind (w_sbi w)) (all_ranges (w_sbi w)).
Proof.
  intros Hok Hsh. pose proof (bo_geometry w Hok) as Hgeo.
  destruct (geo_product _ Hgeo) as [Hper _]. pose proof (geo_cpus _ Hgeo) as Hcpus.
  change SHARED_CPU with 65536 in *.
  assert (∀ c c' r r', c ∈ all_lists (w_sbi w) → c' ∈ all_lists (w_sbi w) → c < c' →
    r ∈ list_ranges (w_sbi w) c → r' ∈ list_ranges (w_sbi w) c' → behind (w_sbi w) r r') as Hlt.
  { intros c c' r r' Hc Hc' Hcc Hr Hr'.
    destruct (range_in_share w c r Hok Hsh Hc Hr) as (?&?&E1&E2).
    destruct (range_in_share w c' r' Hok Hsh Hc' Hr') as (?&?&E1'&E2').
    split; [|intros; lia]. destruct (decide (r.2 < r'.1)); [done|].
    assert (r'.1 / per_list_blocks (w_sbi w) ≤ r.2 / per_list_blocks (w_sbi w)) as Hdiv
      by (apply Z.div_le_mono; lia).
    unfold cpu_of in *. change SHARED_CPU with 65536 in *. repeat case_decide; lia. }
  assert (∀ cs, StronglySorted Z.lt cs → (∀ c, c ∈ cs → c ∈ all_lists (w_sbi w)) →
    StronglySorted (behind (w_sbi w)) (cs ≫= list_ranges (w_sbi w))) as Hbind.
  { induction 1 as [|c cs Hcs IH Hall]; intros Hin; [constructor|]. rewrite bind_cons.
    apply StronglySorted_app. split_and!.
    - intros r r' Hr (c'&Hr'&Hc')%list_elem_of_bind.
      eapply (Hlt c c'); try done; [apply Hin; set_solver..|].
      by eapply Forall_forall in Hall.
    - assert (0 ≤ c) as Hc0.
      { pose proof (proj1 (elem_of_all_lists _ c Hgeo) (Hin c ltac:(set_solver))).
        change SHARED_CPU with 65536 in *. lia. }
      eapply (list_sorted _ 2); [lia|]. apply (fl_ranges _ _ _ (bo_lists w Hok c Hc0)).
    - apply IH. intros c' Hc'. apply Hin. set_solver. }
  apply Hbind; [|done]. unfold all_lists. apply StronglySorted_app. split_and!.
  - intros c c' Hc%elem_of_seqZ ->%list_elem_of_singleton. change SHARED_CPU with 65536. lia.
  - rewrite <- (Z2Nat.id (cpus (w_sbi w))) by lia. apply seqZ_sorted.
  - repeat constructor.
Qed.

(** ** Counting ranges *)
Lemma Zsum_mono {A} (f g : A → Z) (l : list A) :
  (∀ x, x ∈ l → f x ≤ g x) → Zsum (f <$> l) ≤ Zsum (g <$> l).
Proof.
  induction l as [|x l IH]; intros Hl; [done|]. rewrite !fmap_cons, !Zsum_cons.
  specialize (IH ltac:(set_solver)). specialize (Hl x ltac:(set_solver)). lia.
Qed.

Lemma length_list_ranges w c :
  balloc_ok w → 0 ≤ c →
  Z.of_nat (length (list_ranges (w_sbi w) c)) = num_blocknode (nova_get_free_list (w_sbi w) c) ∧
  num_blocknode (nova_get_free_list (w_sbi w) c) ≤
    num_free_blocks (nova_get_free_list (w_sbi w) c).
Proof.
  intros Hok Hc. destruct (bo_lists w Hok c Hc) as [[??] Hr _ _ -> ->].
  unfold list_ranges. rewrite length_fmap. split; [done|].
  by eapply (length_le_total 2); [lia|].
Qed.

Lemma all_ranges_sum w :
  balloc_ok w →
  Z.of_nat (length (all_ranges (w_sbi w))) =
  Zsum ((num_blocknode ∘ nova_get_free_list (w_sbi w)) <$> seqZ 0 (cpus (w_sbi w))) +
  num_blocknode (nova_get_free_list (w_sbi w) SHARED_CPU).
Proof.
  intros Hok. unfold all_ranges, all_lists. rewrite bind_app, length_app, bind_singleton.
  rewrite Nat2Z.inj_add, length_bind_sum.
  rewrite (proj1 (length_list_ranges w SHARED_CPU Hok ltac:(done))). do 2 f_equal.
  apply list_fmap_ext. intros i c Hi%list_elem_of_lookup_2%elem_of_seqZ.
  apply (length_list_ranges w c Hok). lia.
Qed.

Lemma all_ranges_bound w :
  balloc_ok w → Z.of_nat (length (all_ranges (w_sbi w))) ≤ num_blocks (w_sbi w).
Proof.
  intros Hok. rewrite (all_ranges_sum w Hok). pose proof (bo_geometry w Hok) as Hgeo.
  pose proof (count_free_bound w Hok) as Hb. rewrite (count_free_sum w Hok) in Hb.
  pose proof (geo_reserved _ Hgeo). pose proof (geo_cpus _ Hgeo).
  rewrite <- (get_lists _ Hgeo), <- list_fmap_compose in Hb.
  pose proof (Zsum_mono (num_blocknode ∘ nova_get_free_list (w_sbi w))
    (num_free_blocks ∘ nova_get_free_list (w_sbi w)) (seqZ 0 (cpus (w_sbi w)))) as Hm.
  destruct (length_list_ranges w SHARED_CPU Hok ltac:(done)) as [_ Hsh].
  assert (nova_get_free_list (w_sbi w) SHARED_CPU = shared_free_list (w_sbi w)) as Heq
    by (unfold nova_get_free_list; by rewrite decide_False by lia).
  rewrite Heq in *.
  assert (∀ c, c ∈ seqZ 0 (cpus (w_sbi w)) →
    (num_blocknode ∘ nova_get_free_list (w_sbi w)) c ≤
    (num_free_blocks ∘ nova_get_free_list (w_sbi w)) c) as Hl.
  { intros c Hc%elem_of_seqZ. apply (length_list_ranges w c Hok). lia. }
  specialize (Hm Hl). lia.
Qed.

(** The number the code computes from the counters of the lists. *)
Lemma num_blocknode_sum w :
  balloc_ok w →
  u64 (foldl (λ n i, u64 (n + num_blocknode (nova_get_free_list (w_sbi w) i))) 0
         (seqZ 0 (cpus (w_sbi w))) + num_blocknode (nova_get_free_list (w_sbi w) SHARED_CPU)) =
  Z.of_nat (length (all_ranges (w_sbi w))).
Proof.
  intros Hok. pose proof (all_ranges_bound w Hok) as Hb.
  pose proof (geo_blocks _ (bo_geometry w Hok)). pose proof (all_ranges_sum w Hok) as Hs.
  destruct (length_list_ranges w SHARED_CPU Hok ltac:(done)) as [Hn _].
  assert (Forall (λ i, 0 ≤ (num_blocknode ∘ nova_get_free_list (w_sbi w)) i)
    (seqZ 0 (cpus (w_sbi w)))) as Hnn.
  { apply Forall_forall. intros i Hi%elem_of_seqZ. cbn.
    rewrite <- (proj1 (length_list_ranges w i Hok ltac:(lia))). lia. }
  rewrite (foldl_u64_sum (num_blocknode ∘ nova_get_free_list (w_sbi w)));
    [|lia|done|lia].
  rewrite Z.add_0_l, <- Hs. apply wrap_small. lia.
Qed.

Lemma all_nodes_ranges w :
  balloc_ok w →
  length (all_nodes (w_sbi w)) =
  (length (all_ranges (w_sbi w)) + length (inode_maps (w_sbi w) ≫= map_nodes))%nat.
Proof.
  intros Hok. pose proof (bo_geometry w Hok) as Hgeo. pose proof (geo_cpus _ Hgeo).
  unfold all_nodes, all_ranges, all_lists.
  rewrite bind_app, bind_singleton, !length_app, Nat.add_assoc. f_equal. f_equal.
  - rewrite <- (get_lists _ Hgeo) at 1. apply Nat2Z.inj. rewrite !length_bind_sum.
    rewrite <- list_fmap_compose. f_equal. apply list_fmap_ext. intros i c _. cbn.
    unfold list_nodes, list_ranges. by rewrite !length_fmap.
  - unfold list_nodes, list_ranges, nova_get_free_list. rewrite decide_False by lia.
    by rewrite !length_fmap.
Qed.

(** ** Saving *)

(** The block-node inode. *)
Definition bn_inode : Z := nova_get_basic_inode NOVA_BLOCKNODE_INO.

(** The log of the block-node inode has the pages [bs] and the ranges [R]. *)
Record on_media (m : mem) (bs : list Z) (R : list (Z * Z)) : Prop := {
  om_pages : pages_ok bs;
  om_some : bs ≠ [];
  om_head : ld 8 m (bn_inode + nova_inode.log_head) = slot bs 0;
  om_tail : ld 8 m (bn_inode + nova_inode.log_tail) = after bs (length R);
  om_seg : log_seg m (slot bs 0) 0 bs;
  om_saved : saved m bs 0 R;
  om_room : (length R ≤ 254 * length bs)%nat;
  om_type : ld 1 m (bn_inode + nova_inode.i_blk_type) = NOVA_BLOCK_TYPE_4K
}.

(** The ranges [R] are the free blocks of [w] but [bs], in order. *)
Record ranges_of (w : world) (bs : list Z) (R : list (Z * Z)) : Prop := {
  ro_pages b : b ∈ bs → block_free (w_sbi w) b;
  ro_set x : covered R x ↔ block_free (w_sbi w) x ∧ x ∉ bs;
  ro_sorted : StronglySorted (behind (w_sbi w)) R;
  ro_bounds r : r ∈ R →
    reserved_blocks (w_sbi w) ≤ r.1 ≤ r.2 ∧ r.2 < num_blocks (w_sbi w);
  ro_length : Z.of_nat (length R) ≤ num_blocks (w_sbi w)
}.

Section save.
Context `{RbTreeLaws} `{EnvLaws}.

Lemma range_pages_spec n :
  1 ≤ n → 1 ≤ range_pages n ≤ n / 254 + 1 ∧ n ≤ 254 * range_pages n.
Proof.
  intros Hn. unfold range_pages, RANGENODE_PER_PAGE.
  pose proof (Z.div_mod n 254 ltac:(lia)). pose proof (Z.mod_pos_bound n 254 ltac:(lia)).
  case_decide; lia.
Qed.

Lemma allocate_no_pages w pi :
  nova_allocate_inode_log_pages pi 0 w = Done ((- EINVAL, None), w).
Proof. done. Qed.

(** After the pages [bs] were taken, the lists of [w1] are what is saved. *)
Lemma gone_ranges w w1 bs :
  balloc_ok w → shares_ok (w_sbi w) → blocks_gone w w1 bs →
  ranges_of w bs (all_ranges (w_sbi w1)) ∧
  (length (all_ranges (w_sbi w1)) ≤ length (all_ranges (w_sbi w)))%nat.
Proof.
  intros Hok Hsh Hg. pose proof Hg as [Hok1 _ Hfree Hset _ (Hgeo&Hmaps&_) Hlist Hnodes].
  assert (∀ b, cpu_of (w_sbi w1) b = cpu_of (w_sbi w) b) as Hcpu
    by (intros; by apply cpu_of_geometry).
  assert (shares_ok (w_sbi w1)) as Hsh1.
  { intros c b Hc Hb%Hlist; [|done]. specialize (Hsh c b Hc Hb).
    rewrite Hcpu. unfold same_list in *. by rewrite (proj1 Hgeo). }
  assert (length (all_ranges (w_sbi w1)) ≤ length (all_ranges (w_sbi w)))%nat as Hlen.
  { pose proof (all_nodes_ranges w Hok) as E. pose proof (all_nodes_ranges w1 Hok1) as E1.
    rewrite Hmaps in E1. lia. }
  split; [|done]. pose proof (all_ranges_bound w Hok). split; [done| | | |lia].
  - intros x. rewrite covered_all by apply Hok1. apply Hset.
  - pose proof (all_ranges_sorted w1 Hok1 Hsh1) as Hs.
    eapply sorted_mono; [|exact Hs]. intros r r' [??].
    split; [done|]. by rewrite <- !Hcpu.
  - intros r (c&Hc&Hr)%elem_of_all_ranges.
    destruct (range_in_share w1 c r Hok1 Hsh1 Hc Hr) as (?&?&_).
    destruct Hgeo as (_&_&<-&<-). done.
Qed.

Lemma lists_saveable w c : balloc_ok w → 0 ≤ c → list_saveable (nova_get_free_list (w_sbi w) c).
Proof.
  intros Hok Hc. destruct (bo_lists w Hok c Hc) as [[??] Hr Hnd _ _ _]. split; [done|].
  apply Forall_forall. intros n Hn.
  pose proof (ranges_from_in 2 _ _ _ n ltac:(lia) Hr Hn). split; lia.
Qed.

(** Writing all lists, one behind the other. *)
Lemma save_all_run w p bs :
  balloc_ok w → log_seg (vis (w_nvmm w)) p 0 bs → pages_ok bs →
  (length (all_ranges (w_sbi w)) ≤ 254 * length bs)%nat →
  ∃ w', (temp_tail ← fold_tail nova_save_free_list_blocknodes (seqZ 0 (cpus (w_sbi w)))
           (after bs 0);
         nova_save_free_list_blocknodes SHARED_CPU temp_tail) w
      = Done (after bs (length (all_ranges (w_sbi w))), w') ∧
    wrote bs 0 (all_ranges (w_sbi w)) (vis (w_nvmm w)) (vis (w_nvmm w')).
Proof.
  intros Hok Hseg Hbs Hlen. pose proof (bo_geometry w Hok) as Hgeo.
  pose proof (geo_cpus _ Hgeo). unfold all_ranges, all_lists in *.
  rewrite bind_app, bind_singleton, length_app in *.
  set (R1 := seqZ 0 (cpus (w_sbi w)) ≫= list_ranges (w_sbi w)) in *.
  destruct (save_lists_run (seqZ 0 (cpus (w_sbi w))) w p bs 0)
    as (w1&Hrun1&Hget&_&_&Hw1); try done.
  - intros c Hc%elem_of_seqZ. lia.
  - intros c Hc%elem_of_seqZ. apply lists_saveable; [done|lia].
  - apply NoDup_seqZ.
  - intros c Hc%elem_of_seqZ. lia.
  - fold R1. lia.
  - fold R1 in Hrun1, Hw1. rewrite (bind_run _ _ _ _ _ Hrun1).
    assert (nova_get_free_list (w_sbi w1) SHARED_CPU =
      nova_get_free_list (w_sbi w) SHARED_CPU) as Hsh.
    { apply Hget; [done|]. rewrite elem_of_seqZ. lia. }
    assert (list_ranges (w_sbi w1) SHARED_CPU = list_ranges (w_sbi w) SHARED_CPU) as Hr
      by (unfold list_ranges; by rewrite Hsh).
    destruct (save_list_run w1 p bs (length R1) SHARED_CPU) as (w2&f&Hrun2&_&_&Hw2); try done.
    + rewrite Hsh. by apply lists_saveable.
    + eapply wrote_log_seg; [done| |exact Hw1|done]. lia.
    + rewrite Hr. lia.
    + rewrite Hr in Hrun2, Hw2. exists w2. split; [done|].
      eapply wrote_app; [done|lia|exact Hw1|exact Hw2].
Qed.

(** The pages lie behind the inode. *)
Lemma slots_high bs i n x :
  pages_ok bs → (i + n ≤ 254 * length bs)%nat → in_slots bs i n x → 4096 ≤ x.
Proof.
  intros Hbs Hlen (k&Hk&Hx). destruct (slot_page bs k Hbs ltac:(lia)) as (b&_&?&?&_). lia.
Qed.

Lemma pages_of_gone w w1 bs :
  balloc_ok w → blocks_gone w w1 bs → pages_ok bs.
Proof.
  intros Hok Hg. split; [apply Hg|]. intros b Hb.
  pose proof (block_free_bounds w b Hok (bg_free _ _ _ Hg b Hb)).
  pose proof (geo_reserved _ (bo_geometry w Hok)). pose proof (geo_blocks _ (bo_geometry w Hok)).
  lia.
Qed.

(** From the new log head on, when the pages [b :: bs] are there. *)
Lemma save_into_run w b bs :
  balloc_ok w → pages_ok (b :: bs) →
  log_seg (vis (w_nvmm w)) (b * 4096) 0 (b :: bs) →
  ld 1 (vis (w_nvmm w)) (bn_inode + nova_inode.i_blk_type) = NOVA_BLOCK_TYPE_4K →
  (length (all_ranges (w_sbi w)) ≤ 254 * length (b :: bs))%nat →
  ∃ w', (store 8 (bn_inode + nova_inode.log_head) (b * 4096) ;;
         flush_buffer (bn_inode + nova_inode.log_head) CACHELINE_SIZE false ;;
         temp_tail ← fold_tail nova_save_free_list_blocknodes (seqZ 0 (cpus (w_sbi w)))
           (b * 4096);
         temp_tail ← nova_save_free_list_blocknodes SHARED_CPU temp_tail;
         nova_update_tail bn_inode temp_tail) w = Done ((), w') ∧
    on_media (vis (w_nvmm w')) (b :: bs) (all_ranges (w_sbi w)).
Proof.
  intros Hok Hbs Hseg Hty Hlen. run. set (w1 := set_nvmm _ _).
  assert (slot (b :: bs) 0 = b * 4096) as Hs0 by apply slot_0.
  assert (∀ x, 4096 ≤ x → ld8 (vis (w_nvmm w1)) x = ld8 (vis (w_nvmm w)) x) as H1x.
  { intros x Hx. cbn. apply ld8_st_bytes_out. rewrite length_le_split.
    change (bn_inode + nova_inode.log_head) with 1352. lia. }
  destruct (proj2 Hbs b ltac:(set_solver)) as [Hb0 Hb1].
  assert (log_seg (vis (w_nvmm w1)) (b * 4096) 0 (b :: bs)) as Hseg1.
  { eapply log_seg_frame; [|done]. intros c Hc. apply ld_frame. intros x Hx. apply H1x.
    pose proof (proj2 Hbs c Hc). rewrite next_field_eq in Hx. lia. }
  destruct (save_all_run w1 (b * 4096) (b :: bs)) as (w2&Hrun2&Hw2); try done.
  { by apply (balloc_ok_same w). }
  change (w_sbi w1) with (w_sbi w) in *. cbn [after] in Hrun2. rewrite Hs0 in Hrun2.
  rewrite <- bind_assoc, (bind_run _ _ _ _ _ Hrun2). unfold nova_update_tail. run.
  eexists. split; [reflexivity|]. cbn [w_nvmm set_nvmm]. rewrite vis_flush.
  cbn [vis nvmm_write apply_write PERSISTENT_BARRIER].
  change (bn_inode + nova_inode.log_tail) with 1360 in *.
  set (tl := after _ _). set (m := st_bytes _ _ _).
  assert (∀ x, 4096 ≤ x → ld8 m x = ld8 (vis (w_nvmm w2)) x) as Hmx.
  { intros x Hx. apply ld8_st_bytes_out. rewrite length_le_split. lia. }
  assert (∀ n x, x + Z.of_nat n ≤ 1360 → ld n m x = ld n (vis (w_nvmm w1)) x) as Hml.
  { intros n x Hx. unfold m. rewrite ld_st_bytes_out by lia. apply ld_frame. intros y Hy.
    apply (wr_same _ _ _ _ _ Hw2). intros Hin%slots_high; [lia|done|done]. }
  assert (0 ≤ tl < 2 ^ 64) as Htl.
  { unfold tl. destruct (length (all_ranges (w_sbi w))) as [|k] eqn:Hk; cbn [after]; [lia|].
    destruct (slot_page _ k Hbs ltac:(lia)) as (c&_&?&->&?). lia. }
  split; try done; rewrite ?Hs0.
  - change (bn_inode + nova_inode.log_head) with 1352 in *. rewrite Hml by lia.
    cbn -[ld st_bytes]. rewrite ld_st. apply Z.mod_small. lia.
  - unfold m. rewrite ld_st. by apply Z.mod_small.
  - eapply log_seg_frame; [|eapply (wrote_log_seg _ 0); [done| |exact Hw2|exact Hseg1]]; [|done].
    intros c Hc. apply ld_frame. intros x Hx. apply Hmx.
    pose proof (proj2 Hbs c Hc). rewrite next_field_eq in Hx. lia.
  - intros k r Hk. pose proof (lookup_lt_Some _ _ _ Hk).
    destruct (slot_page _ (0 + k) Hbs ltac:(lia)) as (c&_&?&Hs&_).
    destruct (wr_saved _ _ _ _ _ Hw2 k r Hk) as [<- <-].
    split; apply ld_frame; intros x Hx; apply Hmx; lia.
  - change (bn_inode + nova_inode.i_blk_type) with 1283 in *. rewrite Hml by lia.
    rewrite <- Hty. apply ld_frame. intros x Hx. cbn -[ld8 st_bytes].
    apply ld8_st_bytes_out. change (bn_inode + nova_inode.log_head) with 1352. lia.
Qed.

(** The log head and tail in memory [m] are those in [m0]: nothing was saved. *)
Definition not_saved (m0 m : mem) : Prop :=
  ld 8 m (bn_inode + nova_inode.log_head) = ld 8 m0 (bn_inode + nova_inode.log_head) ∧
  ld 8 m (bn_inode + nova_inode.log_tail) = ld 8 m0 (bn_inode + nova_inode.log_tail).

Lemma save_run w :
  balloc_ok w → shares_ok (w_sbi w) → num_blocks (w_sbi w) < 2 ^ 27 →
  ld 1 (vis (w_nvmm w)) (bn_inode + nova_inode.i_blk_type) = NOVA_BLOCK_TYPE_4K →
  ∃ w1, nova_save_blocknode_mappings_to_log w = Done ((), w1) ∧
    (not_saved (vis (w_nvmm w)) (vis (w_nvmm w1)) ∨
     ∃ bs R, on_media (vis (w_nvmm w1)) bs R ∧ ranges_of w bs R).
Proof.
  intros Hok Hsh Hnb Hty. pose proof (all_ranges_bound w Hok) as HN.
  unfold nova_save_blocknode_mappings_to_log.
  change (nova_get_inode_by_ino NOVA_BLOCKNODE_INO) with (Some bn_inode). run.
  rewrite (num_blocknode_sum w Hok). set (N := Z.of_nat (length (all_ranges (w_sbi w)))) in *.
  destruct (decide (N = 0)) as [HN0|HN0].
  { exists w. rewrite HN0. change (range_pages 0) with 0.
    rewrite (bind_run _ _ _ _ _ (allocate_no_pages w bn_inode)). by split; [|left]. }
  destruct (range_pages_spec N ltac:(lia)) as [Hp1 Hp2]. set (n := range_pages N) in *.
  assert (n < 2 ^ 20).
  { pose proof (Z.div_le_mono N (2 ^ 27) 254 ltac:(lia) ltac:(lia)).
    change (2 ^ 27 / 254) with 528416 in *. lia. }
  destruct (allocate_pages_run w bn_inode n Hok ltac:(lia) ltac:(lia) Hty)
    as [Hno|(b&bs&w1&Hrun&Hk&Hg&Hseg&Hfr&Hbs)].
  { rewrite (bind_run _ _ _ _ _ Hno). exists (next_tick w).
    rewrite decide_True by (change (u64 (- ENOSPC)) with (2 ^ 64 - 28); lia).
    by split; [|left]. }
  rewrite (bind_run _ _ _ _ _ Hrun), (wrap_small 64) by lia.
  pose proof (pages_of_gone _ _ _ Hok Hg) as Hpg.
  assert (∀ m x, x + Z.of_nat m ≤ 4096 → ld m (vis (w_nvmm w1)) x = ld m (vis (w_nvmm w)) x)
    as Hlow.
  { intros m x Hx. apply ld_frame. intros y Hy. apply Hfr. intros (c&Hc&Hcy).
    pose proof (Hbs c Hc). rewrite next_field_eq in Hcy. lia. }
  case_decide as Hlen.
  { exists w1. split; [done|]. left. split; apply Hlow; done. }
  destruct (gone_ranges w w1 (b :: bs) Hok Hsh Hg) as [Hro Hle].
  rewrite bind_get_time, bind_store, bind_flush. set (w2 := set_nvmm _ _).
  assert (∀ x, 56 ≤ x → ld8 (vis (w_nvmm w2)) x = ld8 (vis (w_nvmm w1)) x) as Hw2.
  { intros x Hx. cbn -[ld8 st_bytes]. apply ld8_st_bytes_out. rewrite length_le_split.
    change nova_super_block.s_wtime with 52. lia. }
  assert (cpus (w_sbi w) = cpus (w_sbi w2)) as Hcp.
  { by destruct Hg as [_ _ _ _ _ ((Hc&_)&_) _ _]. }
  cbn [from_option id]. rewrite Hcp.
  destruct (save_into_run w2 b bs) as (w3&Hrun3&Hom); try done.
  - apply (balloc_ok_same w1); [done|done|apply Hg].
  - eapply log_seg_frame; [|exact Hseg]. intros c Hc. apply ld_frame. intros x Hx. apply Hw2.
    pose proof (Hbs c Hc). rewrite next_field_eq in Hx. lia.
  - rewrite <- Hty, <- Hlow by done. apply ld_frame. intros x Hx. apply Hw2.
    change (bn_inode + nova_inode.i_blk_type) with 1283 in *. lia.
  - change (w_sbi w2) with (w_sbi w1). lia.
  - exists w3. split; [|right; exists (b :: bs); eauto]. exact Hrun3.
Qed.
End save.

(** ** Loading *)
Lemma after_inj bs i j :
  pages_ok bs → (i < j)%nat → (j ≤ 254 * length bs)%nat → after bs i ≠ after bs j.
Proof.
  intros Hbs Hij Hj. destruct j as [|j]; [lia|]. cbn [after].
  destruct (slot_page bs j Hbs ltac:(lia)) as (c&_&Hc&Ej&?).
  destruct i as [|i]; cbn [after].
  - destruct (slot_page bs 0 Hbs ltac:(lia)) as (b&_&Hb&E0&_). rewrite E0, Ej.
    change (Z.of_nat (0 mod 254)) with 0. lia.
  - destruct (slot_apart bs i j Hbs); lia.
Qed.

Section load.
Context `{RbTreeLaws} `{EnvLaws}.
Context (Hslab : ∀ t live, is_Some (kmem_cache_alloc t live)).

(** The list after one pass of the loop, written as in the loop. *)
Lemma load_form lb ub f p t low high :
  fl_ok lb ub f → 0 ≤ high - low + 1 < 2 ^ 64 →
  (let f1 := set_num_node (u64 (num_blocknode f + 1)) (set_tree t f) in
   let f1 := if decide (num_blocknode f1 = 1) then set_first (Some p) f1 else f1 in
   set_num_free (u64 (num_free_blocks f1 + (high - low + 1))) f1) = appended f p t low high.
Proof.
  intros Hf Hr. pose proof Hf as [_ _ _ Hfirst _ Hnode].
  destruct (fl_ok_counts _ _ _ Hf) as [Hc1 Hc2]. unfold appended. cbv zeta.
  rewrite (wrap_small 64 (high - low + 1)) by lia.
  assert (first_node (set_tree t f) = first_node f) as -> by done. rewrite Hfirst.
  destruct (nodes_of f) as [|n l]; cbn [head fmap option_fmap option_map length] in *.
  - cbn [num_blocknode set_num_node set_tree set_first]. rewrite Hnode.
    change (u64 (Z.of_nat 0 + 1)) with 1. rewrite decide_True by done. done.
  - rewrite decide_False; [done|]. cbn [num_blocknode set_num_node].
    destruct (decide (num_blocknode f + 1 < 2 ^ 64)); [rewrite wrap_small; lia|].
    replace (num_blocknode f + 1) with (2 ^ 64) by lia. done.
Qed.

(** The lists hold the ranges [pre], each in the list of its first block. *)
Record loaded (s0 : nova_sb_info) (pre : list (Z * Z)) (w : world) : Prop := {
  ld_ok : balloc_ok w;
  ld_geometry : same_geometry s0 (w_sbi w);
  ld_nodes c n : 0 ≤ c → n ∈ nodes_of (nova_get_free_list (w_sbi w) c) →
    rng n ∈ pre ∧ same_list s0 c (cpu_of s0 (range_low n));
  ld_set x : block_free (w_sbi w) x ↔ covered pre x
}.

Lemma load_insert s0 pre w r q :
  loaded s0 pre w → (∀ r', r' ∈ pre → behind s0 r' r) → q ∉ w_live w →
  reserved_blocks s0 ≤ r.1 ≤ r.2 → r.2 < num_blocks s0 →
  let c := cpu_of s0 r.1 in let f := nova_get_free_list (w_sbi w) c in
  get_cpuid (w_sbi w) r.1 = Some c ∧ 0 ≤ c ∧
  ∃ t, nova_insert_range_node (block_free_tree f) (RangeNode q r.1 r.2) = (0, t) ∧
    loaded s0 (pre ++ [r]) (set_sbi (put_free_list c (appended f q t r.1 r.2) (w_sbi w))
                              (set_live ({[q]} ∪ w_live w) (next_tick w))).
Proof.
  intros [Hok Hg Hnodes Hset] Hpre Hq Hr1 Hr2 c f.
  pose proof (bo_geometry w Hok) as Hgeo. pose proof (geo_reserved _ Hgeo).
  pose proof Hg as (Ec&Ep&En&Er).
  assert (∀ b, cpu_of (w_sbi w) b = cpu_of s0 b) as Hcpu by (intros; by apply cpu_of_geometry).
  assert (∀ c1 c2, same_list s0 c1 c2 ↔ same_list (w_sbi w) c1 c2) as Hsl
    by (intros; unfold same_list; by rewrite Ec).
  destruct (get_cpuid_run (w_sbi w) r.1 Hgeo ltac:(lia)) as [Hget Hc0].
  rewrite Hcpu in Hget, Hc0. fold c in Hget, Hc0. split; [done|]. split; [done|].
  assert (∀ n, n ∈ nodes_of f → range_high n + 1 < r.1) as Hbelow.
  { intros n Hn. destruct (Hnodes c n Hc0 Hn) as [Hp Hs]. destruct (Hpre _ Hp) as [_ Hgap].
    apply Hgap. cbn. apply Hsl in Hs. unfold c in Hs. rewrite <- !Hcpu in Hs |- *.
    by apply same_list_cpu. }
  assert (∀ x, r.1 ≤ x ≤ r.2 → ¬ block_free (w_sbi w) x) as Hnf.
  { intros x Hx (r'&Hr'&Hx')%Hset. destruct (Hpre r' Hr'). lia. }
  destruct (append_list Hslab w c q r.1 r.2) as (t&Ht&Hok'&Hn'&_&_&Hset'); try done; try lia.
  fold f in Ht, Hok', Hn', Hset'. exists t. split; [done|]. split; [done| | |].
  - destruct (put_geometry (w_sbi w) c (appended f q t r.1 r.2)) as (?&?&?&?).
    cbn. repeat split; congruence.
  - intros c' n Hc' Hn. cbn [w_sbi set_sbi] in Hn.
    destruct (get_put _ Hgeo c (appended f q t r.1 r.2) c' Hc0 Hc') as [[Hs E]|[Hs E]];
      rewrite E in Hn; [|destruct (Hnodes c' n Hc' Hn); split; [set_solver|done]].
    rewrite Hn' in Hn. apply elem_of_app in Hn as [Hn| ->%list_elem_of_singleton].
    + unfold f in Hn. rewrite (get_same _ _ _ Hs) in Hn.
      destruct (Hnodes c' n Hc' Hn). split; [set_solver|done].
    + split; [|cbn; fold c; apply Hsl; unfold same_list in *; intuition lia].
      destruct r. set_solver.
  - intros x. rewrite Hset', Hset, covered_app, covered_singleton. done.
Qed.

Lemma load_loop_run s0 p bs rs : ∀ fuel w pre i,
  loaded s0 pre w →
  log_seg (vis (w_nvmm w)) p 0 bs → pages_ok bs → saved (vis (w_nvmm w)) bs i rs →
  (i + length rs ≤ 254 * length bs)%nat →
  ld 8 (vis (w_nvmm w)) (bn_inode + nova_inode.log_tail) = after bs (i + length rs) →
  (length rs < fuel)%nat → StronglySorted (behind s0) (pre ++ rs) →
  (∀ r, r ∈ rs → reserved_blocks s0 ≤ r.1 ≤ r.2 ∧ r.2 < num_blocks s0) →
  ∃ w', load_blocks_loop fuel bn_inode (after bs i) w = Done (0, w') ∧
    loaded s0 (pre ++ rs) w' ∧ w_nvmm w' = w_nvmm w.
Proof.
  induction rs as [|r rs IH]; intros fuel w pre i Hld Hseg Hbs Hsv Hlen Htail Hfuel
    Hsort Hbnd; (destruct fuel as [|fuel]; [cbn in Hfuel; lia|]);
    cbn [load_blocks_loop length] in *; run; rewrite Htail.
  { rewrite decide_True by (by rewrite Nat.add_0_r). exists w. by rewrite app_nil_r. }
  rewrite decide_False by (apply after_inj; [done|lia|lia]).
  rewrite (bind_run _ _ _ _ _ (position_run w p bs i Hseg Hbs ltac:(lia))).
  destruct (after_step _ _ _ i Hseg Hbs ltac:(lia)) as (_&Hsl&_).
  destruct (slot_page bs i Hbs ltac:(lia)) as (b&_&Hb&Esl&Hmod).
  rewrite decide_False by lia. rewrite bind_block_ptr by lia. run.
  destruct (Hslab (w_tick w) (w_live w)) as [q Hq]. rewrite Hq. run.
  apply kmem_cache_alloc_fresh in Hq as [Hfresh _].
  cbn [set_live next_tick set_tick w_sbi w_nvmm].
  destruct (Hsv 0%nat r eq_refl) as [Hlo Hhi]. rewrite Nat.add_0_r in Hlo, Hhi.
  unfold lowhigh.range_low, lowhigh.range_high. rewrite Z.add_0_r, Hlo, Hhi.
  destruct (Hbnd r ltac:(left)) as [Hr1 Hr2].
  assert (∀ r', r' ∈ pre → behind s0 r' r) as Hpre.
  { intros r' Hr'. eapply StronglySorted_app_1_elem_of; [exact Hsort|done|left]. }
  destruct (load_insert s0 pre w r q Hld Hpre Hfresh Hr1 Hr2) as (Hcpu&Hc0&t&Ht&Hld').
  set (c := cpu_of s0 r.1) in *. rewrite Hcpu. run. rewrite decide_False by lia.
  rewrite Ht. cbn [decide]. rewrite decide_False by lia.
  pose proof (bo_lists w (ld_ok _ _ _ Hld) c Hc0) as Hf. destruct (ld_geometry _ _ _ Hld) as (_&_&En&Er).
  pose proof (geo_blocks _ (bo_geometry w (ld_ok _ _ _ Hld))).
  pose proof (geo_reserved _ (bo_geometry w (ld_ok _ _ _ Hld))).
  pose proof (load_form _ _ _ q t r.1 r.2 Hf ltac:(lia)) as Hform. cbv zeta in Hform.
  rewrite Hform. unfold update_free_list. run. change sizeof_range_node_lowhigh with 16.
  rewrite (wrap_small 64) by lia. fold (after bs (S i)).
  match goal with |- context [load_blocks_loop fuel _ _ ?w1] =>
    destruct (IH fuel w1 (pre ++ [r]) (S i)) as (w'&Hrun&Hld''&Hm); try done end.
  - intros k r' Hk. replace (S i + k)%nat with (i + S k)%nat by lia. by apply Hsv.
  - lia.
  - cbn [w_nvmm set_sbi set_live next_tick set_tick]. rewrite Htail. f_equal. lia.
  - lia.
  - by rewrite <- app_assoc.
  - intros r' Hr'. apply Hbnd. by right.
  - exists w'. rewrite <- app_assoc in Hld''. done.
Qed.

Lemma restore_run w w2 bs R :
  balloc_ok w → num_blocks (w_sbi w) < 2 ^ 27 → ranges_of w bs R →
  on_media (vis (w_nvmm w2)) bs R → fresh_lists w2 →
  num_blocks (w_sbi w2) = num_blocks (w_sbi w) → cpus (w_sbi w2) = cpus (w_sbi w) →
  reserved_blocks (w_sbi w2) = reserved_blocks (w_sbi w) →
  ∃ w3, (nova_init_blockmap true ;; nova_init_blockmap_from_inode) w2 = Done (0, w3) ∧
    balloc_ok w3 ∧ (∀ b, block_free (w_sbi w3) b ↔ block_free (w_sbi w) b) ∧
    ld 8 (vis (w_nvmm w3)) (bn_inode + nova_inode.log_head) = 0 ∧
    ld 8 (vis (w_nvmm w3)) (bn_inode + nova_inode.log_tail) = 0.
Proof.
  intros Hok Hnb [Hpg Hset Hsort Hbnd HlR] [Hbs Hne Hhead Htail Hseg Hsv Hroom Hty] Hfresh En Ec Er.
  destruct (init_recovery Hslab w2 Hfresh) as (w3&Hrun3&Hok3&Hnil&_&En3&Ec3&Er3&Hm3).
  rewrite (bind_run _ _ _ _ _ Hrun3). unfold nova_init_blockmap_from_inode.
  change (nova_get_inode_by_ino NOVA_BLOCKNODE_INO) with (Some bn_inode). run. rewrite Hm3, Hhead.
  assert (0 < length bs)%nat by (destruct bs; [done|cbn; lia]).
  destruct (slot_page bs 0 Hbs ltac:(lia)) as (b0&_&Hb0&Es0&_).
  change (Z.of_nat (0 mod 254)) with 0 in Es0. rewrite decide_False by lia.
  assert (same_geometry (w_sbi w) (w_sbi w3)) as Hg.
  { split_and!; try congruence.
    rewrite (geo_per _ (bo_geometry w Hok)), (geo_per _ (bo_geometry w3 Hok3)). congruence. }
  destruct (load_loop_run (w_sbi w) (slot bs 0) bs R
    (S (Z.to_nat (num_blocks (w_sbi w3) * 4096))) w3 [] 0)
    as (w4&Hrun4&[Hok4 (Ec4&_&En4&Er4) _ Hset4]&Hm4); rewrite ?Hm3; try done.
  { split; try done.
    - intros c n Hc. rewrite (Hnil c Hc). set_solver.
    - intros x. split; [|intros (r&Hr&_); set_solver]. intros (c&Hc&Hx).
      unfold free_block in Hx. rewrite (Hnil c Hc) in Hx. by apply in_ranges_nil in Hx. }
  { lia. }
  run. cbn [after] in Hrun4. rewrite (bind_run _ _ _ _ _ Hrun4).
  destruct (free_inode_log_run w4 bn_inode (slot bs 0) (after bs (length R)) bs)
    as (w5&Hrun5&Hok5&Hh5&Ht5&_&Hall); rewrite ?Hm4, ?Hm3; try done; try lia.
  - destruct (length R) as [|k] eqn:Hk; cbn [after]; [lia|].
    destruct (slot_page bs k Hbs ltac:(lia)) as (b&_&?&->&_). lia.
  - apply Hbs.
  - intros b Hb. rewrite Er4, En4. split; [by apply (block_free_bounds w b Hok), Hpg|].
    intros [_ ?]%Hset4%Hset. done.
  - intros b Hb. pose proof (proj2 Hbs b Hb). left.
    change (bn_inode + nova_inode.sizeof) with 1372. lia.
  - rewrite (bind_run _ _ _ _ _ Hrun5). exists w5. split_and!; try done.
    intros b. rewrite (Hall Hslab b), Hset4. cbn [app]. rewrite Hset.
    split; [intros [[? _]|?]; auto|]. intros Hb.
    destruct (decide (b ∈ bs)); [by right|by left].
Qed.

(** C10. Unmounting and mounting again.  Saving the free lists at unmount always
    returns.  Either there was no room for the log, and head and tail of the
    log of the block-node inode are as before; or, for every later mount of
    the device on as many CPUs, starting with empty lists and with the memory
    the unmount has left, the log is read back without an error, its pages
    become free again, and the allocator is in its invariant with exactly the
    free blocks from before the unmount. *)
Theorem unmount_mount_roundtrip w :
  balloc_ok w → shares_ok (w_sbi w) → num_blocks (w_sbi w) < 2 ^ 27 →
  ld 1 (vis (w_nvmm w)) (bn_inode + nova_inode.i_blk_type) = NOVA_BLOCK_TYPE_4K →
  ∃ w1, nova_save_blocknode_mappings_to_log w = Done ((), w1) ∧
    (not_saved (vis (w_nvmm w)) (vis (w_nvmm w1)) ∨
     ∀ w2, fresh_lists w2 → vis (w_nvmm w2) = vis (w_nvmm w1) →
       num_blocks (w_sbi w2) = num_blocks (w_sbi w) → cpus (w_sbi w2) = cpus (w_sbi w) →
       reserved_blocks (w_sbi w2) = reserved_blocks (w_sbi w) →
       ∃ w3, (nova_init_blockmap true ;; nova_init_blockmap_from_inode) w2 = Done (0, w3) ∧
         balloc_ok w3 ∧ (∀ b, block_free (w_sbi w3) b ↔ block_free (w_sbi w) b) ∧
         ld 8 (vis (w_nvmm w3)) (bn_inode + nova_inode.log_head) = 0 ∧
         ld 8 (vis (w_nvmm w3)) (bn_inode + nova_inode.log_tail) = 0).
Proof.
  intros Hok Hsh Hnb Hty.
  destruct (save_run w Hok Hsh Hnb Hty) as (w1&Hrun&[Hno|(bs&R&Hom&Hro)]);
    exists w1; (split; [done|]); [by left|right].
  intros w2 Hfresh Hm En Ec Er. eapply restore_run; try done. by rewrite Hm.
Qed.
End load.

Section instances.
#[local] Existing Instances bst_rb bst_rb_laws env1 env1_laws.

(** The small device is unmounted and mounted again with new lists. *)
Lemma unmount_mount_roundtrip_witness :
  ∃ w1 w3, nova_save_blocknode_mappings_to_log small_world = Done ((), w1) ∧
    (nova_init_blockmap true ;; nova_init_blockmap_from_inode)
      (World (nvmm_boot (vis (w_nvmm w1))) (w_sbi new_world) ∅ 0 ∅ []) = Done (0, w3) ∧
    balloc_ok w3 ∧ ∀ b, block_free (w_sbi w3) b ↔ block_free small_sbi b.
Proof.
  destruct (unmount_mount_roundtrip (λ t live, ltac:(by eexists)) small_world)
    as (w1&Hrun&[Hno|Hmount]).
  - apply small_world_ok.
  - apply small_shares.
  - reflexivity.
  - reflexivity.
  - exfalso. destruct Hno as [Hno _].
    assert (match nova_save_blocknode_mappings_to_log small_world with
            | Done (_, w) => ld 8 (vis (w_nvmm w)) (bn_inode + nova_inode.log_head)
            | Halt _ => 0
            end = 3 * 4096) as Hhead by (vm_compute; reflexivity).
    rewrite Hrun, Hno in Hhead. vm_compute in Hhead. discriminate Hhead.
  - destruct (Hmount (World (nvmm_boot (vis (w_nvmm w1))) (w_sbi new_world) ∅ 0 ∅ []))
      as (w3&Hrun3&Hok&Hset&_).
    + split; cbn; try done; try lia; try apply NoDup_nil_2. intros p Hp. set_solver.
    + reflexivity.
    + reflexivity.
    + reflexivity.
    + reflexivity.
    + exists w1, w3. split; [exact Hrun|]. split; [exact Hrun3|]. split; [exact Hok|exact Hset].
Defined.
End instances.
