(* ===== verification/Module.v ===== *)
(** * The module, the inode cache and /proc (super.c, sysfs.c)

    What the module registers with the kernel and gives back: the two slab
    caches, the file system type, its directories in [/proc], and the inode
    objects, which are freed after a grace period. *)
From stdpp Require Import strings.
From S2P Require Import Prelude.

#[local] Open Scope Z_scope.

(** ** The kernel's side *)

(** A slab cache: the objects handed out. *)
Definition slab : Type := gset Z.

(** [None] for a cache is that it does not exist.  [leaked] are caches that
    were destroyed with objects still in use.  [rcu] holds the inodes whose
    callback waits, [proc] the entries below [/proc] by path. *)
Record kernel := Kernel {
  nova_range_node_cachep : option slab;
  nova_inode_cachep : option slab;
  leaked : bool;
  rcu : list Z;
  registered : bool;
  proc : gset (list string);
  nova_proc_root : option (list string);
  support_pcommit : bool;
  support_clwb : bool
}.

(** Which requests of the module the kernel grants. *)
Class Grants := {
  kmem_cache_create : string → bool;
  register_filesystem : Z;
  proc_mkdir : list string → bool;
  proc_create : list string → bool;
  arch_has_pcommit : bool;
  arch_has_clwb : bool
}.

Definition set_range_cache c k :=
  Kernel c (nova_inode_cachep k) (leaked k) (rcu k) (registered k) (proc k)
    (nova_proc_root k) (support_pcommit k) (support_clwb k).
Definition set_inode_cache c r k :=
  Kernel (nova_range_node_cachep k) c (leaked k) r (registered k) (proc k)
    (nova_proc_root k) (support_pcommit k) (support_clwb k).
Definition set_leaked b k :=
  Kernel (nova_range_node_cachep k) (nova_inode_cachep k) b (rcu k) (registered k) (proc k)
    (nova_proc_root k) (support_pcommit k) (support_clwb k).
Definition set_registered b k :=
  Kernel (nova_range_node_cachep k) (nova_inode_cachep k) (leaked k) (rcu k) b (proc k)
    (nova_proc_root k) (support_pcommit k) (support_clwb k).
Definition set_proc p root k :=
  Kernel (nova_range_node_cachep k) (nova_inode_cachep k) (leaked k) (rcu k) (registered k) p
    root (support_pcommit k) (support_clwb k).
Definition set_support p c k :=
  Kernel (nova_range_node_cachep k) (nova_inode_cachep k) (leaked k) (rcu k) (registered k)
    (proc k) (nova_proc_root k) p c.

(** Destroying a cache that is in use leaves its objects behind. *)
Definition in_use (c : option slab) : bool := bool_decide (default ∅ c ≠ ∅).

(** ** The inode cache *)

(** [kmem_cache_alloc] gives the object [p], or nothing. *)
Definition nova_alloc_inode (p : option Z) (k : kernel) : option Z * kernel :=
  match p, nova_inode_cachep k with
  | Some a, Some c => (Some a, set_inode_cache (Some ({[a]} ∪ c)) (rcu k) k)
  | _, _ => (None, k)
  end.
Definition nova_destroy_inode (a : Z) (k : kernel) : kernel :=
  set_inode_cache (nova_inode_cachep k) (rcu k ++ [a]) k.
Definition nova_i_callback (a : Z) (k : kernel) : kernel :=
  set_inode_cache ((λ c, c ∖ {[a]}) <$> nova_inode_cachep k) (rcu k) k.

(** All callbacks that wait are run, in order. *)
Definition rcu_barrier (k : kernel) : kernel :=
  set_inode_cache (nova_inode_cachep (foldl (flip nova_i_callback) k (rcu k))) [] k.

Definition destroy_inodecache (k : kernel) : kernel :=
  let k := rcu_barrier k in
  set_inode_cache None (rcu k) (set_leaked (leaked k || in_use (nova_inode_cachep k)) k).
Definition destroy_rangenode_cache (k : kernel) : kernel :=
  set_range_cache None (set_leaked (leaked k || in_use (nova_range_node_cachep k)) k).

(** ** Loading and unloading *)
Section module.
Context `{Grants}.

Definition init_rangenode_cache (k : kernel) : Z * kernel :=
  if kmem_cache_create "nova_range_node_cache" then (0, set_range_cache (Some ∅) k)
  else (- ENOMEM, set_range_cache None k).
Definition init_inodecache (k : kernel) : Z * kernel :=
  if kmem_cache_create "nova_inode_cache" then (0, set_inode_cache (Some ∅) (rcu k) k)
  else (- ENOMEM, set_inode_cache None (rcu k) k).

Definition proc_dirname : list string := ["fs"; "NOVA"].

(** [proc_mkdir(name, parent)]; [remove_proc_entry] of what is not there only
    warns. *)
Definition mkdir (path : list string) (k : kernel) : option (list string) * gset (list string) :=
  if proc_mkdir path then (Some path, {[path]} ∪ proc k) else (None, proc k).
Definition remove_proc_entry (path : list string) (k : kernel) : kernel :=
  set_proc (proc k ∖ {[path]}) (nova_proc_root k) k.

Definition init_nova_fs (k : kernel) : Z * kernel :=
  let k := set_support (support_pcommit k || arch_has_pcommit)
             (support_clwb k || arch_has_clwb) k in
  let '(root, p) := mkdir proc_dirname k in
  let k := set_proc p root k in
  let '(rc, k) := init_rangenode_cache k in
  if decide (rc ≠ 0) then (rc, k) else
  let '(rc, k) := init_inodecache k in
  if decide (rc ≠ 0) then (rc, destroy_rangenode_cache k) else
  let rc := register_filesystem in
  if decide (rc ≠ 0) then (rc, destroy_rangenode_cache (destroy_inodecache k))
  else (0, set_registered true k).

Definition exit_nova_fs (k : kernel) : kernel :=
  destroy_rangenode_cache (destroy_inodecache
    (remove_proc_entry proc_dirname (set_registered false k))).

(** ** The directory of a mount in /proc

    [s_proc] is null until the directory is made. *)
Definition child (parent : option (list string)) (name : string) : list string :=
  default [] parent ++ [name].

Definition nova_sysfs_init (disk_name : string) (k : kernel) : option (list string) * kernel :=
  let '(s_proc, p) := match nova_proc_root k with
                      | Some root => mkdir (root ++ [disk_name]) k
                      | None => (None, proc k)
                      end in
  let k := set_proc p (nova_proc_root k) k in
  match s_proc with
  | Some d => if proc_create (d ++ ["timing_stats"])
              then (s_proc, set_proc ({[d ++ ["timing_stats"]]} ∪ proc k) (nova_proc_root k) k)
              else (s_proc, k)
  | None => (None, k)
  end.

Definition nova_sysfs_exit (disk_name : string) (s_proc : option (list string))
    (k : kernel) : kernel :=
  remove_proc_entry (child (nova_proc_root k) disk_name)
    (remove_proc_entry (child s_proc "timing_stats") k).
End module.

(** ** Properties *)

(** Before the module is loaded. *)
Record unloaded (k : kernel) : Prop := {
  ul_range : nova_range_node_cachep k = None;
  ul_inode : nova_inode_cachep k = None;
  ul_rcu : rcu k = [];
  ul_registered : registered k = false
}.

Section theorems.
Context `{Grants}.

(** What may happen while the module is loaded: the VFS gets and gives back
    inodes, a grace period ends, range nodes come and go. *)
Inductive module_step : kernel → kernel → Prop :=
  | step_alloc_inode a k c :
      nova_inode_cachep k = Some c → a ∉ c →
      module_step k (nova_alloc_inode (Some a) k).2
  | step_destroy_inode a k c :
      nova_inode_cachep k = Some c → a ∈ c → a ∉ rcu k →
      module_step k (nova_destroy_inode a k)
  | step_callback a l k :
      rcu k = a :: l →
      module_step k (nova_i_callback a (set_inode_cache (nova_inode_cachep k) l k))
  | step_range_nodes c k :
      is_Some (nova_range_node_cachep k) → module_step k (set_range_cache (Some c) k)
  | step_sysfs_init disk k : module_step k (nova_sysfs_init disk k).2
  | step_sysfs_exit disk s_proc k : module_step k (nova_sysfs_exit disk s_proc k).

(** Loaded: every waiting callback frees an object that is in use, once. *)
Definition loaded (k : kernel) : Prop :=
  registered k = true ∧ is_Some (nova_range_node_cachep k) ∧ NoDup (rcu k) ∧
  ∃ c, nova_inode_cachep k = Some c ∧ list_to_set (rcu k) ⊆ c.

Lemma init_loaded k k' :
  unloaded k → init_nova_fs k = (0, k') → loaded k' ∧ leaked k' = leaked k.
Proof.
  intros [_ _ Hr _]. unfold init_nova_fs, mkdir, init_rangenode_cache, init_inodecache.
  repeat case_match; intros [= ?]; simplify_eq/=; try done.
  all: unfold loaded; cbn; rewrite Hr; split_and!; try done; [constructor|].
  all: eexists; split; [done|set_solver].
Qed.

Lemma step_loaded k k' :
  module_step k k' → loaded k → loaded k' ∧ leaked k' = leaked k.
Proof.
  unfold loaded. intros [a k1 c Hc Ha|a k1 c Hc Ha Hr|a l k1 Hr|c k1 Hs|disk k1|disk s k1]
    (Hreg&Hrange&Hnd&c'&Hc'&Hsub).
  - rewrite Hc in Hc'. injection Hc' as <-. unfold nova_alloc_inode. rewrite Hc. cbn.
    split_and!; try done. eexists. split; [done|]. set_solver.
  - rewrite Hc in Hc'. injection Hc' as <-. cbn. rewrite Hc. split_and!; try done.
    + apply NoDup_app. split_and!; [done|set_solver|apply NoDup_singleton].
    + eexists. split; [done|]. rewrite list_to_set_app_L. set_solver.
  - rewrite Hr in Hnd, Hsub. apply NoDup_cons in Hnd as [Ha Hnd]. cbn. rewrite Hc'.
    split_and!; try done. eexists. split; [done|]. set_solver.
  - cbn. split_and!; eauto.
  - unfold nova_sysfs_init, mkdir. repeat case_match; simplify_eq/=; split_and!; eauto.
  - cbn. split_and!; eauto.
Qed.

Lemma steps_loaded k k' :
  rtc module_step k k' → loaded k → loaded k' ∧ leaked k' = leaked k.
Proof.
  induction 1 as [|k1 k2 k3 Hs _ IH]; [done|]. intros Hl.
  destruct (step_loaded _ _ Hs Hl) as [Hl2 <-]. by apply IH.
Qed.

Lemma callbacks_inode_cache l k :
  nova_inode_cachep (foldl (flip nova_i_callback) k l) =
  (λ c, c ∖ list_to_set l) <$> nova_inode_cachep k.
Proof.
  revert k. induction l as [|a l IH]; intros k; cbn.
  - destruct (nova_inode_cachep k); cbn; [|done]. by rewrite difference_empty_L.
  - rewrite IH. cbn. destruct (nova_inode_cachep k); cbn; [|done].
    f_equal. by rewrite difference_difference_l_L.
Qed.


(** C40. A module that does not load.  When [init_nova_fs] fails it returns the
    error of the step that failed, and both caches and the registration are
    gone; the directory it made in [/proc] stays. *)
Theorem init_nova_fs_fails k rc k' :
  unloaded k → init_nova_fs k = (rc, k') → rc ≠ 0 →
  rc = (if kmem_cache_create "nova_range_node_cache" && kmem_cache_create "nova_inode_cache"
        then register_filesystem else - ENOMEM) ∧
  unloaded k' ∧ leaked k' = leaked k ∧
  proc k' = (if proc_mkdir proc_dirname then {[proc_dirname]} ∪ proc k else proc k).
Proof.
  intros [Hr Hi Hq Hreg] Hinit Hrc. revert Hinit.
  unfold init_nova_fs, mkdir, init_rangenode_cache, init_inodecache.
  repeat case_match; intros [= ? ?]; simplify_eq/=; try done.
  all: split_and!; try done; rewrite ?Hq; cbn; rewrite ?orb_false_r; done || (split; done || cbn).
Qed.
End theorems.

Section instances.
#[local] Instance grants1 : Grants := {|
  kmem_cache_create _ := true; register_filesystem := 0; proc_mkdir _ := true;
  proc_create _ := true; arch_has_pcommit := false; arch_has_clwb := true |}.
Definition fresh_kernel : kernel := Kernel None None false [] false ∅ None false false.
Definition used_kernel : kernel :=
  nova_destroy_inode 7 (nova_alloc_inode (Some 7) (init_nova_fs fresh_kernel).2).2.

Lemma fresh_unloaded : unloaded fresh_kernel.
Proof. done. Qed.

End instances.

Section failing.
#[local] Instance grants2 : Grants := {|
  kmem_cache_create n := bool_decide (n ≠ "nova_inode_cache"%string);
  register_filesystem := 0; proc_mkdir _ := true;
  proc_create _ := true; arch_has_pcommit := false; arch_has_clwb := true |}.

Lemma init_nova_fs_fails_witness :
  ∃ k', init_nova_fs fresh_kernel = (- ENOMEM, k') ∧ unloaded k' ∧
    proc k' = {[ ["fs"; "NOVA"] ]} ∪ ∅.
Proof.
  assert (init_nova_fs fresh_kernel = (- ENOMEM, (init_nova_fs fresh_kernel).2)) as Hinit
    by by vm_compute.
  destruct (init_nova_fs_fails fresh_kernel (- ENOMEM) _ fresh_unloaded Hinit)
    as (_&Hu&_&Hp); [done|].
  exists (init_nova_fs fresh_kernel).2. split; [exact Hinit|]. split; [exact Hu|exact Hp].
Defined.
End failing.
