(* ===== verification/Super.v ===== *)
(** * Mounting and unmounting (super.c, wprotect.h, nova.h)

    Mount options, formatting, the check of the super block against its
    redundant copy, mounting, [statfs], remounting, unmounting. *)
From stdpp Require Import strings.
From S2P Require Import Prelude Nvmm RangeTree Layout World Balloc Log FileTree Inode.
From S2P Require Import Journal InodeMap Dir Rebuild InodeCycle Bbuild Scan.

(** ** Parameters of the kernel

    [crc16] of lib/crc16.c; the parser of mount options of lib/parser.c (a
    token with its first argument); the mapping of user ids; the device, whose
    [direct_access] gives size and physical address; the machine. *)
Inductive opt_token :=
  | Opt_bpi | Opt_init | Opt_mode | Opt_uid | Opt_gid | Opt_blocksize | Opt_wprotect
  | Opt_err_cont | Opt_err_panic | Opt_err_ro | Opt_dbgmask | Opt_err.

Class Crc := { crc16 : Z → list Z → Z }.
Class Parser := {
  match_token : string → list (opt_token * option string) → opt_token * string;
  match_int : string → option Z;
  match_octal : string → option Z;
  make_kuid : Z → Z;
  make_kgid : Z → Z
}.
Class Machine := {
  num_online_cpus : Z;
  direct_access : option (Z * Z);
  virt_addr_ok : bool;
  get_random : N → Z;
  current_fsuid : Z;
  current_fsgid : Z;
  d_make_root : N → bool
}.

Definition MS_RDONLY : Z := 1.
Definition MS_POSIXACL : Z := 0x10000.
Definition MS_NOSEC : Z := 0x10000000.
Definition LONG_MAX : Z := 2 ^ 63 - 1.
Definition MAX_LFS_FILESIZE : Z := 2 ^ 63 - 1.

(** The fields of [struct super_block] the code uses, with the ones of
    [struct nova_sb_info] only this file uses and the global [nova_dbgmask]. *)
Record super_block := SuperBlock {
  s_blocksize : Z;
  s_blocksize_bits : Z;
  s_flags : Z;
  s_magic : Z;
  s_maxbytes : Z;
  s_root : option Z;
  phys_addr : Z;
  blocksize : Z;
  num_inodes : Z;
  nova_dbgmask : Z
}.

(** ** Options *)
Definition set_opt (o opt : Z) : Z := Z.lor o opt.
Definition clear_opt (o opt : Z) : Z := Z.land o (Z.lnot opt).
Definition test_opt (s : nova_sb_info) (opt : Z) : bool :=
  bool_decide (Z.land (s_mount_opt (mnt s)) opt ≠ 0).

Definition mnt_set_opt (o : Z) (m : mount_info) : mount_info :=
  MountInfo o (next_generation m) (sbi_mode m) (sbi_uid m) (sbi_gid m) (bpi m).

Definition tokens : list (opt_token * option string) :=
  [(Opt_bpi, Some "bpi=%u"%string); (Opt_init, Some "init"%string);
   (Opt_mode, Some "mode=%o"%string); (Opt_uid, Some "uid=%u"%string);
   (Opt_gid, Some "gid=%u"%string); (Opt_wprotect, Some "wprotect"%string);
   (Opt_err_cont, Some "errors=continue"%string);
   (Opt_err_panic, Some "errors=panic"%string);
   (Opt_err_ro, Some "errors=remount-ro"%string);
   (Opt_dbgmask, Some "dbgmask=%u"%string); (Opt_err, None)].

Definition comma : Ascii.ascii := Ascii.ascii_of_nat 44.

(** The pieces [strsep] cuts a string into at its commas: the first one and
    the others. *)
Fixpoint strsep (s : string) : string * list string :=
  match s with
  | EmptyString => (EmptyString, [])
  | String c s =>
      let '(p, l) := strsep s in
      if decide (c = comma) then (EmptyString, p :: l) else (String c p, l)
  end.

Section options.
Context `{Parser}.

(** One option: the new mount information and debug mask, [None] for a bad
    option or value. *)
Definition parse_option (p : string) (remount : bool) (m : mount_info) (dbgmask : Z)
  : option (mount_info * Z) :=
  let o := s_mount_opt m in
  match match_token p tokens with
  | (Opt_bpi, arg) =>
      if remount then None else
      n ← match_int arg;
      Some (MountInfo o (next_generation m) (sbi_mode m) (sbi_uid m) (sbi_gid m) (u64 n),
            dbgmask)
  | (Opt_uid, arg) =>
      if remount then None else
      n ← match_int arg;
      Some (MountInfo o (next_generation m) (sbi_mode m) (make_kuid n) (sbi_gid m) (bpi m),
            dbgmask)
  | (Opt_gid, arg) =>
      n ← match_int arg;
      Some (MountInfo o (next_generation m) (sbi_mode m) (sbi_uid m) (make_kgid n) (bpi m),
            dbgmask)
  | (Opt_mode, arg) =>
      n ← match_octal arg;
      Some (MountInfo o (next_generation m) (Z.land n 1023) (sbi_uid m) (sbi_gid m) (bpi m),
            dbgmask)
  | (Opt_init, _) =>
      if remount then None
      else Some (mnt_set_opt (set_opt o NOVA_MOUNT_FORMAT) m, dbgmask)
  | (Opt_err_panic, _) =>
      Some (mnt_set_opt (set_opt (clear_opt (clear_opt o NOVA_MOUNT_ERRORS_CONT)
                           NOVA_MOUNT_ERRORS_RO) NOVA_MOUNT_ERRORS_PANIC) m, dbgmask)
  | (Opt_err_ro, _) =>
      Some (mnt_set_opt (set_opt (clear_opt (clear_opt o NOVA_MOUNT_ERRORS_CONT)
                           NOVA_MOUNT_ERRORS_PANIC) NOVA_MOUNT_ERRORS_RO) m, dbgmask)
  | (Opt_err_cont, _) =>
      Some (mnt_set_opt (set_opt (clear_opt (clear_opt o NOVA_MOUNT_ERRORS_RO)
                           NOVA_MOUNT_ERRORS_PANIC) NOVA_MOUNT_ERRORS_CONT) m, dbgmask)
  | (Opt_wprotect, _) =>
      if remount then None
      else Some (mnt_set_opt (set_opt o NOVA_MOUNT_PROTECT) m, dbgmask)
  | (Opt_dbgmask, arg) => n ← match_int arg; Some (m, u32 n)
  | (Opt_blocksize, _) | (Opt_err, _) => None
  end.

(** What options before a bad one have set stays set. *)
Fixpoint parse_pieces (l : list string) (remount : bool) (m : mount_info) (dbgmask : Z)
  : Z * mount_info * Z :=
  match l with
  | [] => (0, m, dbgmask)
  | p :: l =>
    if decide (p = EmptyString) then parse_pieces l remount m dbgmask
    else match parse_option p remount m dbgmask with
         | None => (- EINVAL, m, dbgmask)
         | Some (m, dbgmask) => parse_pieces l remount m dbgmask
         end
  end.

Definition nova_parse_options (options : option string) (remount : bool)
    (m : mount_info) (dbgmask : Z) : Z * mount_info * Z :=
  match options with
  | None => (0, m, dbgmask)
  | Some s => let '(p, l) := strsep s in parse_pieces (p :: l) remount m dbgmask
  end.
End options.

(** [nova_error_mng]: [panic] or read-only from now on, after the message. *)
Definition nova_error_mng (s : nova_sb_info) (flags : Z) : outcome Z :=
  if test_opt s NOVA_MOUNT_ERRORS_PANIC then Halt HBug
  else if test_opt s NOVA_MOUNT_ERRORS_RO then Done (Z.lor flags MS_RDONLY)
  else Done flags.

(** ** Sizes *)

(** Block size and its logarithm; a size of 0 makes a shift by -1. *)
Definition nova_set_blocksize (size : Z) : outcome (Z * Z) :=
  if decide (u32 size = 0) then Halt HFault
  else let bits := Z.log2 (u32 size) in Done (s32 (Z.shiftl 1 bits), bits).

Definition nova_max_size : Z :=
  let res := Z.shiftl 1 63 - 1 in
  if decide (res > MAX_LFS_FILESIZE) then MAX_LFS_FILESIZE else res.

Definition nova_check_size (sb : super_block) (size : Z) : bool :=
  let minimum_size := Z.shiftl 2 (s_blocksize_bits sb) in
  let num_blocks :=
    if decide (num_inodes sb > 0)
    then Z.shiftr (num_inodes sb) (s_blocksize_bits sb - NOVA_INODE_BITS) + 1 else 1 in
  let minimum_size := u64 (minimum_size + Z.shiftl num_blocks (s_blocksize_bits sb)) in
  bool_decide (minimum_size ≤ size).

(** ** The super block *)
Section super.
Context `{RbTree} `{Env} `{Vfs} `{Crc} `{Parser} `{Machine}.

Definition nova_calc_checksum (data n : Z) : M bool :=
  bytes ← load_bytes (Z.to_nat (n - 2)) (data + 2);
  sum ← load 2 data;
  mret (bool_decide (sum ≠ crc16 0xFFFF bytes)).

Definition nova_sync_super (ps : Z) : M () :=
  t ← get_time;
  store 4 (ps + nova_super_block.s_wtime) t ;;
  store 2 (ps + nova_super_block.s_sum) 0 ;;
  bytes ← load_bytes (Z.to_nat (NOVA_SB_STATIC_SIZE - 2)) (ps + 2);
  store 2 (ps + nova_super_block.s_sum) (crc16 0xFFFF bytes) ;;
  copy ← load_bytes (Z.to_nat nova_super_block.sizeof) ps;
  write_mem Cached (WBytes (ps + NOVA_SB_SIZE) copy).

(** The repair from the redundant copy, the same in both places; the lock
    after it, [nova_memlock_super], computes the checksum again. *)
Definition repair_super (super super_redund : Z) : M () :=
  copy ← load_bytes (Z.to_nat nova_super_block.sizeof) super_redund;
  write_mem Cached (WBytes super copy) ;;
  nova_sync_super super ;;
  flush_buffer super nova_super_block.sizeof false ;;
  flush_buffer (super + NOVA_SB_SIZE) nova_super_block.sizeof false.

Definition check_static (super super_redund : Z) : M Z :=
  bad ← nova_calc_checksum super NOVA_SB_STATIC_SIZE;
  if (bad : bool) then
    bad ← nova_calc_checksum super_redund NOVA_SB_STATIC_SIZE;
    if (bad : bool) then mret 0 else repair_super super super_redund ;; mret 1
  else mret 1.

Definition nova_check_integrity (super : Z) : M Z :=
  let super_redund := super + NOVA_SB_SIZE in
  magic ← load 4 (super + nova_super_block.s_magic);
  if decide (magic ≠ NOVA_SUPER_MAGIC) then
    magic ← load 4 (super_redund + nova_super_block.s_magic);
    if decide (magic ≠ NOVA_SUPER_MAGIC) then mret 0 else
    repair_super super super_redund ;;
    check_static super super_redund
  else check_static super super_redund.

(** nova.h: one store of 1, 2, 4 or 8 bytes; another size stores nothing. *)
Definition nova_memcpy_atomic (dst src size : Z) : M () :=
  if decide (size = 1) then store 1 dst src
  else if decide (size = 2) then store 2 dst src
  else if decide (size = 4) then store 4 dst src
  else if decide (size = 8) then store 8 dst src
  else mret ().

(** Mount and write time in one atomic store. *)
Definition update_mount_time : M () :=
  t ← get_time;
  let mnt_write_time := Z.land t 0xFFFFFFFF in
  let mnt_write_time := Z.lor mnt_write_time (u64 (Z.shiftl mnt_write_time 32)) in
  nova_memcpy_atomic nova_super_block.s_mtime mnt_write_time 8 ;;
  flush_buffer nova_super_block.s_mtime 8 false ;;
  barrier.

(** ** Formatting *)
Definition init_root_inode (root_i : Z) (sb : super_block) : M () :=
  s ← get_sbi;
  store 2 (root_i + nova_inode.i_mode) (u16 (Z.lor (sbi_mode (mnt s)) S_IFDIR)) ;;
  store 4 (root_i + nova_inode.i_uid) (u32 (sbi_uid (mnt s))) ;;
  store 4 (root_i + nova_inode.i_gid) (u32 (sbi_gid (mnt s))) ;;
  store 2 (root_i + nova_inode.i_links_count) 2 ;;
  store 1 (root_i + nova_inode.i_blk_type) NOVA_BLOCK_TYPE_4K ;;
  store 4 (root_i + nova_inode.i_flags) 0 ;;
  store 8 (root_i + nova_inode.i_blocks) 1 ;;
  store 8 (root_i + nova_inode.i_size) (s_blocksize sb) ;;
  t ← get_time;
  store 4 (root_i + nova_inode.i_ctime) t ;;
  store 4 (root_i + nova_inode.i_mtime) t ;;
  store 4 (root_i + nova_inode.i_atime) t ;;
  store 8 (root_i + nova_inode.nova_ino) NOVA_ROOT_INO ;;
  store 1 (root_i + nova_inode.valid) 1 ;;
  flush_buffer root_i nova_inode.sizeof false.

Definition init_special_inode_number (ino : Z) : M () :=
  pi ← deref (nova_get_inode_by_ino ino);
  store 8 (pi + nova_inode.nova_ino) ino ;;
  flush_buffer pi CACHELINE_SIZE true.

(** Returns an error or the root inode, with the super block. *)
Definition nova_init (sb : super_block) (size : Z) : M ((Z + Z) * super_block) :=
  modify (λ w, set_sbi (set_num_blocks (Z.shiftr size PAGE_SHIFT) (w_sbi w)) w) ;;
  if negb virt_addr_ok then mret (inl (- EINVAL), sb) else
  r ← lift (nova_set_blocksize NOVA_DEF_BLOCK_SIZE_4K);
  let sb := SuperBlock r.1 r.2 (s_flags sb) (s_magic sb) (s_maxbytes sb) (s_root sb)
              (phys_addr sb) r.1 (num_inodes sb) (nova_dbgmask sb) in
  if negb (nova_check_size sb size) then mret (inl (- EINVAL), sb) else
  s ← get_sbi;
  let need := (NOVA_SB_SIZE * 4 + s_blocksize sb - 1) / s_blocksize sb in
  if decide (need > reserved_blocks s) then mret (inl (- EINVAL), sb) else
  memset_nt_zero 0 (u64 (reserved_blocks s * blocksize sb)) ;;
  store 8 nova_super_block.s_size size ;;
  store 4 nova_super_block.s_blocksize (s_blocksize sb) ;;
  store 4 nova_super_block.s_magic NOVA_SUPER_MAGIC ;;
  nova_init_blockmap false ;;
  ret ← nova_lite_journal_hard_init;
  if decide (ret < 0) then mret (inl (- EINVAL), sb) else
  ret ← nova_init_inode_inuse_list;
  if decide (ret < 0) then mret (inl (- EINVAL), sb) else
  ret ← nova_init_inode_table;
  if decide (ret < 0) then mret (inl (- EINVAL), sb) else
  init_special_inode_number NOVA_BLOCKNODE_INO ;;
  init_special_inode_number NOVA_INODELIST_INO ;;
  nova_sync_super 0 ;;
  flush_buffer 0 NOVA_SB_SIZE false ;;
  flush_buffer NOVA_SB_SIZE nova_super_block.sizeof false ;;
  root_i ← deref (nova_get_inode_by_ino NOVA_ROOT_INO);
  init_root_inode root_i sb ;;
  _ ← nova_append_dir_init_entries root_i NOVA_ROOT_INO NOVA_ROOT_INO;
  barrier ;;
  mret (inr root_i, sb).

(** ** Mounting *)
Definition zero_sbi : nova_sb_info :=
  SbInfo 0 0 0 0 0 0 0 [] [] zero_free_list zero_mount_info.
Definition zero_super : super_block := SuperBlock 0 0 0 0 0 None 0 0 0 0.

Definition set_default_opts (s : nova_sb_info) : nova_sb_info :=
  let o := set_opt (set_opt (s_mount_opt (mnt s)) NOVA_MOUNT_HUGEIOREMAP)
             NOVA_MOUNT_ERRORS_CONT in
  SbInfo (num_blocks s) (initsize s) (s_inodes_used_count s) RESERVED_BLOCKS
    num_online_cpus 0 (per_list_blocks s) (inode_maps s) (free_lists s)
    (shared_free_list s) (mnt_set_opt o (mnt s)).

(** Size and physical address of the device, or an error. *)
Definition nova_get_block_info : Z + Z * Z :=
  match direct_access with
  | None => inl (- EINVAL)
  | Some (size, phys) => if decide (size ≤ 0) then inl (- EINVAL) else inr (size, phys)
  end.

(** The end of a failed mount: everything is freed. *)
Definition mount_failed (retval : Z) (sb : super_block) : M (Z * super_block) :=
  modify (λ w, set_sbi zero_sbi w) ;; mret (retval, sb).

(** From the label [setup_sb]. *)
Definition setup_sb (order : list Z) (sb : super_block) : M (Z * super_block) :=
  magic ← load 4 nova_super_block.s_magic;
  let sb := SuperBlock (s_blocksize sb) (s_blocksize_bits sb)
              (Z.lor (s_flags sb) MS_NOSEC) magic nova_max_size (s_root sb)
              (phys_addr sb) (blocksize sb) (num_inodes sb) (nova_dbgmask sb) in
  s ← get_sbi;
  (if test_opt s NOVA_MOUNT_FORMAT then mret ()
   else _ ← nova_recovery order; mret ()) ;;
  root_i ← nova_iget NOVA_ROOT_INO;
  match root_i with
  | inl err => mount_failed err sb
  | inr root =>
    t ← gets w_tick;
    if negb (d_make_root t) then mount_failed (- ENOMEM) sb else
    let sb := SuperBlock (s_blocksize sb) (s_blocksize_bits sb) (s_flags sb)
                (s_magic sb) (s_maxbytes sb) (Some root) (phys_addr sb)
                (blocksize sb) (num_inodes sb) (nova_dbgmask sb) in
    (if decide (Z.land (s_flags sb) MS_RDONLY = 0) then update_mount_time
     else mret ()) ;;
    modify (λ w, let s := w_sbi w in
      set_sbi (set_mnt (mnt_set_opt
        (clear_opt (s_mount_opt (mnt s)) NOVA_MOUNT_MOUNTING) (mnt s)) s) w) ;;
    mret (0, sb)
  end.

(** Mounting an existing file system, up to [setup_sb]. *)
Definition mount_existing (order : list Z) (sb : super_block) : M (Z * super_block) :=
  ok ← nova_check_integrity 0;
  if decide (ok = 0) then mount_failed (- EINVAL) sb else
  ret ← nova_lite_journal_soft_init;
  if decide (ret ≠ 0) then mount_failed (- EINVAL) sb else
  size ← load 4 nova_super_block.s_blocksize;
  r ← lift (nova_set_blocksize size);
  setup_sb order (SuperBlock r.1 r.2 (s_flags sb) (s_magic sb) (s_maxbytes sb) (s_root sb)
                    (phys_addr sb) (blocksize sb) (num_inodes sb) (nova_dbgmask sb)).

(** [flags] are the [s_flags] of the new super block. *)
Definition nova_fill_super (order : list Z) (flags dbgmask : Z) (data : option string)
  : M (Z * super_block) :=
  let sb := SuperBlock 0 0 flags 0 0 None 0 0 0 dbgmask in
  ok ← try_kzalloc;
  if negb ok then mret (- ENOMEM, sb) else
  let s := set_default_opts zero_sbi in
  if decide (cpus s > 64) then mount_failed (- EINVAL) sb else
  match nova_get_block_info with
  | inl _ => mount_failed (- EINVAL) sb
  | inr (size, phys) =>
    t ← gets w_tick;
    let o := set_opt (clear_opt (set_opt (s_mount_opt (mnt s)) NOVA_MOUNT_DAX)
                        NOVA_MOUNT_PROTECT) NOVA_MOUNT_HUGEIOREMAP in
    let m := MountInfo o (u32 (get_random t)) 493 current_fsuid current_fsgid 0 in
    let sb := SuperBlock 0 0 flags 0 0 None phys 0 0 dbgmask in
    ok ← try_kzalloc;
    if negb ok then mount_failed (- ENOMEM) sb else
    ok ← try_kzalloc;
    if negb ok then mount_failed (- ENOMEM) sb else
    match nova_parse_options data false m dbgmask with
    | (ret, m, dbgmask) =>
      let sb := SuperBlock 0 0 flags 0 0 None phys 0 0 dbgmask in
      if decide (ret ≠ 0) then mount_failed (- EINVAL) sb else
      let m := mnt_set_opt (set_opt (s_mount_opt m) NOVA_MOUNT_MOUNTING) m in
      modify (set_sbi (SbInfo 0 size 0 RESERVED_BLOCKS (cpus s) 0 0
        (replicate (Z.to_nat (cpus s)) zero_inode_map) [] zero_free_list m)) ;;
      ret ← nova_alloc_block_free_lists;
      if decide (ret ≠ 0) then mount_failed (- ENOMEM) sb else
      s ← get_sbi;
      if test_opt s NOVA_MOUNT_FORMAT then
        r ← nova_init sb size;
        match r with
        | (inl _, sb) => mount_failed (- EINVAL) sb
        | (inr _, sb) => setup_sb order sb
        end
      else mount_existing order sb
    end
  end.

(** ** The other operations of the super block *)
Record kstatfs := Kstatfs {
  f_type : Z; f_bsize : Z; f_blocks : Z; f_bfree : Z; f_bavail : Z;
  f_files : Z; f_ffree : Z; f_namelen : Z
}.

Definition nova_statfs (sb : super_block) (s : nova_sb_info) : kstatfs :=
  let free := nova_count_free_blocks s in
  Kstatfs NOVA_SUPER_MAGIC (s_blocksize sb) (num_blocks s) free free
    LONG_MAX (u64 (LONG_MAX - s_inodes_used_count s)) NOVA_NAME_LEN.

(** What is printed for a mount, one constructor for each format string. *)
Inductive shown :=
  | Show_physaddr (a : Z) | Show_init (kb : Z) | Show_bs (n : Z) | Show_bpi (n : Z)
  | Show_N (n : Z) | Show_mode (n : Z) | Show_uid (n : Z) | Show_gid (n : Z)
  | Show_remount_ro | Show_panic | Show_wprotect | Show_dax.

Definition nova_show_options (sb : super_block) (s : nova_sb_info) : list shown :=
  let m := mnt s in
  let show (b : bool) (x : shown) := if b then [x] else [] in
  [Show_physaddr (phys_addr sb)] ++
  show (bool_decide (initsize s ≠ 0)) (Show_init (Z.shiftr (initsize s) 10)) ++
  show (bool_decide (blocksize sb ≠ 0)) (Show_bs (blocksize sb)) ++
  show (bool_decide (bpi m ≠ 0)) (Show_bpi (bpi m)) ++
  show (bool_decide (num_inodes sb ≠ 0)) (Show_N (num_inodes sb)) ++
  show (bool_decide (sbi_mode m ≠ 1023)) (Show_mode (sbi_mode m)) ++
  show (bool_decide (sbi_uid m ≠ 2 ^ 32 - 1)) (Show_uid (sbi_uid m)) ++
  show (bool_decide (sbi_gid m ≠ 2 ^ 32 - 1)) (Show_gid (sbi_gid m)) ++
  show (test_opt s NOVA_MOUNT_ERRORS_RO) Show_remount_ro ++
  show (test_opt s NOVA_MOUNT_ERRORS_PANIC) Show_panic ++
  show (test_opt s NOVA_MOUNT_PROTECT) Show_wprotect ++
  show (test_opt s NOVA_MOUNT_DAX) Show_dax.

(** [mntflags] are the new flags; the caller of [remount_fs] stores them. *)
Definition nova_remount (sb : super_block) (mntflags : Z) (data : option string)
  : M (Z * super_block) :=
  s ← get_sbi;
  let with_flags flags dbgmask :=
    SuperBlock (s_blocksize sb) (s_blocksize_bits sb) flags (s_magic sb) (s_maxbytes sb)
      (s_root sb) (phys_addr sb) (blocksize sb) (num_inodes sb) dbgmask in
  match nova_parse_options data true (mnt s) (nova_dbgmask sb) with
  | (ret, m, dbgmask) =>
    if decide (ret ≠ 0) then
      modify (λ w, set_sbi (set_mnt (mnt_set_opt (s_mount_opt (mnt s)) m) (w_sbi w)) w) ;;
      mret (- EINVAL, with_flags (s_flags sb) dbgmask)
    else
      modify (λ w, set_sbi (set_mnt m (w_sbi w)) w) ;;
      let flags := Z.lor (Z.land (s_flags sb) (Z.lnot MS_POSIXACL))
        (if decide (Z.land (s_mount_opt m) NOVA_MOUNT_POSIX_ACL ≠ 0)
         then MS_POSIXACL else 0) in
      (if decide (Z.land mntflags MS_RDONLY ≠ Z.land flags MS_RDONLY)
       then update_mount_time else mret ()) ;;
      mret (0, with_flags flags dbgmask)
  end.

(** The mapping of the device is there while the file system is mounted. *)
Definition nova_put_super : M () :=
  nova_save_inode_list_to_log ;;
  nova_save_blocknode_mappings_to_log ;;
  nova_delete_free_lists ;;
  modify (set_sbi zero_sbi).

(** The object of an inode of another generation stays in the cache when the
    reference to it is given back. *)
Definition nova_nfs_get_inode (ino generation : Z) : M (Z + Z) :=
  if decide (ino < NOVA_ROOT_INO) then mret (inl (- ESTALE)) else
  if decide (ino > LONG_MAX) then mret (inl (- ESTALE)) else
  r ← nova_iget ino;
  match r with
  | inl err => mret (inl err)
  | inr h =>
    v ← get_vfs h;
    if decide (generation ≠ 0 ∧ v_generation v ≠ generation)
    then mret (inl (- ESTALE)) else mret (inr h)
  end.
End super.
