(* ===== verification/SuperProofs.v ===== *)
(** * Properties of mounting (super.c)

    Mount options, the super block with its redundant copy, [statfs] and
    remounting. *)
From stdpp Require Import strings.
From S2P Require Import Prelude Nvmm RangeTree Layout World Balloc BallocList BallocProofs.
From S2P Require Import Log FileTree Inode Journal InodeMap Dir Rebuild InodeCycle Bbuild Scan.
From S2P Require Import Super BallocCount.

(** ** Mount options *)

(** Exactly one of the options [errors=] is set. *)
Definition one_policy (o : Z) : Prop :=
  (Z.testbit o 4, Z.testbit o 5, Z.testbit o 6) ∈
    [(true, false, false); (false, true, false); (false, false, true)].

(** What a remount may not change: identity of the file system, its owner, and
    the options for protection and formatting. *)
Record same_fixed (m m' : mount_info) : Prop := {
  sf_uid : sbi_uid m' = sbi_uid m;
  sf_bpi : bpi m' = bpi m;
  sf_generation : next_generation m' = next_generation m;
  sf_protect : Z.testbit (s_mount_opt m') 0 = Z.testbit (s_mount_opt m) 0;
  sf_format : Z.testbit (s_mount_opt m') 9 = Z.testbit (s_mount_opt m) 9
}.

Lemma testbit_set_opt o opt i : Z.testbit (set_opt o opt) i = Z.testbit o i || Z.testbit opt i.
Proof. apply Z.lor_spec. Qed.
Lemma testbit_clear_opt o opt i :
  0 ≤ i → Z.testbit (clear_opt o opt) i = Z.testbit o i && negb (Z.testbit opt i).
Proof. intros. unfold clear_opt. by rewrite Z.land_spec, Z.lnot_spec. Qed.

(** Evaluates the bits of a changed option word. *)
Ltac option_bits :=
  unfold one_policy in *;
  repeat (rewrite ?testbit_set_opt, ?testbit_clear_opt by lia);
  repeat match goal with
  | |- context [Z.testbit ?c ?i] =>
      is_const c; let b := eval vm_compute in (Z.testbit c i) in
      change (Z.testbit c i) with b
  end;
  rewrite ?andb_true_r, ?andb_false_r, ?orb_true_r, ?orb_false_r;
  cbn [negb andb orb].
Ltac is_policy := by apply (bool_decide_unpack _); vm_compute.

Section options.
Context `{Parser}.

Lemma parse_option_policy p remount m d m' d' :
  one_policy (s_mount_opt m) → parse_option p remount m d = Some (m', d') →
  one_policy (s_mount_opt m') ∧ (remount = true → same_fixed m m').
Proof.
  intros Hm. unfold parse_option. destruct (match_token p tokens) as [[] arg];
    try destruct remount; try destruct (match_int arg); try destruct (match_octal arg);
    intros [= <- <-]; cbn [s_mount_opt mnt_set_opt];
    (split; [try done; option_bits; (is_policy || done)
            |intros; try done; split; cbn [s_mount_opt mnt_set_opt]; try done; by option_bits]).
Qed.

Lemma parse_pieces_policy l remount m d ret m' d' :
  one_policy (s_mount_opt m) → parse_pieces l remount m d = (ret, m', d') →
  (ret = 0 ∨ ret = - EINVAL) ∧ one_policy (s_mount_opt m') ∧
  (remount = true → same_fixed m m').
Proof.
  revert m d. induction l as [|p l IH]; intros m d Hm; cbn.
  { intros [= <- <- <-]. split_and!; [by left|done|by split]. }
  case_decide; [by apply IH|].
  destruct (parse_option p remount m d) as [[m1 d1]|] eqn:Hp.
  - apply parse_option_policy in Hp as [Hm1 Hf1]; [|done]. intros Hl.
    apply IH in Hl as (?&?&Hf2); [|done]. split_and!; [done..|].
    intros Hr. destruct (Hf1 Hr), (Hf2 Hr). split; congruence.
  - intros [= <- <- <-]. split_and!; [by right|done|by split].
Qed.

(** C33. Mount options.  The defaults of a mount name exactly one policy for
    errors, and parsing options, whatever they are and even when it stops at a
    bad one, keeps it so; the result is 0 or [-EINVAL].  A remount leaves the
    owner, the bytes per inode, the generation counter, write protection and
    formatting as they were. *)
Theorem parse_options_policy `{Machine} data remount m d ret m' d' :
  one_policy (s_mount_opt (mnt (set_default_opts zero_sbi))) ∧
  (one_policy (s_mount_opt m) → nova_parse_options data remount m d = (ret, m', d') →
   (ret = 0 ∨ ret = - EINVAL) ∧ one_policy (s_mount_opt m') ∧
   (remount = true → same_fixed m m')).
Proof.
  split; [is_policy|]. intros Hm. destruct data as [s|]; cbn -[parse_pieces].
  - destruct (strsep s) as [p l]. by apply (parse_pieces_policy (p :: l)).
  - intros [= <- <- <-]. split_and!; [by left|done|by split].
Qed.

(** C34. A refused remount.  When the parser rejects the options, [nova_remount]
    returns [-EINVAL] and restores the option word and the flags of the super
    block; NVMM and the free lists are untouched.  Mode, group and debug mask
    keep what the options before the bad one have made of them. *)
Theorem nova_remount_refused `{Env} sb mntflags data w ret m' d' :
  nova_parse_options data true (mnt (w_sbi w)) (nova_dbgmask sb) = (ret, m', d') → ret ≠ 0 →
  ∃ w' sb', nova_remount sb mntflags data w = Done ((- EINVAL, sb'), w') ∧
    s_mount_opt (mnt (w_sbi w')) = s_mount_opt (mnt (w_sbi w)) ∧
    s_flags sb' = s_flags sb ∧ w_nvmm w' = w_nvmm w ∧
    free_lists (w_sbi w') = free_lists (w_sbi w) ∧
    sbi_mode (mnt (w_sbi w')) = sbi_mode m' ∧ sbi_gid (mnt (w_sbi w')) = sbi_gid m' ∧
    nova_dbgmask sb' = d'.
Proof.
  intros Hp Hret. unfold nova_remount. run. rewrite Hp, decide_True by done. run.
  eexists _, _. split; [done|]. done.
Qed.
End options.

(** ** Counting free blocks *)

(** C32. [statfs] is exact.  In the invariant of the allocator the free count
    [nova_statfs] reports is the number of free blocks: the length of a list
    without repetitions of exactly these blocks.  It never exceeds the number
    of blocks behind the reserved ones, and all of it is offered to users. *)
Theorem statfs_counts_free sb w :
  balloc_ok w →
  let st := nova_statfs sb (w_sbi w) in
  ∃ l, NoDup l ∧ (∀ b, b ∈ l ↔ block_free (w_sbi w) b) ∧
    f_bfree st = Z.of_nat (length l) ∧ f_bavail st = f_bfree st ∧
    0 ≤ f_bfree st ≤ f_blocks st - reserved_blocks (w_sbi w).
Proof.
  intros Hok st. exists (all_blocks (w_sbi w)). subst st.
  cbn [nova_statfs f_bfree f_bavail f_blocks].
  split_and!; [by apply NoDup_all_blocks|intros b; by apply elem_of_all_blocks
              |by rewrite length_all_blocks|done|rewrite <- length_all_blocks by done; lia|].
  by apply count_free_bound.
Qed.

(** ** The super block and its copy *)
Class CrcLaws `{Crc} : Prop := {
  crc16_range c l : 0 ≤ crc16 c l < 2 ^ 16
}.

Section integrity.
Context `{Env} `{CrcLaws}.

Definition magic_ok (m : mem) (ps : Z) : Prop :=
  ld 4 m (ps + nova_super_block.s_magic) = NOVA_SUPER_MAGIC.
Definition sum_ok (m : mem) (ps : Z) : Prop :=
  ld 2 m ps = crc16 0xFFFF (ld_bytes 38 m (ps + 2)).
#[local] Instance magic_ok_dec m ps : Decision (magic_ok m ps) := decide_rel (=) _ _.
#[local] Instance sum_ok_dec m ps : Decision (sum_ok m ps) := decide_rel (=) _ _.

(** What [nova_sync_super] makes of a memory: a new write time and checksum,
    and a copy. *)
Record synced (ps : Z) (m m' : mem) : Prop := {
  sy_sum : sum_ok m' ps;
  sy_copy x : ps ≤ x < ps + 64 → ld8 m' (x + 512) = ld8 m' x;
  sy_same x : x < ps ∨ ps + 2 ≤ x < ps + 52 ∨ ps + 56 ≤ x < ps + 512 ∨ ps + 576 ≤ x →
              ld8 m' x = ld8 m x
}.

Lemma copied_byte m a n src x :
  src ≤ x < src + Z.of_nat n →
  ld8 (st_bytes m a (ld_bytes n m src)) (a + (x - src)) = ld8 m x.
Proof.
  intros Hx. replace (x - src) with (Z.of_nat (Z.to_nat (x - src))) by lia.
  assert (ld_bytes n m src !! Z.to_nat (x - src) = Some (ld8 m x)) as Hl.
  { replace x with (src + Z.of_nat (Z.to_nat (x - src))) at 2 by lia.
    assert (Z.to_nat (x - src) < n)%nat as Hi by lia. revert Hi. clear Hx.
    generalize (Z.to_nat (x - src)) as i. clear x. revert src.
    induction n as [|n IH]; intros src [|i] Hi; cbn -[Z.add Z.of_nat]; try lia.
    - by rewrite Z.add_0_r.
    - etrans; [apply (IH (src + 1) i); lia|]. do 2 f_equal. lia. }
  rewrite (ld8_st_bytes_in _ _ _ _ _ Hl). apply wrap_small, ld8_range.
Qed.

Lemma nova_sync_super_run ps w :
  ∃ w', nova_sync_super ps w = Done ((), w') ∧ w_sbi w' = w_sbi w ∧
    w_inodes w' = w_inodes w ∧ synced ps (vis (w_nvmm w)) (vis (w_nvmm w')).
Proof.
  unfold nova_sync_super. run. eexists. split; [done|]. split; [done|]. split; [done|].
  cbn [w_nvmm set_nvmm vis nvmm_write apply_write set_tick next_tick].
  unfold nova_super_block.s_sum, nova_super_block.s_wtime, NOVA_SB_SIZE.
  rewrite Z.add_0_r. change (Z.to_nat (NOVA_SB_STATIC_SIZE - 2)) with 38%nat.
  change (Z.to_nat nova_super_block.sizeof) with 64%nat.
  set (m1 := st_bytes (vis _) _ _). set (m2 := st_bytes m1 _ _).
  set (crc := crc16 _ _). set (m3 := st_bytes m2 _ _).
  assert (∀ x, ¬ ps + 512 ≤ x < ps + 576 →
    ld8 (st_bytes m3 (ps + 512) (ld_bytes 64 m3 ps)) x = ld8 m3 x) as Hout.
  { intros x Hx. apply ld8_st_bytes_out. rewrite length_ld_bytes. lia. }
  assert (∀ x, ¬ ps ≤ x < ps + 2 → ld8 m3 x = ld8 m2 x) as H3.
  { intros x Hx. apply ld8_st_bytes_out. rewrite length_le_split. lia. }
  assert (ld 2 m3 ps = crc) as Hcrc.
  { unfold m3. rewrite ld_st. apply Z.mod_small. apply crc16_range. }
  split.
  - unfold sum_ok. rewrite (ld_frame 2 m3), Hcrc by (intros; apply Hout; lia).
    unfold crc. f_equal. symmetry. apply ld_bytes_frame. intros x Hx.
    rewrite Hout, H3 by lia. done.
  - intros x Hx. rewrite (Hout x) by lia.
    replace (x + 512) with (ps + 512 + (x - ps)) by lia. apply copied_byte. lia.
  - intros x Hx. rewrite Hout, H3 by lia. unfold m2, m1.
    rewrite !ld8_st_bytes_out; [done|rewrite length_le_split; lia..].
Qed.

(** What a repair makes of a memory: the static fields of the copy, with a
    checksum computed anew. *)
Record repaired (ps : Z) (w w' : world) : Prop := {
  re_sbi : w_sbi w' = w_sbi w;
  re_inodes : w_inodes w' = w_inodes w;
  re_sum : sum_ok (vis (w_nvmm w')) ps;
  re_copy x : ps ≤ x < ps + 64 →
              ld8 (vis (w_nvmm w')) (x + 512) = ld8 (vis (w_nvmm w')) x;
  re_static x : ps + 2 ≤ x < ps + 52 →
                ld8 (vis (w_nvmm w')) x = ld8 (vis (w_nvmm w)) (x + 512);
  re_same x : x < ps ∨ ps + 64 ≤ x < ps + 512 ∨ ps + 576 ≤ x →
              ld8 (vis (w_nvmm w')) x = ld8 (vis (w_nvmm w)) x
}.

Lemma repair_super_run ps w :
  ∃ w', repair_super ps (ps + NOVA_SB_SIZE) w = Done ((), w') ∧ repaired ps w w'.
Proof.
  unfold repair_super. run. set (w1 := set_nvmm _ w).
  destruct (nova_sync_super_run ps w1) as (w2&Hrun&Hs&Hi&[Hsum Hcopy Hsame]).
  rewrite (bind_run _ _ _ _ _ Hrun). run. eexists. split; [done|].
  assert (∀ x, x < ps ∨ ps + 64 ≤ x → ld8 (vis (w_nvmm w1)) x = ld8 (vis (w_nvmm w)) x) as Hw1.
  { intros x Hx. unfold w1. cbn. apply ld8_st_bytes_out. rewrite length_ld_bytes.
    unfold nova_super_block.sizeof. lia. }
  split; cbn [set_nvmm w_sbi w_inodes w_nvmm]; rewrite ?vis_flush; try done.
  - intros x Hx. rewrite Hsame by lia. unfold w1. cbn.
    replace x with (ps + (x + 512 - (ps + NOVA_SB_SIZE))) at 1 by (unfold NOVA_SB_SIZE; lia).
    apply copied_byte. unfold NOVA_SB_SIZE, nova_super_block.sizeof. lia.
  - intros x Hx. rewrite Hsame by lia. apply Hw1. lia.
Qed.

Lemma nova_calc_checksum_run ps w :
  nova_calc_checksum ps NOVA_SB_STATIC_SIZE w =
  Done (bool_decide (¬ sum_ok (vis (w_nvmm w)) ps), w).
Proof.
  unfold nova_calc_checksum. run. change (Z.to_nat (NOVA_SB_STATIC_SIZE - 2)) with 38%nat.
  done.
Qed.

Lemma check_static_good ps w :
  sum_ok (vis (w_nvmm w)) ps → check_static ps (ps + NOVA_SB_SIZE) w = Done (1, w).
Proof.
  intros Hs. unfold check_static. rewrite (bind_run _ _ _ _ _ (nova_calc_checksum_run ps w)).
  by rewrite bool_decide_false by tauto.
Qed.

Lemma check_integrity_good ps w :
  magic_ok (vis (w_nvmm w)) ps → sum_ok (vis (w_nvmm w)) ps →
  nova_check_integrity ps w = Done (1, w).
Proof.
  intros Hm Hs. unfold nova_check_integrity. run. rewrite decide_False by (unfold magic_ok in Hm; tauto).
  by apply check_static_good.
Qed.

Lemma check_integrity_lost ps w :
  ¬ magic_ok (vis (w_nvmm w)) ps → magic_ok (vis (w_nvmm w)) (ps + NOVA_SB_SIZE) →
  ∃ w', nova_check_integrity ps w = Done (1, w') ∧ repaired ps w w'.
Proof.
  unfold magic_ok. intros Hm Hc. unfold nova_check_integrity. run.
  rewrite decide_True by done. run. rewrite decide_False by tauto.
  destruct (repair_super_run ps w) as (w'&Hrun&Hr).
  rewrite (bind_run _ _ _ _ _ Hrun). exists w'. split; [|done].
  apply check_static_good, Hr.
Qed.

(** C35. The check of the super block, case by case.  A super block with its
    magic number and checksum is accepted and nothing is written.  One with a
    wrong checksum is replaced by its copy if the checksum of the copy is
    right, otherwise the mount is refused with nothing changed.  One without
    the magic number is replaced by the copy as soon as that has the magic
    number: the repair computes the checksum anew before it is compared, so a
    damaged copy is accepted too. *)
Theorem nova_check_integrity_cases ps w :
  let m := vis (w_nvmm w) in let copy := ps + NOVA_SB_SIZE in
  (magic_ok m ps → sum_ok m ps → nova_check_integrity ps w = Done (1, w)) ∧
  (magic_ok m ps → ¬ sum_ok m ps → sum_ok m copy →
   ∃ w', nova_check_integrity ps w = Done (1, w') ∧ repaired ps w w') ∧
  (magic_ok m ps → ¬ sum_ok m ps → ¬ sum_ok m copy →
   nova_check_integrity ps w = Done (0, w)) ∧
  (¬ magic_ok m ps → magic_ok m copy →
   ∃ w', nova_check_integrity ps w = Done (1, w') ∧ repaired ps w w') ∧
  (¬ magic_ok m ps → ¬ magic_ok m copy → nova_check_integrity ps w = Done (0, w)).
Proof.
  intros m copy.
  split_and!; [apply check_integrity_good| | |apply check_integrity_lost|];
    unfold nova_check_integrity, magic_ok; intros Hm; run; fold m; fold copy.
  - intros Hs Hc. rewrite decide_False by tauto. unfold check_static.
    rewrite (bind_run _ _ _ _ _ (nova_calc_checksum_run ps w)), bool_decide_true by done.
    rewrite (bind_run _ _ _ _ _ (nova_calc_checksum_run copy w)), bool_decide_false by tauto.
    destruct (repair_super_run ps w) as (w'&Hrun&Hr). unfold copy.
    rewrite (bind_run _ _ _ _ _ Hrun). by exists w'.
  - intros Hs Hc. rewrite decide_False by tauto. unfold check_static.
    rewrite (bind_run _ _ _ _ _ (nova_calc_checksum_run ps w)), bool_decide_true by done.
    by rewrite (bind_run _ _ _ _ _ (nova_calc_checksum_run copy w)), bool_decide_true by done.
  - intros Hc. rewrite decide_True by done. run. fold m. by rewrite decide_True by done.
Qed.

(** C36. Round trip of the super block.  What [nova_sync_super] writes passes
    [nova_check_integrity] without a repair, and so does its copy alone: with
    the first 64 bytes lost, the check restores the static fields as they were
    written. *)
Theorem sync_check_roundtrip ps w lost :
  magic_ok (vis (w_nvmm w)) ps → length lost = 64%nat →
  ∃ w1, nova_sync_super ps w = Done ((), w1) ∧
    nova_check_integrity ps w1 = Done (1, w1) ∧
    (let w2 := set_nvmm (nvmm_write Cached (WBytes ps lost) (w_nvmm w1)) w1 in
     ¬ magic_ok (vis (w_nvmm w2)) ps →
     ∃ w3, nova_check_integrity ps w2 = Done (1, w3) ∧
       (∀ x, ps + 2 ≤ x < ps + 52 → ld8 (vis (w_nvmm w3)) x = ld8 (vis (w_nvmm w)) x) ∧
       nova_check_integrity ps w3 = Done (1, w3)).
Proof.
  intros Hm Hlost. destruct (nova_sync_super_run ps w) as (w1&Hrun&_&_&[Hsum Hcopy Hsame]).
  exists w1. split; [done|].
  assert (magic_ok (vis (w_nvmm w1)) ps) as Hm1.
  { unfold magic_ok, nova_super_block.s_magic in *. rewrite <- Hm. apply ld_frame.
    intros. apply Hsame. lia. }
  split; [by apply check_integrity_good|].
  intros w2 Hm2.
  assert (∀ x, ps + 512 ≤ x < ps + 576 →
    ld8 (vis (w_nvmm w2)) x = ld8 (vis (w_nvmm w1)) (x - 512)) as Hw2.
  { intros x Hx. unfold w2. cbn. rewrite ld8_st_bytes_out by lia.
    rewrite <- (Hcopy (x - 512)) by lia. f_equal. lia. }
  destruct (check_integrity_lost ps w2) as (w3&Hrun3&Hr); [done| |].
  { unfold magic_ok, nova_super_block.s_magic, NOVA_SB_SIZE in *. rewrite <- Hm1.
    apply ld_move. intros i Hi. rewrite Hw2 by lia. f_equal. lia. }
  exists w3. destruct Hr as [_ _ Hsum3 _ Hst _].
  assert (∀ x, ps + 2 ≤ x < ps + 52 → ld8 (vis (w_nvmm w3)) x = ld8 (vis (w_nvmm w)) x) as Hw3.
  { intros x Hx. rewrite Hst, Hw2, <- Hsame by lia. f_equal. lia. }
  split_and!; [done..|]. apply check_integrity_good; [|done].
  unfold magic_ok, nova_super_block.s_magic in *. rewrite <- Hm. apply ld_frame.
  intros. apply Hw3. lia.
Qed.
End integrity.

(** ** Instances *)
Section instances.
#[local] Existing Instances bst_rb bst_rb_laws env1 env1_laws.

(** A 16-bit sum in place of the CRC. *)
Definition crc1 : Crc := {| crc16 c l := u16 (foldl (λ a b, 31 * a + b) c l) |}.
Lemma crc1_laws : @CrcLaws crc1.
Proof. split. intros. apply (wrap_range 16). lia. Qed.
#[local] Existing Instances crc1 crc1_laws.

(** A parser that knows the names of three tokens of the table. *)
Fixpoint octal (acc : Z) (s : string) : Z :=
  match s with
  | EmptyString => acc
  | String c s => octal (8 * acc + (Z.of_N (Ascii.N_of_ascii c) - 48)) s
  end.
Definition parser1 : Parser := {|
  match_token p _ :=
    if String.prefix "mode=" p then (Opt_mode, String.substring 5 (String.length p - 5) p)
    else if decide (p = "init"%string) then (Opt_init, EmptyString)
    else if decide (p = "errors=panic"%string) then (Opt_err_panic, EmptyString)
    else (Opt_err, EmptyString);
  match_int _ := None;
  match_octal s := Some (octal 0 s);
  make_kuid n := n;
  make_kgid n := n
|}.
#[local] Existing Instance parser1.
Definition machine1 : Machine := {|
  num_online_cpus := 2; direct_access := Some (65536, 0); virt_addr_ok := true;
  get_random _ := 0; current_fsuid := 0; current_fsgid := 0; d_make_root _ := true
|}.
#[local] Existing Instance machine1.

Definition mounted_info : mount_info := MountInfo 0x10 0 493 0 0 0.

Lemma parse_options_policy_witness :
  let '(ret, m', _) :=
    nova_parse_options (Some "errors=panic,mode=700"%string) true mounted_info 0 in
  ret = 0 ∧ sbi_mode m' = 448 ∧ one_policy (s_mount_opt m') ∧ same_fixed mounted_info m'.
Proof.
  destruct (nova_parse_options _ _ _ _) as [[ret m'] d'] eqn:Hp.
  destruct (parse_options_policy (Some "errors=panic,mode=700"%string) true mounted_info
    0 ret m' d') as [_ Hpol].
  destruct Hpol as (_&Ho&Hf); [is_policy|exact Hp|].
  split_and!; [| |exact Ho|by apply Hf]; vm_compute in Hp; by injection Hp as <- <- <-.
Defined.

(** The mode of the refused remount stays. *)
Lemma nova_remount_refused_witness :
  let w := set_sbi (set_mnt mounted_info small_sbi) small_world in
  ∃ w' sb', nova_remount zero_super 0 (Some "mode=700,nonsense"%string) w
      = Done ((- EINVAL, sb'), w') ∧
    s_mount_opt (mnt (w_sbi w')) = s_mount_opt (mnt (w_sbi w)) ∧
    sbi_mode (mnt (w_sbi w)) = 493 ∧ sbi_mode (mnt (w_sbi w')) = 448.
Proof.
  intros w. destruct (nova_remount_refused zero_super 0 (Some "mode=700,nonsense"%string) w
    (- EINVAL) (MountInfo 0x10 0 448 0 0 0) 0) as (w'&sb'&Hrun&Ho&_&_&_&Hmode&_).
  - vm_compute. reflexivity.
  - vm_compute. discriminate.
  - exists w', sb'. split; [exact Hrun|]. split; [exact Ho|]. split; [reflexivity|exact Hmode].
Defined.

Lemma statfs_counts_free_witness :
  f_bfree (nova_statfs zero_super small_sbi) = 15 ∧
  ∃ l, NoDup l ∧ (∀ b, b ∈ l ↔ block_free small_sbi b) ∧ length l = 15%nat.
Proof.
  split; [vm_compute; reflexivity|].
  destruct (statfs_counts_free zero_super small_world small_world_ok) as (l&Hnd&Hl&Hf&_).
  exists l. split; [exact Hnd|]. split; [exact Hl|].
  change (f_bfree _) with 15 in Hf. lia.
Defined.

(** A device whose super block is lost and whose copy has the magic number but
    not the checksum of its content. *)
Definition damaged_world : world :=
  World (nvmm_boot (st_bytes ∅ 516 (le_split 4 NOVA_SUPER_MAGIC))) small_sbi ∅ 0 ∅ [].

Lemma nova_check_integrity_cases_witness :
  ¬ sum_ok (vis (w_nvmm damaged_world)) 512 ∧
  ∃ w', nova_check_integrity 0 damaged_world = Done (1, w') ∧ repaired 0 damaged_world w'.
Proof.
  split; [vm_compute; discriminate|].
  destruct (nova_check_integrity_cases 0 damaged_world) as (_&_&_&Hlost&_).
  apply Hlost; [vm_compute; discriminate|vm_compute; reflexivity].
Defined.

Definition good_world : world :=
  World (nvmm_boot (st_bytes ∅ 4 (le_split 4 NOVA_SUPER_MAGIC))) small_sbi ∅ 0 ∅ [].

Lemma sync_check_roundtrip_witness :
  ∃ w1 w3, nova_sync_super 0 good_world = Done ((), w1) ∧
    nova_check_integrity 0
      (set_nvmm (nvmm_write Cached (WBytes 0 (replicate 64 0)) (w_nvmm w1)) w1)
      = Done (1, w3) ∧
    ∀ x, 2 ≤ x < 52 → ld8 (vis (w_nvmm w3)) x = ld8 (vis (w_nvmm good_world)) x.
Proof.
  destruct (sync_check_roundtrip 0 good_world (replicate 64 0)) as (w1&Hrun&_&Hlost).
  - vm_compute. reflexivity.
  - reflexivity.
  - destruct Hlost as (w3&Hrun3&Hst&_).
    + vm_compute in Hrun. injection Hrun as <-. vm_compute. discriminate.
    + exists w1, w3. split; [exact Hrun|]. split; [exact Hrun3|exact Hst].
Defined.
End instances.
